(* ===== verification/_CoqProject ===== *)
-Q . S2P
Prelude.v
UBig.v
UintN.v
UintNFacts.v
Paths.v
PathsFacts.v
PathsSearch.v
FileTree.v
Types.v
WalFormat.v
WalReader.v
WalReaderFacts.v
WalReaderTotal.v
OrderedBuffer.v
AckWriter.v
WalWriter.v
WalWriterFacts.v
Durability.v
Crypto.v
Compression.v
Seed.v
StoreFormat.v
Store.v
StoreFacts.v
WalStore.v
Cloud.v
Lookup.v
LookupFacts.v
QueueLayout.v
CloudFacts.v
WalLayout.v
Mem.v
MemFacts.v
MemClaims.v
MemInterleaved.v
ReaderFsm.v
DiskMonitor.v
ReaderFsmFacts.v
FsmClaims.v
ReaderTail.v
DiskMonitorFacts.v
NormFs.v
NormFsFacts.v
Startup.v
LiveLayout.v
StoreLive.v
Facade.v
FacadeFacts.v
FacadeReads.v
FacadeRun.v
FacadeFollow.v
FacadeStart.v
FacadeWork.v
FacadeClaims.v
Restarts.v
Protocol.v
Server.v
ServerFacts.v
ServerClaims.v
Connection.v
