(* ===== verification/Prelude.v ===== *)
(** * NormFS: a verification library for the storage engine

    NormFS keeps append-only queues of binary entries.  An entry gets the next
    id of its queue, stays in memory until it is durable, is written to a
    write-ahead log (WAL), and complete WAL files are turned into compressed,
    encrypted and signed store files.  Readers ask for a range of ids and are
    served from memory, from the WAL or from the store.

    ** Parts, files and correspondence

    - [Prelude]: results that may panic ([outcome]: [Ok], [Err], [Panic]), machine
      integers as [Z] with their width written out ([arith] follows the
      overflow-check setting of the build), bytes, slices, text; tactics.
    - [UBig]: the big-integer crate as a class with its laws, and an instance.
    - [UintN], [UintNFacts]: [uintn-rs/src/lib.rs], integers kept in the narrowest
      machine width.  [uintn_val] is the value; [uintn_ok] the representation
      invariant; [uintn_canonical] the normal form.
    - [Paths], [PathsFacts], [PathsSearch]: [uintn-rs/src/paths.rs] and
      [UintN::to_file_path]; a directory is a tree of nodes.
    - [Types]: [normfs-types/src/lib.rs].
    - [WalFormat]: [normfs-wal/src/wal_header.rs] and [wal_entry.rs]; the hash is the
      class [Hasher].
    - [WalReader], [WalReaderFacts], [WalReaderTotal]: [normfs-wal/src/reader.rs]; the
      disk is a function from paths to what opening gives, the receiver of the
      entries a channel whose other end may go away at any observation.
    - [OrderedBuffer]: [normfs-wal/src/writer_buffer.rs]; the sort is a class.
    - [AckWriter]: [normfs-wal/src/ack_file_writer.rs]; the background task as atomic
      steps (take the block, one attempt), so interleavings with the appends are
      sequences of events; attempts may fail part way or at the sync.
    - [WalWriter], [WalWriterFacts]: [normfs-wal/src/writer.rs]: ordering, rotation,
      the requests of the task.
    - [Durability]: what a crash leaves of a WAL file, and what the reader makes
      of it.
    - [Crypto]: [normfs-crypto/src/crypto.rs]; the crates are the classes
      [CryptoLib] and [CompressLib].
    - [StoreFormat], [Store], [StoreFacts]: [normfs-store/src/header.rs], [writer.rs],
      [ranges.rs], [parser.rs], [lib.rs]; the files are a finite map, the faults of
      the file system an argument.
    - [Mem], [MemFacts], [MemClaims]: [normfs/src/mem/mod.rs]; a call is the composition
      of the halves that its locks make of it.
    - [MemInterleaved]: these halves as the steps of concurrent callers, in any order.
    - [FileTree], [QueueLayout], [WalLayout]: a finite map of paths as a directory
      tree; what the files of a queue look like when their ids follow each other
      and each is in the WAL or in the store ([queue_layout]); the files a writer
      leaves are of that form.
    - [WalStore]: [normfs-wal/src/lib.rs]: the registry of writers, each a state and
      the requests in its channel; a turn of a task takes one request.
    - [Cloud], [CloudFacts]: [normfs-cloud/src/]; the HTTP requests are the class
      [S3Http], with a finite map of objects as an instance.
    - [Lookup], [LookupFacts]: [normfs/src/lookup.rs], a state monad over the caches
      of ranges.
    - [ReaderFsm], [ReaderFsmFacts], [FsmClaims], [ReaderTail]: [normfs/src/reader_fsm/];
      one definition per handler, [transition] chooses, [run_fsm] is the loop.
    - [DiskMonitor], [DiskMonitorFacts]: [normfs/src/offload/disk_monitor.rs] with the
      offloader's channel.
    - [NormFs], [NormFsFacts]: [normfs/src/lib.rs] and [config.rs]: recovery, the
      operations of the facade, and one definition per background task.
    - [LiveLayout], [StoreLive], [Facade], [FacadeFacts], [FacadeReads], [FacadeRun],
      [FacadeFollow], [FacadeStart], [FacadeWork], [FacadeClaims]: the facade as a
      machine: callers between the two halves of a call, reads and subscriptions,
      the turns of the tasks (writer, flush, acknowledgement, store worker, disk
      monitor), whole processes; its
      invariant ([live]) ties the memory, the writer, its channel and the files
      together.
    - [Protocol]: [normfs.proto] and the frames of [server/client_handler.rs]; the
      protobuf encoding is the class [ProtoCodec].
    - [Server], [ServerFacts], [ServerClaims]: [normfs/src/server/]: one definition per
      handler of a request, on the facade; the channels to a client as lists.
    - [Connection]: [ClientHandler::handle_connection] of [server/client_handler.rs]:
      the three loops of a TCP connection, their channels and the tasks of its
      requests as a machine.
    - [Compression]: [normfs-store/src/compression.rs]: both builds over the codecs as
      a class; each is a [CompressLib].
    - [Seed]: [normfs-crypto/src/seed.rs] and [CryptoContext::open]: one opening with
      the answers of the system as arguments, and several openers call by call.
    - [Startup]: [NormFS::new] from a data directory on, and
      [normfs/src/bin/normfs-server.rs]: options, settings, [main].
    - [Restarts]: runs of the program one after the other on a data directory, each closed
      or dead between two steps of its tasks.
    ** What the theorems show

    - Integers: arithmetic, order, stepping and serialisation agree with the
      natural numbers on every combination of widths ([UintNFacts]).
    - Paths: ids and paths determine each other; the searches are right for ids
      below [2^24] and wrong beyond ([PathsSearch]).
    - WAL: headers and entries read back; a reader sends exactly the complete
      entries asked for, the two readers agree on what a writer leaves, their loops
      end on all bytes ([WalFormat], [WalReaderTotal]); the writer puts entries arriving in any order
      into files that read back ([WalWriterFacts]); acknowledged entries are
      durable and survive a crash ([AckWriter], [Durability]).
    - Store: store files open into the WAL content, processing never loses it,
      the cached ranges are the announced ones ([StoreFacts]).
    - Memory: only acknowledged entries are dropped, reads and follows deliver
      exactly what was asked for when calls come one after the other ([MemClaims]);
      when their steps interleave, a follower misses only what was numbered between
      its reading and its subscription ([MemInterleaved]).
    - Facade: in every state a process reaches, reads (from an id or from the tail)
      that no other step interrupts are exact, and a follower whose follow was one
      step has been sent the entries from its start to the last one; when processes
      close or die between two steps, what they leave is a log to which each added
      the first of its entries, with all that it acknowledged, and all of them when
      it closed and its callers were orderly ([orderly]: every entry sent to the
      writer in the order of the ids, before the close); the next process starts from
      it ([lived], [FacadeClaims]).
    - Server: what a client wrote is what it reads back, a limited read is answered by
      one start, exactly its entries and one end, and the frames of a
      connection carry its requests ([ServerClaims]).
    - Readers: on a queue of consecutive files the lookup answers the right file,
      a limited read and a follow send exactly the entries asked for, wherever
      they are, and end ([FsmClaims]).
    - Disk monitor: a check removes the oldest files, no more than the limit asks
      for, until the limit or until it may not go on, and deletes only what it may
      ([DiskMonitorFacts]).
    - Program: runs of the server on a data directory have one identity, and the
      next one reads the log that they left ([Restarts]); openers at once agree on the seed
      ([Seed]); a connection keeps the order of requests and responses
      ([Connection]).
    - Bounds: the bytes a queue keeps in memory ([MemClaims]) and the size of WAL
      files ([WalWriterFacts]).
    Some theorems state a defect: they are named in the findings of the
    manifest.

    ** Bounds and fuel

    The reading loops take the number of bytes plus one as fuel: an entry header
    takes at least 16 bytes ([entry_progress]), and [wal_loops_terminate] shows that
    more changes nothing.  [flush_loop] has the source's 1000 attempts.  [advance]
    gets the distance to its target plus one, which a positive step cannot use
    up; it answers [None] when the source's loop would not end (step 0).
    [to_hex] and [push_chunks] get the number of binary digits and of characters.
    Lengths of byte strings are assumed to be at most [isize::MAX] where the
    source relies on it; ids in WAL files below [2^128].
    [run_fsm] answers [None] after more transitions than its fuel; [read_fuel] is
    enough for the files of a queue.  The search of a file halves the distance
    of two file ids; the number of files is enough fuel.  A cleanup takes a turn per
    id with a file, of which there are at most 2^24.
    The theorems of the facade bound the files and entries of a queue by 2^24:
    then the headers of files and entries keep their default sizes, whose range
    the id of an entry does not leave.

    ** Not modelled

    The loop that accepts connections ([server/mod.rs]) starts a handler for each;
    sockets are byte lists and the timeouts of a connection end them.  The parsers of
    options, URLs and addresses, the S3 client's HTTP requests, the protobuf encoding
    (generated), the compression codecs and the cryptographic primitives are
    interfaces.  Tasks are turns taken in any order; their timers are not modelled.
    A turn is whole: in the machine of the facade and in the handlers of the server a
    read ([NormFs.read]) and a call of the memory store are one step each, although
    other tasks may run at the awaits and between the locks in them
    ([read_skips_moved_file] and [MemInterleaved] are about that).  A read that never
    ends is [None] there, and the entries it sends are lost with it.  The theorems
    about processes that die assume that WAL blocks are written whole and without
    faults, and that the seed was opened without faults; for a death inside a write
    see [Durability], [torn_record_hides_entry] and [torn_seed_is_kept].
    Formatting of errors and logging are left out. *)
From Stdlib Require Import ZArith Lia List Permutation Sorted.
From Stdlib Require Strings.Byte.
From Stdlib Require Import Ascii String.
From stdpp Require Import base option list gmap strings.

#[local] Open Scope Z_scope.

(** ** Results that may panic *)

(** The result of a fallible Rust function: [Ok], [Err] or a panic (an index
    out of range, an arithmetic overflow with checks on, an explicit
    [panic!]). *)
Inductive outcome (E A : Type) : Type :=
| Ok (a : A)
| Err (e : E)
| Panic.
Arguments Ok {_ _} _.
Arguments Err {_ _} _.
Arguments Panic {_ _}.

#[export] Instance outcome_ret E : MRet (outcome E) := fun A a => Ok a.
#[export] Instance outcome_bind E : MBind (outcome E) := fun A B f m =>
  match m with Ok a => f a | Err e => Err e | Panic => Panic end.

(** [Result::map_err], which is also what the [?] operator does through the
    [From] implementations of the error types. *)
Definition map_err {E F A} (f : E -> F) (m : outcome E A) : outcome F A :=
  match m with Ok a => Ok a | Err e => Err (f e) | Panic => Panic end.

(** [Result::ok] *)
Definition ok_opt {E A} (m : outcome E A) : option A :=
  match m with Ok a => Some a | _ => None end.

(** ** Machine integers *)

Definition in_u (w z : Z) : Prop := 0 <= z < 2 ^ w.

#[export] Instance in_u_dec w z : Decision (in_u w z).
Proof. unfold in_u. apply _. Defined.

(** [as uN] on an unsigned value: truncation. *)
Definition as_u (w z : Z) : Z := z mod 2 ^ w.

(** How the program is built: [overflow_checks] is the Cargo profile setting
    (on in the dev profile, off in the release one). *)
Class Build := { overflow_checks : bool }.

(** The two profiles. *)
Definition checked_build : Build := {| overflow_checks := true |}.
Definition release_build : Build := {| overflow_checks := false |}.

(** The result of [+], [-], [*] at width [w], given the exact result [z]. *)
Definition arith `{Build} {E} (w z : Z) : outcome E Z :=
  if decide (in_u w z) then Ok z
  else if overflow_checks then Panic else Ok (as_u w z).

(** [checked_add] *)
Definition checked_add (w a b : Z) : option Z :=
  if decide (a + b < 2 ^ w) then Some (a + b) else None.

(** [saturating_sub] *)
Definition saturating_sub (a b : Z) : Z := Z.max 0 (a - b).

Lemma arith_ok `{Build} {E} w z : in_u w z -> arith (E := E) w z = Ok z.
Proof. intros Hz. unfold arith. by rewrite decide_True. Qed.

Lemma as_u_small w z : in_u w z -> as_u w z = z.
Proof. unfold in_u, as_u. intros. by apply Z.mod_small. Qed.

Lemma as_u_range w z : 0 <= w -> in_u w (as_u w z).
Proof. intros. apply Z.mod_pos_bound. lia. Qed.

Lemma in_u_mono w w' z : w <= w' -> in_u w z -> in_u w' z.
Proof.
  unfold in_u. intros Hw [? ?]. split; [done|].
  eapply Z.lt_le_trans; [done|]. apply Z.pow_le_mono_r; lia.
Qed.

Lemma leb_decide a b : (a <=? b) = bool_decide (a <= b).
Proof. destruct (Z.leb_spec a b); case_bool_decide; lia || done. Qed.
Lemma ltb_decide a b : (a <? b) = bool_decide (a < b).
Proof. destruct (Z.ltb_spec a b); case_bool_decide; lia || done. Qed.

(** ** Byte strings *)

Abbreviation byte := Byte.byte.
Abbreviation bytes := (list Byte.byte).

#[export] Instance byte_eq_dec : EqDecision byte := Byte.byte_eq_dec.

Definition byte_val (b : byte) : Z := Z.of_N (Byte.to_N b).
Definition byte_of (z : Z) : byte :=
  match Byte.of_N (Z.to_N (z mod 256)) with Some b => b | None => Byte.x00 end.

Lemma byte_val_range b : 0 <= byte_val b < 256.
Proof. unfold byte_val. pose proof (Byte.to_N_bounded b). lia. Qed.

Lemma byte_val_of z : byte_val (byte_of z) = z mod 256.
Proof.
  unfold byte_val, byte_of. pose proof (Z.mod_pos_bound z 256 eq_refl) as Hb.
  destruct (Byte.of_N _) as [b|] eqn:E.
  - apply Byte.to_of_N in E. lia.
  - apply Byte.of_N_None_iff in E. lia.
Qed.

Lemma byte_val_inj b c : byte_val b = byte_val c -> b = c.
Proof.
  unfold byte_val. intros H%N2Z.inj.
  pose proof (Byte.of_to_N b). pose proof (Byte.of_to_N c). congruence.
Qed.

Lemma byte_of_val b : byte_of (byte_val b) = b.
Proof.
  apply byte_val_inj. rewrite byte_val_of.
  apply Z.mod_small, byte_val_range.
Qed.

(** Lengths as [usize] values. *)
Definition zlen {A} (l : list A) : Z := Z.of_nat (length l).

Lemma zlen_nonneg {A} (l : list A) : 0 <= zlen l.
Proof. unfold zlen. lia. Qed.
Lemma zlen_app {A} (l k : list A) : zlen (l ++ k) = zlen l + zlen k.
Proof. unfold zlen. rewrite length_app. lia. Qed.
Lemma zlen_nil {A} : zlen (@nil A) = 0.
Proof. done. Qed.
Lemma zlen_cons {A} (x : A) l : zlen (x :: l) = 1 + zlen l.
Proof. unfold zlen. simpl. lia. Qed.
Lemma zlen_replicate {A} n (x : A) : 0 <= n -> zlen (replicate (Z.to_nat n) x) = n.
Proof. intros. unfold zlen. rewrite length_replicate. lia. Qed.
Lemma zlen_0 {A} (l : list A) : zlen l = 0 -> l = [].
Proof. destruct l; unfold zlen; simpl; [done|lia]. Qed.

(** [uN::to_le_bytes] and [uN::from_le_bytes]; [n] is the number of bytes. *)
Fixpoint le_bytes (n : nat) (z : Z) : bytes :=
  match n with
  | O => []
  | S n => byte_of z :: le_bytes n (z / 256)
  end.

Fixpoint le_val (l : bytes) : Z :=
  match l with
  | [] => 0
  | b :: l => byte_val b + 256 * le_val l
  end.

Lemma length_le_bytes n z : length (le_bytes n z) = n.
Proof. revert z. induction n; intros z; simpl; auto. Qed.

Lemma zlen_le_bytes n z : zlen (le_bytes n z) = Z.of_nat n.
Proof. unfold zlen. by rewrite length_le_bytes. Qed.

Lemma pow256 n : 2 ^ (8 * Z.of_nat (S n)) = 256 * 2 ^ (8 * Z.of_nat n).
Proof.
  replace (8 * Z.of_nat (S n)) with (8 + 8 * Z.of_nat n) by lia.
  rewrite Z.pow_add_r by lia. done.
Qed.

Lemma le_val_range l : 0 <= le_val l < 2 ^ (8 * Z.of_nat (length l)).
Proof.
  induction l as [|b l IH]; [simpl; lia|].
  cbn [length le_val]. rewrite pow256. pose proof (byte_val_range b). lia.
Qed.

Lemma le_val_le_bytes n z : le_val (le_bytes n z) = z mod 2 ^ (8 * Z.of_nat n).
Proof.
  revert z. induction n as [|n IH]; intros z; [simpl; by rewrite Z.mod_1_r|].
  cbn [le_bytes le_val]. rewrite IH, byte_val_of, pow256.
  rewrite Z.rem_mul_r by lia. done.
Qed.

Lemma le_val_le_bytes_small n z :
  in_u (8 * Z.of_nat n) z -> le_val (le_bytes n z) = z.
Proof. intros. rewrite le_val_le_bytes. by apply Z.mod_small. Qed.

Lemma le_val_u64 z : in_u 64 z -> le_val (le_bytes 8 z) = z.
Proof. apply (le_val_le_bytes_small 8). Qed.

Lemma le_bytes_le_val l : le_bytes (length l) (le_val l) = l.
Proof.
  induction l as [|b l IH]; [done|]. cbn [length le_bytes le_val].
  pose proof (byte_val_range b) as Hb. f_equal.
  - apply byte_val_inj. rewrite byte_val_of.
    rewrite Z.mul_comm, Z_mod_plus_full. by apply Z.mod_small.
  - replace ((byte_val b + 256 * le_val l) / 256) with (le_val l); [done|].
    rewrite Z.add_comm, Z.mul_comm, Z.div_add_l, Z.div_small by lia. lia.
Qed.

Lemma le_val_app l k :
  le_val (l ++ k) = le_val l + 2 ^ (8 * Z.of_nat (length l)) * le_val k.
Proof.
  induction l as [|b l IH]; [cbn; lia|].
  rewrite <- app_comm_cons. cbn [length le_val]. rewrite pow256, IH. ring.
Qed.

Lemma le_val_zeros n : le_val (replicate n Byte.x00) = 0.
Proof. induction n as [|n IH]; [done|]. cbn [replicate le_val]. rewrite IH. done. Qed.

Lemma le_val_pad l n : le_val (l ++ replicate n Byte.x00) = le_val l.
Proof. rewrite le_val_app, le_val_zeros. lia. Qed.

(** [&l[a..b]]: panics when [a > b] or [b > l.len()]. *)
Definition slice {E A} (l : list A) (a b : Z) : outcome E (list A) :=
  if decide (a <= b /\ b <= zlen l)
  then Ok (take (Z.to_nat (b - a)) (drop (Z.to_nat a) l))
  else Panic.

(** [&l[a..]]: panics when [a > l.len()]. *)
Definition slice_from {E A} (l : list A) (a : Z) : outcome E (list A) :=
  slice l a (zlen l).

Lemma slice_ok {E A} (l : list A) a b :
  a <= b <= zlen l ->
  slice (E := E) l a b = Ok (take (Z.to_nat (b - a)) (drop (Z.to_nat a) l)).
Proof. intros. unfold slice. by rewrite decide_True. Qed.

Lemma slice_from_ok {E A} (l : list A) a :
  0 <= a <= zlen l -> slice_from (E := E) l a = Ok (drop (Z.to_nat a) l).
Proof.
  intros. unfold slice_from. rewrite slice_ok by lia.
  rewrite take_ge; [done|]. rewrite length_drop. unfold zlen in *. lia.
Qed.

(** The middle of three parts: what a slice at known offsets reads. *)
Lemma slice_mid {E A} (p m s : list A) a b :
  a = zlen p -> b = zlen p + zlen m -> slice (E := E) (p ++ m ++ s) a b = Ok m.
Proof.
  intros -> ->. pose proof (zlen_nonneg p). pose proof (zlen_nonneg m).
  pose proof (zlen_nonneg s).
  rewrite slice_ok by (rewrite !zlen_app; lia). f_equal.
  replace (zlen p + zlen m - zlen p) with (zlen m) by lia.
  unfold zlen. rewrite !Nat2Z.id, drop_app_length, take_app_length. done.
Qed.

Lemma slice_head {E A} (m s : list A) b : b = zlen m -> slice (E := E) (m ++ s) 0 b = Ok m.
Proof. intros ->. by apply (slice_mid [] m s). Qed.

Lemma slice_from_tail {E A} (p s : list A) a :
  a = zlen p -> slice_from (E := E) (p ++ s) a = Ok s.
Proof.
  intros ->. rewrite slice_from_ok.
  - unfold zlen. by rewrite Nat2Z.id, drop_app_length.
  - rewrite zlen_app. pose proof (zlen_nonneg s). pose proof (zlen_nonneg p). lia.
Qed.

(** ** Rust strings, as their ASCII characters *)

Abbreviation str := (list ascii).
Definition s2l (s : string) : str := list_ascii_of_string s.

Fixpoint strip_prefix_l (p l : str) : option str :=
  match p, l with
  | [], _ => Some l
  | a :: p, b :: l => if decide (a = b) then strip_prefix_l p l else None
  | _, _ => None
  end.

(** [str::strip_suffix] *)
Definition strip_suffix (suf l : str) : option str :=
  option_map (@rev ascii) (strip_prefix_l (rev suf) (rev l)).

Lemma strip_prefix_l_app p l : strip_prefix_l p (p ++ l) = Some l.
Proof. induction p as [|a p IH]; [done|]. simpl. by rewrite decide_True. Qed.

Lemma strip_prefix_l_Some p l r : strip_prefix_l p l = Some r -> l = p ++ r.
Proof.
  revert l. induction p as [|a p IH]; intros [|b l] H; simpl in *; try congruence.
  case_decide; [|done]. subst. f_equal. by apply IH.
Qed.

Lemma strip_suffix_app suf l : strip_suffix suf (l ++ suf) = Some l.
Proof.
  unfold strip_suffix. rewrite rev_app_distr, strip_prefix_l_app. simpl.
  by rewrite rev_involutive.
Qed.

Lemma strip_suffix_Some suf l r : strip_suffix suf l = Some r -> l = r ++ suf.
Proof.
  unfold strip_suffix. destruct (strip_prefix_l _ _) as [x|] eqn:E; [|done].
  intros [= <-]. apply strip_prefix_l_Some in E.
  rewrite <- (rev_involutive l), E, rev_app_distr, rev_involutive. done.
Qed.

Lemma filter_none {A} (p : A -> bool) l : (forall x, In x l -> p x = false) -> List.filter p l = [].
Proof.
  intros Hp. induction l as [|x l IH]; [done|]. cbn [List.filter].
  rewrite Hp by (by left). apply IH. intros y Hy. apply Hp. by right.
Qed.

Lemma filter_Permutation {A} (p : A -> bool) l k : Permutation l k -> Permutation (List.filter p l) (List.filter p k).
Proof.
  induction 1 as [|x l k _ IH|x y l|l k m _ IH1 _ IH2]; cbn [List.filter].
  - constructor.
  - destruct (p x); [by constructor|done].
  - destruct (p y), (p x); [apply perm_swap|done..].
  - by rewrite IH1.
Qed.

Lemma filter_all {A} (p : A -> bool) l : (forall x, In x l -> p x = true) -> List.filter p l = l.
Proof.
  induction l as [|x l IH]; intros Hp; [done|]. cbn. rewrite Hp by (by left). f_equal.
  apply IH. intros y Hy. apply Hp. by right.
Qed.

(** ** Automation *)

Create HintDb normfs discriminated.
#[export] Hint Resolve zlen_nonneg byte_val_range arith_ok : normfs.

(** Evaluate the monadic binds and matches of a definition. *)
Ltac ok_step := cbn [mbind outcome_bind mret outcome_ret map_err ok_opt] in *.

(** Split on the first [match]/[if] scrutinee of the goal or a hypothesis. *)
Ltac case_step :=
  match goal with
  | |- context [match ?x with _ => _ end] => destruct x eqn:?
  | H : context [match ?x with _ => _ end] |- _ => destruct x eqn:?
  end.

(** Split on a boolean comparison of integers. *)
Ltac zbool_case :=
  match goal with
  | |- context [?a <=? ?b] => destruct (Z.leb_spec a b)
  | |- context [?a <? ?b] => destruct (Z.ltb_spec a b)
  | |- context [?a =? ?b] => destruct (Z.eqb_spec a b)
  | H : context [?a <=? ?b] |- _ => destruct (Z.leb_spec a b)
  | H : context [?a <? ?b] |- _ => destruct (Z.ltb_spec a b)
  | H : context [?a =? ?b] |- _ => destruct (Z.eqb_spec a b)
  end.

(** Split on a [decide] in a hypothesis or the goal. *)
Ltac decide_all :=
  repeat (case_decide || match goal with
    | H : context [decide ?P] |- _ => destruct (decide P) end).

Ltac inv_ok H := inversion H; subst; clear H.

(** An equation of closed terms, by evaluation. *)
Ltac vm_eq := match goal with |- ?a = ?b => vm_cast_no_check (@eq_refl _ b) end.
