(* ===== verification/UBig.v ===== *)
(** * The big-integer crate, as an interface

    [uintn-rs] keeps values above 128 bits in [dashu_int::UBig].  The crate is
    not part of the repository: it is the class [UBig], whose operations are
    the ones [uintn-rs/src/lib.rs] calls and whose laws state their documented
    meaning (an arbitrary-precision unsigned integer; byte strings without
    leading zero bytes).  [UBig_N] discharges the laws with Rocq's binary
    naturals, so every theorem of the library can be run. *)
From S2P Require Import Prelude.
From Stdlib Require Import ZArith Lia List.
From Stdlib Require Import Ascii String DecimalString DecimalN DecimalPos Decimal.
From stdpp Require Import base option list.
#[local] Open Scope Z_scope.

(** ** Hexadecimal text of a machine integer: [format!("{:x}", v)] *)

Definition hex_digit (d : Z) : ascii :=
  ascii_of_N (if decide (d < 10) then Z.to_N (48 + d) else Z.to_N (87 + d)).

(** Most significant digit first; [fuel] bounds the number of digits. *)
Fixpoint hex_go (fuel : nat) (z : Z) (acc : str) : str :=
  match fuel with
  | O => acc
  | S fuel =>
      if decide (z < 16) then hex_digit z :: acc
      else hex_go fuel (z / 16) (hex_digit (z mod 16) :: acc)
  end.

Definition to_hex (z : Z) : str := hex_go (S (Z.to_nat (Z.log2 z))) z [].

(** Decimal text: [format!("{}", v)] *)
Definition to_dec (z : Z) : str := s2l (NilZero.string_of_uint (N.to_uint (Z.to_N z))).

(** ** The interface *)

Class UBig := {
  ubig : Type;
  ubig_eq_dec :: EqDecision ubig;
  ubig_val : ubig -> Z;
  ubig_from : Z -> ubig;                  (* UBig::from(uN) *)
  ubig_add : ubig -> ubig -> ubig;
  ubig_sub : ubig -> ubig -> ubig;        (* called with lhs >= rhs *)
  ubig_div : ubig -> ubig -> ubig;
  ubig_rem : ubig -> ubig -> ubig;
  ubig_cmp : ubig -> ubig -> comparison;
  ubig_try_into : Z -> ubig -> option Z;  (* TryInto<u64> / TryInto<u128> *)
  ubig_to_le_bytes : ubig -> bytes;
  ubig_to_be_bytes : ubig -> bytes;
  ubig_from_le_bytes : bytes -> ubig;
  ubig_from_be_bytes : bytes -> ubig;
  ubig_to_hex : ubig -> str;              (* format!("{:x}", v) *)
  ubig_to_dec : ubig -> str;              (* format!("{}", v) *)
  ubig_val_nonneg x : 0 <= ubig_val x;
  ubig_val_inj x y : ubig_val x = ubig_val y -> x = y;
  ubig_val_from z : 0 <= z -> ubig_val (ubig_from z) = z;
  ubig_val_add x y : ubig_val (ubig_add x y) = ubig_val x + ubig_val y;
  ubig_val_sub x y :
    ubig_val y <= ubig_val x -> ubig_val (ubig_sub x y) = ubig_val x - ubig_val y;
  ubig_val_div x y :
    0 < ubig_val y -> ubig_val (ubig_div x y) = ubig_val x / ubig_val y;
  ubig_val_rem x y :
    0 < ubig_val y -> ubig_val (ubig_rem x y) = ubig_val x mod ubig_val y;
  ubig_cmp_spec x y : ubig_cmp x y = (ubig_val x ?= ubig_val y);
  ubig_try_into_spec w x :
    ubig_try_into w x = if decide (ubig_val x < 2 ^ w) then Some (ubig_val x) else None;
  ubig_to_le_bytes_val x : le_val (ubig_to_le_bytes x) = ubig_val x;
  ubig_to_le_bytes_min x n :
    ubig_val x < 2 ^ (8 * Z.of_nat n) -> (length (ubig_to_le_bytes x) <= n)%nat;
  ubig_to_be_bytes_spec x : ubig_to_be_bytes x = rev (ubig_to_le_bytes x);
  ubig_from_le_bytes_val l : ubig_val (ubig_from_le_bytes l) = le_val l;
  ubig_from_be_bytes_val l : ubig_val (ubig_from_be_bytes l) = le_val (rev l);
  ubig_to_hex_spec x : ubig_to_hex x = to_hex (ubig_val x);
  ubig_to_dec_spec x : ubig_to_dec x = to_dec (ubig_val x);
}.

#[export] Hint Resolve ubig_val_nonneg : normfs.

(** ** An instance: binary naturals *)

Fixpoint min_le_bytes (fuel : nat) (z : Z) : bytes :=
  match fuel with
  | O => []
  | S fuel => if decide (z <= 0) then [] else byte_of z :: min_le_bytes fuel (z / 256)
  end.

Definition N_le_bytes (n : N) : bytes := min_le_bytes (N.size_nat n) (Z.of_N n).

Lemma min_le_bytes_val fuel z :
  0 <= z < 2 ^ Z.of_nat fuel -> le_val (min_le_bytes fuel z) = z.
Proof.
  revert z. induction fuel as [|fuel IH]; intros z Hz; [simpl in *; lia|].
  cbn [min_le_bytes]. case_decide; [simpl; lia|].
  cbn [le_val]. rewrite byte_val_of, IH.
  - pose proof (Z.div_mod z 256). lia.
  - rewrite Nat2Z.inj_succ, Z.pow_succ_r in Hz by lia.
    split; [apply Z.div_pos; lia|]. apply Z.div_lt_upper_bound; lia.
Qed.

Lemma min_le_bytes_min fuel z n :
  0 <= z < 2 ^ (8 * Z.of_nat n) -> (length (min_le_bytes fuel z) <= n)%nat.
Proof.
  revert z n. induction fuel as [|fuel IH]; intros z n Hz; [simpl; lia|].
  cbn [min_le_bytes]. case_decide; [simpl; lia|].
  destruct n as [|n]; [simpl in Hz; lia|].
  cbn [length]. apply le_n_S, IH. rewrite pow256 in Hz.
  split; [apply Z.div_pos; lia|]. apply Z.div_lt_upper_bound; lia.
Qed.

Lemma N_size_bound n : Z.of_N n < 2 ^ Z.of_nat (N.size_nat n).
Proof.
  destruct n as [|p]; [simpl; lia|]. cbn [N.size_nat].
  enough (Zpos p < 2 ^ Z.of_nat (Pos.size_nat p)) by lia.
  induction p as [p IH|p IH|]; cbn [Pos.size_nat];
    rewrite ?Nat2Z.inj_succ, ?Z.pow_succ_r by lia; simpl; lia.
Qed.

#[export] Program Instance UBig_N : UBig := {
  ubig := N;
  ubig_val := Z.of_N;
  ubig_from := Z.to_N;
  ubig_add := N.add;
  ubig_sub := N.sub;
  ubig_div := N.div;
  ubig_rem := N.modulo;
  ubig_cmp := N.compare;
  ubig_try_into w n := if decide (Z.of_N n < 2 ^ w) then Some (Z.of_N n) else None;
  ubig_to_le_bytes := N_le_bytes;
  ubig_to_be_bytes n := rev (N_le_bytes n);
  ubig_from_le_bytes l := Z.to_N (le_val l);
  ubig_from_be_bytes l := Z.to_N (le_val (rev l));
  ubig_to_hex n := to_hex (Z.of_N n);
  ubig_to_dec n := to_dec (Z.of_N n);
}.
Next Obligation. lia. Qed.
Next Obligation. lia. Qed.
Next Obligation. lia. Qed.
Next Obligation. lia. Qed.
Next Obligation. lia. Qed.
Next Obligation. intros. apply N2Z.inj_div. Qed.
Next Obligation. intros. apply N2Z.inj_mod. Qed.
Next Obligation. intros. symmetry. apply N2Z.inj_compare. Qed.
Next Obligation. done. Qed.
Next Obligation.
  intros. apply min_le_bytes_val. pose proof (N_size_bound x). lia.
Qed.
Next Obligation. intros. apply min_le_bytes_min. simpl in *. lia. Qed.
Next Obligation. done. Qed.
Next Obligation. intros. apply Z2N.id, le_val_range. Qed.
Next Obligation. intros. apply Z2N.id, le_val_range. Qed.
Next Obligation. done. Qed.
Next Obligation. done. Qed.

(** ** Decimal text determines the number *)

Lemma to_uint_nonnil n : N.to_uint n <> Nil.
Proof. destruct n as [|p]; [done|]. apply DecimalPos.Unsigned.to_uint_nonnil. Qed.

Lemma s2l_inj a b : s2l a = s2l b -> a = b.
Proof.
  unfold s2l. intros H. rewrite <- (string_of_list_ascii_of_string a), H.
  apply string_of_list_ascii_of_string.
Qed.

Lemma to_dec_inj a b : 0 <= a -> 0 <= b -> to_dec a = to_dec b -> a = b.
Proof.
  intros Ha Hb H. apply s2l_inj in H.
  assert (N.to_uint (Z.to_N a) = N.to_uint (Z.to_N b)) as E.
  { pose proof (NilZero.usu (N.to_uint (Z.to_N a)) (to_uint_nonnil _)) as Hx.
    pose proof (NilZero.usu (N.to_uint (Z.to_N b)) (to_uint_nonnil _)) as Hy. congruence. }
  apply DecimalN.Unsigned.to_uint_inj in E. lia.
Qed.

Definition is_dec (c : ascii) : Prop := In c (s2l "0123456789").

Lemma nilempty_dec d : Forall is_dec (s2l (NilEmpty.string_of_uint d)).
Proof.
  unfold s2l. induction d; cbn [NilEmpty.string_of_uint list_ascii_of_string];
    [apply Forall_nil; done|apply Forall_cons; split; [unfold is_dec; simpl; tauto|done]..].
Qed.

Lemma to_dec_digits z : Forall is_dec (to_dec z).
Proof.
  unfold to_dec. generalize (N.to_uint (Z.to_N z)). intros d. destruct d eqn:E.
  { repeat constructor. }
  all: rewrite <- E; replace (NilZero.string_of_uint d) with (NilEmpty.string_of_uint d)
    by (by subst d); apply nilempty_dec.
Qed.
