(* ===== verification/UintN.v ===== *)
(** * Variable-width unsigned integers ([uintn-rs/src/lib.rs])

    [uintn] is the enum [UintN]: a value kept in the narrowest machine type, or
    in a big integer.  The operations follow the source arm by arm; the
    theorems relate them to arithmetic on the value [uintn_val] and show that
    the representation invariant [uintn_ok] (payload within its width, no
    machine-width payload that a narrower type could hold) is kept by every
    operation. *)
From Stdlib Require Import ZArith Lia List Bool.
From Stdlib Require Import Ascii String.
From stdpp Require Import base option list.
From S2P Require Import Prelude UBig.
#[local] Open Scope Z_scope.

(** [enum Error] *)
Inductive uerror :=
| uValueTooLarge
| uDecrementUnderflow
| uSliceTooShort
| uInvalidUintNSize
| uInvalidHexString
| uIo (msg : string).

(** [enum UintNType] *)
Inductive uintn_type := TU8 | TU16 | TU32 | TU64 | TU128 | TBig.

#[export] Instance uerror_eq_dec : EqDecision uerror.
Proof. solve_decision. Defined.
#[export] Instance uintn_type_eq_dec : EqDecision uintn_type.
Proof. solve_decision. Defined.

Definition u8_max : Z := 255.
Definition u16_max : Z := 65535.
Definition u32_max : Z := 4294967295.
Definition u64_max : Z := 18446744073709551615.
Definition u128_max : Z := 340282366920938463463374607431768211455.

Section UintN.
Context {B : Build} {U : UBig}.

(** [enum UintN] *)
Inductive uintn : Type :=
| U8 (v : Z)
| U16 (v : Z)
| U32 (v : Z)
| U64 (v : Z)
| U128 (v : Z)
| Big (v : ubig).

#[export] Instance uintn_eq_dec : EqDecision uintn.
Proof. solve_decision. Defined.

Definition uintn_zero : uintn := U8 0.
Definition uintn_one : uintn := U8 1.

(** ** Conversions *)

Definition uintn_from_u8 (value : Z) : uintn := U8 value.

Definition uintn_from_u16 (value : Z) : uintn :=
  if value <=? as_u 16 u8_max then U8 (as_u 8 value) else U16 value.

Definition uintn_from_u32 (value : Z) : uintn :=
  if value <=? as_u 32 u8_max then U8 (as_u 8 value)
  else if value <=? as_u 32 u16_max then U16 (as_u 16 value)
  else U32 value.

Definition uintn_from_u64 (value : Z) : uintn :=
  if value <=? as_u 64 u8_max then U8 (as_u 8 value)
  else if value <=? as_u 64 u16_max then U16 (as_u 16 value)
  else if value <=? as_u 64 u32_max then U32 (as_u 32 value)
  else U64 value.

Definition uintn_from_u128 (value : Z) : uintn :=
  if value <=? as_u 128 u8_max then U8 (as_u 8 value)
  else if value <=? as_u 128 u16_max then U16 (as_u 16 value)
  else if value <=? as_u 128 u32_max then U32 (as_u 32 value)
  else if value <=? as_u 128 u64_max then U64 (as_u 64 value)
  else U128 value.

Definition uintn_from_ubig (value : ubig) : uintn :=
  match ubig_try_into 128 value with
  | Some v => uintn_from_u128 v
  | None => Big value
  end.

Definition uintn_get_type (x : uintn) : uintn_type :=
  match x with
  | U8 _ => TU8 | U16 _ => TU16 | U32 _ => TU32
  | U64 _ => TU64 | U128 _ => TU128 | Big _ => TBig
  end.

Definition uintn_is_zero (x : uintn) : bool :=
  match x with
  | U8 v => v =? 0
  | U16 v => v =? 0
  | U32 v => v =? 0
  | U64 v => v =? 0
  | U128 v => v =? 0
  | Big v => bool_decide (v = ubig_from 0)
  end.

Definition uintn_to_u64 (x : uintn) : outcome uerror Z :=
  match x with
  | U8 v => Ok (as_u 64 v)
  | U16 v => Ok (as_u 64 v)
  | U32 v => Ok (as_u 64 v)
  | U64 v => Ok v
  | U128 v => if v <=? as_u 128 u64_max then Ok (as_u 64 v) else Err uValueTooLarge
  | Big v => match ubig_try_into 64 v with Some r => Ok r | None => Err uValueTooLarge end
  end.

Definition uintn_to_u128 (x : uintn) : outcome uerror Z :=
  match x with
  | U8 v => Ok (as_u 128 v)
  | U16 v => Ok (as_u 128 v)
  | U32 v => Ok (as_u 128 v)
  | U64 v => Ok (as_u 128 v)
  | U128 v => Ok v
  | Big v => match ubig_try_into 128 v with Some r => Ok r | None => Err uValueTooLarge end
  end.

Definition uintn_to_ubig (x : uintn) : ubig :=
  match x with
  | U8 v => ubig_from v
  | U16 v => ubig_from v
  | U32 v => ubig_from v
  | U64 v => ubig_from v
  | U128 v => ubig_from v
  | Big v => v
  end.

(** ** Equality and order *)

(** [impl PartialEq for UintN] *)
Definition uintn_eqb (x y : uintn) : bool :=
  match x, y with
  | U8 a, U8 b => a =? b
  | U16 a, U16 b => a =? b
  | U32 a, U32 b => a =? b
  | U64 a, U64 b => a =? b
  | U128 a, U128 b => a =? b
  | Big a, Big b => bool_decide (a = b)

  | U8 a, U16 b => as_u 16 a =? b
  | U8 a, U32 b => as_u 32 a =? b
  | U8 a, U64 b => as_u 64 a =? b
  | U8 a, U128 b => as_u 128 a =? b

  | U16 a, U8 b => a =? as_u 16 b
  | U16 a, U32 b => as_u 32 a =? b
  | U16 a, U64 b => as_u 64 a =? b
  | U16 a, U128 b => as_u 128 a =? b

  | U32 a, U8 b => a =? as_u 32 b
  | U32 a, U16 b => a =? as_u 32 b
  | U32 a, U64 b => as_u 64 a =? b
  | U32 a, U128 b => as_u 128 a =? b

  | U64 a, U8 b => a =? as_u 64 b
  | U64 a, U16 b => a =? as_u 64 b
  | U64 a, U32 b => a =? as_u 64 b
  | U64 a, U128 b => as_u 128 a =? b

  | U128 a, U8 b => a =? as_u 128 b
  | U128 a, U16 b => a =? as_u 128 b
  | U128 a, U32 b => a =? as_u 128 b
  | U128 a, U64 b => a =? as_u 128 b

  | _, _ =>
      match uintn_to_u128 y with
      | Ok b_val => match uintn_to_u128 x with Ok a_val => a_val =? b_val | _ => false end
      | _ => false
      end
  end.

(** [impl Ord for UintN] *)
Definition uintn_cmp (x y : uintn) : comparison :=
  match x, y with
  | U8 a, U8 b => a ?= b
  | U8 a, U16 b => as_u 16 a ?= b
  | U8 a, U32 b => as_u 32 a ?= b
  | U8 a, U64 b => as_u 64 a ?= b
  | U8 a, U128 b => as_u 128 a ?= b

  | U16 a, U8 b => a ?= as_u 16 b
  | U16 a, U16 b => a ?= b
  | U16 a, U32 b => as_u 32 a ?= b
  | U16 a, U64 b => as_u 64 a ?= b
  | U16 a, U128 b => as_u 128 a ?= b

  | U32 a, U8 b => a ?= as_u 32 b
  | U32 a, U16 b => a ?= as_u 32 b
  | U32 a, U32 b => a ?= b
  | U32 a, U64 b => as_u 64 a ?= b
  | U32 a, U128 b => as_u 128 a ?= b

  | U64 a, U8 b => a ?= as_u 64 b
  | U64 a, U16 b => a ?= as_u 64 b
  | U64 a, U32 b => a ?= as_u 64 b
  | U64 a, U64 b => a ?= b
  | U64 a, U128 b => as_u 128 a ?= b

  | U128 a, U8 b => a ?= as_u 128 b
  | U128 a, U16 b => a ?= as_u 128 b
  | U128 a, U32 b => a ?= as_u 128 b
  | U128 a, U64 b => a ?= as_u 128 b
  | U128 a, U128 b => a ?= b

  | _, _ => ubig_cmp (uintn_to_ubig x) (uintn_to_ubig y)
  end.

(** The comparison operators derived from [PartialOrd], and [Ord::min]/[max]. *)
Definition uintn_ltb (x y : uintn) : bool :=
  match uintn_cmp x y with Lt => true | _ => false end.
Definition uintn_leb (x y : uintn) : bool :=
  match uintn_cmp x y with Gt => false | _ => true end.
Definition uintn_min (x y : uintn) : uintn := if uintn_ltb y x then y else x.
Definition uintn_max (x y : uintn) : uintn := if uintn_ltb y x then x else y.

(** ** Arithmetic *)

(** The guards keep [v + 1] within its width. *)
Definition uintn_increment (x : uintn) : uintn :=
  match x with
  | U8 v => if v =? u8_max then U16 256 else U8 (v + 1)
  | U16 v => if v =? u16_max then U32 65536 else U16 (v + 1)
  | U32 v => if v =? u32_max then U64 4294967296 else U32 (v + 1)
  | U64 v => if v =? u64_max then U128 18446744073709551616 else U64 (v + 1)
  | U128 v =>
      if v =? u128_max then Big (ubig_add (ubig_from v) (ubig_from 1)) else U128 (v + 1)
  | Big v => Big (ubig_add v (ubig_from 1))
  end.

Definition uintn_decrement (x : uintn) : outcome uerror uintn :=
  if uintn_is_zero x then Err uDecrementUnderflow
  else match x with
  | U8 v => Ok (uintn_from_u8 (v - 1))
  | U16 v => Ok (uintn_from_u16 (v - 1))
  | U32 v => Ok (uintn_from_u32 (v - 1))
  | U64 v => Ok (uintn_from_u64 (v - 1))
  | U128 v => Ok (uintn_from_u128 (v - 1))
  | Big v => Ok (uintn_from_ubig (ubig_sub v (ubig_from 1)))
  end.

Definition uintn_add (x other : uintn) : uintn :=
  if uintn_is_zero other then x
  else match x, other with
  | U8 a, U8 b =>
      match checked_add 8 a b with
      | Some result => U8 result
      | None => U16 (as_u 16 a + as_u 16 b)
      end
  | U8 a, U16 b | U16 b, U8 a =>
      let a := as_u 16 a in
      match checked_add 16 a b with
      | Some result => uintn_from_u16 result
      | None => U32 (as_u 32 a + as_u 32 b)
      end
  | U8 a, U32 b | U32 b, U8 a =>
      let a := as_u 32 a in
      match checked_add 32 a b with
      | Some result => uintn_from_u32 result
      | None => U64 (as_u 64 a + as_u 64 b)
      end
  | U8 a, U64 b | U64 b, U8 a =>
      let a := as_u 64 a in
      match checked_add 64 a b with
      | Some result => uintn_from_u64 result
      | None => U128 (as_u 128 a + as_u 128 b)
      end
  | U8 a, U128 b | U128 b, U8 a =>
      let a := as_u 128 a in
      match checked_add 128 a b with
      | Some result => uintn_from_u128 result
      | None => Big (ubig_add (ubig_from a) (ubig_from b))
      end
  | U16 a, U16 b =>
      match checked_add 16 a b with
      | Some result => uintn_from_u16 result
      | None => U32 (as_u 32 a + as_u 32 b)
      end
  | U16 a, U32 b | U32 b, U16 a =>
      let a := as_u 32 a in
      match checked_add 32 a b with
      | Some result => uintn_from_u32 result
      | None => U64 (as_u 64 a + as_u 64 b)
      end
  | U16 a, U64 b | U64 b, U16 a =>
      let a := as_u 64 a in
      match checked_add 64 a b with
      | Some result => uintn_from_u64 result
      | None => U128 (as_u 128 a + as_u 128 b)
      end
  | U16 a, U128 b | U128 b, U16 a =>
      let a := as_u 128 a in
      match checked_add 128 a b with
      | Some result => uintn_from_u128 result
      | None => Big (ubig_add (ubig_from a) (ubig_from b))
      end
  | U32 a, U32 b =>
      match checked_add 32 a b with
      | Some result => uintn_from_u32 result
      | None => U64 (as_u 64 a + as_u 64 b)
      end
  | U32 a, U64 b | U64 b, U32 a =>
      let a := as_u 64 a in
      match checked_add 64 a b with
      | Some result => uintn_from_u64 result
      | None => U128 (as_u 128 a + as_u 128 b)
      end
  | U32 a, U128 b | U128 b, U32 a =>
      let a := as_u 128 a in
      match checked_add 128 a b with
      | Some result => uintn_from_u128 result
      | None => Big (ubig_add (ubig_from a) (ubig_from b))
      end
  | U64 a, U64 b =>
      match checked_add 64 a b with
      | Some result => uintn_from_u64 result
      | None => U128 (as_u 128 a + as_u 128 b)
      end
  | U64 a, U128 b | U128 b, U64 a =>
      let a := as_u 128 a in
      match checked_add 128 a b with
      | Some result => uintn_from_u128 result
      | None => Big (ubig_add (ubig_from a) (ubig_from b))
      end
  | U128 a, U128 b =>
      match checked_add 128 a b with
      | Some result => uintn_from_u128 result
      | None => Big (ubig_add (ubig_from a) (ubig_from b))
      end
  | _, _ => Big (ubig_add (uintn_to_ubig x) (uintn_to_ubig other))
  end.

Definition uintn_sub (x other : uintn) : outcome uerror uintn :=
  if uintn_is_zero other then Ok x
  else match x, other with
  | U8 a, U8 b =>
      if b <=? a then Ok (uintn_from_u8 (a - b)) else Err uDecrementUnderflow
  | U16 a, U8 b => r ← arith 16 (a - as_u 16 b); Ok (uintn_from_u16 r)
  | U16 a, U16 b =>
      if b <=? a then Ok (uintn_from_u16 (a - b)) else Err uDecrementUnderflow
  | U32 a, U8 b => r ← arith 32 (a - as_u 32 b); Ok (uintn_from_u32 r)
  | U32 a, U16 b => r ← arith 32 (a - as_u 32 b); Ok (uintn_from_u32 r)
  | U32 a, U32 b =>
      if b <=? a then Ok (uintn_from_u32 (a - b)) else Err uDecrementUnderflow
  | U64 a, U8 b => r ← arith 64 (a - as_u 64 b); Ok (uintn_from_u64 r)
  | U64 a, U16 b => r ← arith 64 (a - as_u 64 b); Ok (uintn_from_u64 r)
  | U64 a, U32 b => r ← arith 64 (a - as_u 64 b); Ok (uintn_from_u64 r)
  | U64 a, U64 b =>
      if b <=? a then Ok (uintn_from_u64 (a - b)) else Err uDecrementUnderflow
  | U128 a, U8 b => r ← arith 128 (a - as_u 128 b); Ok (uintn_from_u128 r)
  | U128 a, U16 b => r ← arith 128 (a - as_u 128 b); Ok (uintn_from_u128 r)
  | U128 a, U32 b => r ← arith 128 (a - as_u 128 b); Ok (uintn_from_u128 r)
  | U128 a, U64 b => r ← arith 128 (a - as_u 128 b); Ok (uintn_from_u128 r)
  | U128 a, U128 b =>
      if b <=? a then Ok (uintn_from_u128 (a - b)) else Err uDecrementUnderflow
  | _, _ =>
      if uintn_ltb x other then Err uDecrementUnderflow
      else Ok (uintn_from_ubig (ubig_sub (uintn_to_ubig x) (uintn_to_ubig other)))
  end.

Definition uintn_shrink_to_fit (x : uintn) : uintn :=
  match x with
  | U8 _ => x
  | _ => uintn_from_ubig (uintn_to_ubig x)
  end.

Definition uintn_middle (x other : uintn) : uintn :=
  match x, other with
  | U8 a, U8 b => U8 (as_u 8 ((as_u 16 a + as_u 16 b) / 2))
  | U16 a, U16 b => U16 (as_u 16 ((as_u 32 a + as_u 32 b) / 2))
  | U32 a, U32 b => U32 (as_u 32 ((as_u 64 a + as_u 64 b) / 2))
  | U64 a, U64 b => U64 (as_u 64 ((as_u 128 a + as_u 128 b) / 2))
  | U128 a, U128 b =>
      let sum := ubig_add (ubig_from a) (ubig_from b) in
      let half := ubig_div sum (ubig_from 2) in
      match ubig_try_into 128 half with
      | Some val => U128 val
      | None => Big half
      end
  | _, _ =>
      let sum := ubig_add (uintn_to_ubig x) (uintn_to_ubig other) in
      uintn_from_ubig (ubig_div sum (ubig_from 2))
  end.

(** [impl Rem for &UintN] *)
Definition uintn_rem (x rhs : uintn) : outcome uerror uintn :=
  if uintn_is_zero rhs then Panic
  else match x, rhs with
  | U8 a, U8 b => Ok (uintn_from_u8 (a mod b))
  | U16 a, U16 b => Ok (uintn_from_u16 (a mod b))
  | U16 a, U8 b => Ok (uintn_from_u16 (a mod as_u 16 b))
  | U32 a, U32 b => Ok (uintn_from_u32 (a mod b))
  | U32 a, U16 b => Ok (uintn_from_u32 (a mod as_u 32 b))
  | U32 a, U8 b => Ok (uintn_from_u32 (a mod as_u 32 b))
  | U64 a, U64 b => Ok (uintn_from_u64 (a mod b))
  | U64 a, U32 b => Ok (uintn_from_u64 (a mod as_u 64 b))
  | U64 a, U16 b => Ok (uintn_from_u64 (a mod as_u 64 b))
  | U64 a, U8 b => Ok (uintn_from_u64 (a mod as_u 64 b))
  | U128 a, U128 b => Ok (uintn_from_u128 (a mod b))
  | U128 a, U64 b => Ok (uintn_from_u128 (a mod as_u 128 b))
  | U128 a, U32 b => Ok (uintn_from_u128 (a mod as_u 128 b))
  | U128 a, U16 b => Ok (uintn_from_u128 (a mod as_u 128 b))
  | U128 a, U8 b => Ok (uintn_from_u128 (a mod as_u 128 b))
  | Big a, Big b => Ok (uintn_from_ubig (ubig_rem a b))
  | _, _ => Ok (uintn_from_ubig (ubig_rem (uintn_to_ubig x) (uintn_to_ubig rhs)))
  end.

(** [step] is a [usize]. *)
Definition uintn_in_step (x from : uintn) (step : Z) : outcome uerror bool :=
  if step =? 1 then Ok true
  else if uintn_ltb x from then Ok false
  else
    diff ← match uintn_sub x from with
           | Ok d => Ok d | Err _ => Ok uintn_zero | Panic => Panic
           end;
    r ← uintn_rem diff (uintn_from_u64 step);
    Ok (uintn_is_zero r).

Definition uintn_step_by (x : uintn) (step : Z) : uintn :=
  uintn_add x (uintn_from_u64 step).

(** [impl Display for UintN] *)
Definition uintn_display (x : uintn) : str :=
  match x with
  | U8 v => to_dec v
  | U16 v => to_dec v
  | U32 v => to_dec v
  | U64 v => to_dec v
  | U128 v => to_dec v
  | Big v => ubig_to_dec v
  end.

(** ** Serialisation *)

Definition uintn_is_valid_data_size (size : Z) : bool :=
  (size =? 1) || (size =? 2) || (size =? 4) || (size =? 8) || (size =? 16).

Definition uintn_read_value_from_slice (data : bytes) (size : Z) : outcome uerror uintn :=
  if decide (zlen data < size) then Err uSliceTooShort
  else
    let fixed (n : Z) (from : Z -> uintn) :=
      if decide (zlen data = n) then Ok (from (le_val data)) else Err uSliceTooShort in
    if size =? 0 then Ok (U8 0)
    else if size =? 1 then Ok (U8 (le_val (take 1 data)))
    else if size =? 2 then fixed 2 uintn_from_u16
    else if size =? 4 then fixed 4 uintn_from_u32
    else if size =? 8 then fixed 8 uintn_from_u64
    else if size =? 16 then fixed 16 uintn_from_u128
    else Ok (Big (ubig_from_le_bytes data)).

Definition uintn_read_from_slice (data : bytes) : outcome uerror (uintn * Z) :=
  if decide (zlen data < 8) then Err uSliceTooShort
  else
    hd ← slice data 0 8;
    let len := le_val hd in
    bytes_read ← arith 64 (8 + len);
    if decide (zlen data < bytes_read) then Err uSliceTooShort
    else
      value_slice ← slice data 8 bytes_read;
      value ← uintn_read_value_from_slice value_slice len;
      Ok (value, bytes_read).

Definition uintn_size_in_bytes (x : uintn) : Z :=
  match x with
  | U8 _ => 1
  | U16 _ => 2
  | U32 _ => 4
  | U64 _ => 8
  | U128 _ => 16
  | Big v => zlen (ubig_to_be_bytes v)
  end.

(** Buffers are passed explicitly: the result is the new buffer and the
    returned count. *)
Definition uintn_write_value_to_buffer (x : uintn) (buffer : bytes) : bytes * Z :=
  let initial_len := zlen buffer in
  let buffer' :=
    match x with
    | U8 v => buffer ++ le_bytes 1 v
    | U16 v => buffer ++ le_bytes 2 v
    | U32 v => buffer ++ le_bytes 4 v
    | U64 v => buffer ++ le_bytes 8 v
    | U128 v => buffer ++ le_bytes 16 v
    | Big v => buffer ++ ubig_to_le_bytes v
    end in
  (buffer', zlen buffer' - initial_len).

Definition uintn_value_to_bytes (x : uintn) : bytes :=
  fst (uintn_write_value_to_buffer x []).

Definition uintn_write_to_buffer (x : uintn) (buffer : bytes) : bytes * Z :=
  let size := uintn_size_in_bytes x in
  let '(buffer', n) := uintn_write_value_to_buffer x (buffer ++ le_bytes 8 size) in
  (buffer', 8 + n).

Definition uintn_write_value_to_buffer_with_size (x : uintn) (buffer : bytes) (size : Z)
    : outcome uerror (bytes * Z) :=
  let value_bytes_len := uintn_size_in_bytes x in
  _ ← (if size <? value_bytes_len then
         max_val ← (if size =? 1 then Ok (ubig_from u8_max)
                    else if size =? 2 then Ok (ubig_from u16_max)
                    else if size =? 4 then Ok (ubig_from u32_max)
                    else if size =? 8 then Ok (ubig_from u64_max)
                    else if size =? 16 then Ok (ubig_from u128_max)
                    else Err uInvalidUintNSize);
         match ubig_cmp (uintn_to_ubig x) max_val with
         | Gt => Err uValueTooLarge
         | _ => Ok tt
         end
       else Ok tt);
  let '(buffer', written_len) := uintn_write_value_to_buffer x buffer in
  let padding := saturating_sub size written_len in
  Ok (buffer' ++ replicate (Z.to_nat padding) Byte.x00, size).

Definition uintn_can_fit (x : uintn) (num_bytes : Z) : bool :=
  uintn_size_in_bytes x <=? num_bytes.

End UintN.

Arguments uintn : clear implicits.
Arguments uintn {U}.
