(* ===== verification/UintNFacts.v ===== *)
(** * Theory of [uintn]

    Every operation of [UintN.v] computes the arithmetic operation its name
    says on the value, keeps the representation invariant and, for the
    serialisation, reads back what it wrote. *)
From Stdlib Require Import ZArith Lia List Bool.
From stdpp Require Import base option list.
From S2P Require Import Prelude UBig UintN.
#[local] Open Scope Z_scope.

Section Facts.
Context {B : Build} {U : UBig}.

(** The natural number a [uintn] stands for. *)
Definition uintn_val (x : uintn) : Z :=
  match x with
  | U8 v | U16 v | U32 v | U64 v | U128 v => v
  | Big v => ubig_val v
  end.

(** The payload is within its machine width. *)
Definition uintn_wf (x : uintn) : Prop :=
  match x with
  | U8 v => in_u 8 v
  | U16 v => in_u 16 v
  | U32 v => in_u 32 v
  | U64 v => in_u 64 v
  | U128 v => in_u 128 v
  | Big _ => True
  end.

(** No machine-width payload fits a narrower machine type. *)
Definition uintn_compact (x : uintn) : Prop :=
  match x with
  | U16 v => 2 ^ 8 <= v
  | U32 v => 2 ^ 16 <= v
  | U64 v => 2 ^ 32 <= v
  | U128 v => 2 ^ 64 <= v
  | _ => True
  end.

Definition uintn_ok (x : uintn) : Prop := uintn_wf x /\ uintn_compact x.

(** The narrowest representation: big integers only past 128 bits. *)
Definition uintn_canonical (x : uintn) : Prop :=
  uintn_ok x /\ match x with Big v => 2 ^ 128 <= ubig_val v | _ => True end.

(** Reduce casts of values known to fit, then decide the comparisons. *)
Ltac casts :=
  repeat match goal with
  | |- context [as_u ?w ?z] => rewrite (as_u_small w z) by (unfold in_u in *; lia)
  | H : context [as_u ?w ?z] |- _ =>
      rewrite (as_u_small w z) in H by (unfold in_u in *; lia)
  end.
Ltac uint_unfold :=
  unfold uintn_canonical, uintn_ok, uintn_wf, uintn_compact, uintn_val, in_u,
    u8_max, u16_max, u32_max, u64_max, u128_max, checked_add in *.
Ltac uint_hyps :=
  unfold uintn_canonical, uintn_ok, uintn_wf, uintn_compact, uintn_val, in_u in * |-.
Ltac uint_solve :=
  repeat (uint_unfold; casts; first [ case_decide | zbool_case ]; cbn iota in *);
  uint_unfold; casts; try lia; intuition lia.

Lemma from_u16_spec v : in_u 16 v ->
  uintn_canonical (uintn_from_u16 v) /\ uintn_val (uintn_from_u16 v) = v.
Proof. intros. unfold uintn_from_u16. uint_solve. Qed.

Lemma from_u32_spec v : in_u 32 v ->
  uintn_canonical (uintn_from_u32 v) /\ uintn_val (uintn_from_u32 v) = v.
Proof. intros. unfold uintn_from_u32. uint_solve. Qed.

Lemma from_u64_spec v : in_u 64 v ->
  uintn_canonical (uintn_from_u64 v) /\ uintn_val (uintn_from_u64 v) = v.
Proof. intros. unfold uintn_from_u64. uint_solve. Qed.

Lemma from_u128_spec v : in_u 128 v ->
  uintn_canonical (uintn_from_u128 v) /\ uintn_val (uintn_from_u128 v) = v.
Proof. intros. unfold uintn_from_u128. uint_solve. Qed.

Lemma from_ubig_spec v :
  uintn_canonical (uintn_from_ubig v) /\ uintn_val (uintn_from_ubig v) = ubig_val v.
Proof.
  unfold uintn_from_ubig. rewrite ubig_try_into_spec.
  pose proof (ubig_val_nonneg v). case_decide.
  - apply from_u128_spec. unfold in_u. lia.
  - uint_unfold. intuition lia.
Qed.

Lemma canonical_ok x : uintn_canonical x -> uintn_ok x.
Proof. by intros []. Qed.

Lemma ok_wf x : uintn_ok x -> uintn_wf x.
Proof. by intros []. Qed.

Lemma val_nonneg x : uintn_wf x -> 0 <= uintn_val x.
Proof. destruct x; simpl; unfold in_u; try lia. intros _. apply ubig_val_nonneg. Qed.

(** The canonical representation of a value is unique. *)
Lemma canonical_inj x y :
  uintn_canonical x -> uintn_canonical y -> uintn_val x = uintn_val y -> x = y.
Proof.
  destruct x, y; uint_unfold; intros Hx Hy Heq;
    first [ f_equal; first [done | by apply ubig_val_inj] | exfalso; intuition lia ].
Qed.

Lemma to_ubig_val x : uintn_wf x -> ubig_val (uintn_to_ubig x) = uintn_val x.
Proof.
  destruct x; simpl; unfold in_u; intros; rewrite ?ubig_val_from by lia; done.
Qed.

Lemma is_zero_spec x : uintn_is_zero x = (uintn_val x =? 0).
Proof.
  destruct x; simpl; try done. apply eq_true_iff_eq.
  rewrite bool_decide_eq_true, Z.eqb_eq. split.
  - intros ->. by rewrite ubig_val_from.
  - intros. apply ubig_val_inj. by rewrite ubig_val_from.
Qed.

Lemma to_u128_spec x : uintn_wf x ->
  uintn_to_u128 x =
    if decide (uintn_val x < 2 ^ 128) then Ok (uintn_val x) else Err uValueTooLarge.
Proof.
  destruct x; simpl; intros; try (casts; case_decide; [done|unfold in_u in *; lia]).
  rewrite ubig_try_into_spec. by case_decide.
Qed.

Lemma to_u64_spec x : uintn_wf x ->
  uintn_to_u64 x =
    if decide (uintn_val x < 2 ^ 64) then Ok (uintn_val x) else Err uValueTooLarge.
Proof.
  destruct x; simpl; intros Hx; try (casts; case_decide; [done|unfold in_u in *; lia]).
  - unfold u64_max. casts. destruct (Z.leb_spec v 18446744073709551615).
    + rewrite decide_True by lia. casts. done.
    + rewrite decide_False by lia. done.
  - rewrite ubig_try_into_spec. by case_decide.
Qed.

(** Equality and order are those of the values, across representations. *)
Lemma eqb_spec_val x y : uintn_wf x -> uintn_wf y ->
  uintn_eqb x y = (uintn_val x =? uintn_val y).
Proof.
  intros Hx Hy.
  assert (match uintn_to_u128 y with
          | Ok b => match uintn_to_u128 x with Ok a => a =? b | _ => false end
          | _ => false end = (uintn_val x =? uintn_val y) \/
          (2 ^ 128 <= uintn_val x /\ 2 ^ 128 <= uintn_val y)) as Hbig.
  { rewrite !to_u128_spec by done.
    destruct (decide (uintn_val x < 2 ^ 128)), (decide (uintn_val y < 2 ^ 128));
      first [left; done | right; lia | left; symmetry; apply Z.eqb_neq; lia]. }
  destruct x, y; cbn [uintn_eqb]; cbn [uintn_wf uintn_val] in *; casts; try done;
    try (destruct Hbig as [?|[? ?]]; [done|unfold in_u in *; lia]).
  apply eq_true_iff_eq. rewrite bool_decide_eq_true, Z.eqb_eq.
  split; [by intros ->|apply ubig_val_inj].
Qed.

Lemma cmp_spec_val x y : uintn_wf x -> uintn_wf y ->
  uintn_cmp x y = (uintn_val x ?= uintn_val y).
Proof.
  intros Hx Hy.
  assert (ubig_cmp (uintn_to_ubig x) (uintn_to_ubig y) = (uintn_val x ?= uintn_val y))
    as Hbig by (by rewrite ubig_cmp_spec, !to_ubig_val).
  destruct x, y; cbn [uintn_cmp]; cbn [uintn_wf uintn_val] in *; casts; done.
Qed.

Lemma ltb_spec_val x y : uintn_wf x -> uintn_wf y ->
  uintn_ltb x y = (uintn_val x <? uintn_val y).
Proof. intros. unfold uintn_ltb. by rewrite cmp_spec_val. Qed.

Lemma leb_spec_val x y : uintn_wf x -> uintn_wf y ->
  uintn_leb x y = (uintn_val x <=? uintn_val y).
Proof. intros. unfold uintn_leb. by rewrite cmp_spec_val. Qed.

Lemma min_spec x y : uintn_wf x -> uintn_wf y ->
  uintn_val (uintn_min x y) = Z.min (uintn_val x) (uintn_val y).
Proof.
  intros. unfold uintn_min. rewrite ltb_spec_val by done.
  destruct (Z.ltb_spec (uintn_val y) (uintn_val x)); lia.
Qed.

Lemma max_spec x y : uintn_wf x -> uintn_wf y ->
  uintn_val (uintn_max x y) = Z.max (uintn_val x) (uintn_val y).
Proof.
  intros. unfold uintn_max. rewrite ltb_spec_val by done.
  destruct (Z.ltb_spec (uintn_val y) (uintn_val x)); lia.
Qed.

(** ** Arithmetic *)

Lemma increment_spec x : uintn_ok x ->
  uintn_ok (uintn_increment x) /\ uintn_val (uintn_increment x) = uintn_val x + 1.
Proof.
  destruct x; cbn [uintn_increment]; intros H;
    try uint_solve.
  - destruct (Z.eqb_spec v u128_max) as [->|]; [|uint_solve].
    uint_unfold. rewrite ubig_val_add, !ubig_val_from by lia. intuition lia.
  - uint_unfold. rewrite ubig_val_add, ubig_val_from by lia. done.
Qed.

Lemma increment_canonical x : uintn_canonical x -> uintn_canonical (uintn_increment x).
Proof.
  intros [Hok Hbig]. pose proof (increment_spec x Hok) as [Hok' Hv]. split; [done|].
  destruct (uintn_increment x) as [| | | | |w] eqn:E; try done.
  destruct x; cbn [uintn_increment] in E; repeat case_match; simplify_eq;
    uint_unfold; rewrite ?ubig_val_add, ?ubig_val_from in * by lia;
    rewrite ?Z.eqb_eq in *; lia.
Qed.


(** Use the specification of a [from] conversion in the goal. *)
Ltac from_step :=
  let go lem r := (let Hc := fresh in
    destruct (lem r) as [Hc ->]; [unfold in_u in *; lia|];
    try split; [first [exact Hc | apply Hc]|]) in
  match goal with
  | |- context [uintn_from_u16 ?r] => go from_u16_spec r
  | |- context [uintn_from_u32 ?r] => go from_u32_spec r
  | |- context [uintn_from_u64 ?r] => go from_u64_spec r
  | |- context [uintn_from_u128 ?r] => go from_u128_spec r
  end.

Lemma decrement_ok x : uintn_wf x -> uintn_val x <> 0 ->
  exists y, uintn_decrement x = Ok y /\ uintn_ok y /\ uintn_val y = uintn_val x - 1.
Proof.
  intros Hwf Hnz. unfold uintn_decrement. rewrite is_zero_spec.
  destruct (Z.eqb_spec (uintn_val x) 0); [done|].
  destruct x; cbn [uintn_val uintn_wf] in *; eexists; (split; [reflexivity|]);
    try (from_step; unfold in_u in *; lia).
  - unfold uintn_from_u8. uint_unfold. intuition lia.
  - destruct (from_ubig_spec (ubig_sub v (ubig_from 1))) as [[Hok _] ->].
    split; [done|]. pose proof (ubig_val_nonneg v).
    rewrite ubig_val_sub; rewrite !ubig_val_from; lia.
Qed.

Lemma decrement_zero x : uintn_val x = 0 -> uintn_decrement x = Err uDecrementUnderflow.
Proof. intros H. unfold uintn_decrement. by rewrite is_zero_spec, H. Qed.

Lemma add_spec x y : uintn_ok x -> uintn_ok y ->
  uintn_ok (uintn_add x y) /\ uintn_val (uintn_add x y) = uintn_val x + uintn_val y.
Proof.
  intros Hx Hy. unfold uintn_add. rewrite is_zero_spec.
  destruct (Z.eqb_spec (uintn_val y) 0); [split; [done|lia]|].
  pose proof (to_ubig_val x (ok_wf _ Hx)). pose proof (to_ubig_val y (ok_wf _ Hy)).
  destruct x, y; unfold checked_add; cbn zeta;
    try (split; [done|]; cbn [uintn_val] in *; rewrite ubig_val_add; lia);
    uint_hyps; casts; case_decide; try (from_step; cbn [uintn_val]; lia); uint_unfold;
    rewrite ?ubig_val_add, ?ubig_val_from by lia; intuition lia.
Qed.


Lemma canonical_intro x : uintn_ok x ->
  (forall v, x = Big v -> 2 ^ 128 <= ubig_val v) -> uintn_canonical x.
Proof. intros Hok Hb. split; [done|]. destruct x; auto. Qed.

Lemma add_canonical x y :
  uintn_canonical x -> uintn_canonical y -> uintn_canonical (uintn_add x y).
Proof.
  intros Hx Hy. pose proof (canonical_ok _ Hx) as Hx'. pose proof (canonical_ok _ Hy) as Hy'.
  pose proof (add_spec x y Hx' Hy') as [Hok Hv].
  pose proof (val_nonneg x (ok_wf _ Hx')). pose proof (val_nonneg y (ok_wf _ Hy')).
  apply canonical_intro; [done|]. intros v Heq. rewrite Heq in Hv. cbn [uintn_val] in Hv.
  rewrite Hv. revert Heq. unfold uintn_add. rewrite is_zero_spec.
  destruct (Z.eqb_spec (uintn_val y) 0).
  { intros ->. destruct Hx as [_ Hx]. cbn [uintn_val]. lia. }
  destruct x, y; unfold checked_add; cbn zeta; intros Heq;
    try (destruct Hx as [_ Hx], Hy as [_ Hy]; cbn [uintn_val] in *; lia);
    uint_hyps; casts; revert Heq; case_decide; intros Heq; try discriminate;
    unfold uintn_from_u16, uintn_from_u32, uintn_from_u64, uintn_from_u128 in Heq;
    repeat case_match; try discriminate; cbn [uintn_val]; lia.
Qed.

Lemma sub_ge x y : uintn_ok x -> uintn_ok y -> uintn_val y <= uintn_val x ->
  exists z, uintn_sub x y = Ok z /\ uintn_ok z /\ uintn_val z = uintn_val x - uintn_val y.
Proof.
  intros Hx Hy Hle. unfold uintn_sub. rewrite is_zero_spec.
  destruct (Z.eqb_spec (uintn_val y) 0); [exists x; split; [done|split; [done|lia]]|].
  pose proof (to_ubig_val x (ok_wf _ Hx)) as Hbx.
  pose proof (to_ubig_val y (ok_wf _ Hy)) as Hby.
  rewrite ltb_spec_val by (by apply ok_wf).
  destruct (from_ubig_spec (ubig_sub (uintn_to_ubig x) (uintn_to_ubig y))) as [[Hok _] Hv].
  rewrite ubig_val_sub, Hbx, Hby in Hv by lia.
  destruct (Z.ltb_spec (uintn_val x) (uintn_val y)); [lia|].
  destruct x, y; try (eexists; split; [reflexivity|split; [exact Hok|exact Hv]]);
    uint_hyps; casts; rewrite ?arith_ok by (unfold in_u; lia);
    try (destruct (Z.leb_spec v0 v); [|lia]); cbn [mbind outcome_bind];
    eexists; (split; [reflexivity|]);
    try (from_step; cbn [uintn_val]; lia); try lia.
  unfold uintn_from_u8. uint_unfold. intuition lia.
Qed.

Lemma sub_lt x y : uintn_ok x -> uintn_ok y -> uintn_val x < uintn_val y ->
  uintn_sub x y = Err uDecrementUnderflow.
Proof.
  intros Hx Hy Hlt. unfold uintn_sub. rewrite is_zero_spec.
  pose proof (val_nonneg x (ok_wf _ Hx)).
  destruct (Z.eqb_spec (uintn_val y) 0); [lia|].
  rewrite ltb_spec_val by (by apply ok_wf).
  destruct (Z.ltb_spec (uintn_val x) (uintn_val y)); [|lia].
  destruct x, y; try done; uint_hyps; try (destruct (Z.leb_spec v0 v); [lia|done]); lia.
Qed.

Lemma sub_canonical x y z : uintn_canonical x -> uintn_ok y -> uintn_sub x y = Ok z ->
  uintn_canonical z.
Proof.
  intros Hx Hy Hs. pose proof (canonical_ok _ Hx) as Hxo.
  destruct (decide (uintn_val y <= uintn_val x)) as [Hle|Hlt]; [|by rewrite sub_lt in Hs by (done || lia)].
  destruct (sub_ge x y Hxo Hy Hle) as (z' & Hz & Hzo & _). rewrite Hs in Hz. injection Hz as <-.
  apply canonical_intro; [done|]. intros v ->. revert Hs. unfold uintn_sub.
  destruct (uintn_is_zero y); [intros [= ->]; apply Hx|].
  assert (forall b, uintn_from_ubig b = Big v -> 2 ^ 128 <= ubig_val v) as Hbig.
  { intros b Eb. pose proof (from_ubig_spec b) as [[_ Hc] _]. by rewrite Eb in Hc. }
  destruct x, y; intros E;
    repeat match type of E with
    | (if ?c then _ else _) = _ => destruct c; try discriminate
    | (r ← ?m; _) = _ => destruct m; ok_step; try discriminate
    end; injection E as E; try (by eapply Hbig);
    unfold uintn_from_u16, uintn_from_u32, uintn_from_u64, uintn_from_u128 in E;
    repeat case_match; discriminate.
Qed.

Lemma shrink_spec x : uintn_wf x ->
  uintn_canonical (uintn_shrink_to_fit x) /\ uintn_val (uintn_shrink_to_fit x) = uintn_val x.
Proof.
  intros Hwf. pose proof (to_ubig_val x Hwf) as Hv.
  destruct x; cbn [uintn_shrink_to_fit]; try (rewrite <- Hv; apply from_ubig_spec).
  uint_unfold. intuition lia.
Qed.

Lemma half_bounds s : 2 * (s / 2) <= s <= 2 * (s / 2) + 1.
Proof. pose proof (Z.div_mod s 2). pose proof (Z.mod_pos_bound s 2). lia. Qed.

Lemma middle_spec x y : uintn_ok x -> uintn_ok y ->
  uintn_ok (uintn_middle x y) /\
  uintn_val (uintn_middle x y) = (uintn_val x + uintn_val y) / 2.
Proof.
  intros Hx Hy. pose proof (to_ubig_val x (ok_wf _ Hx)) as Hbx.
  pose proof (to_ubig_val y (ok_wf _ Hy)) as Hby.
  assert (ubig_val (ubig_div (ubig_add (uintn_to_ubig x) (uintn_to_ubig y)) (ubig_from 2))
          = (uintn_val x + uintn_val y) / 2) as Hhalf.
  { rewrite ubig_val_div; rewrite !ubig_val_from by lia; [|lia].
    by rewrite ubig_val_add, Hbx, Hby. }
  pose proof (from_ubig_spec (ubig_div (ubig_add (uintn_to_ubig x) (uintn_to_ubig y))
    (ubig_from 2))) as [[Hok _] Hv].
  pose proof (half_bounds (uintn_val x + uintn_val y)) as Hb.
  destruct x, y; unfold uintn_middle; cbn zeta;
    try (split; [exact Hok|by rewrite Hv]); cbn [uintn_to_ubig uintn_val] in *;
    rewrite ?ubig_try_into_spec, ?Hhalf; uint_hyps; casts; try case_decide;
    uint_unfold; intuition lia.
Qed.

Lemma middle_canonical x y :
  uintn_canonical x -> uintn_canonical y -> uintn_canonical (uintn_middle x y).
Proof.
  intros Hx Hy. pose proof (middle_spec x y (canonical_ok _ Hx) (canonical_ok _ Hy)) as [Hok _].
  apply canonical_intro; [done|]. intros w E.
  assert (forall b, uintn_from_ubig b = Big w -> 2 ^ 128 <= ubig_val w) as Hbig.
  { intros b Eb. pose proof (from_ubig_spec b) as [[_ Hc] _]. by rewrite Eb in Hc. }
  destruct x, y; unfold uintn_middle in E; cbn zeta in E; try discriminate;
    try (by apply Hbig in E).
  rewrite ubig_try_into_spec in E. revert E. case_decide as Hd; intros E; [discriminate|].
  injection E as <-. pose proof (ubig_val_nonneg
    (ubig_div (ubig_add (ubig_from v) (ubig_from v0)) (ubig_from 2))). lia.
Qed.

Lemma decrement_canonical x : uintn_canonical x -> uintn_val x <> 0 ->
  exists y, uintn_decrement x = Ok y /\ uintn_canonical y /\ uintn_val y = uintn_val x - 1.
Proof.
  intros Hx Hnz. destruct (decrement_ok x) as (y & Hy & Hok & Hv); [apply Hx|done|].
  exists y. split; [done|]. split; [|done]. apply canonical_intro; [done|]. intros w ->.
  unfold uintn_decrement in Hy. rewrite is_zero_spec in Hy.
  destruct (Z.eqb_spec (uintn_val x) 0); [done|].
  destruct x; injection Hy as Hy; try discriminate;
    unfold uintn_from_u16, uintn_from_u32, uintn_from_u64, uintn_from_u128 in Hy;
    repeat case_match; try discriminate.
  match type of Hy with uintn_from_ubig ?b = _ => pose proof (from_ubig_spec b) as [[_ Hc] _] end.
  by rewrite Hy in Hc.
Qed.

Lemma rem_spec x y : uintn_wf x -> uintn_wf y -> uintn_val y <> 0 ->
  exists z, uintn_rem x y = Ok z /\ uintn_ok z /\ uintn_val z = uintn_val x mod uintn_val y.
Proof.
  intros Hx Hy Hnz. unfold uintn_rem. rewrite is_zero_spec.
  destruct (Z.eqb_spec (uintn_val y) 0); [done|].
  pose proof (val_nonneg x Hx). pose proof (val_nonneg y Hy).
  pose proof (Z.mod_pos_bound (uintn_val x) (uintn_val y)).
  pose proof (Z.mod_le (uintn_val x) (uintn_val y)).
  pose proof (to_ubig_val x Hx) as Hbx. pose proof (to_ubig_val y Hy) as Hby.
  pose proof (from_ubig_spec (ubig_rem (uintn_to_ubig x) (uintn_to_ubig y))) as [[Hok _] Hv].
  rewrite ubig_val_rem, Hbx, Hby in Hv by (rewrite ?Hby; lia).
  destruct x, y; cbn [uintn_val] in *; try (eexists; split; [reflexivity|];
    split; [exact Hok|exact Hv]); eexists; (split; [reflexivity|]);
    uint_hyps; casts; try (from_step; cbn [uintn_val]; lia).
  unfold uintn_from_u8. uint_unfold. intuition lia.
Qed.

Lemma in_step_spec x from step :
  uintn_ok x -> uintn_ok from -> in_u 64 step -> 1 <= step ->
  uintn_in_step x from step =
    Ok (bool_decide (step = 1 \/
          uintn_val from <= uintn_val x /\ (uintn_val x - uintn_val from) mod step = 0)).
Proof.
  intros Hx Hf Hs Hs1. unfold uintn_in_step.
  destruct (Z.eqb_spec step 1) as [->|Hne]; [by rewrite bool_decide_true by auto|].
  rewrite ltb_spec_val by (by apply ok_wf).
  destruct (Z.ltb_spec (uintn_val x) (uintn_val from)).
  { rewrite bool_decide_false; [done|]. intuition lia. }
  destruct (sub_ge x from Hx Hf) as (d & -> & Hd & Hdv); [lia|]. ok_step.
  destruct (from_u64_spec step Hs) as [[Hso _] Hsv].
  destruct (rem_spec d (uintn_from_u64 step)) as (r & -> & _ & Hr);
    [apply Hd|apply Hso|lia|]. ok_step.
  rewrite is_zero_spec, Hr, Hsv, Hdv. f_equal. apply eq_true_iff_eq.
  rewrite Z.eqb_eq, bool_decide_eq_true. intuition lia.
Qed.

Lemma step_by_spec x step : uintn_ok x -> in_u 64 step ->
  uintn_ok (uintn_step_by x step) /\ uintn_val (uintn_step_by x step) = uintn_val x + step.
Proof.
  intros Hx Hs. destruct (from_u64_spec step Hs) as [[Ho _] Hv].
  unfold uintn_step_by. rewrite <- Hv at 3. by apply add_spec.
Qed.

(** ** Serialisation *)

Lemma write_value_spec x buf :
  uintn_write_value_to_buffer x buf =
    (buf ++ uintn_value_to_bytes x, zlen (uintn_value_to_bytes x)).
Proof.
  unfold uintn_value_to_bytes, uintn_write_value_to_buffer.
  destruct x; simpl; rewrite !zlen_app, ?zlen_nil; f_equal; lia.
Qed.

Lemma size_in_bytes_spec x : uintn_size_in_bytes x = zlen (uintn_value_to_bytes x).
Proof.
  unfold uintn_value_to_bytes. destruct x; try reflexivity. simpl.
  rewrite ubig_to_be_bytes_spec. unfold zlen. by rewrite length_rev.
Qed.

Lemma value_to_bytes_val x : uintn_wf x -> le_val (uintn_value_to_bytes x) = uintn_val x.
Proof.
  unfold uintn_value_to_bytes. intros Hx.
  destruct x; cbn [uintn_write_value_to_buffer fst app uintn_val];
    try (apply le_val_le_bytes_small; done). apply ubig_to_le_bytes_val.
Qed.

(** Reading [size] bytes gives their little-endian value. *)
Lemma read_value_spec data :
  exists y, uintn_read_value_from_slice data (zlen data) = Ok y /\ uintn_ok y /\
    uintn_val y = le_val data /\
    (uintn_is_valid_data_size (zlen data) = true \/ 2 ^ 128 <= le_val data ->
     uintn_canonical y).
Proof.
  unfold uintn_read_value_from_slice. rewrite decide_False by lia. cbn zeta.
  pose proof (le_val_range data) as Hr.
  replace (Z.of_nat (length data)) with (zlen data) in Hr by done.
  assert (forall w f, zlen data * 8 = w ->
    (forall v, in_u w v -> uintn_canonical (f v) /\ uintn_val (f v) = v) ->
    exists y, Ok (E := uerror) (f (le_val data)) = Ok y /\ uintn_ok y /\
      uintn_val y = le_val data /\
      (uintn_is_valid_data_size (zlen data) = true \/ 2 ^ 128 <= le_val data ->
        uintn_canonical y)) as Hfix.
  { intros w f Hw Hf. destruct (Hf (le_val data)) as [Hc Hv].
    - replace w with (8 * zlen data) by lia. exact Hr.
    - exists (f (le_val data)). split_and!; auto. apply Hc. }
  destruct (Z.eqb_spec (zlen data) 0) as [Hn|?];
    [|destruct (Z.eqb_spec (zlen data) 1) as [Hn|?];
    [|destruct (Z.eqb_spec (zlen data) 2) as [Hn|?];
    [|destruct (Z.eqb_spec (zlen data) 4) as [Hn|?];
    [|destruct (Z.eqb_spec (zlen data) 8) as [Hn|?];
    [|destruct (Z.eqb_spec (zlen data) 16) as [Hn|?]]]]]];
    rewrite ?decide_True by done.
  - apply zlen_0 in Hn as ->. exists (U8 0). uint_unfold. simpl. intuition lia.
  - rewrite take_ge by (unfold zlen in Hn; lia). apply (Hfix 8 U8); [lia|].
    intros; uint_unfold; intuition lia.
  - apply (Hfix 16); [lia|apply from_u16_spec].
  - apply (Hfix 32); [lia|apply from_u32_spec].
  - apply (Hfix 64); [lia|apply from_u64_spec].
  - apply (Hfix 128); [lia|apply from_u128_spec].
  - eexists. split; [done|]. unfold uintn_canonical, uintn_ok. cbn [uintn_val uintn_wf uintn_compact].
    rewrite ubig_from_le_bytes_val. split_and!; [done|done|done|]. unfold uintn_is_valid_data_size.
    intros [Hv|]; [|tauto]. exfalso. rewrite !orb_true_iff, !Z.eqb_eq in Hv. intuition lia.
Qed.

Lemma size_valid x : uintn_canonical x ->
  uintn_is_valid_data_size (uintn_size_in_bytes x) = true \/ 2 ^ 128 <= uintn_val x.
Proof. intros [_ Hb]. destruct x; auto. Qed.

Lemma small_size x : uintn_canonical x ->
  (uintn_val x < 2 ^ 32 -> uintn_size_in_bytes x <= 4) /\
  (uintn_val x < 2 ^ 64 -> uintn_size_in_bytes x <= 8).
Proof. intros Hc. destruct x; uint_unfold; cbn in *; lia. Qed.

Lemma read_write_value x : uintn_canonical x ->
  uintn_read_value_from_slice (uintn_value_to_bytes x) (uintn_size_in_bytes x) = Ok x.
Proof.
  intros Hc. pose proof (size_valid x Hc) as Hs. rewrite size_in_bytes_spec in *.
  destruct (read_value_spec (uintn_value_to_bytes x)) as (y & -> & _ & Hv & Hy).
  rewrite value_to_bytes_val in * by apply Hc. f_equal. apply canonical_inj; auto.
Qed.

(** The bytes of a value padded with zeros to [size] bytes. *)
Definition uintn_padded (x : uintn) (size : Z) : bytes :=
  uintn_value_to_bytes x ++ replicate (Z.to_nat (size - uintn_size_in_bytes x)) Byte.x00.

Lemma zlen_padded x size : uintn_size_in_bytes x <= size -> zlen (uintn_padded x size) = size.
Proof.
  intros. unfold uintn_padded. rewrite zlen_app, zlen_replicate, <- size_in_bytes_spec; lia.
Qed.

Lemma write_with_size_ok x buf size : uintn_size_in_bytes x <= size ->
  uintn_write_value_to_buffer_with_size x buf size = Ok (buf ++ uintn_padded x size, size).
Proof.
  intros Hle. unfold uintn_write_value_to_buffer_with_size.
  destruct (Z.ltb_spec size (uintn_size_in_bytes x)); [lia|].
  rewrite write_value_spec. cbn [mbind outcome_bind].
  unfold uintn_padded, saturating_sub. rewrite size_in_bytes_spec in *.
  rewrite Z.max_r by lia. by rewrite app_assoc.
Qed.

Lemma read_padded x size : uintn_canonical x -> uintn_size_in_bytes x <= size ->
  exists y, uintn_read_value_from_slice (uintn_padded x size) size = Ok y /\ uintn_ok y /\
    uintn_val y = uintn_val x /\ (uintn_is_valid_data_size size = true -> y = x).
Proof.
  intros Hc Hle. destruct (read_value_spec (uintn_padded x size)) as (y & Hy & Hok & Hv & Hcan).
  rewrite zlen_padded in * by done. unfold uintn_padded in Hv. rewrite le_val_pad in Hv.
  rewrite value_to_bytes_val in Hv by apply Hc.
  exists y. split_and!; auto. intros Hs. apply canonical_inj; auto.
Qed.

Lemma write_to_buffer_spec x buf :
  uintn_write_to_buffer x buf =
    (buf ++ le_bytes 8 (uintn_size_in_bytes x) ++ uintn_value_to_bytes x,
     8 + uintn_size_in_bytes x).
Proof.
  unfold uintn_write_to_buffer. rewrite write_value_spec, <- app_assoc.
  by rewrite size_in_bytes_spec.
Qed.

Lemma size_in_bytes_nonneg x : 0 <= uintn_size_in_bytes x.
Proof. rewrite size_in_bytes_spec. apply zlen_nonneg. Qed.

Lemma read_from_slice_spec x rest :
  uintn_canonical x -> 8 + uintn_size_in_bytes x < 2 ^ 64 ->
  uintn_read_from_slice (fst (uintn_write_to_buffer x []) ++ rest) =
    Ok (x, 8 + uintn_size_in_bytes x).
Proof.
  intros Hc Hsz. rewrite write_to_buffer_spec. cbn [fst app].
  pose proof (size_in_bytes_nonneg x) as Hn. unfold uintn_read_from_slice.
  pose proof (zlen_nonneg rest).
  rewrite <- app_assoc, decide_False by (rewrite zlen_app, zlen_le_bytes; pose proof
    (zlen_nonneg (uintn_value_to_bytes x ++ rest)); lia).
  rewrite slice_head by (by rewrite zlen_le_bytes). ok_step. cbn zeta.
  rewrite le_val_u64 by (unfold in_u; lia).
  rewrite arith_ok by (unfold in_u; lia). ok_step.
  rewrite decide_False by (rewrite !zlen_app, zlen_le_bytes, <- size_in_bytes_spec; lia).
  rewrite slice_mid by (rewrite ?zlen_le_bytes, <- ?size_in_bytes_spec; lia). ok_step.
  by rewrite read_write_value.
Qed.

End Facts.

#[export] Hint Resolve canonical_ok ok_wf increment_canonical add_canonical : normfs.

(** ** Claims *)

Section Claims.
Context {B : Build} {U : UBig}.


(** C33: equality and order of [UintN] are those of the values for every pair of
    variants, in canonical form or not: equality, comparison, the derived tests,
    the smaller and the larger; so values in canonical form are equal exactly when
    they are the same variant with the same payload. *)
Theorem uintn_order x y : uintn_wf x -> uintn_wf y ->
  uintn_eqb x y = (uintn_val x =? uintn_val y) /\
  uintn_cmp x y = (uintn_val x ?= uintn_val y) /\
  uintn_ltb x y = (uintn_val x <? uintn_val y) /\
  uintn_leb x y = (uintn_val x <=? uintn_val y) /\
  uintn_val (uintn_min x y) = Z.min (uintn_val x) (uintn_val y) /\
  uintn_val (uintn_max x y) = Z.max (uintn_val x) (uintn_val y) /\
  (uintn_canonical x -> uintn_canonical y -> uintn_eqb x y = bool_decide (x = y)).
Proof.
  intros Hx Hy. split; [by apply eqb_spec_val|]. split; [by apply cmp_spec_val|].
  split; [by apply ltb_spec_val|]. split; [by apply leb_spec_val|].
  split; [by apply min_spec|]. split; [by apply max_spec|]. intros Cx Cy. rewrite eqb_spec_val by done.
  destruct (Z.eqb_spec (uintn_val x) (uintn_val y)) as [E|E].
  - by rewrite bool_decide_true by (by apply canonical_inj).
  - rewrite bool_decide_false; [done|]. by intros ->.
Qed.

(** [in_step] decides membership in the progression from [from] with the
    given step, except that step 1 accepts every id, those before [from]
    included. *)
Theorem uintn_in_step_exact x from step :
  uintn_ok x -> uintn_ok from -> in_u 64 step -> 1 <= step ->
  exists b, uintn_in_step x from step = Ok b /\
    (b = true <-> step = 1 \/ exists k, 0 <= k /\ uintn_val x = uintn_val from + k * step).
Proof.
  intros Hx Hf Hs H1. rewrite in_step_spec by done. eexists. split; [done|].
  rewrite bool_decide_eq_true. split; (intros [?|H]; [by left|right]).
  - destruct H as [Hle Hm]. exists ((uintn_val x - uintn_val from) / step).
    split; [apply Z.div_pos; lia|]. pose proof (Z.div_mod (uintn_val x - uintn_val from) step).
    lia.
  - destruct H as (k & Hk & ->). split; [nia|].
    replace (uintn_val from + k * step - uintn_val from) with (k * step) by lia.
    apply Z.mod_mul. lia.
Qed.

(** C34: both serialised forms of a [UintN] read back: the length-prefixed one
    gives the value and consumes exactly what was written, whatever follows;
    the fixed-width one, at any sufficient valid width, gives the value back. *)
Theorem uintn_roundtrip x rest size buf : uintn_canonical x ->
  8 + uintn_size_in_bytes x < 2 ^ 64 ->
  uintn_is_valid_data_size size = true -> uintn_size_in_bytes x <= size ->
  uintn_read_from_slice (fst (uintn_write_to_buffer x []) ++ rest) =
    Ok (x, snd (uintn_write_to_buffer x [])) /\
  exists field, uintn_write_value_to_buffer_with_size x buf size = Ok (buf ++ field, size) /\
    zlen field = size /\ uintn_read_value_from_slice field size = Ok x.
Proof.
  intros Hx Hlen Hv Hs. split.
  - rewrite read_from_slice_spec by done. by rewrite write_to_buffer_spec.
  - exists (uintn_padded x size). split; [by apply write_with_size_ok|].
    split; [by apply zlen_padded|].
    destruct (read_padded x size) as (y & -> & _ & _ & Hy); [done..|]. by rewrite Hy.
Qed.

(** A length prefix close to [2^64] is not reported as a short slice: with
    overflow checks the reader panics on it, whatever follows; without them the
    wrapped end makes the slice of the value panic. *)
Theorem uintn_hostile_length len rest :
  2 ^ 64 - 8 <= len < 2 ^ 64 -> uintn_read_from_slice (le_bytes 8 len ++ rest) = Panic.
Proof.
  intros Hl. unfold uintn_read_from_slice.
  assert (Hz : zlen (le_bytes 8 len ++ rest) = 8 + zlen rest)
    by (rewrite zlen_app, zlen_le_bytes; lia).
  pose proof (zlen_nonneg rest). rewrite decide_False by lia.
  rewrite slice_head by (by rewrite zlen_le_bytes). ok_step.
  rewrite le_val_u64 by (unfold in_u; lia). unfold arith.
  rewrite decide_False by (unfold in_u; lia). destruct overflow_checks; ok_step; [done|].
  unfold as_u. replace ((8 + len) mod 2 ^ 64) with (8 + len - 2 ^ 64).
  2: { apply (Z.mod_unique_pos _ _ 1); lia. }
  rewrite decide_False by lia. unfold slice. rewrite decide_False by lia. done.
Qed.

End Claims.


(** The same value in two widths, and a value of 128 bits. *)
Lemma uintn_order_witness :
  uintn_eqb (U8 5) (U16 5) = true /\ uintn_eqb (U32 5) (U128 5) = true /\
  uintn_cmp (U8 255) (U128 (2 ^ 100)) = Lt /\ uintn_eqb (U8 255) (U128 (2 ^ 100)) = false.
Proof.
  destruct (uintn_order (U8 5) (U16 5)) as (H1 & _); [done..|].
  destruct (uintn_order (U32 5) (U128 5)) as (H2 & _); [done..|].
  destruct (uintn_order (U8 255) (U128 (2 ^ 100))) as (H4 & H3 & _); [done..|].
  rewrite H1, H2, H3, H4. done.
Defined.

Lemma uintn_in_step_witness :
  uintn_in_step (B := checked_build) (U8 17) (U8 5) 3 = Ok true.
Proof.
  destruct (uintn_in_step_exact (B := checked_build) (U8 17) (U8 5) 3) as (b & -> & Hb); [done..|].
  f_equal. apply Hb. right. exists 4. done.
Defined.

Lemma uintn_roundtrip_witness :
  let B := checked_build in
  uintn_read_from_slice (fst (uintn_write_to_buffer (U16 300) []) ++ [Byte.x07]) =
    Ok (U16 300, 10).
Proof.
  intros B. destruct (uintn_roundtrip (B := B) (U16 300) [Byte.x07] 4 []) as [H _]; [done..|].
  exact H.
Defined.

Lemma uintn_hostile_length_witness :
  uintn_read_from_slice (B := release_build) (replicate 9 Byte.xff) = Panic.
Proof.
  exact (uintn_hostile_length (B := release_build) (2 ^ 64 - 1) [Byte.xff] ltac:(lia)).
Defined.
