(* ===== verification/Paths.v ===== *)
(** * File paths of numbered files ([uintn-rs/src/paths.rs], [UintN::to_file_path])

    A file of a queue is stored under the hexadecimal digits of its id, cut in
    chunks of three: one directory per chunk, the last chunk is the file name.
    This file models the path of an id, the id of a path, and the walks over a
    directory that list the ids or find the smallest and the largest one. *)
From Stdlib Require Import ZArith Lia List Bool.
From Stdlib Require Import Ascii String.
From stdpp Require Import base option list.
From S2P Require Import Prelude UBig UintN.
#[local] Open Scope Z_scope.

(** ** [std::path]: paths as text *)

Definition slash : ascii := "/"%char.
Definition dot : ascii := "."%char.

(** [Path::is_absolute] on Unix. *)
Definition path_absolute (p : str) : bool :=
  match p with c :: _ => bool_decide (c = slash) | [] => false end.

(** [PathBuf::push] (and [Path::join]): an absolute argument replaces the
    path. *)
Definition path_push (p q : str) : str :=
  if path_absolute q then q
  else if bool_decide (p = []) || bool_decide (last p = Some slash) then p ++ q
  else p ++ slash :: q.

(** [split('/')] *)
Fixpoint split_slash_go (cur : str) (p : str) : list str :=
  match p with
  | [] => [rev cur]
  | c :: p => if decide (c = slash) then rev cur :: split_slash_go [] p
              else split_slash_go (c :: cur) p
  end.
Definition split_slash (p : str) : list str := split_slash_go [] p.

(** [Path::components]: empty parts and inner ["."] parts are dropped. *)
Definition path_components (p : str) : list str :=
  let keep := List.filter (fun c => negb (bool_decide (c = [])) && negb (bool_decide (c = [dot]))) in
  if path_absolute p then [slash] :: keep (split_slash p)
  else match split_slash p with
       | c :: r => if bool_decide (c = [dot]) then c :: keep r else keep (c :: r)
       | [] => []
       end.

(** [Path::extension] of a file name: what follows the last dot, unless the
    dot is the first character. *)
Fixpoint take_until_dot (l : str) : option (str * str) :=
  match l with
  | [] => None
  | c :: l =>
      if decide (c = dot) then Some ([], l)
      else match take_until_dot l with
           | Some (a, b) => Some (c :: a, b)
           | None => None
           end
  end.
Definition name_extension (name : str) : option str :=
  if bool_decide (name = [dot; dot]) then None
  else match take_until_dot (rev name) with
       | Some (ext, []) => None
       | Some (ext, _) => Some (rev ext)
       | None => None
       end.

(** ** The [hex] crate *)

Definition hex_nibble (c : ascii) : option Z :=
  let n := Z.of_N (N_of_ascii c) in
  if decide (48 <= n <= 57) then Some (n - 48)
  else if decide (97 <= n <= 102) then Some (n - 87)
  else if decide (65 <= n <= 70) then Some (n - 55)
  else None.

Fixpoint hex_pairs (s : str) : option bytes :=
  match s with
  | [] => Some []
  | a :: b :: s =>
      match hex_nibble a, hex_nibble b, hex_pairs s with
      | Some x, Some y, Some r => Some (byte_of (16 * x + y) :: r)
      | _, _, _ => None
      end
  | _ => None
  end.

(** [hex::decode]: pairs of hexadecimal digits of either case, an error on an
    odd length or another character. *)
Class HexCrate := {
  hex_decode : str -> option bytes;
  hex_decode_spec s : hex_decode s = hex_pairs s;
}.

#[export] Instance HexCrate_pairs : HexCrate :=
  {| hex_decode := hex_pairs; hex_decode_spec := fun s => eq_refl |}.

(** ** Directories *)

(** What [fs::read_dir] and [WalkDir] see: files, directories with their
    entries in listing order, and directories that cannot be read. *)
Inductive node :=
| NFile
| NDir (entries : list (str * node))
| NBad.

(** [enum PathError] *)
Inductive path_error :=
| PIo (msg : string)
| PUintN (e : uerror)
| PNoFilesFound.

Section Paths.
Context {B : Build} {U : UBig} {H : HexCrate}.

Definition uintn_from_hex_digits (hex_string : str) : outcome uerror uintn :=
  let padded :=
    if decide (zlen hex_string mod 2 = 1) then "0"%char :: hex_string else hex_string in
  match hex_decode padded with
  | Some bs => Ok (uintn_from_ubig (ubig_from_be_bytes bs))
  | None => Err uInvalidHexString
  end.

(** [format!("{:0>width$}", s)] *)
Definition pad_left (width : Z) (s : str) : str :=
  replicate (Z.to_nat (width - zlen s)) "0"%char ++ s.

(** The [while remaining.len() > 3] loop; [fuel] is the number of characters. *)
Fixpoint push_chunks (fuel : nat) (current_path remaining : str) : str * str :=
  match fuel with
  | O => (current_path, remaining)
  | S fuel =>
      if decide (zlen remaining > 3)
      then push_chunks fuel (path_push current_path (take 3 remaining)) (drop 3 remaining)
      else (current_path, remaining)
  end.

Definition uintn_hex_string (x : uintn) : str :=
  match uintn_shrink_to_fit x with
  | U8 v => to_hex v
  | U16 v => to_hex v
  | U32 v => to_hex v
  | U64 v => to_hex v
  | U128 v => to_hex v
  | Big v => ubig_to_hex v
  end.

Definition uintn_to_file_path (x : uintn) (base_folder extension : str) : str :=
  let hex_string := uintn_hex_string x in
  let target_len := ((zlen hex_string + 2) / 3) * 3 in
  let padded_hex := pad_left target_len hex_string in
  let '(current_path, remaining) :=
    push_chunks (length padded_hex) base_folder padded_hex in
  let file_name :=
    if bool_decide (extension = []) then remaining else remaining ++ dot :: extension in
  path_push current_path file_name.

(** The text of the components, the extension stripped. *)
Definition components_hex (extension : str) (components : list str) : str :=
  concat (map (fun component =>
    match strip_suffix (dot :: extension) component with
    | Some stripped => stripped
    | None => component
    end) components).

Definition path_to_id (path extension : str) : outcome path_error uintn :=
  map_err PUintN (uintn_from_hex_digits (components_hex extension (path_components path))).

Definition path_id_or_zero (extension path : str) : uintn :=
  match path_to_id path extension with Ok id => id | _ => uintn_zero end.

(** [Iterator::max_by]: the last of the greatest; [min_by]: the first of the
    least. *)
Definition max_by {A} (cmp : A -> A -> comparison) (l : list A) : option A :=
  match l with
  | [] => None
  | x :: l => Some (fold_left (fun x y => match cmp x y with Gt => x | _ => y end) l x)
  end.
Definition min_by {A} (cmp : A -> A -> comparison) (l : list A) : option A :=
  match l with
  | [] => None
  | x :: l => Some (fold_left (fun x y => match cmp x y with Gt => y | _ => x end) l x)
  end.

Definition cmp_ids (extension : str) (a b : str) : comparison :=
  uintn_cmp (path_id_or_zero extension a) (path_id_or_zero extension b).

(** The files of a directory with the extension, by name. *)
Definition dir_files (extension : str) (entries : list (str * node)) : list str :=
  omap (fun '(name, n) =>
    match n with
    | NFile => if bool_decide (name_extension name = Some extension) then Some name else None
    | _ => None
    end) entries.

Fixpoint find_max_id_recursive (extension : str) (current : node)
    : outcome path_error str :=
  match current with
  | NDir entries =>
      let from_dirs :=
        (fix go (es : list (str * node)) : list str :=
           match es with
           | [] => []
           | (name, NFile) :: es => go es
           | (name, sub) :: es =>
               match find_max_id_recursive extension sub with
               | Ok sub_path => path_push (path_push [] name) sub_path :: go es
               | _ => go es
               end
           end) entries in
      let max_from_dirs := max_by (cmp_ids extension) from_dirs in
      let max_from_files := max_by (cmp_ids extension) (dir_files extension entries) in
      match max_from_dirs, max_from_files with
      | Some p1, Some p2 =>
          let id1 := path_id_or_zero extension p1 in
          let id2 := path_id_or_zero extension p2 in
          Ok (if uintn_leb id2 id1 then p1 else p2)
      | Some p, None => Ok p
      | None, Some p => Ok p
      | None, None => Err PNoFilesFound
      end
  | _ => Err (PIo "read_dir")
  end.

Fixpoint find_min_id_recursive (extension : str) (current : node)
    : outcome path_error str :=
  match current with
  | NDir entries =>
      let from_dirs :=
        (fix go (es : list (str * node)) : list str :=
           match es with
           | [] => []
           | (name, NFile) :: es => go es
           | (name, sub) :: es =>
               match find_min_id_recursive extension sub with
               | Ok sub_path => path_push (path_push [] name) sub_path :: go es
               | _ => go es
               end
           end) entries in
      let min_from_dirs := min_by (cmp_ids extension) from_dirs in
      let min_from_files := min_by (cmp_ids extension) (dir_files extension entries) in
      match min_from_dirs, min_from_files with
      | Some p1, Some p2 =>
          let id1 := path_id_or_zero extension p1 in
          let id2 := path_id_or_zero extension p2 in
          Ok (if uintn_leb id1 id2 then p1 else p2)
      | Some p, None => Ok p
      | None, Some p => Ok p
      | None, None => Err PNoFilesFound
      end
  | _ => Err (PIo "read_dir")
  end.

(** [base] is [None] when the base path does not exist. *)
Definition find_max_id (base : option node) (extension : str) : outcome path_error uintn :=
  match base with
  | None => Err (PIo "Base path does not exist")
  | Some t =>
      relative_path ← find_max_id_recursive extension t;
      path_to_id relative_path extension
  end.

Definition find_min_id (base : option node) (extension : str) : outcome path_error uintn :=
  match base with
  | None => Err (PIo "Base path does not exist")
  | Some t =>
      relative_path ← find_min_id_recursive extension t;
      path_to_id relative_path extension
  end.

(** The files below a directory, as their relative components, in walk
    order ([WalkDir]; unreadable directories are skipped). *)
Fixpoint walk_files (current : node) : list (list str) :=
  match current with
  | NDir entries =>
      (fix go (es : list (str * node)) : list (list str) :=
         match es with
         | [] => []
         | (name, NFile) :: es => [name] :: go es
         | (name, sub) :: es => map (cons name) (walk_files sub) ++ go es
         end) entries
  | _ => []
  end.

(** [ids.sort()]: insertion of each id before the first greater one (the sort
    is stable). *)
Fixpoint insert_id (x : uintn) (l : list uintn) : list uintn :=
  match l with
  | [] => [x]
  | y :: l => if uintn_ltb x y then x :: y :: l else y :: insert_id x l
  end.
Definition sort_ids (l : list uintn) : list uintn := fold_left (fun acc x => insert_id x acc) l [].

Definition get_files_ids (base : node) (extension : str) : list uintn :=
  sort_ids (omap (fun comps =>
    match last comps with
    | Some name =>
        if bool_decide (name_extension name = Some extension)
        then ok_opt (uintn_from_hex_digits (components_hex extension comps))
        else None
    | None => None
    end) (walk_files base)).

End Paths.
