(* ===== verification/PathsFacts.v ===== *)
(** * Theory of file paths

    An id is recovered from its path, two ids never share a path, and the
    directory walks find the extreme ids, as long as the files below each
    top-level directory have the same depth (every id below [2^24]). *)
From Stdlib Require Import ZArith Lia List Bool Sorted Permutation.
From Stdlib Require Import Ascii String.
From stdpp Require Import base option list.
From S2P Require Import Prelude UBig UintN UintNFacts Paths.
#[local] Open Scope Z_scope.

(** ** Hexadecimal text *)

Definition nib (c : ascii) : Z := default 0 (hex_nibble c).
Definition is_hex (c : ascii) : Prop := is_Some (hex_nibble c).
Definition hexv (s : str) : Z := fold_left (fun acc c => 16 * acc + nib c) s 0.

Lemma nib_range c : 0 <= nib c < 16.
Proof.
  unfold nib, hex_nibble. generalize (Z.of_N (N_of_ascii c)). intros n. cbn zeta.
  repeat case_decide; simpl; lia.
Qed.

Lemma hexv_acc s a :
  fold_left (fun acc c => 16 * acc + nib c) s a = a * 16 ^ zlen s + hexv s.
Proof.
  unfold hexv. revert a. induction s as [|c s IH]; intros a;
    [rewrite zlen_nil; cbn [fold_left]; lia|].
  cbn [fold_left]. rewrite IH, (IH (16 * 0 + nib c)), zlen_cons.
  rewrite Z.pow_add_r by (try apply zlen_nonneg; lia). ring.
Qed.

Lemma hexv_app s t : hexv (s ++ t) = hexv s * 16 ^ zlen t + hexv t.
Proof. unfold hexv at 1. rewrite fold_left_app. apply hexv_acc. Qed.

Lemma hexv_cons c s : hexv (c :: s) = nib c * 16 ^ zlen s + hexv s.
Proof. apply (hexv_app [c] s). Qed.

Lemma hexv_range s : 0 <= hexv s < 16 ^ zlen s.
Proof.
  induction s as [|c s IH]; [change (0 <= 0 < 1); lia|].
  rewrite hexv_cons, zlen_cons, Z.pow_add_r by (try apply zlen_nonneg; lia).
  pose proof (nib_range c). nia.
Qed.

Lemma hexv_zeros n s : hexv (replicate n "0"%char ++ s) = hexv s.
Proof.
  rewrite hexv_app. replace (hexv (replicate n "0"%char)) with 0; [lia|].
  induction n as [|n IH]; [done|]. cbn [replicate]. rewrite hexv_cons, <- IH.
  change (nib "0"%char) with 0. lia.
Qed.

Lemma hex_digit_nibble d : 0 <= d < 16 -> hex_nibble (hex_digit d) = Some d.
Proof.
  intros Hd.
  assert (d = 0 \/ d = 1 \/ d = 2 \/ d = 3 \/ d = 4 \/ d = 5 \/ d = 6 \/ d = 7 \/ d = 8 \/
    d = 9 \/ d = 10 \/ d = 11 \/ d = 12 \/ d = 13 \/ d = 14 \/ d = 15) as Hc by lia.
  repeat destruct Hc as [->|Hc]; try (subst d); reflexivity.
Qed.

Lemma hex_digit_hex d : 0 <= d < 16 -> is_hex (hex_digit d).
Proof. intros. eexists. by apply hex_digit_nibble. Qed.

Lemma hex_digit_nib d : 0 <= d < 16 -> nib (hex_digit d) = d.
Proof. intros. unfold nib. by rewrite hex_digit_nibble. Qed.

Lemma hex_go_spec fuel z acc : 0 <= z < 16 ^ Z.of_nat fuel -> Forall is_hex acc ->
  Forall is_hex (hex_go fuel z acc) /\
  hexv (hex_go fuel z acc) = z * 16 ^ zlen acc + hexv acc.
Proof.
  revert z acc. induction fuel as [|fuel IH]; intros z acc Hz Ha.
  { change (16 ^ Z.of_nat 0) with 1 in Hz. assert (z = 0) as -> by lia.
    cbn [hex_go]. split; [done|lia]. }
  cbn [hex_go]. case_decide as Hs.
  - split; [constructor; [apply hex_digit_hex; lia|done]|].
    rewrite hexv_cons, hex_digit_nib by lia. done.
  - pose proof (Z.mod_pos_bound z 16 eq_refl) as Hm. pose proof (Z.div_mod z 16).
    destruct (IH (z / 16) (hex_digit (z mod 16) :: acc)) as [Hf ->].
    + rewrite Nat2Z.inj_succ, Z.pow_succ_r in Hz by lia.
      split; [apply Z.div_pos; lia|apply Z.div_lt_upper_bound; lia].
    + constructor; [by apply hex_digit_hex|done].
    + split; [done|]. rewrite hexv_cons, hex_digit_nib, zlen_cons by done.
      rewrite Z.pow_add_r by (try apply zlen_nonneg; lia). nia.
Qed.

Lemma hex_go_nonempty fuel z acc : hex_go (S fuel) z acc <> [].
Proof.
  revert z acc. induction fuel as [|fuel IH]; intros z acc; cbn [hex_go]; case_decide;
    try done. apply IH.
Qed.

Lemma to_hex_spec z : 0 <= z ->
  Forall is_hex (to_hex z) /\ hexv (to_hex z) = z /\ to_hex z <> [].
Proof.
  intros Hz. destruct (hex_go_spec (S (Z.to_nat (Z.log2 z))) z []) as [Hf Hv].
  - split; [done|]. pose proof (Z.log2_nonneg z).
    rewrite Nat2Z.inj_succ, Z2Nat.id by done.
    destruct (decide (z = 0)) as [->|]; [done|].
    pose proof (Z.log2_spec z) as [_ Hl]; [lia|].
    eapply Z.lt_le_trans; [exact Hl|]. apply Z.pow_le_mono_l. lia.
  - constructor.
  - unfold to_hex. split_and!; [done| |apply hex_go_nonempty].
    rewrite Hv, zlen_nil. unfold hexv. cbn [fold_left]. lia.
Qed.

(** [hex::decode] on hexadecimal digits of even number. *)
Lemma hex_pairs_spec n s : (length s = 2 * n)%nat -> Forall is_hex s ->
  exists bs, hex_pairs s = Some bs /\ length bs = n /\ le_val (rev bs) = hexv s.
Proof.
  revert s. induction n as [|n IH]; intros s Hl Hf.
  { destruct s; [|done]. by exists []. }
  destruct s as [|a [|b s]]; [done|simpl in Hl; lia|].
  apply Forall_cons in Hf as [Ha Hf]. apply Forall_cons in Hf as [Hb Hf].
  destruct (IH s) as (bs & Hp & Hn & Hv); [simpl in Hl; lia|done|].
  cbn [hex_pairs]. destruct Ha as [x Ha], Hb as [y Hb]. rewrite Ha, Hb, Hp.
  eexists. split; [done|]. split; [simpl; lia|].
  cbn [rev]. rewrite le_val_app, length_rev, Hn. cbn [le_val].
  rewrite Hv, !hexv_cons, byte_val_of.
  pose proof (nib_range a) as Hxr. pose proof (nib_range b) as Hyr.
  unfold nib in *. rewrite Ha, Hb in *. simpl in Hxr, Hyr |- *.
  rewrite Z.mod_small by lia. rewrite zlen_cons.
  replace (zlen s) with (2 * Z.of_nat n) by (unfold zlen; simpl in Hl; lia).
  replace (2 ^ (8 * Z.of_nat n)) with (16 ^ (2 * Z.of_nat n)).
  - rewrite Z.pow_add_r by lia. ring.
  - change 16 with (2 ^ 4). rewrite <- Z.pow_mul_r by lia. f_equal. lia.
Qed.

Lemma is_hex_no_slash c : is_hex c -> c <> slash /\ c <> dot.
Proof. intros [x Hx]. split; intros ->; discriminate. Qed.

(** ** Joining and splitting *)

(** A path component: not empty, no slash, not ["."]. *)
Definition good_comp (c : str) : Prop :=
  c <> [] /\ Forall (fun a => a <> slash) c /\ c <> [dot].

Definition join_path (cs : list str) : str := fold_left path_push cs [].

Fixpoint join_sep (c : str) (cs : list str) : str :=
  match cs with [] => c | d :: cs => c ++ slash :: join_sep d cs end.

Lemma good_last c : good_comp c -> last c <> Some slash.
Proof.
  intros (_ & Hf & _) Hl. apply last_Some in Hl as [l ->].
  apply Forall_app in Hf as [_ Hf]. by apply Forall_cons in Hf as [Hf _].
Qed.

Lemma good_not_absolute c : good_comp c -> path_absolute c = false.
Proof.
  intros (Hne & Hf & _). destruct c as [|a c]; [done|].
  apply Forall_cons in Hf as [Ha _]. simpl. by apply bool_decide_false.
Qed.

Lemma path_push_good p c : good_comp c -> p <> [] -> last p <> Some slash ->
  path_push p c = p ++ slash :: c.
Proof.
  intros Hc Hp Hl. unfold path_push.
  rewrite good_not_absolute, !bool_decide_false by done. done.
Qed.

Lemma last_app_sep (p c : str) : c <> [] -> last (p ++ slash :: c) = last c.
Proof.
  intros Hc. rewrite last_app. destruct c as [|a c]; [done|].
  change (last (slash :: a :: c)) with (last (a :: c)).
  destruct (last (a :: c)) as [x|] eqn:E; [done|]. by apply last_None in E.
Qed.

Lemma fold_push_good c cs : c <> [] -> last c <> Some slash -> Forall good_comp cs ->
  fold_left path_push cs c = join_sep c cs.
Proof.
  revert c. induction cs as [|d cs IH]; intros c Hc Hl Hf; [done|].
  apply Forall_cons in Hf as [Hd Hf]. cbn [fold_left join_sep].
  rewrite path_push_good by done.
  assert (last (c ++ slash :: d) <> Some slash) as Hl'.
  { rewrite last_app_sep by apply Hd. by apply good_last. }
  rewrite IH; [|by destruct c|done|done].
  clear. revert d. destruct cs as [|e cs]; intros d; simpl; [done|].
  by rewrite <- app_assoc.
Qed.

Lemma join_path_cons c cs : Forall good_comp (c :: cs) -> join_path (c :: cs) = join_sep c cs.
Proof.
  intros Hf. apply Forall_cons in Hf as [Hc Hf]. unfold join_path. cbn [fold_left].
  replace (path_push [] c) with c.
  - apply fold_push_good; [apply Hc|by apply good_last|done].
  - unfold path_push. by rewrite good_not_absolute.
Qed.

Lemma join_path_push c cs : Forall good_comp (c :: cs) -> cs <> [] ->
  path_push (path_push [] c) (join_path cs) = join_path (c :: cs).
Proof.
  intros Hf Hne. destruct cs as [|d cs]; [done|].
  rewrite (join_path_cons c) by done. apply Forall_cons in Hf as [Hc Hf].
  rewrite join_path_cons by done. pose proof Hf as Hf'.
  apply Forall_cons in Hf as [Hd Hf].
  replace (path_push [] c) with c by (unfold path_push; by rewrite good_not_absolute).
  unfold path_push.
  assert (path_absolute (join_sep d cs) = false) as ->.
  { destruct Hd as (Hdn & Hds & _). destruct d as [|a d]; [done|].
    apply Forall_cons in Hds as [Ha _]. destruct cs; simpl; by apply bool_decide_false. }
  rewrite !bool_decide_false; [done|by apply good_last|apply Hc].
Qed.

(** The part of a path before the first component pushed on a base. *)
Definition base_prefix (base : str) : str :=
  if bool_decide (base = []) || bool_decide (last base = Some slash) then base
  else base ++ [slash].

Lemma push_on_base base c cs : Forall good_comp (c :: cs) ->
  fold_left path_push (c :: cs) base = base_prefix base ++ join_path (c :: cs).
Proof.
  intros Hf. rewrite join_path_cons by done. apply Forall_cons in Hf as [Hc Hf].
  cbn [fold_left]. assert (path_push base c = base_prefix base ++ c) as ->.
  { unfold path_push, base_prefix. rewrite good_not_absolute by done.
    destruct (_ || _); [done|]. by rewrite <- app_assoc. }
  rewrite fold_push_good; [by destruct cs; cbn [join_sep]; rewrite <- ?app_assoc| | |done].
  - intros E. apply app_eq_nil in E as [_ E]. by apply Hc in E.
  - rewrite last_app. destruct (last c) as [a|] eqn:E; [|apply last_None in E; by apply Hc in E].
    intros [= ->]. by apply (good_last c).
Qed.

Lemma split_go_app cur c rest : Forall (fun a => a <> slash) c ->
  split_slash_go cur (c ++ slash :: rest) = (rev cur ++ c) :: split_slash_go [] rest.
Proof.
  revert cur. induction c as [|a c IH]; intros cur Hf; cbn [app split_slash_go].
  - rewrite decide_True by done. by rewrite app_nil_r.
  - apply Forall_cons in Hf as [Ha Hf]. rewrite decide_False by done.
    rewrite IH by done. cbn [rev]. by rewrite <- app_assoc.
Qed.

Lemma split_go_end cur c : Forall (fun a => a <> slash) c ->
  split_slash_go cur c = [rev cur ++ c].
Proof.
  revert cur. induction c as [|a c IH]; intros cur Hf; cbn [split_slash_go].
  - by rewrite app_nil_r.
  - apply Forall_cons in Hf as [Ha Hf]. rewrite decide_False by done.
    rewrite IH by done. cbn [rev]. by rewrite <- app_assoc.
Qed.

Lemma split_join c cs : Forall good_comp (c :: cs) -> split_slash (join_sep c cs) = c :: cs.
Proof.
  unfold split_slash. revert c. induction cs as [|d cs IH]; intros c Hf;
    apply Forall_cons in Hf as [(_ & Hc & _) Hf]; cbn [join_sep].
  - by rewrite split_go_end.
  - rewrite split_go_app by done. by rewrite IH.
Qed.

Lemma components_join cs : cs <> [] -> Forall good_comp cs ->
  path_components (join_path cs) = cs.
Proof.
  intros Hne Hf. destruct cs as [|c cs]; [done|].
  rewrite join_path_cons by done. unfold path_components.
  assert (path_absolute (join_sep c cs) = false) as ->.
  { apply Forall_cons in Hf as [(Hcn & Hcs & _) _]. destruct c as [|a c]; [done|].
    apply Forall_cons in Hcs as [Ha _]. destruct cs; simpl; by apply bool_decide_false. }
  rewrite split_join by done.
  assert (forall l, Forall good_comp l ->
    List.filter (fun c => negb (bool_decide (c = [])) && negb (bool_decide (c = [dot]))) l = l)
    as Hkeep.
  { induction l as [|x l IH]; intros Hl; [done|].
    apply Forall_cons in Hl as [(Hx & _ & Hx') Hl]. cbn [List.filter].
    rewrite !bool_decide_false by done. simpl. by rewrite IH. }
  rewrite bool_decide_false; [by apply Hkeep|].
  apply Forall_cons in Hf as [(_ & _ & Hd) _]. done.
Qed.

(** ** The chunks of an id *)

Lemma push_chunks_spec fuel s : (length s <= fuel)%nat -> s <> [] ->
  exists cs r, (forall base, push_chunks fuel base s = (fold_left path_push cs base, r)) /\
    concat cs ++ r = s /\ Forall (fun c => length c = 3%nat) cs /\ r <> [].
Proof.
  revert s. induction fuel as [|fuel IH]; intros s Hl Hs.
  { destruct s; [done|simpl in Hl; lia]. }
  cbn [push_chunks]. destruct (decide (zlen s > 3)) as [Hd|Hd].
  - assert (length (take 3 s) = 3%nat) as Ht by (rewrite length_take; unfold zlen in Hd; lia).
    destruct (IH (drop 3 s)) as (cs & r & Hpc & Hc & Hf & Hr).
    + rewrite length_drop. lia.
    + intros E. apply (f_equal length) in E. rewrite length_drop in E.
      unfold zlen in Hd. simpl in E. lia.
    + exists (take 3 s :: cs), r. split_and!; [intros; apply Hpc| |by constructor|done].
      cbn [concat]. rewrite <- app_assoc, Hc. apply take_drop.
  - by exists [], s.
Qed.

Lemma hex_good s : s <> [] -> Forall is_hex s -> good_comp s.
Proof.
  intros Hne Hf. split_and!; [done| |].
  - eapply Forall_impl; [exact Hf|]. by intros a [? _]%is_hex_no_slash.
  - intros ->. apply Forall_cons in Hf as [Hd _]. by apply is_hex_no_slash in Hd as [_ ?].
Qed.

Definition is_ext (ext : str) : Prop :=
  ext <> [] /\ Forall (fun c => c <> slash /\ c <> dot) ext.

Lemma strip_suffix_hex ext c : Forall is_hex c -> strip_suffix (dot :: ext) c = None.
Proof.
  intros Hf. destruct (strip_suffix _ _) eqn:E; [|done].
  apply strip_suffix_Some in E as ->. apply Forall_app in Hf as [_ Hf].
  apply Forall_cons in Hf as [Hd _]. by apply is_hex_no_slash in Hd as [_ ?].
Qed.

Lemma components_hex_chunks ext cs r : Forall (Forall is_hex) cs ->
  components_hex ext (cs ++ [r ++ dot :: ext]) = concat cs ++ r.
Proof.
  intros Hf. unfold components_hex. rewrite map_app, concat_app. cbn [map concat].
  rewrite strip_suffix_app, app_nil_r. f_equal.
  induction Hf as [|c cs Hc Hf IH]; [done|]. cbn [map concat].
  by rewrite strip_suffix_hex, IH.
Qed.

Section Facts.
Context {B : Build} {U : UBig} {H : HexCrate}.

(** The hexadecimal digits of a path, as a number. *)
Lemma from_hex_digits_spec s : Forall is_hex s ->
  exists x, uintn_from_hex_digits s = Ok x /\ uintn_canonical x /\ uintn_val x = hexv s.
Proof.
  intros Hf. unfold uintn_from_hex_digits. cbn zeta. rewrite hex_decode_spec.
  assert (exists t n, (if decide (zlen s mod 2 = 1) then "0"%char :: s else s) = t /\
    length t = (2 * n)%nat /\ Forall is_hex t /\ hexv t = hexv s)
    as (t & n & -> & Hn & Ht & Hv).
  { case_decide as Hp.
    - exists ("0"%char :: s), (Z.to_nat (zlen s / 2 + 1)). split_and!; [done| | |].
      + pose proof (Z.div_mod (zlen s) 2). unfold zlen in *. simpl. lia.
      + constructor; [by eexists|done].
      + apply (hexv_zeros 1).
    - exists s, (Z.to_nat (zlen s / 2)). split_and!; [done| |done|done].
      pose proof (Z.div_mod (zlen s) 2). pose proof (Z.mod_pos_bound (zlen s) 2 eq_refl).
      unfold zlen in *. lia. }
  destruct (hex_pairs_spec n t Hn Ht) as (bs & -> & _ & Hb).
  eexists. split; [done|].
  pose proof (from_ubig_spec (ubig_from_be_bytes bs)) as [? ?]. split; [done|].
  etransitivity; [eassumption|]. rewrite ubig_from_be_bytes_val. congruence.
Qed.

(** Every id has a path of hexadecimal chunks. *)
Lemma to_file_path_chunks x ext : uintn_wf x -> is_ext ext ->
  exists cs r, (forall base, uintn_to_file_path x base ext =
      path_push (fold_left path_push cs base) (r ++ dot :: ext)) /\
    Forall (fun c => length c = 3%nat) cs /\ Forall (Forall is_hex) cs /\
    Forall is_hex r /\ r <> [] /\ hexv (concat cs ++ r) = uintn_val x.
Proof.
  intros Hwf [Hext _]. pose proof (shrink_spec x Hwf) as [[[Hswf _] _] Hv].
  assert (uintn_hex_string x = to_hex (uintn_val x)) as Hhex.
  { rewrite <- Hv. unfold uintn_hex_string.
    destruct (uintn_shrink_to_fit x); try done. apply ubig_to_hex_spec. }
  assert (0 <= uintn_val x) as Hpos by (rewrite <- Hv; by apply val_nonneg).
  destruct (to_hex_spec (uintn_val x) Hpos) as (Hf & Hn & Hne).
  unfold uintn_to_file_path. rewrite Hhex. unfold pad_left. cbn zeta.
  set (k := Z.to_nat _). set (p := replicate k _ ++ _).
  assert (Forall is_hex p) as Hp.
  { apply Forall_app. split; [|done]. apply Forall_replicate. by eexists. }
  assert (p <> []) as Hpne by (subst p; intros E; by apply app_eq_nil in E as [_ ?]).
  destruct (push_chunks_spec (length p) p) as (cs & r & Hpc & Hc & H3 & Hr); [done..|].
  assert (Forall (Forall is_hex) cs /\ Forall is_hex r) as [Hcs Hrh].
  { rewrite <- Hc in Hp. apply Forall_app in Hp as [Hp ?]. by rewrite Forall_concat in Hp. }
  exists cs, r. split_and!; try done.
  - intros base. by rewrite Hpc, bool_decide_false.
  - rewrite Hc. subst p. by rewrite hexv_zeros.
Qed.

Lemma chunks_good cs r ext : Forall (fun c => length c = 3%nat) cs ->
  Forall (Forall is_hex) cs -> Forall is_hex r -> r <> [] -> is_ext ext ->
  Forall good_comp (cs ++ [r ++ dot :: ext]).
Proof.
  intros H3 Hcs Hr Hne [Hext Hes]. apply Forall_app. split.
  - apply Forall_lookup_2. intros i c Hi.
    pose proof (Forall_lookup_1 _ _ _ _ H3 Hi) as Hl. apply hex_good.
    + by intros ->.
    + exact (Forall_lookup_1 _ _ _ _ Hcs Hi).
  - constructor; [|constructor]. pose proof (hex_good r Hne Hr) as (_ & Hrs & _).
    split_and!.
    + by destruct r.
    + apply Forall_app. split; [done|]. constructor; [done|].
      eapply Forall_impl; [exact Hes|]. by intros ? [? _].
    + intros E. destruct r as [|a [|]]; [done| |done]. simpl in E.
      by injection E as -> ?.
Qed.

(** The path of an id, read back. *)
Lemma path_to_id_file_path x ext : uintn_wf x -> is_ext ext ->
  path_to_id (uintn_to_file_path x [] ext) ext = Ok (uintn_shrink_to_fit x).
Proof.
  intros Hwf Hext. destruct (to_file_path_chunks x ext Hwf Hext)
    as (cs & r & Hp & H3 & Hcs & Hr & Hne & Hv).
  pose proof (chunks_good cs r ext H3 Hcs Hr Hne Hext) as Hg.
  rewrite Hp. change (path_push ?a ?b) with (fold_left path_push [b] a).
  rewrite <- fold_left_app. fold (join_path (cs ++ [r ++ dot :: ext])).
  unfold path_to_id. rewrite components_join by (try done; by destruct cs).
  rewrite components_hex_chunks by done.
  destruct (from_hex_digits_spec (concat cs ++ r)) as (y & -> & Hc & Hy).
  { apply Forall_app. split; [|done]. by apply Forall_concat. }
  simpl. f_equal. pose proof (shrink_spec x Hwf) as [Hsc Hsv].
  apply canonical_inj; [done..|]. congruence.
Qed.

Lemma to_file_path_inj x y ext : uintn_wf x -> uintn_wf y -> is_ext ext ->
  uintn_to_file_path x [] ext = uintn_to_file_path y [] ext -> uintn_val x = uintn_val y.
Proof.
  intros Hx Hy Hext E.
  pose proof (path_to_id_file_path x ext Hx Hext) as Hp.
  rewrite E, path_to_id_file_path in Hp by done. injection Hp as Hp.
  destruct (shrink_spec x Hx) as [_ <-], (shrink_spec y Hy) as [_ <-]. congruence.
Qed.

Lemma file_path_base x base ext : uintn_wf x -> is_ext ext ->
  uintn_to_file_path x base ext = base_prefix base ++ uintn_to_file_path x [] ext.
Proof.
  intros Hwf Hext. destruct (to_file_path_chunks x ext Hwf Hext)
    as (cs & r & Hp & H3 & Hcs & Hr & Hne & _).
  pose proof (chunks_good cs r ext H3 Hcs Hr Hne Hext) as Hg.
  rewrite !Hp. change (path_push ?a ?b) with (fold_left path_push [b] a).
  rewrite <- !fold_left_app. 
  destruct (cs ++ [r ++ dot :: ext]) as [|c l] eqn:E; [by destruct cs|].
  by rewrite push_on_base.
Qed.

(** In a directory different ids have different paths. *)
Lemma file_path_inj x y base ext : uintn_wf x -> uintn_wf y -> is_ext ext ->
  uintn_to_file_path x base ext = uintn_to_file_path y base ext -> uintn_val x = uintn_val y.
Proof.
  intros Hx Hy He. rewrite (file_path_base x base), (file_path_base y base) by done.
  intros E%app_inv_head. by apply (to_file_path_inj x y ext).
Qed.

(** C35: the path of an id leads back to the id (in its narrowest form), and in
    any base directory different ids have different paths. *)
Theorem file_path_roundtrip x y base ext : uintn_wf x -> uintn_wf y -> is_ext ext ->
  path_to_id (uintn_to_file_path x [] ext) ext = Ok (uintn_shrink_to_fit x) /\
  (uintn_to_file_path x base ext = uintn_to_file_path y base ext -> uintn_val x = uintn_val y).
Proof.
  intros Hx Hy He. split; [by apply path_to_id_file_path|]. by apply file_path_inj.
Qed.

End Facts.

Lemma file_path_roundtrip_witness :
  path_to_id (uintn_to_file_path (U32 0x1fff) [] (s2l "wal")) (s2l "wal") = Ok (U16 0x1fff) /\
  uintn_to_file_path (U32 0x1fff) (s2l "/q") (s2l "wal") = s2l "/q/001/fff.wal".
Proof.
  split; [|reflexivity].
  assert (is_ext (s2l "wal")) as He by (split; [done|repeat constructor; done]).
  destruct (file_path_roundtrip (U32 0x1fff) (U8 0) [] (s2l "wal")) as [-> _]; done.
Defined.
