(* ===== verification/PathsSearch.v ===== *)
(** * Searching the directories of numbered files ([uintn-rs/src/paths.rs])

    What [find_max_id], [find_min_id] and [get_files_ids] give: on directories
    of two levels (ids below [2^24]) the searches return the ends of the sorted
    list; on deeper ones they need not. *)
From Stdlib Require Import ZArith Lia List Bool Sorted Permutation.
From Stdlib Require Import Ascii String.
From stdpp Require Import base option list.
From S2P Require Import Prelude UBig UintN UintNFacts Paths PathsFacts.
#[local] Open Scope Z_scope.

(** ** The smallest and the largest id of a directory *)

(** The id a list of components stands for. *)
Definition comps_val (ext : str) (cs : list str) : Z := hexv (components_hex ext cs).

(** A file of the layout: three digits and the extension.  Files with another
    extension are ignored. *)
Definition chunk_file (ext name : str) : Prop :=
  name_extension name = Some ext ->
  exists r, name = r ++ dot :: ext /\ Forall is_hex r /\ length r = 3%nat.

(** A directory of the files of ids below [2^24]: files, and directories of
    files named by three digits. *)
Definition two_level (ext : str) (entries : list (str * node)) : Prop :=
  Forall (fun '(name, n) =>
    match n with
    | NFile => chunk_file ext name
    | NDir sub => Forall is_hex name /\ length name = 3%nat /\
        Forall (fun '(m, k) => k = NFile /\ chunk_file ext m) sub
    | NBad => True
    end) entries.

(** The components of the files with the extension. *)
Definition listed (ext : str) (t : node) : list (list str) :=
  List.filter (fun comps => match last comps with
    | Some name => bool_decide (name_extension name = Some ext) | None => false end)
    (walk_files t).

Definition sub_paths (rec : node -> outcome path_error str) : list (str * node) -> list str :=
  fix go (es : list (str * node)) : list str :=
    match es with
    | [] => []
    | (name, NFile) :: es => go es
    | (name, sub) :: es =>
        match rec sub with
        | Ok sub_path => path_push (path_push [] name) sub_path :: go es
        | _ => go es
        end
    end.

(** Digits of a component of the layout. *)
Definition layout (ext : str) (cs : list str) : Prop :=
  exists ds r, cs = ds ++ [r ++ dot :: ext] /\ Forall (fun c => length c = 3%nat) ds /\
    Forall (Forall is_hex) ds /\ Forall is_hex r /\ length r = 3%nat.

Lemma walk_dir es cs : In cs (walk_files (NDir es)) <->
  exists name n, In (name, n) es /\
    ((n = NFile /\ cs = [name]) \/ (n <> NFile /\ exists c, In c (walk_files n) /\ cs = name :: c)).
Proof.
  induction es as [|[name n] es IH]; [split; [done|by intros (? & ? & [] & _)]|].
  assert (In cs (walk_files (NDir ((name, n) :: es))) <->
    ((n = NFile /\ cs = [name]) \/ (n <> NFile /\ exists c, In c (walk_files n) /\ cs = name :: c))
    \/ In cs (walk_files (NDir es))) as ->.
  { destruct n as [|sub|].
    - cbn. split; [intros [<-|?]; auto|]. intros [[[_ ->]|[? _]]|?]; auto. congruence.
    - change (walk_files (NDir ((name, NDir sub) :: es))) with
        (map (cons name) (walk_files (NDir sub)) ++ walk_files (NDir es)).
      rewrite in_app_iff, in_map_iff. split; (intros [Hx|?]; [left|by right]).
      + right. split; [done|]. destruct Hx as (c & <- & ?). by exists c.
      + destruct Hx as [[? _]|[_ (c & ? & ->)]]; [congruence|]. by exists c.
    - cbn. split; [by right|]. intros [[[? _]|[_ (c & [] & _)]]|?]; [congruence|done]. }
  rewrite IH. split.
  - intros [Hx|(m & k & ? & ?)]; [exists name, n|exists m, k]; (split; [|done]); [by left|by right].
  - intros (m & k & [[= <- <-]|?] & Hx); [by left|right]. by exists m, k.
Qed.

Section Extremes.
Context {B : Build} {U : UBig} {H : HexCrate}.
Context (ext : str) (Hext : is_ext ext).

Lemma layout_good cs : layout ext cs -> Forall good_comp cs /\ cs <> [].
Proof.
  intros (ds & r & -> & H3 & Hds & Hr & Hl). split; [|by destruct ds].
  apply chunks_good; try done. by intros ->.
Qed.

Lemma layout_val ds r : Forall (Forall is_hex) ds ->
  comps_val ext (ds ++ [r ++ dot :: ext]) = hexv (concat ds ++ r).
Proof. intros Hds. unfold comps_val. by rewrite components_hex_chunks. Qed.

Lemma layout_id cs : layout ext cs ->
  exists x, uintn_from_hex_digits (components_hex ext cs) = Ok x /\ uintn_canonical x /\
    uintn_val x = comps_val ext cs /\ path_to_id (join_path cs) ext = Ok x.
Proof.
  intros Hc. pose proof (layout_good cs Hc) as [Hg Hne].
  unfold path_to_id. rewrite components_join by done.
  destruct Hc as (ds & r & -> & H3 & Hds & Hr & Hl).
  unfold comps_val. rewrite components_hex_chunks by done.
  destruct (from_hex_digits_spec (concat ds ++ r)) as (x & -> & Hx & Hv).
  { apply Forall_app. split; [by apply Forall_concat|done]. }
  by exists x.
Qed.

(** One of the two walks: [best] picks from a list of paths, [choose] between
    the best directory and the best file. *)
Context (rec : node -> outcome path_error str) (best : list str -> option str).
Context (choose : str -> str -> str) (ord : Z -> Z -> Prop) `{!PreOrder ord}.
Hypothesis ord_add : forall a b c, ord a b -> ord (c + a) (c + b).
Hypothesis rec_file : forall n, (forall es, n <> NDir es) -> exists e, rec n = Err e.
Hypothesis rec_dir : forall es, rec (NDir es) =
  match best (sub_paths rec es), best (dir_files ext es) with
  | Some p1, Some p2 => Ok (choose p1 p2)
  | Some p, None => Ok p
  | None, Some p => Ok p
  | None, None => Err PNoFilesFound
  end.
Hypothesis best_spec : forall css, Forall (layout ext) css ->
  match best (map join_path css) with
  | None => css = []
  | Some p => exists cs, In cs css /\ p = join_path cs /\
      forall ds, In ds css -> ord (comps_val ext ds) (comps_val ext cs)
  end.
Hypothesis choose_spec : forall cs ds, layout ext cs -> layout ext ds ->
  exists es, (es = cs \/ es = ds) /\ choose (join_path cs) (join_path ds) = join_path es /\
    ord (comps_val ext cs) (comps_val ext es) /\ ord (comps_val ext ds) (comps_val ext es).

(** What a walk returns for the listed files [css]. *)
Definition extreme (css : list (list str)) (r : outcome path_error str) : Prop :=
  match r with
  | Ok p => exists cs, In cs css /\ layout ext cs /\ p = join_path cs /\
      forall ds, In ds css -> ord (comps_val ext ds) (comps_val ext cs)
  | Err _ => css = []
  | Panic => False
  end.

Lemma chunk_layout name : chunk_file ext name -> name_extension name = Some ext ->
  layout ext [name].
Proof. intros Hc Hn. destruct (Hc Hn) as (r & -> & ? & ?). by exists [], r. Qed.

Definition plain_files (es : list (str * node)) : list (list str) :=
  map (fun name => [name]) (dir_files ext es).

Lemma plain_paths es : map join_path (plain_files es) = map (path_push []) (dir_files ext es).
Proof. unfold plain_files. by rewrite map_map. Qed.

Lemma dir_files_in es name : In name (dir_files ext es) ->
  In (name, NFile) es /\ name_extension name = Some ext.
Proof.
  unfold dir_files. intros Hn. apply list_elem_of_In, list_elem_of_omap in Hn
    as ([m k] & Hin & Hk). apply list_elem_of_In in Hin.
  destruct k; try done. case_bool_decide; [|done]. by simplify_eq.
Qed.

Lemma plain_layout es : Forall (fun '(m, k) => k = NFile -> chunk_file ext m) es ->
  Forall (layout ext) (plain_files es) /\ map join_path (plain_files es) = dir_files ext es.
Proof.
  intros Hes.
  assert (Hl : forall name, In name (dir_files ext es) -> layout ext [name]).
  { intros name Hn. apply dir_files_in in Hn as [Hin Hx].
    rewrite List.Forall_forall in Hes. apply chunk_layout; [|done]. by apply (Hes _ Hin). }
  split.
  - unfold plain_files. apply List.Forall_forall. intros cs Hcs.
    apply in_map_iff in Hcs as (name & <- & Hn). by apply Hl.
  - rewrite plain_paths. rewrite <- (map_id (dir_files ext es)) at 2.
    apply map_ext_in. intros name Hn. pose proof (layout_good _ (Hl _ Hn)) as [Hg _].
    apply Forall_cons in Hg as [Hg _]. unfold path_push. by rewrite good_not_absolute.
Qed.

(** Inside a directory of files. *)
Lemma leaf_extreme sub : Forall (fun '(m, k) => k = NFile /\ chunk_file ext m) sub ->
  extreme (plain_files sub) (rec (NDir sub)).
Proof.
  intros Hs. assert (sub_paths rec sub = []) as Hd.
  { induction Hs as [|[m k] sub [-> _] _ IH]; [done|]. exact IH. }
  destruct (plain_layout sub) as [Hl Hp].
  { eapply Forall_impl; [exact Hs|]. intros [m k] [-> Hc]. done. }
  rewrite rec_dir, Hd. pose proof (best_spec [] (List.Forall_nil _)) as Hb.
  cbn [map] in Hb. destruct (best []) as [p|]; [by destruct Hb as (? & [] & _)|]. clear Hb.
  pose proof (best_spec _ Hl) as Hb. rewrite Hp in Hb.
  destruct (best (dir_files ext sub)) as [p|]; [|done]. destruct Hb as (cs & Hin & -> & Hm).
  exists cs. rewrite List.Forall_forall in Hl. split_and!; auto.
Qed.

Lemma dir_layout name c : Forall is_hex name -> length name = 3%nat -> layout ext c ->
  layout ext (name :: c) /\ exists k, 0 <= k /\
    comps_val ext (name :: c) = hexv name * 16 ^ (3 * k) + comps_val ext c /\
    zlen (components_hex ext c) = 3 * k.
Proof.
  intros Hn H3 (ds & r & -> & Hds3 & Hds & Hr & Hl). split.
  - exists (name :: ds), r. split_and!; try done; by constructor.
  - exists (zlen ds + 1). rewrite app_comm_cons, !layout_val by (try done; by constructor).
    rewrite components_hex_chunks by done. cbn [concat]. rewrite <- app_assoc, hexv_app.
    assert (zlen (concat ds ++ r) = 3 * (zlen ds + 1)) as Hlen.
    { rewrite zlen_app. clear -Hds3 Hl. unfold zlen in *.
      induction Hds3 as [|d ds Hd _ IH]; [simpl; lia|]. cbn [concat length].
      rewrite length_app. lia. }
    rewrite Hlen. split; [pose proof (zlen_nonneg ds); lia|done].
Qed.

(** [css] are candidates of the directories of [es]: all of them files there,
    and every file there is beaten by one of them. *)
Definition covers (es : list (str * node)) (css : list (list str)) : Prop :=
  Forall (layout ext) css /\
  (forall cs, In cs css -> exists name sub c, In (name, NDir sub) es /\
     In c (plain_files sub) /\ cs = name :: c) /\
  (forall name sub c, In (name, NDir sub) es -> In c (plain_files sub) ->
     exists cs, In cs css /\ ord (comps_val ext (name :: c)) (comps_val ext cs)).

Lemma covers_skip name n es css : covers es css ->
  (forall sub, n = NDir sub -> plain_files sub = []) -> covers ((name, n) :: es) css.
Proof.
  intros (Hl & Hin & Hall) Hempty. split; [done|]. split.
  - intros cs Hcs. destruct (Hin cs Hcs) as (a & b & c & ? & ? & ?).
    exists a, b, c. split_and!; try done. by right.
  - intros a b c [[= <- ->]|?] Hc; [|eauto]. by rewrite (Hempty b) in Hc.
Qed.

Lemma plain_digits sub x : Forall (fun '(m, k) => k = NFile /\ chunk_file ext m) sub ->
  In x (plain_files sub) -> zlen (components_hex ext x) = 3.
Proof.
  intros Hsub Hx. unfold plain_files in Hx. apply in_map_iff in Hx as (m & <- & Hm).
  apply dir_files_in in Hm as [Hm He]. rewrite List.Forall_forall in Hsub.
  destruct (Hsub _ Hm) as [_ Hc]. destruct (Hc He) as (r & -> & Hr & Hr3).
  pose proof (components_hex_chunks ext [] r (List.Forall_nil _)) as E. cbn [app] in E.
  rewrite E. unfold zlen. simpl. lia.
Qed.

Lemma covers_dir name sub es css c : covers es css ->
  Forall is_hex name -> length name = 3%nat ->
  Forall (fun '(m, k) => k = NFile /\ chunk_file ext m) sub ->
  In c (plain_files sub) -> layout ext c ->
  (forall ds, In ds (plain_files sub) -> ord (comps_val ext ds) (comps_val ext c)) ->
  covers ((name, NDir sub) :: es) ((name :: c) :: css).
Proof.
  intros (Hl & Hin & Hall) Hhex H3 Hsub Hc Hcl Hm.
  destruct (dir_layout name c Hhex H3 Hcl) as (Hl' & k & Hk & Hv & Hlen).
  split; [by constructor|]. split.
  - intros cs [<-|Hcs].
    + exists name, sub, c. split_and!; try done. by left.
    + destruct (Hin cs Hcs) as (a & b & c' & ? & ? & ?). exists a, b, c'.
      split_and!; try done. by right.
  - intros a b c' [[= <- <-]|Ha] Hc'.
    + exists (name :: c). split; [by left|]. destruct (plain_layout sub) as [Hb _].
      { eapply Forall_impl; [exact Hsub|]. intros [m y] [-> ?]. done. }
      rewrite List.Forall_forall in Hb.
      destruct (dir_layout name c' Hhex H3 (Hb _ Hc')) as (_ & k' & Hk' & Hv' & Hlen').
      rewrite (plain_digits sub) in Hlen, Hlen' by done.
      assert (k' = k) as -> by lia. rewrite Hv, Hv'. by apply ord_add, Hm.
    + destruct (Hall a b c' Ha Hc') as (cs & ? & ?). exists cs. split; [by right|done].
Qed.

Lemma sub_paths_spec es : two_level ext es -> exists css,
  sub_paths rec es = map join_path css /\ covers es css.
Proof.
  induction 1 as [|[name n] es Hn Hes (css & Hp & Hc)]; [by exists []|].
  destruct n as [|sub|]; cbn [sub_paths].
  - exists css. split; [done|]. by apply covers_skip.
  - destruct Hn as (Hhex & H3 & Hsub). pose proof (leaf_extreme sub Hsub) as Hx.
    destruct (rec (NDir sub)) as [p|e|]; cbn [extreme] in Hx; [| |done].
    + destruct Hx as (c & Hin & Hcl & -> & Hm). exists ((name :: c) :: css).
      split; [|by apply covers_dir]. cbn [map]. f_equal; [|done].
      destruct (dir_layout name c Hhex H3 Hcl) as [Hl _].
      apply join_path_push; by apply layout_good.
    + exists css. split; [done|]. apply covers_skip; [done|]. by intros ? [= <-].
  - exists css. destruct (rec_file NBad) as [e ->]; [done|].
    split; [done|]. by apply covers_skip.
Qed.

Lemma listed_in es cs : two_level ext es ->
  In cs (listed ext (NDir es)) <->
  (exists name, In name (dir_files ext es) /\ cs = [name]) \/
  (exists name sub c, In (name, NDir sub) es /\ In c (plain_files sub) /\ cs = name :: c).
Proof.
  intros H2. unfold listed. rewrite filter_In, walk_dir. split.
  - intros ((name & n & Hin & Hx) & Hb). destruct Hx as [[-> ->]|[Hn (c & Hc & ->)]].
    + left. exists name. split; [|done]. apply list_elem_of_In, list_elem_of_omap.
      exists (name, NFile). split; [by apply list_elem_of_In|]. cbn in Hb. by rewrite Hb.
    + right. destruct n as [|sub|]; [done| |done]. exists name, sub, c. split_and!; try done.
      unfold two_level in H2. rewrite List.Forall_forall in H2. destruct (H2 _ Hin) as (_ & _ & Hsub).
      apply walk_dir in Hc as (m & k & Hm & Hk). rewrite List.Forall_forall in Hsub.
      destruct (Hsub _ Hm) as [-> _]. destruct Hk as [[_ ->]|[? _]]; [|done].
      unfold plain_files. apply in_map_iff. exists m. split; [done|].
      apply list_elem_of_In, list_elem_of_omap.
      exists (m, NFile). split; [by apply list_elem_of_In|]. cbn in Hb. by rewrite Hb.
  - intros [(name & Hn & ->)|(name & sub & c & Hin & Hc & ->)].
    + apply dir_files_in in Hn as [Hin He]. split; [|cbn; by apply bool_decide_true].
      exists name, NFile. split; [done|by left].
    + unfold plain_files in Hc. apply in_map_iff in Hc as (m & <- & Hm).
      apply dir_files_in in Hm as [Hm He]. split; [|cbn; by apply bool_decide_true].
      exists name, (NDir sub). split; [done|right]. split; [done|]. exists [m]. split; [|done].
      apply walk_dir. exists m, NFile. split; [done|by left].
Qed.

Lemma layout_incl css ds : Forall (layout ext) css -> In ds css -> layout ext ds.
Proof. rewrite List.Forall_forall. auto. Qed.

(** The walk of a directory of two levels finds the extreme. *)
Lemma walk_extreme es : two_level ext es ->
  extreme (listed ext (NDir es)) (rec (NDir es)).
Proof.
  intros H2. destruct (sub_paths_spec es H2) as (css & Hp & Hl & Hin & Hall).
  destruct (plain_layout es) as [Hfl Hfp].
  { eapply Forall_impl; [exact H2|]. intros [m k] Hk ->. done. }
  rewrite rec_dir, Hp. pose proof (best_spec css Hl) as Hd.
  pose proof (best_spec _ Hfl) as Hf. rewrite Hfp in Hf.
  assert (Hdir : forall ds, In ds (listed ext (NDir es)) ->
    In ds (plain_files es) \/ exists cs, In cs css /\ ord (comps_val ext ds) (comps_val ext cs)).
  { intros ds Hds. apply (listed_in es ds H2) in Hds as [(name & Hn & ->)|(a & b & c & ? & ? & ->)]; [|eauto].
    left. unfold plain_files. apply in_map_iff. by exists name. }
  assert (Hcl : forall cs, In cs css -> In cs (listed ext (NDir es))).
  { intros cs Hcs. apply listed_in; [done|]. right. eauto. }
  assert (Hfile : forall cs, In cs (plain_files es) -> In cs (listed ext (NDir es))).
  { intros cs Hcs. apply listed_in; [done|]. left. unfold plain_files in Hcs.
    apply in_map_iff in Hcs as (name & <- & ?). by exists name. }
  destruct (best (map join_path css)) as [p1|], (best (dir_files ext es)) as [p2|]; cbn [extreme].
  - destruct Hd as (c1 & Hc1 & -> & Hm1), Hf as (c2 & Hc2 & -> & Hm2).
    pose proof (layout_incl _ _ Hl Hc1) as L1. pose proof (layout_incl _ _ Hfl Hc2) as L2.
    destruct (choose_spec c1 c2 L1 L2) as (e & He & -> & Ho1 & Ho2).
    exists e. split_and!; [destruct He as [->| ->]; auto|by destruct He as [->| ->]|done|].
    intros ds Hds. destruct (Hdir ds Hds) as [?|(cs & ? & ?)].
    + etransitivity; [by apply Hm2|done].
    + etransitivity; [done|]. etransitivity; [by apply Hm1|done].
  - destruct Hd as (c1 & Hc1 & -> & Hm1). exists c1.
    split_and!; [auto|exact (layout_incl _ _ Hl Hc1)|done|].
    intros ds Hds. destruct (Hdir ds Hds) as [Hx|(cs & ? & ?)]; [by rewrite Hf in Hx|].
    etransitivity; [done|by apply Hm1].
  - destruct Hf as (c2 & Hc2 & -> & Hm2). exists c2.
    split_and!; [auto|exact (layout_incl _ _ Hfl Hc2)|done|].
    intros ds Hds. destruct (Hdir ds Hds) as [?|(cs & Hx & ?)]; [by apply Hm2|by rewrite Hd in Hx].
  - destruct (listed ext (NDir es)) as [|ds l] eqn:E; [done|].
    destruct (Hdir ds) as [Hx|(cs & Hx & _)]; [by left| |].
    + by rewrite Hf in Hx.
    + by rewrite Hd in Hx.
Qed.
End Extremes.

Section Listing.
Context {B : Build} {U : UBig} {H : HexCrate}.

(** ** Choosing by id *)

Lemma cmp_ids_val ext cs ds : is_ext ext -> layout ext cs -> layout ext ds ->
  cmp_ids ext (join_path cs) (join_path ds) = (comps_val ext cs ?= comps_val ext ds) /\
  uintn_leb (path_id_or_zero ext (join_path cs)) (path_id_or_zero ext (join_path ds)) =
    (comps_val ext cs <=? comps_val ext ds).
Proof.
  intros He Hc Hd.
  destruct (layout_id ext He cs Hc) as (x & _ & Hx & Hvx & Hpx).
  destruct (layout_id ext He ds Hd) as (y & _ & Hy & Hvy & Hpy).
  unfold cmp_ids, path_id_or_zero. rewrite Hpx, Hpy, <- Hvx, <- Hvy.
  rewrite cmp_spec_val, leb_spec_val by (by apply ok_wf, canonical_ok). done.
Qed.

(** The choice of a maximum or a minimum among paths of the layout. *)
Lemma pick_spec ext (f : str -> str -> str) (ord : Z -> Z -> Prop) `{!PreOrder ord} css :
  (forall cs ds, layout ext cs -> layout ext ds ->
     exists es, (es = cs \/ es = ds) /\ f (join_path cs) (join_path ds) = join_path es /\
       ord (comps_val ext cs) (comps_val ext es) /\ ord (comps_val ext ds) (comps_val ext es)) ->
  Forall (layout ext) css ->
  match match map join_path css with [] => None | x :: l => Some (fold_left f l x) end with
  | None => css = []
  | Some p => exists cs, In cs css /\ p = join_path cs /\
      forall ds, In ds css -> ord (comps_val ext ds) (comps_val ext cs)
  end.
Proof.
  intros Hf Hl. destruct css as [|c css]; [done|]. cbn [map].
  apply Forall_cons in Hl as [Hc Hl].
  enough (exists cs, In cs (c :: css) /\
    fold_left f (map join_path css) (join_path c) = join_path cs /\
    forall ds, In ds (c :: css) -> ord (comps_val ext ds) (comps_val ext cs)) as (cs & ? & -> & ?)
    by (by exists cs).
  revert c Hc. induction Hl as [|d css Hd _ IH]; intros c Hc.
  { exists c. split_and!; [by left|done|]. by intros ds [<-|[]]. }
  destruct (Hf c d Hc Hd) as (e & He & Hfe & Ho1 & Ho2). cbn [map fold_left]. rewrite Hfe.
  destruct (IH e) as (cs & Hin & -> & Hm); [by destruct He as [-> | ->]|].
  exists cs. split_and!; [|done|].
  - destruct Hin as [<-|?]; [|by right; right]. destruct He as [-> | ->]; [by left|by right; left].
  - intros ds [<-|[<-|?]]; [| |by apply Hm; right].
    + etransitivity; [exact Ho1|]. apply Hm. by left.
    + etransitivity; [exact Ho2|]. apply Hm. by left.
Qed.

Lemma find_max_extreme ext es : is_ext ext -> two_level ext es ->
  extreme ext Z.le (listed ext (NDir es)) (find_max_id_recursive ext (NDir es)).
Proof.
  intros He H2. assert (PreOrder Z.le) by (split; red; intros; lia).
  apply (walk_extreme ext He (find_max_id_recursive ext) (max_by (cmp_ids ext))
    (fun p1 p2 => if uintn_leb (path_id_or_zero ext p2) (path_id_or_zero ext p1)
                  then p1 else p2)); try done.
  - intros. lia.
  - intros n Hn. destruct n; [by eexists|by destruct (Hn entries)|by eexists].
  - intros css Hl. unfold max_by. apply (pick_spec ext (fun x y =>
      match cmp_ids ext x y with Gt => x | _ => y end)); [done| |done].
    intros cs ds Hc Hd. destruct (cmp_ids_val ext cs ds He Hc Hd) as [-> _].
    destruct (Z.compare_spec (comps_val ext cs) (comps_val ext ds));
      [exists ds|exists ds|exists cs]; split_and!; auto; lia.
  - intros cs ds Hc Hd. destruct (cmp_ids_val ext ds cs He Hd Hc) as [_ ->].
    destruct (Z.leb_spec (comps_val ext ds) (comps_val ext cs));
      [exists cs|exists ds]; split_and!; auto; lia.
Qed.

Lemma find_min_extreme ext es : is_ext ext -> two_level ext es ->
  extreme ext Z.ge (listed ext (NDir es)) (find_min_id_recursive ext (NDir es)).
Proof.
  intros He H2.
  assert (PreOrder Z.ge) by (split; red; intros; lia).
  apply (walk_extreme ext He (find_min_id_recursive ext) (min_by (cmp_ids ext))
    (fun p1 p2 => if uintn_leb (path_id_or_zero ext p1) (path_id_or_zero ext p2)
                  then p1 else p2)); try done.
  - intros. lia.
  - intros n Hn. destruct n; [by eexists|by destruct (Hn entries)|by eexists].
  - intros css Hl. unfold min_by. apply (pick_spec ext (fun x y =>
      match cmp_ids ext x y with Gt => y | _ => x end)); [done| |done].
    intros cs ds Hc Hd. destruct (cmp_ids_val ext cs ds He Hc Hd) as [-> _].
    destruct (Z.compare_spec (comps_val ext cs) (comps_val ext ds));
      [exists cs|exists cs|exists ds]; split_and!; auto; lia.
  - intros cs ds Hc Hd. destruct (cmp_ids_val ext cs ds He Hc Hd) as [_ ->].
    destruct (Z.leb_spec (comps_val ext cs) (comps_val ext ds));
      [exists cs|exists ds]; split_and!; auto; lia.
Qed.

(** ** The sorted list of ids *)

Definition val_le (a b : uintn) : Prop := uintn_val a <= uintn_val b.

Lemma insert_id_perm x l : insert_id x l ≡ₚ x :: l.
Proof.
  induction l as [|y l IH]; [done|]. cbn [insert_id]. case_match; [done|].
  rewrite IH. apply perm_swap.
Qed.

Lemma insert_id_sorted x l : uintn_wf x -> Forall uintn_wf l ->
  StronglySorted val_le l -> StronglySorted val_le (insert_id x l).
Proof.
  intros Hx Hl Hs. induction Hs as [|y l Hs IH Hy]; [by repeat constructor|].
  apply Forall_cons in Hl as [Hwy Hl]. cbn [insert_id]. rewrite ltb_spec_val by done.
  destruct (Z.ltb_spec (uintn_val x) (uintn_val y)) as [Hlt|Hge].
  - constructor; [by constructor|]. constructor; [unfold val_le; lia|].
    eapply Forall_impl; [exact Hy|]. unfold val_le. intros. lia.
  - constructor; [by apply IH|]. rewrite insert_id_perm. constructor; [unfold val_le; lia|done].
Qed.

Lemma sort_ids_spec l : Forall uintn_wf l ->
  sort_ids l ≡ₚ l /\ StronglySorted val_le (sort_ids l).
Proof.
  intros Hl. unfold sort_ids.
  enough (forall acc, Forall uintn_wf acc -> StronglySorted val_le acc ->
    fold_left (fun acc x => insert_id x acc) l acc ≡ₚ acc ++ l /\
    StronglySorted val_le (fold_left (fun acc x => insert_id x acc) l acc)) as Hg
    by (apply (Hg []); constructor).
  induction Hl as [|x l Hx Hl IH]; intros acc Ha Hs; [by rewrite app_nil_r|].
  cbn [fold_left]. destruct (IH (insert_id x acc)) as [Hp ?].
  - rewrite insert_id_perm. by constructor.
  - by apply insert_id_sorted.
  - split; [|done]. rewrite Hp, insert_id_perm. by rewrite <- Permutation_middle.
Qed.

(** The ids of the listed files, before sorting. *)
Definition listed_ids (ext : str) (t : node) : list uintn :=
  omap (fun comps => ok_opt (uintn_from_hex_digits (components_hex ext comps))) (listed ext t).

Lemma get_files_ids_eq ext t : get_files_ids t ext = sort_ids (listed_ids ext t).
Proof.
  unfold get_files_ids, listed_ids, listed. f_equal.
  induction (walk_files t) as [|c l IH]; [done|]. cbn [omap list_omap List.filter].
  destruct (last c) as [name|]; [|exact IH]. case_bool_decide; cbn [omap list_omap]; [|exact IH].
  by rewrite IH.
Qed.

Lemma listed_layout ext es cs : is_ext ext -> two_level ext es ->
  In cs (listed ext (NDir es)) -> layout ext cs.
Proof.
  intros He H2 Hin. apply (listed_in ext es cs H2) in Hin as [(n & Hn & ->)|(n & s & c & Hs & Hc & ->)].
  - apply dir_files_in in Hn as [Hn Hx]. apply chunk_layout; [|done].
    unfold two_level in H2. rewrite List.Forall_forall in H2. exact (H2 _ Hn).
  - unfold two_level in H2. rewrite List.Forall_forall in H2.
    destruct (H2 _ Hs) as (Hh & H3 & Hsub).
    destruct (plain_layout ext He s) as [Hl _].
    { eapply Forall_impl; [exact Hsub|]. intros [m k] [-> ?]. done. }
    rewrite List.Forall_forall in Hl. destruct (dir_layout ext n c Hh H3 (Hl _ Hc)) as [? _]. done.
Qed.

Lemma listed_ids_in ext es x : is_ext ext -> two_level ext es ->
  In x (listed_ids ext (NDir es)) <->
  uintn_canonical x /\ exists cs, In cs (listed ext (NDir es)) /\ comps_val ext cs = uintn_val x.
Proof.
  intros He H2. unfold listed_ids. rewrite <- list_elem_of_In, list_elem_of_omap. split.
  - intros (cs & Hin%list_elem_of_In & Hx).
    destruct (layout_id ext He cs (listed_layout _ _ _ He H2 Hin)) as (y & Hy & Hc & Hv & _).
    rewrite Hy in Hx. injection Hx as <-. split; [done|]. by exists cs.
  - intros (Hc & cs & Hin & Hv). exists cs. split; [by apply list_elem_of_In|].
    destruct (layout_id ext He cs (listed_layout _ _ _ He H2 Hin)) as (y & -> & Hcy & Hvy & _).
    cbn. f_equal. apply canonical_inj; [done..|congruence].
Qed.

Lemma files_ids_spec ext es : is_ext ext -> two_level ext es ->
  get_files_ids (NDir es) ext ≡ₚ listed_ids ext (NDir es) /\
  StronglySorted val_le (get_files_ids (NDir es) ext) /\
  Forall uintn_canonical (get_files_ids (NDir es) ext).
Proof.
  intros He H2. rewrite get_files_ids_eq.
  assert (Forall uintn_canonical (listed_ids ext (NDir es))) as Hc.
  { apply List.Forall_forall. intros x Hx. by apply listed_ids_in in Hx as [? _]. }
  destruct (sort_ids_spec (listed_ids ext (NDir es))) as [Hp Hs].
  { eapply Forall_impl; [exact Hc|]. intros x Hx. by apply ok_wf, canonical_ok. }
  split; [done|]. split; [done|]. by rewrite Hp.
Qed.

(** What the two searches return, from what their walks do. *)
Lemma extreme_id ext es r (ord : Z -> Z -> Prop) : is_ext ext -> two_level ext es ->
  extreme ext ord (listed ext (NDir es)) r ->
  match (p ← r; path_to_id p ext) with
  | Ok m => In m (get_files_ids (NDir es) ext) /\
      forall x, In x (get_files_ids (NDir es) ext) -> ord (uintn_val x) (uintn_val m)
  | Err _ => get_files_ids (NDir es) ext = []
  | Panic => False
  end.
Proof.
  intros He H2 Hr. destruct (files_ids_spec ext es He H2) as (Hp & _ & _).
  destruct r as [p|e|]; cbn [extreme] in Hr; ok_step; [|rewrite get_files_ids_eq; unfold listed_ids; by rewrite Hr|done].
  destruct Hr as (cs & Hin & Hl & -> & Hm).
  destruct (layout_id ext He cs Hl) as (m & _ & Hc & Hv & ->). split.
  - rewrite Hp. apply listed_ids_in; [done..|]. split; [done|]. by exists cs.
  - intros x Hx. rewrite Hp in Hx. apply listed_ids_in in Hx as (_ & ds & Hds & <-); [|done..].
    rewrite Hv. by apply Hm.
Qed.

End Listing.

Section Claims.
Context {B : Build} {U : UBig} {H : HexCrate}.

(** C36: in a directory with the files of ids below [2^24], the listing is in
    ascending order, and [find_max_id] and [find_min_id] return its largest and
    its smallest id, or report that there is no file exactly when there is
    none. *)
Theorem find_ids_correct ext entries : is_ext ext -> two_level ext entries ->
  let ids := get_files_ids (NDir entries) ext in
  StronglySorted val_le ids /\
  match find_max_id (Some (NDir entries)) ext with
  | Ok m => In m ids /\ forall x, In x ids -> uintn_val x <= uintn_val m
  | Err _ => ids = []
  | Panic => False
  end /\
  match find_min_id (Some (NDir entries)) ext with
  | Ok m => In m ids /\ forall x, In x ids -> uintn_val x >= uintn_val m
  | Err _ => ids = []
  | Panic => False
  end.
Proof.
  intros He H2 ids. split; [by apply files_ids_spec|]. split.
  - apply (extreme_id ext entries _ Z.le); [done..|]. by apply find_max_extreme.
  - apply (extreme_id ext entries _ Z.ge); [done..|]. by apply find_min_extreme.
Qed.

End Claims.

(** The directory that holds the files of the given ids. *)
Definition deep_dir : node :=
  NDir [(s2l "001", NDir [(s2l "fff.wal", NFile);
                          (s2l "000", NDir [(s2l "001.wal", NFile)])])].

(** With three levels the search compares ids relative to an inner
    directory: of the files of ids 0x1fff and 0x1000001, [find_max_id] returns
    the smaller one and [find_min_id] the larger one, although the listing has
    them in order. *)
Theorem find_ids_deep :
  uintn_to_file_path (U32 0x1fff) [] (s2l "wal") = s2l "001/fff.wal" /\
  uintn_to_file_path (U32 0x1000001) [] (s2l "wal") = s2l "001/000/001.wal" /\
  get_files_ids deep_dir (s2l "wal") = [U16 0x1fff; U32 0x1000001] /\
  find_max_id (Some deep_dir) (s2l "wal") = Ok (U16 0x1fff) /\
  find_min_id (Some deep_dir) (s2l "wal") = Ok (U32 0x1000001).
Proof. split_and!; vm_eq. Qed.

Definition shallow_dir : list (str * node) :=
  [(s2l "0ff.wal", NFile);
   (s2l "001", NDir [(s2l "fff.wal", NFile); (s2l "002.wal", NFile)])].

Lemma find_ids_correct_witness :
  find_max_id (Some (NDir shallow_dir)) (s2l "wal") = Ok (U16 0x1fff) /\
  forall x, In x (get_files_ids (NDir shallow_dir) (s2l "wal")) -> uintn_val x <= 0x1fff.
Proof.
  split; [reflexivity|].
  pose proof (find_ids_correct (s2l "wal") shallow_dir) as (_ & Hm & _).
  - split; [done|]. repeat constructor; done.
  - assert (forall r, Forall is_hex r -> length r = 3%nat ->
      chunk_file (s2l "wal") (r ++ s2l ".wal")) as Hchunk by (intros r ? ? _; by exists r).
    repeat constructor; try (by eexists);
      apply (Hchunk (s2l "0ff")) || apply (Hchunk (s2l "fff")) || apply (Hchunk (s2l "002"));
      repeat constructor; by eexists.
  - exact (proj2 Hm).
Defined.
