(* ===== verification/FileTree.v ===== *)
(** * Directories of the stored files

    The files of the model are kept by path; this file gives the directory tree
    the searches of [uintn-rs/src/paths.rs] walk, and what they find in the
    directory of a queue: the ids of the files that are there. *)
From Stdlib Require Import ZArith Lia List Bool Sorted Permutation.
From Stdlib Require Import Ascii String.
From stdpp Require Import base option list gmap strings.
From S2P Require Import Prelude UBig UintN UintNFacts Paths PathsFacts PathsSearch.
#[local] Open Scope Z_scope.

(** ** Trees *)

(** Adds to the first directory called [name], or makes one. *)
Fixpoint tree_add_dir (add : list (str * node) -> list (str * node)) (name : str)
    (es : list (str * node)) : list (str * node) :=
  match es with
  | [] => [(name, NDir (add []))]
  | (n, NDir sub) :: es =>
      if decide (n = name) then (n, NDir (add sub)) :: es
      else (n, NDir sub) :: tree_add_dir add name es
  | e :: es => e :: tree_add_dir add name es
  end.

Fixpoint tree_add (cs : list str) (es : list (str * node)) : list (str * node) :=
  match cs with
  | [] => es
  | [name] => (name, NFile) :: es
  | name :: cs => tree_add_dir (tree_add cs) name es
  end.

(** The components of the files below a directory, relative to it. *)
Definition files_below {A} (base : str) (files : gmap str A) : list (list str) :=
  omap (fun p => option_map path_components (strip_prefix_l (base_prefix base) p))
    (map fst (map_to_list files)).

(** The directory [base], which exists (the code creates it first). *)
Definition dir_tree {A} (base : str) (files : gmap str A) : node :=
  NDir (foldr tree_add [] (files_below base files)).

(** ** What a walk of the tree lists *)

Lemma walk_cons name n es : walk_files (NDir ((name, n) :: es)) =
  match n with NFile => [[name]] | _ => map (cons name) (walk_files n) end ++
  walk_files (NDir es).
Proof. by destruct n. Qed.

Lemma walk_add_dir add name c es :
  (forall sub x, In x (walk_files (NDir (add sub))) <-> x = c \/ In x (walk_files (NDir sub))) ->
  forall x, In x (walk_files (NDir (tree_add_dir add name es))) <->
    x = name :: c \/ In x (walk_files (NDir es)).
Proof.
  intros Hadd x. induction es as [|[n k] es IH].
  - cbn [tree_add_dir]. rewrite walk_cons, app_nil_r, in_map_iff. cbn [walk_files In].
    split; [|intros [->|[]]; exists c; split; [done|]; apply Hadd; by left].
    intros (y & <- & Hy). apply Hadd in Hy as [->|[]]. by left.
  - assert (forall k', In x (walk_files (NDir ((n, k') :: tree_add_dir add name es))) <->
      x = name :: c \/ In x (walk_files (NDir ((n, k') :: es)))) as Hskip.
    { intros k'. rewrite !walk_cons, !in_app_iff, IH. tauto. }
    destruct k as [|sub|]; cbn [tree_add_dir]; try apply Hskip.
    case_decide as E; [|apply Hskip]. subst n. rewrite !walk_cons, !in_app_iff, !in_map_iff.
    split.
    + intros [(y & <- & Hy)|?]; [|tauto]. apply Hadd in Hy as [->|Hy]; [by left|right; left].
      by exists y.
    + intros [->|[(y & <- & Hy)|?]]; [left|left|by right].
      * exists c. split; [done|]. apply Hadd. by left.
      * exists y. split; [done|]. apply Hadd. by right.
Qed.

Lemma walk_tree_add cs es x : cs <> [] ->
  In x (walk_files (NDir (tree_add cs es))) <-> x = cs \/ In x (walk_files (NDir es)).
Proof.
  revert es x. induction cs as [|name cs IH]; intros es x Hne; [done|].
  destruct cs as [|c cs].
  - cbn [tree_add]. rewrite walk_cons, in_app_iff. cbn [In]. intuition congruence.
  - change (tree_add (name :: c :: cs) es) with (tree_add_dir (tree_add (c :: cs)) name es).
    apply walk_add_dir. intros sub y. by apply IH.
Qed.

Lemma walk_tree css x : Forall (fun cs => cs <> []) css ->
  In x (walk_files (NDir (foldr tree_add [] css))) <-> In x css.
Proof.
  induction 1 as [|cs css Hcs _ IH]; [done|]. cbn [foldr]. rewrite walk_tree_add by done.
  rewrite IH. cbn [In]. intuition congruence.
Qed.

(** ** Directories of numbered files *)

(** A file of an id below [2^24]. *)
Definition short_layout (ext : str) (cs : list str) : Prop :=
  exists r, Forall is_hex r /\ length r = 3%nat /\
    (cs = [r ++ dot :: ext] \/
     exists d, Forall is_hex d /\ length d = 3%nat /\ cs = [d; r ++ dot :: ext]).

Lemma two_level_add ext cs es : short_layout ext cs -> two_level ext es ->
  two_level ext (tree_add cs es).
Proof.
  intros (r & Hr & Hr3 & Hcs) H2.
  assert (chunk_file ext (r ++ dot :: ext)) as Hc by (intros _; by exists r).
  destruct Hcs as [->|(d & Hd & Hd3 & ->)]; cbn [tree_add]; [by constructor|].
  induction H2 as [|[n k] es Hn Hes IH]; cbn [tree_add_dir].
  - constructor; [|constructor]. split_and!; try done. by repeat constructor.
  - destruct k as [|sub|]; try (by constructor).
    case_decide as E; [|by constructor]. subst n. constructor; [|done].
    destruct Hn as (? & ? & Hsub). split_and!; try done. by constructor.
Qed.

Lemma two_level_tree ext css : Forall (short_layout ext) css ->
  two_level ext (foldr tree_add [] css).
Proof. induction 1; [constructor|]. cbn [foldr]. by apply two_level_add. Qed.

Lemma short_layout_layout ext cs : short_layout ext cs -> layout ext cs.
Proof.
  intros (r & Hr & Hr3 & [->|(d & Hd & Hd3 & ->)]); [exists [], r|exists [d], r];
    split_and!; try done; by repeat constructor.
Qed.

Lemma hex_go_length fuel z acc n : 0 <= z < 16 ^ Z.of_nat (S n) ->
  (length (hex_go fuel z acc) <= S n + length acc)%nat.
Proof.
  revert z acc n. induction fuel as [|fuel IH]; intros z acc n Hz; cbn [hex_go]; [lia|].
  case_decide as Hs; [simpl; lia|]. destruct n as [|n].
  { change (16 ^ Z.of_nat 1) with 16 in Hz. lia. }
  etransitivity; [apply (IH _ _ n)|simpl; lia].
  rewrite (Nat2Z.inj_succ (S n)), Z.pow_succ_r in Hz by lia.
  split; [apply Z.div_pos; lia|]. apply Z.div_lt_upper_bound; lia.
Qed.

Section Numbered.
Context {B : Build} {U : UBig} {H : HexCrate}.

Lemma hex_string_val x : uintn_wf x -> uintn_hex_string x = to_hex (uintn_val x).
Proof.
  intros Hwf. pose proof (shrink_spec x Hwf) as [_ <-]. unfold uintn_hex_string.
  destruct (uintn_shrink_to_fit x); try done. apply ubig_to_hex_spec.
Qed.

(** Ids of the same value have the same path. *)
Lemma file_path_val x y base ext : uintn_wf x -> uintn_wf y -> uintn_val x = uintn_val y ->
  uintn_to_file_path x base ext = uintn_to_file_path y base ext.
Proof.
  intros Hx Hy Hv. unfold uintn_to_file_path. by rewrite !hex_string_val, Hv by done.
Qed.

(** The padded digits of a small id: three or six. *)
Lemma small_digits x : uintn_wf x -> uintn_val x < 2 ^ 24 ->
  exists s, pad_left (((zlen (uintn_hex_string x) + 2) / 3) * 3) (uintn_hex_string x) = s /\
    Forall is_hex s /\ (length s = 3%nat \/ length s = 6%nat) /\ hexv s = uintn_val x.
Proof.
  intros Hx Hv. pose proof (val_nonneg x Hx) as Hpos. rewrite hex_string_val by done.
  destruct (to_hex_spec (uintn_val x) Hpos) as (Hf & Hn & Hne).
  pose proof (hex_go_length (S (Z.to_nat (Z.log2 (uintn_val x)))) (uintn_val x) [] 5) as Hl.
  change (16 ^ Z.of_nat 6) with (2 ^ 24) in Hl. specialize (Hl ltac:(lia)).
  fold (to_hex (uintn_val x)) in Hl. simpl in Hl.
  assert (1 <= length (to_hex (uintn_val x)))%nat by (destruct (to_hex (uintn_val x)); [done|simpl; lia]).
  eexists. split; [reflexivity|]. unfold pad_left.
  split_and!.
  - apply Forall_app. split; [apply Forall_replicate; by eexists|done].
  - rewrite length_app, length_replicate. unfold zlen.
    assert (length (to_hex (uintn_val x)) <= 3 \/ 4 <= length (to_hex (uintn_val x)))%nat
      as [Hs|Hs] by lia.
    + assert ((Z.of_nat (length (to_hex (uintn_val x))) + 2) / 3 = 1) as ->; [|lia].
      symmetry. apply (Z.div_unique _ _ _ (Z.of_nat (length (to_hex (uintn_val x))) - 1)); lia.
    + assert ((Z.of_nat (length (to_hex (uintn_val x))) + 2) / 3 = 2) as ->; [|lia].
      symmetry. apply (Z.div_unique _ _ _ (Z.of_nat (length (to_hex (uintn_val x))) - 4)); lia.
  - by rewrite hexv_zeros.
Qed.

(** Where the file of a small id is. *)
Lemma file_path_small x base ext : uintn_wf x -> uintn_val x < 2 ^ 24 -> is_ext ext ->
  exists cs, short_layout ext cs /\ comps_val ext cs = uintn_val x /\
    uintn_to_file_path x base ext = base_prefix base ++ join_path cs.
Proof.
  intros Hx Hv He. destruct (small_digits x Hx Hv) as (s & Hp & Hs & Hl & Hval).
  assert (exists cs, short_layout ext cs /\ comps_val ext cs = uintn_val x /\
    uintn_to_file_path x base ext = fold_left path_push cs base) as (cs & Hcs & Hc & ->).
  { unfold uintn_to_file_path. cbn zeta. rewrite Hp. destruct He as [He _].
    rewrite bool_decide_false by done. unfold zlen.
    destruct Hl as [Hl|Hl]; rewrite Hl; cbn [push_chunks]; unfold zlen; rewrite Hl.
    - exists [s ++ dot :: ext]. split; [exists s; auto|].
      pose proof (layout_val ext [] s (List.Forall_nil _)) as E. cbn [app concat] in E.
      by rewrite E.
    - rewrite decide_True by lia. unfold zlen. rewrite length_drop, Hl.
      cbn [Nat.sub]. rewrite decide_False by lia.
      assert (Forall is_hex (take 3 s) /\ Forall is_hex (drop 3 s)) as [Ht Hd]
        by (apply Forall_app; by rewrite take_drop).
      exists [take 3 s; drop 3 s ++ dot :: ext]. split_and!.
      + exists (drop 3 s). rewrite length_drop, Hl. split_and!; try done. right.
        exists (take 3 s). by rewrite length_take, Hl.
      + pose proof (layout_val ext [take 3 s] (drop 3 s)) as E. cbn [app concat] in E.
        rewrite E, app_nil_r, take_drop by (by constructor). done.
      + done. }
  exists cs. split; [done|]. split; [done|].
  destruct (layout_good ext He cs (short_layout_layout _ _ Hcs)) as [Hg Hne].
  destruct cs as [|c cs]; [done|]. by apply push_on_base.
Qed.

(** The files below [base] are files of ids below [2^24]. *)
Definition numbered {A} (base ext : str) (files : gmap str A) : Prop :=
  forall p r, is_Some (files !! p) -> strip_prefix_l (base_prefix base) p = Some r ->
  exists x, uintn_canonical x /\ uintn_val x < 2 ^ 24 /\ p = uintn_to_file_path x base ext.

Lemma files_below_in {A} (base : str) (files : gmap str A) cs :
  In cs (files_below base files) <-> exists p r, is_Some (files !! p) /\
    strip_prefix_l (base_prefix base) p = Some r /\ cs = path_components r.
Proof.
  unfold files_below. rewrite <- list_elem_of_In, list_elem_of_omap. split.
  - intros (p & Hp & Hc). apply list_elem_of_In, in_map_iff in Hp as ([p' a] & <- & Hp).
    apply list_elem_of_In, elem_of_map_to_list in Hp. cbn [fst] in *.
    destruct (strip_prefix_l _ _) as [r|] eqn:E; [|done]. injection Hc as <-.
    exists p', r. by rewrite Hp.
  - intros (p & r & [a Hp] & Hr & ->). exists p. rewrite Hr. split; [|done].
    apply list_elem_of_In, in_map_iff. exists (p, a). split; [done|].
    by apply list_elem_of_In, elem_of_map_to_list.
Qed.

Context {A : Type} (base ext : str) (files : gmap str A).
Hypothesis Hext : is_ext ext.
Hypothesis Hnum : numbered base ext files.

(** The components of the files, by id. *)
Lemma below_ids cs : In cs (files_below base files) <-> short_layout ext cs /\
  exists x, uintn_canonical x /\ uintn_val x < 2 ^ 24 /\ comps_val ext cs = uintn_val x /\
    uintn_to_file_path x base ext = base_prefix base ++ join_path cs /\
    is_Some (files !! uintn_to_file_path x base ext).
Proof.
  rewrite files_below_in. split.
  - intros (p & r & Hp & Hr & ->). destruct (Hnum p r Hp Hr) as (x & Hx & Hv & ->).
    destruct (file_path_small x base ext) as (cs & Hs & Hc & Hpath);
      [by apply ok_wf, canonical_ok|done..|].
    destruct (layout_good ext Hext cs (short_layout_layout _ _ Hs)) as [Hg Hne].
    rewrite Hpath, strip_prefix_l_app in Hr. injection Hr as <-. rewrite components_join by done.
    split; [done|]. exists x. done.
  - intros (Hs & x & Hx & Hv & Hc & Hpath & Hp). rewrite Hpath in Hp.
    destruct (layout_good ext Hext cs (short_layout_layout _ _ Hs)) as [Hg Hne].
    exists (base_prefix base ++ join_path cs), (join_path cs). split; [done|].
    rewrite strip_prefix_l_app, components_join by done. done.
Qed.

Lemma below_short : Forall (short_layout ext) (files_below base files).
Proof. apply List.Forall_forall. intros cs Hcs. by apply below_ids in Hcs as [? _]. Qed.

Lemma dir_two_level : two_level ext (foldr tree_add [] (files_below base files)).
Proof. apply two_level_tree, below_short. Qed.

Lemma short_name cs : short_layout ext cs -> exists name, last cs = Some name /\
  name_extension name = Some ext.
Proof.
  intros (r & Hr & Hr3 & Hcs). exists (r ++ dot :: ext). split.
  { by destruct Hcs as [->|(d & _ & _ & ->)]. }
  unfold name_extension. destruct Hext as [Hne He]. rewrite bool_decide_false.
  2:{ intros E. apply (f_equal length) in E. rewrite length_app in E. simpl in E. lia. }
  rewrite rev_app_distr. cbn [rev]. rewrite <- app_assoc. cbn [app].
  assert (take_until_dot (rev ext ++ dot :: rev r) = Some (rev ext, rev r)) as ->.
  { assert (Forall (fun c => c <> dot) (rev ext)) as Hd.
    { apply Forall_rev. eapply Forall_impl; [exact He|]. tauto. }
    induction Hd as [|c l Hc _ IH]; cbn [app take_until_dot].
    - by rewrite decide_True.
    - by rewrite decide_False, IH. }
  rewrite rev_involutive. destruct (rev r) eqn:E; [|done].
  apply (f_equal length) in E. rewrite length_rev, Hr3 in E. done.
Qed.

Lemma dir_listed cs : In cs (listed ext (dir_tree base files)) <-> In cs (files_below base files).
Proof.
  unfold listed, dir_tree. rewrite filter_In, walk_tree.
  - split; [tauto|]. intros Hin. split; [done|].
    destruct (short_name cs) as (n & -> & Hn); [by apply below_ids in Hin as [? _]|].
    by apply bool_decide_true.
  - eapply Forall_impl; [apply below_short|]. intros x Hx.
    by apply (layout_good ext Hext), short_layout_layout.
Qed.

(** [get_files_ids] lists the ids whose file is there. *)
Lemma dir_ids x : uintn_canonical x -> uintn_val x < 2 ^ 24 ->
  In x (get_files_ids (dir_tree base files) ext) <->
  is_Some (files !! uintn_to_file_path x base ext).
Proof.
  intros Hx Hv. destruct (files_ids_spec ext _ Hext dir_two_level) as (Hp & _ & _).
  unfold dir_tree. rewrite Hp, listed_ids_in by (apply dir_two_level || done). fold (dir_tree base files).
  split.
  - intros (_ & cs & Hin & Hc). apply dir_listed, below_ids in Hin as (_ & y & Hy & _ & Hcy & _ & Hf).
    assert (x = y) as -> by (apply canonical_inj; [done..|congruence]). done.
  - intros Hf. split; [done|].
    destruct (file_path_small x base ext) as (cs & Hs & Hc & Hpath);
      [by apply ok_wf, canonical_ok|done..|].
    exists cs. split; [|done]. apply dir_listed, below_ids. split; [done|]. by exists x.
Qed.

Lemma dir_ids_small x : In x (get_files_ids (dir_tree base files) ext) ->
  uintn_canonical x /\ uintn_val x < 2 ^ 24.
Proof.
  destruct (files_ids_spec ext _ Hext dir_two_level) as (Hp & _ & _).
  unfold dir_tree. rewrite Hp, listed_ids_in by (apply dir_two_level || done).
  fold (dir_tree base files).
  intros (Hx & cs & Hin & Hc). split; [done|].
  apply dir_listed, below_ids in Hin as (_ & y & _ & Hy & Hcy & _). lia.
Qed.

(** A search answers with an extreme id, or that there is no file. *)
Definition search_answer (ord : Z -> Z -> Prop) (r : outcome path_error uintn) : Prop :=
  (exists m, r = Ok m /\ uintn_canonical m /\ uintn_val m < 2 ^ 24 /\
     is_Some (files !! uintn_to_file_path m base ext) /\
     forall x, uintn_canonical x -> uintn_val x < 2 ^ 24 ->
       is_Some (files !! uintn_to_file_path x base ext) -> ord (uintn_val x) (uintn_val m)) \/
  (r = Err PNoFilesFound /\ forall x, uintn_canonical x -> uintn_val x < 2 ^ 24 ->
     files !! uintn_to_file_path x base ext = None).

Lemma search_spec (ord : Z -> Z -> Prop) r :
  extreme ext ord (listed ext (dir_tree base files)) r ->
  (forall e, r = Err e -> e = PNoFilesFound) ->
  search_answer ord (p ← r; path_to_id p ext).
Proof.
  intros Hx He. pose proof (extreme_id ext _ r ord Hext dir_two_level Hx) as Hr.
  fold (dir_tree base files) in Hr. destruct r as [p|e|]; [|right|done].
  - cbn [extreme] in Hx. destruct Hx as (cs & Hin & Hl & -> & Hm).
    destruct (layout_id ext Hext cs Hl) as (m & _ & _ & _ & Hpath). ok_step.
    rewrite Hpath in *. destruct Hr as [Hin' Hmax]. left. exists m.
    destruct (dir_ids_small m Hin') as [Hmc Hmv]. split_and!; try done.
    + by apply dir_ids.
    + intros x Hxc Hxv Hf. apply Hmax. by apply dir_ids.
  - ok_step. rewrite (He e) by done. split; [done|]. intros x Hxc Hxv.
    destruct (files !! _) eqn:E; [|done].
    assert (In x (get_files_ids (dir_tree base files) ext)) as Hin by (apply dir_ids; [done..|by rewrite E]).
    by rewrite Hr in Hin.
Qed.

Lemma find_max_dir : search_answer Z.le (find_max_id (Some (dir_tree base files)) ext).
Proof.
  apply search_spec.
  - apply find_max_extreme; [done|]. apply dir_two_level.
  - intros e. unfold dir_tree. cbn [find_max_id_recursive].
    destruct (max_by _ _), (max_by _ _); congruence.
Qed.

Lemma find_min_dir : search_answer Z.ge (find_min_id (Some (dir_tree base files)) ext).
Proof.
  apply search_spec.
  - apply find_min_extreme; [done|]. apply dir_two_level.
  - intros e. unfold dir_tree. cbn [find_min_id_recursive].
    destruct (min_by _ _), (min_by _ _); congruence.
Qed.

End Numbered.

(** ** Sibling directories *)

Lemma strip_common p a b : strip_prefix_l (p ++ a) (p ++ b) = strip_prefix_l a b.
Proof. induction p as [|x p IH]; [done|]. cbn [app strip_prefix_l]. by rewrite decide_True. Qed.

Lemma push_prefix d e : good_comp e -> base_prefix (path_push d e) = base_prefix d ++ e ++ [slash].
Proof.
  intros He. change (path_push d e) with (fold_left path_push [e] d).
  rewrite push_on_base by (by constructor). unfold join_path. cbn [fold_left].
  unfold path_push at 1. rewrite good_not_absolute, bool_decide_true by done. cbn [orb app].
  unfold base_prefix at 1. destruct He as (Hnil & Hs & _).
  destruct (last (base_prefix d ++ e)) as [c|] eqn:E.
  - rewrite !bool_decide_false, app_assoc; [done| |].
    + intros [= ->]. rewrite last_app in E. destruct (last e) as [c|] eqn:Ee; [|by apply last_None in Ee].
      injection E as ->. apply last_Some in Ee as [l ->]. rewrite Forall_app in Hs.
      destruct Hs as [_ Hs]. apply Forall_cons in Hs as [Hs _]. done.
    + intros Ea. by apply app_eq_nil in Ea as [_ ?].
  - apply last_None, app_eq_nil in E as [_ ?]. done.
Qed.

(** The files of a store directory and of the WAL directory beside it. *)
Lemma dirs_apart d r :
  strip_prefix_l (base_prefix (path_push d (s2l "store")))
    (base_prefix (path_push d (s2l "wal")) ++ r) = None.
Proof.
  rewrite !push_prefix by (split_and!; [done|repeat constructor; done|done]).
  by rewrite <- app_assoc, strip_common.
Qed.
