(* ===== verification/Types.v ===== *)
(** * Shared types ([normfs-types/src/lib.rs])

    Queue identifiers and the paths derived from them, the codes of the
    compression and encryption methods, read positions and read entries. *)
From Stdlib Require Import ZArith Lia List Bool.
From Stdlib Require Import Ascii String.
From stdpp Require Import base option list.
From S2P Require Import Prelude UBig UintN UintNFacts Paths PathsFacts.
#[local] Open Scope Z_scope.

(** [pub struct QueueId]: always an absolute path. *)
Record queue_id := { qid_path : str }.

#[export] Instance queue_id_eq_dec : EqDecision queue_id.
Proof. solve_decision. Defined.

(** [str::trim_start_matches('/')] *)
Fixpoint trim_slashes (p : str) : str :=
  match p with
  | c :: r => if decide (c = slash) then trim_slashes r else p
  | [] => []
  end.

Record queue_id_resolver := { instance_id : str }.

Definition queue_id_resolve (self : queue_id_resolver) (path : str) : queue_id :=
  {| qid_path :=
       if path_absolute path then path
       else slash :: instance_id self ++ slash :: path |}.

(** [enum DataSource] *)
Inductive data_source := DSNone | DSCloud | DSDiskStore | DSDiskWal | DSMemory.

#[export] Instance data_source_eq_dec : EqDecision data_source.
Proof. solve_decision. Defined.

(** [enum CompressionType] and [enum EncryptionType] *)
Inductive compression_type := CompNone | CompGzip | CompXz | CompZstd.
Inductive encryption_type := EncNone | EncAes.

#[export] Instance compression_type_eq_dec : EqDecision compression_type.
Proof. solve_decision. Defined.
#[export] Instance encryption_type_eq_dec : EqDecision encryption_type.
Proof. solve_decision. Defined.

Definition compression_try_from (value : Z) : option compression_type :=
  if decide (value = 0) then Some CompNone
  else if decide (value = 1) then Some CompGzip
  else if decide (value = 2) then Some CompXz
  else if decide (value = 3) then Some CompZstd
  else None.

Definition compression_code (v : compression_type) : Z :=
  match v with CompNone => 0 | CompGzip => 1 | CompXz => 2 | CompZstd => 3 end.

Definition encryption_try_from (value : Z) : option encryption_type :=
  if decide (value = 0) then Some EncNone
  else if decide (value = 1) then Some EncAes
  else None.

Definition encryption_code (v : encryption_type) : Z :=
  match v with EncNone => 0 | EncAes => 1 end.

Section Types.
Context {B : Build} {U : UBig}.

Definition queue_to_cloud_queue_path (self : queue_id) (base_prefix : str) : str :=
  base_prefix ++ trim_slashes (qid_path self) ++ [slash].

Definition queue_to_fs_path (self : queue_id) (prefix : str) : str :=
  path_push prefix (trim_slashes (qid_path self)).

Definition queue_to_store_dir (self : queue_id) (base : str) : str :=
  path_push (queue_to_fs_path self base) (s2l "store").

Definition queue_to_store_path (self : queue_id) (base : str) (file_id : uintn) : str :=
  uintn_to_file_path file_id (queue_to_store_dir self base) (s2l "store").

Definition queue_to_wal_dir (self : queue_id) (base : str) : str :=
  path_push (queue_to_fs_path self base) (s2l "wal").

Definition queue_to_wal_path (self : queue_id) (base : str) (file_id : uintn) : str :=
  uintn_to_file_path file_id (queue_to_wal_dir self base) (s2l "wal").

Definition queue_to_cloud_key (self : queue_id) (base_prefix : str) (file_id : uintn) : str :=
  let queue_path := trim_slashes (qid_path self) in
  let file_path := trim_slashes (uintn_to_file_path file_id [] (s2l "store")) in
  if bool_decide (base_prefix = []) then queue_path ++ slash :: file_path
  else base_prefix ++ queue_path ++ slash :: file_path.

(** [enum ReadPosition] *)
Inductive read_position :=
| Absolute (offset : uintn)
| ShiftFromTail (offset : uintn).

Definition position_offset (p : read_position) : uintn :=
  match p with Absolute offset => offset | ShiftFromTail offset => offset end.

(** [struct ReadEntry] *)
Record read_entry := {
  re_id : uintn;
  re_data : bytes;
  re_source : data_source;
}.

End Types.

(** ** Properties *)

Lemma trim_no_slash p : path_absolute (trim_slashes p) = false.
Proof.
  induction p as [|c p IH]; [done|]. cbn [trim_slashes]. case_decide; [done|].
  simpl. by apply bool_decide_false.
Qed.

Lemma path_push_relative p q : path_absolute q = false -> p <> [] ->
  last p <> Some slash -> path_push p q = p ++ slash :: q.
Proof. intros Hq Hp Hl. unfold path_push. by rewrite Hq, !bool_decide_false. Qed.

Lemma compression_roundtrip v : compression_try_from (compression_code v) = Some v.
Proof. by destruct v. Qed.
Lemma encryption_roundtrip v : encryption_try_from (encryption_code v) = Some v.
Proof. by destruct v. Qed.
Lemma compression_code_range v : in_u 64 (compression_code v).
Proof. by destruct v. Qed.
Lemma encryption_code_range v : in_u 64 (encryption_code v).
Proof. by destruct v. Qed.
