(* ===== verification/WalFormat.v ===== *)
(** * The write-ahead-log format ([normfs-wal/src/wal_header.rs], [wal_entry.rs])

    A WAL file is a header (three 64-bit words and a length-prefixed integer)
    followed by entries: an entry header whose id and size fields have the
    widths the file header announces, then the record.  The file models the
    writers and the two readers of each header (from a slice, from a stream)
    and proves that they read back what was written. *)
From Stdlib Require Import ZArith Lia List Bool.
From Stdlib Require Import String.
From stdpp Require Import base option list.
From S2P Require Import Prelude UBig UintN UintNFacts.
#[local] Open Scope Z_scope.

(** ** Streams and allocation *)

(** [AsyncReadExt::read_exact] on the bytes a reader still delivers: the bytes
    and the rest, or nothing when the stream ends (or fails) before. *)
Definition read_exact (n : Z) (reader : bytes) : option (bytes * bytes) :=
  if decide (n <= zlen reader)
  then Some (take (Z.to_nat n) reader, drop (Z.to_nat n) reader)
  else None.

Definition isize_max : Z := 2 ^ 63 - 1.

(** [vec![0; n]]: a capacity above [isize::MAX] panics. *)
Definition alloc {E} (n : Z) : outcome E unit :=
  if decide (n <= isize_max) then Ok tt else Panic.

(** ** The hash crate: [xxhash_rust::xxh64], a 64-bit hash of the data. *)
Class Hasher := {
  xxh64 : bytes -> Z;
  xxh64_range l : in_u 64 (xxh64 l);
}.

(** An additive checksum, to run the model. *)
#[export] Program Instance Hasher_sum : Hasher :=
  { xxh64 l := (le_val l + 7 * zlen l + 1) mod 2 ^ 64 }.
Next Obligation. intros. apply Z.mod_pos_bound. done. Qed.

(** ** Errors *)

Inductive wal_header_error :=
| WhSliceTooShort
| WhInvalidDataSizeBytes (n : Z)
| WhInvalidIdSizeBytes (n : Z)
| WhUintN (e : uerror)
| WhUnsupportedVersion (n : Z).

Inductive wal_entry_error :=
| WeSliceTooShort
| WeUintN (e : uerror)
| WeUnsupportedVersion (n : Z).

Definition wal_header_fixed_size : Z := 24.
Definition wal_entry_header_fixed_overhead : Z := 16.

Section Format.
Context {B : Build} {U : UBig} {X : Hasher}.

(** ** [WalHeader] *)

Record wal_header := {
  data_size_bytes : Z;
  id_size_bytes : Z;
  num_entries_before : uintn;
}.

Definition wal_header_default : wal_header :=
  {| data_size_bytes := 8; id_size_bytes := 4; num_entries_before := uintn_zero |}.

Definition wal_header_resize (self : wal_header) (entry_id : uintn) (data_size : Z)
    : wal_header :=
  let required_id_size := uintn_size_in_bytes entry_id in
  let required_data_size := uintn_size_in_bytes (uintn_from_u64 data_size) in
  {| data_size_bytes := Z.max (data_size_bytes self) required_data_size;
     id_size_bytes := Z.max (id_size_bytes self) required_id_size;
     num_entries_before := num_entries_before self |}.

Definition wal_header_can_hold_entry (self : wal_header) (entry_id : uintn) (data_size : Z)
    : bool :=
  uintn_can_fit entry_id (id_size_bytes self) &&
  uintn_can_fit (uintn_from_u64 data_size) (data_size_bytes self).

Definition wal_header_new (data_size_bytes id_size_bytes : Z) (num_entries_before : uintn)
    : outcome wal_header_error wal_header :=
  if negb (uintn_is_valid_data_size data_size_bytes)
  then Err (WhInvalidDataSizeBytes data_size_bytes)
  else if negb (uintn_is_valid_data_size id_size_bytes)
  then Err (WhInvalidIdSizeBytes id_size_bytes)
  else Ok (Build_wal_header data_size_bytes id_size_bytes num_entries_before).

Definition wal_header_from_bytes (data : bytes)
    : outcome wal_header_error (wal_header * Z) :=
  if decide (zlen data < wal_header_fixed_size) then Err WhSliceTooShort
  else
    v ← slice data 0 8;
    let version := le_val v in
    if decide (version <> 0) then Err (WhUnsupportedVersion version)
    else
      d ← slice data 8 16;
      i ← slice data 16 24;
      rest ← slice_from data wal_header_fixed_size;
      '(num_entries_before, bytes_read) ← map_err WhUintN (uintn_read_from_slice rest);
      total ← arith 64 (wal_header_fixed_size + bytes_read);
      Ok (Build_wal_header (le_val d) (le_val i) num_entries_before, total).

(** The reader is the stream of bytes still to come; the result carries the
    rest of it. *)
Definition wal_header_from_reader (reader : bytes)
    : outcome wal_header_error (wal_header * Z * bytes) :=
  match read_exact wal_header_fixed_size reader with
  | None => Err WhSliceTooShort
  | Some (fixed_header_buf, reader) =>
      v ← slice fixed_header_buf 0 8;
      let version := le_val v in
      d ← slice fixed_header_buf 8 16;
      i ← slice fixed_header_buf 16 24;
      if decide (version <> 0) then Err (WhUnsupportedVersion version)
      else match read_exact 8 reader with
      | None => Err WhSliceTooShort
      | Some (len_buf, reader) =>
          let len := le_val len_buf in
          if decide (len > 10 * 1024 * 1024) then Err WhSliceTooShort
          else match (if decide (len > 0) then read_exact len reader else Some ([], reader)) with
          | None => Err WhSliceTooShort
          | Some (value_buf, reader) =>
              num_entries_before ←
                map_err WhUintN (uintn_read_value_from_slice value_buf len);
              Ok (Build_wal_header (le_val d) (le_val i) num_entries_before,
                  wal_header_fixed_size + 8 + len, reader)
          end
      end
  end.

Definition wal_header_size (self : wal_header) : Z :=
  wal_header_fixed_size + 8 + uintn_size_in_bytes (num_entries_before self).

Definition wal_header_write_to_bytes (self : wal_header) (dest : bytes) : bytes * Z :=
  let dest := dest ++ le_bytes 8 0 in
  let dest := dest ++ le_bytes 8 (data_size_bytes self) in
  let dest := dest ++ le_bytes 8 (id_size_bytes self) in
  let '(dest, _) := uintn_write_to_buffer (num_entries_before self) dest in
  (dest, wal_header_size self).

(** ** [WalEntryHeader] *)

Record wal_entry_header := {
  entry_id : uintn;
  record_size : uintn;
  xxhash : Z;
}.

Definition wal_entry_header_new (entry_id : uintn) (record_data : bytes) : wal_entry_header :=
  {| entry_id := entry_id;
     record_size := uintn_from_u64 (zlen record_data);
     xxhash := xxh64 record_data |}.

(** [WAL_ENTRY_HEADER_FIXED_OVERHEAD + id_size + data_size] on [usize]. *)
Definition wal_entry_header_size {E} (wh : wal_header) : outcome E Z :=
  a ← arith 64 (wal_entry_header_fixed_overhead + id_size_bytes wh);
  arith 64 (a + data_size_bytes wh).

Definition wal_entry_header_write_to_bytes (self : wal_entry_header) (dest : bytes)
    (wh : wal_header) : outcome uerror bytes :=
  let dest := dest ++ le_bytes 8 0 in
  '(dest, _) ← uintn_write_value_to_buffer_with_size (entry_id self) dest (id_size_bytes wh);
  '(dest, _) ← uintn_write_value_to_buffer_with_size (record_size self) dest
                 (data_size_bytes wh);
  Ok (dest ++ le_bytes 8 (xxhash self)).

Definition wal_entry_header_from_bytes (data : bytes) (wh : wal_header)
    : outcome wal_entry_error wal_entry_header :=
  let id_size := id_size_bytes wh in
  let data_size := data_size_bytes wh in
  expected_size ← wal_entry_header_size wh;
  if decide (zlen data < expected_size) then Err WeSliceTooShort
  else
    v ← slice data 0 8;
    let version := le_val v in
    if decide (version <> 0) then Err (WeUnsupportedVersion version)
    else
      e1 ← arith 64 (8 + id_size);
      entry_id_slice ← slice data 8 e1;
      entry_id ← map_err WeUintN (uintn_read_value_from_slice entry_id_slice id_size);
      e2 ← arith 64 (e1 + data_size);
      record_size_slice ← slice data e1 e2;
      record_size ← map_err WeUintN (uintn_read_value_from_slice record_size_slice data_size);
      xxhash_slice ← slice data e2 expected_size;
      (* [try_into::<[u8; 8]>().unwrap()] *)
      if decide (zlen xxhash_slice = 8)
      then Ok (Build_wal_entry_header entry_id record_size (le_val xxhash_slice))
      else Panic.

Definition wal_entry_header_from_reader (reader : bytes) (wh : wal_header)
    : outcome wal_entry_error (wal_entry_header * bytes) :=
  expected_size ← wal_entry_header_size wh;
  _ ← alloc expected_size;
  match read_exact expected_size reader with
  | None => Err WeSliceTooShort
  | Some (buf, reader) =>
      h ← wal_entry_header_from_bytes buf wh;
      Ok (h, reader)
  end.

(** ** Theory *)

(** The bytes of a header. *)
Definition encode_wal_header (h : wal_header) : bytes := fst (wal_header_write_to_bytes h []).

(** What the fields of a stored header are: [new]'s conditions, and a counter
    a reader accepts. *)
Definition wal_header_ok (h : wal_header) : Prop :=
  uintn_is_valid_data_size (data_size_bytes h) = true /\
  uintn_is_valid_data_size (id_size_bytes h) = true /\
  uintn_canonical (num_entries_before h) /\
  uintn_size_in_bytes (num_entries_before h) <= 10 * 1024 * 1024.

Lemma valid_size_cases n : uintn_is_valid_data_size n = true ->
  n = 1 \/ n = 2 \/ n = 4 \/ n = 8 \/ n = 16.
Proof. unfold uintn_is_valid_data_size. rewrite !orb_true_iff, !Z.eqb_eq. tauto. Qed.

Lemma valid_size_range n : uintn_is_valid_data_size n = true -> 1 <= n <= 16.
Proof. intros H%valid_size_cases. lia. Qed.

Lemma encode_header_eq h dest : fst (wal_header_write_to_bytes h dest) =
  dest ++ (le_bytes 8 0 ++ le_bytes 8 (data_size_bytes h) ++ le_bytes 8 (id_size_bytes h)) ++
    fst (uintn_write_to_buffer (num_entries_before h) []).
Proof.
  unfold wal_header_write_to_bytes. rewrite !write_to_buffer_spec. cbn [fst app].
  by rewrite <- !app_assoc.
Qed.

Lemma encode_header_app h dest :
  fst (wal_header_write_to_bytes h dest) = dest ++ encode_wal_header h.
Proof. unfold encode_wal_header. by rewrite !encode_header_eq. Qed.

Lemma zlen_encode_header h : zlen (encode_wal_header h) = wal_header_size h.
Proof.
  unfold encode_wal_header. rewrite encode_header_eq, write_to_buffer_spec.
  cbn [fst app]. rewrite !zlen_app, !zlen_le_bytes, <- size_in_bytes_spec.
  unfold wal_header_size, wal_header_fixed_size. lia.
Qed.

Lemma wal_header_size_pos h : 32 <= wal_header_size h.
Proof.
  unfold wal_header_size, wal_header_fixed_size.
  pose proof (size_in_bytes_nonneg (num_entries_before h)). lia.
Qed.

Lemma header_from_bytes_encode h rest : wal_header_ok h ->
  wal_header_from_bytes (encode_wal_header h ++ rest) = Ok (h, wal_header_size h).
Proof.
  intros (Hd%valid_size_range & Hi%valid_size_range & Hc & Hsz).
  pose proof (size_in_bytes_nonneg (num_entries_before h)) as Hn.
  pose proof (read_from_slice_spec (num_entries_before h) rest Hc) as Hrd.
  unfold encode_wal_header. rewrite encode_header_eq.
  set (w := fst (uintn_write_to_buffer (num_entries_before h) [])) in *.
  unfold wal_header_from_bytes. cbn [app]. rewrite <- !app_assoc.
  rewrite decide_False by (unfold wal_header_fixed_size; rewrite !zlen_app, !zlen_le_bytes;
    pose proof (zlen_nonneg w); pose proof (zlen_nonneg rest); lia).
  rewrite slice_head by (by rewrite zlen_le_bytes). ok_step. cbn zeta.
  rewrite decide_False by (rewrite le_val_u64; [tauto|done]).
  rewrite (slice_mid _ _ _ 8 16) by (by rewrite !zlen_le_bytes). ok_step.
  rewrite app_assoc.
  rewrite slice_mid by (by rewrite ?zlen_app, !zlen_le_bytes). ok_step.
  rewrite app_assoc, slice_from_tail by (by rewrite !zlen_app, !zlen_le_bytes). ok_step.
  rewrite Hrd by lia. ok_step. unfold wal_header_fixed_size.
  rewrite arith_ok by (unfold in_u; lia). ok_step.
  rewrite !le_val_u64 by (unfold in_u; lia). unfold wal_header_size, wal_header_fixed_size.
  destruct h. simpl. do 2 f_equal. lia.
Qed.

Lemma read_exact_app n p rest : n = zlen p -> read_exact n (p ++ rest) = Some (p, rest).
Proof.
  intros ->. unfold read_exact. rewrite decide_True by
    (rewrite zlen_app; pose proof (zlen_nonneg rest); lia).
  unfold zlen. by rewrite Nat2Z.id, take_app_length, drop_app_length.
Qed.

Lemma read_exact_0 n r : n <= 0 -> read_exact n r = Some ([], r).
Proof.
  intros. unfold read_exact. rewrite decide_True by (pose proof (zlen_nonneg r); lia).
  by replace (Z.to_nat n) with 0%nat by lia.
Qed.

Lemma header_from_reader_encode h rest : wal_header_ok h ->
  wal_header_from_reader (encode_wal_header h ++ rest) = Ok (h, wal_header_size h, rest).
Proof.
  intros (Hd%valid_size_range & Hi%valid_size_range & Hc & Hsz).
  pose proof (size_in_bytes_nonneg (num_entries_before h)) as Hn.
  unfold encode_wal_header. rewrite encode_header_eq, write_to_buffer_spec.
  cbn [fst app]. rewrite <- !app_assoc. unfold wal_header_from_reader.
  rewrite (app_assoc (le_bytes 8 (data_size_bytes h))), (app_assoc (le_bytes 8 0)).
  rewrite read_exact_app by (by rewrite !zlen_app, !zlen_le_bytes).
  rewrite slice_head by (by rewrite zlen_le_bytes). ok_step. cbn zeta.
  rewrite (slice_mid _ _ _ 8 16) by (by rewrite !zlen_le_bytes). ok_step.
  rewrite <- (app_nil_r (le_bytes 8 (id_size_bytes h))), (app_assoc (le_bytes 8 0)).
  rewrite slice_mid by (by rewrite ?zlen_app, !zlen_le_bytes). ok_step.
  rewrite decide_False by (rewrite le_val_u64; [tauto|done]).
  rewrite read_exact_app by (by rewrite zlen_le_bytes).
  rewrite le_val_u64 by (unfold in_u; lia). rewrite decide_False by lia.
  assert ((if decide (uintn_size_in_bytes (num_entries_before h) > 0)
    then read_exact (uintn_size_in_bytes (num_entries_before h))
      (uintn_value_to_bytes (num_entries_before h) ++ rest)
    else Some ([], uintn_value_to_bytes (num_entries_before h) ++ rest)) =
    Some (uintn_value_to_bytes (num_entries_before h), rest)) as ->.
  { case_decide; [apply read_exact_app, size_in_bytes_spec|].
    rewrite size_in_bytes_spec in *. by rewrite (zlen_0 (uintn_value_to_bytes _)) by lia. }
  rewrite read_write_value by done. ok_step. rewrite !le_val_u64 by (unfold in_u; lia).
  destruct h. done.
Qed.

(** *** Entries *)

(** The bytes of an entry: its header and its record. *)
Definition encode_entry (wh : wal_header) (id : uintn) (data : bytes) : bytes :=
  le_bytes 8 0 ++ uintn_padded id (id_size_bytes wh) ++
  uintn_padded (uintn_from_u64 (zlen data)) (data_size_bytes wh) ++
  le_bytes 8 (xxh64 data) ++ data.

Definition entry_fits (wh : wal_header) (e : uintn * bytes) : Prop :=
  uintn_canonical (fst e) /\ zlen (snd e) <= isize_max /\
  wal_header_can_hold_entry wh (fst e) (zlen (snd e)) = true.

Lemma entry_fits_sizes wh e : entry_fits wh e ->
  uintn_size_in_bytes (fst e) <= id_size_bytes wh /\
  uintn_size_in_bytes (uintn_from_u64 (zlen (snd e))) <= data_size_bytes wh.
Proof.
  intros (_ & _ & H). unfold wal_header_can_hold_entry, uintn_can_fit in H.
  rewrite andb_true_iff, !Z.leb_le in H. done.
Qed.

Lemma entry_len_u64 wh e : entry_fits wh e -> in_u 64 (zlen (snd e)).
Proof.
  intros (_ & H & _). pose proof (zlen_nonneg (snd e)). unfold in_u, isize_max in *. lia.
Qed.

(** Writing an entry header then the record appends the entry's bytes. *)
Lemma write_entry_eq wh id data dest : entry_fits wh (id, data) ->
  wal_entry_header_write_to_bytes (wal_entry_header_new id data) dest wh =
    Ok (dest ++ le_bytes 8 0 ++ uintn_padded id (id_size_bytes wh) ++
        uintn_padded (uintn_from_u64 (zlen data)) (data_size_bytes wh) ++
        le_bytes 8 (xxh64 data)).
Proof.
  intros Hf. pose proof (entry_fits_sizes _ _ Hf) as [Hi Hd]. simpl in Hi, Hd.
  unfold wal_entry_header_write_to_bytes, wal_entry_header_new. cbn [entry_id record_size xxhash].
  rewrite write_with_size_ok by done. ok_step.
  rewrite write_with_size_ok by done. ok_step. by rewrite <- !app_assoc.
Qed.

Definition entry_overhead (wh : wal_header) : Z :=
  16 + id_size_bytes wh + data_size_bytes wh.

Lemma entry_size_ok {E} wh : wal_header_ok wh ->
  wal_entry_header_size (E := E) wh = Ok (entry_overhead wh) /\
  18 <= entry_overhead wh <= 48.
Proof.
  intros (Hd%valid_size_range & Hi%valid_size_range & _).
  unfold wal_entry_header_size, entry_overhead, wal_entry_header_fixed_overhead.
  rewrite arith_ok by (unfold in_u; lia). ok_step.
  rewrite arith_ok by (unfold in_u; lia). split; [done|lia].
Qed.

Lemma zlen_encode_entry wh id data : entry_fits wh (id, data) ->
  zlen (encode_entry wh id data) = entry_overhead wh + zlen data.
Proof.
  intros Hf. pose proof (entry_fits_sizes _ _ Hf) as [Hi Hd]. simpl in Hi, Hd.
  unfold encode_entry, entry_overhead. rewrite !zlen_app, !zlen_le_bytes, !zlen_padded by done.
  lia.
Qed.

Lemma u64_canonical z : in_u 64 z -> uintn_canonical (uintn_from_u64 z) /\
  uintn_val (uintn_from_u64 z) = z.
Proof. apply from_u64_spec. Qed.

Lemma entry_from_bytes_encode wh id data rest : wal_header_ok wh -> entry_fits wh (id, data) ->
  wal_entry_header_from_bytes (encode_entry wh id data ++ rest) wh =
    Ok (wal_entry_header_new id data).
Proof.
  intros Hok Hf. pose proof (entry_fits_sizes _ _ Hf) as [Hi Hd]. simpl in Hi, Hd.
  pose proof (entry_len_u64 _ _ Hf) as Hu. simpl in Hu.
  destruct (u64_canonical _ Hu) as [Hcs Hvs].
  destruct (entry_size_ok (E := wal_entry_error) wh Hok) as [Hsz Hb].
  destruct Hok as (Hvd & Hvi & _). pose proof (valid_size_range _ Hvd).
  pose proof (valid_size_range _ Hvi).
  destruct (read_padded id (id_size_bytes wh)) as (y & Hy & _ & _ & Hyx); [apply Hf|done|].
  rewrite (Hyx Hvi) in Hy. clear Hyx y.
  destruct (read_padded _ (data_size_bytes wh) Hcs Hd) as (y & Hs & _ & _ & Hyx).
  rewrite (Hyx Hvd) in Hs. clear Hyx y.
  unfold wal_entry_header_from_bytes. cbn zeta. rewrite Hsz. ok_step.
  rewrite decide_False by (rewrite zlen_app, zlen_encode_entry by done;
    pose proof (zlen_nonneg data); pose proof (zlen_nonneg rest); lia).
  unfold encode_entry. rewrite <- !app_assoc.
  rewrite slice_head by (by rewrite zlen_le_bytes). ok_step. cbn zeta.
  rewrite decide_False by (rewrite le_val_u64; [tauto|done]).
  rewrite arith_ok by (unfold in_u; lia). ok_step.
  rewrite slice_mid by (by rewrite ?zlen_le_bytes, ?zlen_padded). ok_step.
  rewrite Hy. ok_step. rewrite arith_ok by (unfold in_u; lia). ok_step.
  rewrite (app_assoc (le_bytes 8 0)).
  rewrite (slice_mid _ _ _ (8 + id_size_bytes wh))
    by (by rewrite !zlen_app, !zlen_le_bytes, !zlen_padded). ok_step.
  rewrite Hs. ok_step.
  rewrite (app_assoc (le_bytes 8 0 ++ _)).
  rewrite slice_mid by (rewrite !zlen_app, ?zlen_le_bytes, !zlen_padded by done;
    unfold entry_overhead; lia). ok_step.
  rewrite decide_True by (by rewrite zlen_le_bytes).
  by rewrite le_val_u64 by apply xxh64_range.
Qed.

(** Only the first [expected_size] bytes matter, so the stream reader is the
    slice reader. *)
Lemma slice_take {E A} (l : list A) n a b : b <= n -> n <= zlen l -> 0 <= a ->
  slice (E := E) (take (Z.to_nat n) l) a b = slice l a b.
Proof.
  intros Hb Hn Ha. unfold slice. assert (zlen (take (Z.to_nat n) l) = Z.max 0 n) as ->
    by (unfold zlen in *; rewrite length_take; lia).
  destruct (decide (a <= b /\ b <= zlen l)) as [Hc|Hc].
  - rewrite decide_True by lia. f_equal. rewrite skipn_firstn_comm, take_take.
    f_equal. lia.
  - rewrite decide_False; [done|]. lia.
Qed.

Lemma entry_from_bytes_take data wh : wal_header_ok wh -> entry_overhead wh <= zlen data ->
  wal_entry_header_from_bytes (take (Z.to_nat (entry_overhead wh)) data) wh =
  wal_entry_header_from_bytes data wh.
Proof.
  intros Hok Hl. destruct (entry_size_ok (E := wal_entry_error) wh Hok) as [Hsz Hb].
  destruct Hok as (Hd%valid_size_range & Hi%valid_size_range & _).
  unfold wal_entry_header_from_bytes. cbn zeta. rewrite Hsz. ok_step.
  unfold entry_overhead in *. rewrite !decide_False by
    (try lia; unfold zlen in *; rewrite length_take; lia).
  rewrite arith_ok by (unfold in_u; lia). ok_step.
  rewrite arith_ok by (unfold in_u; lia). ok_step.
  by rewrite !slice_take by lia.
Qed.

Lemma entry_from_reader_eq data wh : wal_header_ok wh ->
  wal_entry_header_from_reader data wh =
    (h ← wal_entry_header_from_bytes data wh;
     Ok (h, drop (Z.to_nat (entry_overhead wh)) data)).
Proof.
  intros Hok. destruct (entry_size_ok (E := wal_entry_error) wh Hok) as [Hsz Hb].
  unfold wal_entry_header_from_reader. rewrite Hsz. ok_step.
  unfold alloc, isize_max. rewrite decide_True by lia. ok_step.
  unfold read_exact. case_decide as Hl.
  - by rewrite entry_from_bytes_take.
  - unfold wal_entry_header_from_bytes. cbn zeta. rewrite Hsz. ok_step.
    rewrite decide_True by lia. done.
Qed.

Lemma entry_from_bytes_short data wh : wal_header_ok wh -> zlen data < entry_overhead wh ->
  wal_entry_header_from_bytes data wh = Err WeSliceTooShort.
Proof.
  intros Hok Hl. destruct (entry_size_ok (E := wal_entry_error) wh Hok) as [Hsz Hb].
  unfold wal_entry_header_from_bytes. cbn zeta. rewrite Hsz. ok_step.
  by rewrite decide_True.
Qed.

End Format.

Section Claims.
Context {B : Build} {U : UBig} {X : Hasher}.

(** A WAL file header reads back, from a slice and from a stream, whatever
    follows it; both readers report the number of bytes written, and the stream
    is left at the first byte after the header. *)
Theorem wal_header_roundtrip h rest : wal_header_ok h ->
  wal_header_from_bytes (fst (wal_header_write_to_bytes h []) ++ rest) =
    Ok (h, snd (wal_header_write_to_bytes h [])) /\
  wal_header_from_reader (fst (wal_header_write_to_bytes h []) ++ rest) =
    Ok (h, snd (wal_header_write_to_bytes h []), rest) /\
  snd (wal_header_write_to_bytes h []) = zlen (fst (wal_header_write_to_bytes h [])).
Proof.
  intros Hh. fold (encode_wal_header h).
  assert (snd (wal_header_write_to_bytes h []) = wal_header_size h) as ->.
  { unfold wal_header_write_to_bytes. by destruct (uintn_write_to_buffer _ _). }
  rewrite zlen_encode_header. split; [by apply header_from_bytes_encode|].
  split; [by apply header_from_reader_encode|done].
Qed.

(** C30: an entry that fits the file's field widths is written without error,
    and its header reads back from a slice and from a stream: the id, the
    length of the record and its hash; the stream is left at the record. *)
Theorem wal_entry_roundtrip wh id data rest : wal_header_ok wh -> entry_fits wh (id, data) ->
  exists hdr, wal_entry_header_write_to_bytes (wal_entry_header_new id data) [] wh = Ok hdr /\
    wal_entry_header_size (E := wal_entry_error) wh = Ok (zlen hdr) /\
    wal_entry_header_from_bytes (hdr ++ data ++ rest) wh = Ok (wal_entry_header_new id data) /\
    wal_entry_header_from_reader (hdr ++ data ++ rest) wh =
      Ok (wal_entry_header_new id data, data ++ rest).
Proof.
  intros Hh Hf. rewrite write_entry_eq by done. cbn [app]. set (hdr := le_bytes 8 0 ++ _).
  exists hdr. split; [done|].
  assert (hdr ++ data = encode_entry wh id data) as He
    by (unfold hdr, encode_entry; by rewrite <- !app_assoc).
  assert (zlen hdr = entry_overhead wh) as Hz.
  { pose proof (zlen_encode_entry wh id data Hf) as Hz. rewrite <- He, zlen_app in Hz. lia. }
  destruct (entry_size_ok (E := wal_entry_error) wh Hh) as [-> Hov].
  rewrite entry_from_reader_eq, app_assoc, He, entry_from_bytes_encode by done.
  split; [by rewrite Hz|]. split; [done|]. ok_step. do 2 f_equal.
  rewrite <- He, <- app_assoc, <- Hz. unfold zlen. by rewrite Nat2Z.id, drop_app_length.
Qed.

End Claims.

Lemma wal_header_roundtrip_witness :
  let B := checked_build in
  wal_header_from_bytes (fst (wal_header_write_to_bytes wal_header_default []) ++ [Byte.x01]) =
    Ok (wal_header_default, 33).
Proof.
  intros B. destruct (wal_header_roundtrip (B := B) wal_header_default [Byte.x01]) as [H _].
  - split_and!; done.
  - exact H.
Defined.

Lemma wal_entry_roundtrip_witness :
  let B := checked_build in
  exists hdr, wal_entry_header_from_bytes (hdr ++ [Byte.x61; Byte.x62] ++ []) wal_header_default =
    Ok (wal_entry_header_new (U8 5) [Byte.x61; Byte.x62]).
Proof.
  intros B.
  destruct (wal_entry_roundtrip (B := B) wal_header_default (U8 5) [Byte.x61; Byte.x62] [])
    as (hdr & _ & _ & H & _).
  - split_and!; done.
  - split_and!; done.
  - exists hdr. exact H.
Defined.
