(* ===== verification/WalReader.v ===== *)
(** * Reading write-ahead-log files ([normfs-wal/src/reader.rs])

    The disk is what opening a path gives; the receiver of the entries is a
    channel that may be dropped at any point of the loop. *)
From Stdlib Require Import ZArith Lia List Bool.
From Stdlib Require Import String Ascii.
From stdpp Require Import base option list.
From S2P Require Import Prelude UBig UintN UintNFacts Paths Types WalFormat.
#[local] Open Scope Z_scope.

(** ** The disk *)

(** An open file: what [metadata().len()] answers ([None]: an I/O error), the
    bytes the reads deliver, and whether they end in an error instead of the
    end of the file. *)
Record file_view := {
  fv_len : option Z;
  fv_bytes : bytes;
  fv_read_err : bool;
}.

Inductive opened :=
| Opened (f : file_view)
| OpenNotFound
| OpenErr.

Definition disk := str -> opened.

(** A file read without errors. *)
Definition file_of (content : bytes) : opened :=
  Opened {| fv_len := Some (zlen content); fv_bytes := content; fv_read_err := false |}.

Section Reader.
Context {B : Build} {U : UBig} {X : Hasher}.

(** ** [enum WalError] *)
Inductive wal_error :=
| WIoError
| WWalHeaderError (e : wal_header_error)
| WWalEntryError (e : wal_entry_error)
| WPathError (e : path_error)
| WSendError
| WWalNotFound
| WWriterNotFound
| WWalEmpty (id : uintn).

(** ** The output channel: [tokio::sync::mpsc::Sender<ReadEntry>] *)

(** [ch_life] counts the observations ([is_closed], [send]) after which the
    receiver is gone; [None]: it never goes. *)
Record channel := {
  ch_sent : list read_entry;
  ch_life : option nat;
}.

Definition ch_tick (ch : channel) : channel :=
  {| ch_sent := ch_sent ch; ch_life := option_map pred (ch_life ch) |}.

Definition ch_is_closed (ch : channel) : bool * channel :=
  (bool_decide (ch_life ch = Some 0%nat), ch_tick ch).

Definition ch_send (e : read_entry) (ch : channel) : option channel :=
  if decide (ch_life ch = Some 0%nat) then None
  else Some {| ch_sent := ch_sent ch ++ [e]; ch_life := option_map pred (ch_life ch) |}.

(** ** Header and range of a file *)

Definition wal_file_path (base_path : str) (file_id : uintn) : str :=
  uintn_to_file_path file_id base_path (s2l "wal").

(** Opening and the emptiness test, common to the readers that stream. *)
Definition open_wal (d : disk) (base_path : str) (file_id : uintn)
    : outcome wal_error (bytes * bool) :=
  match d (wal_file_path base_path file_id) with
  | OpenNotFound => Err WWalNotFound
  | OpenErr => Err WIoError
  | Opened f =>
      match fv_len f with
      | None => Err WIoError
      | Some len => Ok (fv_bytes f, bool_decide (len = 0))
      end
  end.

(** [match WalHeader::from_reader]: a short header means an empty file. *)
Definition header_or_empty (file_id : uintn) (reader : bytes)
    : outcome wal_error (wal_header * Z * bytes) :=
  match wal_header_from_reader reader with
  | Ok v => Ok v
  | Err WhSliceTooShort => Err (WWalEmpty file_id)
  | Err e => Err (WWalHeaderError e)
  | Panic => Panic
  end.

Definition read_wal_header (d : disk) (base_path : str) (file_id : uintn)
    : outcome wal_error wal_header :=
  '(reader, empty) ← open_wal d base_path file_id;
  if (empty : bool) then Err (WWalEmpty file_id)
  else
    '(h, _, _) ← header_or_empty file_id (take 128 reader);
    Ok h.

(** The scanning loop of [get_wal_range]; [fuel] bounds the entries. *)
Fixpoint wal_range_loop (fuel : nat) (wh : wal_header) (reader : bytes)
    (first_id last_id : option uintn) : outcome wal_error (option uintn * option uintn) :=
  match fuel with
  | O => Ok (first_id, last_id)
  | S fuel =>
      match wal_entry_header_from_reader reader wh with
      | Panic => Panic
      | Err _ => Ok (first_id, last_id)
      | Ok (eh, reader) =>
          let first_id :=
            match first_id with None => Some (entry_id eh) | Some f => Some f end in
          match uintn_to_u64 (record_size eh) with
          | Panic => Panic
          | Err _ => Ok (first_id, last_id)
          | Ok size =>
              _ ← alloc size;
              match (if decide (size > 0) then read_exact size reader else Some ([], reader)) with
              | None => Ok (first_id, last_id)
              | Some (record_buffer, reader) =>
                  if decide (xxh64 record_buffer <> xxhash eh) then Ok (first_id, last_id)
                  else wal_range_loop fuel wh reader first_id (Some (entry_id eh))
              end
          end
      end
  end.

Definition get_wal_range (d : disk) (base_path : str) (file_id : uintn)
    : outcome wal_error (wal_header * option (uintn * uintn)) :=
  '(reader, empty) ← open_wal d base_path file_id;
  if (empty : bool) then Err (WWalEmpty file_id)
  else
    '(wh, _, reader) ← header_or_empty file_id reader;
    '(first_id, last_id) ← wal_range_loop (S (length reader)) wh reader None None;
    Ok (wh, match first_id, last_id with
            | Some first, Some last => Some (first, last)
            | _, _ => None
            end).

Definition get_wal_header (content : bytes) : outcome wal_header_error wal_header :=
  '(header, _) ← wal_header_from_bytes content;
  Ok header.

(** ** The content of a file *)

Record wal_content := {
  wc_entries_before : uintn;
  wc_num_entries : uintn;
  wc_content : bytes;
}.

(** Returns the number of valid entries.  ([cursor] is within the content, so
    the count stays far below [2^64].) *)
Fixpoint wal_content_loop (fuel : nat) (content : bytes) (wh : wal_header)
    (cursor num_entries : Z) : outcome wal_error Z :=
  match fuel with
  | O => Ok num_entries
  | S fuel =>
      remaining ← slice_from content cursor;
      if bool_decide (remaining = []) then Ok num_entries
      else match wal_entry_header_from_bytes remaining wh with
      | Panic => Panic
      | Err _ => Ok num_entries
      | Ok eh =>
          entry_header_size ← wal_entry_header_size wh;
          cursor ← arith 64 (cursor + entry_header_size);
          match uintn_to_u64 (record_size eh) with
          | Panic => Panic
          | Err _ => Ok num_entries
          | Ok size =>
              e ← arith 64 (cursor + size);
              if decide (zlen content < e) then Ok num_entries
              else
                record_buffer ← slice content cursor e;
                if decide (xxh64 record_buffer <> xxhash eh) then Ok num_entries
                else wal_content_loop fuel content wh e (num_entries + 1)
          end
      end
  end.

Definition get_wal_content (d : disk) (base_path : str) (file_id : uintn)
    : outcome wal_error wal_content :=
  content ←
    match d (wal_file_path base_path file_id) with
    | OpenNotFound => Err WWalNotFound
    | OpenErr => Err WIoError
    | Opened f => if fv_read_err f then Err WIoError else Ok (fv_bytes f)
    end;
  if bool_decide (content = []) then Err (WWalEntryError WeSliceTooShort)
  else
    '(wh, header_size) ← map_err WWalHeaderError (wal_header_from_bytes content);
    num_entries ← wal_content_loop (S (length content)) content wh header_size 0;
    Ok {| wc_entries_before := num_entries_before wh;
          wc_num_entries := uintn_from_u64 num_entries;
          wc_content := content |}.

(** ** Reading a range of entries *)

Inductive read_range_result :=
| Complete
| PartialRead (last_read_id : option uintn) (last_id_in_file : uintn)
| ChannelClosed.

(** The variables of the loops. *)
Record range_state := {
  rs_last_read : option uintn;
  rs_last_processed : option uintn;
  rs_found_complete : bool;
  rs_chan : channel;
}.

(** How an iteration ends: [return ChannelClosed], [break], or the next one. *)
Inductive range_step :=
| RsClosed (ch : channel)
| RsBreak (st : range_state)
| RsContinue (st : range_state).

Definition past_until (until_id : option uintn) (id : uintn) : bool :=
  match until_id with Some until => uintn_ltb until id | None => false end.

Definition reached_until (until_id : option uintn) (id : uintn) : bool :=
  match until_id with Some until => uintn_leb until id | None => false end.

Definition in_range (from_id : uintn) (until_id : option uintn) (id : uintn) : bool :=
  uintn_leb from_id id &&
  match until_id with Some until => uintn_leb id until | None => true end.

Definition with_processed (id : uintn) (complete : bool) (st : range_state) : range_state :=
  {| rs_last_read := rs_last_read st; rs_last_processed := Some id;
     rs_found_complete := complete; rs_chan := rs_chan st |}.

(** From [let in_range] to the end of the iteration. *)
Definition emit_entry (from_id : uintn) (until_id : option uintn) (step : Z)
    (source : data_source) (id : uintn) (record : bytes) (st : range_state)
    : outcome wal_error range_step :=
  if in_range from_id until_id id then
    match uintn_in_step id from_id step with
    | Panic => Panic
    | Err _ => Panic
    | Ok false => Ok (RsContinue st)
    | Ok true =>
        match ch_send {| re_id := id; re_data := record; re_source := source |} (rs_chan st) with
        | None => Ok (RsClosed (rs_chan st))
        | Some ch =>
            let st' := {| rs_last_read := Some id;
                          rs_last_processed := rs_last_processed st;
                          rs_found_complete :=
                            if reached_until until_id id then true else rs_found_complete st;
                          rs_chan := ch |} in
            Ok (if reached_until until_id id then RsBreak st' else RsContinue st')
        end
    end
  else Ok (RsContinue st).

(** From [let result = if found_complete] on. *)
Definition finish_range (from_id : uintn) (until_id : option uintn) (st : range_state)
    : read_range_result :=
  let reached :=
    match rs_last_processed st, until_id with
    | Some lp, Some until => uintn_leb until lp
    | _, _ => false
    end in
  if rs_found_complete st || reached then Complete
  else PartialRead (rs_last_read st) (default from_id (rs_last_processed st)).

Definition start_range (ch : channel) : range_state :=
  {| rs_last_read := None; rs_last_processed := None; rs_found_complete := false;
     rs_chan := ch |}.

Fixpoint file_range_loop (fuel : nat) (wh : wal_header) (from_id : uintn)
    (until_id : option uintn) (step : Z) (source : data_source)
    (reader : bytes) (st : range_state) : outcome wal_error range_step :=
  match fuel with
  | O => Ok (RsBreak st)
  | S fuel =>
      let '(closed, ch) := ch_is_closed (rs_chan st) in
      let st := {| rs_last_read := rs_last_read st;
                   rs_last_processed := rs_last_processed st;
                   rs_found_complete := rs_found_complete st; rs_chan := ch |} in
      if (closed : bool) then Ok (RsClosed ch)
      else match wal_entry_header_from_reader reader wh with
      | Panic => Panic
      | Err _ => Ok (RsBreak st)
      | Ok (eh, reader) =>
          let id := entry_id eh in
          let st := with_processed id (rs_found_complete st) st in
          if past_until until_id id then Ok (RsBreak (with_processed id true st))
          else match uintn_to_u64 (record_size eh) with
          | Panic => Panic
          | Err _ => Ok (RsBreak st)
          | Ok size =>
              _ ← alloc size;
              match (if decide (size > 0) then read_exact size reader else Some ([], reader)) with
              | None => Ok (RsBreak st)
              | Some (record_buffer, reader) =>
                  if decide (xxh64 record_buffer <> xxhash eh) then Ok (RsBreak st)
                  else
                    s ← emit_entry from_id until_id step source id record_buffer st;
                    match s with
                    | RsContinue st =>
                        file_range_loop fuel wh from_id until_id step source reader st
                    | s => Ok s
                    end
              end
          end
      end
  end.

Definition range_result (from_id : uintn) (until_id : option uintn) (s : range_step)
    : read_range_result * channel :=
  match s with
  | RsClosed ch => (ChannelClosed, ch)
  | RsBreak st | RsContinue st => (finish_range from_id until_id st, rs_chan st)
  end.

Definition read_wal_file_range (d : disk) (base_path : str) (file_id from_id : uintn)
    (until_id : option uintn) (step : Z) (target : channel) (source : data_source)
    : outcome wal_error (read_range_result * channel) :=
  '(reader, empty) ← open_wal d base_path file_id;
  if (empty : bool) then Ok (PartialRead None from_id, target)
  else
    '(wh, _, reader) ← map_err WWalHeaderError (wal_header_from_reader reader);
    s ← file_range_loop (S (length reader)) wh from_id until_id (Z.max step 1) source
          reader (start_range target);
    Ok (range_result from_id until_id s).

Fixpoint bytes_range_loop (fuel : nat) (content : bytes) (wh : wal_header) (from_id : uintn)
    (until_id : option uintn) (step : Z) (source : data_source)
    (cursor : Z) (st : range_state) : outcome wal_error range_step :=
  match fuel with
  | O => Ok (RsBreak st)
  | S fuel =>
      let '(closed, ch) := ch_is_closed (rs_chan st) in
      let st := {| rs_last_read := rs_last_read st;
                   rs_last_processed := rs_last_processed st;
                   rs_found_complete := rs_found_complete st; rs_chan := ch |} in
      if (closed : bool) then Ok (RsClosed ch)
      else
      remaining_bytes ← slice_from content cursor;
      if bool_decide (remaining_bytes = []) then Ok (RsBreak st)
      else match wal_entry_header_from_bytes remaining_bytes wh with
      | Panic => Panic
      | Err _ => Ok (RsBreak st)
      | Ok eh =>
          let id := entry_id eh in
          let st := with_processed id (rs_found_complete st) st in
          if past_until until_id id then Ok (RsBreak (with_processed id true st))
          else
          entry_header_size ← wal_entry_header_size wh;
          cursor ← arith 64 (cursor + entry_header_size);
          match uintn_to_u64 (record_size eh) with
          | Panic => Panic
          | Err _ => Ok (RsBreak st)
          | Ok size =>
              e ← arith 64 (cursor + size);
              if decide (zlen content < e) then Ok (RsBreak st)
              else
                record_buffer ← slice content cursor e;
                if decide (xxh64 record_buffer <> xxhash eh) then Ok (RsBreak st)
                else
                  s ← emit_entry from_id until_id step source id record_buffer st;
                  match s with
                  | RsContinue st =>
                      bytes_range_loop fuel content wh from_id until_id step source e st
                  | s => Ok s
                  end
          end
      end
  end.

Definition read_wal_bytes_range (content : bytes) (from_id : uintn) (until_id : option uintn)
    (step : Z) (target : channel) (source : data_source)
    : outcome wal_error (read_range_result * channel) :=
  if bool_decide (content = []) then Ok (PartialRead None from_id, target)
  else match wal_header_from_bytes content with
  | Panic => Panic
  | Err WhSliceTooShort => Ok (PartialRead None from_id, target)
  | Err e => Err (WWalHeaderError e)
  | Ok (wh, header_size) =>
      s ← bytes_range_loop (S (length content)) content wh from_id until_id (Z.max step 1)
            source header_size (start_range target);
      Ok (range_result from_id until_id s)
  end.

End Reader.
