(* ===== verification/WalReaderFacts.v ===== *)
(** * Theory of the WAL readers

    A WAL file is a header, whole entries and a torn tail (what a crash or a
    concurrent writer leaves).  Both range readers fold the same loop body over
    the whole entries; on a receiver that stays, they deliver exactly the
    selected entries, in order. *)
From Stdlib Require Import ZArith Lia List Bool Sorted.
From Stdlib Require Import String Ascii.
From stdpp Require Import base option list.
From S2P Require Import Prelude UBig UintN UintNFacts Paths PathsFacts Types WalFormat WalReader.
#[local] Open Scope Z_scope.

Section Facts.
Context {B : Build} {U : UBig} {X : Hasher}.

Definition encode_entries (wh : wal_header) (es : list (uintn * bytes)) : bytes :=
  concat (map (fun e => encode_entry wh (fst e) (snd e)) es).

Lemma encode_entries_app h es fs :
  encode_entries h (es ++ fs) = encode_entries h es ++ encode_entries h fs.
Proof. unfold encode_entries. by rewrite map_app, concat_app. Qed.

Lemma encode_entries_cons h id data es :
  encode_entries h ((id, data) :: es) = encode_entry h id data ++ encode_entries h es.
Proof. done. Qed.

Lemma encode_entries_snoc h es id data :
  encode_entries h (es ++ [(id, data)]) = encode_entries h es ++ encode_entry h id data.
Proof. rewrite encode_entries_app. unfold encode_entries. simpl. by rewrite app_nil_r. Qed.

(** A tail no entry can be read from; [oid] is the id of the entry whose record
    is cropped or corrupt, when its header is whole. *)
Inductive torn (wh : wal_header) (tail : bytes) : option uintn -> Prop :=
| torn_header e :
    wal_entry_header_from_bytes tail wh = Err e -> torn wh tail None
| torn_record eh size :
    wal_entry_header_from_bytes tail wh = Ok eh ->
    uintn_to_u64 (record_size eh) = Ok size -> 0 <= size <= isize_max ->
    zlen tail < entry_overhead wh + size \/
    xxh64 (take (Z.to_nat size) (drop (Z.to_nat (entry_overhead wh)) tail)) <> xxhash eh ->
    torn wh tail (Some (entry_id eh)).

Lemma torn_nil wh : wal_header_ok wh -> torn wh [] None.
Proof.
  intros Hok. econstructor. apply entry_from_bytes_short; [done|].
  rewrite zlen_nil. destruct (entry_size_ok (E := unit) wh Hok). lia.
Qed.

Lemma new_size_u64 wh id data : entry_fits wh (id, data) ->
  uintn_to_u64 (record_size (wal_entry_header_new id data)) = Ok (zlen data).
Proof.
  intros Hf. pose proof (entry_len_u64 _ _ Hf) as Hu. simpl in *.
  destruct (u64_canonical _ Hu) as [Hc Hv]. unfold in_u in Hu.
  rewrite to_u64_spec by apply Hc. rewrite Hv, decide_True by lia. done.
Qed.

(** A proper prefix of an entry is torn. *)
Lemma torn_prefix wh id data k : wal_header_ok wh -> entry_fits wh (id, data) ->
  0 <= k < zlen (encode_entry wh id data) ->
  torn wh (take (Z.to_nat k) (encode_entry wh id data))
    (if decide (k < entry_overhead wh) then None else Some id).
Proof.
  intros Hok Hf Hk. pose proof (zlen_encode_entry wh id data Hf) as Hl.
  assert (zlen (take (Z.to_nat k) (encode_entry wh id data)) = k) as Hlk
    by (unfold zlen in *; rewrite length_take; lia).
  destruct (entry_size_ok (E := unit) wh Hok) as [_ Hb].
  case_decide as Hd.
  - econstructor. apply entry_from_bytes_short; [done|]. lia.
  - destruct Hf as (Hc & Hm & Hh).
    apply (torn_record _ _ (wal_entry_header_new id data) (zlen data)).
    + rewrite <- entry_from_bytes_take by (try done; lia). rewrite take_take.
      rewrite Nat.min_l by lia. rewrite entry_from_bytes_take by (try done; lia).
      rewrite <- (app_nil_r (encode_entry _ _ _)). by apply entry_from_bytes_encode.
    + by eapply new_size_u64.
    + pose proof (zlen_nonneg data). simpl in Hm. lia.
    + left. lia.
Qed.

Lemma entry_from_bytes_long wh tail eh : wal_header_ok wh ->
  wal_entry_header_from_bytes tail wh = Ok eh -> entry_overhead wh <= zlen tail.
Proof.
  intros Hok He. destruct (decide (entry_overhead wh <= zlen tail)); [done|].
  rewrite entry_from_bytes_short in He; [done..|lia].
Qed.

(** Reading an entry at the front of the remaining bytes. *)
Lemma encode_entry_split wh id data rest : entry_fits wh (id, data) ->
  exists hd, encode_entry wh id data ++ rest = hd ++ data ++ rest /\
    zlen hd = entry_overhead wh.
Proof.
  intros Hf. pose proof (zlen_encode_entry wh id data Hf) as Hl. unfold encode_entry in *.
  eexists. split; [rewrite !app_assoc; reflexivity|]. rewrite !zlen_app in *. lia.
Qed.

Lemma read_record_eq size r : 0 <= size ->
  (if decide (size > 0) then read_exact size r else Some ([], r)) = read_exact size r.
Proof. intros. case_decide; [done|]. rewrite read_exact_0 by lia. done. Qed.

Lemma alloc_ok {E} n : n <= isize_max -> alloc (E := E) n = Ok tt.
Proof. intros. unfold alloc. by rewrite decide_True. Qed.

(** ** The fold both range readers compute *)

Definition ticked (st : range_state) : range_state :=
  {| rs_last_read := rs_last_read st; rs_last_processed := rs_last_processed st;
     rs_found_complete := rs_found_complete st; rs_chan := ch_tick (rs_chan st) |}.

Fixpoint range_fold (from_id : uintn) (until_id : option uintn) (step : Z)
    (source : data_source) (es : list (uintn * bytes)) (oid : option uintn)
    (st : range_state) : outcome wal_error range_step :=
  if bool_decide (ch_life (rs_chan st) = Some 0%nat) then Ok (RsClosed (ch_tick (rs_chan st)))
  else match es with
  | [] =>
      Ok (RsBreak match oid with
                  | None => ticked st
                  | Some id => with_processed id
                      (past_until until_id id || rs_found_complete st) (ticked st)
                  end)
  | (id, data) :: es =>
      let st' := with_processed id (rs_found_complete st) (ticked st) in
      if past_until until_id id then Ok (RsBreak (with_processed id true st'))
      else
        s ← emit_entry from_id until_id step source id data st';
        match s with
        | RsContinue st => range_fold from_id until_id step source es oid st
        | s => Ok s
        end
  end.

Lemma file_loop_fold wh from until step src es tail oid fuel st :
  wal_header_ok wh -> Forall (entry_fits wh) es -> torn wh tail oid ->
  (length es < fuel)%nat ->
  file_range_loop fuel wh from until step src (encode_entries wh es ++ tail) st =
    range_fold from until step src es oid st.
Proof.
  intros Hok Hf Ht. revert fuel st.
  induction Hf as [|[id data] es He Hf IH]; intros [|fuel] st Hfl; try (simpl in Hfl; lia);
    cbn [file_range_loop range_fold]; unfold ch_is_closed;
    fold (ticked st); destruct (bool_decide _); try done.
  - unfold encode_entries. cbn [map concat app].
    rewrite entry_from_reader_eq by done.
    destruct Ht as [e He|eh size He Hs Hr Hbad]; rewrite He; ok_step; [done|]. cbn zeta.
    destruct (past_until until (entry_id eh)) eqn:Hp; [done|].
    rewrite Hs, alloc_ok by lia. ok_step. rewrite read_record_eq by lia.
    unfold read_exact. case_decide as Hl; [|done].
    rewrite decide_True; [done|]. destruct Hbad as [Hbad|Hbad]; [|done].
    pose proof (entry_from_bytes_long _ _ _ Hok He). unfold zlen in *.
    rewrite length_drop in Hl. lia.
  - unfold encode_entries. cbn [map concat fst snd]. fold (encode_entries wh es).
    rewrite <- app_assoc, entry_from_reader_eq, entry_from_bytes_encode by done.
    ok_step. cbn zeta. destruct (encode_entry_split wh id data
      (encode_entries wh es ++ tail) He) as (hd & -> & Hhd).
    replace (Z.to_nat (entry_overhead wh)) with (length hd) by (unfold zlen in Hhd; lia).
    rewrite drop_app_length. cbn [entry_id wal_entry_header_new].
    destruct (past_until until id) eqn:Hp; [done|].
    rewrite (new_size_u64 wh) by done. rewrite alloc_ok by apply He. ok_step.
    rewrite read_record_eq, read_exact_app by (done || apply zlen_nonneg).
    cbn [xxhash wal_entry_header_new]. rewrite decide_False by tauto.
    destruct (emit_entry _ _ _ _ _ _ _) as [s| |]; ok_step; try done.
    destruct s; try done. apply IH. simpl in Hfl. lia.
Qed.

(** The record of the entry at a cursor. *)
Lemma slice_record {E} (pre tail : bytes) o size : 0 <= o -> 0 <= size ->
  o + size <= zlen tail ->
  slice (E := E) (pre ++ tail) (zlen pre + o) (zlen pre + o + size) =
    Ok (take (Z.to_nat size) (drop (Z.to_nat o) tail)).
Proof.
  intros Ho Hs Hl. pose proof (zlen_nonneg pre).
  rewrite slice_ok by (rewrite zlen_app; lia). f_equal.
  replace (zlen pre + o + size - (zlen pre + o)) with size by lia. f_equal.
  rewrite Z2Nat.inj_add, <- drop_drop by lia. f_equal.
  unfold zlen. by rewrite Nat2Z.id, drop_app_length.
Qed.

Lemma slice_entry {E} pre wh id data rest : entry_fits wh (id, data) ->
  slice (E := E) (pre ++ encode_entry wh id data ++ rest)
    (zlen pre + entry_overhead wh) (zlen pre + entry_overhead wh + zlen data) = Ok data.
Proof.
  intros He. destruct (encode_entry_split wh id data rest He) as (hd & -> & Hhd).
  rewrite app_assoc. apply slice_mid; rewrite zlen_app; lia.
Qed.

Lemma bytes_loop_fold pre wh from until step src es tail oid fuel st :
  wal_header_ok wh -> Forall (entry_fits wh) es -> torn wh tail oid ->
  (length es < fuel)%nat -> zlen (pre ++ encode_entries wh es ++ tail) <= isize_max ->
  bytes_range_loop fuel (pre ++ encode_entries wh es ++ tail) wh from until step src
    (zlen pre) st = range_fold from until step src es oid st.
Proof.
  intros Hok Hf Ht. destruct (entry_size_ok (E := wal_error) wh Hok) as [Hsz Hb].
  revert pre fuel st.
  induction Hf as [|[id data] es He Hf IH]; intros pre [|fuel] st Hfl Hmax;
    try (simpl in Hfl; lia);
    cbn [bytes_range_loop range_fold]; unfold ch_is_closed;
    fold (ticked st); destruct (bool_decide (_ = Some 0%nat)); try done;
    rewrite slice_from_tail by done; ok_step.
  - revert Hmax. unfold encode_entries. cbn [map concat app]. intros Hmax.
    rewrite zlen_app in Hmax. pose proof (zlen_nonneg tail). pose proof (zlen_nonneg pre).
    case_bool_decide as Htl.
    { subst tail. destruct Ht as [|eh size He]; [done|].
      apply entry_from_bytes_long in He; [|done]. rewrite zlen_nil in He. lia. }
    destruct Ht as [e He|eh size He Hs Hr Hbad]; rewrite He; ok_step; [done|]. cbn zeta.
    destruct (past_until until (entry_id eh)) eqn:Hp; [done|].
    pose proof (entry_from_bytes_long _ _ _ Hok He).
    rewrite Hsz. ok_step. unfold isize_max in *.
    rewrite arith_ok by (unfold in_u; lia). ok_step. rewrite Hs.
    rewrite arith_ok by (unfold in_u; lia). ok_step. case_decide as Hl; [done|].
    rewrite zlen_app in Hl. destruct Hbad as [Hbad|Hbad]; [lia|].
    rewrite (slice_record pre tail) by lia. ok_step. by rewrite decide_True.
  - revert Hmax. unfold encode_entries. cbn [map concat fst snd]. fold (encode_entries wh es).
    rewrite <- app_assoc. intros Hmax.
    pose proof (zlen_encode_entry wh id data He) as Hel. pose proof (zlen_nonneg pre).
    pose proof (zlen_nonneg data). pose proof (zlen_nonneg (encode_entries wh es ++ tail)).
    rewrite bool_decide_false.
    2:{ intros E. apply (f_equal zlen) in E. rewrite zlen_app, zlen_nil in E. lia. }
    rewrite entry_from_bytes_encode by done. ok_step. cbn zeta.
    cbn [entry_id wal_entry_header_new].
    destruct (past_until until id) eqn:Hp; [done|].
    rewrite Hsz. ok_step. rewrite !zlen_app in Hmax. rewrite zlen_app in *. unfold isize_max in *.
    rewrite arith_ok by (unfold in_u; lia). ok_step. rewrite (new_size_u64 wh) by done.
    rewrite arith_ok by (unfold in_u; lia). ok_step.
    rewrite decide_False by (rewrite !zlen_app; lia).
    rewrite slice_entry by done.
    ok_step. cbn [xxhash wal_entry_header_new]. rewrite decide_False by tauto.
    destruct (emit_entry _ _ _ _ _ _ _) as [s| |]; ok_step; try done.
    destruct s; try done.
    replace (zlen pre + entry_overhead wh + zlen data)
      with (zlen (pre ++ encode_entry wh id data)) by (rewrite zlen_app; lia).
    rewrite app_assoc. apply IH; [simpl in Hfl; lia|].
    rewrite !zlen_app. unfold isize_max. lia.
Qed.

(** ** What is delivered *)

(** The entries a range read asks for. *)
Definition selected (from_id : uintn) (until_id : option uintn) (step : Z)
    (e : uintn * bytes) : bool :=
  bool_decide (uintn_val from_id <= uintn_val (fst e)) &&
  match until_id with
  | Some until => bool_decide (uintn_val (fst e) <= uintn_val until)
  | None => true
  end &&
  bool_decide ((uintn_val (fst e) - uintn_val from_id) mod step = 0).

Definition to_read_entry (source : data_source) (e : uintn * bytes) : read_entry :=
  {| re_id := fst e; re_data := snd e; re_source := source |}.

Definition id_lt (a b : uintn) : Prop := uintn_val a < uintn_val b.
Abbreviation ids_sorted := (StronglySorted id_lt).

Definition opt_ok (o : option uintn) : Prop :=
  match o with Some x => uintn_ok x | None => True end.

Definition opt_list (o : option uintn) : list uintn :=
  match o with Some x => [x] | None => [] end.

Definition reaches (until_id : option uintn) (id : uintn) : bool :=
  match until_id with
  | Some until => bool_decide (uintn_val until <= uintn_val id)
  | None => false
  end.

Lemma past_until_val until id : opt_ok until -> uintn_ok id ->
  past_until until id = match until with
                        | Some u => bool_decide (uintn_val u < uintn_val id)
                        | None => false end.
Proof.
  intros Hu Hi. destruct until as [u|]; [|done]. simpl in *.
  rewrite ltb_spec_val by (apply Hu || apply Hi). apply ltb_decide.
Qed.

Lemma reached_until_val until id : opt_ok until -> uintn_ok id ->
  reached_until until id = reaches until id.
Proof.
  intros Hu Hi. destruct until as [u|]; [|done]. simpl in *.
  rewrite leb_spec_val by (apply Hu || apply Hi). apply leb_decide.
Qed.

Section Delivery.
Context (from : uintn) (until : option uintn) (step : Z) (src : data_source).
Hypothesis Hfrom : uintn_ok from.
Hypothesis Huntil : opt_ok until.
Hypothesis Hstep : in_u 64 step /\ 1 <= step.

(** What the loop body does with one entry, on an open channel. *)
Lemma emit_open id data st : uintn_ok id -> past_until until id = false ->
  ch_life (rs_chan st) = None ->
  exists st', emit_entry from until step src id data st =
      Ok (if selected from until step (id, data) && reaches until id
          then RsBreak st' else RsContinue st') /\
    rs_chan st' = {| ch_sent := ch_sent (rs_chan st) ++
        (if selected from until step (id, data) then [to_read_entry src (id, data)] else []);
      ch_life := None |} /\
    rs_last_read st' = (if selected from until step (id, data) then Some id
                        else rs_last_read st) /\
    rs_last_processed st' = rs_last_processed st /\
    (rs_found_complete st = false ->
     rs_found_complete st' = selected from until step (id, data) && reaches until id).
Proof.
  intros Hid Hpast Hlife. unfold emit_entry, in_range, selected. cbn [fst].
  rewrite leb_spec_val by (apply Hfrom || apply Hid).
  assert (match until with Some u => uintn_leb id u | None => true end =
    match until with Some u => bool_decide (uintn_val id <= uintn_val u) | None => true end)
    as ->.
  { destruct until as [u|]; [|done]. rewrite leb_spec_val by (apply Huntil || apply Hid).
    apply leb_decide. }
  rewrite <- (reached_until_val until id) by done.
  destruct (rs_chan st) as [sent life] eqn:Hch. simpl in Hlife. subst life.
  destruct (Z.leb_spec (uintn_val from) (uintn_val id)) as [Hle|Hle].
  2:{ rewrite bool_decide_false by lia. simpl. exists st. rewrite Hch, app_nil_r. done. }
  rewrite bool_decide_true by lia. cbn [andb].
  destruct (match until with Some _ => _ | None => _ end); cbn [andb].
  2:{ exists st. rewrite Hch, app_nil_r. done. }
  rewrite in_step_spec by tauto.
  assert (bool_decide (step = 1 \/ uintn_val from <= uintn_val id /\
    (uintn_val id - uintn_val from) mod step = 0) =
    bool_decide ((uintn_val id - uintn_val from) mod step = 0)) as ->.
  { apply bool_decide_ext. split; [|tauto]. intros [->|[_ ?]]; [apply Z.mod_1_r|done]. }
  destruct (bool_decide _).
  2:{ exists st. rewrite Hch, app_nil_r. done. }
  unfold ch_send. cbn [ch_life ch_sent]. rewrite decide_False by done. cbn zeta.
  eexists. split; [reflexivity|]. cbn [rs_chan rs_last_read rs_last_processed rs_found_complete].
  split_and!; try done. intros ->. by destruct (reached_until until id).
Qed.

Definition last_read_of (es : list (uintn * bytes)) (prev : option uintn) : option uintn :=
  match last (List.filter (selected from until step) es) with
  | Some e => Some (fst e)
  | None => prev
  end.

(** All the ids the loop looks at, the last processed one first. *)
Definition seen_ids (lp : option uintn) (es : list (uintn * bytes)) (oid : option uintn)
    : list uintn := opt_list lp ++ map fst es ++ opt_list oid.

Lemma reaches_head a l : ids_sorted (a :: l) -> Forall uintn_ok (a :: l) -> l <> [] ->
  existsb (reaches until) (a :: l) = existsb (reaches until) l.
Proof.
  intros Hs Hok Hne. cbn [existsb]. destruct (reaches until a) eqn:E; [|done].
  destruct l as [|b l]; [done|]. cbn [existsb].
  apply StronglySorted_inv in Hs as [_ Hs]. apply Forall_cons in Hs as [Hab _].
  destruct until as [u|]; [|done]. simpl in E. apply bool_decide_eq_true in E.
  unfold id_lt in Hab. simpl. by rewrite bool_decide_true by lia.
Qed.

Lemma drop_prev lp id es oid : ids_sorted (seen_ids lp ((id, es.1) :: es.2) oid) ->
  Forall uintn_ok (seen_ids lp ((id, es.1) :: es.2) oid) ->
  ids_sorted (seen_ids (Some id) es.2 oid) /\ Forall uintn_ok (seen_ids (Some id) es.2 oid) /\
  existsb (reaches until) (seen_ids lp ((id, es.1) :: es.2) oid) =
    existsb (reaches until) (seen_ids (Some id) es.2 oid) /\
  last (seen_ids lp ((id, es.1) :: es.2) oid) = last (seen_ids (Some id) es.2 oid).
Proof.
  destruct es as [d es]. cbn [fst snd]. unfold seen_ids. intros Hs Hok.
  destruct lp as [a|]; cbn [opt_list map app fst] in *; [|done].
  pose proof Hs as Hs'. apply StronglySorted_inv in Hs as [Hs _].
  pose proof Hok as Hok'. apply Forall_cons in Hok as [_ Hok].
  split_and!; try done. by apply reaches_head.
Qed.

Lemma past_reaches id : uintn_ok id -> past_until until id = true -> reaches until id = true.
Proof.
  intros Hid. rewrite past_until_val by done. destruct until as [u|]; [|done]. simpl.
  rewrite !bool_decide_eq_true. lia.
Qed.

Lemma reaches_after id es oid : ids_sorted (id :: map fst es ++ opt_list oid) ->
  reaches until id = true -> List.filter (selected from until step) es = [].
Proof.
  intros Hs Hp. destruct until as [u|]; [|done]. simpl in Hp. apply bool_decide_eq_true in Hp.
  apply StronglySorted_inv in Hs as [_ Hs]. apply Forall_app in Hs as [Hs _].
  induction es as [|e es IH]; [done|]. cbn [map] in Hs. apply Forall_cons in Hs as [He Hs].
  unfold id_lt in He. cbn [List.filter]. unfold selected at 1.
  rewrite (bool_decide_false (_ <= uintn_val u)) by lia. rewrite andb_false_r. by apply IH.
Qed.

Lemma not_past_selected id data : uintn_ok id -> past_until until id = true ->
  selected from until step (id, data) = false.
Proof.
  intros Hid. rewrite past_until_val by done. destruct until as [u|]; [|done].
  rewrite bool_decide_eq_true. intros Hp. unfold selected. cbn [fst].
  rewrite (bool_decide_false (_ <= uintn_val u)) by lia. by rewrite andb_false_r.
Qed.

(** The result of the loop once no more entry can be selected. *)
Definition delivered (es : list (uintn * bytes)) (oid : option uintn) (st st' : range_state)
    : Prop :=
  rs_chan st' = {| ch_sent := ch_sent (rs_chan st) ++
      map (to_read_entry src) (List.filter (selected from until step) es);
    ch_life := None |} /\
  rs_last_read st' = last_read_of es (rs_last_read st) /\
  finish_range from until st' =
    if existsb (reaches until) (seen_ids (rs_last_processed st) es oid) then Complete
    else PartialRead (rs_last_read st')
      (default from (last (seen_ids (rs_last_processed st) es oid))).

Lemma finish_eq st lp : rs_last_processed st = lp -> opt_ok lp ->
  finish_range from until st =
    if rs_found_complete st || existsb (reaches until) (opt_list lp) then Complete
    else PartialRead (rs_last_read st) (default from lp).
Proof.
  intros Hlp Hok. unfold finish_range. rewrite Hlp.
  destruct lp as [l|]; cbn [opt_list existsb]; [|done].
  rewrite orb_false_r. destruct until as [u|]; [|done]. cbn [reaches].
  rewrite leb_spec_val, leb_decide by (apply Huntil || apply Hok). done.
Qed.

Lemma ch_tick_open ch : ch_life ch = None ->
  ch_tick ch = {| ch_sent := ch_sent ch; ch_life := None |}.
Proof. intros H. unfold ch_tick. by rewrite H. Qed.

Lemma range_fold_open es oid st :
  ids_sorted (seen_ids (rs_last_processed st) es oid) ->
  Forall uintn_ok (seen_ids (rs_last_processed st) es oid) ->
  ch_life (rs_chan st) = None -> rs_found_complete st = false ->
  exists st', range_fold from until step src es oid st = Ok (RsBreak st') /\
    delivered es oid st st'.
Proof.
  revert st. induction es as [|[id data] es IH]; intros st Hs Hok Hl Hc;
    cbn [range_fold]; rewrite Hl, bool_decide_false by done.
  - destruct oid as [id|]; eexists; (split; [reflexivity|]); unfold delivered, last_read_of;
      cbn [List.filter map last ticked rs_chan rs_last_read with_processed];
      rewrite app_nil_r; (split_and!; [by apply ch_tick_open|done|]).
    + assert (uintn_ok id) as Hid by (unfold seen_ids in Hok; rewrite !Forall_app in Hok;
        destruct Hok as (_ & _ & Hok); by apply Forall_cons in Hok as [? _]).
      rewrite (finish_eq _ (Some id)) by (done || exact Hid). cbn [with_processed rs_found_complete rs_last_read].
      rewrite Hc, orb_false_r. unfold seen_ids in *. cbn [map app opt_list] in *.
      assert (existsb (reaches until) (opt_list (rs_last_processed st) ++ [id]) =
        existsb (reaches until) [id]) as ->.
      { destruct (rs_last_processed st) as [a|]; [|done]. by apply reaches_head. }
      assert (past_until until id || existsb (reaches until) [id] =
        existsb (reaches until) [id]) as ->.
      { destruct (past_until until id) eqn:E; [|done]. simpl. by rewrite past_reaches. }
      by rewrite last_snoc.
    + unfold seen_ids in *. cbn [map app opt_list] in *. rewrite app_nil_r in *.
      rewrite (finish_eq _ (rs_last_processed st)); [|done|].
      * simpl. rewrite Hc. by destruct (rs_last_processed st).
      * destruct (rs_last_processed st); [|done]. by apply Forall_cons in Hok as [? _].
  - destruct (drop_prev (rs_last_processed st) id (data, es) oid Hs Hok) as (Hs1 & Hok1 & Hex & Hla).
    cbn [fst snd] in *. unfold delivered. rewrite Hex, Hla. clear Hs Hok Hex Hla.
    assert (uintn_ok id) as Hid by (by apply Forall_cons in Hok1 as [? _]).
    assert (reaches until id = true -> existsb (reaches until) (seen_ids (Some id) es oid) = true)
      as Hr by (unfold seen_ids; cbn [opt_list app existsb]; by intros ->).
    destruct (past_until until id) eqn:Hp.
    + eexists. split; [reflexivity|]. apply past_reaches in Hp as Hre; [|done].
      rewrite Hr by done. unfold last_read_of. cbn [List.filter]. rewrite (not_past_selected id data) by done.
      rewrite (reaches_after id es oid) by done. cbn [map last]. rewrite app_nil_r.
      destruct st as [lr lp fc [sent life]]. simpl in Hl. by subst life.
    + destruct (emit_open id data (with_processed id false (ticked st)) Hid Hp)
        as (st1 & He & Hch & Hlr & Hlp & Hfc).
      { simpl. by rewrite Hl. }
      simpl in Hch, Hlr, Hlp, Hfc. specialize (Hfc eq_refl). rewrite Hc, He. ok_step.
      unfold last_read_of. cbn [List.filter].
      destruct (selected from until step (id, data) && reaches until id) eqn:Hsr.
      * apply andb_true_iff in Hsr as [Hsel Hre]. rewrite Hsel in *.
        exists st1. split; [done|]. rewrite Hr, (reaches_after id es oid) by done.
        split_and!; [done|done|]. unfold finish_range. by rewrite Hfc.
      * destruct (IH st1) as (st' & Hf & Hd1 & Hd2 & Hd3); rewrite ?Hlp; try done.
        { by rewrite Hch. }
        rewrite Hlp in Hd3. exists st'. split; [done|]. rewrite Hd3, Hd1, Hd2, Hch, Hlr.
        unfold last_read_of. cbn [ch_sent]. rewrite <- app_assoc.
        destruct (selected from until step (id, data)); (split_and!; [done| |done]);
          rewrite ?last_cons; by destruct (last (List.filter _ es)).
Qed.

End Delivery.

(** ** Whole files *)

(** A WAL file: its header, its entries and what a torn write left. *)
Definition wal_file (wh : wal_header) (es : list (uintn * bytes)) (tail : bytes) : bytes :=
  encode_wal_header wh ++ encode_entries wh es ++ tail.

Lemma length_encode_entries wh es : wal_header_ok wh -> Forall (entry_fits wh) es ->
  (length es <= length (encode_entries wh es))%nat.
Proof.
  intros Hok Hf. destruct (entry_size_ok (E := unit) wh Hok) as [_ Hb].
  induction Hf as [|[id data] es He Hf IH]; [done|].
  unfold encode_entries. cbn [map concat fst snd length]. rewrite length_app.
  fold (encode_entries wh es). pose proof (zlen_encode_entry wh id data He) as Hl.
  pose proof (zlen_nonneg data). unfold zlen in *. lia.
Qed.

Lemma wal_file_nonempty wh es tail : 32 <= zlen (wal_file wh es tail).
Proof.
  unfold wal_file. rewrite zlen_app, zlen_encode_header. pose proof (wal_header_size_pos wh).
  pose proof (zlen_nonneg (encode_entries wh es ++ tail)). lia.
Qed.

Section File.
Context (wh : wal_header) (es : list (uintn * bytes)) (tail : bytes) (oid : option uintn).
Hypothesis Hwh : wal_header_ok wh.
Hypothesis Hes : Forall (entry_fits wh) es.
Hypothesis Htail : torn wh tail oid.

Lemma bytes_range_fold from until step src ch :
  zlen (wal_file wh es tail) <= isize_max ->
  read_wal_bytes_range (wal_file wh es tail) from until step ch src =
    (s ← range_fold from until (Z.max step 1) src es oid (start_range ch);
     Ok (range_result from until s)).
Proof.
  intros Hmax. pose proof (wal_file_nonempty wh es tail) as Hne.
  unfold read_wal_bytes_range. rewrite bool_decide_false.
  2:{ intros E. by rewrite E in Hne. }
  unfold wal_file in *. rewrite header_from_bytes_encode by done.
  rewrite <- zlen_encode_header.
  rewrite bytes_loop_fold with (oid := oid); try done.
  pose proof (length_encode_entries wh es Hwh Hes). rewrite !length_app. lia.
Qed.

Lemma open_wal_file d base file_id :
  d (wal_file_path base file_id) = file_of (wal_file wh es tail) ->
  open_wal d base file_id = Ok (wal_file wh es tail, false).
Proof.
  intros Hd. pose proof (wal_file_nonempty wh es tail).
  unfold open_wal. rewrite Hd. cbn [file_of fv_len fv_bytes].
  by rewrite bool_decide_false by lia.
Qed.

Lemma file_range_fold d base file_id from until step src ch :
  d (wal_file_path base file_id) = file_of (wal_file wh es tail) ->
  read_wal_file_range d base file_id from until step ch src =
    (s ← range_fold from until (Z.max step 1) src es oid (start_range ch);
     Ok (range_result from until s)).
Proof.
  intros Hd. unfold read_wal_file_range. rewrite (open_wal_file _ _ _ Hd). ok_step.
  unfold wal_file. rewrite header_from_reader_encode by done. ok_step.
  rewrite file_loop_fold with (oid := oid); try done.
  pose proof (length_encode_entries wh es Hwh Hes). rewrite !length_app. lia.
Qed.

(** What a whole range read delivers and returns. *)
Definition range_answer (from : uintn) (until : option uintn) (step : Z) : read_range_result :=
  if existsb (reaches until) (map fst es ++ opt_list oid) then Complete
  else PartialRead (last_read_of from until step es None)
         (default from (last (map fst es ++ opt_list oid))).

Lemma fold_delivers from until step src ch :
  uintn_ok from -> opt_ok until -> in_u 64 step -> ch_life ch = None ->
  ids_sorted (map fst es ++ opt_list oid) ->
  Forall uintn_ok (map fst es ++ opt_list oid) ->
  (s ← range_fold from until (Z.max step 1) src es oid (start_range ch);
   Ok (range_result from until s)) =
  Ok (E := wal_error) (range_answer from until (Z.max step 1),
      {| ch_sent := ch_sent ch ++ map (to_read_entry src)
           (List.filter (selected from until (Z.max step 1)) es);
         ch_life := None |}).
Proof.
  intros Hfrom Huntil Hstep Hl Hs Hok.
  destruct (range_fold_open from until (Z.max step 1) src Hfrom Huntil) with
    (es := es) (oid := oid) (st := start_range ch) as (st' & -> & Hch & Hlr & Hfin); try done.
  { unfold in_u in *. lia. }
  ok_step. cbn [range_result]. rewrite Hfin, Hch, Hlr. done.
Qed.

(** The other scans of the file. *)
Lemma range_loop_entries reader fuel f l : (length es < fuel)%nat ->
  reader = encode_entries wh es ++ tail ->
  wal_range_loop fuel wh reader f l =
    Ok (match f with Some _ => f | None => head (map fst es ++ opt_list oid) end,
        match last (map fst es) with Some x => Some x | None => l end).
Proof.
  intros Hfl ->. revert fuel f l Hfl.
  induction Hes as [|[id data] es' He Hf IH]; intros [|fuel] f l Hfl;
    try (simpl in Hfl; lia); cbn [wal_range_loop].
  - unfold encode_entries. cbn [map concat app last].
    rewrite entry_from_reader_eq by done.
    destruct Htail as [e He|eh size He Hs Hr Hbad]; rewrite He; ok_step; [by destruct f|].
    cbn zeta. rewrite Hs, alloc_ok by lia. ok_step. rewrite read_record_eq by lia.
    unfold read_exact. case_decide as Hl; [|by destruct f].
    rewrite decide_True; [by destruct f|]. destruct Hbad as [Hbad|Hbad]; [|done].
    pose proof (entry_from_bytes_long _ _ _ Hwh He). unfold zlen in *.
    rewrite length_drop in Hl. lia.
  - unfold encode_entries. cbn [map concat fst snd]. fold (encode_entries wh es').
    rewrite <- app_assoc, entry_from_reader_eq, entry_from_bytes_encode by done.
    ok_step. cbn zeta. destruct (encode_entry_split wh id data
      (encode_entries wh es' ++ tail) He) as (hd & -> & Hhd).
    replace (Z.to_nat (entry_overhead wh)) with (length hd) by (unfold zlen in Hhd; lia).
    rewrite drop_app_length. cbn [entry_id wal_entry_header_new].
    rewrite (new_size_u64 wh) by done. rewrite alloc_ok by apply He. ok_step.
    rewrite read_record_eq, read_exact_app by (done || apply zlen_nonneg).
    cbn [xxhash wal_entry_header_new]. rewrite decide_False by tauto.
    rewrite (IH Hf) by (simpl in Hfl; lia). rewrite last_cons. f_equal.
    destruct f; by destruct (last (map fst es')).
Qed.

Lemma get_wal_range_file d base file_id :
  d (wal_file_path base file_id) = file_of (wal_file wh es tail) ->
  get_wal_range d base file_id =
    Ok (wh, match head (map fst es), last (map fst es) with
            | Some first, Some last => Some (first, last)
            | _, _ => None
            end).
Proof.
  intros Hd. unfold get_wal_range. rewrite (open_wal_file _ _ _ Hd). ok_step.
  unfold header_or_empty, wal_file. rewrite header_from_reader_encode by done. ok_step.
  rewrite range_loop_entries; [|rewrite length_app;
    pose proof (length_encode_entries wh es Hwh Hes); lia|done]. ok_step.
  destruct es as [|e es']; [by destruct (head _)|]. cbn [map head app].
  by destruct (last _).
Qed.

Lemma content_loop_entries pre fuel n :
  (length es < fuel)%nat -> zlen (pre ++ encode_entries wh es ++ tail) <= isize_max ->
  wal_content_loop fuel (pre ++ encode_entries wh es ++ tail) wh (zlen pre) n =
    Ok (n + zlen es).
Proof.
  destruct (entry_size_ok (E := wal_error) wh Hwh) as [Hsz Hb].
  revert pre fuel n. induction Hes as [|[id data] es' He Hf IH]; intros pre [|fuel] n Hfl Hmax;
    try (simpl in Hfl; lia); cbn [wal_content_loop]; rewrite slice_from_tail by done; ok_step.
  - revert Hmax. unfold encode_entries. cbn [map concat app]. intros Hmax.
    rewrite zlen_app in Hmax. pose proof (zlen_nonneg tail). pose proof (zlen_nonneg pre).
    rewrite zlen_nil, Z.add_0_r.
    case_bool_decide as Htl; [done|].
    destruct Htail as [e He|eh size He Hs Hr Hbad]; rewrite He; ok_step; [done|].
    pose proof (entry_from_bytes_long _ _ _ Hwh He).
    rewrite Hsz. ok_step. unfold isize_max in *.
    rewrite arith_ok by (unfold in_u; lia). ok_step. rewrite Hs.
    rewrite arith_ok by (unfold in_u; lia). ok_step. case_decide as Hl; [done|].
    rewrite zlen_app in Hl. destruct Hbad as [Hbad|Hbad]; [lia|].
    rewrite (slice_record pre tail) by lia. ok_step. by rewrite decide_True.
  - revert Hmax. unfold encode_entries. cbn [map concat fst snd]. fold (encode_entries wh es').
    rewrite <- app_assoc. intros Hmax.
    pose proof (zlen_encode_entry wh id data He) as Hel. pose proof (zlen_nonneg pre).
    pose proof (zlen_nonneg data). pose proof (zlen_nonneg (encode_entries wh es' ++ tail)).
    rewrite bool_decide_false.
    2:{ intros E. apply (f_equal zlen) in E. rewrite zlen_app, zlen_nil in E. lia. }
    rewrite entry_from_bytes_encode by done. ok_step.
    rewrite Hsz. ok_step. rewrite !zlen_app in Hmax. rewrite zlen_app in *. unfold isize_max in *.
    rewrite arith_ok by (unfold in_u; lia). ok_step. rewrite (new_size_u64 wh) by done.
    rewrite arith_ok by (unfold in_u; lia). ok_step.
    rewrite decide_False by (rewrite !zlen_app; lia).
    rewrite slice_entry by done. ok_step. cbn [xxhash wal_entry_header_new].
    rewrite decide_False by tauto.
    replace (zlen pre + entry_overhead wh + zlen data)
      with (zlen (pre ++ encode_entry wh id data)) by (rewrite zlen_app; lia).
    rewrite app_assoc, (IH Hf), zlen_cons; [f_equal; lia|simpl in Hfl; lia|].
    rewrite !zlen_app. unfold isize_max. lia.
Qed.

Lemma get_wal_content_file d base file_id :
  d (wal_file_path base file_id) = file_of (wal_file wh es tail) ->
  zlen (wal_file wh es tail) <= isize_max ->
  get_wal_content d base file_id =
    Ok {| wc_entries_before := num_entries_before wh;
          wc_num_entries := uintn_from_u64 (zlen es);
          wc_content := wal_file wh es tail |}.
Proof.
  intros Hd Hmax. pose proof (wal_file_nonempty wh es tail) as Hne.
  unfold get_wal_content. rewrite Hd. cbn [file_of fv_read_err fv_bytes]. ok_step.
  rewrite bool_decide_false by (intros E; by rewrite E in Hne).
  assert (wal_header_from_bytes (wal_file wh es tail) = Ok (wh, wal_header_size wh)) as ->
    by (by apply header_from_bytes_encode).
  ok_step. rewrite <- zlen_encode_header.
  assert (wal_content_loop (S (length (wal_file wh es tail))) (wal_file wh es tail) wh
    (zlen (encode_wal_header wh)) 0 = Ok (0 + zlen es)) as ->; [|done].
  apply content_loop_entries; [|done]. unfold wal_file.
  pose proof (length_encode_entries wh es Hwh Hes). rewrite !length_app. lia.
Qed.

End File.

End Facts.
