(* ===== verification/WalReaderTotal.v ===== *)
(** * The WAL readers on arbitrary bytes

    The readers end on every input (the fuel of the loops is never used up) and
    agree with each other on every well-formed file; the claims about reading
    are collected here. *)
From Stdlib Require Import ZArith Lia List Bool Sorted.
From Stdlib Require Import Ascii String.
From Stdlib Require Strings.Byte.
From stdpp Require Import base option list.
From S2P Require Import Prelude UBig UintN UintNFacts Paths Types WalFormat WalReader WalReaderFacts.
#[local] Open Scope Z_scope.

Section Total.
Context {B : Build} {U : UBig} {X : Hasher}.

(** ** Progress: a parsed entry header takes at least 16 bytes *)

Lemma slice_inv {E A} (l : list A) a b s : slice (E := E) l a b = Ok s ->
  a <= b /\ b <= zlen l /\ (0 <= a -> zlen s = b - a).
Proof.
  unfold slice. case_decide as H; [|done]. intros [= <-]. destruct H as [H1 H2].
  split; [done|]. split; [done|]. intros H0. unfold zlen in *.
  rewrite length_take, length_drop. lia.
Qed.

Lemma arith_any {E F} w z r : arith (E := E) w z = Ok r -> arith (E := F) w z = Ok r.
Proof. unfold arith. case_decide; [|destruct overflow_checks]; congruence. Qed.

Lemma entry_progress data wh eh : wal_entry_header_from_bytes data wh = Ok eh ->
  exists n, (forall E, wal_entry_header_size (E := E) wh = Ok n) /\ 16 <= n <= zlen data.
Proof.
  unfold wal_entry_header_from_bytes. cbn zeta.
  assert (forall E F n, wal_entry_header_size (E := E) wh = Ok n ->
    wal_entry_header_size (E := F) wh = Ok n) as Hany.
  { intros E F n. unfold wal_entry_header_size.
    destruct (arith (E := E) 64 (wal_entry_header_fixed_overhead + _)) as [m| |] eqn:Em; ok_step;
      try done.
    rewrite (arith_any (F := F) _ _ _ Em). ok_step. apply arith_any. }
  destruct (wal_entry_header_size wh) as [n| |] eqn:Hn; ok_step; try done.
  case_decide as Hlen; [done|].
  destruct (slice data 0 8) as [v| |]; ok_step; try done. case_decide; [done|].
  destruct (arith 64 (8 + id_size_bytes wh)) as [e1| |]; ok_step; try done.
  destruct (slice data 8 e1) as [s1| |] eqn:E1; ok_step; try done.
  destruct (uintn_read_value_from_slice s1 _); ok_step; try done.
  destruct (arith 64 (e1 + data_size_bytes wh)) as [e2| |]; ok_step; try done.
  destruct (slice data e1 e2) as [s2| |] eqn:E2; ok_step; try done.
  destruct (uintn_read_value_from_slice s2 _); ok_step; try done.
  destruct (slice data e2 n) as [s3| |] eqn:E3; ok_step; try done.
  case_decide as H8; [|done]. intros _.
  apply slice_inv in E1 as (? & ? & _), E2 as (? & ? & _), E3 as (? & ? & Hz).
  exists n. split; [intros E; by eapply Hany|]. rewrite Hz in H8 by lia. lia.
Qed.

Lemma reader_progress reader wh eh reader' :
  wal_entry_header_from_reader reader wh = Ok (eh, reader') ->
  (length reader' + 16 <= length reader)%nat.
Proof.
  unfold wal_entry_header_from_reader.
  destruct (wal_entry_header_size wh) as [n| |] eqn:Hn; ok_step; try done.
  destruct (alloc n); ok_step; try done. unfold read_exact. case_decide; [|done].
  destruct (wal_entry_header_from_bytes _ wh) as [h| |] eqn:Hh; ok_step; try done.
  intros [= -> <-]. apply entry_progress in Hh as (m & Hm & Hr). rewrite Hm in Hn.
  injection Hn as ->. unfold zlen in Hr. rewrite length_take in Hr. rewrite length_drop. lia.
Qed.

Lemma record_progress size reader rec reader' :
  (if decide (size > 0) then read_exact size reader else Some ([], reader)) =
    Some (rec, reader') -> (length reader' <= length reader)%nat.
Proof.
  case_decide; [|by intros [= _ <-]]. unfold read_exact. case_decide; [|done].
  intros [= _ <-]. rewrite length_drop. lia.
Qed.

(** ** The fuel is enough *)

Lemma wal_range_loop_fuel f g wh reader a b : (length reader < f)%nat -> (length reader < g)%nat ->
  wal_range_loop f wh reader a b = wal_range_loop g wh reader a b.
Proof.
  revert g reader a b. induction f as [|f IH]; intros g reader a b Hf Hg; [lia|].
  destruct g as [|g]; [lia|]. cbn [wal_range_loop].
  destruct (wal_entry_header_from_reader reader wh) as [[eh r1]| |] eqn:E; try done.
  apply reader_progress in E. destruct (uintn_to_u64 (record_size eh)) as [size| |]; try done.
  destruct (alloc size); ok_step; try done.
  destruct (if decide (size > 0) then _ else _) as [[rec r2]|] eqn:E2; [|done].
  apply record_progress in E2. case_decide; [done|]. apply IH; lia.
Qed.

Lemma file_range_loop_fuel f g wh from until step src reader st :
  (length reader < f)%nat -> (length reader < g)%nat ->
  file_range_loop f wh from until step src reader st =
  file_range_loop g wh from until step src reader st.
Proof.
  revert g reader st. induction f as [|f IH]; intros g reader st Hf Hg; [lia|].
  destruct g as [|g]; [lia|]. cbn [file_range_loop].
  destruct (ch_is_closed (rs_chan st)) as [[] ch]; [done|].
  destruct (wal_entry_header_from_reader reader wh) as [[eh r1]| |] eqn:E; try done.
  apply reader_progress in E. destruct (past_until _ _); [done|].
  destruct (uintn_to_u64 (record_size eh)) as [size| |]; try done.
  destruct (alloc size); ok_step; try done.
  destruct (if decide (size > 0) then _ else _) as [[rec r2]|] eqn:E2; [|done].
  apply record_progress in E2. case_decide; [done|].
  destruct (emit_entry _ _ _ _ _ _ _) as [[]| |]; ok_step; try done. apply IH; lia.
Qed.

(** The cursor of the loops on bytes moves on. *)
Lemma cursor_progress content wh cursor rem eh n size c e rec :
  zlen content <= isize_max -> 0 <= cursor ->
  slice_from (E := wal_error) content cursor = Ok rem ->
  wal_entry_header_from_bytes rem wh = Ok eh ->
  wal_entry_header_size (E := wal_error) wh = Ok n ->
  arith (E := wal_error) 64 (cursor + n) = Ok c ->
  arith (E := wal_error) 64 (c + size) = Ok e ->
  slice (E := wal_error) content c e = Ok rec ->
  cursor + 16 <= e <= zlen content.
Proof.
  intros Hs H0 Hr Hh Hn Hc He Hrec. apply entry_progress in Hh as (m & Hm & Hle).
  rewrite Hm in Hn. injection Hn as ->. apply slice_inv in Hr as (? & _ & Hz).
  rewrite Hz in Hle by done. unfold isize_max in Hs.
  rewrite arith_ok in Hc by (unfold in_u; lia). injection Hc as <-.
  apply slice_inv in Hrec as (? & ? & _). lia.
Qed.

Lemma wal_content_loop_fuel f g content wh cursor k : zlen content <= isize_max -> 0 <= cursor ->
  zlen content - cursor < Z.of_nat f -> zlen content - cursor < Z.of_nat g ->
  (0 < f)%nat -> (0 < g)%nat ->
  wal_content_loop f content wh cursor k = wal_content_loop g content wh cursor k.
Proof.
  intros Hs. revert g cursor k.
  induction f as [|f IH]; intros g cursor k H0 Hf Hg Hf0 Hg0; [lia|].
  destruct g as [|g]; [lia|]. cbn [wal_content_loop].
  destruct (slice_from content cursor) as [rem| |] eqn:Hr; ok_step; try done.
  case_bool_decide; [done|].
  destruct (wal_entry_header_from_bytes rem wh) as [eh| |] eqn:Hh; ok_step; try done.
  destruct (wal_entry_header_size wh) as [n| |] eqn:Hn; ok_step; try done.
  destruct (arith 64 (cursor + n)) as [c| |] eqn:Hc; ok_step; try done.
  destruct (uintn_to_u64 (record_size eh)) as [size| |]; ok_step; try done.
  destruct (arith 64 (c + size)) as [e| |] eqn:He; ok_step; try done.
  case_decide; [done|].
  destruct (slice content c e) as [rec| |] eqn:Hrec; ok_step; try done.
  case_decide; [done|].
  pose proof (cursor_progress content wh cursor rem eh n size c e rec Hs H0 Hr Hh Hn Hc He Hrec).
  apply IH; lia.
Qed.

Lemma bytes_range_loop_fuel f g content wh from until step src cursor st :
  zlen content <= isize_max -> 0 <= cursor ->
  zlen content - cursor < Z.of_nat f -> zlen content - cursor < Z.of_nat g ->
  (0 < f)%nat -> (0 < g)%nat ->
  bytes_range_loop f content wh from until step src cursor st =
  bytes_range_loop g content wh from until step src cursor st.
Proof.
  intros Hs. revert g cursor st.
  induction f as [|f IH]; intros g cursor st H0 Hf Hg Hf0 Hg0; [lia|].
  destruct g as [|g]; [lia|]. cbn [bytes_range_loop].
  destruct (ch_is_closed (rs_chan st)) as [[] ch]; [done|].
  destruct (slice_from content cursor) as [rem| |] eqn:Hr; ok_step; try done.
  case_bool_decide; [done|].
  destruct (wal_entry_header_from_bytes rem wh) as [eh| |] eqn:Hh; ok_step; try done.
  destruct (past_until _ _); [done|].
  destruct (wal_entry_header_size wh) as [n| |] eqn:Hn; ok_step; try done.
  destruct (arith 64 (cursor + n)) as [c| |] eqn:Hc; ok_step; try done.
  destruct (uintn_to_u64 (record_size eh)) as [size| |]; ok_step; try done.
  destruct (arith 64 (c + size)) as [e| |] eqn:He; ok_step; try done.
  case_decide; [done|].
  destruct (slice content c e) as [rec| |] eqn:Hrec; ok_step; try done.
  case_decide; [done|].
  destruct (emit_entry _ _ _ _ _ _ _) as [[]| |]; ok_step; try done.
  pose proof (cursor_progress content wh cursor rem eh n size c e rec Hs H0 Hr Hh Hn Hc He Hrec).
  apply IH; lia.
Qed.

End Total.

(** ** Claims *)

Section Claims.
Context {B : Build} {U : UBig} {X : Hasher}.

(** C13: reading a range from a WAL file that ends in an incomplete or corrupt
    entry sends, to a receiver that stays, exactly the complete entries of the
    range and step, in order, with their data; the answer is [Complete] exactly
    when an id at or past the end of the range was seen, else it names the last
    id sent and the last id seen. *)
Theorem read_file_range_exact d base file_id wh es tail oid from until step ch src :
  wal_header_ok wh -> Forall (entry_fits wh) es -> torn wh tail oid ->
  StronglySorted id_lt (map fst es ++ opt_list oid) ->
  Forall uintn_ok (map fst es ++ opt_list oid) ->
  uintn_ok from -> opt_ok until -> in_u 64 step -> ch_life ch = None ->
  d (wal_file_path base file_id) = file_of (wal_file wh es tail) ->
  read_wal_file_range d base file_id from until step ch src =
    Ok (if existsb (reaches until) (map fst es ++ opt_list oid) then Complete
        else PartialRead
               (option_map fst (last (List.filter (selected from until (Z.max step 1)) es)))
               (default from (last (map fst es ++ opt_list oid))),
        {| ch_sent := ch_sent ch ++ map (to_read_entry src)
             (List.filter (selected from until (Z.max step 1)) es);
           ch_life := None |}).
Proof.
  intros Hwh Hes Ht Hs Hok Hf Hu Hst Hch Hd.
  rewrite (file_range_fold wh es tail oid) by done.
  rewrite fold_delivers by done. unfold range_answer, last_read_of.
  by destruct (last _).
Qed.

(** C26: on content with a well-formed header, whole entries and at most the
    beginning of one more, the reader of files and the reader of bytes in memory
    agree: same answer, same entries sent, for every range and for a receiver
    that may go away at any moment.  (On a header cut short they differ:
    [readers_differ_on_cut_header].) *)
Theorem file_and_bytes_readers_agree d base file_id wh es tail oid from until step ch src :
  wal_header_ok wh -> Forall (entry_fits wh) es -> torn wh tail oid ->
  zlen (wal_file wh es tail) <= isize_max ->
  d (wal_file_path base file_id) = file_of (wal_file wh es tail) ->
  read_wal_file_range d base file_id from until step ch src =
  read_wal_bytes_range (wal_file wh es tail) from until step ch src.
Proof.
  intros Hwh Hes Ht Hz Hd. rewrite (file_range_fold wh es tail oid) by done.
  by rewrite (bytes_range_fold wh es tail oid).
Qed.

(** On a header cut before its fixed part is complete they do not agree: it is
    an error of the reader of files and an empty file to the reader of bytes. *)
Theorem readers_differ_on_cut_header d base file_id content from until step ch src :
  0 < zlen content < wal_header_fixed_size ->
  d (wal_file_path base file_id) = file_of content ->
  read_wal_file_range d base file_id from until step ch src = Err (WWalHeaderError WhSliceTooShort) /\
  read_wal_bytes_range content from until step ch src = Ok (PartialRead None from, ch).
Proof.
  intros Hz Hd. unfold read_wal_file_range, open_wal, read_wal_bytes_range.
  rewrite Hd. cbn [file_of fv_len fv_bytes]. rewrite bool_decide_false by lia. ok_step.
  unfold wal_header_from_reader, read_exact, wal_header_fixed_size in *.
  destruct (decide (24 <= zlen content)); [lia|]. split; [done|].
  rewrite bool_decide_false by (intros ->; by destruct Hz).
  unfold wal_header_from_bytes, wal_header_fixed_size in *. by rewrite decide_True by lia.
Qed.

(** The two scans of a WAL file see the complete entries and nothing of the
    incomplete one at its end: the range is the ids of the first and the last
    complete entry, the content counts them. *)
Theorem wal_scans_exact d base file_id wh es tail oid :
  wal_header_ok wh -> Forall (entry_fits wh) es -> torn wh tail oid ->
  zlen (wal_file wh es tail) <= isize_max ->
  d (wal_file_path base file_id) = file_of (wal_file wh es tail) ->
  get_wal_range d base file_id =
    Ok (wh, match head (map fst es), last (map fst es) with
            | Some first, Some last => Some (first, last)
            | _, _ => None
            end) /\
  get_wal_content d base file_id =
    Ok {| wc_entries_before := num_entries_before wh;
          wc_num_entries := uintn_from_u64 (zlen es);
          wc_content := wal_file wh es tail |}.
Proof.
  intros Hwh Hes Ht Hz Hd. split.
  - by apply (get_wal_range_file wh es tail oid).
  - by apply (get_wal_content_file wh es tail oid).
Qed.

(** C28: on any bytes whatever the four reading loops come to an end: the
    number of bytes bounds their turns, so a larger bound changes nothing. *)
Theorem wal_loops_terminate content wh cursor from until step src st first last count more :
  zlen content <= isize_max -> 0 <= cursor ->
  wal_range_loop (S (length content) + more) wh content first last =
    wal_range_loop (S (length content)) wh content first last /\
  wal_content_loop (S (length content) + more) content wh cursor count =
    wal_content_loop (S (length content)) content wh cursor count /\
  file_range_loop (S (length content) + more) wh from until step src content st =
    file_range_loop (S (length content)) wh from until step src content st /\
  bytes_range_loop (S (length content) + more) content wh from until step src cursor st =
    bytes_range_loop (S (length content)) content wh from until step src cursor st.
Proof.
  intros Hz Hc. unfold zlen in Hz.
  split; [apply wal_range_loop_fuel; lia|]. split; [apply wal_content_loop_fuel; unfold zlen; lia|].
  split; [apply file_range_loop_fuel; lia|]. apply bytes_range_loop_fuel; unfold zlen; lia.
Qed.

End Claims.

(** *** What corrupt bytes can do *)

Definition demo_header : wal_header := wal_header_default.
Definition demo_entries : list (uintn * bytes) :=
  [(U8 0, [Byte.x61]); (U8 1, [Byte.x62; Byte.x63])].

(** A well-formed entry header whose size field is [size]. *)
Definition entry_of_size (size : Z) : bytes :=
  le_bytes 8 0 ++ le_bytes 4 2 ++ le_bytes 8 size ++ le_bytes 8 0.

(** A receiver that stays. *)
Definition open_channel : channel := {| ch_sent := []; ch_life := None |}.

Definition demo_path : str := s2l "/q/wal".
Definition one_file_disk (content : bytes) : disk := fun p =>
  if bool_decide (p = wal_file_path demo_path (U8 1)) then file_of content else OpenNotFound.

(** One corrupt size field is enough to make the readers panic instead of
    stopping at the entry: with a size of [2^64 - 1] the readers of bytes
    overflow the cursor (in both profiles) and the reader of files asks for an
    impossible allocation. *)
Theorem corrupt_size_panics :
  let content := encode_wal_header demo_header ++ entry_of_size (2 ^ 64 - 1) in
  (forall B : Build,
    read_wal_bytes_range content (U8 0) None 1 open_channel DSDiskStore = Panic /\
    get_wal_content (one_file_disk content) demo_path (U8 1) = Panic) /\
  read_wal_file_range (B := checked_build) (one_file_disk content) demo_path (U8 1) (U8 0) None 1
    open_channel DSDiskWal = Panic.
Proof.
  split; [|vm_eq]. intros [[|]]; split; vm_eq.
Qed.

(** When the last entry of the range is the incomplete one, the readers
    answer [Complete] although they did not send it. *)
Theorem cropped_until_complete :
  let content := take 91 (wal_file demo_header demo_entries []) in
  read_wal_bytes_range (B := checked_build) content (U8 0) (Some (U8 1)) 1
    open_channel DSDiskStore =
  Ok (Complete, {| ch_sent := [to_read_entry DSDiskStore (U8 0, [Byte.x61])]; ch_life := None |}).
Proof. intros content. vm_eq. Qed.

Lemma demo_header_ok : wal_header_ok demo_header.
Proof. split_and!; done. Defined.
Lemma demo_entries_fit : Forall (entry_fits demo_header) demo_entries.
Proof. repeat constructor; done. Defined.
Lemma demo_torn : torn (B := checked_build) demo_header [] None.
Proof. apply torn_nil, demo_header_ok. Defined.

Lemma read_file_range_exact_witness :
  read_wal_file_range (B := checked_build)
    (one_file_disk (wal_file demo_header demo_entries [])) demo_path (U8 1) (U8 1) None 1
    open_channel DSDiskWal =
  Ok (PartialRead (Some (U8 1)) (U8 1),
      {| ch_sent := [to_read_entry DSDiskWal (U8 1, [Byte.x62; Byte.x63])]; ch_life := None |}).
Proof.
  rewrite (read_file_range_exact (B := checked_build) _ demo_path (U8 1) demo_header demo_entries
    [] None (U8 1) None 1 open_channel DSDiskWal).
  - reflexivity.
  - exact demo_header_ok.
  - exact demo_entries_fit.
  - exact demo_torn.
  - repeat constructor.
  - repeat constructor; done.
  - done.
  - done.
  - done.
  - done.
  - reflexivity.
Defined.

Lemma file_and_bytes_readers_agree_witness :
  read_wal_file_range (B := checked_build)
    (one_file_disk (wal_file demo_header demo_entries [])) demo_path (U8 1) (U8 0) (Some (U8 9)) 2
    {| ch_sent := []; ch_life := Some 2%nat |} DSDiskWal =
  read_wal_bytes_range (B := checked_build) (wal_file demo_header demo_entries []) (U8 0) (Some (U8 9)) 2
    {| ch_sent := []; ch_life := Some 2%nat |} DSDiskWal.
Proof.
  apply (file_and_bytes_readers_agree (B := checked_build) _ demo_path (U8 1) demo_header
    demo_entries [] None).
  - exact demo_header_ok.
  - exact demo_entries_fit.
  - exact demo_torn.
  - vm_compute. discriminate.
  - reflexivity.
Defined.

Lemma wal_scans_exact_witness :
  get_wal_range (B := checked_build)
    (one_file_disk (wal_file demo_header demo_entries [])) demo_path (U8 1) =
  Ok (demo_header, Some (U8 0, U8 1)).
Proof.
  destruct (wal_scans_exact (B := checked_build)
    (one_file_disk (wal_file demo_header demo_entries [])) demo_path (U8 1) demo_header
    demo_entries [] None) as [H _].
  - exact demo_header_ok.
  - exact demo_entries_fit.
  - exact demo_torn.
  - vm_compute. discriminate.
  - reflexivity.
  - exact H.
Defined.

Lemma wal_loops_terminate_witness :
  bytes_range_loop (B := checked_build) (S 3 + 5) [Byte.x00; Byte.x01; Byte.x02] demo_header
    (U8 0) None 1 DSDiskWal 0 (start_range open_channel) =
  bytes_range_loop (B := checked_build) (S 3) [Byte.x00; Byte.x01; Byte.x02] demo_header
    (U8 0) None 1 DSDiskWal 0 (start_range open_channel).
Proof.
  destruct (wal_loops_terminate (B := checked_build) [Byte.x00; Byte.x01; Byte.x02] demo_header 0
    (U8 0) None 1 DSDiskWal (start_range open_channel) None None 0 5) as (_ & _ & _ & H).
  - vm_compute. discriminate.
  - done.
  - exact H.
Defined.
