(* ===== verification/OrderedBuffer.v ===== *)
(** * The reordering buffer of the WAL writer ([normfs-wal/src/writer_buffer.rs])

    Entries reach the writer in any order and must be written with consecutive
    ids.  An entry that is next is written directly, any other one waits in
    [pending]; a wait releases the longest run of consecutive ids. *)
From Stdlib Require Import ZArith Lia List Bool Sorted Permutation.
From stdpp Require Import base option list sorting.
From S2P Require Import Prelude UBig UintN UintNFacts Types.
#[local] Open Scope Z_scope.

Section Sort.
Context {U : UBig}.

Definition id_le (a b : uintn * bytes) : Prop := uintn_val (fst a) <= uintn_val (fst b).

(** [slice::sort_unstable_by] on the ids: a sorted permutation; the order of
    equal ids is not specified. *)
Class UnstableSort := {
  sort_unstable : list (uintn * bytes) -> list (uintn * bytes);
  sort_perm l : sort_unstable l ≡ₚ l;
  sort_sorted l : Forall (fun e => uintn_wf (fst e)) l -> StronglySorted id_le (sort_unstable l);
}.

Fixpoint insert_entry (x : uintn * bytes) (l : list (uintn * bytes)) : list (uintn * bytes) :=
  match l with
  | [] => [x]
  | y :: r => match uintn_cmp (fst x) (fst y) with
              | Gt => y :: insert_entry x r
              | _ => x :: y :: r
              end
  end.

Definition insertion_sort (l : list (uintn * bytes)) : list (uintn * bytes) :=
  fold_right insert_entry [] l.

Lemma insert_entry_perm x l : insert_entry x l ≡ₚ x :: l.
Proof.
  induction l as [|y l IH]; [done|]. cbn [insert_entry].
  destruct (uintn_cmp _ _); [done|done|]. rewrite IH. by apply perm_swap.
Qed.

Lemma insertion_sort_perm l : insertion_sort l ≡ₚ l.
Proof. induction l as [|x l IH]; [done|]. simpl. by rewrite insert_entry_perm, IH. Qed.

Lemma cmp_le (a b : uintn * bytes) : uintn_wf (fst a) -> uintn_wf (fst b) ->
  uintn_cmp (fst a) (fst b) <> Gt <-> id_le a b.
Proof. intros. rewrite cmp_spec_val by done. unfold id_le. by rewrite Z.compare_le_iff. Qed.

Lemma insert_entry_sorted x l : uintn_wf (fst x) -> Forall (fun e => uintn_wf (fst e)) l ->
  StronglySorted id_le l -> StronglySorted id_le (insert_entry x l).
Proof.
  intros Hx Hl Hs. induction Hs as [|y l Hs IH Hy]; [repeat constructor|].
  apply Forall_cons in Hl as [Hy' Hl]. cbn [insert_entry].
  assert (uintn_cmp (fst x) (fst y) <> Gt ->
    StronglySorted id_le (x :: y :: l)) as Hle.
  { intros E. apply cmp_le in E; [|done..]. constructor; [by constructor|].
    constructor; [done|]. eapply Forall_impl; [exact Hy|]. unfold id_le in *. intros; lia. }
  destruct (uintn_cmp _ _) eqn:E; try (by apply Hle).
  constructor; [by apply IH|]. rewrite insert_entry_perm. constructor; [|done].
  rewrite cmp_spec_val in E by done. apply Z.compare_gt_iff in E. unfold id_le. lia.
Qed.

Lemma insertion_sort_sorted l : Forall (fun e => uintn_wf (fst e)) l ->
  StronglySorted id_le (insertion_sort l).
Proof.
  induction 1 as [|x l Hx Hl IH]; [constructor|]. simpl.
  apply insert_entry_sorted; [done| |done]. by rewrite insertion_sort_perm.
Qed.

#[export] Instance UnstableSort_insertion : UnstableSort := {
  sort_unstable := insertion_sort;
  sort_perm := insertion_sort_perm;
  sort_sorted := insertion_sort_sorted;
}.

End Sort.

Section Buffer.
Context {B : Build} {U : UBig} {S : UnstableSort}.

(** [struct OrderedBuffer] *)
Record ordered_buffer := {
  ob_pending : list (uintn * bytes);
  ob_last_written_id : option uintn;
  ob_queue_id : queue_id;
}.

Definition ordered_buffer_new (last_id : option uintn) (q : queue_id) : ordered_buffer :=
  {| ob_pending := []; ob_last_written_id := last_id; ob_queue_id := q |}.

(** The test of [check_can_write] and of the loop of [wait_for_order]. *)
Definition is_next (last_id : option uintn) (id : uintn) : bool :=
  match last_id with
  | Some last_id => uintn_eqb id (uintn_increment last_id)
  | None => uintn_is_zero id
  end.

Definition ob_check_can_write (self : ordered_buffer) (id : uintn) : bool :=
  is_next (ob_last_written_id self) id.

Definition ob_can_write (self : ordered_buffer) (id : uintn) : bool * ordered_buffer :=
  if ob_check_can_write self id
  then (true, {| ob_pending := ob_pending self; ob_last_written_id := Some id;
                 ob_queue_id := ob_queue_id self |})
  else (false, self).

(** The loop over [pending]: the ready entries, the id of the last of them and
    the number of cropped entries. *)
Fixpoint ready_run (last_id : option uintn) (pending : list (uintn * bytes))
    : list (uintn * bytes) * option uintn * nat :=
  match pending with
  | [] => ([], last_id, 0%nat)
  | (id, data) :: rest =>
      if is_next last_id id then
        let '(ready, last_id, cropped) := ready_run (Some id) rest in
        ((id, data) :: ready, last_id, Datatypes.S cropped)
      else ([], last_id, 0%nat)
  end.

Definition ob_wait_for_order (self : ordered_buffer) (e : uintn * bytes)
    : list (uintn * bytes) * ordered_buffer :=
  let pending := sort_unstable (ob_pending self ++ [e]) in
  let '(ready, last_id, cropped) := ready_run (ob_last_written_id self) pending in
  (ready,
   if decide (0 < cropped)%nat
   then {| ob_pending := drop cropped pending; ob_last_written_id := last_id;
           ob_queue_id := ob_queue_id self |}
   else {| ob_pending := pending; ob_last_written_id := ob_last_written_id self;
           ob_queue_id := ob_queue_id self |}).

(** ** Theory *)

(** The id the buffer waits for. *)
Definition next_after (last_id : option uintn) : Z :=
  match last_id with Some l => uintn_val l + 1 | None => 0 end.
Definition ob_next (self : ordered_buffer) : Z := next_after (ob_last_written_id self).

Definition last_ok (last_id : option uintn) : Prop :=
  match last_id with Some l => uintn_ok l | None => True end.

(** Consecutive ids from [n]. *)
Fixpoint consecutive (n : Z) (es : list (uintn * bytes)) : Prop :=
  match es with
  | [] => True
  | e :: es => uintn_val (fst e) = n /\ consecutive (n + 1) es
  end.

(** No pending id is stale, none is there twice. *)
Definition ob_inv (self : ordered_buffer) : Prop :=
  last_ok (ob_last_written_id self) /\
  Forall (fun e => uintn_ok (fst e) /\ ob_next self <= uintn_val (fst e)) (ob_pending self) /\
  NoDup (map (fun e => uintn_val (fst e)) (ob_pending self)).

(** An arrival that is neither stale nor already pending. *)
Definition ob_fresh (self : ordered_buffer) (id : uintn) : Prop :=
  uintn_ok id /\ ob_next self <= uintn_val id /\
  ~ In (uintn_val id) (map (fun e => uintn_val (fst e)) (ob_pending self)).

Lemma is_next_spec last_id id : last_ok last_id -> uintn_ok id ->
  is_next last_id id = bool_decide (uintn_val id = next_after last_id).
Proof.
  intros Hl Hi. destruct last_id as [l|]; simpl in *.
  - destruct (increment_spec l Hl) as [Ho Hv].
    rewrite eqb_spec_val by (apply Hi || apply Ho). rewrite Hv.
    destruct (Z.eqb_spec (uintn_val id) (uintn_val l + 1)); by case_bool_decide.
  - rewrite is_zero_spec. destruct (Z.eqb_spec (uintn_val id) 0); by case_bool_decide.
Qed.

Lemma ready_run_spec last_id pending ready last' cropped :
  last_ok last_id -> Forall (fun e => uintn_ok (fst e)) pending ->
  ready_run last_id pending = (ready, last', cropped) ->
  ready = take cropped pending /\ last_ok last' /\ cropped = length ready /\
  consecutive (next_after last_id) ready /\
  next_after last' = next_after last_id + zlen ready /\
  (cropped = 0%nat -> last' = last_id) /\
  match head (drop cropped pending) with
  | Some e => uintn_val (fst e) <> next_after last'
  | None => True
  end.
Proof.
  intros Hl Hp. revert last_id Hl ready last' cropped.
  induction Hp as [|[id data] rest Hid Hp IH]; intros last_id Hl ready last' cropped E;
    cbn [ready_run] in E.
  { injection E as <- <- <-. rewrite zlen_nil. simpl. split_and!; try done; lia. }
  rewrite is_next_spec in E by done. simpl in Hid. case_bool_decide as Hn.
  - destruct (ready_run (Some id) rest) as [[r l] c] eqn:Er. injection E as <- <- <-.
    destruct (IH (Some id) Hid _ _ _ Er) as (-> & Hl' & Hc & Hcons & Hnx & _ & Hh).
    cbn [next_after] in *. rewrite zlen_cons. simpl.
    rewrite Hn in *. split_and!; try done; lia.
  - injection E as <- <- <-. rewrite zlen_nil. simpl. split_and!; try done; lia.
Qed.

Lemma consecutive_ids n es : consecutive n es ->
  forall i e, es !! i = Some e -> uintn_val (fst e) = n + Z.of_nat i.
Proof.
  revert n. induction es as [|x es IH]; intros n Hc i e Hi; [done|].
  destruct Hc as [Hx Hc]. destruct i as [|i]; simpl in Hi.
  - injection Hi as <-. lia.
  - rewrite (IH (n + 1) Hc i e Hi). lia.
Qed.

Lemma consecutive_in n es e : consecutive n es -> In e es ->
  n <= uintn_val (fst e) < n + zlen es.
Proof.
  intros Hc Hin. apply list_elem_of_In, list_elem_of_lookup in Hin as [i Hi].
  pose proof (consecutive_ids _ _ Hc _ _ Hi). apply lookup_lt_Some in Hi. unfold zlen. lia.
Qed.

Lemma consecutive_at n es v : consecutive n es -> n <= v < n + zlen es ->
  exists e, In e es /\ uintn_val (fst e) = v.
Proof.
  intros Hc Hv. unfold zlen in Hv.
  destruct (lookup_lt_is_Some_2 es (Z.to_nat (v - n))) as [e He]; [lia|].
  exists e. split; [apply list_elem_of_In, list_elem_of_lookup; by eexists|].
  rewrite (consecutive_ids _ _ Hc _ _ He). lia.
Qed.

Lemma consecutive_app n es fs : consecutive n (es ++ fs) <->
  consecutive n es /\ consecutive (n + zlen es) fs.
Proof.
  revert n. induction es as [|e es IH]; intros n.
  - rewrite zlen_nil, Z.add_0_r. simpl. tauto.
  - rewrite zlen_cons. cbn [app consecutive]. rewrite IH.
    replace (n + 1 + zlen es) with (n + (1 + zlen es)) by lia. tauto.
Qed.

Lemma pending_perm self e : ob_inv self -> ob_fresh self (fst e) ->
  Forall (fun x => uintn_ok (fst x) /\ ob_next self <= uintn_val (fst x))
    (sort_unstable (ob_pending self ++ [e])) /\
  NoDup (map (fun x => uintn_val (fst x)) (sort_unstable (ob_pending self ++ [e]))) /\
  StronglySorted id_le (sort_unstable (ob_pending self ++ [e])).
Proof.
  intros (Hl & Hf & Hnd) (Hok & Hge & Hni).
  assert (Forall (fun x => uintn_ok (fst x) /\ ob_next self <= uintn_val (fst x))
    (ob_pending self ++ [e])) as Hall by (apply Forall_app; auto).
  split_and!.
  - by rewrite sort_perm.
  - rewrite (Permutation_map _ (sort_perm _)), map_app. apply NoDup_app. split_and!; [done| |].
    + intros x Hx. cbn [map]. rewrite list_elem_of_singleton. intros ->. apply Hni.
      by apply list_elem_of_In.
    + cbn [map]. apply NoDup_singleton.
  - apply sort_sorted. eapply Forall_impl; [exact Hall|]. by intros ? [[? _] _].
Qed.

(** Strictly above the head, once equal ids are excluded. *)
Lemma above_head n e l : StronglySorted id_le (e :: l) ->
  n <= uintn_val (fst e) -> uintn_val (fst e) <> n -> Forall (fun x => n < uintn_val (fst x)) (e :: l).
Proof.
  intros Hs Hge Hne. apply StronglySorted_inv in Hs as [_ Hs]. constructor; [lia|].
  eapply Forall_impl; [exact Hs|]. unfold id_le. intros; lia.
Qed.

Lemma consecutive_bound n r h t : consecutive n r ->
  StronglySorted id_le (r ++ h :: t) ->
  NoDup (map (fun x => uintn_val (fst x)) (r ++ h :: t)) ->
  n <= uintn_val (fst h) -> n + zlen r <= uintn_val (fst h).
Proof.
  revert n. induction r as [|x r IH]; intros n Hc Hs Hnd Hn; [rewrite zlen_nil; lia|].
  destruct Hc as [Hx Hc]. rewrite <- app_comm_cons in Hs, Hnd. cbn [map] in Hnd.
  apply NoDup_cons in Hnd as [Hni Hnd]. apply StronglySorted_inv in Hs as [Hs Hle].
  rewrite zlen_cons. enough (n + 1 + zlen r <= uintn_val (fst h)) by lia.
  apply IH; [done..|]. enough (uintn_val (fst h) <> n) by lia. intros E. apply Hni.
  rewrite map_app. apply list_elem_of_In, in_or_app. right. simpl. left. lia.
Qed.

(** What a wait releases: the longest run of consecutive ids; the rest waits
    behind a gap, and nothing is lost. *)
Lemma wait_for_order_spec self e ready self' : ob_inv self -> ob_fresh self (fst e) ->
  ob_wait_for_order self e = (ready, self') ->
  ready ++ ob_pending self' ≡ₚ e :: ob_pending self /\
  consecutive (ob_next self) ready /\
  ob_next self' = ob_next self + zlen ready /\
  Forall (fun x => ob_next self' < uintn_val (fst x)) (ob_pending self') /\
  ob_inv self'.
Proof.
  intros Hinv Hfr. destruct (pending_perm self e Hinv Hfr) as (Hp & Hnd & Hs).
  unfold ob_wait_for_order. pose proof (sort_perm (ob_pending self ++ [e])) as Hperm.
  set (p := sort_unstable _) in *. destruct (ready_run _ p) as [[r l] c] eqn:Er.
  intros E. injection E as <- <-. destruct Hinv as (Hl & _).
  apply ready_run_spec in Er as (Hr & Hl' & Hc & Hcons & Hnx & Hz & Hh); [|done|].
  2:{ eapply Forall_impl; [exact Hp|]. by intros ? [? _]. }
  assert ((if decide (0 < c)%nat then {| ob_pending := drop c p; ob_last_written_id := l;
      ob_queue_id := ob_queue_id self |}
    else {| ob_pending := p; ob_last_written_id := ob_last_written_id self;
      ob_queue_id := ob_queue_id self |}) =
    {| ob_pending := drop c p; ob_last_written_id := l; ob_queue_id := ob_queue_id self |}) as ->.
  { case_decide; [done|]. assert (c = 0%nat) as -> by lia. by rewrite Hz. }
  cbn [ob_pending]. unfold ob_next in *. cbn [ob_last_written_id].
  assert (r ++ drop c p = p) as Hrp by (rewrite Hr at 1; apply take_drop).
  assert (Forall (fun x => next_after l < uintn_val (fst x)) (drop c p)) as Hgap.
  { destruct (drop c p) as [|h t] eqn:Ed; [constructor|]. simpl in Hh. rewrite <- Hrp in Hs, Hnd.
    apply above_head; [|by rewrite Hnx; eapply consecutive_bound;
      [done..|rewrite <- Hrp in Hp; apply Forall_app in Hp as [_ Hp];
       apply Forall_cons in Hp as [[_ ?] _]]|done].
    by eapply StronglySorted_app_1_r. }
  split_and!; try done.
  - rewrite Hrp, Hperm. by rewrite Permutation_app_comm.
  - unfold ob_inv, ob_next. cbn [ob_pending ob_last_written_id]. split_and!; [done| |].
    + apply Forall_drop with (n := c) in Hp. rewrite Forall_forall in *.
      intros x Hx. split; [by apply Hp|]. specialize (Hgap x Hx). lia.
    + rewrite <- Hrp, map_app in Hnd. by apply NoDup_app in Hnd as (_ & _ & ?).
Qed.

Lemma can_write_spec self id self' b : ob_inv self -> ob_fresh self id ->
  ob_can_write self id = (b, self') ->
  b = bool_decide (uintn_val id = ob_next self) /\ ob_pending self' = ob_pending self /\
  ob_next self' = ob_next self + (if b then 1 else 0) /\ (b = false -> self' = self) /\
  ob_inv self'.
Proof.
  intros Hinv (Hok & Hge & Hni). unfold ob_can_write, ob_check_can_write.
  rewrite is_next_spec by (apply Hinv || done). fold (ob_next self).
  case_bool_decide as Hn; intros [= <- <-].
  2:{ split_and!; try done. lia. }
  unfold ob_inv, ob_next in *. cbn [ob_pending ob_last_written_id next_after].
  destruct Hinv as (Hl & Hf & Hnd). split_and!; try done; [lia|].
  rewrite Forall_forall in *. intros x Hx. destruct (Hf x Hx) as [? Hle]. split; [done|].
  assert (uintn_val (fst x) <> uintn_val id); [|lia].
  intros E. apply Hni. rewrite <- E. apply (in_map (fun e => uintn_val (fst e))).
  by apply list_elem_of_In.
Qed.

End Buffer.

Section Claims.
Context {U : UBig} {S : UnstableSort}.

(** C27: an entry that has to wait, with an id neither written nor waiting
    already, releases exactly the run of consecutive ids that is now complete;
    nothing is lost or doubled, and every id still waiting lies beyond a gap,
    so the run could not be longer. *)
Theorem wait_for_order_longest_run self e ready self' :
  ob_inv self -> ob_fresh self (fst e) -> ob_wait_for_order self e = (ready, self') ->
  ready ++ ob_pending self' ≡ₚ e :: ob_pending self /\
  consecutive (ob_next self) ready /\
  ob_next self' = ob_next self + zlen ready /\
  Forall (fun x => ob_next self' < uintn_val (fst x)) (ob_pending self') /\
  ob_inv self'.
Proof. apply wait_for_order_spec. Qed.

End Claims.

Lemma wait_for_order_longest_run_witness :
  let q := {| qid_path := [] |} in
  let b := {| ob_pending := [(U8 7, []); (U8 5, [Byte.x61])]; ob_last_written_id := Some (U8 3);
              ob_queue_id := q |} in
  let r := ob_wait_for_order b (U8 4, [Byte.x62]) in
  map fst (fst r) = [U8 4; U8 5] /\ consecutive 4 (fst r) /\
  Forall (fun x => 6 < uintn_val (fst x)) (ob_pending (snd r)).
Proof.
  intros q b r. destruct (wait_for_order_longest_run b (U8 4, [Byte.x62]) (fst r) (snd r))
    as (_ & Hc & _ & Hf & _).
  - split_and!; [done|repeat constructor; vm_compute; intuition discriminate|].
    apply NoDup_ListNoDup. repeat constructor; cbn; intuition discriminate.
  - split_and!; [done|vm_compute; discriminate|vm_compute; intuition discriminate].
  - reflexivity.
  - split; [reflexivity|]. split; [exact Hc|exact Hf].
Defined.
