(* ===== verification/AckWriter.v ===== *)
(** * The acknowledged file writer ([normfs-wal/src/ack_file_writer.rs])

    Entries are appended to a memory buffer; a background task takes the
    buffer, writes it to the file (with retries and an optional fsync) and then
    acknowledges the last entry of the block.  Entries may be appended while a
    block is being written.  The task is modelled by its atomic steps (taking
    the block, one attempt), so that every interleaving with the writers is an
    event sequence. *)
From Stdlib Require Import ZArith Lia List Bool.
From stdpp Require Import base option list.
From S2P Require Import Prelude UBig UintN UintNFacts Types.
#[local] Open Scope Z_scope.

Definition max_retries : nat := 1000.

(** [struct AckFileWriterSettings], less the interval of the timer. *)
Record afw_settings := {
  max_buffer_size : Z;
  max_file_size : Z;
  fsync : bool;
}.

Definition afw_settings_default : afw_settings :=
  {| max_buffer_size := 128 * 1024 * 1024; max_file_size := 128 * 1024 * 1024; fsync := true |}.

(** What one attempt to write a block meets: [write_all] fails after [k] bytes
    reached the file, [sync_all] fails, or both succeed. *)
Inductive attempt :=
| WriteFails (k : nat)
| SyncFails
| Succeeds.

Section Writer.
Context {B : Build} {U : UBig}.

Definition ack : Type := queue_id * uintn.

(** A block taken from the buffer and not yet done with. *)
Record inflight := {
  if_data : bytes;
  if_acks : list ack;
  if_tries : nat;
}.

(** [AckFileWriter], its [WriterState], the block of the task and the world it
    writes to: the file's bytes, how many of them are on stable storage, the
    acknowledgements sent. *)
Record afw := {
  afw_set : afw_settings;
  afw_buffer : bytes;
  afw_acks : list ack;
  afw_current_size : Z;
  afw_notified : bool;
  afw_inflight : option inflight;
  afw_file : bytes;
  afw_synced : nat;
  afw_sent : list ack;
  afw_running : bool;
}.

(** [AckFileWriter::new], once the file is created. *)
Definition afw_new (settings : afw_settings) (header : bytes) : afw :=
  {| afw_set := settings; afw_buffer := []; afw_acks := []; afw_current_size := zlen header;
     afw_notified := false; afw_inflight := None; afw_file := header; afw_synced := 0;
     afw_sent := []; afw_running := true |}.

Definition afw_can_add {E} (self : afw) (size : Z) : outcome E bool :=
  s ← arith 64 (afw_current_size self + size);
  Ok (s <=? max_file_size (afw_set self)).

Definition afw_write {E} (self : afw) (q : queue_id) (entry_id : uintn) (entry : bytes)
    : outcome E afw :=
  let buffer := afw_buffer self ++ entry in
  size ← arith 64 (afw_current_size self + zlen entry);
  Ok {| afw_set := afw_set self; afw_buffer := buffer;
        afw_acks := afw_acks self ++ [(q, entry_id)];
        afw_current_size := size;
        afw_notified := afw_notified self || (max_buffer_size (afw_set self) <=? zlen buffer);
        afw_inflight := afw_inflight self; afw_file := afw_file self;
        afw_synced := afw_synced self; afw_sent := afw_sent self;
        afw_running := afw_running self |}.

(** *** [flush_buffer], step by step *)

Definition set_flush (self : afw) (buffer : bytes) (acks : list ack) (infl : option inflight)
    (file : bytes) (synced : nat) (sent : list ack) : afw :=
  {| afw_set := afw_set self; afw_buffer := buffer; afw_acks := acks;
     afw_current_size := afw_current_size self; afw_notified := afw_notified self;
     afw_inflight := infl; afw_file := file; afw_synced := synced; afw_sent := sent;
     afw_running := afw_running self |}.

(** The first lock: take the buffer, keep the last acknowledgement. *)
Definition flush_take (self : afw) : afw :=
  if decide (afw_buffer self = []) then self
  else
    let acks_to_send := match last (afw_acks self) with Some a => [a] | None => [] end in
    set_flush self [] []
      (Some {| if_data := afw_buffer self; if_acks := acks_to_send; if_tries := 0 |})
      (afw_file self) (afw_synced self) (afw_sent self).

(** The end of the function: acknowledge, or put the block back. *)
Definition flush_success (self : afw) (b : inflight) : afw :=
  set_flush self (afw_buffer self) (afw_acks self) None (afw_file self) (afw_synced self)
    (afw_sent self ++ if_acks b).

Definition flush_give_back (self : afw) (b : inflight) : afw :=
  set_flush self (if_data b ++ afw_buffer self) (if_acks b ++ afw_acks self) None
    (afw_file self) (afw_synced self) (afw_sent self).

(** One pass of the retry loop. *)
Definition flush_attempt (self : afw) (b : inflight) (a : attempt) : afw :=
  let written (k : nat) (sync : bool) :=
    let file := afw_file self ++ take k (if_data b) in
    set_flush self (afw_buffer self) (afw_acks self) (afw_inflight self) file
      (if sync then length file else afw_synced self) (afw_sent self) in
  let retry (w : afw) :=
    let b' := {| if_data := if_data b; if_acks := if_acks b; if_tries := S (if_tries b) |} in
    if decide (S (if_tries b) < max_retries)%nat
    then set_flush w (afw_buffer w) (afw_acks w) (Some b') (afw_file w) (afw_synced w) (afw_sent w)
    else flush_give_back w b' in
  match a with
  | WriteFails k => retry (written k false)
  | SyncFails =>
      if fsync (afw_set self) then retry (written (length (if_data b)) false)
      else flush_success (written (length (if_data b)) false) b
  | Succeeds => flush_success (written (length (if_data b)) (fsync (afw_set self))) b
  end.

(** A whole [flush_buffer] with no write in between; [script] says what the
    attempts meet, and succeeds once it is used up. *)
Fixpoint flush_loop (fuel : nat) (script : list attempt) (self : afw) : list attempt * afw :=
  match fuel, afw_inflight self with
  | S fuel, Some b =>
      match script with
      | [] => flush_loop fuel [] (flush_attempt self b Succeeds)
      | a :: script => flush_loop fuel script (flush_attempt self b a)
      end
  | _, _ => (script, self)
  end.

Definition flush_buffer (script : list attempt) (self : afw) : list attempt * afw :=
  flush_loop max_retries script (flush_take self).

(** [AckFileWriter::close]: the task ends the flush it is in, flushes once more
    and stops. *)
Definition afw_close (script : list attempt) (self : afw) : list attempt * afw :=
  let '(script, self) := flush_loop max_retries script self in
  let '(script, self) := flush_buffer script self in
  (script,
   {| afw_set := afw_set self; afw_buffer := afw_buffer self; afw_acks := afw_acks self;
      afw_current_size := afw_current_size self; afw_notified := afw_notified self;
      afw_inflight := afw_inflight self; afw_file := afw_file self;
      afw_synced := afw_synced self; afw_sent := afw_sent self; afw_running := false |}).

(** ** Interleavings *)

Inductive afw_event :=
| EvWrite (q : queue_id) (id : uintn) (entry : bytes)
| EvTake
| EvAttempt (a : attempt).

(** An event of the writers or of the running task ([None]: not enabled). *)
Definition afw_exec (self : afw) (ev : afw_event) : option afw :=
  match ev with
  | EvWrite q id entry =>
      if bool_decide (entry = []) then None else ok_opt (E := unit) (afw_write self q id entry)
  | EvTake =>
      match afw_inflight self with
      | None => if afw_running self then Some (flush_take self) else None
      | Some _ => None
      end
  | EvAttempt a =>
      match afw_inflight self with
      | Some b => Some (flush_attempt self b a)
      | None => None
      end
  end.

Fixpoint afw_run (self : afw) (evs : list afw_event) : option afw :=
  match evs with
  | [] => Some self
  | ev :: evs => match afw_exec self ev with Some s => afw_run s evs | None => None end
  end.

(** The entries written, in order. *)
Definition ev_entry (ev : afw_event) : option (ack * bytes) :=
  match ev with EvWrite q id entry => Some ((q, id), entry) | _ => None end.
Definition written (evs : list afw_event) : list (ack * bytes) := omap ev_entry evs.

(** ** Theory *)

Definition blocks (l : list (ack * bytes)) : bytes := concat (map snd l).

Lemma blocks_app l k : blocks (l ++ k) = blocks l ++ blocks k.
Proof. unfold blocks. by rewrite map_app, concat_app. Qed.

Lemma blocks_nonempty l : Forall (fun x => snd x <> []) l -> blocks l = [] -> l = [].
Proof.
  intros Hl. destruct Hl as [|x l Hx _]; [done|]. unfold blocks. cbn [map concat].
  intros E. by apply app_eq_nil in E as [? _].
Qed.

(** The bytes of an entry are somewhere in the first [n] bytes of a file. *)
Definition in_file (n : nat) (file entry : bytes) : Prop :=
  exists p s, take n file = p ++ entry ++ s.

Lemma in_file_grow n m file more e : (n <= m)%nat -> (n <= length file)%nat ->
  in_file n file e -> in_file m (file ++ more) e.
Proof.
  intros Hnm Hn (p & s & E). exists p, (s ++ drop n (take m (file ++ more))).
  rewrite (app_assoc e), (app_assoc p), <- E.
  transitivity (take n (take m (file ++ more)) ++ drop n (take m (file ++ more))).
  - by rewrite take_drop.
  - f_equal. rewrite take_take, Nat.min_l by done. by rewrite take_app_le.
Qed.

Lemma in_file_block file more l x : In x l ->
  in_file (length (file ++ blocks l)) ((file ++ blocks l) ++ more) (snd x).
Proof.
  intros Hx. apply in_split in Hx as (l1 & l2 & ->).
  exists (file ++ blocks l1), (blocks l2).
  rewrite take_app_length, blocks_app. unfold blocks. cbn [map concat].
  by rewrite <- !app_assoc.
Qed.

(** The last acknowledgement of a list of entries. *)
Definition last_ack (l : list (ack * bytes)) : option ack := option_map fst (last l).

Definition ack_list (o : option ack) : list ack :=
  match o with Some a => [a] | None => [] end.

Lemma last_ack_app l k : last_ack (l ++ k) =
  match last_ack k with Some a => Some a | None => last_ack l end.
Proof. unfold last_ack. rewrite last_app. by destruct (last k). Qed.

Lemma last_ack_in l a : last_ack l = Some a -> In a (map fst l).
Proof.
  unfold last_ack. destruct (last l) as [x|] eqn:E; [|done]. intros [= <-].
  apply last_Some in E as [l' ->]. rewrite map_app. apply in_or_app. right. by left.
Qed.

(** The entries are done (durable), in the block being written or in the
    buffer, in this order; acknowledged ones are done. *)
Record afw_inv (log : list (ack * bytes)) (self : afw) : Prop := {
  inv_fsync : fsync (afw_set self) = true;
  inv_synced : (afw_synced self <= length (afw_file self))%nat;
  inv_split : exists done infl buf,
    log = done ++ infl ++ buf /\
    Forall (fun x => snd x <> []) (infl ++ buf) /\
    match afw_inflight self with
    | None => infl = []
    | Some b => infl <> [] /\ if_data b = blocks infl /\ if_acks b = ack_list (last_ack infl)
    end /\
    afw_buffer self = blocks buf /\ last (afw_acks self) = last_ack buf /\
    Forall (fun x => in_file (afw_synced self) (afw_file self) (snd x)) done /\
    Forall (fun a => In a (map fst done)) (afw_sent self) /\
    last (afw_sent self) = last_ack done;
}.

Lemma afw_new_inv settings header : fsync settings = true ->
  afw_inv [] (afw_new settings header).
Proof.
  intros Hf. split; [done|simpl; lia|]. exists [], [], []. split_and!; constructor || done.
Qed.

Lemma inv_write log self q id entry self' : entry <> [] ->
  afw_inv log self -> afw_write (E := unit) self q id entry = Ok self' ->
  afw_inv (log ++ [((q, id), entry)]) self'.
Proof.
  intros Hne [Hf Hs (d & i & b & -> & Hn & Hi & Hb & Ha & Hd & Hack & Hlast)].
  unfold afw_write. destruct (arith _ _) as [size| |]; [|done..]. intros [= <-].
  split; [done..|]. exists d, i, (b ++ [((q, id), entry)]). cbn -[blocks last].
  split_and!; try done.
  - by rewrite <- !app_assoc.
  - rewrite app_assoc. apply Forall_app. split; [done|]. by repeat constructor.
  - rewrite Hb, blocks_app. unfold blocks. simpl. by rewrite app_nil_r.
  - by rewrite last_snoc, last_ack_app.
Qed.

Lemma inv_take log self : afw_inflight self = None -> afw_inv log self ->
  afw_inv log (flush_take self).
Proof.
  intros Hno [Hf Hs (d & i & b & -> & Hn & Hi & Hb & Ha & Hd & Hack & Hlast)].
  unfold flush_take. case_decide as He; [by split; [..|exists d, i, b; split_and!]|].
  rewrite Hno in Hi. subst i. split; [done..|]. exists d, b, []. cbn -[blocks last].
  split_and!; try done.
  - by rewrite app_nil_r.
  - by rewrite app_nil_r.
  - by intros ->.
  - rewrite Ha. done.
Qed.

(** Appending to the file keeps what is durable. *)
Lemma durable_grow self n more l : (afw_synced self <= length (afw_file self))%nat ->
  (afw_synced self <= n)%nat ->
  Forall (fun x => in_file (afw_synced self) (afw_file self) (snd x)) l ->
  Forall (fun x : ack * bytes => in_file n (afw_file self ++ more) (snd x)) l.
Proof. intros ? ? H. eapply Forall_impl; [exact H|]. intros x. by apply in_file_grow. Qed.

Lemma inv_success log self b : afw_inflight self = Some b -> afw_inv log self ->
  afw_inv log (flush_attempt self b Succeeds).
Proof.
  intros Hb' [Hf Hs (d & i & b0 & -> & Hn & Hi & Hb & Ha & Hd & Hack & Hlast)].
  rewrite Hb' in Hi. destruct Hi as (Hne & Hdata & Hacks).
  unfold flush_attempt, flush_success. rewrite firstn_all, Hf.
  split; [done|cbn; lia|]. exists (d ++ i), [], b0. cbn -[blocks last].
  rewrite Hdata. split_and!; try done.
  - by rewrite <- app_assoc.
  - by apply Forall_app in Hn as [_ ?].
  - apply Forall_app. split.
    + apply durable_grow; [done| |done]. rewrite length_app. lia.
    + apply Forall_forall. intros x Hx%list_elem_of_In.
      pose proof (in_file_block (afw_file self) [] i x Hx) as H. by rewrite app_nil_r in H.
  - rewrite map_app. apply Forall_app. split.
    + eapply Forall_impl; [exact Hack|]. intros a ?. apply in_or_app. by left.
    + rewrite Hacks. destruct (last_ack i) as [a|] eqn:E; constructor; [|done].
      apply in_or_app. right. by apply last_ack_in.
  - rewrite Hacks, last_ack_app, last_app, Hlast. by destruct (last_ack i).
Qed.

Lemma inv_retry log self b k : afw_inflight self = Some b -> afw_inv log self ->
  afw_inv log (flush_attempt self b (WriteFails k)).
Proof.
  intros Hb' [Hf Hs (d & i & b0 & -> & Hn & Hi & Hb & Ha & Hd & Hack & Hlast)].
  rewrite Hb' in Hi. destruct Hi as (Hne & Hdata & Hacks).
  assert (afw_synced self <= length (afw_file self ++ take k (if_data b)))%nat
    by (rewrite length_app; lia).
  unfold flush_attempt. cbn zeta. case_decide.
  - split; [done|done|]. exists d, i, b0. cbn -[blocks last]. split_and!; try done.
    by apply durable_grow.
  - split; [done|done|]. exists d, [], (i ++ b0). cbn -[blocks last]. split_and!; try done.
    + by rewrite Hdata, Hb, blocks_app.
    + rewrite Hacks, last_ack_app, last_app, Ha.
      destruct (last_ack b0); [done|]. by destruct (last_ack i).
    + by apply durable_grow.
Qed.

Lemma inv_sync_fails log self b : afw_inflight self = Some b -> afw_inv log self ->
  afw_inv log (flush_attempt self b SyncFails).
Proof.
  intros Hb Hinv. pose proof (inv_retry log self b (length (if_data b)) Hb Hinv) as H.
  unfold flush_attempt in *. by rewrite (inv_fsync _ _ Hinv).
Qed.

(** Every interleaving keeps the invariant. *)
Lemma inv_exec log self ev self' : afw_inv log self -> afw_exec self ev = Some self' ->
  afw_inv (log ++ written [ev]) self'.
Proof.
  intros Hinv. destruct ev as [q id entry| |a]; simpl.
  - case_bool_decide as He; [done|].
    destruct (afw_write self q id entry) as [s| |] eqn:E; [|done..]. intros [= <-].
    by eapply inv_write.
  - rewrite app_nil_r. destruct (afw_inflight self) eqn:Hi; [done|].
    destruct (afw_running self); [|done]. intros [= <-]. by apply inv_take.
  - rewrite app_nil_r. destruct (afw_inflight self) as [b|] eqn:Hi; [|done].
    intros [= <-]. destruct a; by eauto using inv_success, inv_retry, inv_sync_fails.
Qed.

Lemma inv_run evs log self self' : afw_inv log self -> afw_run self evs = Some self' ->
  afw_inv (log ++ written evs) self'.
Proof.
  revert log self. induction evs as [|ev evs IH]; intros log self Hinv;
    cbn [afw_run].
  - intros [= <-]. by rewrite app_nil_r.
  - destruct (afw_exec self ev) as [s|] eqn:E; [|done]. intros Hr.
    apply (inv_exec log) in E; [|done].
    replace (log ++ written (ev :: evs)) with ((log ++ written [ev]) ++ written evs);
      [by eapply IH|].
    rewrite <- app_assoc. unfold written. simpl. by destruct (ev_entry ev).
Qed.

(** An acknowledged entry is durable, and so is every entry written before. *)
Lemma acked_durable log self a : afw_inv log self -> In a (afw_sent self) ->
  exists pre x post, log = pre ++ x :: post /\ fst x = a /\
    Forall (fun x => in_file (afw_synced self) (afw_file self) (snd x)) (pre ++ [x]).
Proof.
  intros [_ _ (d & i & b & -> & _ & _ & _ & _ & Hd & Hack & Hlast)] Ha.
  rewrite Forall_forall in Hack. apply list_elem_of_In, Hack, in_map_iff in Ha as (x & Hx & Hin).
  apply in_split in Hin as (pre & post & ->). exists pre, x, (post ++ i ++ b).
  split_and!; [by rewrite <- app_assoc|done|].
  rewrite cons_middle, app_assoc in Hd. by apply Forall_app in Hd as [? _].
Qed.

(** *** Without I/O errors the file is exactly the log *)

Definition reliable (ev : afw_event) : Prop :=
  match ev with EvAttempt a => a = Succeeds | _ => True end.

(** The bytes of the block being written. *)
Definition pending_block (self : afw) : bytes :=
  match afw_inflight self with Some b => if_data b | None => [] end.

Record afw_exact (header : bytes) (log : list (ack * bytes)) (self : afw) : Prop := {
  ex_inv : afw_inv log self;
  ex_bytes : afw_file self ++ pending_block self ++ afw_buffer self = header ++ blocks log;
  ex_done : exists done rest, log = done ++ rest /\
    afw_file self = header ++ blocks done /\
    (afw_synced self = length (afw_file self) \/ done = []) /\
    Forall (fun a => In a (map fst done)) (afw_sent self);
}.

Lemma exact_new settings header : fsync settings = true ->
  afw_exact header [] (afw_new settings header).
Proof.
  intros Hf. split; [by apply afw_new_inv|done|]. exists [], []. split_and!; try done.
  - unfold blocks. simpl. by rewrite app_nil_r.
  - by right.
Qed.

Lemma exact_exec header log self ev self' : reliable ev ->
  afw_exact header log self -> afw_exec self ev = Some self' ->
  afw_exact header (log ++ written [ev]) self'.
Proof.
  intros Hrel [Hinv Hb Hd] He. pose proof (inv_exec log self ev self' Hinv He) as Hinv'.
  destruct Hd as (d & r & Hl & Hf & Hs & Ha). split; [done| |].
  all: destruct ev as [q id entry| |a]; simpl in He; cbn -[blocks]; rewrite ?app_nil_r.
  - case_bool_decide; [done|]. unfold afw_write in He.
    destruct (arith _ _) as [size| |]; [|done..]. injection He as <-.
    unfold pending_block in *. cbn -[blocks] in *. rewrite blocks_app, (app_assoc header).
    rewrite <- Hb. unfold blocks. simpl. by rewrite app_nil_r, <- !app_assoc.
  - destruct (afw_inflight self) eqn:Hi; [done|]. destruct (afw_running self); [|done].
    injection He as <-. unfold flush_take, pending_block in *. rewrite Hi in Hb.
    case_decide; [by rewrite Hi|]. cbn -[blocks]. by rewrite app_nil_r.
  - destruct (afw_inflight self) as [b|] eqn:Hi; [|done]. injection He as <-.
    simpl in Hrel. subst a. unfold pending_block in *. rewrite Hi in Hb.
    unfold flush_attempt, flush_success. cbn -[blocks]. rewrite firstn_all, <- Hb.
    by rewrite <- app_assoc.
  - case_bool_decide; [done|]. unfold afw_write in He.
    destruct (arith _ _) as [size| |]; [|done..]. injection He as <-.
    exists d, (r ++ [((q, id), entry)]). cbn -[blocks]. rewrite Hl, <- app_assoc. done.
  - destruct (afw_inflight self) eqn:Hi; [done|]. destruct (afw_running self); [|done].
    injection He as <-. exists d, r. unfold flush_take. by case_decide.
  - destruct (afw_inflight self) as [b|] eqn:Hi; [|done]. injection He as <-.
    simpl in Hrel. subst a. destruct (inv_split _ _ Hinv')
      as (d' & i' & b' & Hl' & Hn & Hi' & Hb' & _ & _ & Ha' & _). cbn -[blocks] in *.
    rewrite app_nil_r in Hl'. subst i'. exists d', b'. split_and!; try done.
    + unfold pending_block in Hb. rewrite Hi, Hl', blocks_app in Hb.
      simpl in Hb. rewrite Hb', !app_assoc in Hb. rewrite firstn_all. by apply app_inv_tail in Hb.
    + left. by rewrite (inv_fsync _ _ Hinv).
Qed.

Lemma exact_run header evs log self self' : Forall reliable evs ->
  afw_exact header log self -> afw_run self evs = Some self' ->
  afw_exact header (log ++ written evs) self'.
Proof.
  intros Hr. revert log self. induction Hr as [|ev evs Hev Hr IH]; intros log self Hx;
    cbn [afw_run].
  - intros [= <-]. by rewrite app_nil_r.
  - destruct (afw_exec self ev) as [s|] eqn:E; [|done]. intros Hrun.
    apply (exact_exec header log) in E; [|done..].
    replace (log ++ written (ev :: evs)) with ((log ++ written [ev]) ++ written evs);
      [by eapply IH|].
    rewrite <- app_assoc. unfold written. simpl. by destruct (ev_entry ev).
Qed.

(** What a crash can leave: the first [m] bytes of what was handed to the
    system, at least what was synced. *)
Definition crash_image (self : afw) (image : bytes) : Prop :=
  exists m, (afw_synced self <= m)%nat /\
    image = take m (afw_file self ++ pending_block self).

Lemma crash_prefix header log self image : afw_exact header log self ->
  crash_image self image ->
  exists m, image = take m (header ++ blocks log) /\
    forall a, In a (afw_sent self) -> exists pre x post,
      log = pre ++ x :: post /\ fst x = a /\ (length (header ++ blocks (pre ++ [x])) <= m)%nat.
Proof.
  intros [_ Hb (d & r & -> & Hf & Hs & Ha)] (m & Hm & ->).
  set (c := afw_file self ++ pending_block self).
  exists (Nat.min m (length c)). split.
  - rewrite <- Hb, app_assoc. fold c. rewrite take_app_le by lia.
    destruct (decide (m <= length c)%nat); [by rewrite Nat.min_l by lia|].
    by rewrite Nat.min_r, !take_ge by lia.
  - intros a Hin. rewrite Forall_forall in Ha.
    apply list_elem_of_In, Ha, in_map_iff in Hin as (x & Hx & Hin).
    apply in_split in Hin as (pre & post & ->). exists pre, x, (post ++ r).
    split_and!; [by rewrite <- app_assoc|done|].
    destruct Hs as [Hs|Hs]; [|by destruct pre].
    assert (length (header ++ blocks (pre ++ [x])) <= length (afw_file self))%nat.
    { rewrite Hf. replace (pre ++ x :: post) with ((pre ++ [x]) ++ post)
        by (by rewrite <- app_assoc).
      rewrite (blocks_app (pre ++ [x])), (app_assoc header), (length_app (header ++ _)). lia. }
    assert (length (afw_file self) <= length c)%nat by (subst c; rewrite length_app; lia).
    lia.
Qed.

End Writer.

Section Claims.
Context {U : UBig} {B : Build}.

(** C11: with fsync on, whatever the disk does (writes that fail part way, failed
    syncs, retries, blocks given back) and however the appends interleave with
    the background task: when an entry is acknowledged, the bytes of it and of
    every entry written before it are on stable storage. *)
Theorem acknowledged_is_durable settings header evs self a :
  fsync settings = true -> afw_run (afw_new settings header) evs = Some self ->
  In a (afw_sent self) ->
  exists pre x post, written evs = pre ++ x :: post /\ fst x = a /\
    Forall (fun x => exists p s, take (afw_synced self) (afw_file self) = p ++ snd x ++ s)
      (pre ++ [x]).
Proof.
  intros Hf Hr Ha. apply (acked_durable (written evs) self a); [|done].
  apply (inv_run evs [] (afw_new settings header)); [by apply afw_new_inv|done].
Qed.

End Claims.

(** A run with faults. *)
Definition demo_q : queue_id := {| qid_path := [] |}.
Definition faulty_events : list afw_event :=
  [EvWrite demo_q (U8 0) [Byte.x61]; EvTake; EvWrite demo_q (U8 1) [Byte.x62; Byte.x63];
   EvAttempt (WriteFails 0); EvAttempt SyncFails; EvAttempt Succeeds; EvTake;
   EvAttempt (WriteFails 1)].
Lemma acknowledged_is_durable_witness :
  match afw_run (B := checked_build) (afw_new afw_settings_default [Byte.xff]) faulty_events with
  | Some self =>
      exists pre x post, written faulty_events = pre ++ x :: post /\ fst x = (demo_q, U8 0) /\
        Forall (fun x => exists p s, take (afw_synced self) (afw_file self) = p ++ snd x ++ s)
          (pre ++ [x])
  | None => False
  end.
Proof.
  assert (match afw_run (B := checked_build) (afw_new afw_settings_default [Byte.xff])
                  faulty_events with
          | Some self => Some (afw_sent self) | None => None end = Some [(demo_q, U8 0)]) as Hs
    by vm_eq.
  destruct (afw_run (afw_new afw_settings_default [Byte.xff]) faulty_events) as [self|] eqn:E;
    [|discriminate Hs].
  apply (acknowledged_is_durable (B := checked_build) afw_settings_default [Byte.xff]
    faulty_events self (demo_q, U8 0) eq_refl E).
  injection Hs as ->. left. reflexivity.
Defined.
