(* ===== verification/WalWriter.v ===== *)
(** * The WAL writer ([normfs-wal/src/writer.rs], writing side of [lib.rs])

    One task per queue: it puts the entries in order, rotates the file when the
    entry does not fit, and hands the encoded entries to the acknowledged file
    writer.  The state carries the world it acts on (files, notifications) and
    the faults it will meet. *)
From Stdlib Require Import ZArith Lia List Bool Permutation.
From Stdlib Require Import Ascii String.
From stdpp Require Import base option list.
From S2P Require Import Prelude UBig UintN UintNFacts Paths Types WalFormat WalReader OrderedBuffer.
From S2P Require Import AckWriter.
#[local] Open Scope Z_scope.

(** [struct WalSettings] *)
Record wal_settings := {
  ws_max_file_size : Z;
  ws_write_buffer_size : Z;
  ws_enable_fsync : bool;
  ws_encryption_type : encryption_type;
  ws_compression_type : compression_type;
}.

Definition wal_settings_default : wal_settings :=
  {| ws_max_file_size := 128 * 1024 * 1024; ws_write_buffer_size := 128 * 1024 * 1024;
     ws_enable_fsync := true; ws_encryption_type := EncAes; ws_compression_type := CompZstd |}.

Section WalWriter.
Context {B : Build} {U : UBig} {X : Hasher} {S : UnstableSort}.

(** [struct WalFile], the message that a file is complete. *)
Record wal_complete := {
  wc_queue_id : queue_id;
  wc_file_id : uintn;
  wc_encryption_type : encryption_type;
  wc_compression_type : compression_type;
}.

(** [struct WriterState].  The world: the files closed so far, the path of the
    open one, the completion messages sent, the acknowledgements of the closed
    files; [wr_create] and [wr_io] are the results of the next file creations
    and write attempts (success once they are used up). *)
Record writer_state := {
  wr_queue_path : str;
  wr_queue_id : queue_id;
  wr_file_id : uintn;
  wr_header : wal_header;
  wr_settings : wal_settings;
  wr_file_writer : afw;
  wr_has_written : bool;
  wr_buffer : ordered_buffer;
  wr_open_path : str;
  wr_disk : list (str * bytes);
  wr_completed : list wal_complete;
  wr_acked : list ack;
  wr_create : list bool;
  wr_io : list attempt;
}.

Definition settings_of (settings : wal_settings) : afw_settings :=
  {| max_buffer_size := ws_write_buffer_size settings;
     max_file_size := ws_max_file_size settings;
     fsync := ws_enable_fsync settings |}.

(** [new_file_writer], given the result of creating the file. *)
Definition new_file_writer (created : bool) (header : wal_header) (settings : wal_settings)
    : outcome wal_error afw :=
  if created then
    let '(header_buf, _) := wal_header_write_to_bytes header [] in
    Ok (afw_new (settings_of settings) header_buf)
  else Err WIoError.

(** [WalWriter::new] *)
Definition wal_writer_new (q : queue_id) (root : str) (file_id : uintn) (header : wal_header)
    (settings : wal_settings) (last_entry_id : option uintn)
    (create : list bool) (io : list attempt) : outcome wal_error writer_state :=
  let queue_fs_path := queue_to_wal_dir q root in
  file_writer ← new_file_writer (default true (head create)) header settings;
  Ok {| wr_queue_path := queue_fs_path; wr_queue_id := q; wr_file_id := file_id;
        wr_header := header; wr_settings := settings; wr_file_writer := file_writer;
        wr_has_written := false; wr_buffer := ordered_buffer_new last_entry_id q;
        wr_open_path := uintn_to_file_path file_id queue_fs_path (s2l "wal");
        wr_disk := []; wr_completed := []; wr_acked := [];
        wr_create := tail create; wr_io := io |}.

(** [WriterState::rotate].  The state is returned on failure too: what was
    changed before the failure stays. *)
Definition wr_rotate (self : writer_state) (next_entry_id : uintn) (next_data_size : Z)
    : writer_state * outcome wal_error unit :=
  let '(io, closed) := afw_close (wr_io self) (wr_file_writer self) in
  let completed :=
    wr_completed self ++
      [{| wc_queue_id := wr_queue_id self; wc_file_id := wr_file_id self;
          wc_encryption_type := ws_encryption_type (wr_settings self);
          wc_compression_type := ws_compression_type (wr_settings self) |}] in
  let file_id := uintn_increment (wr_file_id self) in
  let resized := wal_header_resize (wr_header self) next_entry_id next_data_size in
  let header := {| data_size_bytes := data_size_bytes resized;
                   id_size_bytes := id_size_bytes resized;
                   num_entries_before := next_entry_id |} in
  match new_file_writer (default true (head (wr_create self))) header (wr_settings self) with
  | Ok file_writer =>
      ({| wr_queue_path := wr_queue_path self; wr_queue_id := wr_queue_id self;
          wr_file_id := file_id; wr_header := header; wr_settings := wr_settings self;
          wr_file_writer := file_writer; wr_has_written := false; wr_buffer := wr_buffer self;
          wr_open_path := uintn_to_file_path file_id (wr_queue_path self) (s2l "wal");
          wr_disk := wr_disk self ++ [(wr_open_path self, afw_file closed)];
          wr_completed := completed; wr_acked := wr_acked self ++ afw_sent closed;
          wr_create := tail (wr_create self); wr_io := io |}, Ok tt)
  | r =>
      ({| wr_queue_path := wr_queue_path self; wr_queue_id := wr_queue_id self;
          wr_file_id := file_id; wr_header := header; wr_settings := wr_settings self;
          wr_file_writer := closed; wr_has_written := wr_has_written self;
          wr_buffer := wr_buffer self;
          wr_open_path := wr_open_path self; wr_disk := wr_disk self;
          wr_completed := completed; wr_acked := wr_acked self;
          wr_create := tail (wr_create self); wr_io := io |},
       match r with Err e => Err e | _ => Panic end)
  end.

Definition set_file_writer (self : writer_state) (fw : afw) (has_written : bool) : writer_state :=
  {| wr_queue_path := wr_queue_path self; wr_queue_id := wr_queue_id self;
     wr_file_id := wr_file_id self; wr_header := wr_header self;
     wr_settings := wr_settings self; wr_file_writer := fw;
     wr_has_written := has_written; wr_buffer := wr_buffer self;
     wr_open_path := wr_open_path self; wr_disk := wr_disk self;
     wr_completed := wr_completed self; wr_acked := wr_acked self;
     wr_create := wr_create self; wr_io := wr_io self |}.

Definition set_buffer (self : writer_state) (b : ordered_buffer) : writer_state :=
  {| wr_queue_path := wr_queue_path self; wr_queue_id := wr_queue_id self;
     wr_file_id := wr_file_id self; wr_header := wr_header self;
     wr_settings := wr_settings self; wr_file_writer := wr_file_writer self;
     wr_has_written := wr_has_written self; wr_buffer := b;
     wr_open_path := wr_open_path self; wr_disk := wr_disk self;
     wr_completed := wr_completed self; wr_acked := wr_acked self;
     wr_create := wr_create self; wr_io := wr_io self |}.

(** Whether the next entry needs a new file. *)
Definition needs_rotation (self : writer_state) (entry_id : uintn) (size : Z)
    : outcome wal_error bool :=
  full ← (if wr_has_written self then
            fits ← afw_can_add (wr_file_writer self) size; Ok (negb fits)
          else Ok false);
  Ok (full || negb (wal_header_can_hold_entry (wr_header self) entry_id size)).

(** The body of the loop of [write], after the rotation. *)
Definition append_entry (self : writer_state) (entry_id : uintn) (data : bytes)
    : outcome wal_error writer_state :=
  let entry_header := wal_entry_header_new entry_id data in
  entry_buf ← map_err (fun e => WWalHeaderError (WhUintN e))
    (wal_entry_header_write_to_bytes entry_header [] (wr_header self));
  fw ← afw_write (wr_file_writer self) (wr_queue_id self) entry_id (entry_buf ++ data);
  Ok (set_file_writer self fw true).

Definition write_entry (self : writer_state) (e : uintn * bytes)
    : writer_state * outcome wal_error unit :=
  let '(entry_id, data) := e in
  match needs_rotation self entry_id (zlen data) with
  | Ok rotate =>
      let '(self, r) :=
        if (rotate : bool) then wr_rotate self entry_id (zlen data) else (self, Ok tt) in
      match r with
      | Ok _ =>
          match append_entry self entry_id data with
          | Ok self => (self, Ok tt)
          | Err e => (self, Err e)
          | Panic => (self, Panic)
          end
      | r => (self, r)
      end
  | Err e => (self, Err e)
  | Panic => (self, Panic)
  end.

(** [for (entry_id, data) in entries], leaving at the first error. *)
Fixpoint write_entries (self : writer_state) (entries : list (uintn * bytes))
    : writer_state * outcome wal_error unit :=
  match entries with
  | [] => (self, Ok tt)
  | e :: entries =>
      match write_entry self e with
      | (self, Ok _) => write_entries self entries
      | r => r
      end
  end.

(** The entries an arrival releases: itself when it is next, else what
    [wait_for_order] gives. *)
Definition arrive (b : ordered_buffer) (e : uintn * bytes)
    : list (uintn * bytes) * ordered_buffer :=
  match ob_can_write b (fst e) with
  | (true, b) => ([e], b)
  | (false, b) => ob_wait_for_order b e
  end.

(** [WriterState::write] *)
Definition wr_write (self : writer_state) (entry_id : uintn) (data : bytes)
    : writer_state * outcome wal_error unit :=
  let '(entries, buffer) := arrive (wr_buffer self) (entry_id, data) in
  write_entries (set_buffer self buffer) entries.

(** [WriterState::write_batch] *)
Fixpoint wr_write_batch (self : writer_state) (entries : list (uintn * bytes))
    : writer_state * outcome wal_error unit :=
  match entries with
  | [] => (self, Ok tt)
  | (entry_id, data) :: entries =>
      match wr_write self entry_id data with
      | (self, Ok _) => wr_write_batch self entries
      | r => r
      end
  end.

(** [enum WriteRequest] and the task of [WalWriter::new]: errors are logged
    and the task goes on; [None] when the task died of a panic. *)
Inductive write_request :=
| Enqueue (entry_id : uintn) (data : bytes)
| EnqueueBatch (entries : list (uintn * bytes))
| Close.

Definition close_writer (self : writer_state) : writer_state :=
  let '(io, closed) := afw_close (wr_io self) (wr_file_writer self) in
  {| wr_queue_path := wr_queue_path self; wr_queue_id := wr_queue_id self;
     wr_file_id := wr_file_id self; wr_header := wr_header self;
     wr_settings := wr_settings self; wr_file_writer := closed;
     wr_has_written := wr_has_written self; wr_buffer := wr_buffer self;
     wr_open_path := wr_open_path self; wr_disk := wr_disk self;
     wr_completed := wr_completed self; wr_acked := wr_acked self;
     wr_create := wr_create self; wr_io := io |}.

Definition handle_request (self : writer_state) (req : write_request) : option writer_state :=
  match req with
  | Enqueue entry_id data =>
      match wr_write self entry_id data with (_, Panic) => None | (s, _) => Some s end
  | EnqueueBatch entries =>
      match wr_write_batch self entries with (_, Panic) => None | (s, _) => Some s end
  | Close => Some (close_writer self)
  end.

(** The files a reader sees. *)
Definition wr_files (self : writer_state) : list (str * bytes) :=
  wr_disk self ++ [(wr_open_path self, afw_file (wr_file_writer self))].

(** A step of the task of the open file: it takes the buffer, or writes its block. *)
Definition wr_background (self : writer_state) (ev : afw_event) : writer_state :=
  match afw_exec (wr_file_writer self) ev with
  | Some fw => set_file_writer self fw (wr_has_written self)
  | None => self
  end.

(** The acknowledgements sent so far. *)
Definition all_acks (s : writer_state) : list ack := wr_acked s ++ afw_sent (wr_file_writer s).

End WalWriter.
