(* ===== verification/WalWriterFacts.v ===== *)
(** * Theory of the WAL writer

    Without I/O errors, and with the background task flushing at any moment,
    the files of a queue hold exactly the released entries, in order, with
    consecutive ids and headers that announce them; the readers give them back. *)
From Stdlib Require Import ZArith Lia List Bool Permutation Sorted.
From Stdlib Require Import Ascii String.
From stdpp Require Import base option list.
From S2P Require Import Prelude UBig UintN UintNFacts Paths PathsFacts Types WalFormat WalReader.
From S2P Require Import WalReaderFacts OrderedBuffer AckWriter WalWriter.
#[local] Open Scope Z_scope.

Section Facts.
Context {B : Build} {U : UBig} {X : Hasher} {S : UnstableSort}.

(** ** Closing the file writer *)

Definition settled (self : afw) : afw :=
  match afw_inflight self with
  | None => self
  | Some b => flush_attempt self b Succeeds
  end.

Lemma settled_none self : afw_inflight (settled self) = None.
Proof. unfold settled. by destruct (afw_inflight self) eqn:?. Qed.

Lemma flush_loop_fuel n self : flush_loop (Datatypes.S n) [] self = ([], settled self).
Proof.
  unfold settled. cbn [flush_loop]. destruct (afw_inflight self) as [b|]; [|done].
  by destruct n.
Qed.

Lemma flush_loop_settled self : flush_loop max_retries [] self = ([], settled self).
Proof. exact (flush_loop_fuel 999 self). Qed.

Lemma settled_exact header log self : afw_exact header log self ->
  afw_exact header log (settled self).
Proof.
  intros Hx. unfold settled. destruct (afw_inflight self) as [b|] eqn:Hi; [|done].
  rewrite <- (app_nil_r log).
  apply (exact_exec header log self (EvAttempt Succeeds)); [done..|]. simpl. by rewrite Hi.
Qed.

Lemma take_exact header log self : afw_inflight self = None -> afw_running self = true ->
  afw_exact header log self -> afw_exact header log (flush_take self).
Proof.
  intros Hi Hr Hx. rewrite <- (app_nil_r log).
  apply (exact_exec header log self EvTake); [done..|]. simpl. by rewrite Hi, Hr.
Qed.

Lemma settled_running self : afw_running (settled self) = afw_running self.
Proof. unfold settled. by destruct (afw_inflight self). Qed.

Lemma take_buffer self : afw_buffer (settled (flush_take self)) = [] \/
  afw_inflight self <> None.
Proof.
  destruct (afw_inflight self) eqn:Hi; [by right|left].
  unfold settled, flush_take. case_decide as Hb; [by rewrite Hi|done].
Qed.

Lemma inv_all_done log self : afw_inv log self -> afw_inflight self = None ->
  afw_buffer self = [] -> last (afw_sent self) = last_ack log.
Proof.
  intros [_ _ (d & i & b & -> & Hn & Hi & Hb & _ & _ & _ & Hl)] Hno He.
  rewrite Hno in Hi. subst i. rewrite He in Hb. symmetry in Hb.
  apply blocks_nonempty in Hb; [|done]. subst b. by rewrite !app_nil_r.
Qed.

(** Acknowledgements are of written entries, and are only added. *)
Lemma acks_written log self : afw_inv log self ->
  Forall (fun a => In a (map fst log)) (afw_sent self).
Proof.
  intros [_ _ (d & i & b & -> & _ & _ & _ & _ & _ & Ha & _)].
  eapply Forall_impl; [exact Ha|]. intros a Hin. rewrite map_app. apply in_or_app. by left.
Qed.

Lemma take_sent self : afw_sent (flush_take self) = afw_sent self.
Proof. unfold flush_take. by case_decide. Qed.

Lemma settled_sent self : exists acks, afw_sent (settled self) = afw_sent self ++ acks.
Proof.
  unfold settled. destruct (afw_inflight self) as [b|]; [by exists (if_acks b)|].
  exists []. by rewrite app_nil_r.
Qed.

(** A close on a healthy disk: everything handed over is in the file, and its
    last entry is acknowledged. *)
Lemma close_exact header log self : afw_running self = true -> afw_exact header log self ->
  exists self', afw_close [] self = ([], self') /\ afw_file self' = header ++ blocks log /\
    afw_buffer self' = [] /\ afw_running self' = false /\
    last (afw_sent self') = last_ack log /\
    Forall (fun a => In a (map fst log)) (afw_sent self') /\
    (exists acks, afw_sent self' = afw_sent self ++ acks).
Proof.
  intros Hr Hx. unfold afw_close, flush_buffer. rewrite !flush_loop_settled.
  set (s1 := settled self). set (s2 := settled (flush_take s1)).
  assert (afw_exact header log s2) as Hx2.
  { apply settled_exact, take_exact; [apply settled_none| |by apply settled_exact].
    unfold s1. by rewrite settled_running. }
  assert (afw_inflight s2 = None) as Hi by apply settled_none.
  assert (afw_buffer s2 = []) as Hb.
  { destruct (take_buffer s1) as [?|[]]; [done|]. apply settled_none. }
  eexists. split; [reflexivity|]. cbn [afw_file afw_buffer afw_running afw_sent].
  split_and!; [|done|done| | |].
  - pose proof (ex_bytes _ _ _ Hx2) as He. unfold pending_block in He.
    rewrite Hi, Hb in He. simpl in He. by rewrite app_nil_r in He.
  - apply inv_all_done; [apply (ex_inv _ _ _ Hx2)|done|done].
  - apply (acks_written _ _ (ex_inv _ _ _ Hx2)).
  - destruct (settled_sent self) as [l1 E1], (settled_sent (flush_take s1)) as [l2 E2].
    exists (l1 ++ l2). unfold s2. by rewrite E2, take_sent, app_assoc, <- E1.
Qed.

(** ** The invariant of the writer *)

(** What an operation leaves of a writer: its queue, and the acknowledgements. *)
Definition wr_later (self self' : writer_state) : Prop :=
  wr_queue_path self' = wr_queue_path self /\ wr_queue_id self' = wr_queue_id self /\
  exists acks, all_acks self' = all_acks self ++ acks.

#[export] Instance wr_later_preorder : PreOrder wr_later.
Proof.
  split.
  - intros s. split_and!; [done..|]. exists []. by rewrite app_nil_r.
  - intros s1 s2 s3 (P1 & Q1 & a1 & A1) (P2 & Q2 & a2 & A2). split_and!; [congruence..|].
    exists (a1 ++ a2). by rewrite A2, A1, <- app_assoc.
Qed.

(** An entry the format can hold in every file: id of at most 128 bits. *)
Definition entry_bound (e : uintn * bytes) : Prop :=
  uintn_canonical (fst e) /\ uintn_val (fst e) < 2 ^ 128 /\ zlen (snd e) <= 2 ^ 62.

Definition log_of (q : queue_id) (h : wal_header) (es : list (uintn * bytes))
    : list (ack * bytes) :=
  map (fun e => ((q, fst e), encode_entry h (fst e) (snd e))) es.

Lemma blocks_log q h es : blocks (log_of q h es) = encode_entries h es.
Proof. unfold blocks, log_of, encode_entries. by rewrite map_map. Qed.

(** A whole file: header, entries numbered from the header's count. *)
Definition file_ok (h : wal_header) (es : list (uintn * bytes)) : Prop :=
  wal_header_ok h /\ Forall (entry_fits h) es /\
  consecutive (uintn_val (num_entries_before h)) es.

(** The files closed so far: id, header, entries; the header of a file counts
    the entries before it. *)
Definition closed_file : Type := uintn * wal_header * list (uintn * bytes).

Fixpoint file_chain (n start : Z) (closed : list closed_file) : Prop :=
  match closed with
  | [] => True
  | (fid, h, es) :: closed =>
      uintn_ok fid /\ uintn_val fid = n /\ file_ok h es /\
      uintn_val (num_entries_before h) = start /\ file_chain (n + 1) (start + zlen es) closed
  end.

Definition closed_entries (closed : list closed_file) : list (uintn * bytes) :=
  concat (map snd closed).

Definition size_limit : Z := 2 ^ 62 + 256.

(** A file whose size the limit bounds: the check of the limit leaves the header
    of an entry out, and the first entry of a file is not checked. *)
Definition within (max : Z) (h : wal_header) (es : list (uintn * bytes)) : Prop :=
  zlen es <= 1 \/ zlen (wal_file h es []) <= max + entry_overhead h.

Record wr_rel (fid0 start : Z) (closed : list closed_file) (cur : list (uintn * bytes))
    (next : Z) (self : writer_state) : Prop := {
  rel_chain : file_chain fid0 start closed;
  rel_start : uintn_val (num_entries_before (wr_header self)) = start + zlen (closed_entries closed);
  rel_file_id : uintn_ok (wr_file_id self) /\ uintn_val (wr_file_id self) = fid0 + zlen closed;
  rel_cur : file_ok (wr_header self) cur;
  rel_next : next = uintn_val (num_entries_before (wr_header self)) + zlen cur;
  rel_path : wr_open_path self =
    uintn_to_file_path (wr_file_id self) (wr_queue_path self) (s2l "wal");
  rel_disk : wr_disk self = map (fun '(fid, h, es) =>
    (uintn_to_file_path fid (wr_queue_path self) (s2l "wal"), wal_file h es [])) closed;
  rel_completed : map wc_file_id (wr_completed self) = map (fun c => fst (fst c)) closed;
  rel_writer : afw_exact (encode_wal_header (wr_header self))
    (log_of (wr_queue_id self) (wr_header self) cur) (wr_file_writer self);
  rel_running : afw_running (wr_file_writer self) = true;
  rel_settings : afw_set (wr_file_writer self) = settings_of (wr_settings self) /\
    ws_enable_fsync (wr_settings self) = true /\ ws_max_file_size (wr_settings self) <= 2 ^ 62;
  rel_size : 0 <= afw_current_size (wr_file_writer self) <= size_limit;
  rel_unwritten : wr_has_written self = false ->
    cur = [] /\ afw_current_size (wr_file_writer self) <= 64;
  rel_written : wr_has_written self = true -> cur <> [];
  rel_queue : Forall (fun m => wc_queue_id m = wr_queue_id self) (wr_completed self);
  rel_bytes : afw_current_size (wr_file_writer self) =
    zlen (encode_wal_header (wr_header self)) + zlen (encode_entries (wr_header self) cur);
  rel_sizes : Forall (fun c : closed_file => zlen (wal_file (snd (fst c)) (snd c) []) <= size_limit)
    closed;
  rel_acked : Forall (fun a => In a (map (fun e => (wr_queue_id self, fst e)) (closed_entries closed)))
    (wr_acked self);
  rel_faults : wr_create self = [] /\ wr_io self = [];
  rel_within : within (ws_max_file_size (wr_settings self)) (wr_header self) cur /\
    Forall (fun c : closed_file => within (ws_max_file_size (wr_settings self)) (snd (fst c)) (snd c)) closed;
}.

Lemma id_size_small id : uintn_canonical id -> uintn_val id < 2 ^ 128 ->
  uintn_is_valid_data_size (uintn_size_in_bytes id) = true /\ uintn_size_in_bytes id <= 16.
Proof.
  intros Hc Hv. destruct (size_valid id Hc) as [Hs|]; [|lia].
  split; [done|]. apply valid_size_range in Hs. lia.
Qed.

Lemma u64_size z : in_u 64 z ->
  uintn_is_valid_data_size (uintn_size_in_bytes (uintn_from_u64 z)) = true.
Proof.
  intros Hz. destruct (u64_canonical z Hz) as [Hc Hv].
  apply id_size_small; [done|]. unfold in_u in Hz. lia.
Qed.

Lemma valid_max a b : uintn_is_valid_data_size a = true -> uintn_is_valid_data_size b = true ->
  uintn_is_valid_data_size (Z.max a b) = true.
Proof. intros. destruct (Z.max_spec a b) as [[_ ->]|[_ ->]]; done. Qed.

(** Headers with room for every length and for ids below [2^32]. *)
Definition wide (h : wal_header) : Prop := 8 <= data_size_bytes h /\ 4 <= id_size_bytes h.

(** A file that was closed for its size, not for an entry that did not fit. *)
Definition full_file (c : closed_file) : Prop := snd c <> [] /\ wide (snd (fst c)).

Lemma wide_holds h id data : wide h -> entry_bound (id, data) -> uintn_val id < 2 ^ 32 ->
  wal_header_can_hold_entry h id (zlen data) = true.
Proof.
  intros [Hd Hi] (Hc & _ & Hl) Hv. cbn [fst snd] in *. pose proof (zlen_nonneg data).
  unfold wal_header_can_hold_entry, uintn_can_fit. rewrite andb_true_iff, !Z.leb_le. split.
  - apply small_size in Hc as [Hs _]. specialize (Hs Hv). lia.
  - destruct (u64_canonical (zlen data)) as [Hu Huv]; [unfold in_u; lia|].
    apply small_size in Hu as [_ Hs]. rewrite Huv in Hs. lia.
Qed.

(** The header of a rotated file is valid and holds the entry it is made for. *)
Lemma resize_ok h id data : wal_header_ok h -> entry_bound (id, data) ->
  let r := wal_header_resize h id (zlen data) in
  let h' := {| data_size_bytes := data_size_bytes r; id_size_bytes := id_size_bytes r;
               num_entries_before := id |} in
  wal_header_ok h' /\ wal_header_can_hold_entry h' id (zlen data) = true /\
  wal_header_size h' <= 48.
Proof.
  intros (Hd & Hi & _) (Hc & Hv & Hl). cbn [fst snd] in *. pose proof (zlen_nonneg data).
  destruct (id_size_small id Hc Hv) as [Hs Hs16].
  assert (in_u 64 (zlen data)) as Hu by (unfold in_u; lia).
  pose proof (u64_size _ Hu) as Hsd. cbn zeta. unfold wal_header_resize. split_and!.
  - split_and!; cbn -[uintn_is_valid_data_size]; [by apply valid_max..|done|lia].
  - unfold wal_header_can_hold_entry, uintn_can_fit. cbn -[uintn_size_in_bytes uintn_from_u64].
    rewrite andb_true_iff, !Z.leb_le. lia.
  - unfold wal_header_size, wal_header_fixed_size. cbn -[uintn_size_in_bytes]. lia.
Qed.

Lemma consecutive_snoc n es e : consecutive n es -> uintn_val (fst e) = n + zlen es ->
  consecutive n (es ++ [e]).
Proof.
  revert n. induction es as [|x es IH]; intros n Hc He.
  - rewrite zlen_nil in He. simpl. split; [lia|done].
  - destruct Hc as [Hx Hc]. rewrite zlen_cons in He. simpl. split; [done|].
    apply IH; [done|lia].
Qed.

Lemma file_chain_snoc n start closed fid h es : file_chain n start closed -> uintn_ok fid ->
  uintn_val fid = n + zlen closed -> file_ok h es ->
  uintn_val (num_entries_before h) = start + zlen (closed_entries closed) ->
  file_chain n start (closed ++ [(fid, h, es)]).
Proof.
  revert n start. induction closed as [|[[f h'] es'] closed IH]; intros n start Hc Hf Hv Hok Hs.
  - rewrite zlen_nil in Hv. cbn in Hs. rewrite zlen_nil in Hs. simpl. split_and!; try done; lia.
  - destruct Hc as (? & ? & ? & ? & Hc). rewrite zlen_cons in Hv.
    unfold closed_entries in Hs. cbn [map concat snd] in Hs. rewrite zlen_app in Hs.
    simpl. split_and!; try done. apply IH; try done; [lia|]. unfold closed_entries. lia.
Qed.

Lemma closed_app a b : closed_entries (a ++ b) = closed_entries a ++ closed_entries b.
Proof. unfold closed_entries. by rewrite map_app, concat_app. Qed.

Lemma closed_snoc closed fid h es :
  closed_entries (closed ++ [(fid, h, es)]) = closed_entries closed ++ es.
Proof. unfold closed_entries. rewrite map_app, concat_app. simpl. by rewrite app_nil_r. Qed.

Lemma bound_fits h id data : entry_bound (id, data) ->
  wal_header_can_hold_entry h id (zlen data) = true -> entry_fits h (id, data).
Proof.
  intros (Hc & _ & Hl) Hh. split_and!; try done. cbn [snd] in *. unfold isize_max. lia.
Qed.

Lemma afw_write_ok {E} fw q id entry : entry <> [] -> 0 <= afw_current_size fw ->
  afw_current_size fw + zlen entry < 2 ^ 64 ->
  exists fw', afw_write (E := E) fw q id entry = Ok fw' /\
    afw_exec fw (EvWrite q id entry) = Some fw' /\
    afw_current_size fw' = afw_current_size fw + zlen entry /\
    afw_running fw' = afw_running fw /\ afw_set fw' = afw_set fw /\
    afw_sent fw' = afw_sent fw /\ afw_file fw' = afw_file fw.
Proof.
  intros Hne Hc Hs. pose proof (zlen_nonneg entry).
  unfold afw_exec, afw_write. rewrite bool_decide_false, !arith_ok by (done || unfold in_u; lia).
  by eexists.
Qed.

Lemma new_file_writer_ok h settings : new_file_writer true h settings =
  Ok (afw_new (settings_of settings) (encode_wal_header h)).
Proof. unfold new_file_writer, encode_wal_header. by destruct (wal_header_write_to_bytes h []). Qed.

Section Step.
Context (fid0 start : Z) (closed : list closed_file) (cur : list (uintn * bytes)) (next : Z).
Context (self : writer_state) (id : uintn) (data : bytes).
Hypothesis Hrel : wr_rel fid0 start closed cur next self.
Hypothesis Hb : entry_bound (id, data).
Hypothesis Hnext : uintn_val id = next.

Lemma append_ok :
  wal_header_can_hold_entry (wr_header self) id (zlen data) = true ->
  (cur = [] \/ afw_current_size (wr_file_writer self) + zlen data <= ws_max_file_size (wr_settings self)) ->
  exists self', append_entry self id data = Ok self' /\
    wr_rel fid0 start closed (cur ++ [(id, data)]) (next + 1) self' /\
    wr_buffer self' = wr_buffer self /\ wr_later self self' /\ wr_header self' = wr_header self /\
    wr_file_id self' = wr_file_id self.
Proof.
  intros Hh Hsz. destruct Hrel. pose proof (bound_fits _ _ _ Hb Hh) as Hf.
  destruct rel_cur0 as (Hok & Hes & Hcons).
  destruct (entry_size_ok (E := unit) _ Hok) as [_ Hov].
  pose proof (zlen_encode_entry _ _ _ Hf) as Hlen. pose proof (zlen_nonneg data).
  destruct Hb as (_ & _ & Hd). cbn [snd] in Hd.
  assert (afw_current_size (wr_file_writer self) <= 64 \/
    afw_current_size (wr_file_writer self) + zlen data <= 2 ^ 62) as Hsz'.
  { destruct Hsz as [Hcur|Hsz]; [left|lia].
    destruct (wr_has_written self); [by destruct (rel_written0 eq_refl)|by apply rel_unwritten0]. }
  unfold append_entry. cbn zeta. rewrite write_entry_eq by done. ok_step.
  replace (([] ++ _) ++ data) with (encode_entry (wr_header self) id data)
    by (unfold encode_entry; by rewrite <- !app_assoc).
  unfold size_limit in *.
  destruct (afw_write_ok (E := wal_error) (wr_file_writer self) (wr_queue_id self) id
    (encode_entry (wr_header self) id data)) as (fw & -> & Hex & Hcs & Hrun & Hset & Hsent & _); [|lia..|].
  { intros E. rewrite E, zlen_nil in Hlen. lia. }
  ok_step. eexists. split; [reflexivity|]. split; [|split; [done|split; [|done]]].
  2:{ split_and!; [done..|]. exists []. unfold all_acks. cbn [set_file_writer wr_acked wr_file_writer].
      by rewrite Hsent, app_nil_r. }
  split; cbn [set_file_writer wr_file_id wr_header wr_open_path wr_queue_path wr_disk wr_acked
    wr_completed wr_file_writer wr_queue_id wr_settings wr_has_written wr_create wr_io]; try done.
  - split_and!; [done| |].
    + apply Forall_app. split; [done|]. by constructor.
    + apply consecutive_snoc; [done|]. cbn [fst]. lia.
  - rewrite zlen_app, zlen_cons, zlen_nil. lia.
  - unfold log_of. rewrite map_app. by refine (exact_exec _ _ _ (EvWrite _ _ _) _ I rel_writer0 Hex).
  - by rewrite Hrun.
  - by rewrite Hset.
  - unfold size_limit. lia.
  - intros _. by destruct cur.
  - rewrite Hcs, rel_bytes0, encode_entries_snoc, zlen_app. lia.
  - split; [|by apply rel_within0]. destruct Hsz as [->|Hsz]; [by left|right].
    unfold wal_file. rewrite encode_entries_snoc, !zlen_app, zlen_nil. lia.
Qed.

End Step.

Section Step.
Context (fid0 start : Z) (closed : list closed_file) (cur : list (uintn * bytes)) (next : Z).
Context (self : writer_state) (id : uintn) (data : bytes).
Hypothesis Hrel : wr_rel fid0 start closed cur next self.
Hypothesis Hb : entry_bound (id, data).
Hypothesis Hnext : uintn_val id = next.

Lemma rotate_ok :
  exists self', wr_rotate self id (zlen data) = (self', Ok tt) /\
    wr_rel fid0 start (closed ++ [(wr_file_id self, wr_header self, cur)]) [] next self' /\
    wal_header_can_hold_entry (wr_header self') id (zlen data) = true /\
    wr_buffer self' = wr_buffer self /\ wr_later self self' /\
    (wide (wr_header self) -> wide (wr_header self')) /\
    wr_file_id self' = uintn_increment (wr_file_id self).
Proof.
  destruct Hrel. destruct rel_faults0 as [Hcr Hio].
  destruct (close_exact _ _ _ rel_running0 rel_writer0)
    as (fw & Hcl & Hfile & _ & _ & _ & Hacks & acks & Hsent).
  pose proof (resize_ok _ _ _ (proj1 rel_cur0) Hb) as (Hok & Hhold & Hsz).
  pose proof rel_settings0 as (Hset & Hfs & Hmax).
  destruct rel_file_id0 as [Hfo Hfv]. pose proof (increment_spec _ Hfo) as [Hio' Hiv].
  unfold wr_rotate. rewrite Hio, Hcl, Hcr. cbn [head default]. rewrite new_file_writer_ok.
  eexists. split; [reflexivity|].
  set (h' := Build_wal_header _ _ _) in *.
  assert (zlen (encode_wal_header h') <= 48) as Hz by (by rewrite zlen_encode_header).
  pose proof (zlen_nonneg (encode_wal_header h')).
  split; [|split; [done|split; [done|split; [|split; [|done]]]]].
  3:{ intros [? ?]. cbn [wr_header]. unfold h', wide, wal_header_resize. cbn. lia. }
  2:{ split_and!; [done..|]. exists acks. unfold all_acks.
      cbn [wr_acked wr_file_writer afw_new afw_sent]. by rewrite app_nil_r, Hsent, app_assoc. }
  split; cbn [wr_file_id wr_header wr_open_path wr_queue_path wr_disk wr_acked
    wr_completed wr_file_writer wr_queue_id wr_settings wr_has_written wr_create wr_io]; try done.
  - by apply file_chain_snoc.
  - cbn [num_entries_before h']. rewrite closed_snoc, zlen_app. lia.
  - rewrite zlen_app, zlen_cons, zlen_nil. split; [done|lia].
  - cbn [num_entries_before h']. rewrite zlen_nil. lia.
  - rewrite map_app, rel_disk0. cbn [map]. rewrite rel_path0, Hfile, blocks_log.
    unfold wal_file. by rewrite app_nil_r.
  - rewrite !map_app. cbn [map fst wc_file_id]. by rewrite rel_completed0.
  - by apply exact_new.
  - cbn [afw_new afw_current_size]. unfold size_limit. lia.
  - intros _. cbn [afw_new afw_current_size]. split; [done|lia].
  - apply Forall_app. split; [done|]. by repeat constructor.
  - cbn [afw_new afw_current_size]. unfold encode_entries. cbn [map concat]. rewrite zlen_nil. lia.
  - apply Forall_app. split; [done|]. repeat constructor. cbn [fst snd]. unfold wal_file.
    rewrite !zlen_app, zlen_nil. unfold size_limit in *. lia.
  - rewrite closed_snoc, map_app. apply Forall_app. split.
    + eapply Forall_impl; [exact rel_acked0|]. intros a Ha. apply in_or_app. by left.
    + eapply Forall_impl; [exact Hacks|]. intros a Ha. apply in_or_app. right.
      unfold log_of in Ha. by rewrite map_map in Ha.
  - split; [by left|]. apply Forall_app. split; [apply rel_within0|]. constructor; [apply rel_within0|constructor].
Qed.

(** Writing the entry that is next. *)
Lemma write_entry_ok :
  exists self' extra cur', write_entry self (id, data) = (self', Ok tt) /\
    wr_rel fid0 start (closed ++ extra) cur' (next + 1) self' /\
    closed_entries (closed ++ extra) ++ cur' = (closed_entries closed ++ cur) ++ [(id, data)] /\
    wr_buffer self' = wr_buffer self /\ cur' <> [] /\ zlen extra <= 1 /\ wr_later self self' /\
    (wide (wr_header self) -> uintn_val id < 2 ^ 32 ->
     wide (wr_header self') /\ Forall full_file extra) /\
    (uintn_canonical (wr_file_id self) ->
     uintn_canonical (wr_file_id self') /\ Forall (fun c => uintn_canonical (fst (fst c))) extra).
Proof.
  pose proof (zlen_nonneg data) as Hz.
  assert (needs_rotation self id (zlen data) = Ok
    ((wr_has_written self && negb (afw_current_size (wr_file_writer self) + zlen data <=?
        ws_max_file_size (wr_settings self))) ||
     negb (wal_header_can_hold_entry (wr_header self) id (zlen data)))) as Hrot.
  { pose proof (rel_size _ _ _ _ _ _ Hrel) as Hs. pose proof (proj2 (proj2 Hb)) as Hd.
    unfold size_limit in Hs. cbn [snd] in Hd.
    unfold needs_rotation, afw_can_add. rewrite arith_ok by (unfold in_u; lia).
    rewrite (proj1 (rel_settings _ _ _ _ _ _ Hrel)). by destruct (wr_has_written self). }
  unfold write_entry. rewrite Hrot.
  destruct (_ || _) eqn:Hc.
  - destruct rotate_ok as (s1 & -> & Hr1 & Hh & Hbu & Hqp & Hw1 & Hf1).
    destruct (append_ok _ _ _ _ _ s1 id data Hr1 Hb Hnext Hh (or_introl eq_refl))
      as (s2 & -> & Hr2 & Hbu2 & Hqp2 & Hh2 & Hf2).
    eexists _, _, _. split; [reflexivity|]. split; [exact Hr2|].
    split; [by rewrite closed_snoc|]. split; [congruence|]. do 2 (split; [done|]).
    split; [by etrans|]. split; cycle 1.
    { intros Hc'. rewrite Hf2, Hf1. split; [by apply increment_canonical|by apply Forall_cons]. }
    intros Hw Hv. rewrite Hh2. split; [by apply Hw1|].
    apply Forall_cons. split; [split; [|done]|done]. cbn [snd]. rewrite (wide_holds _ _ _ Hw Hb Hv), orb_false_r in Hc.
    apply andb_true_iff in Hc as [Hc _]. by apply (rel_written _ _ _ _ _ _ Hrel).
  - apply orb_false_iff in Hc as [Hc1 Hc2]. apply negb_false_iff in Hc2.
    destruct (append_ok _ _ _ _ _ self id data Hrel Hb Hnext) as (s2 & -> & Hr2 & Hbu2 & Hqp2 & Hh2 & Hf2);
      [done| |].
    { destruct (wr_has_written self) eqn:Hw.
      - right. simpl in Hc1. by apply negb_false_iff, Z.leb_le in Hc1.
      - left. by apply (rel_unwritten _ _ _ _ _ _ Hrel). }
    exists s2, [], (cur ++ [(id, data)]). rewrite app_nil_r.
    do 2 (split; [done|]). split; [by rewrite app_assoc|]. split; [done|]. split; [by destruct cur|].
    split; [rewrite zlen_nil; lia|]. split; [done|].
    split; intros Hw; [intros _; by rewrite Hh2|by rewrite Hf2].
Qed.

End Step.

(** How the files grow: a file is closed only to write an entry to the next
    one. *)
Record grown (start : Z) (s s' : writer_state) (closed : list closed_file)
    (cur : list (uintn * bytes)) (extra : list closed_file) (cur' : list (uintn * bytes)) : Prop := {
  gr_cur : cur' = [] -> extra = [] /\ cur = [];
  gr_few : zlen extra + zlen (closed_entries closed ++ cur) <=
    zlen (closed_entries (closed ++ extra) ++ cur');
  gr_full : wide (wr_header s) ->
    start + zlen (closed_entries (closed ++ extra) ++ cur') <= 2 ^ 32 ->
    wide (wr_header s') /\ Forall full_file extra;
  gr_ids : uintn_canonical (wr_file_id s) ->
    uintn_canonical (wr_file_id s') /\ Forall (fun c => uintn_canonical (fst (fst c))) extra;
}.

Lemma grown_refl start s s' closed cur : wr_header s' = wr_header s ->
  wr_file_id s' = wr_file_id s -> grown start s s' closed cur [] cur.
Proof. intros Hh Hf. split; [done| |by rewrite Hh|by rewrite Hf]. rewrite app_nil_r. done. Qed.

Lemma grown_trans start s1 s2 s3 closed cur e1 c1 e2 c2 : grown start s1 s2 closed cur e1 c1 ->
  grown start s2 s3 (closed ++ e1) c1 e2 c2 -> grown start s1 s3 closed cur (e1 ++ e2) c2.
Proof.
  intros [H1 F1 W1 I1] [H2 F2 W2 I2]. pose proof (zlen_nonneg e2). split.
  - intros [-> ->]%H2. by destruct (H1 eq_refl) as [-> ->].
  - rewrite <- app_assoc in F2. rewrite zlen_app. lia.
  - rewrite app_assoc. intros Hw Hl. destruct (W1 Hw) as [Hw2 Hf1]; [lia|].
    destruct (W2 Hw2 Hl) as [Hw3 Hf2]. split; [done|]. by apply Forall_app.
  - intros [Hc Hf1]%I1. apply I2 in Hc as [Hc Hf2]. split; [done|]. by apply Forall_app.
Qed.

Lemma write_entries_ok fid0 start closed cur next self es :
  wr_rel fid0 start closed cur next self -> Forall entry_bound es -> consecutive next es ->
  exists self' extra cur', write_entries self es = (self', Ok tt) /\
    wr_rel fid0 start (closed ++ extra) cur' (next + zlen es) self' /\
    closed_entries (closed ++ extra) ++ cur' = (closed_entries closed ++ cur) ++ es /\
    wr_buffer self' = wr_buffer self /\ grown start self self' closed cur extra cur' /\ wr_later self self'.
Proof.
  revert closed cur next self. induction es as [|[id data] es IH];
    intros closed cur next self Hrel Hb Hc.
  { exists self, [], cur. rewrite zlen_nil, Z.add_0_r, !app_nil_r. 
    pose proof (grown_refl start self self closed cur eq_refl eq_refl). done. }
  apply Forall_cons in Hb as [Hbe Hb]. destruct Hc as [Hn Hc]. cbn [write_entries].
  destruct (write_entry_ok fid0 start closed cur next self id data Hrel Hbe Hn)
    as (s1 & cl1 & cu1 & -> & Hr1 & He1 & Hb1 & Hne1 & Hone & Hq1 & Hfull1 & Hids1).
  destruct (IH _ cu1 (next + 1) s1 Hr1 Hb Hc) as (s2 & cl2 & cu2 & -> & Hr2 & He2 & Hb2 & Hne2 & Hq2).
  exists s2, (cl1 ++ cl2), cu2. rewrite <- app_assoc in Hr2, He2.
  assert (grown start self s1 closed cur cl1 cu1) as Hg1.
  { split; [by intros ->| | |done]; rewrite He1; rewrite (zlen_app _ [_]), zlen_cons, zlen_nil; [lia|].
    intros Hw Hv. apply Hfull1; [done|]. cbn [fst] in Hn. rewrite (rel_next _ _ _ _ _ _ Hrel),
      (rel_start _ _ _ _ _ _ Hrel) in Hn. rewrite zlen_app in Hv. lia. }
  split; [done|]. split; [|split; [by rewrite He2, He1, <- app_assoc|split; [congruence|
    split; [by eapply grown_trans|by etrans]]]].
  rewrite zlen_cons. by replace (next + (1 + zlen es)) with (next + 1 + zlen es) by lia.
Qed.

(** ** Arrivals in any order *)

Lemma arrive_spec b e rel b' : ob_inv b -> ob_fresh b (fst e) -> arrive b e = (rel, b') ->
  rel ++ ob_pending b' ≡ₚ e :: ob_pending b /\ consecutive (ob_next b) rel /\
  ob_next b' = ob_next b + zlen rel /\ ob_inv b'.
Proof.
  intros Hinv Hfr. unfold arrive. destruct (ob_can_write b (fst e)) as [w b1] eqn:Hw.
  apply can_write_spec in Hw as (Hwv & Hp & Hn & Hsame & Hi1); [|done..].
  destruct w.
  - intros [= <- <-]. symmetry in Hwv. apply bool_decide_eq_true in Hwv.
    rewrite Hp, zlen_cons, zlen_nil. split_and!; try done.
  - rewrite Hsame by done. intros Ha. by apply wait_for_order_spec in Ha as (? & ? & ? & _ & ?).
Qed.

(** What a good writer has: the entries that arrived are written, consecutive
    from [start], or wait in the buffer. *)
Definition wr_good_at (fid0 start : Z) (closed : list closed_file) (cur arrived : list (uintn * bytes))
    (self : writer_state) : Prop :=
  wr_rel fid0 start closed cur (ob_next (wr_buffer self)) self /\ ob_inv (wr_buffer self) /\
  Forall entry_bound (ob_pending (wr_buffer self)) /\
  consecutive start (closed_entries closed ++ cur) /\
  ob_next (wr_buffer self) = start + zlen (closed_entries closed ++ cur) /\
  (closed_entries closed ++ cur) ++ ob_pending (wr_buffer self) ≡ₚ arrived.

Definition wr_good (fid0 start : Z) (arrived : list (uintn * bytes)) (self : writer_state) : Prop :=
  exists closed cur, wr_good_at fid0 start closed cur arrived self.

Lemma good_at_good fid0 start cl cu arrived self : wr_good_at fid0 start cl cu arrived self ->
  wr_good fid0 start arrived self.
Proof. intros H. by exists cl, cu. Qed.

(** Consecutive ids are distinct. *)
Lemma consecutive_nodup n es : consecutive n es -> NoDup (map (fun e => uintn_val (fst e)) es).
Proof.
  intros Hc. apply NoDup_alt. intros i j v Hi Hj. rewrite !list_lookup_fmap in Hi, Hj.
  destruct (es !! i) as [a|] eqn:Ea; [|done]. destruct (es !! j) as [b|] eqn:Eb; [|done].
  cbn in *. simplify_eq.
  pose proof (consecutive_ids _ _ Hc _ _ Ea). pose proof (consecutive_ids _ _ Hc _ _ Eb). lia.
Qed.

Lemma set_buffer_rel fid0 start closed cur next self b :
  wr_rel fid0 start closed cur next self -> wr_rel fid0 start closed cur next (set_buffer self b).
Proof. by intros []. Qed.

Lemma write_good_at fid0 start closed cur arrived self id data :
  wr_good_at fid0 start closed cur arrived self -> entry_bound (id, data) ->
  ob_fresh (wr_buffer self) id ->
  exists self' extra cur', wr_write self id data = (self', Ok tt) /\
    wr_good_at fid0 start (closed ++ extra) cur' (arrived ++ [(id, data)]) self' /\
    wr_buffer self' = snd (arrive (wr_buffer self) (id, data)) /\
    grown start self self' closed cur extra cur' /\ wr_later self self'.
Proof.
  intros (Hrel & Hinv & Hpb & Hcons & Hn & Hperm) Hb Hfr. unfold wr_write.
  destruct (arrive (wr_buffer self) (id, data)) as [rel b'] eqn:Ha.
  apply arrive_spec in Ha as (Hp & Hc & Hn' & Hi'); [|done..].
  assert (Forall entry_bound (rel ++ ob_pending b')) as Hbs by (rewrite Hp; by constructor).
  apply Forall_app in Hbs as [Hbr Hbp].
  destruct (write_entries_ok fid0 start closed cur _ _ rel (set_buffer_rel _ _ _ _ _ _ b' Hrel) Hbr Hc)
    as (s' & extra & cu' & -> & Hr' & He & Hbu & Hne & Hl).
  exists s', extra, cu'. split; [done|]. split; [|split; [by rewrite Hbu|split; [by destruct Hne|done]]].
  unfold wr_good_at. rewrite Hbu. cbn [wr_buffer set_buffer].
  rewrite Hn', He. split_and!; try done.
  - apply consecutive_app. split; [done|]. by rewrite <- Hn.
  - rewrite zlen_app. lia.
  - rewrite <- app_assoc, Hp, <- Hperm. solve_Permutation.
Qed.

Lemma write_good fid0 start arrived self id data :
  wr_good fid0 start arrived self -> entry_bound (id, data) ->
  ob_fresh (wr_buffer self) id ->
  exists self', wr_write self id data = (self', Ok tt) /\
    wr_good fid0 start (arrived ++ [(id, data)]) self' /\
    wr_buffer self' = snd (arrive (wr_buffer self) (id, data)) /\ wr_later self self'.
Proof.
  intros (cl & cu & Hg) Hb Hfr.
  destruct (write_good_at _ _ _ _ _ _ id data Hg Hb Hfr) as (s' & ex & cu' & ? & ? & ? & _ & ?).
  exists s'. split_and!; try done. by eexists _, _.
Qed.

(** ** Whole runs *)

(** What happens to a writer on a healthy machine: an entry arrives, or the
    background task takes the buffer or writes its block. *)
Inductive wr_event :=
| WrArrive (id : uintn) (data : bytes)
| WrTake
| WrAttempt.

Definition wr_exec (self : writer_state) (ev : wr_event) : option writer_state :=
  match ev with
  | WrArrive id data => handle_request self (Enqueue id data)
  | WrTake => Some (wr_background self EvTake)
  | WrAttempt => Some (wr_background self (EvAttempt Succeeds))
  end.

Fixpoint wr_run (self : writer_state) (evs : list wr_event) : option writer_state :=
  match evs with
  | [] => Some self
  | ev :: evs => match wr_exec self ev with Some s => wr_run s evs | None => None end
  end.

Definition arrival (ev : wr_event) : option (uintn * bytes) :=
  match ev with WrArrive id data => Some (id, data) | _ => None end.
Definition arrivals (evs : list wr_event) : list (uintn * bytes) := omap arrival evs.

Lemma take_frame self : afw_running (flush_take self) = afw_running self /\
  afw_set (flush_take self) = afw_set self /\
  afw_current_size (flush_take self) = afw_current_size self.
Proof. unfold flush_take. by case_decide. Qed.

Lemma exec_sent self ev self' : afw_exec self ev = Some self' -> reliable ev ->
  exists acks, afw_sent self' = afw_sent self ++ acks.
Proof.
  intros He Hr. destruct ev as [q id entry| |a]; simpl in He.
  - case_bool_decide; [done|]. unfold afw_write in He. destruct (arith _ _); [|done..].
    injection He as <-. exists []. by rewrite app_nil_r.
  - destruct (afw_inflight self); [done|]. destruct (afw_running self); [|done]. injection He as <-.
    exists []. by rewrite take_sent, app_nil_r.
  - destruct (afw_inflight self) as [b|]; [|done]. injection He as <-. simpl in Hr. subst a.
    by exists (if_acks b).
Qed.

Lemma background_later self ev : reliable ev -> wr_later self (wr_background self ev).
Proof.
  intros Hr. unfold wr_background. destruct (afw_exec _ _) as [fw|] eqn:He; [|done].
  destruct (exec_sent _ _ _ He Hr) as [acks Ha]. split_and!; [done..|]. exists acks.
  unfold all_acks. cbn [set_file_writer wr_acked wr_file_writer]. by rewrite Ha, app_assoc.
Qed.

Lemma background_good_at fid0 start cl cu arrived self ev :
  reliable ev -> written [ev] = [] -> wr_good_at fid0 start cl cu arrived self ->
  wr_good_at fid0 start cl cu arrived (wr_background self ev).
Proof.
  intros Hr Hw (Hrel & Hrest). unfold wr_background.
  destruct (afw_exec (wr_file_writer self) ev) as [fw|] eqn:He; [|by split].
  split; [|done]. destruct Hrel.
  pose proof (exact_exec _ _ _ _ _ Hr rel_writer0 He) as Hx. rewrite Hw, app_nil_r in Hx.
  assert (afw_running fw = afw_running (wr_file_writer self) /\
    afw_set fw = afw_set (wr_file_writer self) /\
    afw_current_size fw = afw_current_size (wr_file_writer self)) as (Hru & Hse & Hcu).
  { destruct ev as [| |a]; [done| |]; simpl in He; destruct (afw_inflight _) as [b|]; try done.
    - destruct (afw_running (wr_file_writer self)) eqn:?; [|done]. injection He as <-.
      destruct (take_frame (wr_file_writer self)) as (-> & -> & ->). done.
    - injection He as <-. simpl in Hr. by subst a. }
  split; cbn [set_file_writer wr_file_id wr_header wr_open_path wr_queue_path wr_disk wr_acked
    wr_completed wr_file_writer wr_queue_id wr_settings wr_has_written wr_create wr_io];
    rewrite ?Hru, ?Hse, ?Hcu; done.
Qed.

Lemma background_good fid0 start arrived self ev :
  reliable ev -> written [ev] = [] -> wr_good fid0 start arrived self ->
  wr_good fid0 start arrived (wr_background self ev).
Proof. intros Hr Hw (cl & cu & Hg). exists cl, cu. by apply background_good_at. Qed.

(** Distinct ids from [start] on are fresh when they arrive. *)
Lemma good_fresh fid0 start arrived self id :
  wr_good fid0 start arrived self -> uintn_ok id -> start <= uintn_val id ->
  ~ In (uintn_val id) (map (fun e => uintn_val (fst e)) arrived) ->
  ob_fresh (wr_buffer self) id.
Proof.
  intros (cl & cu & (_ & _ & _ & Hc & Hn & Hp)) Hok Hs Hni.
  assert (forall l, In (uintn_val id) (map (fun e => uintn_val (fst e)) l) ->
    (forall x, In x l -> In x ((closed_entries cl ++ cu) ++ ob_pending (wr_buffer self))) -> False)
    as Hno.
  { intros l Hl Hsub. apply Hni. apply in_map_iff in Hl as (x & Hx & Hin).
    apply in_map_iff. exists x. split; [done|]. rewrite <- Hp. by apply Hsub. }
  split_and!; [done| |].
  - destruct (decide (ob_next (wr_buffer self) <= uintn_val id)) as [|Hlt]; [done|exfalso].
    set (out := closed_entries cl ++ cu) in *.
    destruct (lookup_lt_is_Some_2 out (Z.to_nat (uintn_val id - start))) as [e He].
    { unfold zlen in *. lia. }
    pose proof (consecutive_ids _ _ Hc _ _ He) as Hv.
    apply (Hno out).
    + apply in_map_iff. exists e. split; [lia|]. eapply list_elem_of_In, list_elem_of_lookup_2, He.
    + intros x Hx. apply in_or_app. by left.
  - intros Hin. apply (Hno _ Hin). intros x Hx. apply in_or_app. by right.
Qed.

(** The reordering buffer after a sequence of arrivals. *)
Definition arrive_all (b : ordered_buffer) (es : list (uintn * bytes)) : ordered_buffer :=
  fold_left (fun b e => snd (arrive b e)) es b.

Lemma background_buffer self ev : wr_buffer (wr_background self ev) = wr_buffer self.
Proof. unfold wr_background. by destruct (afw_exec _ _). Qed.

Lemma run_good fid0 start evs arrived self :
  wr_good fid0 start arrived self ->
  Forall (fun e => entry_bound e /\ start <= uintn_val (fst e)) (arrivals evs) ->
  NoDup (map (fun e => uintn_val (fst e)) (arrived ++ arrivals evs)) ->
  exists self', wr_run self evs = Some self' /\
    wr_good fid0 start (arrived ++ arrivals evs) self' /\
    wr_buffer self' = arrive_all (wr_buffer self) (arrivals evs) /\ wr_later self self'.
Proof.
  revert arrived self. induction evs as [|ev evs IH]; intros arrived self Hg Hb Hnd.
  { exists self. rewrite app_nil_r. do 3 (split; [done|]). done. }
  cbn [wr_run]. destruct ev as [id data| |].
  - change (arrivals (WrArrive id data :: evs)) with ((id, data) :: arrivals evs) in *.
    apply Forall_cons in Hb as [[Hbe Hs] Hb]. rewrite cons_middle, app_assoc in Hnd |- *.
    destruct (write_good fid0 start arrived self id data Hg Hbe) as (s & Hw & Hg' & Hbuf & Hl).
    { eapply good_fresh; [done|apply Hbe|done|]. rewrite !map_app in Hnd.
      apply NoDup_app in Hnd as (Hnd & _ & _). apply NoDup_app in Hnd as (_ & Hnd & _).
      intros Hin. eapply Hnd; [by apply list_elem_of_In|]. simpl. left. }
    cbn [wr_exec handle_request]. rewrite Hw. cbn [arrive_all fold_left].
    rewrite <- Hbuf. destruct (IH _ s Hg' Hb Hnd) as (s' & ? & ? & ? & ?).
    exists s'. do 3 (split; [done|]). by etrans.
  - change (arrivals (WrTake :: evs)) with (arrivals evs) in *. cbn [wr_exec].
    rewrite <- (background_buffer self EvTake).
    destruct (IH arrived (wr_background self EvTake)) as (s' & ? & ? & ? & ?);
      [by apply background_good|done..|].
    exists s'. do 3 (split; [done|]). etrans; [by apply (background_later _ EvTake)|done].
  - change (arrivals (WrAttempt :: evs)) with (arrivals evs) in *. cbn [wr_exec].
    rewrite <- (background_buffer self (EvAttempt Succeeds)).
    destruct (IH arrived (wr_background self (EvAttempt Succeeds))) as (s' & ? & ? & ? & ?);
      [by apply background_good|done..|].
    exists s'. do 3 (split; [done|]). etrans; [by apply (background_later _ (EvAttempt Succeeds))|done].
Qed.

(** A new writer. *)
Lemma new_good q root fid h settings last_id :
  uintn_ok fid -> wal_header_ok h -> uintn_val (num_entries_before h) < 2 ^ 128 ->
  last_ok last_id -> next_after last_id = uintn_val (num_entries_before h) ->
  ws_enable_fsync settings = true -> ws_max_file_size settings <= 2 ^ 62 ->
  exists self, wal_writer_new q root fid h settings last_id [] [] = Ok self /\
    wr_good_at (uintn_val fid) (uintn_val (num_entries_before h)) [] [] [] self /\
    wr_queue_path self = queue_to_wal_dir q root /\ wr_queue_id self = q /\ all_acks self = [].
Proof.
  intros Hf Hh Hv Hl Hn Hfs Hmax. unfold wal_writer_new. cbn [head default].
  rewrite new_file_writer_ok. eexists. split; [reflexivity|]. split; [|done].
  assert (wal_header_size h <= 48) as Hsz.
  { destruct (id_size_small (num_entries_before h)) as [_ ?]; [apply Hh|done|].
    unfold wal_header_size, wal_header_fixed_size. lia. }
  pose proof (wal_header_size_pos h).
  unfold wr_good_at, ob_next, ob_inv.
  cbn [wr_buffer ordered_buffer_new ob_pending ob_last_written_id closed_entries map concat app].
  rewrite Hn, zlen_nil, Z.add_0_r. split; [|split_and!; try done; constructor].
  split; cbn [wr_file_id wr_header wr_open_path wr_queue_path wr_disk wr_completed wr_acked
    wr_file_writer wr_queue_id wr_settings wr_has_written wr_create wr_io afw_new
    afw_current_size]; rewrite ?zlen_nil, ?zlen_encode_header, ?Z.add_0_r; try done.
  - by apply exact_new.
  - unfold size_limit. lia.
  - intros _. split; [done|lia].
  - split; [by left|constructor].
Qed.

Lemma new_frame q root fid h settings last_id self :
  wal_writer_new q root fid h settings last_id [] [] = Ok self ->
  wr_header self = h /\ wr_file_id self = fid /\ wr_completed self = [].
Proof.
  unfold wal_writer_new. cbn [head default]. rewrite new_file_writer_ok. ok_step. by intros [= <-].
Qed.

(** The settings stay. *)
Lemma append_settings self id data self' : append_entry self id data = Ok self' ->
  wr_settings self' = wr_settings self.
Proof.
  unfold append_entry. cbn zeta. destruct (map_err _ _) as [buf| |]; ok_step; try done.
  destruct (afw_write _ _ _ _) as [fw| |]; ok_step; try done. by intros [= <-].
Qed.

Lemma rotate_settings self id size : wr_settings (fst (wr_rotate self id size)) = wr_settings self.
Proof. unfold wr_rotate. by repeat case_match. Qed.

Lemma write_settings self id data : wr_settings (fst (wr_write self id data)) = wr_settings self.
Proof.
  assert (forall s e, wr_settings (fst (write_entry s e)) = wr_settings s) as He.
  { intros s [i d]. unfold write_entry. destruct (needs_rotation s i (zlen d)) as [[|]| |]; try done.
    - pose proof (rotate_settings s i (zlen d)) as Hr. destruct (wr_rotate s i (zlen d)) as [s1 [?| |]]; try done.
      destruct (append_entry s1 i d) eqn:Ha; [|done..]. apply append_settings in Ha. cbn in *. congruence.
    - destruct (append_entry s i d) eqn:Ha; [|done..]. by apply append_settings in Ha. }
  unfold wr_write. destruct (arrive _ _) as [es b]. change (wr_settings self) with (wr_settings (set_buffer self b)).
  generalize (set_buffer self b). induction es as [|e es IH]; intros s; [done|]. cbn [write_entries].
  pose proof (He s e) as Hs. destruct (write_entry s e) as [s' [?| |]]; cbn in Hs; [by rewrite IH|done..].
Qed.

Lemma run_settings evs self self' : wr_run self evs = Some self' -> wr_settings self' = wr_settings self.
Proof.
  revert self. induction evs as [|ev evs IH]; intros self; [by intros [= ->]|]. cbn [wr_run].
  destruct (wr_exec self ev) as [s|] eqn:He; [|done]. intros Hr. rewrite (IH s Hr).
  destruct ev as [id data| |]; cbn [wr_exec handle_request] in He.
  - pose proof (write_settings self id data) as Hw. destruct (wr_write self id data) as [s' [?| |]]; by simplify_eq.
  - injection He as <-. unfold wr_background. by destruct (afw_exec _ _).
  - injection He as <-. unfold wr_background. by destruct (afw_exec _ _).
Qed.

Lemma new_settings q root fid h settings last_id self :
  wal_writer_new q root fid h settings last_id [] [] = Ok self -> wr_settings self = settings.
Proof. unfold wal_writer_new. cbn [head default]. rewrite new_file_writer_ok. ok_step. by intros [= <-]. Qed.

(** Arrivals in order leave nothing waiting. *)
Lemma arrive_all_in_order b es : ob_inv b -> ob_pending b = [] ->
  Forall (fun e => uintn_ok (fst e)) es -> consecutive (ob_next b) es ->
  ob_pending (arrive_all b es) = [].
Proof.
  intros Hi Hp Hok. revert b Hi Hp. induction Hok as [|e es He Hok IH]; intros b Hi Hp Hc; [done|].
  destruct Hc as [Hn Hc]. cbn [arrive_all fold_left].
  assert (ob_fresh b (fst e)) as Hfr by (split_and!; [done|lia|rewrite Hp; simpl; tauto]).
  destruct (ob_can_write b (fst e)) as [w b1] eqn:Hw. unfold arrive. rewrite Hw.
  apply can_write_spec in Hw as (-> & Hp1 & Hn1 & _ & Hi1); [|done..].
  rewrite bool_decide_true in * by done. simpl. apply IH; [done|congruence|]. by rewrite Hn1.
Qed.

(** ** The files after a close *)

Definition file_entry (q : str) (c : closed_file) : str * bytes :=
  (uintn_to_file_path (fst (fst c)) q (s2l "wal"), wal_file (snd (fst c)) (snd c) []).

Section Close.
Context (fid0 start : Z) (closed : list closed_file) (cur arrived : list (uintn * bytes)).
Context (self : writer_state).
Hypothesis Hgood : wr_good_at fid0 start closed cur arrived self.

(** The files with the open one. *)
Definition all_closed : list closed_file := closed ++ [(wr_file_id self, wr_header self, cur)].

Lemma all_closed_entries : closed_entries all_closed = closed_entries closed ++ cur.
Proof. apply closed_snoc. Qed.

Lemma all_closed_chain : file_chain fid0 start all_closed.
Proof. destruct Hgood as [[] _]. destruct rel_file_id0. by apply file_chain_snoc. Qed.

Lemma all_closed_sizes :
  Forall (fun c : closed_file => zlen (wal_file (snd (fst c)) (snd c) []) <= size_limit) all_closed.
Proof.
  destruct Hgood as [[] _]. apply Forall_app. split; [done|]. repeat constructor. cbn [fst snd].
  unfold wal_file. rewrite !zlen_app, zlen_nil. lia.
Qed.

Lemma close_at :
  wr_files (close_writer self) = map (file_entry (wr_queue_path self)) all_closed /\
  wr_disk (close_writer self) = wr_disk self /\
  wr_completed (close_writer self) = wr_completed self /\
  wr_later self (close_writer self) /\
  Forall (fun a => In a (map (fun e => (wr_queue_id self, fst e)) (closed_entries all_closed)))
    (all_acks (close_writer self)).
Proof.
  destruct Hgood as [[] _]. rewrite all_closed_entries.
  destruct (close_exact _ _ _ rel_running0 rel_writer0)
    as (fw & Hcl & Hfile & _ & _ & _ & Hacks & acks & Hsent).
  unfold close_writer. rewrite (proj2 rel_faults0), Hcl. unfold wr_files, wr_later, all_acks.
  cbn [wr_disk wr_open_path wr_file_writer wr_completed wr_queue_path wr_queue_id wr_acked].
  split_and!; try done.
  - unfold all_closed. rewrite map_app, rel_disk0, rel_path0, Hfile, blocks_log.
    cbn [map]. unfold file_entry at 2. cbn [fst snd]. unfold wal_file. rewrite app_nil_r.
    f_equal. apply map_ext. by intros [[f h] es].
  - exists acks. by rewrite Hsent, app_assoc.
  - rewrite map_app. apply Forall_app. split.
    + eapply Forall_impl; [exact rel_acked0|]. intros a Ha. apply in_or_app. by left.
    + eapply Forall_impl; [exact Hacks|]. intros a Ha. apply in_or_app. right.
      unfold log_of in Ha. by rewrite map_map in Ha.
Qed.

Lemma all_closed_within :
  Forall (fun c : closed_file => within (ws_max_file_size (wr_settings self)) (snd (fst c)) (snd c)) all_closed.
Proof.
  destruct Hgood as [[] _]. apply Forall_app. split; [apply rel_within0|].
  constructor; [apply rel_within0|constructor].
Qed.

(** What the open file holds, and what is acknowledged: only entries that are
    in the files. *)
Lemma open_at : exists done rest, cur = done ++ rest /\
  afw_file (wr_file_writer self) = wal_file (wr_header self) done [] /\
  Forall (fun a => In a (map (fun e => (wr_queue_id self, fst e)) (closed_entries closed ++ done)))
    (all_acks self).
Proof.
  destruct Hgood as [[] _]. destruct (ex_done _ _ _ rel_writer0) as (d & r & Hl & Hf & _ & Ha).
  unfold log_of in Hl. apply map_eq_app in Hl as (done & rest & -> & <- & <-).
  exists done, rest. split; [done|]. split.
  - rewrite Hf. change (map _ done) with (log_of (wr_queue_id self) (wr_header self) done).
    rewrite blocks_log. unfold wal_file. by rewrite app_nil_r.
  - unfold all_acks. rewrite map_app. apply Forall_app. split.
    + eapply Forall_impl; [exact rel_acked0|]. intros a Hin. apply in_or_app. by left.
    + eapply Forall_impl; [exact Ha|]. intros a Hin. apply in_or_app. right.
      by rewrite map_map in Hin.
Qed.

End Close.

Lemma close_files fid0 start arrived self : wr_good fid0 start arrived self ->
  exists files,
    wr_files (close_writer self) = map (file_entry (wr_queue_path self)) files /\
    file_chain fid0 start files /\ consecutive start (closed_entries files) /\
    closed_entries files ++ ob_pending (wr_buffer self) ≡ₚ arrived /\
    ob_next (wr_buffer self) = start + zlen (closed_entries files).
Proof.
  intros (cl & cu & Hg). exists (all_closed cl cu self). rewrite all_closed_entries.
  destruct (close_at _ _ _ _ _ _ Hg) as [Hf _]. pose proof (all_closed_chain _ _ _ _ _ _ Hg).
  by destruct Hg as (_ & _ & _ & ? & ? & ?).
Qed.

(** ** Reading the files back *)

Lemma consecutive_sorted n es : consecutive n es -> StronglySorted id_lt (map fst es).
Proof.
  revert n. induction es as [|e es IH]; intros n; [constructor|]. intros [He Hc].
  constructor; [by eapply IH|]. apply List.Forall_forall. intros x Hx.
  apply in_map_iff in Hx as (y & <- & Hy). apply list_elem_of_In, list_elem_of_lookup in Hy
    as [i Hi]. pose proof (consecutive_ids _ _ Hc _ _ Hi). unfold id_lt. lia.
Qed.

Lemma consecutive_perm n l k : consecutive n l -> consecutive n k -> l ≡ₚ k -> l = k.
Proof.
  revert n k. induction l as [|x l IH]; intros n k Hl Hk Hp.
  { by apply Permutation_nil in Hp. }
  destruct k as [|y k]; [by apply Permutation_sym, Permutation_nil in Hp|].
  destruct Hl as [Hx Hl], Hk as [Hy Hk].
  assert (x = y) as ->.
  { assert (In x (y :: k)) as [?|Hin] by (rewrite <- Hp; by left); [done|].
    apply list_elem_of_In, list_elem_of_lookup in Hin as [i Hi].
    pose proof (consecutive_ids _ _ Hk _ _ Hi). lia. }
  f_equal. eapply IH; [done..|]. by apply Permutation_cons_inv in Hp.
Qed.

(** What a read of a file sends. *)
Definition sent_by (r : outcome wal_error (read_range_result * channel)) : list read_entry :=
  match r with Ok (_, ch) => ch_sent ch | _ => [] end.

Definition read_files (d : disk) (base : str) (files : list closed_file) (from : uintn)
    (until : option uintn) (step : Z) (src : data_source) : list read_entry :=
  concat (map (fun c => sent_by (read_wal_file_range d base (fst (fst c)) from until step
    {| ch_sent := []; ch_life := None |} src)) files).

Lemma read_files_chain d base files n start from until step src :
  file_chain n start files -> uintn_ok from -> opt_ok until -> in_u 64 step ->
  Forall (fun f => d (fst f) = file_of (snd f)) (map (file_entry base) files) ->
  read_files d base files from until step src =
    map (to_read_entry src) (List.filter (selected from until (Z.max step 1))
      (closed_entries files)).
Proof.
  intros Hc Hf Hu Hs. revert n start Hc.
  induction files as [|[[fid h] es] files IH]; intros n start Hc Hd; [done|].
  destruct Hc as (Hfid & _ & (Hh & Hes & Hcon) & _ & Hc). cbn [map] in Hd.
  apply Forall_cons in Hd as [Hd Hds]. cbn in Hd.
  unfold read_files, closed_entries in *. cbn [map concat fst snd].
  rewrite (IH _ _ Hc Hds), List.filter_app, map_app. f_equal.
  rewrite (file_range_fold h es [] None); [|done|done|by apply torn_nil|done].
  rewrite fold_delivers; try done; cbn [opt_list]; rewrite app_nil_r.
  - by eapply consecutive_sorted.
  - apply List.Forall_forall. intros x Hx. apply in_map_iff in Hx as (e & <- & He).
    rewrite List.Forall_forall in Hes. apply canonical_ok, (Hes e He).
Qed.

(** ** Claims *)

Section Claims.
Context (q : queue_id) (root : str) (fid : uintn) (h : wal_header) (settings : wal_settings).
Context (last_id : option uintn).
Hypothesis Hfid : uintn_ok fid.
Hypothesis Hh : wal_header_ok h.
Hypothesis Hbefore : uintn_val (num_entries_before h) < 2 ^ 128.
Hypothesis Hlast : last_ok last_id.
Hypothesis Hnext : next_after last_id = uintn_val (num_entries_before h).
Hypothesis Hfsync : ws_enable_fsync settings = true.
Hypothesis Hmax : ws_max_file_size settings <= 2 ^ 62.

(** C9: entries that arrive at a new writer in any order, with distinct ids from
    the first free one on, and with the background task flushing at any moment,
    never fail: after the close the files are a chain with consecutive file
    ids, in each header the id of its first entry; their entries have
    consecutive ids from the first free one, and these with the entries still
    waiting for a missing id are the entries that arrived. *)
Theorem wal_writer_any_order evs :
  Forall (fun e => entry_bound e /\ uintn_val (num_entries_before h) <= uintn_val (fst e))
    (arrivals evs) ->
  NoDup (map (fun e => uintn_val (fst e)) (arrivals evs)) ->
  exists self self' files,
    wal_writer_new q root fid h settings last_id [] [] = Ok self /\
    wr_run self evs = Some self' /\
    wr_files (close_writer self') = map (file_entry (queue_to_wal_dir q root)) files /\
    file_chain (uintn_val fid) (uintn_val (num_entries_before h)) files /\
    consecutive (uintn_val (num_entries_before h)) (closed_entries files) /\
    closed_entries files ++ ob_pending (wr_buffer self') ≡ₚ arrivals evs.
Proof.
  intros Hev Hnd.
  destruct (new_good q root fid h settings last_id) as (self & Hnew & Hg & Hp & _); [done..|].
  destruct (run_good _ _ evs [] self (good_at_good _ _ _ _ _ _ Hg) Hev Hnd)
    as (self' & Hrun & Hg' & _ & Hlat & _).
  destruct (close_files _ _ _ _ Hg') as (files & Hf & Hc & Hcon & Hperm & _).
  exists self, self', files. split_and!; try done.
  by rewrite Hf, Hlat, Hp.
Qed.

(** C20: the files of a writer stay small as long as its writes succeed: when
    entries with distinct ids below 2^128, from the first free one on, arrive at
    a new writer (fsync on) in any order, with the background task flushing at
    any moment, every file that holds more than one entry is, after the close, at
    most the configured size and the header of one entry long (the check of the
    limit does not count that header).  A write that fails and is retried
    appends its blocks again and is not counted here. *)
Theorem wal_files_bounded evs :
  Forall (fun e => entry_bound e /\ uintn_val (num_entries_before h) <= uintn_val (fst e))
    (arrivals evs) ->
  NoDup (map (fun e => uintn_val (fst e)) (arrivals evs)) ->
  exists self self' files,
    wal_writer_new q root fid h settings last_id [] [] = Ok self /\
    wr_run self evs = Some self' /\
    wr_files (close_writer self') = map (file_entry (queue_to_wal_dir q root)) files /\
    Forall (fun c => zlen (snd c) <= 1 \/
      zlen (snd (file_entry (queue_to_wal_dir q root) c)) <=
        ws_max_file_size settings + entry_overhead (snd (fst c))) files.
Proof.
  intros Hev Hnd.
  destruct (new_good q root fid h settings last_id) as (self & Hnew & Hg & Hp & _); [done..|].
  destruct (run_good _ _ evs [] self (good_at_good _ _ _ _ _ _ Hg) Hev Hnd)
    as (self' & Hrun & (cl & cu & Hg') & _ & Hlat & _).
  destruct (close_at _ _ _ _ _ _ Hg') as [Hf _]. pose proof (all_closed_within _ _ _ _ _ _ Hg') as Hw.
  rewrite (run_settings _ _ _ Hrun), (new_settings _ _ _ _ _ _ _ Hnew) in Hw.
  exists self, self', (all_closed cl cu self'). do 2 (split; [done|]).
  split; [by rewrite Hf, Hlat, Hp|]. eapply Forall_impl; [exact Hw|]. by intros [[f hd] es].
Qed.

(** C7: entries that arrive in order are all in the files after the close, in
    order, however the background task was interleaved and wherever the files
    were rotated; reading the files one after the other sends exactly the
    entries of the range and step, with their data. *)
Theorem wal_write_then_read evs :
  Forall entry_bound (arrivals evs) ->
  consecutive (uintn_val (num_entries_before h)) (arrivals evs) ->
  exists self self' files,
    wal_writer_new q root fid h settings last_id [] [] = Ok self /\
    wr_run self evs = Some self' /\
    wr_files (close_writer self') = map (file_entry (queue_to_wal_dir q root)) files /\
    file_chain (uintn_val fid) (uintn_val (num_entries_before h)) files /\ closed_entries files = arrivals evs /\
    forall d from until step src,
      Forall (fun f => d (fst f) = file_of (snd f)) (wr_files (close_writer self')) ->
      uintn_ok from -> opt_ok until -> in_u 64 step ->
      read_files d (queue_to_wal_dir q root) files from until step src =
        map (to_read_entry src) (List.filter (selected from until (Z.max step 1)) (arrivals evs)).
Proof.
  intros Hev Hcon.
  destruct (new_good q root fid h settings last_id) as (self & Hnew & Hg & Hp & _); [done..|].
  assert (Hrange : Forall (fun e => entry_bound e /\
      uintn_val (num_entries_before h) <= uintn_val (fst e)) (arrivals evs)).
  { apply Forall_lookup_2. intros i e Hi. split; [exact (Forall_lookup_1 _ _ _ _ Hev Hi)|].
    pose proof (consecutive_ids _ _ Hcon _ _ Hi). lia. }
  destruct (run_good _ _ evs [] self (good_at_good _ _ _ _ _ _ Hg) Hrange (consecutive_nodup _ _ Hcon))
    as (self' & Hrun & Hg' & Hbuf & Hlat & _).
  destruct (close_files _ _ _ _ Hg') as (files & Hf & Hc & Hcf & Hperm & _).
  assert (closed_entries files = arrivals evs) as Heq.
  { eapply consecutive_perm; [done..|]. rewrite Hbuf, arrive_all_in_order in Hperm.
    - by rewrite app_nil_r in Hperm.
    - apply Hg.
    - unfold wal_writer_new in Hnew. rewrite new_file_writer_ok in Hnew. ok_step. by simplify_eq.
    - eapply Forall_impl; [exact Hev|]. intros e He. apply canonical_ok, He.
    - destruct Hg as (_ & _ & _ & _ & Hn & _). unfold zlen in Hn. cbn in Hn.
      by replace (ob_next (wr_buffer self)) with (uintn_val (num_entries_before h)) by lia. }
  exists self, self', files. rewrite Hf, Hlat, Hp. split_and!; try done.
  intros d from until step src Hd ? ? ?. rewrite <- Heq. by eapply read_files_chain.
Qed.

End Claims.

End Facts.

(** *** Runs of the writer *)

Definition demo_queue : queue_id := {| qid_path := s2l "/i/q" |}.
Definition demo_settings : wal_settings :=
  {| ws_max_file_size := 64; ws_write_buffer_size := 64; ws_enable_fsync := true;
     ws_encryption_type := EncNone; ws_compression_type := CompNone |}.

Definition demo_events : list wr_event :=
  [WrArrive (U8 0) [Byte.x61]; WrTake; WrArrive (U8 1) [Byte.x62; Byte.x63]; WrAttempt;
   WrArrive (U8 2) [Byte.x64]].
Definition demo_shuffled : list wr_event :=
  [WrArrive (U8 2) [Byte.x64]; WrArrive (U8 0) [Byte.x61]; WrTake;
   WrArrive (U8 1) [Byte.x62; Byte.x63]; WrAttempt].

Lemma demo_header_facts : wal_header_ok wal_header_default /\
  uintn_val (num_entries_before wal_header_default) < 2 ^ 128.
Proof. split; [split_and!; done|done]. Defined.

(** The entries of the files after a close, and those left in the buffer. *)
Definition demo_result (evs : list wr_event) : option (list (list uintn) * list uintn) :=
  match wal_writer_new demo_queue (s2l "/d") (U8 1) wal_header_default
          demo_settings None [] [] with
  | Ok self =>
      match wr_run (B := checked_build) self evs with
      | Some self =>
          let self := close_writer self in
          Some (map (fun f => map re_id (sent_by (read_wal_bytes_range (B := checked_build)
                  (snd f) (U8 0) None 1 {| ch_sent := []; ch_life := None |} DSDiskWal)))
                (wr_files self),
                map fst (ob_pending (wr_buffer self)))
      | None => None
      end
  | _ => None
  end.

(** An entry written directly does not release the entries that were
    waiting for it: after the arrivals 1, 0 entry 1 stays in the buffer, the
    close does not write it, and only a further arrival would. *)
Theorem direct_write_strands_pending :
  demo_result [WrArrive (U8 1) [Byte.x62]; WrArrive (U8 0) [Byte.x61]] =
    Some ([[U8 0]], [U8 1]) /\
  demo_result [WrArrive (U8 1) [Byte.x62]; WrArrive (U8 0) [Byte.x61];
               WrArrive (U8 2) [Byte.x63]] = Some ([[U8 0; U8 1]; [U8 2]], []).
Proof. split; vm_eq. Qed.

Lemma wal_files_bounded_witness :
  exists self self' files,
    wal_writer_new demo_queue (s2l "/d") (U8 1) wal_header_default
      demo_settings None [] [] = Ok self /\
    wr_run (B := checked_build) self demo_shuffled = Some self' /\
    wr_files (close_writer self') = map (file_entry (s2l "/d/i/q/wal")) files /\
    Forall (fun c => zlen (snd c) <= 1 \/
      zlen (snd (file_entry (s2l "/d/i/q/wal") c)) <= 64 + entry_overhead (snd (fst c))) files.
Proof.
  destruct demo_header_facts as [Hh Hb].
  apply (wal_files_bounded (B := checked_build) demo_queue (s2l "/d") (U8 1)
    wal_header_default demo_settings None ltac:(done) Hh Hb I eq_refl eq_refl
    ltac:(vm_compute; discriminate) demo_shuffled).
  - repeat constructor; vm_compute; discriminate || done.
  - apply NoDup_ListNoDup. vm_compute. repeat constructor; cbn; intuition discriminate.
Defined.

Lemma wal_write_then_read_witness :
  exists self self' files,
    wal_writer_new demo_queue (s2l "/d") (U8 1) wal_header_default
      demo_settings None [] [] = Ok self /\
    wr_run (B := checked_build) self demo_events = Some self' /\
    wr_files (close_writer self') = map (file_entry (s2l "/d/i/q/wal")) files /\
    closed_entries files =
      [(U8 0, [Byte.x61]); (U8 1, [Byte.x62; Byte.x63]); (U8 2, [Byte.x64])].
Proof.
  destruct demo_header_facts as [Hh Hb].
  destruct (wal_write_then_read (B := checked_build) demo_queue (s2l "/d") (U8 1)
    wal_header_default demo_settings None ltac:(done) Hh Hb I eq_refl eq_refl
    ltac:(vm_compute; discriminate) demo_events) as (self & self' & files & ? & ? & ? & _ & ? & _).
  - repeat constructor; vm_compute; discriminate || done.
  - split_and!; done.
  - by exists self, self', files.
Defined.

Lemma wal_writer_any_order_witness :
  exists self self' files,
    wal_writer_new demo_queue (s2l "/d") (U8 1) wal_header_default
      demo_settings None [] [] = Ok self /\
    wr_run (B := checked_build) self demo_shuffled = Some self' /\
    closed_entries files ++ ob_pending (wr_buffer self') ≡ₚ
      [(U8 2, [Byte.x64]); (U8 0, [Byte.x61]); (U8 1, [Byte.x62; Byte.x63])].
Proof.
  destruct demo_header_facts as [Hh Hb].
  destruct (wal_writer_any_order (B := checked_build) demo_queue (s2l "/d") (U8 1)
    wal_header_default demo_settings None ltac:(done) Hh Hb I eq_refl eq_refl
    ltac:(vm_compute; discriminate) demo_shuffled) as (self & self' & files & ? & ? & _ & _ & _ & ?).
  - repeat constructor; vm_compute; discriminate || done.
  - apply NoDup_ListNoDup. vm_compute. repeat constructor; cbn; intuition discriminate.
  - by exists self, self', files.
Defined.
