(* ===== verification/Durability.v ===== *)
(** * Durability of the write-ahead log

    What survives a crash: the file writer, the format and the reader together.
    A file cut at any byte reads as a whole number of entries, and an entry the
    application was told about is among them. *)
From Stdlib Require Import ZArith Lia List Bool Permutation Sorted.
From Stdlib Require Import Ascii String.
From stdpp Require Import base option list.
From S2P Require Import Prelude UBig UintN UintNFacts Paths PathsFacts Types WalFormat WalReader.
From S2P Require Import WalReaderFacts OrderedBuffer AckWriter WalWriter WalWriterFacts.
#[local] Open Scope Z_scope.

Section Durability.
Context {B : Build} {U : UBig} {X : Hasher} {S : UnstableSort}.

(** Cutting the entries at byte [k] keeps the entries that end before it. *)
Lemma cut_entries h es k : wal_header_ok h -> Forall (entry_fits h) es ->
  exists es' rest tail oid, es = es' ++ rest /\
    take k (encode_entries h es) = encode_entries h es' ++ tail /\ torn h tail oid /\
    (forall pre post, es = pre ++ post -> (length (encode_entries h pre) <= k)%nat ->
      exists more, es' = pre ++ more) /\
    (oid = None \/ exists e, head rest = Some e /\ oid = Some (fst e)).
Proof.
  intros Hok Hf. revert k. induction Hf as [|[id data] es He Hf IH]; intros k.
  { exists [], [], [], None. split_and!; try done.
    - by destruct k.
    - by apply torn_nil.
    - intros pre post E _. destruct pre; [|done]. by exists [].
    - by left. }
  destruct (entry_size_ok (E := unit) h Hok) as [_ Hov].
  pose proof (zlen_encode_entry h id data He) as Hl. pose proof (zlen_nonneg data).
  destruct (decide (length (encode_entry h id data) <= k)%nat) as [Hk|Hk].
  - destruct (IH (k - length (encode_entry h id data))%nat)
      as (es' & rest & tail & oid & Hes & Ht & Hto & Hpre & Ho).
    exists ((id, data) :: es'), rest, tail, oid. split_and!; try done.
    + by rewrite Hes.
    + rewrite !encode_entries_cons, take_app_ge, Ht by lia. by rewrite app_assoc.
    + intros pre post E Hp. destruct pre as [|p pre]; [by eexists|].
      injection E as <- E. destruct (Hpre pre post E) as [more ->]; [|by exists more].
      rewrite encode_entries_cons, length_app in Hp. lia.
  - assert (0 <= Z.of_nat k < zlen (encode_entry h id data)) as Hr by (unfold zlen; lia).
    pose proof (torn_prefix h id data (Z.of_nat k) Hok He Hr) as Hto. rewrite Nat2Z.id in Hto.
    eexists [], _, _, _. split_and!; [done| |exact Hto| |].
    + rewrite encode_entries_cons, take_app_le by lia. done.
    + intros pre post E Hp. destruct pre as [|p pre]; [by exists []|].
      injection E as <- E. rewrite encode_entries_cons, length_app in Hp. lia.
    + case_decide; [by left|]. right. by exists (id, data).
Qed.

(** The image of a crash of a healthy writer. *)
Lemma crash_image_entries q h es self image : wal_header_ok h -> Forall (entry_fits h) es ->
  afw_exact (encode_wal_header h) (log_of q h es) self -> crash_image self image ->
  (zlen image < wal_header_size h /\ afw_sent self = []) \/
  exists es' rest tail oid, image = wal_file h es' tail /\ torn h tail oid /\ es = es' ++ rest /\
    (forall a, In a (afw_sent self) -> exists e, In e es' /\ a = (q, fst e)) /\
    (oid = None \/ exists e, head rest = Some e /\ oid = Some (fst e)).
Proof.
  intros Hok Hf Hx Hc. destruct (crash_prefix _ _ _ _ Hx Hc) as (m & -> & Hacked).
  rewrite blocks_log in *.
  destruct (decide (length (encode_wal_header h) <= m)%nat) as [Hm|Hm].
  - right. rewrite take_app_ge by lia.
    destruct (cut_entries h es (m - length (encode_wal_header h)) Hok Hf)
      as (es' & rest & tail & oid & Hes & Ht & Hto & Hpre & Ho).
    exists es', rest, tail, oid. rewrite Ht. split_and!; try done.
    intros a Ha. destruct (Hacked a Ha) as (pre & x & post & Hlog & Hxa & Hlen).
    unfold log_of in Hlog. apply map_eq_app in Hlog as (pre' & post' & -> & <- & Hpost).
    symmetry in Hpost. destruct post' as [|e post']; [done|]. injection Hpost as Hxe _.
    destruct (Hpre (pre' ++ [e]) post') as [more ->].
    + by rewrite <- app_assoc.
    + rewrite Hxe in Hlen.
      change ([(q, fst e, encode_entry h (fst e) (snd e))]) with (log_of q h [e]) in Hlen.
      rewrite blocks_app, (blocks_log q h [e]), length_app in Hlen.
      rewrite encode_entries_app. unfold log_of in *.
      replace (blocks (map _ pre')) with (encode_entries h pre') in Hlen
        by (symmetry; apply (blocks_log q h pre')). lia.
    + exists e. split; [|by rewrite <- Hxa, Hxe]. apply in_or_app. left.
      apply in_or_app. right. by left.
  - left. split.
    + rewrite <- zlen_encode_header, take_app_le by lia. unfold zlen. rewrite length_take. lia.
    + destruct (afw_sent self) as [|a l]; [done|]. destruct (Hacked a) as (pre & x & post & _ & _ & Hl);
        [by left|]. rewrite length_app in Hl. lia.
Qed.

(** The events of a file writer that gets the entries [es] of a file. *)
Definition entry_events (q : queue_id) (h : wal_header) (evs : list afw_event)
    (es : list (uintn * bytes)) : Prop := written evs = log_of q h es.

Lemma sorted_app_head (l k : list uintn) x : StronglySorted id_lt (l ++ x :: k) ->
  StronglySorted id_lt (l ++ [x]).
Proof.
  induction l as [|y l IH]; intros Hs; [by repeat constructor|].
  inversion Hs as [|? ? Hs' Hy]; subst. cbn. constructor; [by apply IH|].
  apply Forall_app in Hy as [Hy Hx]. apply Forall_cons in Hx as [Hx _].
  apply Forall_app. split; [done|]. by constructor.
Qed.

Lemma sorted_prefix (l k : list uintn) : StronglySorted id_lt (l ++ k) -> StronglySorted id_lt l.
Proof.
  induction l as [|y l IH]; intros Hs; [constructor|].
  inversion Hs as [|? ? Hs' Hy]; subst. constructor; [by apply IH|].
  by apply Forall_app in Hy as [Hy _].
Qed.

(** The whole range selects everything. *)
Lemma selected_all h es : Forall (entry_fits h) es ->
  List.filter (selected uintn_zero None (Z.max 1 1)) es = es.
Proof.
  induction 1 as [|e es He _ IH]; [done|]. cbn [List.filter]. rewrite IH.
  replace (selected _ _ _ e) with true; [done|]. unfold selected. cbn [uintn_val uintn_zero].
  rewrite !bool_decide_true; [done|by rewrite Z.mod_1_r|].
  apply val_nonneg, ok_wf, canonical_ok, He.
Qed.

(** C10: a machine that crashes at any moment of any run without I/O errors
    leaves a file shorter than its header, and then nothing was acknowledged,
    or one from which the reader sends exactly the first entries written, in
    order, every acknowledged one among them. *)
Theorem crash_recovers_acknowledged settings q h es evs self image d base file_id :
  fsync settings = true -> wal_header_ok h -> Forall (entry_fits h) es ->
  StronglySorted id_lt (map fst es) ->
  Forall reliable evs -> entry_events q h evs es ->
  afw_run (afw_new settings (encode_wal_header h)) evs = Some self ->
  crash_image self image -> d (wal_file_path base file_id) = file_of image ->
  (zlen image < wal_header_size h /\ afw_sent self = []) \/
  exists es' rest r, es = es' ++ rest /\
    (forall a, In a (afw_sent self) -> exists e, In e es' /\ a = (q, fst e)) /\
    read_wal_file_range d base file_id uintn_zero None 1 {| ch_sent := []; ch_life := None |}
      DSDiskWal =
    Ok (r, {| ch_sent := map (to_read_entry DSDiskWal) es'; ch_life := None |}).
Proof.
  intros Hf Hh Hes Hs Hr He Hrun Hc Hd.
  pose proof (exact_run (encode_wal_header h) evs [] _ self Hr (exact_new settings _ Hf) Hrun) as Hx.
  rewrite He in Hx.
  destruct (crash_image_entries q h es self image Hh Hes Hx Hc)
    as [?|(es' & rest & tail & oid & -> & Ht & -> & Ha & Ho)]; [by left|right].
  exists es', rest. eexists. split; [done|]. split; [done|].
  apply Forall_app in Hes as [Hes' Hrest].
  assert (StronglySorted id_lt (map fst es' ++ opt_list oid) /\
          Forall uintn_ok (map fst es' ++ opt_list oid)) as [Hs' Hok].
  { rewrite map_app in Hs.
    assert (Forall uintn_ok (map fst es')) as Hok'.
    { apply Forall_map. eapply Forall_impl; [exact Hes'|]. intros e Hfit. apply canonical_ok, Hfit. }
    destruct Ho as [->|(e & Hhd & ->)]; cbn [opt_list].
    - rewrite app_nil_r. split; [by eapply sorted_prefix|done].
    - destruct rest as [|e' rest]; [done|]. injection Hhd as ->. split.
      + by eapply sorted_app_head.
      + apply Forall_app. split; [done|]. apply Forall_cons in Hrest as [Hfit _].
        constructor; [apply canonical_ok, Hfit|constructor]. }
  rewrite (file_range_fold h es' tail oid) by done. rewrite fold_delivers by done.
  by rewrite (selected_all h) by done.
Qed.

End Durability.

(** *** Runs *)

Definition log_entries : list (uintn * bytes) :=
  [(U8 0, [Byte.x61]); (U8 1, [Byte.x62; Byte.x63])].
Definition log_write (e : uintn * bytes) : afw_event :=
  EvWrite demo_queue (fst e) (encode_entry wal_header_default (fst e) (snd e)).

(** A writer stopped with the second entry in its block. *)
Definition log_events : list afw_event :=
  [log_write (U8 0, [Byte.x61]); EvTake; EvAttempt Succeeds;
   log_write (U8 1, [Byte.x62; Byte.x63]); EvTake].

(** A writer whose first attempt stopped after 5 bytes of the entry. *)
Definition torn_events : list afw_event :=
  [log_write (U8 0, [Byte.x61]); EvTake; EvAttempt (WriteFails 5); EvAttempt Succeeds].

Definition log_run (evs : list afw_event) : option afw :=
  afw_run (B := checked_build) (afw_new afw_settings_default (encode_wal_header wal_header_default))
    evs.

(** A write that fails part way is retried by appending the whole block
    again: the entry is acknowledged and its bytes are durable, but the reader,
    which stops at the torn copy, sends nothing of the file. *)
Theorem retry_hides_acknowledged :
  option_map (fun self =>
      (afw_sent self, (length (afw_file self) - afw_synced self)%nat,
       read_wal_bytes_range (B := checked_build) (afw_file self) (U8 0) None 1
         {| ch_sent := []; ch_life := None |} DSDiskWal)) (log_run torn_events) =
  Some ([(demo_queue, U8 0)], 0%nat,
        Ok (PartialRead None (U8 0), {| ch_sent := []; ch_life := None |})).
Proof. vm_eq. Qed.

Lemma crash_recovers_acknowledged_witness :
  match log_run log_events with
  | Some self =>
      let image := take 70 (afw_file self ++ pending_block self) in
      (zlen image < wal_header_size wal_header_default /\ afw_sent self = []) \/
      exists es' rest r, log_entries = es' ++ rest /\
        (forall a, In a (afw_sent self) -> exists e, In e es' /\ a = (demo_queue, fst e)) /\
        read_wal_file_range (B := checked_build) (fun _ => file_of image) (s2l "/q") (U8 1)
          uintn_zero None 1 {| ch_sent := []; ch_life := None |} DSDiskWal =
        Ok (r, {| ch_sent := map (to_read_entry DSDiskWal) es'; ch_life := None |})
  | None => False
  end.
Proof.
  assert (match log_run log_events with
          | Some self => Some (afw_synced self) | None => None end = Some 62%nat) as Hs
    by vm_eq.
  unfold log_run in *. destruct (afw_run _ log_events) as [self|] eqn:E; [|discriminate Hs].
  apply (crash_recovers_acknowledged (B := checked_build) afw_settings_default demo_queue
    wal_header_default log_entries log_events self _ (fun _ => file_of _) (s2l "/q") (U8 1)).
  - reflexivity.
  - apply demo_header_facts.
  - repeat constructor; done.
  - repeat constructor.
  - repeat constructor.
  - reflexivity.
  - exact E.
  - exists 70%nat. injection Hs as ->. split; [lia|done].
  - reflexivity.
Defined.
