(* ===== verification/Crypto.v ===== *)
(** * Cryptography and compression
    ([normfs-crypto/src/crypto.rs], [normfs-store/src/compression.rs])

    The primitives come from crates (hkdf, rand_chacha, aes-gcm, ed25519-dalek,
    zstd or ruzstd, lzma-rust2): two classes give their operations and the laws
    their documentation states.  What the repository adds, the derivation of
    the keys and the framing, is modelled. *)
From Stdlib Require Import ZArith Lia List Bool.
From Stdlib Require Import Ascii String.
From Stdlib Require Strings.Byte.
From stdpp Require Import base option list.
From S2P Require Import Prelude UBig UintN UintNFacts Types.
#[local] Open Scope Z_scope.

(** ** The primitives *)

Class CryptoLib := {
  rng : Type;
  rng_from_seed : bytes -> rng;                  (* ChaCha20Rng::from_seed *)
  fill_bytes : nat -> rng -> bytes * rng;        (* RngCore::fill_bytes *)
  hkdf_expand : bytes -> bytes -> nat -> option bytes;  (* Hkdf::new(None, seed).expand(info) *)
  aes_encrypt : bytes -> bytes -> bytes -> option bytes; (* key, nonce, plaintext *)
  aes_decrypt : bytes -> bytes -> bytes -> option bytes;
  signing_key : Type;
  key_generate : rng -> signing_key;
  ed_sign : signing_key -> bytes -> bytes;
  ed_verify : signing_key -> bytes -> bytes -> bool;
  sha256 : bytes -> bytes;
  verifying_key_bytes : signing_key -> bytes;
  fill_bytes_length n r : length (fst (fill_bytes n r)) = n;
  aes_roundtrip key nonce p c :
    aes_encrypt key nonce p = Some c -> aes_decrypt key nonce c = Some p;
  ed_correct k d : ed_verify k d (ed_sign k d) = true;
  ed_sign_length k d : length (ed_sign k d) = 64%nat;
  sha256_length d : length (sha256 d) = 32%nat;
}.

Class CompressLib := {
  zstd_compress : bytes -> option bytes;
  zstd_decompress : bytes -> option bytes;
  xz_decompress : bytes -> option bytes;
  zstd_roundtrip d c : zstd_compress d = Some c -> zstd_decompress c = Some d;
}.

(** Toy primitives that satisfy the laws, to run the model. *)
#[export] Program Instance CryptoLib_toy : CryptoLib := {
  rng := bytes;
  rng_from_seed s := s;
  fill_bytes n r := (take n (r ++ replicate n Byte.x00), drop n r);
  hkdf_expand seed info n := Some (take n (le_bytes n (le_val seed + le_val info)));
  aes_encrypt key nonce p := Some (rev p);
  aes_decrypt key nonce c := Some (rev c);
  signing_key := bytes;
  key_generate r := r;
  ed_sign k d := le_bytes 64 (le_val k + le_val d + zlen d);
  ed_verify k d s := bool_decide (s = le_bytes 64 (le_val k + le_val d + zlen d));
  sha256 d := le_bytes 32 (le_val d);
  verifying_key_bytes k := k;
}.
Next Obligation. intros. simpl. rewrite length_take, length_app, length_replicate. lia. Qed.
Next Obligation. intros. simpl in *. simplify_eq. by rewrite rev_involutive. Qed.
Next Obligation. intros. by apply bool_decide_true. Qed.
Next Obligation. intros. apply length_le_bytes. Qed.
Next Obligation. intros. apply length_le_bytes. Qed.

#[export] Program Instance CompressLib_toy : CompressLib := {
  zstd_compress d := Some (Byte.x28 :: d);
  zstd_decompress c := match c with [] => None | _ :: d => Some d end;
  xz_decompress c := None;
}.
Next Obligation. intros d c H. by injection H as <-. Qed.

(** ** [CryptoContext] *)

Inductive crypto_error :=
| KeyDerivation
| Encryption
| Decryption
| InvalidNonce
| Verification.

Section Crypto.
Context {B : Build} {U : UBig} {C : CryptoLib}.

Record crypto_context := {
  cc_seed : bytes;
  cc_signing_key : signing_key;
  cc_instance_id : bytes;
}.

(** [CryptoContext::open], given the seed of the data directory. *)
Definition crypto_open (seed : bytes) : crypto_context :=
  let key := key_generate (rng_from_seed seed) in
  {| cc_seed := seed; cc_signing_key := key;
     cc_instance_id := sha256 (verifying_key_bytes key) |}.

Definition crypto_sign (self : crypto_context) (data : bytes) : bytes :=
  ed_sign (cc_signing_key self) data.

Definition crypto_verify (self : crypto_context) (data signature : bytes)
    : outcome crypto_error unit :=
  if ed_verify (cc_signing_key self) data signature then Ok tt else Err Verification.

(** The bytes of a path. *)
Definition str_bytes (s : str) : bytes := map byte_of_ascii s.

(** What the key of a file is derived from. *)
Definition derive_info (q : queue_id) (file_id : uintn) : bytes :=
  str_bytes (qid_path q) ++ uintn_value_to_bytes file_id.

Definition derive_rng (self : crypto_context) (q : queue_id) (file_id : uintn)
    : outcome crypto_error rng :=
  match hkdf_expand (cc_seed self) (derive_info q file_id) 32 with
  | Some rng_seed => Ok (rng_from_seed rng_seed)
  | None => Err KeyDerivation
  end.

Definition crypto_encrypt (self : crypto_context) (q : queue_id) (file_id : uintn)
    (content : bytes) : outcome crypto_error (bytes * bytes) :=
  rng ← derive_rng self q file_id;
  let '(aes_key, rng) := fill_bytes 32 rng in
  let '(nonce, _) := fill_bytes 12 rng in
  match aes_encrypt aes_key nonce content with
  | Some ciphertext => Ok (nonce, ciphertext)
  | None => Err Encryption
  end.

Definition crypto_decrypt (self : crypto_context) (q : queue_id) (file_id : uintn)
    (nonce ciphertext : bytes) : outcome crypto_error bytes :=
  if decide (zlen nonce <> 12) then Err InvalidNonce
  else
    rng ← derive_rng self q file_id;
    let '(aes_key, _) := fill_bytes 32 rng in
    match aes_decrypt aes_key nonce ciphertext with
    | Some plaintext => Ok plaintext
    | None => Err Decryption
    end.

(** Decryption with the context and names used for the encryption. *)
Lemma decrypt_encrypt self q file_id content nonce c :
  crypto_encrypt self q file_id content = Ok (nonce, c) ->
  zlen nonce = 12 /\ crypto_decrypt self q file_id nonce c = Ok content.
Proof.
  unfold crypto_encrypt, crypto_decrypt. destruct (derive_rng self q file_id) as [r| |]; try done.
  ok_step. destruct (fill_bytes 32 r) as [k r'] eqn:Hk.
  pose proof (fill_bytes_length 12 r') as Hl. destruct (fill_bytes 12 r') as [n r''].
  destruct (aes_encrypt k n content) as [c'|] eqn:He; [|done]. intros [= <- <-].
  simpl in Hl. assert (zlen n = 12) as Hz by (unfold zlen; lia).
  split; [done|]. rewrite decide_False by tauto. by rewrite (aes_roundtrip _ _ _ _ He).
Qed.

(** The derivation depends on the names only through [derive_info]: two files
    with equal infos share key and nonce. *)
Lemma encrypt_same_info self q f q' f' content : derive_info q f = derive_info q' f' ->
  crypto_encrypt self q f content = crypto_encrypt self q' f' content.
Proof. unfold crypto_encrypt, derive_rng. by intros ->. Qed.

(** Within a queue the infos of different ids differ. *)
Lemma derive_info_file q f f' : uintn_canonical f -> uintn_canonical f' ->
  derive_info q f = derive_info q f' -> f = f'.
Proof.
  unfold derive_info. intros Hf Hf' E. apply app_inv_head in E.
  apply canonical_inj; [done..|].
  rewrite <- !value_to_bytes_val by (apply Hf || apply Hf'). by rewrite E.
Qed.

End Crypto.

Section Claims.
Context {B : Build} {U : UBig} {C : CryptoLib}.

(** C37: what is encrypted for a file of a queue is decrypted with the names of
    that file, and within a queue different file ids never share the input of
    the key derivation. *)
Theorem file_encryption_roundtrip self q f f' content nonce c :
  uintn_canonical f -> uintn_canonical f' ->
  crypto_encrypt self q f content = Ok (nonce, c) ->
  crypto_decrypt self q f nonce c = Ok content /\
  (derive_info q f = derive_info q f' -> f = f').
Proof.
  intros Hf Hf' He. split; [by eapply decrypt_encrypt|]. by apply derive_info_file.
Qed.

(** The input of the key derivation is the queue path followed by the bytes
    of the file id, with nothing between: two files of different queues, the id
    0x4241 of "/i/q" and the id 0x42 of "/i/qA", share key and nonce, whatever
    the contents and the crypto libraries. *)
Theorem derived_keys_collide self content :
  crypto_encrypt self {| qid_path := s2l "/i/q" |} (U16 0x4241) content =
  crypto_encrypt self {| qid_path := s2l "/i/qA" |} (U8 0x42) content.
Proof. apply encrypt_same_info. reflexivity. Qed.

End Claims.

Lemma file_encryption_roundtrip_witness :
  crypto_decrypt (crypto_open [Byte.x01]) {| qid_path := s2l "/i/q" |} (U8 3)
    (replicate 12 Byte.x00) [Byte.x62; Byte.x61] = Ok [Byte.x61; Byte.x62].
Proof.
  apply (file_encryption_roundtrip (crypto_open [Byte.x01]) {| qid_path := s2l "/i/q" |} (U8 3)
    (U8 4) [Byte.x61; Byte.x62] (replicate 12 Byte.x00) [Byte.x62; Byte.x61]).
  - done.
  - done.
  - vm_eq.
Defined.
