(* ===== verification/Compression.v ===== *)
(** * Compression ([normfs-store/src/compression.rs])

    The two builds of the crate, with the C library or in Rust alone, over the
    codecs as parameters; each of them is the [CompressLib] that the store is
    proved against. *)
From Stdlib Require Import ZArith Lia List Bool.
From stdpp Require Import base option list.
From S2P Require Import Prelude Crypto.
#[local] Open Scope Z_scope.

(** The crates [ruzstd], [zstd] and [lzma_rust2]: the encoder of [zstd] is an
    object that gets options and then data. *)
Class Codecs := {
  ruzstd_best : Z;
  ruzstd_compress_to_vec : bytes -> Z -> bytes;
  ruzstd_decoder : Type;
  ruzstd_new : bytes -> option ruzstd_decoder;
  ruzstd_read_to_end : ruzstd_decoder -> option bytes;
  encoder : Type;
  encoder_new : Z -> option encoder;
  encoder_window_log : encoder -> Z -> option encoder;
  encoder_long_distance_matching : encoder -> bool -> option encoder;
  encoder_write_all : encoder -> bytes -> option encoder;
  encoder_finish : encoder -> option bytes;
  decode_all : bytes -> option bytes;
  xz_reader : bytes -> bool -> option bytes;
}.

(** What their documentation says: what was compressed comes back; the encoder
    has taken the data written to it, in order, whatever its options. *)
Class CodecsLaws `{Codecs} := {
  encoder_content : encoder -> bytes;
  ruzstd_reads d l : exists r, ruzstd_new (ruzstd_compress_to_vec d l) = Some r /\ ruzstd_read_to_end r = Some d;
  encoder_starts l e : encoder_new l = Some e -> encoder_content e = [];
  window_log_keeps e n e' : encoder_window_log e n = Some e' -> encoder_content e' = encoder_content e;
  matching_keeps e b e' : encoder_long_distance_matching e b = Some e' -> encoder_content e' = encoder_content e;
  write_appends e d e' : encoder_write_all e d = Some e' -> encoder_content e' = encoder_content e ++ d;
  finish_decodes e c : encoder_finish e = Some c -> decode_all c = Some (encoder_content e);
}.

Section Compression.
Context `{L : CodecsLaws}.

(** The feature [pure-rust]; it wins when both are on. *)
Context (pure_rust : bool).

Definition compress (data : bytes) : option bytes :=
  if pure_rust then Some (ruzstd_compress_to_vec data ruzstd_best)
  else
    e ← encoder_new 10;
    e ← encoder_window_log e 27;
    e ← encoder_long_distance_matching e true;
    e ← encoder_write_all e data;
    encoder_finish e.

Definition decompress (data : bytes) : option bytes :=
  if pure_rust then decoder ← ruzstd_new data; ruzstd_read_to_end decoder
  else decode_all data.

(** Both builds check the checksums of XZ. *)
Definition decompress_xz (data : bytes) : option bytes := xz_reader data true.

(** Either build reads back what it compressed. *)
Lemma compress_decompress d c : compress d = Some c -> decompress c = Some d.
Proof.
  unfold compress, decompress. destruct pure_rust.
  - intros [= <-]. destruct (ruzstd_reads d ruzstd_best) as (r & -> & Hr). exact Hr.
  - intros (e0 & H0 & (e1 & H1 & (e2 & H2 & (e3 & H3 & Hf)%bind_Some)%bind_Some)%bind_Some)%bind_Some.
    apply encoder_starts in H0. apply window_log_keeps in H1. apply matching_keeps in H2.
    apply write_appends in H3. rewrite (finish_decodes _ _ Hf). f_equal.
    by rewrite H3, H2, H1, H0.
Qed.

(** The interface of the store. *)
Definition CompressLib_crates : CompressLib :=
  {| zstd_compress := compress; zstd_decompress := decompress; xz_decompress := decompress_xz;
     zstd_roundtrip := compress_decompress |}.

End Compression.

(** ** Codecs that do not compress *)

(** An encoder is what was written to it. *)
#[export] Instance Codecs_plain : Codecs :=
  {| ruzstd_best := 11; ruzstd_compress_to_vec := fun d _ => d; ruzstd_decoder := bytes;
     ruzstd_new := Some; ruzstd_read_to_end := Some;
     encoder := bytes; encoder_new := fun _ => Some []; encoder_window_log := fun e _ => Some e;
     encoder_long_distance_matching := fun e _ => Some e; encoder_write_all := fun e d => Some (e ++ d);
     encoder_finish := Some; decode_all := Some; xz_reader := fun _ _ => None |}.

#[export] Instance CodecsLaws_plain : CodecsLaws.
Proof.
  apply (Build_CodecsLaws Codecs_plain (fun e => e)); cbn; try (by intros; simplify_eq).
  intros d _. by exists d.
Defined.

Example plain_roundtrip d pure_rust :
  zstd_decompress (CompressLib := CompressLib_crates pure_rust) d = Some d.
Proof. by destruct pure_rust. Qed.
