(* ===== verification/Seed.v ===== *)
(** * The seed of a data directory
    ([normfs-crypto/src/seed.rs], [CryptoContext::open])

    The first process that opens a data directory makes its seed; every later
    one loads it, so all have the same keys and the same instance id.  The
    sequential functions, and several openers at once as a machine. *)
From Stdlib Require Import ZArith Lia List Bool.
From Stdlib Require Import Ascii String.
From Stdlib Require Strings.Byte.
From stdpp Require Import base option list gmap strings.
From S2P Require Import Prelude UBig UintN UintNFacts Paths PathsFacts Types Crypto.
#[local] Open Scope Z_scope.

(** ** [Seed] *)

Definition seed_size : Z := 32.
Definition seed_file_name : str := s2l ".crypto_seed".
Definition seed_path (data_dir : str) : str := path_push data_dir seed_file_name.

Inductive seed_error := SeedIo | InvalidSeed | OsRng.

(** What the system answers to one opening: the random bytes; whether the
    metadata of a file can be had and a file opened; how many bytes a read gives
    at most; whether a file can be created, after how many bytes its writing
    fails, whether it can be synced. *)
Record seed_io := {
  si_random : option bytes;
  si_stat : bool;
  si_open : bool;
  si_read : option nat;
  si_create : bool;
  si_write : option nat;
  si_sync : bool;
}.

Definition seed_generate (io : seed_io) : outcome seed_error bytes :=
  match si_random io with Some b => Ok b | None => Err OsRng end.

(** One call of [read] into a buffer of 32 bytes. *)
Definition seed_load_from_file (io : seed_io) (files : gmap str bytes) (path : str)
    : outcome seed_error bytes :=
  match files !! path with
  | None => Err SeedIo
  | Some content =>
      if negb (si_open io) then Err SeedIo
      else match si_read io with
      | None => Err SeedIo
      | Some n =>
          let b := take n (take (Z.to_nat seed_size) content) in
          if decide (zlen b <> seed_size) then Err InvalidSeed else Ok b
      end
  end.

Definition seed_load (io : seed_io) (files : gmap str bytes) (data_dir : str)
    : outcome seed_error bytes := seed_load_from_file io files (seed_path data_dir).

(** [create_new], [write_all], [sync_all]. *)
Definition seed_save_to_file (io : seed_io) (files : gmap str bytes) (b : bytes) (path : str)
    : gmap str bytes * outcome seed_error unit :=
  match files !! path with
  | Some _ => (files, Err SeedIo)
  | None =>
      if negb (si_create io) then (files, Err SeedIo)
      else match si_write io with
      | Some k => (<[path := take k b]> files, Err SeedIo)
      | None => (<[path := b]> files, if si_sync io then Ok tt else Err SeedIo)
      end
  end.

Definition seed_save (io : seed_io) (files : gmap str bytes) (b : bytes) (data_dir : str)
    : gmap str bytes * outcome seed_error unit := seed_save_to_file io files b (seed_path data_dir).

(** [Path::exists]: an error counts as absence. *)
Definition seed_exists (io : seed_io) (files : gmap str bytes) (data_dir : str) : bool :=
  si_stat io && bool_decide (is_Some (files !! seed_path data_dir)).

Definition seed_open (io : seed_io) (files : gmap str bytes) (data_dir : str)
    : gmap str bytes * outcome seed_error bytes :=
  if seed_exists io files data_dir then (files, seed_load io files data_dir)
  else match seed_generate io with
  | Ok b =>
      match seed_save io files b data_dir with
      | (files, Ok _) => (files, Ok b)
      | (files, Err e) => (files, Err e)
      | (files, Panic) => (files, Panic)
      end
  | r => (files, r)
  end.

(** ** [CryptoContext] *)

(** [format!("{:02x}")] of a byte. *)
Definition hex_byte (b : Byte.byte) : str :=
  [hex_digit (byte_val b / 16); hex_digit (byte_val b mod 16)].

Definition instance_id_hex `{C : CryptoLib} (self : crypto_context) : str :=
  concat (map hex_byte (cc_instance_id self)).

(** [CryptoContext::open] *)
Definition crypto_context_open `{C : CryptoLib} (io : seed_io) (files : gmap str bytes) (data_dir : str)
    : gmap str bytes * outcome seed_error crypto_context :=
  let '(files, seed) := seed_open io files data_dir in (files, b ← seed; Ok (crypto_open b)).

(** ** One opening after the other *)

(** Nothing fails, and the random bytes are as many as asked for. *)
Record calm_io (io : seed_io) : Prop := {
  ci_random : exists b, si_random io = Some b /\ zlen b = seed_size;
  ci_stat : si_stat io = true;
  ci_open : si_open io = true;
  ci_read : exists n, si_read io = Some n /\ seed_size <= Z.of_nat n;
  ci_create : si_create io = true;
  ci_write : si_write io = None;
  ci_sync : si_sync io = true;
}.

Lemma seed_made io files data_dir b : calm_io io -> si_random io = Some b ->
  files !! seed_path data_dir = None ->
  seed_open io files data_dir = (<[seed_path data_dir := b]> files, Ok b).
Proof.
  intros [] Hb Hn. unfold seed_open, seed_exists. rewrite Hn, bool_decide_false, andb_false_r by by intros [].
  unfold seed_generate. rewrite Hb. unfold seed_save, seed_save_to_file.
  by rewrite Hn, ci_create0, ci_write0, ci_sync0.
Qed.

Lemma seed_loaded io files data_dir b : calm_io io -> zlen b = seed_size ->
  files !! seed_path data_dir = Some b -> seed_open io files data_dir = (files, Ok b).
Proof.
  intros [] Hb Hf. unfold seed_open, seed_exists. rewrite Hf, ci_stat0, bool_decide_true by by eexists.
  cbn [andb]. f_equal. unfold seed_load, seed_load_from_file. rewrite Hf, ci_open0. cbn [negb].
  destruct ci_read0 as (n & -> & Hn).
  assert (take n (take (Z.to_nat seed_size) b) = b) as ->
    by (unfold zlen in Hb; rewrite !take_ge; [done|lia|rewrite take_ge; lia]).
  by rewrite decide_False by tauto.
Qed.

(** ** Openers at once *)

(** Where an opener of the directory is: before [exists], before [read], before
    [getrandom], before [create_new], after [n] bytes of its seed, before
    [sync_all], or done. *)
Inductive opener :=
| Asks
| Loads
| Generates
| Creates (b : bytes)
| Writes (b : bytes) (n : nat)
| Syncs (b : bytes)
| Returned (r : outcome seed_error bytes).

(** The answer of the system to its next call: an error, or success with random
    bytes and a number of bytes read or written. *)
Inductive answer := Refuses | Gives (random : bytes) (n : nat).

(** The next call of an opener, on the seed file. *)
Definition opener_turn (a : answer) (file : option bytes) (o : opener) : option bytes * opener :=
  match o, a with
  | Asks, Gives _ _ => (file, if bool_decide (is_Some file) then Loads else Generates)
  | Asks, Refuses => (file, Generates)
  | Loads, Gives _ n =>
      (file, Returned match file with
                      | None => Err SeedIo
                      | Some content =>
                          let b := take n (take (Z.to_nat seed_size) content) in
                          if decide (zlen b <> seed_size) then Err InvalidSeed else Ok b
                      end)
  | Generates, Gives random _ => (file, Creates random)
  | Generates, Refuses => (file, Returned (Err OsRng))
  | Creates b, Gives _ _ =>
      match file with None => (Some [], Writes b 0) | Some _ => (file, Returned (Err SeedIo)) end
  | Writes b n, Gives _ m =>
      if decide (length b <= n)%nat then (file, Syncs b)
      else if decide (m = 0)%nat then (file, Returned (Err SeedIo))
      else (option_map (fun content => content ++ take m (drop n b)) file, Writes b (n + m))
  | Syncs b, Gives _ _ => (file, Returned (Ok b))
  | Loads, Refuses | Creates _, Refuses | Writes _ _, Refuses | Syncs _, Refuses =>
      (file, Returned (Err SeedIo))
  | Returned _, _ => (file, o)
  end.

(** Openers, one call at a time, in any order. *)
Record openers := { os_file : option bytes; os_list : list opener }.

Definition openers_turn (s : openers) (t : nat * answer) : openers :=
  match os_list s !! fst t with
  | None => s
  | Some o =>
      let '(file, o) := opener_turn (snd t) (os_file s) o in
      {| os_file := file; os_list := <[fst t := o]> (os_list s) |}
  end.

Definition openers_run (s : openers) (ts : list (nat * answer)) : openers :=
  fold_left openers_turn ts s.

(** The random bytes are as many as asked for. *)
Definition answer_ok (a : answer) : Prop :=
  match a with Refuses => True | Gives random _ => zlen random = seed_size end.

(** What is known of an opener when the file was made with the seed [b]. *)
Definition fits (b : bytes) (content : bytes) (o : opener) : Prop :=
  match o with
  | Writes b' n => b' = b /\ content = take n b
  | Syncs b' => b' = b /\ content = b
  | Returned (Ok b') => b' = b /\ content = b
  | Creates b' => zlen b' = seed_size
  | _ => True
  end.

Definition writing (o : opener) : bool := match o with Writes _ _ => true | _ => false end.

(** Without a file nobody writes or is done; with one, one opener wrote it. *)
Definition openers_inv (s : openers) : Prop :=
  match os_file s with
  | None => Forall (fun o => match o with
                             | Writes _ _ | Syncs _ | Returned (Ok _) => False
                             | Creates b => zlen b = seed_size
                             | _ => True
                             end) (os_list s)
  | Some content => exists b, zlen b = seed_size /\ (exists n, content = take n b) /\
      Forall (fits b content) (os_list s) /\
      forall i j o o', os_list s !! i = Some o -> os_list s !! j = Some o' ->
        writing o = true -> writing o' = true -> i = j
  end.

(** A call that leaves the file alone. *)
Lemma openers_kept content b os i o o' : zlen b = seed_size -> (exists n, content = take n b) ->
  Forall (fits b content) os ->
  (forall i j o o', os !! i = Some o -> os !! j = Some o' -> writing o = true -> writing o' = true -> i = j) ->
  os !! i = Some o -> fits b content o' -> (writing o' = true -> writing o = true) ->
  openers_inv {| os_file := Some content; os_list := <[i := o']> os |}.
Proof.
  intros Hb Hc Hf Hu Ho Ho' Hw. exists b. split; [done|]. split; [done|].
  split; [by apply Forall_insert|]. cbn [os_list]. intros j k x y Hj Hk Hx Hy.
  assert (forall j x, <[i := o']> os !! j = Some x -> writing x = true ->
    exists x', os !! j = Some x' /\ writing x' = true) as Hback.
  { intros j' x' Hl Hx'. apply list_lookup_insert_Some in Hl as [(-> & <- & _)|[_ Hl]]; [|by exists x'].
    exists o. split; [done|]. by apply Hw. }
  destruct (Hback j x Hj Hx) as (x' & ? & ?). destruct (Hback k y Hk Hy) as (y' & ? & ?).
  by apply (Hu j k x' y').
Qed.

Lemma prefix_full n (b content : bytes) : zlen b = seed_size -> content = take n b ->
  zlen content = seed_size -> content = b.
Proof.
  intros Hb -> Hl. apply take_ge. unfold zlen in *. rewrite length_take in Hl. lia.
Qed.

(** The bytes that were written reach the file. *)
Lemma openers_write content b os i n m : zlen b = seed_size -> Forall (fits b content) os ->
  (forall i j o o', os !! i = Some o -> os !! j = Some o' -> writing o = true -> writing o' = true -> i = j) ->
  os !! i = Some (Writes b n) -> content = take n b -> (n < length b)%nat ->
  openers_inv {| os_file := Some (content ++ take m (drop n b)); os_list := <[i := Writes b (n + m)]> os |}.
Proof.
  intros Hb Hf Hu Ho -> Hn. assert (take n b ++ take m (drop n b) = take (n + m) b) as -> by apply take_take_drop.
  pose proof (lookup_lt_Some _ _ _ Ho) as Hlt. exists b. split; [done|]. split; [by exists (n + m)%nat|].
  assert (take n b <> b) as Hpart by (intros E; apply (f_equal length) in E; rewrite length_take in E; lia).
  assert (forall j x, j <> i -> os !! j = Some x -> fits b (take (n + m) b) x /\ writing x = false) as Hoth.
  { intros j x Hj Hx. pose proof (Forall_lookup_1 _ _ _ _ Hf Hx) as Hfx.
    destruct x as [| | | |b' k|b'|[b'| |]]; cbn [fits] in *; try done; try by destruct Hfx.
    destruct Hj. by apply (Hu j i (Writes b' k) (Writes b n)). }
  split.
  - apply Forall_lookup_2. intros j x Hx. cbn [os_list] in Hx.
    apply list_lookup_insert_Some in Hx as [(-> & <- & _)|[Hj Hx]]; [done|]. by apply (Hoth j).
  - cbn [os_list]. intros j k x y Hj Hk Hx Hy.
    assert (forall j x, <[i := Writes b (n + m)]> os !! j = Some x -> writing x = true -> j = i) as Hi.
    { intros j' x' Hl Hx'. apply list_lookup_insert_Some in Hl as [(-> & _)|[Hj' Hl]]; [done|].
      destruct (Hoth j' x') as [_ Hw]; [done..|]. by rewrite Hw in Hx'. }
    by rewrite (Hi j x Hj Hx), (Hi k y Hk Hy).
Qed.

Lemma opener_inv s t : answer_ok (snd t) -> openers_inv s -> openers_inv (openers_turn s t).
Proof.
  destruct s as [file os], t as [i a]. cbn [snd fst]. intros Hok Hinv. unfold openers_turn. cbn [os_list os_file fst snd].
  destruct (os !! i) as [o|] eqn:Ho; [|done]. unfold openers_inv in Hinv. cbn [os_file os_list] in Hinv.
  destruct file as [content|].
  - destruct Hinv as (b & Hb & Hc & Hf & Hu). pose proof (Forall_lookup_1 _ _ _ _ Hf Ho) as Hfo.
    destruct o as [| | |b'|b' n|b'|r], a as [|random m]; cbn [opener_turn] in *; try case_decide as Hdec;
      try (by apply (openers_kept content b os i _ _ Hb Hc Hf Hu Ho)).
    + apply (openers_kept content b os i _ _ Hb Hc Hf Hu Ho); try done. cbn [fits]. destruct Hc as [k Hc].
      set (x := take m (take (Z.to_nat seed_size) content)) in *.
      assert (exists l, x = take l b) as [l Hx] by (unfold x; rewrite Hc, !take_take; by eexists).
      rename Hdec into Hz.
      assert (x = b) as Hxb by by eapply prefix_full.
      split; [done|]. rewrite Hc. apply take_ge. unfold x in Hxb. rewrite Hc in Hxb.
      apply (f_equal length) in Hxb. rewrite !length_take in Hxb. lia.
    + destruct Hfo as [-> ->]. rewrite firstn_all2 in * by lia. by apply (openers_kept b b os i _ _ Hb Hc Hf Hu Ho).
    + case_decide; [by apply (openers_kept content b os i _ _ Hb Hc Hf Hu Ho)|].
      destruct Hfo as [-> Hn]. cbn [option_map]. apply openers_write; try done. lia.
  - pose proof (Forall_lookup_1 _ _ _ _ Hinv Ho) as Hfo.
    destruct o as [| | |b'|b' n|b'|[b'| |]], a as [|random m]; try done; cbn [opener_turn] in *;
      try (by apply Forall_insert).
    exists b'. split; [done|]. split; [by exists 0%nat|]. cbn [os_list].
    assert (forall j x, os !! j = Some x -> fits b' [] x /\ writing x = false) as Hoth.
    { intros j x Hx. pose proof (Forall_lookup_1 _ _ _ _ Hinv Hx) as Hx'. by destruct x as [| | | | | |[| |]]. }
    split.
    + apply Forall_insert; [|done]. apply Forall_lookup_2. intros j x Hx. by apply (Hoth j).
    + intros j k x y Hj Hk Hx Hy.
      assert (forall j x, <[i := Writes b' 0]> os !! j = Some x -> writing x = true -> j = i) as Hi.
      { intros j' x' Hl Hx'. apply list_lookup_insert_Some in Hl as [(-> & _)|[Hj' Hl]]; [done|].
        destruct (Hoth j' x') as [_ Hw]; [done..|]. by rewrite Hw in Hx'. }
      by rewrite (Hi j x Hj Hx), (Hi k y Hk Hy).
Qed.

Lemma openers_run_inv s ts : Forall (fun t => answer_ok (snd t)) ts -> openers_inv s ->
  openers_inv (openers_run s ts).
Proof.
  revert s. induction ts as [|t ts IH]; intros s Ha Hi; [done|].
  apply Forall_cons in Ha as [Ht Ha]. apply IH; [done|]. by apply opener_inv.
Qed.

(** The openers of a directory with a seed, or without one. *)
Definition openers_start (file : option bytes) (n : nat) : openers :=
  {| os_file := file; os_list := replicate n Asks |}.

Lemma start_inv (file : option bytes) n : (forall b, file = Some b -> zlen b = seed_size) -> openers_inv (openers_start file n).
Proof.
  intros Hf. assert (Forall (fun o => o = Asks) (replicate n Asks)) as Ha
    by by apply Forall_replicate.
  destruct file as [b|]; cbn.
  - exists b. split; [by apply Hf|]. split; [exists (length b); by rewrite firstn_all|]. split.
    + eapply Forall_impl; [exact Ha|]. by intros o ->.
    + intros i j o o' Hi _ Hw _. apply (Forall_lookup_1 _ _ _ _ Ha) in Hi as ->. done.
  - eapply Forall_impl; [exact Ha|]. by intros o ->.
Qed.

(** An opening returns. *)
Lemma seed_open_returns io files data_dir : snd (seed_open io files data_dir) <> Panic.
Proof.
  unfold seed_open, seed_load, seed_load_from_file, seed_generate, seed_save, seed_save_to_file.
  repeat (case_match; simplify_eq/=; try done).
Qed.

(** A seed file that was not written in full is never repaired: every later
    opening fails, whatever the system answers. *)
Lemma torn_seed_stays io files data_dir content :
  files !! seed_path data_dir = Some content -> zlen content < seed_size ->
  exists e, seed_open io files data_dir = (files, Err e).
Proof.
  intros Hf Hl. unfold seed_open. destruct (seed_exists io files data_dir).
  - unfold seed_load, seed_load_from_file. rewrite Hf. destruct (si_open io); [|by eexists].
    destruct (si_read io) as [n|]; [|by eexists]. cbn [negb]. rewrite decide_True; [by eexists|].
    unfold zlen in *. rewrite !length_take. lia.
  - unfold seed_generate. destruct (si_random io) as [b|]; [|by eexists].
    unfold seed_save, seed_save_to_file. rewrite Hf. by eexists.
Qed.

(** C39: the first opening of a data directory may stop in the middle of writing
    the seed (the process dies, the disk is full).  It leaves the bytes it wrote,
    and every later opening of the directory fails, whatever the system answers,
    until somebody removes the file: [create_new] meets it and nothing repairs
    it. *)
Theorem torn_seed_is_kept io files data_dir b k ios :
  files !! seed_path data_dir = None -> si_create io = true ->
  si_random io = Some b -> si_write io = Some k -> (k < Z.to_nat seed_size)%nat ->
  let after := <[seed_path data_dir := take k b]> files in
  seed_open io files data_dir = (after, Err SeedIo) /\
  Forall (fun io' => exists e, seed_open io' after data_dir = (after, Err e)) ios.
Proof.
  intros Hf Hc Hr Hw Hk after. split.
  - unfold seed_open, seed_exists. rewrite Hf, bool_decide_false, andb_false_r by by intros [].
    unfold seed_generate. rewrite Hr. unfold seed_save, seed_save_to_file. by rewrite Hf, Hc, Hw.
  - apply Forall_true. intros io'. apply (torn_seed_stays _ _ _ (take k b)).
    + apply lookup_insert_eq.
    + unfold zlen. rewrite length_take. lia.
Qed.

(** C19: however many processes open a data directory at once, and whatever calls
    of theirs fail, those that succeed have the same seed, the one in the file:
    one instance id and one set of keys. *)
Theorem seeds_agree file n ts i j b b' :
  (forall b, file = Some b -> zlen b = seed_size) -> Forall (fun t => answer_ok (snd t)) ts ->
  let s := openers_run (openers_start file n) ts in
  os_list s !! i = Some (Returned (Ok b)) -> os_list s !! j = Some (Returned (Ok b')) ->
  b = b' /\ os_file s = Some b.
Proof.
  intros Hf Ha s Hi Hj. pose proof (openers_run_inv _ ts Ha (start_inv file n Hf)) as Hinv. fold s in Hinv.
  unfold openers_inv in Hinv. destruct (os_file s) as [content|].
  - destruct Hinv as (c & _ & _ & Hall & _). cbn [os_list] in *.
    destruct (Forall_lookup_1 _ _ _ _ Hall Hi) as [-> ->].
    by destruct (Forall_lookup_1 _ _ _ _ Hall Hj) as [-> _].
  - by destruct (Forall_lookup_1 _ _ _ _ Hinv Hi).
Qed.

(** ** Witnesses *)

Definition demo_seed (c : Byte.byte) : bytes := repeat c 32.

(** Three openers find no seed and draw one each; the second creates the file,
    the others fail; a fourth arrives too early, a fifth once it is there. *)
Definition demo_openings : list (nat * answer) :=
  let ok c := Gives (demo_seed c) 32 in
  [(0, ok Byte.x00); (1, ok Byte.x00); (2, ok Byte.x00);
   (0, ok Byte.x01); (1, ok Byte.x02); (2, ok Byte.x03);
   (1, ok Byte.x00); (0, ok Byte.x00); (2, Refuses);
   (1, Gives (demo_seed Byte.x00) 20); (3, ok Byte.x00); (3, ok Byte.x00);
   (1, ok Byte.x00); (4, ok Byte.x00); (1, ok Byte.x00); (4, ok Byte.x00); (1, ok Byte.x00)]%nat.

Example demo_openings_end :
  openers_run (openers_start None 5) demo_openings =
  {| os_file := Some (demo_seed Byte.x02);
     os_list := [Returned (Err SeedIo); Returned (Ok (demo_seed Byte.x02)); Returned (Err SeedIo);
                 Returned (Err InvalidSeed); Returned (Ok (demo_seed Byte.x02))] |}.
Proof. vm_compute. reflexivity. Qed.

Lemma seeds_agree_witness :
  demo_seed Byte.x02 = demo_seed Byte.x02 /\
  os_file (openers_run (openers_start None 5) demo_openings) = Some (demo_seed Byte.x02).
Proof.
  apply (seeds_agree None 5 demo_openings 1 4).
  - by intros b.
  - repeat constructor.
  - by rewrite demo_openings_end.
  - by rewrite demo_openings_end.
Defined.

Definition demo_seed_io (write : option nat) : seed_io :=
  {| si_random := Some (demo_seed Byte.x07); si_stat := true; si_open := true; si_read := Some 32%nat;
     si_create := true; si_write := write; si_sync := true |}.

Lemma torn_seed_is_kept_witness :
  let after := <[seed_path (s2l "d") := take 12 (demo_seed Byte.x07)]> (empty : gmap str bytes) in
  seed_open (demo_seed_io (Some 12%nat)) empty (s2l "d") = (after, Err SeedIo) /\
  Forall (fun io' => exists e, seed_open io' after (s2l "d") = (after, Err e))
    [demo_seed_io None; demo_seed_io None].
Proof.
  apply (torn_seed_is_kept _ _ _ (demo_seed Byte.x07) 12); [done..|].
  vm_compute. lia.
Defined.
