(* ===== verification/StoreFormat.v ===== *)
(** * The format of store files ([normfs-store/src/header.rs])

    A store file is a 152-byte authentication block (two signatures), a store
    header (methods and entry counts) and the processed content of a WAL file. *)
From Stdlib Require Import ZArith Lia List Bool.
From stdpp Require Import base option list.
From S2P Require Import Prelude UBig UintN UintNFacts Types.
#[local] Open Scope Z_scope.

(** [enum StoreHeaderError] *)
Inductive store_header_error :=
| ShSliceTooShort
| ShUintN (e : uerror)
| ShUnsupportedVersion (n : Z)
| ShUnsupportedCompression (n : Z)
| ShUnsupportedEncryption (n : Z)
| ShUnsupportedSignature (n : Z).

(** [StoreHeaderVersion], [FileAuthVersion], [SignatureType]: one code each. *)
Definition version_try_from (value : Z) : outcome store_header_error unit :=
  if decide (value = 0) then Ok tt else Err (ShUnsupportedVersion value).

Definition signature_type_try_from (value : Z) : outcome store_header_error unit :=
  if decide (value = 0) then Ok tt else Err (ShUnsupportedSignature value).

Definition compression_type_from_u64 (value : Z) : outcome store_header_error compression_type :=
  match compression_try_from value with
  | Some c => Ok c
  | None => Err (ShUnsupportedCompression value)
  end.

Definition encryption_type_from_u64 (value : Z) : outcome store_header_error encryption_type :=
  match encryption_try_from value with
  | Some e => Ok e
  | None => Err (ShUnsupportedEncryption value)
  end.

Definition file_auth_size : Z := 152.

Section Format.
Context {B : Build} {U : UBig}.

(** [struct FileAuthentication]; the version and the signature types have one
    value each. *)
Record file_authentication := {
  header_signature : bytes;
  content_signature : bytes;
}.

Definition file_auth_from_bytes (data : bytes)
    : outcome store_header_error (file_authentication * Z) :=
  if decide (zlen data < 152) then Err ShSliceTooShort
  else
    v ← slice data 0 8;
    _ ← version_try_from (le_val v);
    t ← slice data 8 16;
    _ ← signature_type_try_from (le_val t);
    header_signature ← slice data 16 80;
    t ← slice data 80 88;
    _ ← signature_type_try_from (le_val t);
    content_signature ← slice data 88 152;
    Ok (Build_file_authentication header_signature content_signature, 152).

Definition file_auth_write_to_bytes (self : file_authentication) (dest : bytes) : bytes * Z :=
  let dest := dest ++ le_bytes 8 0 in
  let dest := dest ++ le_bytes 8 0 in
  let dest := dest ++ header_signature self in
  let dest := dest ++ le_bytes 8 0 in
  let dest := dest ++ content_signature self in
  (dest, 152).

(** [struct StoreHeader] *)
Record store_header := {
  sh_compression : compression_type;
  sh_encryption : encryption_type;
  sh_num_entries_before : uintn;
  sh_num_entries : uintn;
}.

Definition store_header_from_bytes (data : bytes)
    : outcome store_header_error (store_header * Z) :=
  if decide (zlen data < 24) then Err ShSliceTooShort
  else
    v ← slice data 0 8;
    _ ← version_try_from (le_val v);
    let offset := 8 in
    c ← slice data offset (offset + 8);
    compression ← compression_type_from_u64 (le_val c);
    let offset := offset + 8 in
    e ← slice data offset (offset + 8);
    encryption ← encryption_type_from_u64 (le_val e);
    let offset := offset + 8 in
    rest ← slice_from data offset;
    '(num_entries_before, bytes_read_before) ← map_err ShUintN (uintn_read_from_slice rest);
    offset ← arith 64 (offset + bytes_read_before);
    rest ← slice_from data offset;
    '(num_entries, bytes_read_after) ← map_err ShUintN (uintn_read_from_slice rest);
    offset ← arith 64 (offset + bytes_read_after);
    Ok (Build_store_header compression encryption num_entries_before num_entries, offset).

Definition store_header_size (self : store_header) : Z :=
  8 + 8 + 8 + (8 + uintn_size_in_bytes (sh_num_entries_before self)) +
  (8 + uintn_size_in_bytes (sh_num_entries self)).

Definition store_header_write_to_bytes (self : store_header) (dest : bytes) : bytes * Z :=
  let dest := dest ++ le_bytes 8 0 in
  let dest := dest ++ le_bytes 8 (compression_code (sh_compression self)) in
  let dest := dest ++ le_bytes 8 (encryption_code (sh_encryption self)) in
  let '(dest, _) := uintn_write_to_buffer (sh_num_entries_before self) dest in
  let '(dest, _) := uintn_write_to_buffer (sh_num_entries self) dest in
  (dest, store_header_size self).

Definition sh_is_encrypted (self : store_header) : bool :=
  negb (bool_decide (sh_encryption self = EncNone)).
Definition sh_is_compressed (self : store_header) : bool :=
  negb (bool_decide (sh_compression self = CompNone)).

(** ** Theory *)

Definition encode_auth (a : file_authentication) : bytes := fst (file_auth_write_to_bytes a []).
Definition encode_store_header (h : store_header) : bytes :=
  fst (store_header_write_to_bytes h []).

Definition auth_ok (a : file_authentication) : Prop :=
  zlen (header_signature a) = 64 /\ zlen (content_signature a) = 64.

Definition store_header_ok (h : store_header) : Prop :=
  uintn_canonical (sh_num_entries_before h) /\ uintn_canonical (sh_num_entries h) /\
  store_header_size h < 2 ^ 63.

Lemma zlen_encode_auth a : auth_ok a -> zlen (encode_auth a) = 152.
Proof.
  intros [Hh Hc]. unfold encode_auth, file_auth_write_to_bytes. cbn [fst app].
  rewrite !zlen_app, !zlen_le_bytes. lia.
Qed.

Lemma version_zero : version_try_from (le_val (le_bytes 8 0)) = Ok tt.
Proof. reflexivity. Qed.

Lemma auth_roundtrip a rest : auth_ok a ->
  file_auth_from_bytes (encode_auth a ++ rest) = Ok (a, 152).
Proof.
  intros Ha. pose proof (zlen_encode_auth a Ha) as Hl. destruct Ha as [Hh Hc].
  unfold file_auth_from_bytes. rewrite decide_False
    by (rewrite zlen_app; pose proof (zlen_nonneg rest); lia).
  unfold encode_auth, file_auth_write_to_bytes. cbn [fst app]. rewrite <- !app_assoc.
  set (z := le_bytes 8 0). assert (zlen z = 8) as Hz by (by unfold z; rewrite zlen_le_bytes).
  assert (version_try_from (le_val z) = Ok tt) as Hv by done.
  assert (signature_type_try_from (le_val z) = Ok tt) as Hg by done.
  rewrite (slice_head z) by done. ok_step. rewrite Hv. ok_step.
  rewrite (slice_mid z z _ 8 16) by lia. ok_step. rewrite Hg. ok_step.
  rewrite (app_assoc z z). rewrite (slice_mid (z ++ z) _ _ 16 80) by (rewrite ?zlen_app; lia).
  ok_step. rewrite (app_assoc (z ++ z)).
  rewrite (slice_mid _ z _ 80 88) by (rewrite ?zlen_app; lia). ok_step.
  rewrite Hg. ok_step.
  rewrite (app_assoc ((z ++ z) ++ _)).
  rewrite (slice_mid _ _ _ 88 152) by (rewrite ?zlen_app; lia). ok_step. by destruct a.
Qed.

Lemma encode_store_header_eq h : encode_store_header h =
  le_bytes 8 0 ++ le_bytes 8 (compression_code (sh_compression h)) ++
  le_bytes 8 (encryption_code (sh_encryption h)) ++
  fst (uintn_write_to_buffer (sh_num_entries_before h) []) ++
  fst (uintn_write_to_buffer (sh_num_entries h) []).
Proof.
  unfold encode_store_header, store_header_write_to_bytes.
  rewrite !write_to_buffer_spec. cbn [fst app]. by rewrite <- !app_assoc.
Qed.

Lemma zlen_counter x : zlen (fst (uintn_write_to_buffer x [])) = 8 + uintn_size_in_bytes x.
Proof.
  rewrite write_to_buffer_spec. cbn [fst app].
  by rewrite zlen_app, zlen_le_bytes, <- size_in_bytes_spec.
Qed.

Lemma zlen_encode_store_header h : zlen (encode_store_header h) = store_header_size h.
Proof.
  rewrite encode_store_header_eq, !zlen_app, !zlen_le_bytes, !zlen_counter.
  unfold store_header_size. lia.
Qed.

Lemma store_header_roundtrip h rest : store_header_ok h ->
  store_header_from_bytes (encode_store_header h ++ rest) = Ok (h, store_header_size h).
Proof.
  intros (Hb & Hn & Hs). pose proof (zlen_encode_store_header h) as Hl.
  pose proof (size_in_bytes_nonneg (sh_num_entries_before h)) as Hpb.
  pose proof (size_in_bytes_nonneg (sh_num_entries h)) as Hpn.
  pose proof (zlen_nonneg rest) as Hr. unfold store_header_size in Hs, Hl.
  unfold store_header_from_bytes. rewrite decide_False by (rewrite zlen_app; lia).
  rewrite encode_store_header_eq. rewrite <- !app_assoc.
  pose proof (zlen_counter (sh_num_entries_before h)) as Hz1.
  pose proof (read_from_slice_spec (sh_num_entries_before h)
    (fst (uintn_write_to_buffer (sh_num_entries h) []) ++ rest) Hb) as Hr1.
  pose proof (read_from_slice_spec (sh_num_entries h) rest Hn) as Hr2.
  set (w1 := fst (uintn_write_to_buffer (sh_num_entries_before h) [])) in *.
  set (w2 := fst (uintn_write_to_buffer (sh_num_entries h) [])) in *.
  rewrite slice_head by (by rewrite zlen_le_bytes). ok_step. rewrite version_zero. ok_step.
  cbn zeta. rewrite (slice_mid _ _ _ 8 (8 + 8)) by (by rewrite ?zlen_le_bytes). ok_step.
  rewrite le_val_u64 by apply compression_code_range. unfold compression_type_from_u64.
  rewrite compression_roundtrip. ok_step. rewrite (app_assoc (le_bytes 8 0)).
  rewrite (slice_mid _ _ _ (8 + 8)) by (by rewrite ?zlen_app, ?zlen_le_bytes). ok_step.
  rewrite le_val_u64 by apply encryption_code_range. unfold encryption_type_from_u64.
  rewrite encryption_roundtrip. ok_step. rewrite (app_assoc (le_bytes 8 0 ++ _)).
  rewrite slice_from_tail by (by rewrite ?zlen_app, ?zlen_le_bytes). ok_step.
  rewrite Hr1 by lia. ok_step. rewrite arith_ok by (unfold in_u; lia). ok_step.
  rewrite (app_assoc _ w1).
  rewrite slice_from_tail by (rewrite !zlen_app, ?zlen_le_bytes; lia). ok_step.
  rewrite Hr2 by lia. ok_step. rewrite arith_ok by (unfold in_u; lia). ok_step.
  unfold store_header_size. destruct h. do 2 f_equal; lia.
Qed.

End Format.

Section Claims.
Context {B : Build} {U : UBig}.

(** C31: the authentication block and the header of a store file read back from
    their bytes whatever follows; the sizes reported are those written. *)
Theorem store_headers_roundtrip a h rest : auth_ok a -> store_header_ok h ->
  file_auth_from_bytes (fst (file_auth_write_to_bytes a []) ++ rest) =
    Ok (a, zlen (fst (file_auth_write_to_bytes a []))) /\
  store_header_from_bytes (fst (store_header_write_to_bytes h []) ++ rest) =
    Ok (h, zlen (fst (store_header_write_to_bytes h []))).
Proof.
  intros Ha Hh. fold (encode_auth a) (encode_store_header h).
  rewrite zlen_encode_auth, zlen_encode_store_header by done.
  split; [by apply auth_roundtrip|by apply store_header_roundtrip].
Qed.

End Claims.

Lemma store_headers_roundtrip_witness :
  let h := {| sh_compression := CompZstd; sh_encryption := EncAes;
              sh_num_entries_before := U16 300; sh_num_entries := U8 7 |} in
  store_header_from_bytes (B := checked_build)
    (fst (store_header_write_to_bytes h []) ++ [Byte.x61]) = Ok (h, 43).
Proof.
  intros h. destruct (store_headers_roundtrip (B := checked_build)
    {| header_signature := replicate 64 Byte.x01; content_signature := replicate 64 Byte.x02 |}
    h [Byte.x61]) as [_ H].
  - split; reflexivity.
  - split_and!; done.
  - exact H.
Defined.
