(* ===== verification/Store.v ===== *)
(** * The persistent store ([normfs-store/src/writer.rs], [lib.rs], [ranges.rs], [parser.rs])

    A worker turns a complete WAL file into a store file (compressed, encrypted,
    signed), records its id range and deletes the WAL file; readers open a store
    file back into WAL bytes. *)
From Stdlib Require Import ZArith Lia List Bool.
From Stdlib Require Import Ascii String.
From stdpp Require Import base option list gmap strings.
From S2P Require Import Prelude UBig UintN UintNFacts Paths PathsFacts Types WalFormat WalReader.
From S2P Require Import OrderedBuffer AckWriter WalWriter Crypto StoreFormat.
#[local] Open Scope Z_scope.

Section Store.
Context {B : Build} {U : UBig} {X : Hasher} {C : CryptoLib} {Z' : CompressLib}.

(** [enum RangeStoreError] and [enum StoreError] *)
Inductive range_error :=
| RIo
| RHeader (e : store_header_error)
| RPath (e : path_error)
| RUintN (e : uerror)
| RFileNotFound
| RSignatureVerificationFailed.

Inductive store_error :=
| SIo
| SHeader (e : store_header_error)
| SDecrypt
| SWal (e : wal_error)
| SUintN (e : uerror)
| SRange (e : range_error)
| SPath (e : path_error)
| SWalHeaderError (e : wal_header_error)
| SFileNotFound
| SSignatureVerificationFailed.

(** The state of the workers and the world they act on: the files by path, the
    temporary files, the range cache, the completion messages. *)
Record store_state := {
  st_files : gmap str bytes;
  st_tmp : list str;
  st_ranges : gmap str (uintn * uintn);
  st_done : list (queue_id * uintn);
}.

(** [root], [crypto_ctx], [verify_signatures]; [se_io]: the paths the file
    system answers with an error (other than "not found"). *)
Record store_env := {
  se_root : str;
  se_crypto : crypto_context;
  se_verify : bool;
  se_io : str -> bool;
}.

Definition disk_of (io : str -> bool) (files : gmap str bytes) : disk := fun p =>
  if io p then OpenErr
  else match files !! p with Some c => file_of c | None => OpenNotFound end.

(** ** Opening store content *)

(** The signatures, when they are checked. *)
Definition check_signatures {E} (failed : E) (env : store_env) (verify : bool)
    (parts : list (bytes * bytes)) : outcome E unit :=
  if verify && negb (forallb (fun '(data, signature) =>
       match crypto_verify (se_crypto env) data signature with Ok _ => true | _ => false end) parts)
  then Err failed else Ok tt.

Definition store_decrypt (env : store_env) (q : queue_id) (file_id : uintn)
    (store_header : store_header) (encrypted_content : bytes) : outcome store_error bytes :=
  if sh_is_encrypted store_header then
    if decide (zlen encrypted_content < 12) then Err SDecrypt
    else
      nonce ← slice encrypted_content 0 12;
      ciphertext ← slice_from encrypted_content 12;
      map_err (fun _ => SDecrypt) (crypto_decrypt (se_crypto env) q file_id nonce ciphertext)
  else Ok encrypted_content.

Definition io_result (r : option bytes) : outcome store_error bytes :=
  match r with Some d => Ok d | None => Err SIo end.

Definition store_decompress (store_header : store_header) (content : bytes)
    : outcome store_error bytes :=
  if sh_is_compressed store_header then
    match sh_compression store_header with
    | CompGzip => io_result (zstd_decompress content)
    | CompXz => io_result (xz_decompress content)
    | CompZstd => io_result (zstd_decompress content)
    | CompNone => Ok content
    end
  else Ok content.

(** [PersistStore::extract_wal_bytes] *)
Definition extract_wal_bytes (env : store_env) (q : queue_id) (file_id : uintn)
    (content : bytes) (verify_signatures : bool) : outcome store_error bytes :=
  '(file_auth, auth_size) ← map_err SHeader (file_auth_from_bytes content);
  content_after_auth ← slice_from content auth_size;
  '(store_header, header_size) ← map_err SHeader (store_header_from_bytes content_after_auth);
  header_bytes ← slice content_after_auth 0 header_size;
  encrypted_content ← slice_from content_after_auth header_size;
  _ ← check_signatures SSignatureVerificationFailed env verify_signatures
        [(header_bytes, header_signature file_auth);
         (encrypted_content, content_signature file_auth)];
  wal_content_bytes ← store_decrypt env q file_id store_header encrypted_content;
  store_decompress store_header wal_content_bytes.

(** [parser::extract_wal_header]: the same opening, then the WAL header. *)
Definition extract_wal_header (env : store_env) (q : queue_id) (file_id : uintn)
    (store_file_bytes : bytes) (verify_signatures : bool) : outcome store_error wal_header :=
  '(file_auth, auth_size) ← map_err SHeader (file_auth_from_bytes store_file_bytes);
  content_after_auth ← slice_from store_file_bytes auth_size;
  '(store_header, header_size) ← map_err SHeader (store_header_from_bytes content_after_auth);
  header_bytes ← slice content_after_auth 0 header_size;
  content_bytes ← slice_from content_after_auth header_size;
  _ ← check_signatures SSignatureVerificationFailed env verify_signatures
        [(header_bytes, header_signature file_auth);
         (content_bytes, content_signature file_auth)];
  wal_content_bytes ← store_decrypt env q file_id store_header content_bytes;
  wal_content_bytes ← store_decompress store_header wal_content_bytes;
  map_err SWalHeaderError (get_wal_header wal_content_bytes).

(** ** The range store *)

Definition range_key (q : queue_id) (file_id : uintn) : str :=
  qid_path q ++ "-"%char :: uintn_display file_id.

Definition read_range_from_fs (env : store_env) (st : store_state) (q : queue_id)
    (file_id : uintn) : outcome range_error (option (uintn * uintn)) :=
  let file_path := queue_to_store_path q (se_root env) file_id in
  if se_io env file_path then Err RIo
  else match st_files st !! file_path with
  | None => Err RFileNotFound
  | Some content =>
      let buffer := take 256 content in
      '(file_auth, auth_size) ← map_err RHeader (file_auth_from_bytes buffer);
      content_after_auth ← slice_from buffer auth_size;
      '(header, header_size) ← map_err RHeader (store_header_from_bytes content_after_auth);
      header_bytes ← slice content_after_auth 0 header_size;
      _ ← check_signatures RSignatureVerificationFailed env (se_verify env)
            [(header_bytes, header_signature file_auth)];
      if uintn_is_zero (sh_num_entries header) then Ok None
      else
        let first_id := sh_num_entries_before header in
        num_entries_minus_one ← map_err RUintN (uintn_sub (sh_num_entries header) uintn_one);
        Ok (Some (first_id, uintn_add first_id num_entries_minus_one))
  end.

Definition set_ranges (st : store_state) (ranges : gmap str (uintn * uintn)) : store_state :=
  {| st_files := st_files st; st_tmp := st_tmp st; st_ranges := ranges; st_done := st_done st |}.

Definition record_range (st : store_state) (q : queue_id) (file_id first_id last_id : uintn)
    : store_state :=
  set_ranges st (<[range_key q file_id := (first_id, last_id)]> (st_ranges st)).

Definition get_range (env : store_env) (st : store_state) (q : queue_id) (file_id : uintn)
    : store_state * outcome range_error (option (uintn * uintn)) :=
  match st_ranges st !! range_key q file_id with
  | Some range => (st, Ok (Some range))
  | None =>
      match read_range_from_fs env st q file_id with
      | Ok (Some range) =>
          (set_ranges st (<[range_key q file_id := range]> (st_ranges st)), Ok (Some range))
      | Ok None => (st, Ok None)
      | Err RFileNotFound => (st, Ok None)
      | Err e => (st, Err e)
      | Panic => (st, Panic)
      end
  end.

(** ** The worker *)

Definition maybe_compress_and_encrypt (env : store_env) (data : bytes) (wal_file : wal_complete)
    : outcome unit bytes :=
  data_to_process ←
    (if bool_decide (wc_compression_type wal_file = CompNone) then Ok data
     else match wc_compression_type wal_file with
          | CompZstd =>
              match zstd_compress data with Some c => Ok c | None => Err tt end
          | CompNone => Ok data
          | _ => Err tt
          end);
  if bool_decide (wc_encryption_type wal_file = EncNone) then Ok data_to_process
  else
    '(nonce, ciphertext) ←
      map_err (fun _ => tt) (crypto_encrypt (se_crypto env) (wc_queue_id wal_file)
        (wc_file_id wal_file) data_to_process);
    Ok (nonce ++ ciphertext).

(** The bytes [write_store_file] puts in the file. *)
Definition store_file_bytes (env : store_env) (wal_file : wal_complete) (wal_data : wal_content)
    (data : bytes) : bytes :=
  let header := {| sh_compression := wc_compression_type wal_file;
                   sh_encryption := wc_encryption_type wal_file;
                   sh_num_entries_before := wc_entries_before wal_data;
                   sh_num_entries := wc_num_entries wal_data |} in
  let '(header_bytes, _) := store_header_write_to_bytes header [] in
  let header_signature := crypto_sign (se_crypto env) header_bytes in
  let content_signature := crypto_sign (se_crypto env) data in
  let '(auth_bytes, _) :=
    file_auth_write_to_bytes (Build_file_authentication header_signature content_signature) [] in
  auth_bytes ++ header_bytes ++ data.

(** What the file system answers: [FaultWrite t]: a call up to the rename fails
    and, with [t], leaves the temporary file; [FaultDelete]: the deletion of the
    WAL file fails. *)
Inductive store_fault :=
| NoFault
| FaultWrite (tmp_left : bool)
| FaultDelete.

(** [write_store_file]: a temporary file, synced, then renamed. *)
Definition write_store_file (env : store_env) (st : store_state) (fault : store_fault)
    (uuid : str) (wal_file : wal_complete) (wal_data : wal_content) (data : bytes)
    : store_state * outcome unit unit :=
  let content := store_file_bytes env wal_file wal_data data in
  let store_file_path :=
    queue_to_store_path (wc_queue_id wal_file) (se_root env) (wc_file_id wal_file) in
  let temp_file := uuid ++ s2l ".tmp" in
  match fault with
  | FaultWrite tmp_left =>
      ({| st_files := st_files st;
          st_tmp := if tmp_left then temp_file :: st_tmp st else st_tmp st;
          st_ranges := st_ranges st; st_done := st_done st |}, Err tt)
  | _ =>
      ({| st_files := <[store_file_path := content]> (st_files st);
          st_tmp := st_tmp st; st_ranges := st_ranges st;
          st_done := st_done st ++ [(wc_queue_id wal_file, wc_file_id wal_file)] |}, Ok tt)
  end.

Definition delete_wal_file (env : store_env) (st : store_state) (q : queue_id) (file_id : uintn)
    : store_state :=
  {| st_files := delete (queue_to_wal_path q (se_root env) file_id) (st_files st);
     st_tmp := st_tmp st; st_ranges := st_ranges st; st_done := st_done st |}.

(** [StoreWriteWorker::process_entry] ([None]: the worker panicked). *)
Definition process_entry (env : store_env) (st : store_state) (fault : store_fault) (uuid : str)
    (wal_file : wal_complete) : option store_state :=
  let q := wc_queue_id wal_file in
  let file_id := wc_file_id wal_file in
  match get_wal_content (disk_of (se_io env) (st_files st)) (queue_to_wal_dir q (se_root env)) file_id with
  | Panic => None
  | Err _ => Some st
  | Ok wal_data =>
      match maybe_compress_and_encrypt env (wc_content wal_data) wal_file with
      | Panic => None
      | Err _ => Some st
      | Ok data_to_write =>
          match write_store_file env st fault uuid wal_file wal_data data_to_write with
          | (st, Ok _) =>
              match uintn_sub (uintn_add (wc_entries_before wal_data) (wc_num_entries wal_data))
                      uintn_one with
              | Panic => None
              | Err _ => Some st
              | Ok last_id =>
                  let st := record_range st q file_id (wc_entries_before wal_data) last_id in
                  match fault with
                  | FaultDelete => Some st
                  | _ => Some (delete_wal_file env st q file_id)
                  end
              end
          | (st, _) => Some st
          end
      end
  end.

(** ** The rest of [PersistStore] *)

Definition get_file_range (env : store_env) (st : store_state) (q : queue_id) (file_id : uintn)
    : store_state * outcome store_error (option (uintn * uintn)) :=
  let '(st, r) := get_range env st q file_id in (st, map_err SRange r).

Definition store_get_file_end (env : store_env) (st : store_state) (q : queue_id)
    (file_id : uintn) : store_state * outcome store_error (option uintn) :=
  let '(st, r) := get_file_range env st q file_id in
  (st, range ← r; Ok (option_map snd range)).

Definition store_get_file_header (env : store_env) (st : store_state) (q : queue_id)
    (file_id : uintn) : outcome store_error (option wal_header) :=
  let file_path := queue_to_store_path q (se_root env) file_id in
  match st_files st !! file_path with
  | None => Ok None
  | Some content =>
      if se_io env file_path then Err SIo
      else if decide (zlen content < 10) then Ok None
      else match extract_wal_header env q file_id content (se_verify env) with
      | Ok wal_header => Ok (Some wal_header)
      | Err _ => Ok None
      | Panic => Panic
      end
  end.

Definition get_store_bytes (env : store_env) (st : store_state) (q : queue_id)
    (file_id : uintn) : outcome store_error (option bytes) :=
  let file_path := queue_to_store_path q (se_root env) file_id in
  if se_io env file_path then Err SIo else Ok (st_files st !! file_path).

(** [PersistStore::new]: the files are those of the disk, the range cache and
    the channel of stored files are new. *)
Definition store_new (disk : store_state) : store_state :=
  {| st_files := st_files disk; st_tmp := st_tmp disk; st_ranges := ∅; st_done := [] |}.

(** [recover]: the files of the temporary directory with extension [tmp] are
    removed ([stuck]: the ones whose removal fails). *)
Definition store_recover (st : store_state) (stuck : str -> bool) : store_state :=
  {| st_files := st_files st;
     st_tmp := List.filter (fun name =>
       stuck name || negb (bool_decide (name_extension name = Some (s2l "tmp")))) (st_tmp st);
     st_ranges := st_ranges st; st_done := st_done st |}.

End Store.
