(* ===== verification/StoreFacts.v ===== *)
(** * Theory of the persistent store

    A store file opens back into the WAL file it was made from; processing a
    file never loses it; the recorded range is the one the file announces. *)
From Stdlib Require Import ZArith Lia List Bool.
From Stdlib Require Import Ascii String.
From stdpp Require Import base option list gmap strings.
From S2P Require Import Prelude UBig UintN UintNFacts Paths PathsFacts Types WalFormat WalReader.
From S2P Require Import WalReaderFacts OrderedBuffer AckWriter WalWriter Crypto StoreFormat Store.
#[local] Open Scope Z_scope.

Section Facts.
Context {B : Build} {U : UBig} {X : Hasher} {C : CryptoLib} {Z' : CompressLib}.

(** ** Keys and paths *)

Lemma display_val x : uintn_display x = to_dec (uintn_val x).
Proof. destruct x; try done. apply ubig_to_dec_spec. Qed.

Lemma split_last_sep (a b c d : str) s : Forall (fun x => x <> s) b -> Forall (fun x => x <> s) d ->
  a ++ s :: b = c ++ s :: d -> a = c /\ b = d.
Proof.
  intros Hb Hd. revert c. induction a as [|x a IH]; intros [|y c] E; simpl in E.
  - by injection E.
  - injection E as <- E. subst b. apply Forall_app in Hb as [_ Hb].
    by apply Forall_cons in Hb as [Hb _].
  - injection E as -> E. subst d. apply Forall_app in Hd as [_ Hd].
    by apply Forall_cons in Hd as [Hd _].
  - injection E as -> E. apply IH in E as [-> ->]. done.
Qed.

Lemma dec_no_dash z : Forall (fun x => x <> "-"%char) (to_dec z).
Proof.
  eapply Forall_impl; [apply to_dec_digits|]. intros c Hc ->. unfold is_dec in Hc. simpl in Hc.
  intuition discriminate.
Qed.

(** The cache key determines the queue and the file. *)
Lemma range_key_inj q f q' f' : uintn_wf f -> uintn_wf f' ->
  range_key q f = range_key q' f' -> q = q' /\ uintn_val f = uintn_val f'.
Proof.
  intros Hf Hf' E. unfold range_key in E. rewrite !display_val in E.
  apply split_last_sep in E as [Eq Ev]; [|apply dec_no_dash..].
  split; [by destruct q, q'; simpl in Eq; subst|].
  apply to_dec_inj in Ev; [done|by apply val_nonneg..].
Qed.

Lemma path_push_last p q : q <> [] -> last (path_push p q) = last q.
Proof.
  intros Hq. unfold path_push. destruct (path_absolute q); [done|].
  destruct (_ || _).
  - rewrite last_app. destruct (last q) eqn:E; [done|]. by apply last_None in E.
  - by apply last_app_sep.
Qed.

Lemma file_path_last x base ext : ext <> [] -> last (uintn_to_file_path x base ext) = last ext.
Proof.
  intros He. unfold uintn_to_file_path. cbn zeta. destruct (push_chunks _ _ _) as [p r].
  rewrite bool_decide_false by done. rewrite path_push_last by (by destruct r).
  rewrite last_app. destruct ext as [|c ext]; [done|].
  change (last (dot :: c :: ext)) with (last (c :: ext)).
  destruct (last (c :: ext)) eqn:E; [done|]. by apply last_None in E.
Qed.

(** A WAL file and a store file never share a path. *)
Lemma wal_store_paths q q' base base' f f' :
  queue_to_wal_path q base f <> queue_to_store_path q' base' f'.
Proof.
  unfold queue_to_wal_path, queue_to_store_path. intros E. apply (f_equal last) in E.
  by rewrite !file_path_last in E.
Qed.

(** ** A store file, opened *)

Definition store_header_of (wal_file : wal_complete) (wal_data : wal_content) : store_header :=
  {| sh_compression := wc_compression_type wal_file;
     sh_encryption := wc_encryption_type wal_file;
     sh_num_entries_before := wc_entries_before wal_data;
     sh_num_entries := wc_num_entries wal_data |}.

Definition auth_of (env : store_env) (h : store_header) (data : bytes) : file_authentication :=
  {| header_signature := crypto_sign (se_crypto env) (encode_store_header h);
     content_signature := crypto_sign (se_crypto env) data |}.

Lemma auth_of_ok env h data : auth_ok (auth_of env h data).
Proof. split; unfold zlen; simpl; unfold crypto_sign; by rewrite ed_sign_length. Qed.

Lemma store_file_bytes_eq env wal_file wal_data data :
  store_file_bytes env wal_file wal_data data =
    encode_auth (auth_of env (store_header_of wal_file wal_data) data) ++
    encode_store_header (store_header_of wal_file wal_data) ++ data.
Proof.
  unfold store_file_bytes. cbn zeta. fold (store_header_of wal_file wal_data).
  unfold auth_of, encode_store_header, encode_auth.
  by destruct (store_header_write_to_bytes (store_header_of wal_file wal_data) []).
Qed.

Lemma verify_sign env data : crypto_verify (se_crypto env) data
  (crypto_sign (se_crypto env) data) = Ok tt.
Proof. unfold crypto_verify, crypto_sign. by rewrite ed_correct. Qed.

Lemma check_signed {E} (failed : E) env verify datas :
  check_signatures failed env verify
    (map (fun d => (d, crypto_sign (se_crypto env) d)) datas) = Ok tt.
Proof.
  unfold check_signatures. replace (forallb _ _) with true; [by destruct verify|].
  induction datas as [|d datas IH]; [done|]. simpl. rewrite verify_sign. done.
Qed.

(** The common opening of the readers. *)
Lemma open_store {A} env wal_file wal_data data verify
    (k : store_header -> bytes -> outcome store_error A) :
  store_header_ok (store_header_of wal_file wal_data) ->
  ('(file_auth, auth_size) ←
     map_err SHeader (file_auth_from_bytes (store_file_bytes env wal_file wal_data data));
   content_after_auth ← slice_from (store_file_bytes env wal_file wal_data data) auth_size;
   '(store_header, header_size) ← map_err SHeader (store_header_from_bytes content_after_auth);
   header_bytes ← slice content_after_auth 0 header_size;
   encrypted_content ← slice_from content_after_auth header_size;
   _ ← check_signatures SSignatureVerificationFailed env verify
        [(header_bytes, header_signature file_auth);
         (encrypted_content, content_signature file_auth)];
   k store_header encrypted_content) =
  k (store_header_of wal_file wal_data) data.
Proof.
  intros Hok. rewrite store_file_bytes_eq. set (h := store_header_of wal_file wal_data) in *.
  pose proof (auth_of_ok env h data) as Ha. pose proof (zlen_encode_auth _ Ha) as Hl.
  rewrite auth_roundtrip by done. ok_step.
  rewrite slice_from_tail by done. ok_step.
  rewrite store_header_roundtrip by done. ok_step.
  rewrite slice_head by (by rewrite zlen_encode_store_header). ok_step.
  rewrite slice_from_tail by (by rewrite zlen_encode_store_header). ok_step.
  pose proof (check_signed (E := store_error) SSignatureVerificationFailed env verify
    [encode_store_header h; data]) as Hs. simpl in Hs. simpl. rewrite Hs. done.
Qed.

Lemma decrypt_processed env content wal_file wal_data data :
  maybe_compress_and_encrypt env content wal_file = Ok data ->
  (d ← store_decrypt env (wc_queue_id wal_file) (wc_file_id wal_file)
         (store_header_of wal_file wal_data) data;
   store_decompress (store_header_of wal_file wal_data) d) = Ok content.
Proof.
  unfold maybe_compress_and_encrypt, store_decrypt, store_decompress.
  unfold sh_is_encrypted, sh_is_compressed. cbn [sh_encryption sh_compression store_header_of].
  intros Hm.
  assert (exists mid, (if bool_decide (wc_compression_type wal_file = CompNone) then Ok content
     else match wc_compression_type wal_file with
          | CompZstd =>
              match zstd_compress content with Some c => Ok c | None => Err tt end
          | CompNone => Ok content
          | _ => Err tt
          end) = Ok mid /\
    (if negb (bool_decide (wc_compression_type wal_file = CompNone)) then
      match wc_compression_type wal_file with
      | CompNone => Ok mid
      | CompXz => io_result (xz_decompress mid)
      | CompGzip | CompZstd => io_result (zstd_decompress mid)
      end else Ok mid) = Ok content) as (mid & Hc & Hd).
  { destruct (wc_compression_type wal_file); simpl in *; try done.
    - by exists content.
    - destruct (zstd_compress content) as [c|] eqn:E; [|done]. exists c. split; [done|].
      by rewrite (zstd_roundtrip _ _ E). }
  rewrite Hc in Hm. ok_step. destruct (wc_encryption_type wal_file); simpl in *.
  - by injection Hm as <-.
  - destruct (crypto_encrypt _ _ _ mid) as [[nonce ct]| |] eqn:He; ok_step; try done.
    injection Hm as <-. apply decrypt_encrypt in He as [Hn He].
    pose proof (zlen_nonneg ct). rewrite decide_False by (rewrite zlen_app; lia).
    rewrite slice_head by lia. ok_step. rewrite slice_from_tail by lia. ok_step.
    rewrite He. ok_step. exact Hd.
Qed.

(** Opening what was written gives the WAL content back. *)
Lemma extract_written env wal_file wal_data content data verify :
  store_header_ok (store_header_of wal_file wal_data) ->
  maybe_compress_and_encrypt env content wal_file = Ok data ->
  extract_wal_bytes env (wc_queue_id wal_file) (wc_file_id wal_file)
    (store_file_bytes env wal_file wal_data data) verify = Ok content.
Proof.
  intros Hok Hm. unfold extract_wal_bytes.
  rewrite (open_store env wal_file wal_data data verify (fun h c =>
    w ← store_decrypt env (wc_queue_id wal_file) (wc_file_id wal_file) h c;
    store_decompress h w)) by done.
  by apply decrypt_processed.
Qed.

Lemma encrypt_no_panic ctx q f d : crypto_encrypt ctx q f d <> Panic.
Proof.
  unfold crypto_encrypt, derive_rng. destruct (hkdf_expand _ _ _) as [s|]; [|done]. ok_step.
  destruct (fill_bytes 32 _) as [k r]. destruct (fill_bytes 12 r) as [n r'].
  by destruct (aes_encrypt k n d).
Qed.

Lemma maybe_no_panic env content msg : maybe_compress_and_encrypt env content msg <> Panic.
Proof.
  unfold maybe_compress_and_encrypt.
  assert (forall d, (if bool_decide (wc_encryption_type msg = EncNone) then Ok d
    else '(nonce, ciphertext) ← map_err (fun _ => tt) (crypto_encrypt (se_crypto env)
      (wc_queue_id msg) (wc_file_id msg) d); Ok (nonce ++ ciphertext)) <> Panic) as He.
  { intros d. case_bool_decide; [done|].
    pose proof (encrypt_no_panic (se_crypto env) (wc_queue_id msg) (wc_file_id msg) d).
    by destruct (crypto_encrypt _ _ _ _) as [[n c]| |]. }
  destruct (wc_compression_type msg); simpl; try done; try apply He.
  destruct (zstd_compress content); [apply He|done].
Qed.

(** ** Processing a WAL file *)

Section Process.
Context (env : store_env) (st : store_state) (msg : wal_complete).
Context (wh : wal_header) (es : list (uintn * bytes)) (tail : bytes) (oid : option uintn).
Let q := wc_queue_id msg.
Let f := wc_file_id msg.
Let wpath := queue_to_wal_path q (se_root env) f.
Let spath := queue_to_store_path q (se_root env) f.
Let content := wal_file wh es tail.
Hypothesis Hfile : st_files st !! wpath = Some content.
Hypothesis Hwh : wal_header_ok wh.
Hypothesis Hbefore : uintn_val (num_entries_before wh) < 2 ^ 128.
Hypothesis Hes : Forall (entry_fits wh) es.
Hypothesis Htail : torn wh tail oid.
Hypothesis Hsize : zlen content <= isize_max.

Definition content_of : wal_content :=
  {| wc_entries_before := num_entries_before wh;
     wc_num_entries := uintn_from_u64 (zlen es);
     wc_content := wal_file wh es tail |}.

Lemma zlen_es : in_u 64 (zlen es).
Proof.
  pose proof (length_encode_entries wh es Hwh Hes) as Hl. subst content.
  unfold wal_file, isize_max in Hsize. rewrite !zlen_app in Hsize.
  pose proof (zlen_nonneg (encode_wal_header wh)). pose proof (zlen_nonneg tail).
  unfold in_u, zlen in *. lia.
Qed.

Lemma process_content : se_io env wpath = false ->
  get_wal_content (disk_of (se_io env) (st_files st)) (queue_to_wal_dir q (se_root env)) f = Ok content_of.
Proof.
  intros Hio. apply (get_wal_content_file wh es tail oid); try done.
  unfold wal_file_path, disk_of. fold (queue_to_wal_path q (se_root env) f). fold wpath.
  by rewrite Hio, Hfile.
Qed.

Lemma counter_small x : uintn_canonical x -> uintn_val x < 2 ^ 128 -> uintn_size_in_bytes x <= 16.
Proof.
  intros Hc Hv. destruct (size_valid x Hc) as [Hs|]; [|lia].
  apply valid_size_range in Hs. lia.
Qed.

Lemma process_header_ok : store_header_ok (store_header_of msg content_of) /\
  store_header_size (store_header_of msg content_of) <= 72.
Proof.
  pose proof zlen_es as Hu. destruct (u64_canonical _ Hu) as [Hc Hv].
  assert (uintn_canonical (num_entries_before wh)) as Hb by apply Hwh.
  pose proof (counter_small _ Hb Hbefore). unfold in_u in Hu.
  pose proof (counter_small (uintn_from_u64 (zlen es)) Hc) as Hn.
  unfold store_header_ok, store_header_size. cbn [sh_num_entries_before sh_num_entries
    store_header_of content_of wc_entries_before wc_num_entries]. split_and!; try done; lia.
Qed.

(** The last id, as the worker computes it. *)
Lemma process_last : exists r,
  uintn_sub (uintn_add (num_entries_before wh) (uintn_from_u64 (zlen es))) uintn_one = r /\
  match r with
  | Ok last_id => uintn_ok last_id /\
      uintn_val last_id = uintn_val (num_entries_before wh) + zlen es - 1
  | Err _ => uintn_val (num_entries_before wh) + zlen es = 0
  | Panic => False
  end.
Proof.
  destruct (u64_canonical _ zlen_es) as [Hc Hv].
  assert (uintn_ok (num_entries_before wh)) as Hb by apply Hwh.
  destruct (add_spec _ _ Hb (canonical_ok _ Hc)) as [Ha Hav]. rewrite Hv in Hav.
  assert (uintn_ok uintn_one) as Ho by done.
  eexists. split; [reflexivity|].
  destruct (decide (1 <= uintn_val (num_entries_before wh) + zlen es)).
  - destruct (sub_ge _ _ Ha Ho) as (z & -> & Hz & Hzv); [rewrite Hav; done|].
    split; [done|]. rewrite Hzv, Hav. done.
  - rewrite sub_lt by (try done; rewrite Hav; simpl; lia).
    pose proof (zlen_nonneg es). pose proof (val_nonneg _ (ok_wf _ Hb)). lia.
Qed.

(** What processing a file can do. *)
Lemma process_cases fault uuid :
  exists st', process_entry env st fault uuid msg = Some st' /\
  (st_files st' = st_files st \/
   exists data, maybe_compress_and_encrypt env content msg = Ok data /\
     (st_files st' = <[spath := store_file_bytes env msg content_of data]> (st_files st) \/
      st_files st' = delete wpath
        (<[spath := store_file_bytes env msg content_of data]> (st_files st)))).
Proof.
  unfold process_entry. fold q f. destruct (se_io env wpath) eqn:Hio.
  { exists st. split; [|by left]. unfold get_wal_content, wal_file_path, disk_of.
    fold (queue_to_wal_path q (se_root env) f). fold wpath. by rewrite Hio. }
  rewrite process_content by done. cbn [wc_content content_of].
  fold content. destruct (maybe_compress_and_encrypt env content msg) as [data| |] eqn:Hm.
  2:{ exists st. auto. }
  2:{ by apply maybe_no_panic in Hm. }
  unfold write_store_file. fold q f spath.
  destruct process_last as (r & Hr & Hrv). cbn [wc_entries_before wc_num_entries content_of].
  destruct fault as [|t|]; rewrite ?Hr; [| |].
  - destruct r as [l|e|]; [| |done]; (eexists; split; [reflexivity|]); right;
      exists data; (split; [done|]); [by right|by left].
  - eexists. split; [reflexivity|]. by left.
  - destruct r as [l|e|]; [| |done]; (eexists; split; [reflexivity|]); right;
      exists data; (split; [done|]); by left.
Qed.

(** The content is in the WAL file or in the store file, whatever happens. *)
Lemma process_keeps fault uuid verify :
  exists st', process_entry env st fault uuid msg = Some st' /\
  (st_files st' !! wpath = Some content \/
   exists sb, st_files st' !! spath = Some sb /\
     extract_wal_bytes env q f sb verify = Ok content) /\
  (forall p, p <> wpath -> p <> spath -> st_files st' !! p = st_files st !! p).
Proof.
  assert (wpath <> spath) as Hne by apply wal_store_paths.
  destruct (process_cases fault uuid) as (st' & -> & Hcases).
  exists st'. split; [done|]. destruct Hcases as [->|(data & Hm & Hcases)]; [by split; [left|]|].
  assert (extract_wal_bytes env q f (store_file_bytes env msg content_of data) verify = Ok content)
    as Hx by (apply extract_written; [apply process_header_ok|done]).
  destruct Hcases as [->| ->].
  - split; [left; by rewrite lookup_insert_ne|]. intros p Hp Hs. by rewrite lookup_insert_ne.
  - split; [|intros p Hp Hs; by rewrite lookup_delete_ne, lookup_insert_ne].
    right. eexists. split; [|exact Hx]. rewrite lookup_delete_ne by done. apply lookup_insert_eq.
Qed.

Lemma take_256 a h d : zlen a = 152 -> zlen h <= 72 ->
  take 256 (a ++ h ++ d) = a ++ h ++ take (256 - length a - length h) (d : bytes).
Proof.
  intros Ha Hh. unfold zlen in *. rewrite take_app_ge by lia.
  by rewrite take_app_ge by lia.
Qed.

(** The range a store file announces. *)
Lemma read_range_written st1 data : se_io env spath = false ->
  st_files st1 !! spath = Some (store_file_bytes env msg content_of data) -> es <> [] ->
  exists r, read_range_from_fs env st1 q f = Ok (Some r) /\ fst r = num_entries_before wh /\
    uintn_val (snd r) = uintn_val (num_entries_before wh) + zlen es - 1 /\ uintn_canonical (snd r).
Proof.
  intros Hio Hs Hne. destruct process_header_ok as [Hok Hsz].
  destruct (u64_canonical _ zlen_es) as [Hc Hv].
  assert (1 <= zlen es) as Hl by (destruct es; [done|rewrite zlen_cons;
    match goal with |- context [zlen ?l] => pose proof (zlen_nonneg l) end; lia]).
  unfold read_range_from_fs. fold spath. cbn zeta. rewrite Hio, Hs, store_file_bytes_eq.
  set (h := store_header_of msg content_of) in *.
  pose proof (auth_of_ok env h data) as Ha. pose proof (zlen_encode_auth _ Ha) as Hal.
  cbn zeta. rewrite take_256 by (rewrite ?zlen_encode_store_header; done).
  rewrite auth_roundtrip by done. ok_step. rewrite slice_from_tail by done. ok_step.
  rewrite store_header_roundtrip by done. ok_step.
  rewrite slice_head by (by rewrite zlen_encode_store_header). ok_step.
  pose proof (check_signed (E := range_error) RSignatureVerificationFailed env (se_verify env)
    [encode_store_header h]) as Hsig. simpl in Hsig. cbn [header_signature auth_of].
  rewrite Hsig. ok_step. cbn [sh_num_entries h store_header_of content_of wc_num_entries].
  rewrite is_zero_spec, Hv. destruct (Z.eqb_spec (zlen es) 0); [lia|]. cbn zeta.
  destruct (sub_ge (uintn_from_u64 (zlen es)) uintn_one) as (z & Hzs & Hz & Hzv);
    [by apply canonical_ok|done|rewrite Hv; done|]. rewrite Hzs. ok_step.
  eexists. split; [reflexivity|]. split; [done|].
  split; [|apply add_canonical; [apply Hwh|exact (sub_canonical _ uintn_one _ Hc ltac:(done) Hzs)]]. cbn [snd sh_num_entries_before h store_header_of
    content_of wc_entries_before].
  destruct (add_spec (num_entries_before wh) z) as [_ ->]; [apply Hwh|done|].
  rewrite Hzv, Hv. simpl. lia.
Qed.

(** Processing a file with entries: nothing changed but the temporary files, or
    the store file is there, with its range in the cache. *)
Lemma process_outcome fault uuid : es <> [] ->
  exists st', process_entry env st fault uuid msg = Some st' /\
  (st_files st' = st_files st /\ st_ranges st' = st_ranges st \/
   exists data last_id, maybe_compress_and_encrypt env content msg = Ok data /\
     uintn_canonical last_id /\ uintn_val last_id = uintn_val (num_entries_before wh) + zlen es - 1 /\
     st_ranges st' = <[range_key q f := (num_entries_before wh, last_id)]> (st_ranges st) /\
     (st_files st' = <[spath := store_file_bytes env msg content_of data]> (st_files st) \/
      st_files st' = delete wpath
        (<[spath := store_file_bytes env msg content_of data]> (st_files st)))).
Proof.
  intros Hne. assert (1 <= zlen es) as Hl by (destruct es; [done|rewrite zlen_cons;
    match goal with |- context [zlen ?l] => pose proof (zlen_nonneg l) end; lia]).
  pose proof (val_nonneg (num_entries_before wh) (proj1 (proj1 (proj1 (proj2 (proj2 Hwh)))))).
  unfold process_entry. fold q f. destruct (se_io env wpath) eqn:Hio.
  { exists st. split; [|by left]. unfold get_wal_content, wal_file_path, disk_of.
    fold (queue_to_wal_path q (se_root env) f). fold wpath. by rewrite Hio. }
  rewrite process_content by done. cbn [wc_content content_of].
  fold content. destruct (maybe_compress_and_encrypt env content msg) as [data| |] eqn:Hm.
  2:{ exists st. auto. }
  2:{ by apply maybe_no_panic in Hm. }
  unfold write_store_file. fold q f spath.
  destruct process_last as (r & Hr & Hrv). cbn [wc_entries_before wc_num_entries content_of].
  destruct r as [l|e|]; [|lia|done]. destruct Hrv as [_ Hlv].
  assert (uintn_canonical l) as Hlc.
  { refine (sub_canonical _ uintn_one _ _ ltac:(done) Hr). apply add_canonical; [apply Hwh|].
    by destruct (u64_canonical _ zlen_es). }
  destruct fault as [|t|]; rewrite ?Hr; (eexists; split; [reflexivity|]); [right|by left|right];
    exists data, l; do 4 (split; [done|]); [by right|by left].
Qed.

(** The cached range and the announced one agree. *)
Lemma process_range data uuid : se_io env wpath = false -> se_io env spath = false ->
  maybe_compress_and_encrypt env content msg = Ok data -> es <> [] ->
  exists st' r r', process_entry env st NoFault uuid msg = Some st' /\
    st_files st' !! wpath = None /\
    st_ranges st' !! range_key q f = Some r /\ read_range_from_fs env st' q f = Ok (Some r') /\
    fst r = num_entries_before wh /\ fst r' = num_entries_before wh /\
    uintn_val (snd r) = uintn_val (num_entries_before wh) + zlen es - 1 /\
    uintn_val (snd r') = uintn_val (snd r).
Proof.
  intros Hw Hsp Hm Hne. destruct process_last as (last & Hr & Hrv).
  assert (1 <= zlen es) as Hl by (destruct es; [done|rewrite zlen_cons;
    match goal with |- context [zlen ?l] => pose proof (zlen_nonneg l) end; lia]).
  pose proof (val_nonneg (num_entries_before wh) (proj1 (proj1 (proj1 (proj2 (proj2 Hwh)))))).
  destruct last as [last_id|e|]; [|lia|done]. destruct Hrv as [_ Hrv].
  assert (wpath <> spath) as Hdiff by apply wal_store_paths.
  unfold process_entry. fold q f. rewrite process_content by done. cbn [wc_content content_of].
  fold content. rewrite Hm. unfold write_store_file. fold q f spath.
  cbn [wc_entries_before wc_num_entries content_of]. rewrite Hr.
  set (st' := delete_wal_file _ _ _ _).
  destruct (read_range_written st' data) as (r' & Hr' & Hf' & Hs' & _); [done| |done|].
  { subst st'. cbn [delete_wal_file st_files record_range set_ranges]. fold wpath.
    rewrite lookup_delete_ne by done. apply lookup_insert_eq. }
  exists st', (num_entries_before wh, last_id), r'. split_and!; try done.
  - subst st'. cbn [delete_wal_file st_files]. fold wpath. apply lookup_delete_eq.
  - subst st'. cbn [delete_wal_file st_ranges record_range set_ranges]. apply lookup_insert_eq.
  - simpl. lia.
Qed.

End Process.

End Facts.

Section Claims.
Context {B : Build} {U : UBig} {X : Hasher} {C : CryptoLib} {Z' : CompressLib}.

(** C17: the worker loses no data: whatever fails (the write of the store file,
    its rename, the deletion of the WAL file), after processing a WAL file its
    whole content is still in the WAL file, or opens, signatures checked or
    not, from the store file; no other file is touched, and the worker does not
    panic. *)
Theorem store_worker_keeps_data env st msg wh es tail oid fault uuid verify :
  let q := wc_queue_id msg in
  let f := wc_file_id msg in
  let wpath := queue_to_wal_path q (se_root env) f in
  let spath := queue_to_store_path q (se_root env) f in
  st_files st !! wpath = Some (wal_file wh es tail) ->
  wal_header_ok wh -> uintn_val (num_entries_before wh) < 2 ^ 128 ->
  Forall (entry_fits wh) es -> torn wh tail oid ->
  zlen (wal_file wh es tail) <= isize_max ->
  exists st', process_entry env st fault uuid msg = Some st' /\
    (st_files st' !! wpath = Some (wal_file wh es tail) \/
     exists sb, st_files st' !! spath = Some sb /\
       extract_wal_bytes env q f sb verify = Ok (wal_file wh es tail)) /\
    (forall p, p <> wpath -> p <> spath -> st_files st' !! p = st_files st !! p).
Proof. intros q f wpath spath H1 H2 H3 H4 H5 H6. by eapply process_keeps. Qed.

(** C18: processing a WAL file with entries, without faults, replaces it by its
    store file; the id range kept in the cache and the one read from the header
    of the file are the same: from the count before the file to the id of its
    last complete entry. *)
Theorem store_range_agrees env st msg wh es tail oid uuid data :
  let q := wc_queue_id msg in
  let f := wc_file_id msg in
  st_files st !! queue_to_wal_path q (se_root env) f = Some (wal_file wh es tail) ->
  wal_header_ok wh -> uintn_val (num_entries_before wh) < 2 ^ 128 ->
  Forall (entry_fits wh) es -> torn wh tail oid ->
  zlen (wal_file wh es tail) <= isize_max -> es <> [] ->
  se_io env (queue_to_wal_path q (se_root env) f) = false ->
  se_io env (queue_to_store_path q (se_root env) f) = false ->
  maybe_compress_and_encrypt env (wal_file wh es tail) msg = Ok data ->
  exists st' r r', process_entry env st NoFault uuid msg = Some st' /\
    st_files st' !! queue_to_wal_path q (se_root env) f = None /\
    st_ranges st' !! range_key q f = Some r /\
    read_range_from_fs env st' q f = Ok (Some r') /\
    fst r = num_entries_before wh /\ fst r' = num_entries_before wh /\
    uintn_val (snd r) = uintn_val (num_entries_before wh) + zlen es - 1 /\
    uintn_val (snd r') = uintn_val (snd r).
Proof.
  intros q f H1 H2 H3 H4 H5 H6 H7 H8 H9 H10.
  exact (process_range env st msg wh es tail oid H1 H2 H3 H4 H5 H6 data uuid H8 H9 H10 H7).
Qed.

(** The keys of the range cache separate queues and files: equal keys come
    from the same queue and ids of equal value. *)
Theorem range_keys_distinct q f q' f' : uintn_wf f -> uintn_wf f' ->
  range_key q f = range_key q' f' -> q = q' /\ uintn_val f = uintn_val f'.
Proof. apply range_key_inj. Qed.

End Claims.

(** *** A file processed *)

Definition sample_header : wal_header := wal_header_default.
Definition sample_entries : list (uintn * bytes) :=
  [(U8 0, [Byte.x61]); (U8 1, [Byte.x62; Byte.x63])].
Definition sample_env : store_env :=
  {| se_root := s2l "/d"; se_crypto := crypto_open [Byte.x01]; se_verify := true;
     se_io := fun _ => false |}.
Definition sample_msg : wal_complete :=
  {| wc_queue_id := {| qid_path := s2l "/i/q" |}; wc_file_id := U8 1;
     wc_encryption_type := EncAes; wc_compression_type := CompZstd |}.
Definition sample_store : store_state :=
  {| st_files := {[ queue_to_wal_path {| qid_path := s2l "/i/q" |} (s2l "/d") (U8 1) :=
                      wal_file sample_header sample_entries [] ]};
     st_tmp := []; st_ranges := ∅; st_done := [] |}.

Lemma sample_header_ok : wal_header_ok sample_header.
Proof. split_and!; done. Defined.
Lemma sample_fit : Forall (entry_fits sample_header) sample_entries.
Proof. repeat constructor; done. Defined.

Lemma store_worker_keeps_data_witness :
  exists st', process_entry (B := checked_build) sample_env sample_store (FaultWrite true)
      (s2l "u") sample_msg = Some st' /\
    (st_files st' !! queue_to_wal_path (wc_queue_id sample_msg) (s2l "/d") (U8 1) =
       Some (wal_file sample_header sample_entries []) \/
     exists sb, st_files st' !! queue_to_store_path (wc_queue_id sample_msg) (s2l "/d") (U8 1) =
         Some sb /\
       extract_wal_bytes (B := checked_build) sample_env (wc_queue_id sample_msg) (U8 1) sb true =
         Ok (wal_file sample_header sample_entries [])).
Proof.
  destruct (store_worker_keeps_data (B := checked_build) sample_env sample_store sample_msg
    sample_header sample_entries [] None (FaultWrite true) (s2l "u") true) as (st' & Hp & Hk & _).
  - vm_eq.
  - exact sample_header_ok.
  - done.
  - exact sample_fit.
  - apply torn_nil, sample_header_ok.
  - vm_compute. discriminate.
  - exists st'. split; [exact Hp|exact Hk].
Defined.

Lemma store_range_agrees_witness :
  exists st' r, process_entry (B := checked_build) sample_env sample_store NoFault (s2l "u")
      sample_msg = Some st' /\
    st_ranges st' !! range_key (wc_queue_id sample_msg) (U8 1) = Some r /\
    fst r = U8 0 /\ uintn_val (snd r) = 1.
Proof.
  destruct (maybe_compress_and_encrypt sample_env (wal_file sample_header sample_entries [])
    sample_msg) as [data| |] eqn:E; [|vm_compute in E; discriminate..].
  destruct (store_range_agrees (B := checked_build) sample_env sample_store sample_msg
    sample_header sample_entries [] None (s2l "u") data)
    as (st' & r & r' & Hp & _ & Hr & _ & Hf & _ & Hs & _).
  - vm_eq.
  - exact sample_header_ok.
  - done.
  - exact sample_fit.
  - apply torn_nil, sample_header_ok.
  - vm_compute. discriminate.
  - discriminate.
  - reflexivity.
  - reflexivity.
  - exact E.
  - exists st', r. split; [exact Hp|]. split; [exact Hr|]. split; [exact Hf|exact Hs].
Defined.

Lemma range_keys_distinct_witness :
  range_key {| qid_path := s2l "/i/q-1" |} (U8 2) <> range_key {| qid_path := s2l "/i/q" |} (U8 12).
Proof.
  intros H. destruct (range_keys_distinct {| qid_path := s2l "/i/q-1" |} (U8 2)
    {| qid_path := s2l "/i/q" |} (U8 12) ltac:(done) ltac:(done) H) as [_ Hv].
  vm_compute in Hv. discriminate.
Defined.
