(* ===== verification/WalStore.v ===== *)
(** * The WAL store and the queries of the persistent store
      ([normfs-wal/src/lib.rs], [normfs-store/src/lib.rs])

    [WalStore] keeps one writer task per queue and answers questions about the
    WAL files of a queue; [PersistStore] answers the same questions about its
    store files.  The files of both are those of [store_state]. *)
From Stdlib Require Import ZArith Lia List Bool.
From Stdlib Require Import Ascii String.
From stdpp Require Import base option list gmap strings.
From S2P Require Import Prelude UBig UintN UintNFacts Paths PathsFacts FileTree Types.
From S2P Require Import WalFormat WalReader OrderedBuffer AckWriter WalWriter.
From S2P Require Import Crypto StoreFormat Store.
#[local] Open Scope Z_scope.

Section WalStore.
Context {B : Build} {U : UBig} {H : HexCrate} {X : Hasher} {S : UnstableSort}.
Context {C : CryptoLib} {Z' : CompressLib}.

(** ** The files of a queue *)

Section Files.
Context (env : store_env) (st : store_state).

Definition ws_disk : disk := disk_of (se_io env) (st_files st).

(** [find_last_file_id]: [create_dir_all], then the search. *)
Definition ws_find_last_file_id (q : queue_id) : outcome wal_error uintn :=
  let queue_path := queue_to_wal_dir q (se_root env) in
  if se_io env queue_path then Err WIoError
  else map_err WPathError
         (find_max_id (Some (dir_tree queue_path (st_files st))) (s2l "wal")).

Definition ws_get_file_end (q : queue_id) (file_id : uintn) : outcome wal_error (option uintn) :=
  match get_wal_range ws_disk (queue_to_wal_dir q (se_root env)) file_id with
  | Ok (_, entries) => Ok (option_map snd entries)
  | Err (WWalEmpty _) => Ok None
  | Err WWalNotFound => Ok None
  | Err e => Err e
  | Panic => Panic
  end.

(** [get_first_file_id] and [get_last_file_id]: no file is not an error. *)
Definition none_if_no_files {E} (err : path_error -> E) (r : outcome path_error uintn)
    : outcome E (option uintn) :=
  match r with
  | Ok id => Ok (Some id)
  | Err PNoFilesFound => Ok None
  | Err e => Err (err e)
  | Panic => Panic
  end.

Definition ws_get_first_file_id (q : queue_id) : outcome wal_error (option uintn) :=
  let queue_path := queue_to_wal_dir q (se_root env) in
  if se_io env queue_path then Err WIoError
  else none_if_no_files WPathError
         (find_min_id (Some (dir_tree queue_path (st_files st))) (s2l "wal")).

Definition ws_get_last_file_id (q : queue_id) : outcome wal_error (option uintn) :=
  let queue_path := queue_to_wal_dir q (se_root env) in
  if se_io env queue_path then Err WIoError
  else none_if_no_files WPathError
         (find_max_id (Some (dir_tree queue_path (st_files st))) (s2l "wal")).

Definition ws_get_entries_before (q : queue_id) (file_id : uintn) : outcome wal_error uintn :=
  header ← read_wal_header ws_disk (queue_to_wal_dir q (se_root env)) file_id;
  Ok (num_entries_before header).

Definition ws_get_queue_start (q : queue_id) : outcome wal_error (option uintn) :=
  first_file_id ← ws_get_first_file_id q;
  match first_file_id with
  | Some first_file_id =>
      entries_before ← ws_get_entries_before q first_file_id; Ok (Some entries_before)
  | None => Ok None
  end.

Definition ws_get_wal_file_content (q : queue_id) (file_id : uintn)
    : outcome wal_error wal_content :=
  get_wal_content ws_disk (queue_to_wal_dir q (se_root env)) file_id.

Definition ws_read_wal_range (q : queue_id) (file_id from_id : uintn) (until_id : option uintn)
    (step : Z) (tx : channel) (source : data_source)
    : outcome wal_error (read_range_result * channel) :=
  read_wal_file_range ws_disk (queue_to_wal_dir q (se_root env)) file_id from_id until_id step
    tx source.

Definition ws_read_wal_content_range (content : bytes) (from_id : uintn)
    (until_id : option uintn) (step : Z) (tx : channel) (source : data_source)
    : outcome wal_error (read_range_result * channel) :=
  read_wal_bytes_range content from_id until_id step tx source.

Definition ws_get_file_header (q : queue_id) (file_id : uintn)
    : outcome wal_error (option wal_header) :=
  match read_wal_header ws_disk (queue_to_wal_dir q (se_root env)) file_id with
  | Ok header => Ok (Some header)
  | Err WWalNotFound => Ok None
  | Err e => Err e
  | Panic => Panic
  end.

Definition ws_get_wal_bytes (q : queue_id) (file_id : uintn) : outcome wal_error (option bytes) :=
  match ws_disk (queue_to_wal_path q (se_root env) file_id) with
  | Opened f => if fv_read_err f then Err WIoError else Ok (Some (fv_bytes f))
  | OpenNotFound => Ok None
  | OpenErr => Err WIoError
  end.

(** ** The queries of [PersistStore] *)

Definition ps_find_last_file_id (q : queue_id) : outcome store_error uintn :=
  let queue_path := queue_to_store_dir q (se_root env) in
  if se_io env queue_path then Err SIo
  else map_err SPath (find_max_id (Some (dir_tree queue_path (st_files st))) (s2l "store")).

Definition ps_get_first_file_id (q : queue_id) : outcome store_error (option uintn) :=
  let queue_path := queue_to_store_dir q (se_root env) in
  if se_io env queue_path then Err SIo
  else none_if_no_files SPath
         (find_min_id (Some (dir_tree queue_path (st_files st))) (s2l "store")).

Definition ps_get_last_file_id (q : queue_id) : outcome store_error (option uintn) :=
  let queue_path := queue_to_store_dir q (se_root env) in
  if se_io env queue_path then Err SIo
  else none_if_no_files SPath
         (find_max_id (Some (dir_tree queue_path (st_files st))) (s2l "store")).

Definition ps_get_queue_start (q : queue_id) : store_state * outcome store_error (option uintn) :=
  match ps_get_first_file_id q with
  | Ok (Some first_file_id) =>
      let '(st, range) := get_file_range env st q first_file_id in
      (st, r ← range; Ok (option_map fst r))
  | Ok None => (st, Ok None)
  | Err e => (st, Err e)
  | Panic => (st, Panic)
  end.

End Files.

(** [remove_dir_all] and [create_dir_all]; [exists_dir]: whether the directory
    was there. *)
Definition ws_truncate (env : store_env) (st : store_state) (exists_dir : bool) (q : queue_id)
    : store_state * outcome wal_error unit :=
  let queue_path := queue_to_wal_dir q (se_root env) in
  if exists_dir && negb (se_io env queue_path) then
    ({| st_files := filter (fun '(p, _) =>
          strip_prefix_l (base_prefix queue_path) p = None) (st_files st);
        st_tmp := st_tmp st; st_ranges := st_ranges st; st_done := st_done st |}, Ok tt)
  else (st, Err WIoError).

(** ** The writer tasks *)

(** A writer: its state ([None] once the task has ended) and the requests in
    its channel. *)
Record wal_task := {
  wt_state : option writer_state;
  wt_pending : list write_request;
}.

(** The files, the writers by queue, and what the two channels of [WalStore]
    hold: acknowledged entries and complete files. *)
Record wal_world := {
  ww_store : store_state;
  ww_writers : gmap str wal_task;
  ww_acks : list ack;
  ww_complete : list wal_complete;
}.

Definition set_task (w : wal_world) (q : queue_id) (t : wal_task) : wal_world :=
  {| ww_store := ww_store w; ww_writers := <[qid_path q := t]> (ww_writers w);
     ww_acks := ww_acks w; ww_complete := ww_complete w |}.

Definition ws_has_writer (w : wal_world) (q : queue_id) : bool :=
  bool_decide (is_Some (ww_writers w !! qid_path q)).

(** What a writer did since an earlier state: the files it closed and the one
    it has open, the acknowledgements, the complete files. *)
Definition put_files (files : gmap str bytes) (new : list (str * bytes)) : gmap str bytes :=
  fold_left (fun m f => <[fst f := snd f]> m) new files.

Definition absorb (w : wal_world) (before after : writer_state) : wal_world :=
  let st := ww_store w in
  {| ww_store :=
       {| st_files := put_files (st_files st)
            (drop (length (wr_disk before)) (wr_disk after) ++
             [(wr_open_path after, afw_file (wr_file_writer after))]);
          st_tmp := st_tmp st; st_ranges := st_ranges st; st_done := st_done st |};
     ww_writers := ww_writers w;
     ww_acks := ww_acks w ++ drop (length (all_acks before)) (all_acks after);
     ww_complete := ww_complete w ++ drop (length (wr_completed before)) (wr_completed after) |}.

(** [start_writer]; [create] and [io] are the answers of the file system to
    the writer. *)
Definition ws_start_writer (env : store_env) (w : wal_world) (q : queue_id) (file_id : uintn)
    (header : wal_header) (settings : wal_settings) (last_entry_id : option uintn)
    (create : list bool) (io : list attempt) : wal_world * outcome wal_error unit :=
  if se_io env (queue_to_wal_dir q (se_root env)) then (w, Err WIoError)
  else match wal_writer_new q (se_root env) file_id header settings last_entry_id create io with
  | Ok writer =>
      (set_task (absorb w writer writer) q {| wt_state := Some writer; wt_pending := [] |}, Ok tt)
  | Err e => (w, Err e)
  | Panic => (w, Panic)
  end.

(** [process_old_files]; the receiver is the store, which lives as long. *)
Definition ws_process_old_files (env : store_env) (w : wal_world) (q : queue_id)
    (current_file_id : uintn) (compression : compression_type) (encryption : encryption_type)
    : wal_world :=
  let file_ids :=
    get_files_ids (dir_tree (queue_to_wal_dir q (se_root env)) (st_files (ww_store w)))
      (s2l "wal") in
  let old := List.filter (fun id => uintn_ltb id current_file_id) file_ids in
  {| ww_store := ww_store w; ww_writers := ww_writers w; ww_acks := ww_acks w;
     ww_complete := ww_complete w ++
       map (fun id => {| wc_queue_id := q; wc_file_id := id; wc_encryption_type := encryption;
                         wc_compression_type := compression |}) old |}.

(** Sending a request fails when the task has ended. *)
Definition ws_send (w : wal_world) (q : queue_id) (req : write_request)
    : wal_world * outcome wal_error unit :=
  match ww_writers w !! qid_path q with
  | Some t =>
      match wt_state t with
      | Some _ =>
          (set_task w q {| wt_state := wt_state t; wt_pending := wt_pending t ++ [req] |}, Ok tt)
      | None => (w, Err WSendError)
      end
  | None => (w, Err WWriterNotFound)
  end.

Definition ws_enqueue (w : wal_world) (q : queue_id) (entry_id : uintn) (data : bytes)
    : wal_world * outcome wal_error unit := ws_send w q (Enqueue entry_id data).

Definition ws_enqueue_batch (w : wal_world) (q : queue_id) (entries : list (uintn * bytes))
    : wal_world * outcome wal_error unit := ws_send w q (EnqueueBatch entries).

(** One turn of the task of a queue: the next request.  The task ends after
    [Close] and when it panics. *)
Definition task_turn (w : wal_world) (q : queue_id) : wal_world :=
  match ww_writers w !! qid_path q with
  | Some {| wt_state := Some s; wt_pending := req :: pending |} =>
      match handle_request s req with
      | Some s' =>
          let ended := match req with Close => true | _ => false end in
          set_task (absorb w s s') q
            {| wt_state := if ended then None else Some s';
               wt_pending := if ended then [] else pending |}
      | None => set_task w q {| wt_state := None; wt_pending := [] |}
      end
  | _ => w
  end.

(** A step of the task that writes the open file of a queue. *)
Definition flush_task (w : wal_world) (q : queue_id) (ev : afw_event) : wal_world :=
  match ww_writers w !! qid_path q with
  | Some {| wt_state := Some s; wt_pending := pending |} =>
      let s' := wr_background s ev in
      set_task (absorb w s s') q {| wt_state := Some s'; wt_pending := pending |}
  | _ => w
  end.

(** The turns the pending requests of a queue need. *)
Definition drain (w : wal_world) (q : queue_id) : wal_world :=
  match ww_writers w !! qid_path q with
  | Some t => Nat.iter (length (wt_pending t)) (fun w => task_turn w q) w
  | None => w
  end.

(** [close]: every writer gets [Close] after its pending requests; an error
    when a task is gone before it answers. *)
Definition close_one (w : wal_world) (q : queue_id) : wal_world * bool :=
  let '(w, r) := ws_send (drain w q) q Close in
  match r with
  | Ok _ => (task_turn w q, true)
  | _ => (w, false)
  end.

Definition ws_close (w : wal_world) : wal_world * outcome wal_error unit :=
  let queues := map fst (map_to_list (ww_writers w)) in
  let '(w, ok) :=
    fold_left (fun '(w, ok) path =>
      let '(w, r) := close_one w {| qid_path := path |} in (w, ok && r)) queues (w, true) in
  ({| ww_store := ww_store w; ww_writers := ∅; ww_acks := ww_acks w;
      ww_complete := ww_complete w |},
   if (ok : bool) then Ok tt else Err WSendError).

End WalStore.
