(* ===== verification/Cloud.v ===== *)
(** * The cloud store ([normfs-cloud/src/client.rs], [paths.rs], [cache.rs],
      [downloader.rs], [offloader.rs])

    Store files are uploaded to an S3 bucket by the offloader of their queue and
    read back by the downloader.  The HTTP exchanges are a parameter; what the
    client makes of the answers, the keys, the search for the first file and the
    range cache are modelled. *)
From Stdlib Require Import ZArith Lia List Bool.
From Stdlib Require Import Ascii String.
From stdpp Require Import base option list gmap strings.
From S2P Require Import Prelude UBig UintN UintNFacts Paths PathsFacts FileTree Types.
From S2P Require Import WalFormat WalReader OrderedBuffer AckWriter WalWriter.
From S2P Require Import Crypto StoreFormat Store.
#[local] Open Scope Z_scope.

(** ** The S3 service *)

Section Service.
Context {U : UBig}.

(** [enum CloudError] *)
Inductive cloud_error :=
| CReqwest
| CXml
| CUintN (e : uerror)
| CNoFilesFound
| CStoreHeader (e : store_error)
| CIo
| CInvalidUrl
| CInvalidStatusCode (code : Z).

(** [struct ListObjectsResult]: keys and common prefixes. *)
Record list_result := {
  lr_contents : list str;
  lr_common_prefixes : list str;
}.

(** The answers of the service: a status with what comes with it, or a failed
    request. *)
Class S3Http := {
  s3_bucket : Type;
  http_put : s3_bucket -> str -> bytes -> s3_bucket * outcome cloud_error Z;
  http_head : s3_bucket -> str -> outcome cloud_error (Z * option Z);
  http_get : s3_bucket -> str -> option (Z * option Z) -> outcome cloud_error (Z * bytes);
  http_list : s3_bucket -> str -> option str ->
    outcome cloud_error (Z * outcome cloud_error list_result);
}.

(** *** A bucket in memory *)

(** Up to and with the first separator. *)
Fixpoint up_to_slash (r : str) : option str :=
  match r with
  | [] => None
  | a :: r => if decide (a = slash) then Some [a] else option_map (cons a) (up_to_slash r)
  end.

Definition bucket_list (b : gmap str bytes) (prefix : str) (delimiter : option str) : list_result :=
  let below := omap (fun f => option_map (pair (fst f)) (strip_prefix_l prefix (fst f)))
                 (map_to_list b) in
  match delimiter with
  | None => {| lr_contents := map fst below; lr_common_prefixes := [] |}
  | Some _ =>
      {| lr_contents := omap (fun f => match up_to_slash (snd f) with
                                       | None => Some (fst f) | Some _ => None end) below;
         lr_common_prefixes := remove_dups
           (omap (fun f => option_map (app prefix) (up_to_slash (snd f))) below) |}
  end.

Definition bucket_range (content : bytes) (range : option (Z * option Z)) : Z * bytes :=
  match range with
  | None => (200, content)
  | Some (start, None) => (206, drop (Z.to_nat start) content)
  | Some (start, Some end_) =>
      (206, take (Z.to_nat (end_ + 1 - start)) (drop (Z.to_nat start) content))
  end.

#[export] Instance S3Http_map : S3Http := {
  s3_bucket := gmap str bytes;
  http_put b key data := (<[key := data]> b, Ok 200);
  http_head b key :=
    match b !! key with Some c => Ok (200, Some (zlen c)) | None => Ok (404, None) end;
  http_get b key range :=
    match b !! key with Some c => Ok (bucket_range c range) | None => Ok (404, []) end;
  http_list b prefix delimiter := Ok (200, Ok (bucket_list b prefix delimiter));
}.

End Service.

Section Cloud.
Context {B : Build} {U : UBig} {H : HexCrate} {S3 : S3Http}.

(** ** [S3Client] *)

Definition head_object (b : s3_bucket) (key : str) : outcome cloud_error (option Z) :=
  '(status, content_length) ← http_head b key;
  if decide (status = 404 \/ status = 403) then Ok None
  else if decide (status <> 200) then Err (CInvalidStatusCode status)
  else Ok content_length.

(** The end of [get_object] and [get_object_range]. *)
Definition object_body (response : Z * bytes) : outcome cloud_error (option bytes) :=
  let '(status, bytes) := response in
  if decide (status = 404) then Ok None
  else if decide (status <> 200 /\ status <> 206) then Err (CInvalidStatusCode status)
  else Ok (Some bytes).

Definition get_object (b : s3_bucket) (key : str) : outcome cloud_error (option bytes) :=
  response ← http_get b key None; object_body response.

Definition get_object_range (b : s3_bucket) (key : str) (start : Z) (end_ : option Z)
    : outcome cloud_error (option bytes) :=
  response ← http_get b key (Some (start, end_)); object_body response.

Definition list_objects (b : s3_bucket) (prefix : str) (delimiter : option str)
    : outcome cloud_error list_result :=
  '(status, xml) ← http_list b prefix delimiter;
  if decide (status <> 200) then Err (CInvalidStatusCode status) else xml.

(** ** The first file of a queue *)

Definition cloud_path_to_id (path extension : str) : outcome cloud_error uintn :=
  let hex_string := concat (map (fun component =>
    match strip_suffix (dot :: extension) component with
    | Some stripped => stripped
    | None => component
    end) (split_slash path)) in
  map_err CUintN (uintn_from_hex_digits hex_string).

Definition hex_digits_for_min : list ascii := s2l "0123456789abcdef".

(** [trim_end_matches('/')] *)
Definition trim_end_slashes (p : str) : str := rev (trim_slashes (rev p)).

Definition relative_to (prefix key : str) : str :=
  trim_slashes (default key (strip_prefix_l prefix key)).

(** The loop over the objects of a level. *)
Fixpoint min_object (prefix extension : str) (contents : list str) (min_file : option (str * uintn))
    : option (str * uintn) :=
  match contents with
  | [] => min_file
  | key :: contents =>
      let relative_key := relative_to prefix key in
      let min_file :=
        if negb (bool_decide (slash ∈ relative_key)) &&
           bool_decide (is_Some (strip_suffix (dot :: extension) key))
        then match cloud_path_to_id relative_key extension with
             | Ok id =>
                 match min_file with
                 | Some (_, min_id) =>
                     if uintn_ltb id min_id then Some (relative_key, id) else min_file
                 | None => Some (relative_key, id)
                 end
             | _ => min_file
             end
        else min_file in
      min_object prefix extension contents min_file
  end.

(** The first common prefix named by the digit. *)
Definition digit_dir (prefix : str) (common_prefixes : list str) (digit : ascii) : option str :=
  List.find (fun common_prefix =>
    bool_decide (trim_end_slashes (relative_to prefix common_prefix) = [digit])) common_prefixes.

(** The first digit that has a directory. *)
Fixpoint first_digit_dir (prefix : str) (common_prefixes : list str) (digits : list ascii)
    : option (ascii * str) :=
  match digits with
  | [] => None
  | digit :: digits =>
      match digit_dir prefix common_prefixes digit with
      | Some dir => Some (digit, dir)
      | None => first_digit_dir prefix common_prefixes digits
      end
  end.

(** [fuel] bounds the depth; [None]: deeper. *)
Fixpoint cloud_find_min_recursive (fuel : nat) (b : s3_bucket) (current_prefix extension : str)
    : option (outcome cloud_error str) :=
  match fuel with
  | O => None
  | S fuel =>
      match list_objects b current_prefix (Some [slash]) with
      | Panic => Some Panic
      | Err e => Some (Err e)
      | Ok list_result =>
          match min_object current_prefix extension (lr_contents list_result) None with
          | Some (path, _) => Some (Ok path)
          | None =>
              match first_digit_dir current_prefix (lr_common_prefixes list_result)
                      hex_digits_for_min with
              | None => Some (Err CNoFilesFound)
              | Some (hex_digit, subdir_prefix) =>
                  match cloud_find_min_recursive fuel b subdir_prefix extension with
                  | Some (Ok sub_path) => Some (Ok (hex_digit :: slash :: sub_path))
                  | r => r
                  end
              end
          end
      end
  end.

Definition cloud_find_min_id (fuel : nat) (b : s3_bucket) (prefix extension : str)
    : option (outcome cloud_error uintn) :=
  option_map (fun r => relative_path ← r; cloud_path_to_id relative_path extension)
    (cloud_find_min_recursive fuel b prefix extension).

(** ** [RangeCache] *)

Definition range_cache := gmap str (uintn * uintn).

Definition read_range_from_s3 (b : s3_bucket) (base_prefix : str) (q : queue_id) (file_id : uintn)
    : outcome cloud_error (option (uintn * uintn)) :=
  header_bytes ← get_object_range b (queue_to_cloud_key q base_prefix file_id) 0 (Some 127);
  match header_bytes with
  | None => Ok None
  | Some header_bytes =>
      '(header, _) ← map_err (fun e => CStoreHeader (SHeader e)) (store_header_from_bytes header_bytes);
      if uintn_is_zero (sh_num_entries header) then Ok None
      else
        let first_id := sh_num_entries_before header in
        num_entries_minus_one ← map_err CUintN (uintn_sub (sh_num_entries header) uintn_one);
        Ok (Some (first_id, uintn_add first_id num_entries_minus_one))
  end.

Definition cache_get_file_range (cache : range_cache) (b : s3_bucket) (base_prefix : str)
    (q : queue_id) (file_id : uintn)
    : range_cache * outcome cloud_error (option (uintn * uintn)) :=
  let key := range_key q file_id in
  match cache !! key with
  | Some range => (cache, Ok (Some range))
  | None =>
      match read_range_from_s3 b base_prefix q file_id with
      | Ok (Some range) => (<[key := range]> cache, Ok (Some range))
      | r => (cache, r)
      end
  end.

Definition cache_record_range (cache : range_cache) (q : queue_id)
    (file_id first_id last_id : uintn) : range_cache :=
  <[range_key q file_id := (first_id, last_id)]> cache.

(** ** [CloudDownloader] *)

Record cloud_downloader := {
  cd_bucket : s3_bucket;
  cd_base_prefix : str;
}.

Definition cloud_downloader_new (b : s3_bucket) (prefix : str) : cloud_downloader :=
  {| cd_bucket := b;
     cd_base_prefix :=
       if bool_decide (prefix = []) then []
       else if bool_decide (last prefix = Some slash) then prefix
       else prefix ++ [slash] |}.

(** The levels searched: the digits of an id and the file. *)
Definition cloud_depth : nat := 64.

Definition cd_find_min_id (self : cloud_downloader) (q : queue_id)
    : option (outcome cloud_error (option uintn)) :=
  option_map (fun r => match r with
    | Ok id => Ok (Some id)
    | Err CNoFilesFound => Ok None
    | Err e => Err e
    | Panic => Panic
    end) (cloud_find_min_id cloud_depth (cd_bucket self)
            (queue_to_cloud_queue_path q (cd_base_prefix self)) (s2l "store")).

Definition cd_get_file_range (self : cloud_downloader) (cache : range_cache) (q : queue_id)
    (file_id : uintn) : range_cache * outcome cloud_error (option (uintn * uintn)) :=
  cache_get_file_range cache (cd_bucket self) (cd_base_prefix self) q file_id.

Definition cd_get_queue_start (self : cloud_downloader) (cache : range_cache) (q : queue_id)
    : range_cache * option (outcome cloud_error (option uintn)) :=
  match cd_find_min_id self q with
  | None => (cache, None)
  | Some (Ok (Some first_file_id)) =>
      let '(cache, r) := cd_get_file_range self cache q first_file_id in
      (cache, Some (range ← r; Ok (option_map fst range)))
  | Some (Ok None) => (cache, Some (Ok None))
  | Some (Err e) => (cache, Some (Err e))
  | Some Panic => (cache, Some Panic)
  end.

Definition cd_get_store_bytes (self : cloud_downloader) (q : queue_id) (file_id : uintn)
    : outcome cloud_error (option bytes) :=
  get_object (cd_bucket self) (queue_to_cloud_key q (cd_base_prefix self) file_id).

(** ** [QueueOffloader] *)

(** [enum OffloadError] *)
Inductive offload_error := LocalFileError | RemoteError.

(** [struct QueueOffloaderWorker] *)
Record offload_worker := {
  ow_queue_id : str;
  ow_queue_path : str;
  ow_prefix : str;
}.

Definition offload_worker_new (queue_id root_path prefix : str) : offload_worker :=
  {| ow_queue_id := queue_id;
     ow_queue_path := path_push (path_push root_path queue_id) (s2l "store");
     ow_prefix := prefix |}.

Definition offload_key (self : offload_worker) (file_id : uintn) : str :=
  ow_prefix self ++ slash :: uintn_to_file_path file_id (ow_queue_id self) (s2l "store").

Definition offload_local_path (self : offload_worker) (file_id : uintn) : str :=
  uintn_to_file_path file_id (ow_queue_path self) (s2l "store").

(** [files] are the local files. *)
Definition is_file_offloaded (self : offload_worker) (files : gmap str bytes) (b : s3_bucket)
    (file_id : uintn) : outcome offload_error bool :=
  match files !! offload_local_path self file_id with
  | None => Err LocalFileError
  | Some content =>
      match head_object b (offload_key self file_id) with
      | Ok (Some s3_size) => Ok (bool_decide (zlen content = s3_size))
      | Ok None => Ok false
      | Err _ => Err RemoteError
      | Panic => Panic
      end
  end.

Definition upload_file (self : offload_worker) (files : gmap str bytes) (b : s3_bucket)
    (file_id : uintn) : s3_bucket * outcome offload_error unit :=
  match files !! offload_local_path self file_id with
  | None => (b, Err LocalFileError)
  | Some file_data =>
      let s3_key := offload_key self file_id in
      let '(b, status_code) := http_put b s3_key file_data in
      (b, status_code ← map_err (fun _ => RemoteError) status_code;
          if decide (status_code <> 200) then Err RemoteError
          else
            s3_size ← map_err (fun _ => RemoteError) (head_object b s3_key);
            match s3_size with
            | None => Err RemoteError
            | Some s3_size =>
                if decide (s3_size <> zlen file_data) then Err RemoteError else Ok tt
            end)
  end.

(** The new [latest_offloaded_id]. *)
Definition raise_latest (latest : option uintn) (file_id : uintn) : option uintn :=
  match latest with
  | None => Some file_id
  | Some current => if uintn_ltb current file_id then Some file_id else Some current
  end.

(** One turn of the inner loop of [offload_worker]: [None] to retry, else
    whether the file is in the bucket. *)
Definition offload_turn (self : offload_worker) (files : gmap str bytes) (b : s3_bucket)
    (file_id : uintn) : s3_bucket * outcome offload_error (option bool) :=
  match is_file_offloaded self files b file_id with
  | Ok true => (b, Ok (Some true))
  | Err LocalFileError => (b, Ok (Some false))
  | Err RemoteError => (b, Ok None)
  | Panic => (b, Panic)
  | Ok false =>
      match upload_file self files b file_id with
      | (b, Ok _) => (b, Ok (Some true))
      | (b, Err LocalFileError) => (b, Ok (Some false))
      | (b, Err RemoteError) => (b, Ok None)
      | (b, Panic) => (b, Panic)
      end
  end.

(** The body of the worker's outer loop, with at most [fuel] retries
    ([None]: more). *)
Fixpoint offload_file (fuel : nat) (self : offload_worker) (files : gmap str bytes)
    (b : s3_bucket) (latest : option uintn) (file_id : uintn)
    : option (outcome offload_error (s3_bucket * option uintn)) :=
  match fuel with
  | O => None
  | S fuel =>
      match offload_turn self files b file_id with
      | (b, Ok (Some true)) => Some (Ok (b, raise_latest latest file_id))
      | (b, Ok (Some false)) => Some (Ok (b, latest))
      | (b, Ok None) => offload_file fuel self files b latest file_id
      | (_, Err e) => Some (Err e)
      | (_, Panic) => Some Panic
      end
  end.

(** The loop of [initialize_upload_queue_static]: the ids whose file exists,
    from [current_id] to [max_id] ([None]: more than [fuel] turns). *)
Fixpoint upload_queue_loop (fuel : nat) (queue_path : str) (files : gmap str bytes)
    (current_id max_id : uintn) : option (list uintn) :=
  match fuel with
  | O => None
  | S fuel =>
      let sent :=
        if bool_decide (is_Some (files !! uintn_to_file_path current_id queue_path (s2l "store")))
        then [current_id] else [] in
      if uintn_eqb current_id max_id then Some sent
      else option_map (app sent)
             (upload_queue_loop fuel queue_path files (uintn_increment current_id) max_id)
  end.

(** The turns from the smallest id to the largest. *)
Definition initialize_upload_queue (queue_path : str) (files : gmap str bytes)
    : option (outcome path_error (list uintn)) :=
  let tree := Some (dir_tree queue_path files) in
  match find_min_id tree (s2l "store") with
  | Ok min_id =>
      match find_max_id tree (s2l "store") with
      | Ok max_id =>
          option_map Ok (upload_queue_loop (S (Z.to_nat (uintn_val max_id - uintn_val min_id)))
            queue_path files min_id max_id)
      | Err e => Some (Err e)
      | Panic => Some Panic
      end
  | Err _ => Some (Ok [])
  | Panic => Some Panic
  end.

End Cloud.
