(* ===== verification/Lookup.v ===== *)
(** * Finding the file of an entry ([normfs/src/lookup.rs])

    A binary search over the file ids of a queue, in the store, the WAL and the
    cloud.  The queries fill the range caches, so the state is passed along. *)
From Stdlib Require Import ZArith Lia List Bool.
From Stdlib Require Import Ascii String.
From stdpp Require Import base option list gmap strings.
From S2P Require Import Prelude UBig UintN UintNFacts Paths PathsFacts FileTree Types.
From S2P Require Import WalFormat WalReader OrderedBuffer AckWriter WalWriter.
From S2P Require Import Crypto StoreFormat Store WalStore Cloud.
#[local] Open Scope Z_scope.

Section Lookup.
Context {B : Build} {U : UBig} {H : HexCrate} {X : Hasher} {C : CryptoLib} {Z' : CompressLib}.
Context {S3 : S3Http}.

(** [enum LookupError] *)
Inductive lookup_error :=
| LStore (e : store_error)
| LWal (e : wal_error).

(** The stores and the range cache of the downloader. *)
Record lk_state := {
  lk_store : store_state;
  lk_cache : range_cache;
}.

(** A query: [None] when it does not end (within the fuel given). *)
Definition lk (A : Type) : Type := lk_state -> option (lk_state * outcome lookup_error A).

Definition lk_ret {A} (r : outcome lookup_error A) : lk A := fun st => Some (st, r).

Definition lk_bind {A B} (m : lk A) (f : A -> lk B) : lk B := fun st =>
  match m st with
  | Some (st, Ok a) => f a st
  | Some (st, Err e) => Some (st, Err e)
  | Some (st, Panic) => Some (st, Panic)
  | None => None
  end.

#[local] Notation "x <- m ;; k" := (lk_bind m (fun x => k))
  (at level 20, m at level 99, k at level 200, only parsing).

Section Queries.
Context (env : store_env) (q : queue_id) (s3 : option cloud_downloader).

(** [store.get_file_range(..).await?] *)
Definition lk_store_range (file_id : uintn) : lk (option (uintn * uintn)) := fun st =>
  let '(store, r) := get_file_range env (lk_store st) q file_id in
  Some ({| lk_store := store; lk_cache := lk_cache st |}, map_err LStore r).

(** [wal.get_entries_before(..).await] and [s3.get_file_range(..).await], whose
    errors the callers look at. *)
Definition lk_wal_start (file_id : uintn) : lk (wal_error + uintn) := fun st =>
  Some (st, match ws_get_entries_before env (lk_store st) q file_id with
            | Ok start => Ok (inr start)
            | Err e => Ok (inl e)
            | Panic => Panic
            end).

Definition lk_s3_range (s3 : cloud_downloader) (file_id : uintn)
    : lk (cloud_error + option (uintn * uintn)) := fun st =>
  let '(cache, r) := cd_get_file_range s3 (lk_cache st) q file_id in
  Some ({| lk_store := lk_store st; lk_cache := cache |},
        match r with
        | Ok range => Ok (inr range)
        | Err e => Ok (inl e)
        | Panic => Panic
        end).

(** Where a file was found: its range in the store, its start in the WAL, or
    missing or empty there. *)
Inductive located :=
| Located (start : uintn) (end_ : option uintn)
| NotInWal
| EmptyInWal.

Definition locate_after (file_id : uintn) (range : option (uintn * uintn)) : lk located :=
  match range with
  | Some (start, end_) => lk_ret (Ok (Located start (Some end_)))
  | None =>
      wal <- lk_wal_start file_id ;;
      lk_ret match wal with
             | inr start => Ok (Located start None)
             | inl WWalNotFound => Ok NotInWal
             | inl (WWalEmpty _) => Ok EmptyInWal
             | inl e => Err (LWal e)
             end
  end.

Definition locate (file_id : uintn) : lk located :=
  range <- lk_store_range file_id ;; locate_after file_id range.

(** [find_valid_file_backward]; [fuel] bounds the steps. *)
Fixpoint valid_backward (fuel : nat) (search_id min_file_id : uintn)
    : lk (option (uintn * uintn * option uintn)) :=
  match fuel with
  | O => fun _ => None
  | S fuel =>
      found <- locate search_id ;;
      match found with
      | Located start end_ => lk_ret (Ok (Some (search_id, start, end_)))
      | _ =>
          if uintn_leb search_id min_file_id then lk_ret (Ok None)
          else match uintn_decrement search_id with
               | Ok search_id => valid_backward fuel search_id min_file_id
               | Err _ => lk_ret (Err (LWal WWalNotFound))
               | Panic => lk_ret Panic
               end
      end
  end.

(** The ids from one to the other. *)
Definition id_span (from to : uintn) : nat := S (Z.to_nat (uintn_val to - uintn_val from)).

Definition find_valid_file_backward (start_file_id min_file_id : uintn)
    : lk (option (uintn * uintn * option uintn)) :=
  valid_backward (id_span min_file_id start_file_id) start_file_id min_file_id.

(** The variables of [binary_search]. *)
Record search_state := {
  ss_left : uintn;
  ss_right : uintn;
  ss_left_end : option uintn;
  ss_right_start : uintn;
}.

(** A turn of the loop: an answer or the variables of the next one. *)
Definition turn := lk (option uintn + search_state).

Definition found (file_id : uintn) : turn := lk_ret (Ok (inl (Some file_id))).

(** The files are adjacent. *)
Definition adjacent_case (target_id : uintn) (s : search_state) : uintn :=
  match ss_left_end s with
  | Some left_end_val => if uintn_leb target_id left_end_val then ss_left s else ss_right s
  | None => if uintn_ltb target_id (ss_right_start s) then ss_left s else ss_right s
  end.

(** The middle file is missing or empty: the nearest valid file before it
    becomes the right boundary. *)
Definition close_gap (mid_file_id : uintn) (s : search_state) : turn :=
  valid <- find_valid_file_backward mid_file_id (uintn_increment (ss_left s)) ;;
  match valid with
  | Some (valid_id, valid_start, valid_end) =>
      lk_ret (Ok (inr {| ss_left := ss_left s; ss_right := valid_id;
                         ss_left_end := valid_end; ss_right_start := valid_start |}))
  | None => found (ss_left s)
  end.

(** The start of the file after the middle one, or the answer when the cloud
    cannot tell. *)
Definition next_start (mid_file_id next_mid : uintn) : lk (option uintn) :=
  next <- locate next_mid ;;
  match next with
  | Located start _ => lk_ret (Ok (Some start))
  | EmptyInWal => lk_ret (Err (LStore SFileNotFound))
  | NotInWal =>
      match s3 with
      | None => lk_ret (Err (LWal WWalNotFound))
      | Some s3 =>
          r <- lk_s3_range s3 next_mid ;;
          lk_ret match r with
                 | inr (Some (start, _)) => Ok (Some start)
                 | inr None => Err (LStore SFileNotFound)
                 | inl _ => Ok None
                 end
      end
  end.

Definition go_right (mid_file_id : uintn) (mid_end : option uintn) (s : search_state) : turn :=
  lk_ret (Ok (inr {| ss_left := mid_file_id; ss_right := ss_right s;
                     ss_left_end := mid_end; ss_right_start := ss_right_start s |})).

(** From [Determine which half to search]. *)
Definition choose_half (target_id mid_file_id mid_start : uintn) (mid_end : option uintn)
    (s : search_state) : turn :=
  if uintn_ltb target_id mid_start then
    lk_ret (Ok (inr {| ss_left := ss_left s; ss_right := mid_file_id;
                       ss_left_end := ss_left_end s; ss_right_start := mid_start |}))
  else match mid_end with
  | Some mid_end_val =>
      if uintn_leb target_id mid_end_val then found mid_file_id
      else go_right mid_file_id mid_end s
  | None =>
      let next_mid := uintn_increment mid_file_id in
      if uintn_leb next_mid (ss_right s) then
        start <- next_start mid_file_id next_mid ;;
        match start with
        | None => found mid_file_id
        | Some next_start =>
            if uintn_ltb target_id next_start then found mid_file_id
            else go_right mid_file_id mid_end s
        end
      else found mid_file_id
  end.

Definition search_turn (target_id : uintn) (s : search_state) : turn :=
  if uintn_eqb (ss_left s) (ss_right s) then found (ss_left s)
  else if uintn_eqb (uintn_increment (ss_left s)) (ss_right s) then
    found (adjacent_case target_id s)
  else
    let mid_file_id := uintn_middle (ss_left s) (ss_right s) in
    mid <- locate mid_file_id ;;
    match mid with
    | Located mid_start mid_end => choose_half target_id mid_file_id mid_start mid_end s
    | EmptyInWal => close_gap mid_file_id s
    | NotInWal =>
        match s3 with
        | None => close_gap mid_file_id s
        | Some s3 =>
            r <- lk_s3_range s3 mid_file_id ;;
            match r with
            | inr (Some (start, end_)) =>
                choose_half target_id mid_file_id start (Some end_) s
            | inr None => lk_ret (Err (LStore SFileNotFound))
            | inl _ => lk_ret (Ok (inr s))
            end
        end
    end.

Fixpoint binary_search (fuel : nat) (target_id : uintn) (s : search_state) : lk (option uintn) :=
  match fuel with
  | O => fun _ => None
  | S fuel =>
      r <- search_turn target_id s ;;
      match r with
      | inl answer => lk_ret (Ok answer)
      | inr s => binary_search fuel target_id s
      end
  end.

(** ** [find_file_with_s3] *)

(** The smallest and the largest of the ids there are. *)
Definition opt_min (a b : option uintn) : option uintn :=
  match a, b with
  | Some x, Some y => Some (uintn_min x y)
  | Some x, None => Some x
  | None, b => b
  end.
Definition opt_max (a b : option uintn) : option uintn :=
  match a, b with
  | Some x, Some y => Some (uintn_max x y)
  | Some x, None => Some x
  | None, b => b
  end.

(** The ids of the first and the last file. *)
Definition queue_file_ids (st : lk_state)
    : outcome lookup_error (option uintn * option uintn * option uintn * option uintn) :=
  store_first_id ← map_err LStore (ps_get_first_file_id env (lk_store st) q);
  store_last_id ← map_err LStore (ps_get_last_file_id env (lk_store st) q);
  wal_first_id ← map_err LWal (ws_get_first_file_id env (lk_store st) q);
  wal_last_id ← map_err LWal (ws_get_last_file_id env (lk_store st) q);
  Ok (store_first_id, store_last_id, wal_first_id, wal_last_id).

(** [s3.find_min_id(queue).await], an error counting as no file. *)
Definition s3_first_file : lk (option uintn) :=
  match s3 with
  | None => lk_ret (Ok None)
  | Some s3 => fun st =>
      match cd_find_min_id s3 q with
      | None => None
      | Some (Ok id) => Some (st, Ok id)
      | Some (Err _) => Some (st, Ok None)
      | Some Panic => Some (st, Panic)
      end
  end.

(** The range of the first file; [None]: answer that there is no file. *)
Definition first_file_range (first_file_id : uintn) (store_start_range : option (uintn * uintn))
    : lk (option (uintn * option uintn)) :=
  first <- locate_after first_file_id store_start_range ;;
  match first with
  | Located start end_ => lk_ret (Ok (Some (start, end_)))
  | EmptyInWal => lk_ret (Ok None)
  | NotInWal =>
      match s3 with
      | None => lk_ret (Err (LWal WWalNotFound))
      | Some s3 =>
          r <- lk_s3_range s3 first_file_id ;;
          lk_ret (Ok match r with
                     | inr (Some (start, end_)) => Some (start, Some end_)
                     | _ => None
                     end)
      end
  end.

(** From the walk backward to the last file with data. *)
Definition search_files (fuel : nat) (target_id first_file_id last_file_id : uintn)
    (first_file_end : option uintn) : lk (option uintn) :=
  valid <- find_valid_file_backward last_file_id first_file_id ;;
  match valid with
  | None => lk_ret (Ok None)
  | Some (last_file_id, last_file_start, last_file_end) =>
      if uintn_ltb last_file_start target_id then lk_ret (Ok (Some last_file_id))
      else if match last_file_end with Some e => uintn_ltb e target_id | None => false end
      then lk_ret (Ok None)
      else binary_search fuel target_id
             {| ss_left := first_file_id; ss_right := last_file_id;
                ss_left_end := first_file_end; ss_right_start := last_file_start |}
  end.

Definition find_file_with_s3 (fuel : nat) (target_id : uintn) : lk (option uintn) := fun st =>
  match queue_file_ids st with
  | Err e => Some (st, Err e)
  | Panic => Some (st, Panic)
  | Ok (store_first_id, store_last_id, wal_first_id, wal_last_id) =>
      (s3_first_id <- s3_first_file ;;
       match opt_min (opt_min store_first_id wal_first_id) s3_first_id,
             opt_max store_last_id wal_last_id with
       | None, _ | _, None => lk_ret (Ok None)
       | Some first_file_id, Some last_file_id =>
           store_start_range <- lk_store_range first_file_id ;;
           _store_end_range <- lk_store_range last_file_id ;;
           first <- first_file_range first_file_id store_start_range ;;
           match first with
           | None => lk_ret (Ok None)
           | Some (first_file_start, first_file_end) =>
               if uintn_ltb target_id first_file_start
               then lk_ret (Ok (Some first_file_id))
               else if match first_file_end with
                       | Some e => uintn_leb target_id e | None => false end
               then lk_ret (Ok (Some first_file_id))
               else search_files fuel target_id first_file_id last_file_id first_file_end
           end
       end) st
  end.

End Queries.

End Lookup.
