(* ===== verification/LookupFacts.v ===== *)
(** * Theory of the file lookup

    Against an interface: [located_files] says what the queries answer for the
    files of a queue (consecutive ids, ascending starts).  The binary search
    ends and returns the file that holds the entry. *)
From Stdlib Require Import ZArith Lia List Bool.
From Stdlib Require Import Ascii String.
From stdpp Require Import base option list gmap strings.
From S2P Require Import Prelude UBig UintN UintNFacts Paths PathsFacts FileTree Types.
From S2P Require Import WalFormat WalReader OrderedBuffer AckWriter WalWriter.
From S2P Require Import Crypto StoreFormat Store WalStore Cloud Lookup.
#[local] Open Scope Z_scope.

(** Comparisons of ids as comparisons of their values. *)
Ltac id_cmp :=
  repeat match goal with
  | |- context [uintn_eqb ?x ?y] => rewrite (eqb_spec_val x y) by eauto with normfs
  | |- context [uintn_ltb ?x ?y] => rewrite (ltb_spec_val x y) by eauto with normfs
  | |- context [uintn_leb ?x ?y] => rewrite (leb_spec_val x y) by eauto with normfs
  end.

Section Search.
Context {B : Build} {U : UBig} {H : HexCrate} {X : Hasher} {C : CryptoLib} {Z' : CompressLib}.
Context {S3 : S3Http}.
Context (env : store_env) (q : queue_id).

Lemma lk_bind_ok {A D} (m : lk A) (f : A -> lk D) st st' a :
  m st = Some (st', Ok a) -> lk_bind m f st = f a st'.
Proof. unfold lk_bind. by intros ->. Qed.

(** What the queries promise about the files [lo..hi] of a queue: they keep
    [good]; the file [i] starts at [starts i]; a file of the store tells its
    range, a file of the WAL its start; starts ascend. *)
Definition in_store (starts : Z -> Z) (x : uintn) (r : uintn * uintn) : Prop :=
  uintn_ok (fst r) /\ uintn_ok (snd r) /\ uintn_val (fst r) = starts (uintn_val x) /\
  uintn_val (snd r) = starts (uintn_val x + 1) - 1 /\ uintn_val (fst r) <= uintn_val (snd r).

Definition in_wal (good : lk_state -> Prop) (starts : Z -> Z) (x : uintn) : Prop :=
  exists s, uintn_ok s /\ uintn_val s = starts (uintn_val x) /\
    forall st, good st -> lk_wal_start env q x st = Some (st, Ok (inr s)).

Record located_files (good : lk_state -> Prop) (lo hi : Z) (starts : Z -> Z) : Prop := {
  lf_range st x : good st -> uintn_canonical x -> lo <= uintn_val x <= hi ->
    exists st' r, lk_store_range env q x st = Some (st', Ok r) /\ good st' /\
      match r with Some r => in_store starts x r | None => in_wal good starts x end;
  lf_mono i j : lo <= i <= j -> j <= hi -> starts i <= starts j;
}.

Context (good : lk_state -> Prop) (lo hi : Z) (starts : Z -> Z).
Context (Hf : located_files good lo hi starts).
Context (target : uintn) (Htarget : uintn_ok target).

(** The file [r] holds the target: it starts at or before it, and the next one
    starts after it. *)
Definition holds (r : Z) : Prop :=
  lo <= r <= hi /\ starts r <= uintn_val target /\ (r < hi -> uintn_val target < starts (r + 1)).

Definition is_end (i : Z) (e : option uintn) : Prop :=
  match e with
  | None => True
  | Some e => uintn_ok e /\ uintn_val e = starts (i + 1) - 1
  end.

Lemma locate_after_good st x r : good st ->
  match r with Some r => in_store starts x r | None => in_wal good starts x end ->
  exists s e, locate_after env q x r st = Some (st, Ok (Located s e)) /\
    uintn_ok s /\ uintn_val s = starts (uintn_val x) /\ is_end (uintn_val x) e /\
    match e with Some e => uintn_val s <= uintn_val e | None => True end.
Proof.
  intros Hg Hr. unfold locate_after. destruct r as [[s e]|].
  - destruct Hr as (? & ? & ? & ? & ?). exists s, (Some e). done.
  - destruct Hr as (s & ? & ? & Hw). exists s, None. erewrite lk_bind_ok by (by apply Hw). done.
Qed.

Lemma locate_good st x : good st -> uintn_canonical x -> lo <= uintn_val x <= hi ->
  exists st' s e, locate env q x st = Some (st', Ok (Located s e)) /\ good st' /\
    uintn_ok s /\ uintn_val s = starts (uintn_val x) /\ is_end (uintn_val x) e /\
    match e with Some e => uintn_val s <= uintn_val e | None => True end.
Proof.
  intros Hg Hx Hr. destruct (lf_range _ _ _ _ Hf st x Hg Hx Hr) as (st' & r & Hs & Hg' & Hr').
  destruct (locate_after_good st' x r Hg' Hr') as (s & e & Hl & ?).
  exists st', s, e. split; [|done]. unfold locate. by erewrite lk_bind_ok.
Qed.

(** The invariant of the loop. *)
Record search_inv (s : search_state) : Prop := {
  si_left : uintn_canonical (ss_left s);
  si_right : uintn_canonical (ss_right s);
  si_order : lo <= uintn_val (ss_left s) <= uintn_val (ss_right s);
  si_hi : uintn_val (ss_right s) <= hi;
  si_left_end : is_end (uintn_val (ss_left s)) (ss_left_end s);
  si_right_ok : uintn_ok (ss_right_start s);
  si_right_start : uintn_val (ss_right_start s) = starts (uintn_val (ss_right s));
  si_after : starts (uintn_val (ss_left s)) <= uintn_val target;
  si_before : uintn_val target < starts (uintn_val (ss_right s)) \/
    (uintn_val (ss_right s) = hi /\ uintn_val target <= starts hi);
}.

Lemma adjacent_holds s : search_inv s -> uintn_val (ss_left s) + 1 = uintn_val (ss_right s) ->
  let r := adjacent_case target s in uintn_canonical r /\ holds (uintn_val r).
Proof.
  intros [Hl Hr Ho Hh He Hs Hsv Ha Hb] Hadj. unfold adjacent_case, holds.
  pose proof (lf_mono _ _ _ _ Hf (uintn_val (ss_right s)) hi) as Hm.
  destruct (ss_left_end s) as [e|]; cbn [is_end] in He.
  - destruct He as [Heok He]. id_cmp. rewrite Hadj in He.
    destruct (Z.leb_spec (uintn_val target) (uintn_val e)); (split; [done|]).
    + rewrite Hadj. split_and!; lia.
    + destruct Hb as [Hb|[Hb Hb']]; [lia|]. rewrite Hb in *. split_and!; lia.
  - id_cmp. rewrite Hsv.
    destruct (Z.ltb_spec (uintn_val target) (starts (uintn_val (ss_right s)))); (split; [done|]).
    + rewrite Hadj. split_and!; lia.
    + destruct Hb as [Hb|[Hb Hb']]; [lia|]. rewrite Hb in *. split_and!; lia.
Qed.

(** The width that decreases. *)
Definition width (s : search_state) : Z := uintn_val (ss_right s) - uintn_val (ss_left s).

(** What a turn gives: the file, or a narrower search. *)
Definition turn_good (s : search_state) (r : option (lk_state * outcome lookup_error
    (option uintn + search_state))) : Prop :=
  exists st, good st /\
  ((exists x, r = Some (st, Ok (inl (Some x))) /\ uintn_canonical x /\ holds (uintn_val x)) \/
   (exists s', r = Some (st, Ok (inr s')) /\ search_inv s' /\ width s' < width s)).

Lemma turn_found s st x : good st -> uintn_canonical x -> holds (uintn_val x) ->
  turn_good s (found x st).
Proof. intros. exists st. split; [done|]. left. by exists x. Qed.

Lemma turn_next s st s' : good st -> search_inv s' -> width s' < width s ->
  turn_good s (Some (st, Ok (inr s'))).
Proof. intros. exists st. split; [done|]. right. by exists s'. Qed.

Lemma choose_half_good s st mid mid_start mid_end :
  good st -> search_inv s -> uintn_canonical mid ->
  uintn_val (ss_left s) < uintn_val mid < uintn_val (ss_right s) ->
  uintn_ok mid_start -> uintn_val mid_start = starts (uintn_val mid) ->
  is_end (uintn_val mid) mid_end ->
  turn_good s (choose_half env q None target mid mid_start mid_end s st).
Proof.
  intros Hg [Hl Hr Ho Hh He Hs Hsv Ha Hb] Hm Hbt Hso Hsm Hme. unfold choose_half. id_cmp.
  destruct (Z.ltb_spec (uintn_val target) (uintn_val mid_start)) as [Hlt|Hge].
  { apply turn_next; [done| |unfold width; simpl; lia]. split; simpl; try done; lia. }
  destruct mid_end as [e|]; cbn [is_end] in Hme.
  - destruct Hme as [Heok Hme]. id_cmp.
    destruct (Z.leb_spec (uintn_val target) (uintn_val e)).
    + apply turn_found; [done..|]. split_and!; lia.
    + apply turn_next; [done| |unfold width; simpl; lia]. split; simpl; try done; lia.
  - destruct (increment_spec mid (canonical_ok _ Hm)) as [Hno Hnv].
    pose proof (increment_canonical mid Hm) as Hnc. id_cmp.
    destruct (Z.leb_spec (uintn_val (uintn_increment mid)) (uintn_val (ss_right s))); [|lia].
    destruct (locate_good st (uintn_increment mid) Hg Hnc) as (st' & s1 & e1 & Hloc & Hg' & H1 & H2 & _);
      [lia|].
    erewrite lk_bind_ok.
    2:{ unfold next_start. erewrite lk_bind_ok by exact Hloc. reflexivity. }
    cbn beta iota. id_cmp. rewrite H2, Hnv.
    destruct (Z.ltb_spec (uintn_val target) (starts (uintn_val mid + 1))).
    + apply turn_found; [done..|]. split_and!; lia.
    + apply turn_next; [done| |unfold width; simpl; lia]. split; simpl; try done; lia.
Qed.

Lemma search_turn_good s st : good st -> search_inv s ->
  turn_good s (search_turn env q None target s st).
Proof.
  intros Hg Hi. pose proof Hi as [Hl Hr Ho Hh He Hs Hsv Ha Hb]. unfold search_turn.
  destruct (increment_spec _ (canonical_ok _ Hl)) as [Hno Hnv].
  id_cmp. rewrite Hnv. destruct (Z.eqb_spec (uintn_val (ss_left s)) (uintn_val (ss_right s))) as [E|].
  { apply turn_found; [done..|]. unfold holds. rewrite E in *.
    destruct Hb as [Hb|[Hb Hb']]; [lia|]. split_and!; lia. }
  destruct (Z.eqb_spec (uintn_val (ss_left s) + 1) (uintn_val (ss_right s))) as [E|].
  { destruct (adjacent_holds s Hi E) as [? ?]. by apply turn_found. }
  destruct (middle_spec _ _ (canonical_ok _ Hl) (canonical_ok _ Hr)) as [_ Hmv].
  pose proof (middle_canonical _ _ Hl Hr) as Hmc.
  pose proof (half_bounds (uintn_val (ss_left s) + uintn_val (ss_right s))).
  cbn zeta. set (mid := uintn_middle _ _) in *.
  destruct (locate_good st mid Hg Hmc) as (st' & s1 & e1 & Hloc & Hg' & H1 & H2 & H3 & _);
    [lia|].
  erewrite lk_bind_ok by exact Hloc. cbn beta iota.
  apply choose_half_good; try done; lia.
Qed.

Lemma binary_search_good fuel s st : good st -> search_inv s -> width s < Z.of_nat fuel ->
  exists st' x, binary_search env q None fuel target s st = Some (st', Ok (Some x)) /\
    good st' /\ uintn_canonical x /\ holds (uintn_val x).
Proof.
  revert s st. induction fuel as [|fuel IH]; intros s st Hg Hi Hw.
  { pose proof (si_order _ Hi). unfold width in Hw. lia. }
  cbn [binary_search]. destruct (search_turn_good s st Hg Hi)
    as (st' & Hg' & [(x & E & Hx & Hh)|(s' & E & Hi' & Hw')]);
    erewrite lk_bind_ok by exact E; cbn beta iota.
  - by exists st', x.
  - apply IH; [done..|lia].
Qed.

(** The whole lookup.  The target is at or after the first entry. *)
Lemma search_files_good fuel st first last first_end :
  good st -> uintn_canonical first -> uintn_canonical last ->
  uintn_val first = lo -> uintn_val last = hi -> lo <= hi ->
  is_end lo first_end -> starts lo <= uintn_val target -> hi - lo < Z.of_nat fuel ->
  exists st' x, search_files env q None fuel target first last first_end st =
      Some (st', Ok (Some x)) /\ good st' /\ uintn_canonical x /\ holds (uintn_val x).
Proof.
  intros Hg Hfc Hlc Hfv Hlv Hle He Hs Hfuel. unfold search_files, find_valid_file_backward, id_span.
  cbn [valid_backward].
  destruct (locate_good st last Hg Hlc) as (st' & s1 & e1 & Hloc & Hg' & H1 & H2 & He1 & H3);
    [lia|].
  erewrite lk_bind_ok by (erewrite lk_bind_ok by exact Hloc; reflexivity). cbn beta iota. id_cmp.
  rewrite Hlv in H2. rewrite H2. destruct (Z.ltb_spec (starts hi) (uintn_val target)).
  { exists st', last. unfold holds. rewrite Hlv. split_and!; try done; lia. }
  assert (match e1 with Some e => uintn_ltb e target | None => false end = false) as ->.
  { destruct e1 as [e|]; [|done]. destruct He1 as [He1 _]. id_cmp. apply Z.ltb_ge. lia. }
  apply binary_search_good; [done| |unfold width; simpl; lia].
  split; simpl; try done; try lia; rewrite ?Hfv, ?Hlv; try done; lia.
Qed.

(** The answer: the first file for a target before it, else the one that holds
    the target. *)
Definition answer (x : Z) : Prop :=
  (uintn_val target < starts lo /\ x = lo) \/ (starts lo <= uintn_val target /\ holds x).

Lemma find_file_good fuel st sf sl wf wl first last : good st ->
  queue_file_ids env q st = Ok (sf, sl, wf, wl) ->
  opt_min sf wf = Some first -> uintn_canonical first -> uintn_val first = lo ->
  opt_max sl wl = Some last -> uintn_canonical last -> uintn_val last = hi ->
  lo <= hi -> hi - lo < Z.of_nat fuel ->
  exists st' x, find_file_with_s3 env q None fuel target st = Some (st', Ok (Some x)) /\
    good st' /\ uintn_canonical x /\ answer (uintn_val x).
Proof.
  intros Hg Hids Hmin Hfc Hfv Hmax Hlc Hlv Hle Hfuel. unfold find_file_with_s3. rewrite Hids.
  erewrite lk_bind_ok by reflexivity. rewrite Hmin, Hmax. cbn [opt_min].
  destruct (lf_range _ _ _ _ Hf st first Hg Hfc) as (st1 & r1 & Hr1 & Hg1 & Hs1); [lia|].
  erewrite lk_bind_ok by exact Hr1.
  destruct (lf_range _ _ _ _ Hf st1 last Hg1 Hlc) as (st2 & r2 & Hr2 & Hg2 & _); [lia|].
  erewrite lk_bind_ok by exact Hr2.
  destruct (locate_after_good st2 first r1 Hg2 Hs1) as (s & e & Hl & Hs & Hsv & He & _).
  rewrite Hfv in *. unfold first_file_range.
  erewrite lk_bind_ok by (erewrite lk_bind_ok by exact Hl; reflexivity). cbn beta iota.
  id_cmp. rewrite Hsv. destruct (Z.ltb_spec (uintn_val target) (starts lo)).
  { exists st2, first. split_and!; try done. left. done. }
  assert (forall st', good st' -> holds lo -> exists st'' x, lk_ret (Ok (Some first)) st' =
    Some (st'', Ok (Some x)) /\ good st'' /\ uintn_canonical x /\ answer (uintn_val x)) as Hfirst.
  { intros st' ? ?. exists st', first. split_and!; try done. right. by rewrite Hfv. }
  assert (exists st' x, search_files env q None fuel target first last e st2 =
    Some (st', Ok (Some x)) /\ good st' /\ uintn_canonical x /\ answer (uintn_val x)) as Hsearch.
  { destruct (search_files_good fuel st2 first last e) as (st' & x & ? & ? & ? & ?); try done.
    exists st', x. split_and!; try done. by right. }
  destruct e as [e|]; [|exact Hsearch]. destruct He as [Heok He]. id_cmp.
  destruct (Z.leb_spec (uintn_val target) (uintn_val e)); [|exact Hsearch].
  apply Hfirst; [done|]. split_and!; lia.
Qed.

End Search.
