(* ===== verification/QueueLayout.v ===== *)
(** * The files of a queue on disk

    The state the components agree on: consecutive file ids, each file in the
    WAL or in the store, their entries numbered without a gap.  The queries of
    the two stores keep it and answer according to it, which is what the lookup
    asks of them. *)
From Stdlib Require Import ZArith Lia List Bool Sorted.
From Stdlib Require Import Ascii String.
From stdpp Require Import base option list gmap strings.
From S2P Require Import Prelude UBig UintN UintNFacts Paths PathsFacts PathsSearch FileTree Types.
From S2P Require Import WalFormat WalReader WalReaderFacts WalReaderTotal OrderedBuffer AckWriter.
From S2P Require Import WalWriter WalWriterFacts Crypto StoreFormat Store StoreFacts WalStore.
From S2P Require Import Cloud Lookup LookupFacts.
#[local] Open Scope Z_scope.

Section Layout.
Context {B : Build} {U : UBig} {H : HexCrate} {X : Hasher} {C : CryptoLib} {Z' : CompressLib}.
Context {S3 : S3Http}.
Context (env : store_env) (q : queue_id).

(** The id of value [z]. *)
Definition uid (z : Z) : uintn := uintn_from_u64 z.

Lemma uid_spec z : 0 <= z < 2 ^ 64 -> uintn_canonical (uid z) /\ uintn_val (uid z) = z.
Proof. intros Hz. apply from_u64_spec. exact Hz. Qed.

Lemma uid_val x : uintn_canonical x -> uintn_val x < 2 ^ 64 -> uid (uintn_val x) = x.
Proof.
  intros Hx Hv. pose proof (val_nonneg x ltac:(eauto with normfs)).
  destruct (uid_spec (uintn_val x)) as [Hc Hcv]; [lia|]. by apply canonical_inj.
Qed.

(** ** A file *)

Record qfile := {
  qf_header : wal_header;
  qf_entries : list (uintn * bytes);
  qf_tail : bytes;
}.

Definition qf_bytes (f : qfile) : bytes := wal_file (qf_header f) (qf_entries f) (qf_tail f).

(** Well formed, its entries numbered from [start]; the tail is shorter than
    an entry header or no header at all. *)
Record qfile_ok (start : Z) (f : qfile) : Prop := {
  qo_header : wal_header_ok (qf_header f);
  qo_before : uintn_val (num_entries_before (qf_header f)) = start;
  qo_small : start < 2 ^ 128;
  qo_fits : Forall (entry_fits (qf_header f)) (qf_entries f);
  qo_tail : torn (qf_header f) (qf_tail f) None;
  qo_size : zlen (qf_bytes f) <= isize_max;
  qo_ids : consecutive start (qf_entries f);
}.

Definition wal_path (x : uintn) : str := queue_to_wal_path q (se_root env) x.
Definition store_path (x : uintn) : str := queue_to_store_path q (se_root env) x.

(** The range the store tells for a file. *)
Definition range_is (start : Z) (f : qfile) (r : uintn * uintn) : Prop :=
  uintn_canonical (fst r) /\ uintn_canonical (snd r) /\ uintn_val (fst r) = start /\
  uintn_val (snd r) = start + zlen (qf_entries f) - 1.

(** Where the file is: in the WAL only, or in the store (and perhaps still in
    the WAL). *)
Inductive stored (st : store_state) (x : uintn) (start : Z) (f : qfile) : Prop :=
| StoredWal :
    st_files st !! store_path x = None -> st_ranges st !! range_key q x = None ->
    st_files st !! wal_path x = Some (qf_bytes f) -> stored st x start f
| StoredStore content r :
    st_files st !! store_path x = Some content ->
    (forall verify, extract_wal_bytes env q x content verify = Ok (qf_bytes f)) ->
    qf_entries f <> [] -> range_is start f r ->
    read_range_from_fs env st q x = Ok (Some r) ->
    st_ranges st !! range_key q x = Some r \/ st_ranges st !! range_key q x = None ->
    stored st x start f.

(** ** A queue *)

(** The id of the first entry of the file [i]. *)
Definition start_of (base : Z) (fs : list qfile) (i : nat) : Z :=
  base + zlen (concat (map qf_entries (take i fs))).

Definition all_entries (fs : list qfile) : list (uintn * bytes) := concat (map qf_entries fs).

Record queue_layout (lo base : Z) (fs : list qfile) (st : store_state) : Prop := {
  ql_some : fs <> [];
  ql_lo : 0 <= lo;
  ql_hi : lo + zlen fs <= 2 ^ 24;
  ql_ok i f : fs !! i = Some f -> qfile_ok (start_of base fs i) f;
  ql_stored i f : fs !! i = Some f -> stored st (uid (lo + Z.of_nat i)) (start_of base fs i) f;
  ql_wal_dir : numbered (queue_to_wal_dir q (se_root env)) (s2l "wal") (st_files st);
  ql_store_dir : numbered (queue_to_store_dir q (se_root env)) (s2l "store") (st_files st);
  ql_only x : uintn_canonical x ->
    is_Some (st_files st !! wal_path x) \/ is_Some (st_files st !! store_path x) ->
    lo <= uintn_val x < lo + zlen fs;
  ql_io : se_io env (queue_to_wal_dir q (se_root env)) = false /\
          se_io env (queue_to_store_dir q (se_root env)) = false;
  ql_file_io x : se_io env (wal_path x) = false /\ se_io env (store_path x) = false;
}.

Lemma start_of_S base fs i f : fs !! i = Some f ->
  start_of base fs (S i) = start_of base fs i + zlen (qf_entries f).
Proof.
  intros Hi. unfold start_of. rewrite (take_S_r _ _ _ Hi), map_app, concat_app, zlen_app.
  cbn [map concat]. rewrite app_nil_r. lia.
Qed.

Lemma start_of_0 base fs : start_of base fs 0 = base.
Proof. unfold start_of. rewrite take_0. apply Z.add_0_r. Qed.

Lemma start_of_mono base fs i j : (i <= j)%nat -> start_of base fs i <= start_of base fs j.
Proof.
  intros Hij. unfold start_of. rewrite <- (take_drop i (take j fs)) at 1.
  rewrite take_take, Nat.min_l by done. rewrite map_app, concat_app, zlen_app.
  pose proof (zlen_nonneg (concat (map qf_entries (drop i (take j fs))))). lia.
Qed.

(** ** The queries keep the layout *)

(** Caching the range a store file tells. *)
Lemma stored_cached st x start f y r : uintn_canonical x -> uintn_canonical y ->
  st_ranges st !! range_key q y = None -> read_range_from_fs env st q y = Ok (Some r) ->
  stored st x start f ->
  stored (set_ranges st (<[range_key q y := r]> (st_ranges st))) x start f.
Proof.
  intros Hx Hy Hn Hr Hs. destruct (decide (range_key q y = range_key q x)) as [E|E].
  - apply range_key_inj in E as [_ Ev]; [|eauto with normfs..].
    assert (y = x) as -> by by apply canonical_inj.
    destruct Hs as [Hsf _ _|content r' Hsf Hext Hne Hri Hr' _].
    + exfalso. unfold read_range_from_fs in Hr. fold (store_path x) in Hr. cbn zeta in Hr.
      rewrite Hsf in Hr. by destruct (se_io env (store_path x)).
    + rewrite Hr in Hr'. injection Hr' as <-.
      apply (StoredStore _ _ _ _ content r); try done. left. apply lookup_insert_eq.
  - destruct Hs as [Hsf Hrn Hw|content r' Hsf Hext Hne Hri Hrr Hc].
    + apply StoredWal; try done. cbn [set_ranges st_ranges]. by rewrite lookup_insert_ne.
    + apply (StoredStore _ _ _ _ content r'); try done. cbn [set_ranges st_ranges].
      by rewrite lookup_insert_ne.
Qed.

Context (lo base : Z) (fs : list qfile).

Lemma file_id st i f : queue_layout lo base fs st -> fs !! i = Some f ->
  uintn_canonical (uid (lo + Z.of_nat i)) /\
  uintn_val (uid (lo + Z.of_nat i)) = lo + Z.of_nat i /\ lo + Z.of_nat i < lo + zlen fs.
Proof.
  intros Hl Hi. apply lookup_lt_Some in Hi. pose proof (ql_lo _ _ _ _ Hl).
  pose proof (ql_hi _ _ _ _ Hl). unfold zlen in *.
  destruct (uid_spec (lo + Z.of_nat i)) as [? ?]; [lia|]. split_and!; try done. lia.
Qed.

(** The file of an id. *)
Lemma file_at st x : queue_layout lo base fs st -> uintn_canonical x ->
  lo <= uintn_val x < lo + zlen fs ->
  exists i f, fs !! i = Some f /\ x = uid (lo + Z.of_nat i) /\ uintn_val x = lo + Z.of_nat i.
Proof.
  intros Hl Hx Hr. unfold zlen in Hr.
  destruct (lookup_lt_is_Some_2 fs (Z.to_nat (uintn_val x - lo))) as [f Hf]; [lia|].
  destruct (file_id st _ f Hl Hf) as (Hc & Hv & _). exists (Z.to_nat (uintn_val x - lo)), f.
  assert (uintn_val x = lo + Z.of_nat (Z.to_nat (uintn_val x - lo))) as E by lia.
  split_and!; try done. apply canonical_inj; [done..|]. lia.
Qed.

Lemma layout_cached st y r : queue_layout lo base fs st -> uintn_canonical y ->
  st_ranges st !! range_key q y = None -> read_range_from_fs env st q y = Ok (Some r) ->
  queue_layout lo base fs (set_ranges st (<[range_key q y := r]> (st_ranges st))).
Proof.
  intros Hl Hy Hn Hr. destruct Hl as [H1 H2 H3 H4 H5 H6 H7 H8 H9 H10]. split; try done.
  intros i f Hi. apply stored_cached; try done; [|by apply H5].
  apply lookup_lt_Some in Hi. unfold zlen in H3. apply uid_spec. lia.
Qed.

(** [get_file_range] on a file of the queue. *)
Lemma get_file_range_layout st i f : queue_layout lo base fs st -> fs !! i = Some f ->
  exists st' r, get_file_range env st q (uid (lo + Z.of_nat i)) = (st', Ok r) /\
    queue_layout lo base fs st' /\ st_files st' = st_files st /\
    match r with
    | Some r => range_is (start_of base fs i) f r /\ qf_entries f <> []
    | None => st_files st !! wal_path (uid (lo + Z.of_nat i)) = Some (qf_bytes f) /\
        st_files st !! store_path (uid (lo + Z.of_nat i)) = None
    end.
Proof.
  intros Hl Hi. destruct (file_id st i f Hl Hi) as (Hc & _ & _). set (x := uid _) in *.
  unfold get_file_range, get_range.
  pose proof (ql_stored _ _ _ _ Hl i f Hi) as Hst. fold x in Hst.
  destruct Hst as [Hsf Hrn Hw|content r Hsf Hext Hne Hri Hr [Hrn|Hrn]].
  - rewrite Hrn. unfold read_range_from_fs. fold (store_path x). cbn zeta.
    destruct (ql_file_io _ _ _ _ Hl x) as [_ ->]. rewrite Hsf. exists st, None. done.
  - rewrite Hrn. exists st, (Some r). done.
  - rewrite Hrn, Hr. eexists _, (Some r). split; [reflexivity|].
    split; [by apply layout_cached|]. done.
Qed.

(** ** What the files answer *)

Lemma read_wal_header_file d dir x start f : qfile_ok start f ->
  d (wal_file_path dir x) = file_of (qf_bytes f) -> read_wal_header d dir x = Ok (qf_header f).
Proof.
  intros [Hh Hb Hs _ _ _ _] Hd. unfold read_wal_header, qf_bytes in *.
  rewrite (open_wal_file _ _ _ _ _ _ Hd). ok_step. unfold header_or_empty, wal_file.
  pose proof (zlen_encode_header (qf_header f)) as Hl.
  assert (wal_header_size (qf_header f) <= 128) as Hle.
  { unfold wal_header_size, wal_header_fixed_size.
    assert (uintn_canonical (num_entries_before (qf_header f))) as Hc by apply Hh.
    pose proof (counter_small _ Hc). lia. }
  unfold zlen in Hl. rewrite take_app_ge by lia.
  rewrite header_from_reader_encode by done. done.
Qed.

Lemma wal_disk_file st x start f : qfile_ok start f -> se_io env (wal_path x) = false ->
  st_files st !! wal_path x = Some (qf_bytes f) ->
  ws_disk env st (wal_file_path (queue_to_wal_dir q (se_root env)) x) = file_of (qf_bytes f).
Proof.
  intros Hf Hio Hw. unfold ws_disk, disk_of, wal_file_path.
  fold (queue_to_wal_path q (se_root env) x). fold (wal_path x). by rewrite Hio, Hw.
Qed.

Lemma entries_before_file st x start f : qfile_ok start f -> se_io env (wal_path x) = false ->
  st_files st !! wal_path x = Some (qf_bytes f) ->
  ws_get_entries_before env st q x = Ok (num_entries_before (qf_header f)).
Proof.
  intros Hf Hio Hw. unfold ws_get_entries_before.
  by erewrite read_wal_header_file by (done || by eapply wal_disk_file).
Qed.

(** No range is cached for a file that is not there. *)
Definition no_strays (st : store_state) : Prop :=
  forall x, uintn_canonical x -> ~ (lo <= uintn_val x < lo + zlen fs) ->
  st_ranges st !! range_key q x = None.

(** A query changes nothing but the cached range of its file. *)
Lemma get_file_range_state st st' x r : get_file_range env st q x = (st', r) ->
  st' = st \/ exists range, st' = set_ranges st (<[range_key q x := range]> (st_ranges st)).
Proof.
  unfold get_file_range, get_range. destruct (st_ranges st !! _); [intros [= <- _]; by left|].
  destruct (read_range_from_fs env st q x) as [[range|]|[]|]; intros [= <- _]; try (by left).
  right. by exists range.
Qed.

Lemma range_no_strays st st' x r : get_file_range env st q x = (st', r) -> uintn_canonical x ->
  lo <= uintn_val x < lo + zlen fs -> no_strays st -> no_strays st'.
Proof.
  intros Hr Hx Hb Ha y Hy Hn. destruct (get_file_range_state _ _ _ _ Hr) as [->|[range ->]]; [by apply Ha|].
  cbn [set_ranges st_ranges]. rewrite lookup_insert_ne; [by apply Ha|].
  intros [_ E]%range_key_inj; [|eauto with normfs..]. lia.
Qed.

(** ** The interface of the lookup *)

Definition file_start (z : Z) : Z := start_of base fs (Z.to_nat (z - lo)).

Definition layout_good (files : gmap str bytes) (st : lk_state) : Prop :=
  queue_layout lo base fs (lk_store st) /\ st_files (lk_store st) = files /\ no_strays (lk_store st).

Lemma file_start_nat i : file_start (lo + Z.of_nat i) = start_of base fs i.
Proof. unfold file_start. f_equal. lia. Qed.

Lemma layout_located files :
  located_files env q (layout_good files) lo (lo + zlen fs - 1) file_start.
Proof.
  split.
  - intros st x (Hl & Hfs & Ha) Hx Hr. destruct (file_at _ x Hl Hx) as (i & f & Hi & -> & Hv); [lia|].
    destruct (get_file_range_layout _ i f Hl Hi) as (st' & r & Hg & Hl' & Hfs' & Hcase).
    exists {| lk_store := st'; lk_cache := lk_cache st |}, r.
    unfold lk_store_range. rewrite Hg. split; [done|].
    split; [split; [done|split; [cbn; congruence|apply (range_no_strays _ _ _ _ Hg Hx); [lia|done]]]|].
    destruct r as [r|].
    + destruct Hcase as [(? & ? & Hrs & Hre) Hne]. unfold in_store.
      rewrite Hv. replace (lo + Z.of_nat i + 1) with (lo + Z.of_nat (S i)) by lia.
      rewrite !file_start_nat, (start_of_S _ _ _ _ Hi).
      assert (1 <= zlen (qf_entries f)) by (destruct (qf_entries f) as [|e l]; [done|];
        rewrite zlen_cons; pose proof (zlen_nonneg l); lia).
      split_and!; try done; (lia || by apply canonical_ok).
    + destruct Hcase as [Hw _]. pose proof (ql_ok _ _ _ _ Hl i f Hi) as Hok.
      exists (num_entries_before (qf_header f)).
      assert (uintn_canonical (num_entries_before (qf_header f))) as Hc
        by apply (qo_header _ _ Hok). split; [by apply canonical_ok|].
      split; [rewrite Hv, file_start_nat; apply (qo_before _ _ Hok)|].
      intros st1 (Hl1 & Hfs1 & _). unfold lk_wal_start.
      rewrite (entries_before_file (lk_store st1) _ _ _ Hok); [done|apply (ql_file_io _ _ _ _ Hl)|].
      by rewrite Hfs1, <- Hfs.
  - intros i j Hi Hj. unfold file_start. apply start_of_mono. lia.
Qed.

Lemma wal_ext : is_ext (s2l "wal").
Proof. split; [done|repeat constructor; done]. Qed.
Lemma store_ext : is_ext (s2l "store").
Proof. split; [done|repeat constructor; done]. Qed.

(** The first file is found in one of the directories, and so is the last. *)
Lemma file_present st i f : queue_layout lo base fs st -> fs !! i = Some f ->
  is_Some (st_files st !! wal_path (uid (lo + Z.of_nat i))) \/
  is_Some (st_files st !! store_path (uid (lo + Z.of_nat i))).
Proof.
  intros Hl Hi. destruct (ql_stored _ _ _ _ Hl i f Hi) as [_ _ Hw|c r Hs _ _ _ _ _].
  - left. by rewrite Hw.
  - right. by rewrite Hs.
Qed.

(** A search in one directory of the queue: the extreme of the files there. *)
Definition dir_answer (ord : Z -> Z -> Prop) (path : uintn -> str) (st : store_state)
    (r : option uintn) : Prop :=
  match r with
  | Some m => uintn_canonical m /\ is_Some (st_files st !! path m) /\
      forall x, uintn_canonical x -> is_Some (st_files st !! path x) ->
        ord (uintn_val x) (uintn_val m)
  | None => forall x, uintn_canonical x -> st_files st !! path x = None
  end.

Lemma dir_answer_of {E} (err : path_error -> E) (ord : Z -> Z -> Prop) path dir ext st r :
  (forall x, path x = uintn_to_file_path x dir ext) ->
  (forall x, uintn_canonical x -> is_Some (st_files st !! path x) -> uintn_val x < 2 ^ 24) ->
  search_answer dir ext (st_files st) ord r ->
  exists a, none_if_no_files err r = Ok a /\ dir_answer ord path st a.
Proof.
  intros Hp Hs [(m & -> & Hm & Hmv & Hf & Hall)|[-> Hnone]].
  - exists (Some m). split; [done|]. split; [done|]. rewrite Hp. split; [done|].
    intros x Hx Hf'. apply Hall; [done|by apply Hs|by rewrite <- Hp].
  - exists None. split; [done|]. intros x Hx. rewrite Hp.
    destruct (st_files st !! uintn_to_file_path x dir ext) eqn:Hx'; [|done].
    rewrite <- Hx'. apply Hnone; [done|]. apply Hs; [done|]. by rewrite Hp, Hx'.
Qed.

Lemma layout_file_ids st : queue_layout lo base fs (lk_store st) ->
  exists sf sl wf wl, queue_file_ids env q st = Ok (sf, sl, wf, wl) /\
    dir_answer Z.ge store_path (lk_store st) sf /\ dir_answer Z.le store_path (lk_store st) sl /\
    dir_answer Z.ge wal_path (lk_store st) wf /\ dir_answer Z.le wal_path (lk_store st) wl.
Proof.
  intros Hl. pose proof (ql_hi _ _ _ _ Hl) as Hhi.
  destruct (ql_io _ _ _ _ Hl) as [Hwio Hsio].
  assert (forall path, path = wal_path \/ path = store_path -> forall x, uintn_canonical x ->
    is_Some (st_files (lk_store st) !! path x) -> uintn_val x < 2 ^ 24) as Hsmall.
  { intros path Hp x Hx Hf. pose proof (ql_only _ _ _ _ Hl x Hx) as Ho.
    destruct Hp as [-> | ->]; destruct Ho; tauto || lia. }
  pose proof wal_ext as Hwe. pose proof store_ext as Hse.
  pose proof (ql_wal_dir _ _ _ _ Hl) as Hwd. pose proof (ql_store_dir _ _ _ _ Hl) as Hsd.
  destruct (dir_answer_of SPath Z.ge store_path _ _ (lk_store st) _ ltac:(done)
    (Hsmall _ (or_intror eq_refl)) (find_min_dir _ _ _ Hse Hsd)) as (sf & Hsf & ?).
  destruct (dir_answer_of SPath Z.le store_path _ _ (lk_store st) _ ltac:(done)
    (Hsmall _ (or_intror eq_refl)) (find_max_dir _ _ _ Hse Hsd)) as (sl & Hsl & ?).
  destruct (dir_answer_of WPathError Z.ge wal_path _ _ (lk_store st) _ ltac:(done)
    (Hsmall _ (or_introl eq_refl)) (find_min_dir _ _ _ Hwe Hwd)) as (wf & Hwf & ?).
  destruct (dir_answer_of WPathError Z.le wal_path _ _ (lk_store st) _ ltac:(done)
    (Hsmall _ (or_introl eq_refl)) (find_max_dir _ _ _ Hwe Hwd)) as (wl & Hwl & ?).
  exists sf, sl, wf, wl. split; [|done].
  unfold queue_file_ids, ps_get_first_file_id, ps_get_last_file_id, ws_get_first_file_id,
    ws_get_last_file_id. cbn zeta. by rewrite Hwio, Hsio, Hsf, Hsl, Hwf, Hwl.
Qed.

(** The smallest and the largest of two optional ids. *)
Definition one_of (a b : option uintn) (m : uintn) : Prop := a = Some m \/ b = Some m.

Lemma opt_min_spec a b : (forall m, one_of a b m -> uintn_canonical m) ->
  match opt_min a b with
  | Some r => one_of a b r /\ forall m, one_of a b m -> uintn_val m >= uintn_val r
  | None => a = None /\ b = None
  end.
Proof.
  unfold one_of. intros Hc. destruct a as [x|], b as [y|]; cbn [opt_min]; [| | |done].
  2,3: split; [auto|]; intros m [[= <-]|[= <-]]; lia.
  unfold uintn_min. rewrite ltb_spec_val by (apply ok_wf, canonical_ok, Hc; auto).
  destruct (Z.ltb_spec (uintn_val y) (uintn_val x)); (split; [auto|]);
    intros m [[= <-]|[= <-]]; lia.
Qed.

Lemma opt_max_spec a b : (forall m, one_of a b m -> uintn_canonical m) ->
  match opt_max a b with
  | Some r => one_of a b r /\ forall m, one_of a b m -> uintn_val m <= uintn_val r
  | None => a = None /\ b = None
  end.
Proof.
  unfold one_of. intros Hc. destruct a as [x|], b as [y|]; cbn [opt_max]; [| | |done].
  2,3: split; [auto|]; intros m [[= <-]|[= <-]]; lia.
  unfold uintn_max. rewrite ltb_spec_val by (apply ok_wf, canonical_ok, Hc; auto).
  destruct (Z.ltb_spec (uintn_val y) (uintn_val x)); (split; [auto|]);
    intros m [[= <-]|[= <-]]; lia.
Qed.

(** The best of the answers of the two directories is the extreme id. *)
Lemma extreme_of (ord : Z -> Z -> Prop) st a b r i f :
  queue_layout lo base fs st -> fs !! i = Some f ->
  (forall z z' z'', ord z z' -> ord z' z'' -> ord z z'') ->
  (forall z, lo <= z < lo + zlen fs -> ord (lo + Z.of_nat i) z -> z = lo + Z.of_nat i) ->
  dir_answer ord store_path st a -> dir_answer ord wal_path st b ->
  match r with
  | Some r => one_of a b r /\ forall m, one_of a b m -> ord (uintn_val m) (uintn_val r)
  | None => a = None /\ b = None
  end -> r = Some (uid (lo + Z.of_nat i)).
Proof.
  intros Hl Hi Htr Hext Ha Hb Hr. destruct (file_id st i f Hl Hi) as (Hc & Hv & _).
  set (x := uid (lo + Z.of_nat i)) in *.
  assert (exists m, one_of a b m /\ ord (uintn_val x) (uintn_val m)) as (m & Hm & Hxm).
  { destruct (file_present st i f Hl Hi) as [Hx|Hx]; fold x in Hx.
    - destruct b as [m|]; [|rewrite Hb in Hx by done; by destruct Hx].
      exists m. split; [by right|]. by apply Hb.
    - destruct a as [m|]; [|rewrite Ha in Hx by done; by destruct Hx].
      exists m. split; [by left|]. by apply Ha. }
  destruct r as [r|]; [|destruct Hr as [-> ->]; by destruct Hm].
  destruct Hr as [Hr Hall].
  assert (uintn_canonical r /\ lo <= uintn_val r < lo + zlen fs) as [Hrc Hrr].
  { destruct Hr as [-> | ->]; [destruct Ha as (Hr & Hf & _)|destruct Hb as (Hr & Hf & _)];
      (split; [done|]); apply (ql_only _ _ _ _ Hl r Hr); tauto. }
  f_equal. apply canonical_inj; [done..|]. rewrite Hv. apply Hext; [done|].
  rewrite <- Hv. eapply Htr; [exact Hxm|]. by apply Hall.
Qed.

Lemma dir_canonical ord a b st m : dir_answer ord store_path st a -> dir_answer ord wal_path st b ->
  one_of a b m -> uintn_canonical m.
Proof. intros Ha Hb [-> | ->]; [apply Ha|apply Hb]. Qed.

Lemma first_of st a b : queue_layout lo base fs st ->
  dir_answer Z.ge store_path st a -> dir_answer Z.ge wal_path st b ->
  opt_min a b = Some (uid lo).
Proof.
  intros Hl Ha Hb. pose proof (ql_some _ _ _ _ Hl) as Hne. destruct fs as [|f fs'] eqn:E; [done|].
  replace lo with (lo + Z.of_nat 0) at 1 by lia. rewrite <- E in *.
  apply (extreme_of Z.ge st a b _ 0 f); try done; [by rewrite E|intros; lia|intros; lia|].
  apply opt_min_spec. intros m. by apply (dir_canonical Z.ge a b st).
Qed.

Lemma last_of st a b : queue_layout lo base fs st ->
  dir_answer Z.le store_path st a -> dir_answer Z.le wal_path st b ->
  opt_max a b = Some (uid (lo + zlen fs - 1)).
Proof.
  intros Hl Ha Hb. pose proof (ql_some _ _ _ _ Hl) as Hne.
  assert (1 <= length fs)%nat by (destruct fs; [done|simpl; lia]).
  replace (lo + zlen fs - 1) with (lo + Z.of_nat (length fs - 1)) by (unfold zlen; lia).
  destruct (lookup_lt_is_Some_2 fs (length fs - 1)) as [f Hf]; [lia|].
  apply (extreme_of Z.le st a b _ (length fs - 1) f); try done; [intros; lia|unfold zlen; intros; lia|].
  apply opt_max_spec. intros m. by apply (dir_canonical Z.le a b st).
Qed.

(** The lookup, on the files of a queue. *)
Lemma find_file_layout fuel files st target : uintn_ok target -> layout_good files st ->
  zlen fs <= Z.of_nat fuel ->
  exists st' x, find_file_with_s3 env q None fuel target st = Some (st', Ok (Some x)) /\
    layout_good files st' /\ uintn_canonical x /\
    answer lo (lo + zlen fs - 1) file_start target (uintn_val x).
Proof.
  intros Ht Hg Hfuel. pose proof Hg as [Hl _].
  destruct (layout_file_ids st Hl) as (sf & sl & wf & wl & Hids & Hsf & Hsl & Hwf & Hwl).
  pose proof (ql_lo _ _ _ _ Hl). pose proof (ql_hi _ _ _ _ Hl). pose proof (ql_some _ _ _ _ Hl).
  assert (1 <= zlen fs) by (destruct fs as [|f l]; [done|]; rewrite zlen_cons;
    pose proof (zlen_nonneg l); lia).
  destruct (uid_spec lo) as [? ?]; [lia|]. destruct (uid_spec (lo + zlen fs - 1)) as [? ?]; [lia|].
  apply (find_file_good env q (layout_good files) lo (lo + zlen fs - 1) file_start
    (layout_located files) target Ht fuel st sf sl wf wl (uid lo) (uid (lo + zlen fs - 1)));
    try done; try lia; [by apply (first_of (lk_store st))|by apply (last_of (lk_store st))].
Qed.

End Layout.
