(* ===== verification/CloudFacts.v ===== *)
(** * Claims about the cloud tier

    What the offloader uploads is not what the downloader asks for, and the
    range of a file is read from the wrong place. *)
From Stdlib Require Import ZArith Lia List Bool.
From Stdlib Require Import Ascii String.
From Stdlib Require Strings.Byte.
From stdpp Require Import base option list gmap strings.
From S2P Require Import Prelude UBig UintN UintNFacts Paths PathsFacts FileTree Types.
From S2P Require Import WalFormat WalReader WalReaderFacts OrderedBuffer AckWriter WalWriter.
From S2P Require Import Crypto StoreFormat Store StoreFacts QueueLayout Cloud.
#[local] Open Scope Z_scope.

Section Keys.
Context {U : UBig}.

(** The prefix the disk monitor is given: the configured one and the instance. *)
Definition full_cloud_prefix (prefix instance : str) : str :=
  if bool_decide (prefix = []) then instance else prefix ++ slash :: instance.

Lemma base_prefix_length p : (length p <= length (base_prefix p))%nat.
Proof. unfold base_prefix. destruct (_ || _); rewrite ?length_app; lia. Qed.

Lemma trim_slashes_length p : (length (trim_slashes p) <= length p)%nat.
Proof. induction p as [|a p IH]; simpl; [done|]. destruct (decide (a = slash)); simpl; lia. Qed.

Lemma cloud_base_length {S3 : S3Http} (b : s3_bucket) prefix :
  (length (cd_base_prefix (cloud_downloader_new b prefix)) <= S (length prefix))%nat /\
  (prefix = [] -> cd_base_prefix (cloud_downloader_new b prefix) = []).
Proof.
  cbn. case_bool_decide; [subst; split; [simpl; lia|done]|].
  case_bool_decide; (split; [|done]); rewrite ?length_app; simpl; lia.
Qed.

Lemma cloud_key_length {H : HexCrate} q base x :
  (length (queue_to_cloud_key q base x) <=
   length base + length (trim_slashes (qid_path q)) + 1 +
   length (uintn_to_file_path x [] (s2l "store")))%nat.
Proof.
  unfold queue_to_cloud_key. pose proof (trim_slashes_length (uintn_to_file_path x [] (s2l "store"))).
  case_bool_decide; rewrite !length_app; cbn [length]; lia.
Qed.

(** The key of a file for the offloader is longer than for the downloader. *)
Lemma keys_differ {H : HexCrate} {S3 : S3Http} (b : s3_bucket) prefix instance root r x :
  uintn_wf x ->
  let q := {| qid_path := slash :: r |} in
  offload_key (offload_worker_new (qid_path q) root (full_cloud_prefix prefix instance)) x <>
  queue_to_cloud_key q (cd_base_prefix (cloud_downloader_new b prefix)) x.
Proof.
  intros Hx q E. apply (f_equal length) in E.
  pose proof (cloud_key_length q (cd_base_prefix (cloud_downloader_new b prefix)) x) as Hk.
  rewrite <- E in Hk. unfold offload_key, offload_worker_new in Hk.
  cbn [ow_prefix ow_queue_id qid_path q trim_slashes] in Hk.
  rewrite (file_path_base x (slash :: r) _ Hx store_ext), decide_True in Hk by done.
  pose proof (base_prefix_length (slash :: r)) as Hb. pose proof (trim_slashes_length r) as Ht.
  destruct (cloud_base_length b prefix) as [Hl He].
  rewrite !length_app in Hk. cbn [length] in *. rewrite length_app in Hk.
  revert Hk. unfold full_cloud_prefix. case_bool_decide as Hp.
  - rewrite (He Hp). cbn [length]. lia.
  - rewrite length_app. cbn [length]. lia.
Qed.

End Keys.

(** ** The range of a cloud file *)

Section Range.
Context {B : Build} {U : UBig} {H : HexCrate} {X : Hasher} {C : CryptoLib} {Z' : CompressLib}.
Context {S3 : S3Http}.

(** The first three words of a file. *)
Lemma auth_words {E} a : auth_ok a ->
  let d := take 128 (encode_auth a) in
  slice (E := E) d 0 8 = Ok (le_bytes 8 0) /\ slice (E := E) d 8 16 = Ok (le_bytes 8 0) /\
  slice (E := E) d 16 24 = Ok (take 8 (header_signature a)).
Proof.
  intros Ha d. pose proof (zlen_encode_auth a Ha) as Hl. destruct Ha as [Hh _]. unfold zlen in Hh.
  unfold d. change 128%nat with (Z.to_nat 128). rewrite !slice_take by lia.
  assert (encode_auth a = le_bytes 8 0 ++ le_bytes 8 0 ++ take 8 (header_signature a) ++
    drop 8 (header_signature a) ++ le_bytes 8 0 ++ content_signature a) as ->.
  { rewrite (app_assoc (take 8 _)), take_drop.
    unfold encode_auth, file_auth_write_to_bytes. cbn [fst app]. by rewrite <- !app_assoc. }
  rewrite slice_head by (by rewrite zlen_le_bytes).
  rewrite slice_mid by (by rewrite ?zlen_le_bytes).
  rewrite (app_assoc (le_bytes 8 0)).
  rewrite slice_mid by (rewrite ?zlen_app, ?zlen_le_bytes; unfold zlen; rewrite ?length_take; lia).
  done.
Qed.

(** The third word of the authentication, taken for an encryption type. *)
Lemma header_from_auth a rest : auth_ok a ->
  encryption_try_from (le_val (take 8 (header_signature a))) = None ->
  store_header_from_bytes (take 128 (encode_auth a ++ rest)) =
    Err (ShUnsupportedEncryption (le_val (take 8 (header_signature a)))).
Proof.
  intros Ha He. pose proof (zlen_encode_auth a Ha) as Hl. unfold zlen in Hl.
  destruct (auth_words (E := store_header_error) a Ha) as (H1 & H2 & H3). cbn zeta in *.
  rewrite take_app_le by lia.
  unfold store_header_from_bytes. rewrite decide_False by (unfold zlen; rewrite length_take; lia).
  rewrite H1. ok_step. change (version_try_from (le_val (le_bytes 8 0))) with
    (Ok tt : outcome store_header_error unit). ok_step.
  cbn zeta. change (8 + 8) with 16. rewrite H2. ok_step.
  change (compression_type_from_u64 (le_val (le_bytes 8 0))) with
    (Ok CompNone : outcome store_header_error compression_type). ok_step.
  change (16 + 8) with 24. rewrite H3. ok_step. unfold encryption_type_from_u64. by rewrite He.
Qed.

End Range.

(** ** The search of the first file *)

Section Search.
Context {U : UBig} {H : HexCrate} {S3 : S3Http}.

Lemma no_digit_dir prefix cps digit :
  Forall (fun cp => length (trim_end_slashes (relative_to prefix cp)) <> 1%nat) cps ->
  digit_dir prefix cps digit = None.
Proof.
  intros Hf. unfold digit_dir. induction Hf as [|cp cps Hcp _ IH]; [done|]. cbn [List.find].
  rewrite bool_decide_false; [done|]. intros E. by rewrite E in Hcp.
Qed.

Lemma search_nothing fuel b prefix ext lr :
  list_objects b prefix (Some [slash]) = Ok lr -> lr_contents lr = [] ->
  Forall (fun cp => length (trim_end_slashes (relative_to prefix cp)) <> 1%nat)
    (lr_common_prefixes lr) ->
  cloud_find_min_recursive (S fuel) b prefix ext = Some (Err CNoFilesFound).
Proof.
  intros Hl Hc Hf. cbn [cloud_find_min_recursive]. rewrite Hl, Hc. cbn [min_object].
  assert (forall ds, first_digit_dir prefix (lr_common_prefixes lr) ds = None) as ->; [|done].
  intros ds. induction ds as [|d ds IH]; [done|]. cbn [first_digit_dir].
  by rewrite no_digit_dir.
Qed.

End Search.

(** ** What the offloader uploads *)

Section Upload.
Context {U : UBig} {H : HexCrate}.
Abbreviation bucket := (gmap str bytes).

Lemma upload_spec (w : offload_worker) (files b b' : bucket) (x : uintn) :
  upload_file (S3 := S3Http_map) w files b x = (b', Ok tt) ->
  exists content, files !! offload_local_path w x = Some content /\
    b' = <[offload_key w x := content]> b.
Proof.
  unfold upload_file. destruct (files !! _) as [content|]; [|done].
  cbn [http_put S3Http_map]. cbn [map_err]. ok_step. case_decide; [done|].
  unfold head_object. cbn [http_head S3Http_map]. rewrite lookup_insert_eq. cbn. 
  case_decide; [done|]. intros [= <-]. by exists content.
Qed.

(** The id of a file becomes the latest one only when a file of its size is in
    the bucket. *)
Lemma offload_turn_spec (w : offload_worker) (files b b' : bucket) (x : uintn) :
  offload_turn (S3 := S3Http_map) w files b x = (b', Ok (Some true)) ->
  exists content stored, files !! offload_local_path w x = Some content /\
    b' !! offload_key w x = Some stored /\ zlen stored = zlen content.
Proof.
  unfold offload_turn. destruct (is_file_offloaded (S3 := S3Http_map) w files b x) as [[|]|[]|] eqn:E; try done.
  - intros [= <-]. revert E. unfold is_file_offloaded, head_object. cbn [http_head S3Http_map].
    destruct (files !! _) as [content|]; [|done].
    destruct (b !! offload_key w x) as [stored|] eqn:Eb; cbn; [|done].
    intros [= Hd]. apply bool_decide_eq_true in Hd. exists content, stored. done.
  - destruct (upload_file (S3 := S3Http_map) w files b x) as [b2 [[]|[]|]] eqn:Eu; try done. intros [= <-].
    apply upload_spec in Eu as (content & Hf & ->). exists content, content.
    by rewrite lookup_insert_eq.
Qed.

Lemma offload_file_spec (fuel : nat) (w : offload_worker) (files b b' : bucket)
    (latest latest' : option uintn) (x : uintn) :
  offload_file (S3 := S3Http_map) fuel w files b latest x = Some (Ok (b', latest')) ->
  latest' = latest \/
  latest' = raise_latest latest x /\
  exists content stored, files !! offload_local_path w x = Some content /\
    b' !! offload_key w x = Some stored /\ zlen stored = zlen content.
Proof.
  revert b. induction fuel as [|fuel IH]; intros b; [done|]. cbn [offload_file].
  destruct (offload_turn (S3 := S3Http_map) w files b x) as [b2 [[[|]|]|e|]] eqn:E; try done.
  - intros [= <- <-]. right. split; [done|]. by apply offload_turn_spec in E.
  - intros [= <- <-]. by left.
  - apply IH.
Qed.

End Upload.

(** ** Claims *)

Section Claims.
Context {B : Build} {U : UBig} {H : HexCrate} {X : Hasher} {C : CryptoLib} {Z' : CompressLib}.

(** What the offloader of a queue uploads, the downloader does not find:
    for every absolute queue id (the ones the resolver makes), prefix and
    instance, the key of a file is not the key the downloader asks for, and
    after a successful upload the file is still missing for it. *)
Theorem uploaded_file_not_found (b b' : gmap str bytes) (prefix instance root r : str) (x : uintn)
    (files : gmap str bytes) :
  let q := {| qid_path := slash :: r |} in
  let worker := offload_worker_new (qid_path q) root (full_cloud_prefix prefix instance) in
  let key := queue_to_cloud_key q (cd_base_prefix (cloud_downloader_new (S3 := S3Http_map) b prefix)) x in
  uintn_wf x -> b !! key = None -> upload_file (S3 := S3Http_map) worker files b x = (b', Ok tt) ->
  offload_key worker x <> key /\
  cd_get_store_bytes (cloud_downloader_new (S3 := S3Http_map) b' prefix) q x = Ok None.
Proof.
  intros q worker key Hx Hb Hu.
  assert (offload_key worker x <> key) as Hne by by apply keys_differ.
  split; [done|]. apply upload_spec in Hu as (content & _ & ->).
  unfold cd_get_store_bytes, get_object.
  change (queue_to_cloud_key q _ x) with key. cbn [cd_bucket cloud_downloader_new http_get S3Http_map].
  rewrite (lookup_insert_ne (M := gmap str)) by done. by rewrite Hb.
Qed.

(** The range of a file in the cloud is read from its first 128 bytes,
    where the authentication is and not the header: for a file the store
    wrote, unless the first eight bytes of its signature happen to be the code
    of an encryption type, the range is an error. *)
Theorem cloud_range_reads_signature {S3 : S3Http} env (b : s3_bucket) prefix q x wal_file wal_data data :
  let h := store_header_of wal_file wal_data in
  let signature := crypto_sign (se_crypto env) (encode_store_header h) in
  get_object_range b (queue_to_cloud_key q prefix x) 0 (Some 127) =
    Ok (Some (take 128 (store_file_bytes env wal_file wal_data data))) ->
  encryption_try_from (le_val (take 8 signature)) = None ->
  read_range_from_s3 b prefix q x =
    Err (CStoreHeader (SHeader (ShUnsupportedEncryption (le_val (take 8 signature))))).
Proof.
  intros h signature Hb He. unfold read_range_from_s3. rewrite Hb. ok_step.
  rewrite store_file_bytes_eq. fold h.
  rewrite (header_from_auth (auth_of env h data) _ (auth_of_ok env h data)) by exact He.
  done.
Qed.

(** The search of the first cloud file finds nothing where files are in
    directories only and no directory name is a single digit; the names the
    files get have three. *)
Theorem cloud_search_finds_nothing {S3 : S3Http} (self : cloud_downloader) q lr :
  let prefix := queue_to_cloud_queue_path q (cd_base_prefix self) in
  list_objects (cd_bucket self) prefix (Some [slash]) = Ok lr -> lr_contents lr = [] ->
  Forall (fun cp => length (trim_end_slashes (relative_to prefix cp)) <> 1%nat)
    (lr_common_prefixes lr) ->
  cd_find_min_id self q = Some (Ok None).
Proof.
  intros prefix Hl Hc Hf. unfold cd_find_min_id, cloud_find_min_id. fold prefix.
  pose proof (search_nothing 63 (cd_bucket self) prefix (s2l "store") lr Hl Hc Hf) as Hs.
  change (S 63) with cloud_depth in Hs. by rewrite Hs.
Qed.

(** The latest offloaded id of a worker only moves to a file that is in
    the bucket: it stays, or a file of the size of the local one is stored
    under the key of the file. *)
Theorem latest_offloaded_is_uploaded (fuel : nat) (worker : offload_worker)
    (files b b' : gmap str bytes) (latest latest' : option uintn) (x : uintn) :
  offload_file (S3 := S3Http_map) fuel worker files b latest x = Some (Ok (b', latest')) ->
  latest' = latest \/
  latest' = raise_latest latest x /\
  exists content stored, files !! offload_local_path worker x = Some content /\
    b' !! offload_key worker x = Some stored /\ zlen stored = zlen content.
Proof. apply offload_file_spec. Qed.

End Claims.

(** *** A queue in a bucket *)

Definition cloud_q : queue_id := {| qid_path := s2l "/i/q" |}.
Definition cloud_worker : offload_worker :=
  offload_worker_new (s2l "/i/q") (s2l "/") (full_cloud_prefix (s2l "p") (s2l "i")).
Definition cloud_files : gmap str bytes := {[ s2l "/i/q/store/001.store" := [Byte.x61] ]}.

Lemma uploaded_file_not_found_witness :
  exists b', upload_file (S3 := S3Http_map) cloud_worker cloud_files ∅ (U8 1) = (b', Ok tt) /\
    cd_get_store_bytes (cloud_downloader_new (S3 := S3Http_map) b' (s2l "p")) cloud_q (U8 1) = Ok None.
Proof.
  destruct (upload_file (S3 := S3Http_map) cloud_worker cloud_files ∅ (U8 1)) as [b' r] eqn:E.
  assert (r = Ok tt) as -> by (apply (f_equal snd) in E; vm_compute in E; congruence).
  exists b'. split; [reflexivity|].
  assert (cloud_worker = offload_worker_new (qid_path {| qid_path := slash :: s2l "i/q" |}) (s2l "/")
    (full_cloud_prefix (s2l "p") (s2l "i"))) as Hw by vm_eq.
  rewrite Hw in E.
  pose proof (uploaded_file_not_found ∅ b' (s2l "p") (s2l "i") (s2l "/") (s2l "i/q") (U8 1) cloud_files)
    as Hn. cbv zeta in Hn.
  destruct Hn as [_ Hn]; [by split|by vm_compute|exact E|]. exact Hn.
Defined.

Definition cloud_upload : option (outcome offload_error (gmap str bytes * option uintn)) :=
  offload_file (S3 := S3Http_map) 3 cloud_worker cloud_files ∅ None (U8 1).

Lemma latest_offloaded_is_uploaded_witness :
  exists b' l, cloud_upload = Some (Ok (b', l)) /\ is_Some (b' !! offload_key cloud_worker (U8 1)).
Proof.
  assert (match cloud_upload with Some (Ok (_, Some _)) => true | _ => false end = true) as Hok
    by vm_eq.
  destruct cloud_upload as [[[b' [l|]]|e|]|] eqn:E; try discriminate. exists b', (Some l).
  split; [reflexivity|].
  destruct (latest_offloaded_is_uploaded _ _ _ _ _ _ _ _ E) as [Hn|(_ & c & s & _ & Hs & _)];
    [discriminate|by exists s].
Defined.

Definition cloud_content : wal_content :=
  {| wc_content := [Byte.x61]; wc_num_entries := U8 1; wc_entries_before := U8 0 |}.
Definition cloud_bucket : gmap str bytes :=
  {[ queue_to_cloud_key cloud_q [] (U8 1) :=
       store_file_bytes sample_env sample_msg cloud_content [Byte.x61] ]}.

Lemma cloud_range_reads_signature_witness :
  exists e, read_range_from_s3 (B := checked_build) (S3 := S3Http_map) cloud_bucket [] cloud_q (U8 1) =
    Err e.
Proof.
  eexists.
  apply (cloud_range_reads_signature (S3 := S3Http_map) sample_env cloud_bucket [] cloud_q (U8 1)
    sample_msg cloud_content [Byte.x61]).
  - vm_eq.
  - vm_eq.
Defined.

Definition cloud_late : cloud_downloader (S3 := S3Http_map) :=
  cloud_downloader_new (S3 := S3Http_map) ({[ s2l "i/q/001/000.store" := [] ]} : gmap str bytes) [].

Lemma cloud_search_finds_nothing_witness : cd_find_min_id cloud_late cloud_q = Some (Ok None).
Proof.
  apply (cloud_search_finds_nothing cloud_late cloud_q
    {| lr_contents := []; lr_common_prefixes := [s2l "i/q/001/"] |}).
  - vm_eq.
  - done.
  - repeat constructor. vm_compute. discriminate.
Defined.
