(* ===== verification/WalLayout.v ===== *)
(** * The files a writer leaves, as a queue on disk

    The closed files of the WAL writer satisfy [queue_layout]: what one process
    writes and closes is what the lookup and the reader of the next one find. *)
From Stdlib Require Import ZArith Lia List Bool Sorted.
From Stdlib Require Import Ascii String.
From stdpp Require Import base option list gmap strings.
From S2P Require Import Prelude UBig UintN UintNFacts Paths PathsFacts PathsSearch FileTree Types.
From S2P Require Import WalFormat WalReader WalReaderFacts WalReaderTotal OrderedBuffer AckWriter.
From S2P Require Import WalWriter WalWriterFacts Crypto StoreFormat Store StoreFacts WalStore.
From S2P Require Import Cloud Lookup LookupFacts QueueLayout.
#[local] Open Scope Z_scope.

Section WalLayout.
Context {B : Build} {U : UBig} {H : HexCrate} {X : Hasher} {C : CryptoLib} {Z' : CompressLib}.
Context {S3 : S3Http}.
Context (env : store_env) (q : queue_id).

Abbreviation wal_dir := (queue_to_wal_dir q (se_root env)).
Abbreviation store_dir := (queue_to_store_dir q (se_root env)).

Definition chain_file (c : closed_file) : qfile :=
  {| qf_header := snd (fst c); qf_entries := snd c; qf_tail := [] |}.

(** The closed files are on disk, and the directories of the queue hold nothing
    else. *)
Record wal_only (closed : list closed_file) (st : store_state) : Prop := {
  wo_files p c : In (p, c) (map (file_entry wal_dir) closed) -> st_files st !! p = Some c;
  wo_wal p r : is_Some (st_files st !! p) -> strip_prefix_l (base_prefix wal_dir) p = Some r ->
    In p (map fst (map (file_entry wal_dir) closed));
  wo_store p r : strip_prefix_l (base_prefix store_dir) p = Some r -> st_files st !! p = None;
  wo_ranges x : st_ranges st !! range_key q x = None;
  wo_io p : se_io env p = false;
}.

Lemma chain_at lo base closed i c : file_chain lo base closed -> closed !! i = Some c ->
  uintn_ok (fst (fst c)) /\ uintn_val (fst (fst c)) = lo + Z.of_nat i /\
  file_ok (snd (fst c)) (snd c) /\
  uintn_val (num_entries_before (snd (fst c))) = start_of base (map chain_file closed) i.
Proof.
  revert lo base i. induction closed as [|[[f h] es] closed IH]; intros lo base i Hc Hi; [done|].
  destruct Hc as (Hf & Hv & Hok & Hb & Hc). destruct i as [|i].
  - injection Hi as <-. cbn [fst snd]. rewrite Z.add_0_r, start_of_0. done.
  - cbn in Hi. destruct (IH _ _ _ Hc Hi) as (? & -> & ? & ->). split_and!; try done; [lia|].
    unfold start_of. cbn [map take concat chain_file qf_entries snd]. rewrite zlen_app. lia.
Qed.

(** The id of a file in the chain, and its path. *)
Lemma chain_path lo base closed i c : file_chain lo base closed -> closed !! i = Some c ->
  0 <= lo -> lo + zlen closed <= 2 ^ 24 ->
  fst (file_entry wal_dir c) = wal_path env q (uid (lo + Z.of_nat i)).
Proof.
  intros Hc Hi Hlo Hhi. destruct (chain_at _ _ _ _ _ Hc Hi) as (Hok & Hv & _).
  apply lookup_lt_Some in Hi. unfold zlen in Hhi.
  destruct (uid_spec (lo + Z.of_nat i)) as [Huc Huv]; [lia|].
  unfold file_entry, wal_path, queue_to_wal_path. cbn [fst].
  apply file_path_val; [by apply ok_wf|by apply ok_wf, canonical_ok|congruence].
Qed.

Lemma chain_in closed p : In p (map fst (map (file_entry wal_dir) closed)) ->
  exists i c, closed !! i = Some c /\ p = fst (file_entry wal_dir c).
Proof.
  intros Hp. rewrite map_map in Hp. apply in_map_iff in Hp as (c & <- & Hc).
  apply list_elem_of_In, list_elem_of_lookup in Hc as [i Hi]. by exists i, c.
Qed.

Context (lo base : Z) (closed : list closed_file).
Hypothesis Hchain : file_chain lo base closed.
Hypothesis Hne : closed <> [].
Hypothesis Hlo : 0 <= lo.
Hypothesis Hhi : lo + zlen closed <= 2 ^ 24.
Hypothesis Hids : base + zlen (closed_entries closed) < 2 ^ 128.
Hypothesis Hsize : Forall (fun c => zlen (snd (file_entry wal_dir c)) <= isize_max) closed.

Lemma chain_entries : all_entries (map chain_file closed) = closed_entries closed.
Proof. unfold all_entries, closed_entries. by rewrite map_map. Qed.

Lemma chain_lookup i f : map chain_file closed !! i = Some f ->
  exists c, closed !! i = Some c /\ f = chain_file c.
Proof.
  intros Hi. rewrite list_lookup_fmap in Hi.
  destruct (closed !! i) as [c|] eqn:E; [|done]. injection Hi as <-. by exists c.
Qed.

Lemma wal_file_ok i f : map chain_file closed !! i = Some f ->
  qfile_ok (start_of base (map chain_file closed) i) f.
Proof.
  intros Hi. destruct (chain_lookup _ _ Hi) as (c & Hc & ->).
  destruct (chain_at _ _ _ _ _ Hchain Hc) as (_ & _ & (Hh & Hf & Hcon) & Hs).
  split; cbn [chain_file qf_header qf_entries qf_tail]; try done.
  - pose proof (start_of_mono base (map chain_file closed) i (length closed)) as Hm.
    apply lookup_lt_Some in Hc. unfold start_of in Hm at 2.
    rewrite take_ge in Hm by (by rewrite length_map). fold (all_entries (map chain_file closed)) in Hm.
    rewrite chain_entries in Hm. lia.
  - by apply torn_nil.
  - by eapply (Forall_lookup_1 _ _ _ _ Hsize).
  - by rewrite <- Hs.
Qed.

Section OnDisk.
Context (st : store_state).
Hypothesis Hw : wal_only closed st.

Lemma present_in_chain x : uintn_canonical x -> is_Some (st_files st !! wal_path env q x) ->
  lo <= uintn_val x < lo + zlen closed.
Proof.
  intros Hx Hp. pose proof wal_ext as He.
  pose proof (file_path_base x wal_dir _ (ok_wf _ (canonical_ok _ Hx)) He) as Hb.
  destruct (chain_in closed (wal_path env q x)) as (i & c & Hi & Hpath).
  { apply (wo_wal _ _ Hw _ (uintn_to_file_path x [] (s2l "wal"))); [done|].
    unfold wal_path, queue_to_wal_path. rewrite Hb. apply strip_prefix_l_app. }
  rewrite (chain_path _ _ _ _ _ Hchain Hi Hlo Hhi) in Hpath.
  destruct (chain_at _ _ _ _ _ Hchain Hi) as (_ & Hv & _). apply lookup_lt_Some in Hi.
  destruct (uid_spec (lo + Z.of_nat i)) as [Huc Huv]; [unfold zlen in Hhi; lia|].
  rewrite (file_path_inj x (uid (lo + Z.of_nat i)) wal_dir (s2l "wal")), Huv
    by (done || by apply ok_wf, canonical_ok). unfold zlen. lia.
Qed.

(** The closed files are a queue on disk. *)
Lemma wal_only_layout : queue_layout env q lo base (map chain_file closed) st.
Proof.
  assert (zlen (map chain_file closed) = zlen closed) as Hl by (unfold zlen; by rewrite length_map).
  split; rewrite ?Hl; try done.
  - by destruct closed.
  - apply wal_file_ok.
  - intros i f Hi. destruct (chain_lookup _ _ Hi) as (c & Hc & ->). apply StoredWal.
    + unfold store_path, queue_to_store_path. pose proof store_ext as He.
      assert (uintn_wf (uid (lo + Z.of_nat i))) as Hwf.
      { apply lookup_lt_Some in Hc. unfold zlen in Hhi. apply ok_wf, canonical_ok, uid_spec. lia. }
      rewrite (file_path_base _ _ _ Hwf He). eapply (wo_store _ _ Hw). apply strip_prefix_l_app.
    + apply (wo_ranges _ _ Hw).
    + rewrite <- (chain_path _ _ _ _ _ Hchain Hc Hlo Hhi). apply (wo_files _ _ Hw).
      change (qf_bytes (chain_file c)) with (snd (file_entry wal_dir c)).
      rewrite <- surjective_pairing. apply in_map, list_elem_of_In, list_elem_of_lookup. by exists i.
  - intros p r Hp Hr. destruct (chain_in closed p) as (i & c & Hi & ->); [by eapply (wo_wal _ _ Hw)|].
    pose proof (lookup_lt_Some _ _ _ Hi). unfold zlen in Hhi.
    destruct (uid_spec (lo + Z.of_nat i)) as [Huc Huv]; [lia|].
    exists (uid (lo + Z.of_nat i)). split_and!; [done|lia|].
    apply (chain_path _ _ _ _ _ Hchain Hi Hlo Hhi).
  - intros p r Hp Hr. rewrite (wo_store _ _ Hw _ _ Hr) in Hp. by destruct Hp.
  - intros x Hx [Hp|Hp]; [by apply present_in_chain|].
    pose proof store_ext as He. unfold store_path, queue_to_store_path in Hp.
    rewrite (file_path_base x store_dir _ (ok_wf _ (canonical_ok _ Hx)) He) in Hp.
    rewrite (wo_store _ _ Hw _ (uintn_to_file_path x [] (s2l "store"))) in Hp
      by apply strip_prefix_l_app. by destruct Hp.
  - split; apply (wo_io _ _ Hw).
  - intros x. split; apply (wo_io _ _ Hw).
Qed.

End OnDisk.

(** *** A directory that holds these files alone *)

Definition disk_with (files : list (str * bytes)) : store_state :=
  {| st_files := list_to_map files; st_tmp := []; st_ranges := ∅; st_done := [] |}.

Lemma chain_nodup : NoDup (map fst (map (file_entry wal_dir) closed)).
Proof.
  apply NoDup_alt. intros i j p Hi Hj. rewrite !list_lookup_fmap in Hi, Hj.
  destruct (closed !! i) as [c|] eqn:Ei; [|done]. destruct (closed !! j) as [d|] eqn:Ej; [|done].
  cbn [fmap option_fmap option_map] in Hi, Hj. injection Hi as <-. injection Hj as Hj.
  change (fst (file_entry wal_dir d) = fst (file_entry wal_dir c)) in Hj.
  rewrite (chain_path _ _ _ _ _ Hchain Ei Hlo Hhi), (chain_path _ _ _ _ _ Hchain Ej Hlo Hhi) in Hj.
  apply lookup_lt_Some in Ei, Ej. unfold zlen in Hhi.
  destruct (uid_spec (lo + Z.of_nat i)) as [Hc Hv]; [lia|].
  destruct (uid_spec (lo + Z.of_nat j)) as [Hc' Hv']; [lia|].
  apply file_path_inj in Hj; [lia|by apply ok_wf, canonical_ok..|apply wal_ext].
Qed.

Lemma store_dir_apart r : strip_prefix_l (base_prefix store_dir) (base_prefix wal_dir ++ r) = None.
Proof. apply dirs_apart. Qed.

Lemma wal_only_disk_with : (forall p, se_io env p = false) ->
  wal_only closed (disk_with (map (file_entry wal_dir) closed)).
Proof.
  intros Hio. split; try done; cbn [disk_with st_files].
  - intros p c Hin. apply elem_of_list_to_map_1; [apply chain_nodup|by apply list_elem_of_In].
  - intros p r [c Hp] _. apply elem_of_list_to_map_2, list_elem_of_In in Hp.
    by apply (in_map fst) in Hp.
  - intros p r Hr. apply not_elem_of_list_to_map_1. intros Hp%list_elem_of_In.
    destruct (chain_in closed p Hp) as (i & c & Hi & ->).
    destruct (chain_at _ _ _ _ _ Hchain Hi) as (Hok & _).
    unfold file_entry in Hr. cbn [fst] in Hr.
    rewrite (file_path_base _ _ _ (ok_wf _ Hok) wal_ext), store_dir_apart in Hr. done.
Qed.

End WalLayout.
