(* ===== verification/Mem.v ===== *)
(** * The memory store ([normfs/src/mem/mod.rs])

    The newest entries of a queue stay in memory until they are acknowledged
    and memory is short; reads and subscriptions are served from there when
    they can. *)
From Stdlib Require Import ZArith Lia List Bool.
From Stdlib Require Import Ascii String.
From stdpp Require Import base option list gmap strings.
From S2P Require Import Prelude UBig UintN UintNFacts Types WalFormat WalReader.
#[local] Open Scope Z_scope.

Section Mem.
Context {B : Build} {U : UBig}.

(** [struct MemReadResult] *)
Record mem_read_result := {
  mr_success : bool;
  mr_start_id : option uintn;
  mr_subscription_id : option nat;
}.

Definition mem_fail : mem_read_result :=
  {| mr_success := false; mr_start_id := None; mr_subscription_id := None |}.

(** [struct Inner] *)
Record mem_inner := {
  mi_entries : list (uintn * bytes);
  mi_last_id : option uintn;
  mi_first_id : option uintn;
  mi_last_acked_id : option uintn;
  mi_memory_usage : Z;
}.

(** The callbacks kept by a queue: the closure of a follow (what it captures),
    or a callback of the application (what it was called with, and its next
    answers). *)
Inductive subscriber :=
| SubFollow (last_sent_id : option uintn) (from_id : uintn) (step : Z) (target_chan : channel)
| SubCallback (seen : list (list (uintn * bytes))) (answers : list bool).

(** [struct MemQueue] *)
Record mem_queue := {
  mq_inner : mem_inner;
  mq_max_memory_usage : Z;
  mq_subscribers : list (nat * subscriber);
  mq_next_subscriber_id : nat;
}.

Definition mem_queue_new (last_id : option uintn) (max_memory_usage : Z) : mem_queue :=
  {| mq_inner := {| mi_entries := []; mi_last_id := last_id; mi_first_id := None;
                    mi_last_acked_id := None; mi_memory_usage := 0 |};
     mq_max_memory_usage := max_memory_usage; mq_subscribers := [];
     mq_next_subscriber_id := 0 |}.

(** ** Cleaning *)

Definition data_size (es : list (uintn * bytes)) : Z := foldr (fun e n => zlen (snd e) + n) 0 es.

(** The number of leading entries up to the acknowledged id. *)
Fixpoint count_acked (last_acked_id : uintn) (es : list (uintn * bytes)) : nat :=
  match es with
  | [] => 0
  | e :: es => if uintn_leb (fst e) last_acked_id then S (count_acked last_acked_id es) else 0
  end.

Definition cleanup_unlocked (max_memory_usage : Z) (inner : mem_inner) : mem_inner :=
  if decide (mi_memory_usage inner <= max_memory_usage) then inner
  else match mi_last_acked_id inner with
  | None => inner
  | Some last_acked_id =>
      let to_remove := count_acked last_acked_id (mi_entries inner) in
      if decide (0 < to_remove)%nat then
        let memory_removed := data_size (take to_remove (mi_entries inner)) in
        let entries := drop to_remove (mi_entries inner) in
        {| mi_entries := entries; mi_last_id := mi_last_id inner;
           mi_first_id := option_map fst (head entries);
           mi_last_acked_id := mi_last_acked_id inner;
           mi_memory_usage := mi_memory_usage inner - memory_removed |}
      else inner
  end.

(** ** Notifying *)

(** The closure of [follow_full]: whether it wants to stay.  [try_send] fails
    when the receiver is gone and also when the channel is full: [ch_life] of the
    channel counts the sends until the first failure of either kind. *)
Fixpoint follow_callback (last_sent_id : option uintn) (from_id : uintn) (step : Z)
    (entries : list (uintn * bytes)) (ch : channel) : outcome unit (bool * channel) :=
  match entries with
  | [] => Ok (true, ch)
  | (id, data) :: entries =>
      let seen := match last_sent_id with Some l => uintn_leb id l | None => false end in
      if seen then follow_callback last_sent_id from_id step entries ch
      else match uintn_in_step id from_id step with
      | Ok false => follow_callback last_sent_id from_id step entries ch
      | Ok true =>
          match ch_send {| re_id := id; re_data := data; re_source := DSMemory |} ch with
          | Some ch => follow_callback last_sent_id from_id step entries ch
          | None => Ok (false, ch)
          end
      | _ => Panic
      end
  end.

Definition run_subscriber (entries : list (uintn * bytes)) (s : subscriber)
    : outcome unit (bool * subscriber) :=
  match s with
  | SubFollow last_sent_id from_id step ch =>
      '(stay, ch) ← follow_callback last_sent_id from_id step entries ch;
      Ok (stay, SubFollow last_sent_id from_id step ch)
  | SubCallback seen answers =>
      Ok (default true (head answers), SubCallback (seen ++ [entries]) (tail answers))
  end.

(** [notify_subscribers]: every callback runs, the ones that answer [false] are
    removed. *)
Fixpoint notify_subscribers (entries : list (uintn * bytes)) (subs : list (nat * subscriber))
    : outcome unit (list (nat * subscriber)) :=
  match subs with
  | [] => Ok []
  | (id, s) :: subs =>
      '(stay, s) ← run_subscriber entries s;
      rest ← notify_subscribers entries subs;
      Ok (if (stay : bool) then (id, s) :: rest else rest)
  end.

(** ** Enqueuing *)

Definition next_id (inner : mem_inner) : uintn :=
  match mi_last_id inner with None => uintn_zero | Some id => uintn_increment id end.

(** The loop of [enqueue_batch]: the ids, the entries with them. *)
Fixpoint number_entries (next_id : uintn) (entries : list bytes) : list (uintn * bytes) :=
  match entries with
  | [] => []
  | data :: entries => (next_id, data) :: number_entries (uintn_increment next_id) entries
  end.

Definition push_entries (inner : mem_inner) (new : list (uintn * bytes)) (last : option uintn)
    (first : uintn) : mem_inner :=
  {| mi_entries := mi_entries inner ++ new;
     mi_last_id := match last with Some l => Some l | None => mi_last_id inner end;
     mi_first_id := match mi_first_id inner with None => Some first | Some f => Some f end;
     mi_last_acked_id := mi_last_acked_id inner;
     mi_memory_usage := mi_memory_usage inner + data_size new |}.

Definition set_inner (self : mem_queue) (inner : mem_inner) (subs : list (nat * subscriber))
    : mem_queue :=
  {| mq_inner := inner; mq_max_memory_usage := mq_max_memory_usage self;
     mq_subscribers := subs; mq_next_subscriber_id := mq_next_subscriber_id self |}.

(** [enqueue] in two steps, as the locks divide it.  The first holds [inner]; in
    it the method also looks whether there are subscribers, and clones the data
    for them. *)
Definition mq_number (self : mem_queue) (data : bytes)
    : mem_queue * uintn * option (list (uintn * bytes)) :=
  let inner := mq_inner self in
  let id := next_id inner in
  let inner := push_entries inner [(id, data)] (Some id) id in
  let inner := cleanup_unlocked (mq_max_memory_usage self) inner in
  (set_inner self inner (mq_subscribers self), id,
   if bool_decide (mq_subscribers self = []) then None else Some [(id, data)]).

(** The second, after [drop(inner)], calls those that are subscribed by then. *)
Definition mq_notify (self : mem_queue) (entries : list (uintn * bytes)) : outcome unit mem_queue :=
  subs ← notify_subscribers entries (mq_subscribers self);
  Ok (set_inner self (mq_inner self) subs).

Definition mq_notify_data (self : mem_queue) (data : option (list (uintn * bytes)))
    : outcome unit mem_queue :=
  match data with Some entries => mq_notify self entries | None => Ok self end.

Definition mq_enqueue (self : mem_queue) (data : bytes) : outcome unit (mem_queue * uintn) :=
  let '(self, id, subscribers_data) := mq_number self data in
  self ← mq_notify_data self subscribers_data;
  Ok (self, id).

(** [enqueue_batch], of a batch that is not empty, in the same two steps. *)
Definition mq_number_batch (self : mem_queue) (entries : list bytes)
    : mem_queue * list uintn * option (list (uintn * bytes)) :=
  let inner := mq_inner self in
  let first := next_id inner in
  let numbered := number_entries first entries in
  let ids := map fst numbered in
  let inner := push_entries inner numbered (last ids) first in
  let inner := cleanup_unlocked (mq_max_memory_usage self) inner in
  (set_inner self inner (mq_subscribers self), ids,
   if bool_decide (mq_subscribers self = []) then None else Some numbered).

Definition mq_enqueue_batch (self : mem_queue) (entries : list bytes)
    : outcome unit (mem_queue * list uintn) :=
  if bool_decide (entries = []) then Ok (self, [])
  else
    let '(self, ids, entries_with_ids) := mq_number_batch self entries in
    self ← mq_notify_data self entries_with_ids;
    Ok (self, ids).

Definition mq_get_last_id (self : mem_queue) : option uintn := mi_last_id (mq_inner self).

Definition mq_ack (self : mem_queue) (id : uintn) : mem_queue :=
  let inner := mq_inner self in
  let acked := match mi_last_acked_id inner with
               | None => Some id
               | Some last => if uintn_ltb last id then Some id else Some last
               end in
  let inner := {| mi_entries := mi_entries inner; mi_last_id := mi_last_id inner;
                  mi_first_id := mi_first_id inner; mi_last_acked_id := acked;
                  mi_memory_usage := mi_memory_usage inner |} in
  set_inner self (cleanup_unlocked (mq_max_memory_usage self) inner) (mq_subscribers self).

(** ** Reading *)

(** The inner [while current_id < entry.id] loop; [None]: more than [fuel]
    turns. *)
Fixpoint advance (fuel : nat) (step : Z) (end_id : option uintn) (target current_id : uintn)
    : option uintn :=
  match fuel with
  | O => None
  | S fuel =>
      if uintn_ltb current_id target then
        let current_id := uintn_step_by current_id step in
        let past := match end_id with Some e => uintn_ltb e current_id | None => false end in
        if past then Some current_id else advance fuel step end_id target current_id
      else Some current_id
  end.

(** The turns a positive step can need. *)
Definition advance_fuel (target current_id : uintn) : nat :=
  S (Z.to_nat (uintn_val target - uintn_val current_id)).

(** The [for] loops of the four readers: [end_id] for [read_full], [limit]
    (0: none) for [read_full_negative]. *)
Fixpoint collect (end_id : option uintn) (limit : Z) (step : Z) (es : list (uintn * bytes))
    (current_id : uintn) (count : Z) : option (list (uintn * bytes)) :=
  match es with
  | [] => Some []
  | (id, data) :: es =>
      let past := match end_id with Some e => uintn_ltb e id | None => false end in
      if past || ((0 <? limit) && (limit <=? count)) then Some []
      else
        match advance (advance_fuel id current_id) step end_id id current_id with
        | None => None
        | Some current_id =>
            if uintn_eqb current_id id then
              match collect end_id limit step es (uintn_step_by current_id step) (count + 1) with
              | Some rest => Some ((id, data) :: rest)
              | None => None
              end
            else collect end_id limit step es current_id count
        end
  end.

Fixpoint skip_before (start_id : uintn) (es : list (uintn * bytes)) : list (uintn * bytes) :=
  match es with
  | [] => []
  | e :: r => if uintn_ltb (fst e) start_id then skip_before start_id r else es
  end.

(** [for (id, data) in entries_to_send]: false when the channel closed. *)
Fixpoint send_all (es : list (uintn * bytes)) (ch : channel) : bool * channel :=
  match es with
  | [] => (true, ch)
  | (id, data) :: es =>
      match ch_send {| re_id := id; re_data := data; re_source := DSMemory |} ch with
      | Some ch => send_all es ch
      | None => (false, ch)
      end
  end.

Definition mem_answer (success : bool) (start_id : option uintn) (sub : option nat)
    : mem_read_result :=
  {| mr_success := success; mr_start_id := start_id; mr_subscription_id := sub |}.

(** [None]: the read does not end. *)
Definition mq_read_full (self : mem_queue) (start_id end_id : uintn) (step : Z) (ch : channel)
    : option (mem_read_result * channel) :=
  let inner := mq_inner self in
  match mi_last_id inner with
  | None => Some (mem_answer true None None, ch)
  | Some mem_last_id =>
      if uintn_ltb mem_last_id start_id then Some (mem_answer true None None, ch)
      else match mi_first_id inner with
      | None => Some (mem_fail, ch)
      | Some mem_start_id =>
          if uintn_ltb start_id mem_start_id then Some (mem_fail, ch)
          else
            match collect (Some end_id) 0 step (skip_before start_id (mi_entries inner))
                    start_id 0 with
            | None => None
            | Some entries_to_send =>
                Some (mem_answer true None None, snd (send_all entries_to_send ch))
            end
      end
  end.

(** [last_id - offset], or zero. *)
Definition tail_start (last_id offset : uintn) : outcome unit uintn :=
  if uintn_ltb last_id offset then Ok uintn_zero
  else match uintn_sub last_id offset with
       | Ok x => Ok x
       | Err _ => Ok uintn_zero
       | Panic => Panic
       end.

Definition mq_read_full_negative (self : mem_queue) (offset : uintn) (step limit : Z)
    (ch : channel) : option (outcome unit (mem_read_result * channel)) :=
  let inner := mq_inner self in
  match mi_last_id inner with
  | None => Some (Ok (mem_answer true (Some uintn_zero) None, ch))
  | Some last_id =>
      match tail_start last_id offset with
      | Ok start_id =>
          let failed := Some (Ok (mem_answer false (Some start_id) None, ch)) in
          match mi_first_id inner with
          | None => failed
          | Some mem_start_id =>
              if uintn_ltb start_id mem_start_id then failed
              else match collect None limit step (skip_before start_id (mi_entries inner))
                           start_id 0 with
              | None => None
              | Some [] => failed
              | Some entries_to_send =>
                  let '(sent, ch) := send_all entries_to_send ch in
                  Some (Ok (mem_answer sent (Some start_id) None, ch))
              end
          end
      | _ => Some Panic
      end
  end.

(** Inserting the subscription: the id is taken first. *)
Definition add_subscriber (self : mem_queue) (s : subscriber) : mem_queue * nat :=
  let id := mq_next_subscriber_id self in
  ({| mq_inner := mq_inner self; mq_max_memory_usage := mq_max_memory_usage self;
      mq_subscribers := mq_subscribers self ++ [(id, s)];
      mq_next_subscriber_id := S id |}, id).

(** The follows in two steps, as the locks divide them.  The first takes what is
    to be sent, and the last id of it, from [inner]; what a follow then does is
    to send it and to insert the subscription. *)
Record follow_plan := {
  fp_start_id : option uintn;
  fp_from_id : uintn;
  fp_step : Z;
  fp_entries : list (uintn * bytes);
  fp_last_sent_id : option uintn;
}.

(** It may also be over at once: [inl].  [None]: it does not end. *)
Definition mq_follow_snapshot (self : mem_queue) (from_id start_id : uintn) (step : Z)
    : option (mem_read_result + follow_plan) :=
  let inner := mq_inner self in
  let plan entries_to_send last_sent_id :=
    {| fp_start_id := None; fp_from_id := from_id; fp_step := step; fp_entries := entries_to_send;
       fp_last_sent_id := last_sent_id |} in
  match mi_first_id inner with
  | Some mem_start_id =>
      if uintn_ltb start_id mem_start_id then Some (inl mem_fail)
      else match collect None 0 step (skip_before start_id (mi_entries inner)) start_id 0 with
      | None => None
      | Some entries => Some (inr (plan entries (option_map fst (last entries))))
      end
  | None => Some (inr (plan [] None))
  end.

(** The entries go to the channel of the caller alone, so they are sent in the
    step that inserts the subscription.  The subscriber starts from the channel as
    the read left it. *)
Definition mq_follow_insert (self : mem_queue) (plan : follow_plan) (ch : channel)
    : mem_queue * mem_read_result * channel :=
  let '(sent, ch) := send_all (fp_entries plan) ch in
  if (sent : bool) then
    let '(self, id) :=
      add_subscriber self (SubFollow (fp_last_sent_id plan) (fp_from_id plan) (fp_step plan) ch) in
    (self, mem_answer true (fp_start_id plan) (Some id), ch)
  else (self, mem_answer false (fp_start_id plan) None, ch).

Definition mq_follow_full (self : mem_queue) (from_id start_id : uintn) (step : Z)
    (ch : channel) : option (mem_queue * mem_read_result * channel) :=
  match mq_follow_snapshot self from_id start_id step with
  | None => None
  | Some (inl result) => Some (self, result, ch)
  | Some (inr plan) => Some (mq_follow_insert self plan ch)
  end.

Definition mq_tail_snapshot (self : mem_queue) (offset : uintn) (step : Z)
    : option (outcome unit (mem_read_result + follow_plan)) :=
  let inner := mq_inner self in
  let plan start_id entries last_sent_id :=
    {| fp_start_id := Some start_id; fp_from_id := start_id; fp_step := step; fp_entries := entries;
       fp_last_sent_id := last_sent_id |} in
  if uintn_eqb offset uintn_zero then
    let from_id := match mi_last_id inner with
                   | Some id => uintn_add id (uintn_from_u64 1)
                   | None => uintn_zero
                   end in
    Some (Ok (inr (plan from_id [] (mi_last_id inner))))
  else match mi_last_id inner with
  | None => Some (Ok (inl (mem_answer true (Some uintn_zero) None)))
  | Some last_id =>
      match tail_start last_id offset with
      | Ok start_id =>
          let failed := Some (Ok (inl (mem_answer false (Some start_id) None))) in
          match mi_first_id inner with
          | None => failed
          | Some mem_start_id =>
              if uintn_ltb start_id mem_start_id then failed
              else match collect None 0 step (skip_before start_id (mi_entries inner))
                           start_id 0 with
              | None => None
              | Some entries => Some (Ok (inr (plan start_id entries (option_map fst (last entries)))))
              end
          end
      | _ => Some Panic
      end
  end.

Definition mq_follow_full_negative (self : mem_queue) (offset : uintn) (step : Z)
    (ch : channel) : option (outcome unit (mem_queue * mem_read_result * channel)) :=
  match mq_tail_snapshot self offset step with
  | None => None
  | Some (Ok (inl result)) => Some (Ok (self, result, ch))
  | Some (Ok (inr plan)) => Some (Ok (mq_follow_insert self plan ch))
  | Some _ => Some Panic
  end.

Definition mq_subscribe (self : mem_queue) (answers : list bool) : mem_queue * nat :=
  add_subscriber self (SubCallback [] answers).

Definition mq_unsubscribe (self : mem_queue) (subscriber_id : nat) : mem_queue :=
  set_inner self (mq_inner self)
    (List.filter (fun s => negb (bool_decide (fst s = subscriber_id))) (mq_subscribers self)).

(** ** [MemStore] *)

Record mem_store := {
  ms_queues : gmap str mem_queue;
  ms_max_memory_usage : Z;
}.

Definition mem_store_new (max_memory_usage : Z) : mem_store :=
  {| ms_queues := ∅; ms_max_memory_usage := max_memory_usage |}.

Definition set_queue (self : mem_store) (queue : queue_id) (q : mem_queue) : mem_store :=
  {| ms_queues := <[qid_path queue := q]> (ms_queues self);
     ms_max_memory_usage := ms_max_memory_usage self |}.

Definition ms_start_queue (self : mem_store) (queue : queue_id) (last_id : option uintn)
    : mem_store :=
  match ms_queues self !! qid_path queue with
  | Some _ => self
  | None =>
      let queue_max_memory :=
        ms_max_memory_usage self / Z.max (Z.of_nat (size (ms_queues self))) 1 in
      set_queue self queue (mem_queue_new last_id queue_max_memory)
  end.

(** [expect("queue not setup")] panics without the queue. *)
Definition ms_enqueue (self : mem_store) (queue : queue_id) (data : bytes)
    : outcome unit (mem_store * uintn) :=
  match ms_queues self !! qid_path queue with
  | None => Panic
  | Some q => '(q, id) ← mq_enqueue q data; Ok (set_queue self queue q, id)
  end.

Definition ms_enqueue_batch (self : mem_store) (queue : queue_id) (entries : list bytes)
    : outcome unit (mem_store * list uintn) :=
  match ms_queues self !! qid_path queue with
  | None => Panic
  | Some q => '(q, ids) ← mq_enqueue_batch q entries; Ok (set_queue self queue q, ids)
  end.

Definition ms_get_last_id (self : mem_store) (queue : queue_id) : option (option uintn) :=
  option_map mq_get_last_id (ms_queues self !! qid_path queue).

Definition ms_ack (self : mem_store) (queue : queue_id) (id : uintn) : mem_store :=
  match ms_queues self !! qid_path queue with
  | None => self
  | Some q => set_queue self queue (mq_ack q id)
  end.

Definition ms_read_full (self : mem_store) (queue : queue_id) (start_id end_id : uintn)
    (step : Z) (ch : channel) : option (mem_read_result * channel) :=
  match ms_queues self !! qid_path queue with
  | Some q => mq_read_full q start_id end_id step ch
  | None => Some (mem_fail, ch)
  end.

Definition ms_follow_full (self : mem_store) (queue : queue_id) (from_id start_id : uintn)
    (step : Z) (ch : channel) : option (mem_store * mem_read_result * channel) :=
  match ms_queues self !! qid_path queue with
  | Some q =>
      match mq_follow_full q from_id start_id step ch with
      | Some (q, r, ch) => Some (set_queue self queue q, r, ch)
      | None => None
      end
  | None => Some (self, mem_fail, ch)
  end.

Definition ms_read_full_negative (self : mem_store) (queue : queue_id) (offset : uintn)
    (step limit : Z) (ch : channel) : option (outcome unit (mem_read_result * channel)) :=
  match ms_queues self !! qid_path queue with
  | Some q => mq_read_full_negative q offset step limit ch
  | None => Some (Ok (mem_fail, ch))
  end.

Definition ms_follow_full_negative (self : mem_store) (queue : queue_id) (offset : uintn)
    (step : Z) (ch : channel) : option (outcome unit (mem_store * mem_read_result * channel)) :=
  match ms_queues self !! qid_path queue with
  | Some q =>
      match mq_follow_full_negative q offset step ch with
      | Some (Ok (q, r, ch)) => Some (Ok (set_queue self queue q, r, ch))
      | Some _ => Some Panic
      | None => None
      end
  | None => Some (Ok (self, mem_fail, ch))
  end.

Definition ms_subscribe (self : mem_store) (queue : queue_id) (answers : list bool)
    : mem_store * option nat :=
  match ms_queues self !! qid_path queue with
  | Some q => let '(q, id) := mq_subscribe q answers in (set_queue self queue q, Some id)
  | None => (self, None)
  end.

Definition ms_unsubscribe (self : mem_store) (queue : queue_id) (subscriber_id : nat)
    : mem_store :=
  match ms_queues self !! qid_path queue with
  | Some q => set_queue self queue (mq_unsubscribe q subscriber_id)
  | None => self
  end.

End Mem.
