(* ===== verification/MemFacts.v ===== *)
(** * Theory of the memory store

    The entries in memory are the newest ones, without a gap; only acknowledged
    ones are dropped; a read delivers exactly the entries asked for. *)
From Stdlib Require Import ZArith Lia List Bool Sorted.
From Stdlib Require Import Ascii String.
From stdpp Require Import base option list gmap strings sorting.
From S2P Require Import Prelude UBig UintN UintNFacts Paths PathsFacts Types WalFormat WalReader.
From S2P Require Import WalReaderFacts OrderedBuffer WalWriter WalWriterFacts Mem.
#[local] Open Scope Z_scope.

Section Facts.
Context {B : Build} {U : UBig}.

Abbreviation ids_sorted := (StronglySorted id_lt).

(** ** The invariant *)

Record mem_inv (inner : mem_inner) : Prop := {
  mv_ids : Forall (fun e => uintn_ok (fst e)) (mi_entries inner);
  mv_last_ok : last_ok (mi_last_id inner);
  mv_acked_ok : last_ok (mi_last_acked_id inner);
  mv_first : mi_first_id inner = option_map fst (head (mi_entries inner));
  mv_consecutive :
    consecutive (next_after (mi_last_id inner) - zlen (mi_entries inner)) (mi_entries inner);
  mv_memory : mi_memory_usage inner = data_size (mi_entries inner);
}.

Lemma data_size_app l k : data_size (l ++ k) = data_size l + data_size k.
Proof. induction l as [|e l IH]; simpl; [done|]. lia. Qed.

Lemma data_size_nonneg l : 0 <= data_size l.
Proof. induction l as [|e l IH]; simpl; [done|]. pose proof (zlen_nonneg (snd e)). lia. Qed.

Lemma mem_new_inv last_id max : last_ok last_id -> mem_inv (mq_inner (mem_queue_new last_id max)).
Proof. intros H. by split; simpl. Qed.

Lemma next_id_spec inner : last_ok (mi_last_id inner) ->
  uintn_ok (next_id inner) /\ uintn_val (next_id inner) = next_after (mi_last_id inner).
Proof.
  unfold next_id. destruct (mi_last_id inner) as [l|]; intros H; [by apply increment_spec|done].
Qed.

(** ** Cleaning *)

Lemma count_acked_spec a es : uintn_ok a -> Forall (fun e => uintn_ok (fst e)) es ->
  Forall (fun e => uintn_val (fst e) <= uintn_val a) (take (count_acked a es) es) /\
  match head (drop (count_acked a es) es) with
  | Some e => uintn_val a < uintn_val (fst e)
  | None => True
  end.
Proof.
  intros Ha Hes. induction Hes as [|e es He Hes IH]; [by simpl|]. cbn [count_acked].
  rewrite leb_spec_val by (apply He || apply Ha).
  destruct (Z.leb_spec (uintn_val (fst e)) (uintn_val a)); simpl.
  - destruct IH. split; [by constructor|done].
  - split; [constructor|done].
Qed.

(** Cleaning keeps the invariant, drops only acknowledged entries, and stops
    only when memory is within bounds or no acknowledged entry is left. *)
Lemma cleanup_spec max inner : mem_inv inner ->
  let inner' := cleanup_unlocked max inner in
  mem_inv inner' /\ mi_last_id inner' = mi_last_id inner /\
  mi_last_acked_id inner' = mi_last_acked_id inner /\
  exists dropped, mi_entries inner = dropped ++ mi_entries inner' /\
    Forall (fun e => match mi_last_acked_id inner with
                     | Some a => uintn_val (fst e) <= uintn_val a
                     | None => False end) dropped /\
    (mi_memory_usage inner' <= max \/
     match mi_last_acked_id inner, head (mi_entries inner') with
     | Some a, Some e => uintn_val a < uintn_val (fst e)
     | _, _ => True
     end).
Proof.
  intros Hinv. cbn zeta. unfold cleanup_unlocked. case_decide as Hmem.
  { split_and!; try done. exists []. split_and!; [done|constructor|by left]. }
  destruct (mi_last_acked_id inner) as [a|] eqn:Ha.
  2:{ split_and!; try done. exists []. split_and!; [done|constructor|by right]. }
  pose proof (mv_acked_ok _ Hinv) as Hao. rewrite Ha in Hao. simpl in Hao.
  pose proof (count_acked_spec a (mi_entries inner) Hao (mv_ids _ Hinv)) as [Hdr Hst].
  set (k := count_acked a (mi_entries inner)) in *. case_decide as Hk.
  2:{ split_and!; try done. exists []. assert (k = 0%nat) as Hk0 by lia. rewrite Hk0 in Hst.
      split_and!; [done|constructor|right; exact Hst]. }
  pose proof (take_drop k (mi_entries inner)) as Htd. destruct Hinv.
  split_and!; try done.
  - split; cbn [mi_entries mi_last_id mi_first_id mi_last_acked_id mi_memory_usage]; try done.
    + by apply Forall_drop.
    + rewrite <- Htd in mv_consecutive0 at 2. apply consecutive_app in mv_consecutive0 as [_ Hc].
      rewrite <- Htd in Hc at 1. rewrite zlen_app in Hc.
      replace (next_after (mi_last_id inner) - zlen (drop k (mi_entries inner))) with
        (next_after (mi_last_id inner) - (zlen (take k (mi_entries inner)) +
          zlen (drop k (mi_entries inner))) + zlen (take k (mi_entries inner))) by lia. done.
    + rewrite mv_memory0. rewrite <- Htd at 1. rewrite data_size_app. lia.
  - exists (take k (mi_entries inner)). split_and!; [done|done|]. right. exact Hst.
Qed.

(** ** Enqueuing *)

Lemma number_entries_spec n ds : uintn_ok n ->
  Forall (fun e => uintn_ok (fst e)) (number_entries n ds) /\
  consecutive (uintn_val n) (number_entries n ds) /\ map snd (number_entries n ds) = ds.
Proof.
  revert n. induction ds as [|d ds IH]; intros n Hn; [done|].
  destruct (increment_spec n Hn) as [Hi Hv]. destruct (IH _ Hi) as (H1 & H2 & H3).
  rewrite Hv in H2. cbn [number_entries map snd]. rewrite H3. split_and!; [by constructor|done|done].
Qed.

Lemma zlen_number n ds : zlen (number_entries n ds) = zlen ds.
Proof. revert n. induction ds as [|d ds IH]; intros n; [done|]. simpl. by rewrite !zlen_cons, IH. Qed.

Lemma last_number n d ds : uintn_ok n -> exists l,
  last (map fst (number_entries n (d :: ds))) = Some l /\ uintn_ok l /\
  uintn_val l = uintn_val n + zlen ds.
Proof.
  revert n d. induction ds as [|d' ds IH]; intros n d Hn.
  - exists n. split_and!; [done|done|]. rewrite zlen_nil. lia.
  - destruct (increment_spec n Hn) as [Hi Hv]. destruct (IH _ d' Hi) as (l & Hl & Ho & Hlv).
    exists l. split_and!; [|done|rewrite zlen_cons; lia].
    cbn [number_entries map] in *. rewrite last_cons. by rewrite Hl.
Qed.

Lemma push_inv inner ds d : mem_inv inner ->
  mem_inv (push_entries inner (number_entries (next_id inner) (d :: ds))
    (last (map fst (number_entries (next_id inner) (d :: ds)))) (next_id inner)).
Proof.
  intros []. destruct (next_id_spec inner mv_last_ok0) as [Hno Hnv].
  destruct (number_entries_spec _ (d :: ds) Hno) as (Hids & Hcons & _).
  destruct (last_number _ d ds Hno) as (l & Hl & Hlo & Hlv). rewrite Hl.
  unfold push_entries. split; cbn [mi_entries mi_last_id mi_first_id mi_last_acked_id
    mi_memory_usage next_after]; try done.
  - apply Forall_app. done.
  - rewrite mv_first0. by destruct (mi_entries inner).
  - rewrite zlen_app, zlen_number, zlen_cons, Hlv, Hnv in *. apply consecutive_app. split.
    + replace (next_after (mi_last_id inner) + zlen ds + 1 - (zlen (mi_entries inner) + (1 + zlen ds)))
        with (next_after (mi_last_id inner) - zlen (mi_entries inner)) by lia. done.
    + replace (next_after (mi_last_id inner) + zlen ds + 1 - (zlen (mi_entries inner) + (1 + zlen ds))
        + zlen (mi_entries inner)) with (next_after (mi_last_id inner)) by lia. done.
  - rewrite mv_memory0, data_size_app. done.
Qed.

(** ** Collecting *)

Section Collect.
Context (start : uintn) (until : option uintn) (step : Z).
Hypothesis Hstart : uintn_ok start.
Hypothesis Huntil : opt_ok until.
Hypothesis Hstep : in_u 64 step /\ 1 <= step.

(** The progression [start, start + step, ...]. *)
Definition on_step (v : Z) : Prop := uintn_val start <= v /\ (v - uintn_val start) mod step = 0.

Lemma on_step_next v : on_step v -> on_step (v + step).
Proof.
  intros [Hge Hm]. split; [lia|].
  replace (v + step - uintn_val start) with (v - uintn_val start + 1 * step) by lia.
  by rewrite Z_mod_plus_full.
Qed.

(** No point of the progression lies strictly between two neighbours. *)
Lemma on_step_gap v w : on_step v -> on_step w -> v - step < w -> w <= v -> w = v.
Proof.
  intros [_ Hv] [_ Hw] Hlt Hle.
  pose proof (Z.div_mod (v - uintn_val start) step) as Ev.
  pose proof (Z.div_mod (w - uintn_val start) step) as Ew.
  rewrite Hv in Ev. rewrite Hw in Ew.
  assert ((w - uintn_val start) / step = (v - uintn_val start) / step) as E; [|lia].
  assert (step * ((v - uintn_val start) / step - (w - uintn_val start) / step) < step) by lia.
  assert (0 <= step * ((v - uintn_val start) / step - (w - uintn_val start) / step)) by lia. nia.
Qed.

Lemma advance_spec fuel target cur : uintn_ok target -> uintn_ok cur ->
  (Z.to_nat (uintn_val target - uintn_val cur) < fuel)%nat -> on_step (uintn_val cur) ->
  uintn_val cur - step < uintn_val target ->
  match until with Some e => uintn_val target <= uintn_val e | None => True end ->
  exists c, advance fuel step until target cur = Some c /\ uintn_ok c /\ on_step (uintn_val c) /\
    uintn_val target <= uintn_val c /\ uintn_val c - step < uintn_val target.
Proof.
  revert cur. induction fuel as [|fuel IH]; intros cur Ht Hc Hf Hon Hlt Hu; [lia|].
  cbn [advance]. rewrite ltb_spec_val by (apply Hc || apply Ht).
  destruct (Z.ltb_spec (uintn_val cur) (uintn_val target)) as [Hl|Hl].
  2:{ exists cur. split_and!; done. }
  destruct (step_by_spec cur step Hc (proj1 Hstep)) as [Hso Hsv]. cbn zeta.
  assert (on_step (uintn_val (uintn_step_by cur step))) as Hon'
    by (rewrite Hsv; by apply on_step_next).
  destruct until as [e|].
  - rewrite ltb_spec_val by (apply Huntil || apply Hso).
    destruct (Z.ltb_spec (uintn_val e) (uintn_val (uintn_step_by cur step))) as [Hp|Hp].
    + exists (uintn_step_by cur step). rewrite Hsv in *. split_and!; try done; lia.
    + apply IH; try done; rewrite ?Hsv; lia.
  - apply IH; try done; rewrite ?Hsv; lia.
Qed.

Definition limited (limit count : Z) (l : list (uintn * bytes)) : list (uintn * bytes) :=
  if decide (0 < limit) then take (Z.to_nat (limit - count)) l else l.

Lemma selected_on_step e : uintn_val start <= uintn_val (fst e) ->
  match until with Some u => uintn_val (fst e) <= uintn_val u | None => True end ->
  selected start until step e = true <-> on_step (uintn_val (fst e)).
Proof.
  intros Hs Hu. unfold selected, on_step. rewrite bool_decide_true by done. cbn [andb].
  assert (match until with Some u => bool_decide (uintn_val (fst e) <= uintn_val u)
    | None => true end = true) as -> by (destruct until; [by apply bool_decide_true|done]).
  cbn [andb]. rewrite bool_decide_eq_true. tauto.
Qed.

(** Past the end nothing is selected. *)
Lemma past_selected id data es : ids_sorted (map fst ((id, data) :: es)) ->
  match until with Some e => uintn_val e < uintn_val id | None => False end ->
  List.filter (selected start until step) ((id, data) :: es) = [].
Proof.
  intros Hs Hp. destruct until as [u|]; [|done].
  assert (Forall (fun e => uintn_val u < uintn_val (fst e)) ((id, data) :: es)) as Hf.
  { cbn [map] in Hs. apply StronglySorted_inv in Hs as [_ Hs]. constructor; [done|].
    rewrite Forall_map in Hs. eapply Forall_impl; [exact Hs|]. unfold id_lt. simpl. intros; lia. }
  clear Hs Hp. induction Hf as [|e l He Hf IH]; [done|]. cbn [List.filter].
  unfold selected at 1. rewrite (bool_decide_false (_ <= uintn_val u)) by lia.
  rewrite andb_false_r. exact IH.
Qed.

Lemma collect_spec limit es cur count :
  Forall (fun e => uintn_ok (fst e)) es -> ids_sorted (map fst es) -> uintn_ok cur ->
  on_step (uintn_val cur) ->
  Forall (fun e => uintn_val start <= uintn_val (fst e) /\
                   uintn_val cur - step < uintn_val (fst e)) es ->
  0 <= count ->
  collect until limit step es cur count =
    Some (limited limit count (List.filter (selected start until step) es)).
Proof.
  intros Hok. revert cur count. induction Hok as [|[id data] es Hid Hok IH];
    intros cur count Hs Hc Hon Hlt Hn.
  { unfold limited. simpl. case_decide; [by rewrite take_nil|done]. }
  cbn [collect]. cbn zeta. cbn [fst] in Hid.
  assert (match until with Some e => uintn_ltb e id | None => false end =
    match until with Some e => bool_decide (uintn_val e < uintn_val id) | None => false end) as ->.
  { destruct until as [e|]; [|done]. rewrite ltb_spec_val by (apply Huntil || apply Hid).
    apply ltb_decide. }
  destruct (match until with Some e => bool_decide (uintn_val e < uintn_val id)
    | None => false end) eqn:Hpast; cbn [orb].
  { rewrite past_selected; [|done|destruct until; [by apply bool_decide_eq_true in Hpast|done]].
    unfold limited. case_decide; [by rewrite take_nil|done]. }
  destruct ((0 <? limit) && (limit <=? count)) eqn:Hlim.
  { apply andb_true_iff in Hlim as [H1%Z.ltb_lt H2%Z.leb_le]. unfold limited.
    rewrite decide_True by done. by replace (Z.to_nat (limit - count)) with 0%nat by lia. }
  assert (match until with Some e => uintn_val id <= uintn_val e | None => True end) as Hu.
  { destruct until; [|done]. apply bool_decide_eq_false in Hpast. lia. }
  apply Forall_cons in Hlt as [[Hsid Hcid] Hlt]. cbn [fst] in Hsid, Hcid.
  cbn [map] in Hs. apply StronglySorted_inv in Hs as [Hs Hhd]. cbn [fst] in Hhd.
  destruct (advance_spec (advance_fuel id cur) id cur Hid Hc) as (c & -> & Hco & Hcon & Hcge & Hclt);
    [unfold advance_fuel; lia|done|done|done|].
  rewrite eqb_spec_val by (apply Hco || apply Hid). cbn [List.filter].
  pose proof (selected_on_step (id, data) Hsid Hu) as Hsel. cbn [fst] in Hsel.
  assert (Forall (fun e : uintn * bytes => uintn_val start <= uintn_val (fst e) /\
    uintn_val id < uintn_val (fst e)) es) as Hrest.
  { rewrite Forall_map in Hhd. rewrite Forall_forall in *. intros x Hx. split.
    - by apply Hlt.
    - by apply (Hhd x Hx). }
  destruct (Z.eqb_spec (uintn_val c) (uintn_val id)) as [Heq|Hneq].
  - assert (selected start until step (id, data) = true) as -> by (apply Hsel; by rewrite <- Heq).
    destruct (step_by_spec c step Hco (proj1 Hstep)) as [Hso Hsv].
    rewrite IH; [|done|done|rewrite Hsv; by apply on_step_next| |lia].
    + unfold limited. case_decide; [|done].
      rewrite andb_false_iff, Z.ltb_ge, Z.leb_gt in Hlim.
      replace (Z.to_nat (limit - count)) with (S (Z.to_nat (limit - (count + 1)))) by lia. done.
    + eapply Forall_impl; [exact Hrest|]. intros x [? ?]. rewrite Hsv. lia.
  - assert (selected start until step (id, data) = false) as ->.
    { destruct (selected start until step (id, data)); [|done]. exfalso. apply Hneq. symmetry.
      apply on_step_gap; [done|by apply Hsel|lia|lia]. }
    apply IH; try done. eapply Forall_impl; [exact Hrest|]. intros x [? ?]. lia.
Qed.

End Collect.

(** ** Reads *)

Lemma skip_before_spec start until step es : uintn_ok start ->
  Forall (fun e => uintn_ok (fst e)) es -> ids_sorted (map fst es) ->
  Forall (fun e => uintn_ok (fst e) /\ uintn_val start <= uintn_val (fst e))
    (skip_before start es) /\
  ids_sorted (map fst (skip_before start es)) /\
  List.filter (selected start until step) (skip_before start es) =
    List.filter (selected start until step) es.
Proof.
  intros Hs Hok. induction Hok as [|e es He Hok IH]; intros Hsort; [by split; [constructor|]|].
  cbn [skip_before]. rewrite ltb_spec_val by (apply He || apply Hs).
  pose proof Hsort as Hsort'. cbn [map] in Hsort. apply StronglySorted_inv in Hsort as [Hst Hhd].
  destruct (Z.ltb_spec (uintn_val (fst e)) (uintn_val start)) as [Hl|Hl].
  - destruct (IH Hst) as (H1 & H2 & H3). split_and!; [done..|]. rewrite H3. cbn [List.filter].
    unfold selected at 2. by rewrite (bool_decide_false (uintn_val start <= _)) by lia.
  - split_and!; [|done|done]. constructor; [done|]. rewrite Forall_map in Hhd.
    rewrite Forall_forall in *. intros x Hx. split; [by apply Hok|].
    specialize (Hhd x Hx). unfold id_lt in Hhd. lia.
Qed.

(** What the readers collect from memory. *)
Lemma collect_memory inner start until step limit : mem_inv inner -> uintn_ok start ->
  opt_ok until -> in_u 64 step /\ 1 <= step ->
  collect until limit step (skip_before start (mi_entries inner)) start 0 =
    Some (limited limit 0 (List.filter (selected start until step) (mi_entries inner))).
Proof.
  intros Hinv Hs Hu Hst.
  destruct (skip_before_spec start until step (mi_entries inner) Hs (mv_ids _ Hinv)
    (consecutive_sorted _ _ (mv_consecutive _ Hinv))) as (H1 & H2 & H3).
  rewrite (collect_spec start until step); try done.
  - by rewrite H3.
  - eapply Forall_impl; [exact H1|]. by intros x [? ?].
  - split; [lia|]. by rewrite Z.sub_diag.
  - eapply Forall_impl; [exact H1|]. intros x [? ?]. lia.
Qed.

Lemma send_all_open es ch : ch_life ch = None ->
  send_all es ch = (true, {| ch_sent := ch_sent ch ++ map (to_read_entry DSMemory) es;
                             ch_life := None |}).
Proof.
  revert ch. induction es as [|[id data] es IH]; intros ch Hl.
  - rewrite app_nil_r. destruct ch. simpl in *. by subst.
  - cbn [send_all]. unfold ch_send. rewrite Hl, decide_False by done. cbn [option_map].
    rewrite IH by done. cbn [ch_sent]. by rewrite <- app_assoc.
Qed.

Definition first_in_memory (inner : mem_inner) (start : uintn) : Prop :=
  match mi_first_id inner with
  | Some f => uintn_val f <= uintn_val start
  | None => False
  end.

(** [read_full] on every branch. *)
Lemma read_full_spec self start end_id step ch :
  mem_inv (mq_inner self) -> uintn_ok start -> uintn_ok end_id -> in_u 64 step -> 1 <= step ->
  ch_life ch = None ->
  exists r ch', mq_read_full self start end_id step ch = Some (r, ch') /\
  ( (next_after (mi_last_id (mq_inner self)) <= uintn_val start /\
       r = mem_answer true None None /\ ch' = ch)
    \/ (uintn_val start < next_after (mi_last_id (mq_inner self)) /\
        ~ first_in_memory (mq_inner self) start /\ r = mem_fail /\ ch' = ch)
    \/ (uintn_val start < next_after (mi_last_id (mq_inner self)) /\
        first_in_memory (mq_inner self) start /\ r = mem_answer true None None /\
        ch' = {| ch_sent := ch_sent ch ++ map (to_read_entry DSMemory)
                   (List.filter (selected start (Some end_id) step) (mi_entries (mq_inner self)));
                 ch_life := None |}) ).
Proof.
  intros Hinv Hs He Hst Hst1 Hl. unfold mq_read_full. cbn zeta.
  pose proof (mv_last_ok _ Hinv) as Hlo. pose proof (val_nonneg start (ok_wf _ Hs)).
  destruct (mi_last_id (mq_inner self)) as [l|]; cbn [next_after].
  2:{ eexists _, _. split; [reflexivity|]. left. done. }
  simpl in Hlo. rewrite ltb_spec_val by (apply Hlo || apply Hs).
  destruct (Z.ltb_spec (uintn_val l) (uintn_val start)).
  { eexists _, _. split; [reflexivity|]. left. split_and!; [lia|done|done]. }
  unfold first_in_memory. pose proof (mv_first _ Hinv) as Hf. pose proof (mv_ids _ Hinv) as Hids.
  destruct (mi_first_id (mq_inner self)) as [f|].
  2:{ eexists _, _. split; [reflexivity|]. right. left. split_and!; [lia|tauto|done|done]. }
  assert (uintn_ok f) as Hfo.
  { destruct (mi_entries (mq_inner self)) as [|e es]; [done|]. injection Hf as ->.
    by apply Forall_cons in Hids as [? _]. }
  rewrite ltb_spec_val by (apply Hfo || apply Hs).
  destruct (Z.ltb_spec (uintn_val start) (uintn_val f)).
  { eexists _, _. split; [reflexivity|]. right. left. split_and!; [lia|lia|done|done]. }
  rewrite collect_memory by done. unfold limited. rewrite decide_False by lia.
  rewrite send_all_open by done. eexists _, _. split; [reflexivity|]. right. right.
  split_and!; [lia|lia|done|done].
Qed.

(** ** Subscriptions *)

(** What the closure of a follow passes on. *)
Definition wants (last_sent : option uintn) (from : uintn) (step : Z) (e : uintn * bytes) : bool :=
  match last_sent with Some l => bool_decide (uintn_val l < uintn_val (fst e)) | None => true end &&
  bool_decide (step = 1 \/ uintn_val from <= uintn_val (fst e) /\
    (uintn_val (fst e) - uintn_val from) mod step = 0).

Lemma follow_callback_open last_sent from step es ch :
  last_ok last_sent -> uintn_ok from -> in_u 64 step -> 1 <= step ->
  Forall (fun e => uintn_ok (fst e)) es -> ch_life ch = None ->
  follow_callback last_sent from step es ch =
    Ok (true, {| ch_sent := ch_sent ch ++ map (to_read_entry DSMemory)
                   (List.filter (wants last_sent from step) es);
                 ch_life := None |}).
Proof.
  intros Hl Hf Hs1 Hs2 Hes. revert ch. induction Hes as [|[id data] es Hid Hes IH]; intros ch Hch.
  { cbn. rewrite app_nil_r. destruct ch. simpl in *. by subst. }
  cbn [follow_callback List.filter]. cbn zeta. cbn [fst] in Hid.
  assert (wants last_sent from step (id, data) =
    negb (match last_sent with Some l => uintn_leb id l | None => false end) &&
    bool_decide (step = 1 \/ uintn_val from <= uintn_val id /\
      (uintn_val id - uintn_val from) mod step = 0)) as ->.
  { unfold wants. cbn [fst]. f_equal. destruct last_sent as [l|]; [|done].
    rewrite leb_spec_val by (apply Hid || apply Hl). rewrite leb_decide.
    do 2 case_bool_decide; lia || done. }
  destruct (match last_sent with Some l => uintn_leb id l | None => false end); cbn [negb andb].
  { by apply IH. }
  rewrite in_step_spec by done. destruct (bool_decide _); [|by apply IH].
  unfold ch_send. rewrite Hch, decide_False by done. cbn [option_map].
  rewrite IH by done. cbn [ch_sent map]. by rewrite <- app_assoc.
Qed.

Definition sub_ok (s : subscriber) : Prop :=
  match s with
  | SubFollow last_sent from step _ =>
      last_ok last_sent /\ uintn_ok from /\ in_u 64 step /\ 1 <= step
  | SubCallback _ _ => True
  end.

Lemma follow_callback_total last_sent from step es ch :
  last_ok last_sent -> uintn_ok from -> in_u 64 step -> 1 <= step ->
  Forall (fun e => uintn_ok (fst e)) es ->
  exists r, follow_callback last_sent from step es ch = Ok r.
Proof.
  intros Hl Hf Hs1 Hs2 Hes. revert ch. induction Hes as [|[id data] es Hid Hes IH]; intros ch.
  { by eexists. }
  cbn [follow_callback]. cbn zeta. destruct (match last_sent with Some _ => _ | None => _ end); [done|].
  rewrite in_step_spec by done. destruct (bool_decide _); [|done].
  destruct (ch_send _ ch); [done|]. by eexists.
Qed.

(** Notifying well-formed subscribers never panics and keeps them well formed. *)
Lemma notify_total es subs : Forall (fun e => uintn_ok (fst e)) es ->
  Forall (fun s => sub_ok (snd s)) subs ->
  exists subs', notify_subscribers es subs = Ok subs' /\ Forall (fun s => sub_ok (snd s)) subs'.
Proof.
  intros Hes Hs. induction Hs as [|[id s] subs Hs Hss IH]; [by exists []|].
  destruct IH as (subs' & Hn & Hok). cbn [notify_subscribers]. rewrite Hn.
  destruct s as [l f st ch|seen ans]; cbn [run_subscriber].
  - destruct Hs as (Hl & Hf & Hs1 & Hs2).
    destruct (follow_callback_total l f st es ch Hl Hf Hs1 Hs2 Hes) as ([stay ch'] & ->).
    ok_step. destruct stay; eexists; (split; [reflexivity|]); [by constructor|done].
  - ok_step. destruct (default true (head ans)); eexists; (split; [reflexivity|]); [by constructor|done].
Qed.

(** ** Enqueuing keeps the queue well formed *)

Definition queue_inv (self : mem_queue) : Prop :=
  mem_inv (mq_inner self) /\ Forall (fun s => sub_ok (snd s)) (mq_subscribers self).

(** The two steps of a call, one after the other. *)
Lemma enqueue_batch_eq self d ds : mq_enqueue_batch self (d :: ds) =
  let inner := mq_inner self in
  let numbered := number_entries (next_id inner) (d :: ds) in
  let inner := cleanup_unlocked (mq_max_memory_usage self)
                 (push_entries inner numbered (last (map fst numbered)) (next_id inner)) in
  (subs ← (if bool_decide (mq_subscribers self = []) then Ok []
           else notify_subscribers numbered (mq_subscribers self));
   Ok (set_inner self inner subs, map fst numbered)).
Proof.
  unfold mq_enqueue_batch, mq_number_batch, mq_notify_data, mq_notify.
  rewrite (bool_decide_false (d :: ds = [])) by done. cbn zeta. cbn [set_inner mq_subscribers mq_inner].
  destruct (bool_decide (mq_subscribers self = [])) eqn:E; [by apply bool_decide_eq_true in E as ->|].
  by destruct (notify_subscribers _ _).
Qed.

Lemma follow_full_eq self from_id start_id step ch : mq_follow_full self from_id start_id step ch =
  let inner := mq_inner self in
  let subscribe (entries_to_send : list (uintn * bytes)) (last_sent_id : option uintn) :=
    let '(sent, ch) := send_all entries_to_send ch in
    if (sent : bool) then
      let '(self, id) := add_subscriber self (SubFollow last_sent_id from_id step ch) in
      Some (self, mem_answer true None (Some id), ch)
    else Some (self, mem_fail, ch) in
  match mi_first_id inner with
  | Some mem_start_id =>
      if uintn_ltb start_id mem_start_id then Some (self, mem_fail, ch)
      else match collect None 0 step (skip_before start_id (mi_entries inner)) start_id 0 with
      | None => None
      | Some entries => subscribe entries (option_map fst (last entries))
      end
  | None => subscribe [] None
  end.
Proof.
  unfold mq_follow_full, mq_follow_snapshot, mq_follow_insert. cbn zeta.
  destruct (mi_first_id (mq_inner self)) as [f|]; [|done].
  destruct (uintn_ltb start_id f); [done|]. destruct (collect _ _ _ _ _ _) as [entries|]; [|done].
  cbn [fp_entries fp_start_id fp_from_id fp_step fp_last_sent_id].
  by destruct (send_all entries ch) as [[|] ch'].
Qed.

Lemma follow_full_negative_eq self offset step ch : mq_follow_full_negative self offset step ch =
  let inner := mq_inner self in
  if uintn_eqb offset uintn_zero then
    let from_id := match mi_last_id inner with
                   | Some id => uintn_add id (uintn_from_u64 1)
                   | None => uintn_zero
                   end in
    let '(self, id) := add_subscriber self (SubFollow (mi_last_id inner) from_id step ch) in
    Some (Ok (self, mem_answer true (Some from_id) (Some id), ch))
  else match mi_last_id inner with
  | None => Some (Ok (self, mem_answer true (Some uintn_zero) None, ch))
  | Some last_id =>
      match tail_start last_id offset with
      | Ok start_id =>
          let failed := Some (Ok (self, mem_answer false (Some start_id) None, ch)) in
          match mi_first_id inner with
          | None => failed
          | Some mem_start_id =>
              if uintn_ltb start_id mem_start_id then failed
              else match collect None 0 step (skip_before start_id (mi_entries inner))
                           start_id 0 with
              | None => None
              | Some entries =>
                  let last_sent_id := option_map fst (last entries) in
                  let '(sent, ch) := send_all entries ch in
                  if (sent : bool) then
                    let '(self, id) :=
                      add_subscriber self (SubFollow last_sent_id start_id step ch) in
                    Some (Ok (self, mem_answer true (Some start_id) (Some id), ch))
                  else Some (Ok (self, mem_answer false (Some start_id) None, ch))
              end
          end
      | _ => Some Panic
      end
  end.
Proof.
  unfold mq_follow_full_negative, mq_tail_snapshot, mq_follow_insert. cbn zeta.
  destruct (uintn_eqb offset uintn_zero); [done|]. destruct (mi_last_id (mq_inner self)) as [l|]; [|done].
  destruct (tail_start l offset) as [start_id| |]; [|done..].
  destruct (mi_first_id (mq_inner self)) as [f|]; [|done]. destruct (uintn_ltb start_id f); [done|].
  destruct (collect _ _ _ _ _ _) as [entries|]; [|done].
  cbn [fp_entries fp_start_id fp_from_id fp_step fp_last_sent_id].
  by destruct (send_all entries ch) as [[|] ch'].
Qed.

Lemma enqueue_batch_one self data : mq_enqueue_batch self [data] =
  ('(self', id) ← mq_enqueue self data; Ok (self', [id])).
Proof.
  unfold mq_enqueue_batch, mq_enqueue, mq_number_batch, mq_number.
  rewrite bool_decide_false by done. cbn zeta. cbn [number_entries map fst last].
  by destruct (mq_notify_data _ _).
Qed.

Lemma enqueue_batch_inv self d ds : queue_inv self ->
  exists self', mq_enqueue_batch self (d :: ds) =
      Ok (self', map fst (number_entries (next_id (mq_inner self)) (d :: ds))) /\
    queue_inv self' /\
    next_after (mi_last_id (mq_inner self')) =
      next_after (mi_last_id (mq_inner self)) + 1 + zlen ds /\
    exists dropped,
      mi_entries (mq_inner self) ++ number_entries (next_id (mq_inner self)) (d :: ds) =
        dropped ++ mi_entries (mq_inner self') /\
      Forall (fun e => match mi_last_acked_id (mq_inner self) with
                       | Some a => uintn_val (fst e) <= uintn_val a
                       | None => False end) dropped /\
      (mi_memory_usage (mq_inner self') <= mq_max_memory_usage self \/
       match mi_last_acked_id (mq_inner self), head (mi_entries (mq_inner self')) with
       | Some a, Some e => uintn_val a < uintn_val (fst e)
       | _, _ => True
       end).
Proof.
  intros [Hinv Hsub]. rewrite enqueue_batch_eq. cbn zeta.
  pose proof (push_inv (mq_inner self) ds d Hinv) as Hpush.
  destruct (next_id_spec _ (mv_last_ok _ Hinv)) as [Hno Hnv].
  destruct (number_entries_spec _ (d :: ds) Hno) as (Hids & _ & _).
  destruct (last_number _ d ds Hno) as (l & Hl & Hlo & Hlv).
  destruct (cleanup_spec (mq_max_memory_usage self) _ Hpush) as (Hci & Hcl & Hca & dropped & Hd & Hda & Hm).
  set (numbered := number_entries (next_id (mq_inner self)) (d :: ds)) in *.
  set (inner' := cleanup_unlocked _ _) in *.
  assert (exists subs', (if bool_decide (mq_subscribers self = []) then Ok []
    else notify_subscribers numbered (mq_subscribers self)) = Ok subs' /\
    Forall (fun s => sub_ok (snd s)) subs') as (subs' & -> & Hsub').
  { case_bool_decide; [by exists []|]. by apply notify_total. }
  ok_step. eexists. split; [reflexivity|]. split_and!; [by split| |].
  - cbn [mq_inner set_inner]. rewrite Hcl. cbn [mi_last_id push_entries]. rewrite Hl.
    cbn [next_after]. lia.
  - exists dropped. cbn [mq_inner set_inner]. split_and!; [exact Hd|exact Hda|exact Hm].
Qed.

Lemma ack_inv self id : queue_inv self -> uintn_ok id -> queue_inv (mq_ack self id).
Proof.
  intros [Hinv Hs] Hid. split; [|done]. unfold mq_ack. cbn [mq_inner set_inner].
  apply cleanup_spec. destruct Hinv. split; cbn [mi_entries mi_last_id mi_first_id
    mi_last_acked_id mi_memory_usage]; try done.
  destruct (mi_last_acked_id (mq_inner self)) as [a|]; [|done]. by destruct (uintn_ltb a id).
Qed.

(** ** Following *)

Lemma number_app n d ds more l : last (map fst (number_entries n (d :: ds))) = Some l ->
  number_entries n ((d :: ds) ++ more) =
    number_entries n (d :: ds) ++ number_entries (uintn_increment l) more.
Proof.
  revert n d. induction ds as [|d' ds IH]; intros n d Hl.
  - cbn in Hl. by injection Hl as <-.
  - cbn [app number_entries] in *. f_equal. apply (IH (uintn_increment n) d').
    cbn [map fst] in *. by rewrite last_cons_cons in Hl.
Qed.

Lemma cleanup_last max inner : mi_last_id (cleanup_unlocked max inner) = mi_last_id inner.
Proof. unfold cleanup_unlocked. repeat (case_decide || case_match); done. Qed.

Lemma cleanup_acked max inner :
  mi_last_acked_id (cleanup_unlocked max inner) = mi_last_acked_id inner.
Proof. unfold cleanup_unlocked. repeat (case_decide || case_match); done. Qed.

(** What a batch leaves: the last id, and the subscribers after the call. *)
Lemma batch_frame self d ds self' ids : mq_enqueue_batch self (d :: ds) = Ok (self', ids) ->
  let numbered := number_entries (next_id (mq_inner self)) (d :: ds) in
  mi_last_id (mq_inner self') = last (map fst numbered) /\
  notify_subscribers numbered (mq_subscribers self) = Ok (mq_subscribers self').
Proof.
  rewrite enqueue_batch_eq. cbn zeta.
  set (numbered := number_entries _ _). intros H.
  assert (numbered <> []) as Hne by done. clearbody numbered. split.
  - destruct (if bool_decide _ then _ else _) as [subs| |]; ok_step; try done.
    injection H as <- _. cbn [set_inner mq_inner]. rewrite cleanup_last. cbn [push_entries mi_last_id].
    destruct (last (map fst numbered)) as [l|] eqn:E; [done|]. apply last_None in E. by destruct numbered.
  - case_bool_decide as Hs; [|destruct (notify_subscribers numbered _) as [subs| |]; ok_step; try done];
      ok_step; injection H as <- _; [by rewrite Hs|done].
Qed.

Lemma notify_in es subs subs' id s s' : notify_subscribers es subs = Ok subs' ->
  In (id, s) subs -> run_subscriber es s = Ok (true, s') -> In (id, s') subs'.
Proof.
  revert subs'. induction subs as [|[i t] subs IH]; intros subs' Hn Hin Hr; [done|].
  cbn [notify_subscribers] in Hn. destruct (run_subscriber es t) as [[stay t']| |] eqn:Et; ok_step;
    try done. destruct (notify_subscribers es subs) as [rest| |] eqn:En; ok_step; try done.
  injection Hn as <-. destruct Hin as [[= -> ->]|Hin].
  - rewrite Hr in Et. injection Et as <- <-. by left.
  - destruct stay; [right|]; by apply IH.
Qed.

(** The batches of an application, one after the other. *)
Fixpoint enqueue_batches (self : mem_queue) (dss : list (list bytes)) : outcome unit mem_queue :=
  match dss with
  | [] => Ok self
  | ds :: dss => '(self, _) ← mq_enqueue_batch self ds; enqueue_batches self dss
  end.

Lemma wants_new last_sent start step e : in_u 64 step -> 1 <= step ->
  match last_sent with Some l => uintn_val l < uintn_val (fst e) | None => True end ->
  uintn_val start <= uintn_val (fst e) ->
  wants last_sent start step e = selected start None step e.
Proof.
  intros Hs H1 Hl He. unfold wants, selected. rewrite (bool_decide_true (uintn_val start <= _)) by done.
  assert (match last_sent with
          | Some l => bool_decide (uintn_val l < uintn_val (fst e)) | None => true end = true) as ->
    by (destruct last_sent; [by apply bool_decide_true|done]).
  cbn [andb]. apply bool_decide_ext. split; [|tauto].
  intros [->|[_ ?]]; [by rewrite Z.mod_1_r|done].
Qed.

Section Follow.
Context (id : nat) (last_sent : option uintn) (start : uintn) (step : Z).
Hypothesis Hlast : last_ok last_sent.
Hypothesis Hstart : uintn_ok start.
Hypothesis Hstep : in_u 64 step.
Hypothesis Hstep1 : 1 <= step.

(** The subscriber [id] is there, with the entries [sent] on its channel, and
    nothing it waits for is in the past. *)
Definition following (self : mem_queue) (sent : list read_entry) : Prop :=
  queue_inv self /\
  In (id, SubFollow last_sent start step {| ch_sent := sent; ch_life := None |})
    (mq_subscribers self) /\
  uintn_val start <= next_after (mi_last_id (mq_inner self)) /\
  match last_sent with
  | Some l => uintn_val l < next_after (mi_last_id (mq_inner self))
  | None => True
  end.

Lemma following_batch self sent d ds : following self sent ->
  exists self' ids, mq_enqueue_batch self (d :: ds) = Ok (self', ids) /\
    following self' (sent ++ map (to_read_entry DSMemory)
      (List.filter (selected start None step)
        (number_entries (next_id (mq_inner self)) (d :: ds)))) /\
    forall more, number_entries (next_id (mq_inner self)) ((d :: ds) ++ more) =
      number_entries (next_id (mq_inner self)) (d :: ds) ++
      number_entries (next_id (mq_inner self')) more.
Proof.
  intros (Hinv & Hin & Hs & Hl).
  destruct (enqueue_batch_inv self d ds Hinv) as (self' & He & Hinv' & Hn & _).
  destruct (batch_frame _ _ _ _ _ He) as [Hlid Hsub].
  destruct (next_id_spec (mq_inner self)) as [Hok Hv]; [apply Hinv|].
  destruct (last_number _ d ds Hok) as (l & Hll & _ & _).
  exists self', (map fst (number_entries (next_id (mq_inner self)) (d :: ds))).
  split; [done|]. split.
  - split; [done|]. split; [|pose proof (zlen_nonneg ds); destruct last_sent; lia].
    apply (notify_in _ _ _ _ _ _ Hsub Hin). cbn [run_subscriber].
    destruct (number_entries_spec (next_id (mq_inner self)) (d :: ds) Hok) as (Hids & Hcon & _).
    rewrite follow_callback_open by done. ok_step. do 4 f_equal. cbn [ch_sent]. do 2 f_equal.
    apply List.filter_ext_in. intros e Hx.
    apply list_elem_of_In, list_elem_of_lookup in Hx as [i Hi].
    pose proof (consecutive_ids _ _ Hcon _ _ Hi). apply wants_new; [done..| |lia].
    destruct last_sent; [lia|done].
  - intros more. unfold next_id at 3. rewrite Hlid, Hll. by apply number_app.
Qed.

Lemma following_batches dss self sent : following self sent -> Forall (fun ds => ds <> []) dss ->
  exists self', enqueue_batches self dss = Ok self' /\
    following self' (sent ++ map (to_read_entry DSMemory)
      (List.filter (selected start None step)
        (number_entries (next_id (mq_inner self)) (concat dss)))).
Proof.
  revert self sent. induction dss as [|ds dss IH]; intros self sent Hf Hne.
  { exists self. cbn. by rewrite app_nil_r. }
  apply Forall_cons in Hne as [Hd Hne]. destruct ds as [|d ds]; [done|].
  destruct (following_batch self sent d ds Hf) as (self1 & ids & He & Hf1 & Hnum).
  destruct (IH self1 _ Hf1 Hne) as (self' & He' & Hf'). exists self'.
  cbn [enqueue_batches concat]. rewrite He. ok_step. split; [done|].
  by rewrite Hnum, List.filter_app, map_app, app_assoc.
Qed.

End Follow.

Lemma last_selected inner start step : mem_inv inner ->
  match option_map fst (last (List.filter (selected start None step) (mi_entries inner))) with
  | Some l => uintn_ok l /\ uintn_val l < next_after (mi_last_id inner)
  | None => True
  end.
Proof.
  intros Hinv. destruct (last _) as [e|] eqn:E; [|done]. cbn.
  apply last_Some in E as [k E].
  assert (In e (mi_entries inner)) as Hin.
  { assert (In e (List.filter (selected start None step) (mi_entries inner))) as Hf
      by (rewrite E; apply in_app_iff; right; by left). by apply filter_In in Hf as [? _]. }
  split.
  - pose proof (mv_ids _ Hinv) as Hids. rewrite List.Forall_forall in Hids. by apply Hids.
  - apply list_elem_of_In, list_elem_of_lookup in Hin as [i Hi].
    pose proof (consecutive_ids _ _ (mv_consecutive _ Hinv) _ _ Hi).
    apply lookup_lt_Some in Hi. unfold zlen in *. lia.
Qed.

Lemma follow_starts self start step ch : queue_inv self -> uintn_ok start -> in_u 64 step ->
  1 <= step -> ch_life ch = None -> first_in_memory (mq_inner self) start ->
  uintn_val start <= next_after (mi_last_id (mq_inner self)) ->
  let sel := List.filter (selected start None step) (mi_entries (mq_inner self)) in
  let sent := ch_sent ch ++ map (to_read_entry DSMemory) sel in
  exists self' id, mq_follow_full self start start step ch =
      Some (self', mem_answer true None (Some id), {| ch_sent := sent; ch_life := None |}) /\
    mq_inner self' = mq_inner self /\
    last_ok (option_map fst (last sel)) /\
    following id (option_map fst (last sel)) start step self' sent.
Proof.
  intros [Hinv Hsubs] Hst Hs H1 Hch Hfirst Hnext sel sent. rewrite follow_full_eq. cbn zeta.
  unfold first_in_memory in Hfirst. pose proof (mv_first _ Hinv) as Hmf.
  destruct (mi_first_id (mq_inner self)) as [f|]; [|done].
  assert (uintn_ok f) as Hf.
  { destruct (mi_entries (mq_inner self)) as [|e es] eqn:Ee; [done|]. injection Hmf as ->.
    pose proof (mv_ids _ Hinv) as Hids. rewrite Ee in Hids. by apply Forall_cons in Hids as [? _]. }
  rewrite ltb_spec_val by (by apply ok_wf). destruct (Z.ltb_spec (uintn_val start) (uintn_val f)); [lia|].
  rewrite collect_memory by done. unfold limited. rewrite decide_False by lia.
  rewrite send_all_open by done. cbn [add_subscriber]. eexists _, _. split; [reflexivity|].
  split; [done|]. pose proof (last_selected _ start step Hinv) as Hl. fold sel in Hl |- *.
  split; [destruct (option_map fst (last sel)); [apply Hl|done]|].
  unfold following. cbn [mq_inner mq_subscribers]. split_and!; try done.
  - split; [done|]. cbn [mq_subscribers].
    apply Forall_app. split; [done|]. constructor; [|constructor]. cbn.
    split_and!; try done. destruct (option_map fst (last sel)); [apply Hl|done].
  - apply in_app_iff. right. by left.
  - destruct (option_map fst (last sel)); [apply Hl|done].
Qed.

Lemma last_known inner : mem_inv inner -> mi_entries inner <> [] -> exists x, mi_last_id inner = Some x.
Proof.
  intros Hinv Hne. pose proof (mv_consecutive _ Hinv) as Hc. pose proof (mv_ids _ Hinv) as Hids.
  destruct (mi_last_id inner) as [x|]; [by exists x|]. exfalso.
  destruct (mi_entries inner) as [|e es]; [done|]. destruct Hc as [He _].
  apply Forall_cons in Hids as [Hok _]. pose proof (val_nonneg (fst e) (ok_wf _ Hok)). cbn [next_after] in He.
  rewrite zlen_cons in He. pose proof (zlen_nonneg es). lia.
Qed.

(** ** Reads and follows from the tail *)

Lemma tail_start_spec last_id offset : uintn_ok last_id -> uintn_ok offset ->
  exists s, tail_start last_id offset = Ok s /\ uintn_ok s /\
    uintn_val s = Z.max 0 (uintn_val last_id - uintn_val offset).
Proof.
  intros Hl Ho. unfold tail_start. rewrite ltb_spec_val by (by apply ok_wf).
  destruct (Z.ltb_spec (uintn_val last_id) (uintn_val offset)).
  - exists uintn_zero. split_and!; try done. cbn. lia.
  - destruct (sub_ge last_id offset) as (z & -> & Hz & Hv); [done..|]. exists z.
    split_and!; try done. lia.
Qed.

(** The start of a read that memory covers is itself sent. *)
Lemma start_selected inner start step : mem_inv inner -> uintn_ok start -> 1 <= step ->
  first_in_memory inner start -> uintn_val start < next_after (mi_last_id inner) ->
  List.filter (selected start None step) (mi_entries inner) <> [].
Proof.
  intros Hinv Hs H1 Hf Hlt Hnil. unfold first_in_memory in Hf. rewrite (mv_first _ Hinv) in Hf.
  destruct (mi_entries inner) as [|e es] eqn:Ee; [done|]. cbn in Hf.
  pose proof (mv_consecutive _ Hinv) as Hc. rewrite Ee in Hc.
  set (n := next_after (mi_last_id inner) - zlen (e :: es)) in *.
  pose proof (proj1 Hc) as He. unfold zlen in n.
  assert (is_Some ((e :: es) !! Z.to_nat (uintn_val start - n))) as [x Hx].
  { apply lookup_lt_is_Some. subst n. lia. }
  pose proof (consecutive_ids _ _ Hc _ _ Hx) as Hv.
  assert (In x (List.filter (selected start None step) (e :: es))) as Hin.
  { apply filter_In. split; [apply list_elem_of_In; by eapply list_elem_of_lookup_2|].
    unfold selected. rewrite !bool_decide_true; [done| |lia].
    replace (uintn_val (fst x) - uintn_val start) with 0 by lia. by apply Zmod_0_l. }
  by rewrite Hnil in Hin.
Qed.

(** ** Every history of a queue *)

(** The calls that change a queue. *)
Inductive mem_event :=
| MEnqueue (d : bytes) (ds : list bytes)
| MAck (id : uintn)
| MSubscribe (answers : list bool)
| MUnsubscribe (id : nat)
| MFollow (from start : uintn) (step : Z) (ch : channel).

Definition mem_event_ok (ev : mem_event) : Prop :=
  match ev with
  | MAck id => uintn_ok id
  | MFollow from start step _ => uintn_ok from /\ uintn_ok start /\ in_u 64 step /\ 1 <= step
  | _ => True
  end.

Definition mem_exec (self : mem_queue) (ev : mem_event) : outcome unit mem_queue :=
  match ev with
  | MEnqueue d ds => '(self, _) ← mq_enqueue_batch self (d :: ds); Ok self
  | MAck id => Ok (mq_ack self id)
  | MSubscribe answers => Ok (fst (mq_subscribe self answers))
  | MUnsubscribe id => Ok (mq_unsubscribe self id)
  | MFollow from start step ch =>
      match mq_follow_full self from start step ch with
      | Some (self, _, _) => Ok self
      | None => Panic
      end
  end.

Fixpoint mem_run (self : mem_queue) (evs : list mem_event) : outcome unit mem_queue :=
  match evs with
  | [] => Ok self
  | ev :: evs => self ← mem_exec self ev; mem_run self evs
  end.

Definition enqueued (ev : mem_event) : list bytes :=
  match ev with MEnqueue d ds => d :: ds | _ => [] end.

(** An entry the application was told is durable. *)
Definition acked_by (acked : option uintn) (e : uintn * bytes) : Prop :=
  match acked with Some a => uintn_val (fst e) <= uintn_val a | None => False end.

(** The queue after the entries [log] were numbered. *)
Definition mem_hist (log : list (uintn * bytes)) (self : mem_queue) : Prop :=
  queue_inv self /\ exists dropped, log = dropped ++ mi_entries (mq_inner self) /\
    Forall (acked_by (mi_last_acked_id (mq_inner self))) dropped.

Lemma acked_by_mono a b e : (forall x, a = Some x -> exists y, b = Some y /\
  uintn_val x <= uintn_val y) -> acked_by a e -> acked_by b e.
Proof.
  intros H He. destruct a as [x|]; [|done]. destruct (H x eq_refl) as (y & -> & ?).
  cbn in *. lia.
Qed.

(** The acknowledged id after an acknowledgement. *)
Definition raise_ack (acked : option uintn) (id : uintn) : option uintn :=
  match acked with
  | None => Some id
  | Some last => if uintn_ltb last id then Some id else Some last
  end.

Lemma raise_ack_mono acked id : last_ok acked -> uintn_ok id ->
  last_ok (raise_ack acked id) /\
  forall x, acked = Some x -> exists y, raise_ack acked id = Some y /\ uintn_val x <= uintn_val y.
Proof.
  intros Ha Hi. destruct acked as [x|]; [|done]. cbn. rewrite ltb_spec_val by (by apply ok_wf).
  destruct (Z.ltb_spec (uintn_val x) (uintn_val id)); (split; [done|]); intros ? [= ->];
    eexists; (split; [done|]); lia.
Qed.

Lemma ack_hist log self id : mem_hist log self -> uintn_ok id -> mem_hist log (mq_ack self id).
Proof.
  intros ([Hinv Hsub] & dropped & -> & Hd) Hid.
  destruct (raise_ack_mono _ id (mv_acked_ok _ Hinv) Hid) as [Hr Hm].
  pose proof (ack_inv self id (conj Hinv Hsub) Hid) as Hq. split; [done|].
  unfold mq_ack. cbn zeta. cbn [mq_inner set_inner].
  fold (raise_ack (mi_last_acked_id (mq_inner self)) id).
  set (inner := {| mi_entries := _ |}).
  assert (mem_inv inner) as Hi by (destruct Hinv; by split).
  destruct (cleanup_spec (mq_max_memory_usage self) inner Hi) as (_ & _ & Ha & more & He & Hmore & _).
  exists (dropped ++ more). rewrite Ha. split.
  - rewrite <- app_assoc. f_equal. exact He.
  - apply Forall_app. split; [|exact Hmore].
    eapply Forall_impl; [exact Hd|]. intros e. by apply acked_by_mono.
Qed.

Lemma follow_hist log self from start step ch : mem_hist log self ->
  uintn_ok from -> uintn_ok start -> in_u 64 step -> 1 <= step ->
  exists self' r ch', mq_follow_full self from start step ch = Some (self', r, ch') /\
    mem_hist log self' /\ mq_inner self' = mq_inner self.
Proof.
  intros [Hq Hlog] Hf Hst Hs H1. rewrite follow_full_eq. cbn zeta.
  assert (forall entries, last_ok (option_map fst (last entries)) -> exists self' r ch',
    (let '(sent, ch) := send_all entries ch in
     if sent : bool then
       let '(self, id) := add_subscriber self
         (SubFollow (option_map fst (last entries)) from step ch) in
       Some (self, mem_answer true None (Some id), ch)
     else Some (self, mem_fail, ch)) = Some (self', r, ch') /\
    mem_hist log self' /\ mq_inner self' = mq_inner self) as Hsub.
  { intros entries Hl. destruct (send_all entries ch) as [[|] ch'].
    - cbn [add_subscriber]. eexists _, _, _. split; [reflexivity|]. split; [|done].
      split; [|exact Hlog]. split; [apply Hq|]. cbn [mq_subscribers]. apply Forall_app.
      split; [apply Hq|]. constructor; [|constructor]. cbn. split_and!; done.
    - eexists _, _, _. split; [reflexivity|]. done. }
  destruct (mi_first_id (mq_inner self)) as [f|].
  - destruct (uintn_ltb start f); [by eexists _, _, _|].
    rewrite collect_memory by (try done; apply Hq). unfold limited. rewrite decide_False by lia.
    apply Hsub. pose proof (last_selected _ start step (proj1 Hq)) as Hl.
    destruct (option_map fst _); [apply Hl|done].
  - by apply (Hsub []).
Qed.

Lemma mem_exec_hist log self ev : mem_hist log self -> mem_event_ok ev ->
  exists self', mem_exec self ev = Ok self' /\
    mem_hist (log ++ number_entries (next_id (mq_inner self)) (enqueued ev)) self' /\
    forall more, number_entries (next_id (mq_inner self)) (enqueued ev ++ more) =
      number_entries (next_id (mq_inner self)) (enqueued ev) ++
      number_entries (next_id (mq_inner self')) more.
Proof.
  intros Hh Hok. destruct ev as [d ds|id|answers|id|from start step ch]; cbn [mem_exec enqueued];
    [|cbn [number_entries app]; rewrite app_nil_r..].
  - destruct Hh as (Hq & dropped & -> & Hd).
    destruct (enqueue_batch_inv self d ds Hq) as (self' & He & Hq' & _ & more & Hlog & Hm & _).
    destruct (batch_frame _ _ _ _ _ He) as [Hlid _].
    destruct (next_id_spec (mq_inner self)) as [Hno _]; [apply Hq|].
    destruct (last_number _ d ds Hno) as (l & Hl & _).
    assert (mi_last_acked_id (mq_inner self') = mi_last_acked_id (mq_inner self)) as Ha.
    { rewrite enqueue_batch_eq in He. cbn zeta in He.
      destruct (if bool_decide _ then _ else _); ok_step; try done.
      injection He as <-. cbn [mq_inner set_inner].
      by rewrite cleanup_acked. }
    rewrite He. ok_step. exists self'. split; [done|]. split.
    + split; [done|]. exists (dropped ++ more). rewrite Ha. split.
      * rewrite <- !app_assoc. f_equal. exact Hlog.
      * apply Forall_app. split; [done|exact Hm].
    + intros more'. unfold next_id at 3. rewrite Hlid, Hl. by apply number_app.
  - eexists. split; [done|]. split; [by apply ack_hist|]. intros more. unfold next_id.
    unfold mq_ack. cbn zeta. cbn [mq_inner set_inner]. by rewrite cleanup_last.
  - eexists. split; [done|]. split; [|done]. destruct Hh as [[? ?] ?].
    split; [|done]. split; [done|]. cbn. apply Forall_app. split; [done|]. by repeat constructor.
  - eexists. split; [done|]. split; [|done]. destruct Hh as [[? Hsubs] ?].
    split; [|done]. split; [done|]. cbn [mq_unsubscribe set_inner mq_subscribers].
    apply List.Forall_forall. intros x Hx. apply filter_In in Hx as [Hx _].
    exact (proj1 (List.Forall_forall _ _) Hsubs x Hx).
  - destruct Hok as (? & ? & ? & ?).
    destruct (follow_hist log self from start step ch) as (self' & r & ch' & -> & ? & Hi); [done..|].
    exists self'. split; [done|]. split; [done|]. by rewrite Hi.
Qed.

Lemma mem_run_hist evs log self : mem_hist log self -> Forall mem_event_ok evs ->
  exists self', mem_run self evs = Ok self' /\
    mem_hist (log ++ number_entries (next_id (mq_inner self)) (concat (map enqueued evs))) self'.
Proof.
  revert log self. induction evs as [|ev evs IH]; intros log self Hh Hok.
  { exists self. cbn. by rewrite app_nil_r. }
  apply Forall_cons in Hok as [Hev Hok].
  destruct (mem_exec_hist log self ev Hh Hev) as (self1 & He & Hh1 & Hnum).
  destruct (IH _ self1 Hh1 Hok) as (self' & Hr & Hh'). exists self'.
  cbn [mem_run map concat]. rewrite He. ok_step. split; [done|]. by rewrite Hnum, app_assoc.
Qed.

Lemma mem_new_hist last_id max : last_ok last_id -> mem_hist [] (mem_queue_new last_id max).
Proof.
  intros Hl. split; [split; [by apply mem_new_inv|constructor]|]. by exists [].
Qed.

(** ** The bound on memory *)

(** Memory is within bounds, or its oldest entry is not acknowledged. *)
Definition spare (max : Z) (inner : mem_inner) : Prop :=
  mi_memory_usage inner <= max \/
  match mi_last_acked_id inner, head (mi_entries inner) with
  | Some a, Some e => uintn_val a < uintn_val (fst e)
  | _, _ => True
  end.

Lemma cleanup_spare max inner : mem_inv inner -> spare max (cleanup_unlocked max inner).
Proof.
  intros Hi. destruct (cleanup_spec max inner Hi) as (_ & _ & Ha & _ & _ & _ & H). unfold spare. by rewrite Ha.
Qed.

Lemma mem_exec_spare self ev self' log : mem_hist log self -> mem_event_ok ev ->
  spare (mq_max_memory_usage self) (mq_inner self) -> mem_exec self ev = Ok self' ->
  mq_max_memory_usage self' = mq_max_memory_usage self /\
  spare (mq_max_memory_usage self) (mq_inner self').
Proof.
  intros Hh Hok Hsp He. destruct ev as [d ds|id|answers|id|from start step ch]; cbn [mem_exec] in He.
  - rewrite enqueue_batch_eq in He. cbn zeta in He.
    destruct (if bool_decide _ then _ else _) as [subs| |]; ok_step; try done.
    injection He as <-. split; [done|]. cbn [mq_inner set_inner].
    apply cleanup_spare, push_inv, Hh.
  - injection He as <-. split; [done|]. unfold mq_ack. cbn [mq_inner set_inner]. apply cleanup_spare.
    destruct Hh as [[[] _] _]. split; try done. by apply raise_ack_mono.
  - by injection He as <-.
  - by injection He as <-.
  - destruct Hok as (? & ? & ? & ?).
    destruct (follow_hist log self from start step ch) as (self2 & r & ch' & Hf & _ & Hi); [done..|].
    rewrite Hf in He. injection He as <-. rewrite Hi. split; [|done].
    rewrite follow_full_eq in Hf. unfold add_subscriber in Hf. repeat (case_match; simplify_eq/=; try done).
Qed.

Lemma mem_run_spare evs self self' log : mem_hist log self -> Forall mem_event_ok evs ->
  spare (mq_max_memory_usage self) (mq_inner self) -> mem_run self evs = Ok self' ->
  mq_max_memory_usage self' = mq_max_memory_usage self /\
  spare (mq_max_memory_usage self) (mq_inner self').
Proof.
  revert self log. induction evs as [|ev evs IH]; intros self log Hh Hok Hsp Hr; [by injection Hr as <-|].
  apply Forall_cons in Hok as [Hev Hok]. cbn [mem_run] in Hr.
  destruct (mem_exec_hist log self ev Hh Hev) as (self1 & He & Hh1 & _). rewrite He in Hr. ok_step.
  destruct (mem_exec_spare self ev self1 log Hh Hev Hsp He) as [Hm Hs1].
  rewrite <- Hm in *. by eapply IH.
Qed.

(** The entries that are not acknowledged. *)
Definition pending (acked : option uintn) (es : list (uintn * bytes)) : list (uintn * bytes) :=
  List.filter (fun e => match acked with
                        | Some a => uintn_val a <? uintn_val (fst e)
                        | None => true
                        end) es.

Lemma pending_none acked es : Forall (acked_by acked) es -> pending acked es = [].
Proof.
  induction 1 as [|e es He Hes IH]; [done|]. unfold pending in *. cbn [List.filter].
  destruct acked as [a|]; [|done]. cbn in He. by destruct (Z.ltb_spec (uintn_val a) (uintn_val (fst e))); [lia|].
Qed.

Lemma pending_all acked n es : consecutive n es ->
  match acked, head es with Some a, Some e => uintn_val a < uintn_val (fst e) | _, _ => True end ->
  pending acked es = es.
Proof.
  intros Hc Hh. apply forallb_filter_id, forallb_forall. intros e He. destruct acked as [a|]; [|done].
  destruct es as [|x es]; [done|]. cbn in Hh. apply Z.ltb_lt.
  apply list_elem_of_In, list_elem_of_lookup in He as [i Hi].
  rewrite (consecutive_ids _ _ Hc _ _ Hi). rewrite (consecutive_ids _ _ Hc 0 x eq_refl) in Hh. lia.
Qed.

(** Memory within bounds or only of entries that wait. *)
Lemma spare_bound log self : mem_hist log self -> spare (mq_max_memory_usage self) (mq_inner self) ->
  mi_memory_usage (mq_inner self) <=
    Z.max (mq_max_memory_usage self) (data_size (pending (mi_last_acked_id (mq_inner self)) log)).
Proof.
  intros ([Hinv _] & dropped & -> & Hd) [Hs|Hs]; [lia|].
  assert (forall acked l k, pending acked (l ++ k) = pending acked l ++ pending acked k) as ->
    by (intros; apply List.filter_app).
  rewrite (pending_none _ _ Hd), (pending_all _ _ _ (mv_consecutive _ Hinv) Hs), (mv_memory _ Hinv).
  cbn [app]. lia.
Qed.

End Facts.
