(* ===== verification/MemClaims.v ===== *)
(** * Claims about the memory store *)
From Stdlib Require Import ZArith Lia List Bool Sorted.
From Stdlib Require Import Ascii String.
From Stdlib Require Strings.Byte.
From stdpp Require Import base option list gmap strings.
From S2P Require Import Prelude UBig UintN UintNFacts Types WalFormat WalReader WalReaderFacts OrderedBuffer.
From S2P Require Import Mem MemFacts.
#[local] Open Scope Z_scope.

Section Negative.
Context {B : Build} {U : UBig}.

#[export] Instance first_in_memory_dec inner start : Decision (first_in_memory inner start).
Proof. unfold first_in_memory. destruct (mi_first_id inner); apply _. Defined.

Lemma read_negative_spec self last_id offset step limit ch :
  mem_inv (mq_inner self) -> mi_last_id (mq_inner self) = Some last_id -> uintn_ok offset ->
  in_u 64 step -> 1 <= step -> ch_life ch = None ->
  exists start, uintn_ok start /\
    uintn_val start = Z.max 0 (uintn_val last_id - uintn_val offset) /\
    mq_read_full_negative self offset step limit ch =
      Some (Ok (if decide (first_in_memory (mq_inner self) start)
        then (mem_answer true (Some start) None,
              {| ch_sent := ch_sent ch ++ map (to_read_entry DSMemory)
                   (limited limit 0 (List.filter (selected start None step)
                     (mi_entries (mq_inner self))));
                 ch_life := None |})
        else (mem_answer false (Some start) None, ch))).
Proof.
  intros Hinv Hlast Ho Hs H1 Hch. pose proof (mv_last_ok _ Hinv) as Hl. rewrite Hlast in Hl.
  destruct (tail_start_spec last_id offset Hl Ho) as (start & Ht & Hst & Hv).
  exists start. split_and!; [done..|]. unfold mq_read_full_negative. rewrite Hlast, Ht.
  pose proof (mv_first _ Hinv) as Hmf.
  destruct (mi_first_id (mq_inner self)) as [f|] eqn:Ef;
    [|rewrite decide_False; [done|]; unfold first_in_memory; rewrite Ef; tauto].
  assert (uintn_ok f) as Hf.
  { destruct (mi_entries (mq_inner self)) as [|e es] eqn:Ee; [done|]. injection Hmf as ->.
    pose proof (mv_ids _ Hinv) as Hids. rewrite Ee in Hids. by apply Forall_cons in Hids as [? _]. }
  rewrite ltb_spec_val by (by apply ok_wf).
  destruct (Z.ltb_spec (uintn_val start) (uintn_val f)); [rewrite decide_False; [done|];
    unfold first_in_memory; rewrite Ef; lia|].
  rewrite decide_True by (unfold first_in_memory; rewrite Ef; lia). rewrite collect_memory by done.
  pose proof (start_selected (mq_inner self) start step Hinv Hst H1) as Hne.
  unfold first_in_memory in Hne. rewrite Ef, Hlast in Hne. cbn [next_after] in Hne.
  pose proof (val_nonneg _ (ok_wf _ Hl)). pose proof (val_nonneg _ (ok_wf _ Ho)).
  specialize (Hne ltac:(lia) ltac:(lia)).
  assert (limited limit 0 (List.filter (selected start None step) (mi_entries (mq_inner self)))
    <> []) as Hlim.
  { unfold limited. case_decide; [|done]. destruct (List.filter _ _); [done|].
    by replace (Z.to_nat (limit - 0)) with (S (Z.to_nat (limit - 1))) by lia. }
  destruct (limited _ _ _) as [|x l]; [done|]. by rewrite send_all_open.
Qed.

End Negative.

Section Claims.
Context {B : Build} {U : UBig}.

(** C14: whatever calls a queue receives (batches, acknowledgements, follows,
    subscriptions), none panics, the ids it gives are consecutive, and the
    entries in memory are the newest ones without a gap: only acknowledged
    entries were dropped.  The byte count and the first id stay exact. *)
Theorem mem_keeps_unacknowledged last_id max evs : last_ok last_id -> Forall mem_event_ok evs ->
  let log := number_entries (next_id (mq_inner (mem_queue_new last_id max)))
               (concat (map enqueued evs)) in
  consecutive (next_after last_id) log /\
  exists self dropped, mem_run (mem_queue_new last_id max) evs = Ok self /\
    log = dropped ++ mi_entries (mq_inner self) /\
    Forall (acked_by (mi_last_acked_id (mq_inner self))) dropped /\
    mi_memory_usage (mq_inner self) = data_size (mi_entries (mq_inner self)) /\
    mi_first_id (mq_inner self) = option_map fst (head (mi_entries (mq_inner self))).
Proof.
  intros Hl Hev log. destruct (next_id_spec (mq_inner (mem_queue_new last_id max)) Hl) as [Hn Hv].
  split.
  - destruct (number_entries_spec _ (concat (map enqueued evs)) Hn) as (_ & Hc & _).
    rewrite Hv in Hc. exact Hc.
  - destruct (mem_run_hist evs [] _ (mem_new_hist last_id max Hl) Hev)
      as (self & Hr & [Hinv _] & dropped & He & Hd).
    exists self, dropped. split_and!; [done..|by destruct Hinv|by destruct Hinv].
Qed.

(** C15: memory stays bounded: after any calls, the bytes that the entries in
    memory take are at most the limit of the queue or the bytes of the entries
    that are not acknowledged yet, whichever is more. *)
Theorem mem_stays_bounded last_id max evs : last_ok last_id -> Forall mem_event_ok evs ->
  let log := number_entries (next_id (mq_inner (mem_queue_new last_id max)))
               (concat (map enqueued evs)) in
  exists self, mem_run (mem_queue_new last_id max) evs = Ok self /\
    data_size (mi_entries (mq_inner self)) <=
      Z.max max (data_size (pending (mi_last_acked_id (mq_inner self)) log)).
Proof.
  intros Hl Hev log. pose proof (mem_new_hist last_id max Hl) as Hh.
  destruct (mem_run_hist evs [] _ Hh Hev) as (self & Hr & Hh'). exists self. split; [done|].
  assert (spare max (mq_inner (mem_queue_new last_id max))) as Hs0 by by (right; destruct last_id).
  destruct (mem_run_spare evs _ self [] Hh Hev Hs0 Hr) as [Hm Hs].
  change (mq_max_memory_usage (mem_queue_new last_id max)) with max in Hm, Hs.
  rewrite <- (mv_memory _ (proj1 (proj1 Hh'))), <- Hm. rewrite <- Hm in Hs.
  exact (spare_bound _ _ Hh' Hs).
Qed.

(** C29: a range read of memory, on every branch: past the newest entry it
    succeeds with nothing; when the range starts before the oldest entry in
    memory it reports that the disk is needed and sends nothing; else it sends
    exactly the entries of the range and step, in order. *)
Theorem mem_read_exact self start end_id step ch :
  mem_inv (mq_inner self) -> uintn_ok start -> uintn_ok end_id -> in_u 64 step -> 1 <= step ->
  ch_life ch = None ->
  mq_read_full self start end_id step ch =
    Some (if decide (next_after (mi_last_id (mq_inner self)) <= uintn_val start)
          then (mem_answer true None None, ch)
          else if decide (first_in_memory (mq_inner self) start)
          then (mem_answer true None None,
                {| ch_sent := ch_sent ch ++ map (to_read_entry DSMemory)
                     (List.filter (selected start (Some end_id) step) (mi_entries (mq_inner self)));
                   ch_life := None |})
          else (mem_fail, ch)).
Proof.
  intros Hi Hs He Hst H1 Hc.
  destruct (read_full_spec self start end_id step ch) as (r & ch' & -> & Hcase); [done..|].
  destruct Hcase as [(? & -> & ->)|[(? & ? & -> & ->)|(? & ? & -> & ->)]].
  - by rewrite decide_True.
  - rewrite decide_False by lia. by rewrite decide_False.
  - rewrite decide_False by lia. by rewrite decide_True.
Qed.

(** A read from the tail starts at the last id less the offset (or at
    zero); when memory covers the start it sends the first entries on the step
    from there, at most [limit] of them when a limit is given; else it sends
    nothing and returns the start for the disk. *)
Theorem mem_read_tail_exact self last_id offset step limit ch :
  mem_inv (mq_inner self) -> mi_last_id (mq_inner self) = Some last_id -> uintn_ok offset ->
  in_u 64 step -> 1 <= step -> ch_life ch = None ->
  exists start, uintn_ok start /\
    uintn_val start = Z.max 0 (uintn_val last_id - uintn_val offset) /\
    mq_read_full_negative self offset step limit ch =
      Some (Ok (if decide (first_in_memory (mq_inner self) start)
        then (mem_answer true (Some start) None,
              {| ch_sent := ch_sent ch ++ map (to_read_entry DSMemory)
                   (limited limit 0 (List.filter (selected start None step)
                     (mi_entries (mq_inner self))));
                 ch_life := None |})
        else (mem_answer false (Some start) None, ch))).
Proof. apply read_negative_spec. Qed.

(** C16: a follow that starts inside memory or at the next id misses nothing
    and doubles nothing: after any later batches its receiver has exactly the
    entries on the step from the start, those in memory at the call and those
    enqueued since, in order. *)
Theorem mem_follow_exact self start step ch dss :
  queue_inv self -> uintn_ok start -> in_u 64 step -> 1 <= step -> ch_life ch = None ->
  first_in_memory (mq_inner self) start ->
  uintn_val start <= next_after (mi_last_id (mq_inner self)) ->
  Forall (fun ds => ds <> []) dss ->
  exists self1 id ch1 self2 last_sent,
    mq_follow_full self start start step ch = Some (self1, mem_answer true None (Some id), ch1) /\
    enqueue_batches self1 dss = Ok self2 /\
    In (id, SubFollow last_sent start step
          {| ch_sent := ch_sent ch ++ map (to_read_entry DSMemory)
               (List.filter (selected start None step)
                  (mi_entries (mq_inner self) ++
                   number_entries (next_id (mq_inner self)) (concat dss)));
             ch_life := None |}) (mq_subscribers self2).
Proof.
  intros Hq Hs Hst H1 Hc Hf Hn Hd.
  destruct (follow_starts self start step ch) as (self1 & id & Hfol & Hi & Hl & Hfg); [done..|].
  destruct (following_batches id _ start step Hl Hs Hst H1 dss self1 _ Hfg Hd)
    as (self2 & He & _ & Hin & _).
  eexists self1, id, _, self2, _. split; [exact Hfol|]. split; [exact He|].
  rewrite Hi in Hin. rewrite List.filter_app, map_app, app_assoc. exact Hin.
Qed.

End Claims.

(** *** A queue with two entries *)

Definition two_inner : mem_inner :=
  {| mi_entries := [(U8 4, [Byte.x61]); (U8 5, [Byte.x62; Byte.x63])]; mi_last_id := Some (U8 5);
     mi_first_id := Some (U8 4); mi_last_acked_id := Some (U8 3); mi_memory_usage := 3 |}.
Definition two_queue : mem_queue :=
  {| mq_inner := two_inner; mq_max_memory_usage := 100; mq_subscribers := [];
     mq_next_subscriber_id := 0 |}.
Definition fresh_channel : channel := {| ch_sent := []; ch_life := None |}.

Lemma two_inv : mem_inv two_inner.
Proof. split; try done. repeat constructor; done. Defined.
Lemma two_queue_inv : queue_inv two_queue.
Proof. split; [exact two_inv|constructor]. Defined.

Lemma mem_keeps_unacknowledged_witness :
  exists self dropped, mem_run (B := checked_build) (mem_queue_new (Some (U8 254)) 2)
      [MEnqueue [Byte.x61] [[Byte.x62]]; MAck (U8 255); MEnqueue [Byte.x63] []] = Ok self /\
    [(U8 255, [Byte.x61]); (U16 256, [Byte.x62]); (U16 257, [Byte.x63])] =
      dropped ++ mi_entries (mq_inner self) /\
    Forall (acked_by (mi_last_acked_id (mq_inner self))) dropped.
Proof.
  destruct (mem_keeps_unacknowledged (B := checked_build) (Some (U8 254)) 2
    [MEnqueue [Byte.x61] [[Byte.x62]]; MAck (U8 255); MEnqueue [Byte.x63] []])
    as (_ & self & dropped & Hr & He & Hd & _).
  - done.
  - repeat constructor; done.
  - exists self, dropped. split; [exact Hr|]. split; [exact He|exact Hd].
Defined.

Lemma mem_stays_bounded_witness :
  exists self, mem_run (B := checked_build) (mem_queue_new (Some (U8 254)) 2)
      [MEnqueue [Byte.x61] [[Byte.x62]]; MAck (U8 255); MEnqueue [Byte.x63] []] = Ok self /\
    data_size (mi_entries (mq_inner self)) <= Z.max 2
      (data_size (pending (mi_last_acked_id (mq_inner self))
        [(U8 255, [Byte.x61]); (U16 256, [Byte.x62]); (U16 257, [Byte.x63])])).
Proof.
  apply (mem_stays_bounded (B := checked_build) (Some (U8 254)) 2
    [MEnqueue [Byte.x61] [[Byte.x62]]; MAck (U8 255); MEnqueue [Byte.x63] []]).
  - done.
  - repeat constructor; done.
Defined.

Lemma mem_read_exact_witness :
  mq_read_full two_queue (U8 5) (U8 9) 1 fresh_channel =
    Some (mem_answer true None None,
      {| ch_sent := [to_read_entry DSMemory (U8 5, [Byte.x62; Byte.x63])]; ch_life := None |}).
Proof.
  rewrite (mem_read_exact two_queue (U8 5) (U8 9) 1 fresh_channel).
  - vm_eq.
  - exact two_inv.
  - done.
  - done.
  - done.
  - done.
  - done.
Defined.

Lemma mem_read_tail_exact_witness :
  exists start, uintn_val start = 4 /\
    mq_read_full_negative (B := checked_build) two_queue (U8 1) 1 1 fresh_channel =
      Some (Ok (if decide (first_in_memory two_inner start)
        then (mem_answer true (Some start) None,
              {| ch_sent := [] ++ map (to_read_entry DSMemory)
                   (limited 1 0 (List.filter (selected start None 1) (mi_entries two_inner)));
                 ch_life := None |})
        else (mem_answer false (Some start) None, fresh_channel))).
Proof.
  destruct (mem_read_tail_exact (B := checked_build) two_queue (U8 5) (U8 1) 1 1 fresh_channel)
    as (start & _ & Hv & Hr).
  - exact two_inv.
  - done.
  - done.
  - done.
  - done.
  - done.
  - exists start. split; [exact Hv|exact Hr].
Defined.

Lemma mem_follow_exact_witness :
  exists self1 id ch1 self2 last_sent,
    mq_follow_full two_queue (U8 4) (U8 4) 2 fresh_channel =
      Some (self1, mem_answer true None (Some id), ch1) /\
    enqueue_batches (B := checked_build) self1 [[[Byte.x64]; [Byte.x65]]; [[Byte.x66]]] = Ok self2 /\
    In (id, SubFollow last_sent (U8 4) 2
          {| ch_sent := map (to_read_entry DSMemory)
               [(U8 4, [Byte.x61]); (U8 6, [Byte.x64]); (U8 8, [Byte.x66])];
             ch_life := None |}) (mq_subscribers self2).
Proof.
  destruct (mem_follow_exact (B := checked_build) two_queue (U8 4) 2 fresh_channel
    [[[Byte.x64]; [Byte.x65]]; [[Byte.x66]]]) as (self1 & id & ch1 & self2 & ls & Hf & He & Hin).
  - exact two_queue_inv.
  - done.
  - done.
  - done.
  - done.
  - vm_compute. discriminate.
  - vm_compute. discriminate.
  - repeat constructor; discriminate.
  - exists self1, id, ch1, self2, ls. split; [exact Hf|]. split; [exact He|exact Hin].
Defined.
