(* ===== verification/MemInterleaved.v ===== *)
(** * Followers under interleaving

    The calls of a memory queue in the steps that its locks make of them: an
    [enqueue] numbers its entries, lets go of [inner], and notifies the subscribers
    later; a follow reads the entries and inserts its subscription later.  The
    steps of concurrent callers come in any order. *)
From Stdlib Require Import ZArith Lia List Bool Sorted Permutation.
From Stdlib Require Import Ascii String.
From Stdlib Require Strings.Byte.
From stdpp Require Import base option list gmap strings.
From S2P Require Import Prelude UBig UintN UintNFacts Types WalFormat WalReader WalReaderFacts OrderedBuffer.
From S2P Require Import Mem MemFacts MemClaims.
#[local] Open Scope Z_scope.

Section Interleaved.
Context {B : Build} {U : UBig}.

(** What is left of a call after its first step. *)
Inductive mem_task :=
| TaskNotifying (entries : list (uintn * bytes))
| TaskFollowing (plan : follow_plan) (ch : channel)
| TaskDone.

(** The calls in the order of their first steps. *)
Record mem_system := {
  mt_queue : mem_queue;
  mt_tasks : list mem_task;
}.

Inductive mem_step :=
| StepEnqueue (data : bytes)
| StepBatch (data : list bytes)
| StepFollow (from_id start_id : uintn) (step : Z) (ch : channel)
| StepTail (offset : uintn) (step : Z) (ch : channel)
| StepContinue (k : nat)
| StepAck (id : uintn)
| StepSubscribe (answers : list bool)
| StepUnsubscribe (subscriber_id : nat).

Definition started (s : mem_system) (q : mem_queue) (task : mem_task) : mem_system :=
  {| mt_queue := q; mt_tasks := mt_tasks s ++ [task] |}.

Definition notifying_task (data : option (list (uintn * bytes))) : mem_task :=
  match data with Some entries => TaskNotifying entries | None => TaskDone end.

Definition following_task (r : mem_read_result + follow_plan) (ch : channel) : mem_task :=
  match r with inl _ => TaskDone | inr plan => TaskFollowing plan ch end.

Definition continue_task (q : mem_queue) (task : mem_task) : option mem_queue :=
  match task with
  | TaskNotifying entries => match mq_notify q entries with Ok q => Some q | _ => None end
  | TaskFollowing plan ch => Some (fst (fst (mq_follow_insert q plan ch)))
  | TaskDone => Some q
  end.

(** [None]: a panic, or a loop without an end. *)
Definition step_exec (s : mem_system) (ev : mem_step) : option mem_system :=
  let q := mt_queue s in
  match ev with
  | StepEnqueue data =>
      let '(q, _, subscribers_data) := mq_number q data in
      Some (started s q (notifying_task subscribers_data))
  | StepBatch [] => Some (started s q TaskDone)
  | StepBatch data =>
      let '(q, _, entries_with_ids) := mq_number_batch q data in
      Some (started s q (notifying_task entries_with_ids))
  | StepFollow from_id start_id step ch =>
      match mq_follow_snapshot q from_id start_id step with
      | Some r => Some (started s q (following_task r ch))
      | None => None
      end
  | StepTail offset step ch =>
      match mq_tail_snapshot q offset step with
      | Some (Ok r) => Some (started s q (following_task r ch))
      | _ => None
      end
  | StepContinue k =>
      match mt_tasks s !! k with
      | Some task =>
          match continue_task q task with
          | Some q => Some {| mt_queue := q; mt_tasks := <[k := TaskDone]> (mt_tasks s) |}
          | None => None
          end
      | None => Some s
      end
  | StepAck id => Some {| mt_queue := mq_ack q id; mt_tasks := mt_tasks s |}
  | StepSubscribe answers => Some {| mt_queue := fst (mq_subscribe q answers); mt_tasks := mt_tasks s |}
  | StepUnsubscribe id => Some {| mt_queue := mq_unsubscribe q id; mt_tasks := mt_tasks s |}
  end.

Fixpoint steps_run (s : mem_system) (evs : list mem_step) : option mem_system :=
  match evs with
  | [] => Some s
  | ev :: evs => match step_exec s ev with Some s => steps_run s evs | None => None end
  end.

Definition step_ok (ev : mem_step) : Prop :=
  match ev with
  | StepAck id => uintn_ok id
  | StepFollow from_id start_id step _ => uintn_ok from_id /\ uintn_ok start_id /\ in_u 64 step /\ 1 <= step
  | StepTail offset step _ => uintn_ok offset /\ in_u 64 step /\ 1 <= step
  | _ => True
  end.

(** What a step hands to the queue. *)
Definition step_data (ev : mem_step) : list bytes :=
  match ev with StepEnqueue data => [data] | StepBatch data => data | _ => [] end.

(** The entries that some steps number, from a queue on. *)
Definition numbered_by (s : mem_system) (evs : list mem_step) : list (uintn * bytes) :=
  number_entries (next_id (mq_inner (mt_queue s))) (concat (map step_data evs)).

(** The entries that wait for their notification. *)
Definition task_entries (task : mem_task) : list (uintn * bytes) :=
  match task with TaskNotifying entries => entries | _ => [] end.
Definition notifying (s : mem_system) : list (uintn * bytes) :=
  concat (map task_entries (mt_tasks s)).

(** The entries that some steps notify the subscribers of, in this order. *)
Fixpoint notified (s : mem_system) (evs : list mem_step) : list (uintn * bytes) :=
  match evs with
  | [] => []
  | ev :: evs =>
      match ev with
      | StepContinue k => default [] (task_entries <$> mt_tasks s !! k)
      | _ => []
      end ++ match step_exec s ev with Some s => notified s evs | None => [] end
  end.

(** The two steps of a call, without another in between, are the call. *)
Lemma enqueue_steps s data q id : mq_enqueue (mt_queue s) data = Ok (q, id) ->
  steps_run s [StepEnqueue data; StepContinue (length (mt_tasks s))] = Some (started s q TaskDone).
Proof.
  unfold mq_enqueue. cbn [steps_run step_exec]. destruct (mq_number (mt_queue s) data) as [[q1 id1] d].
  intros Hq. cbn [started mt_tasks mt_queue]. rewrite lookup_app_r, Nat.sub_diag by lia. cbn [lookup list_lookup].
  rewrite insert_app_r_alt, Nat.sub_diag by lia.
  destruct d as [entries|]; cbn [notifying_task continue_task mq_notify_data] in *.
  - destruct (mq_notify q1 entries) as [q2| |]; ok_step; [|done..]. by injection Hq as <- _.
  - ok_step. by injection Hq as <- _.
Qed.

Lemma follow_steps s from_id start_id step ch q r ch' :
  mq_follow_full (mt_queue s) from_id start_id step ch = Some (q, r, ch') ->
  steps_run s [StepFollow from_id start_id step ch; StepContinue (length (mt_tasks s))] =
    Some (started s q TaskDone).
Proof.
  unfold mq_follow_full. cbn [steps_run step_exec].
  destruct (mq_follow_snapshot _ _ _ _) as [[r'|plan]|]; [..|done]; intros Hq;
    cbn [started mt_tasks mt_queue following_task]; rewrite lookup_app_r, Nat.sub_diag by lia;
    cbn [lookup list_lookup continue_task]; rewrite insert_app_r_alt, Nat.sub_diag by lia.
  - by injection Hq as <- _ _.
  - destruct (mq_follow_insert _ _ _) as [[q1 r1] ch1]. by injection Hq as <- _ _.
Qed.

(** ** The invariant *)

Definition next_of (s : mem_system) : Z := next_after (mi_last_id (mq_inner (mt_queue s))).

Definition task_ok (next : Z) (task : mem_task) : Prop :=
  match task with
  | TaskNotifying entries => Forall (fun e => uintn_ok (fst e) /\ uintn_val (fst e) < next) entries
  | TaskFollowing plan _ =>
      last_ok (fp_last_sent_id plan) /\ uintn_ok (fp_from_id plan) /\ in_u 64 (fp_step plan) /\ 1 <= fp_step plan
  | TaskDone => True
  end.

Definition system_inv (s : mem_system) : Prop :=
  queue_inv (mt_queue s) /\ Forall (task_ok (next_of s)) (mt_tasks s).

Lemma task_ok_later n m task : n <= m -> task_ok n task -> task_ok m task.
Proof.
  intros Hn. destruct task; [|done..]. cbn. intros H. eapply Forall_impl; [exact H|].
  intros e [? ?]. split; [done|lia].
Qed.

Lemma tasks_later n m tasks : n <= m -> Forall (task_ok n) tasks -> Forall (task_ok m) tasks.
Proof. intros Hn H. eapply Forall_impl; [exact H|]. intros t. by apply task_ok_later. Qed.

Lemma number_entries_one self data : mq_number self data =
  let '(q, _, entries) := mq_number_batch self [data] in (q, next_id (mq_inner self), entries).
Proof. reflexivity. Qed.

Lemma number_batch_inv self d ds : queue_inv self ->
  let numbered := number_entries (next_id (mq_inner self)) (d :: ds) in
  exists self', mq_number_batch self (d :: ds) =
      (self', map fst numbered, if bool_decide (mq_subscribers self = []) then None else Some numbered) /\
    queue_inv self' /\ mq_subscribers self' = mq_subscribers self /\
    next_after (mi_last_id (mq_inner self')) = next_after (mi_last_id (mq_inner self)) + zlen (d :: ds) /\
    Forall (fun e => uintn_ok (fst e)) numbered /\
    consecutive (next_after (mi_last_id (mq_inner self))) numbered /\
    forall more, number_entries (next_id (mq_inner self)) ((d :: ds) ++ more) =
      numbered ++ number_entries (next_id (mq_inner self')) more.
Proof.
  intros [Hinv Hsub] numbered. unfold mq_number_batch. cbn zeta.
  pose proof (push_inv (mq_inner self) ds d Hinv) as Hpush.
  destruct (next_id_spec _ (mv_last_ok _ Hinv)) as [Hno Hnv].
  destruct (number_entries_spec _ (d :: ds) Hno) as (Hids & Hcons & _).
  destruct (last_number _ d ds Hno) as (l & Hl & Hlo & Hlv).
  destruct (cleanup_spec (mq_max_memory_usage self) _ Hpush) as (Hci & Hcl & _).
  fold numbered in Hids, Hcons, Hl, Hcl, Hci |- *. eexists. split; [reflexivity|].
  cbn [set_inner mq_inner mq_subscribers]. split_and!; try done.
  - rewrite Hcl. cbn [mi_last_id push_entries]. rewrite Hl, zlen_cons. cbn [next_after]. lia.
  - by rewrite Hnv in Hcons.
  - intros more. rewrite (number_app _ d ds more l Hl). fold numbered. do 2 f_equal.
    set (inner' := cleanup_unlocked _ _) in *. unfold next_id. rewrite Hcl.
    cbn [mi_last_id push_entries]. by rewrite Hl.
Qed.

Lemma notify_inv q entries : queue_inv q -> Forall (fun e => uintn_ok (fst e)) entries ->
  exists q', mq_notify q entries = Ok q' /\ queue_inv q' /\ mq_inner q' = mq_inner q /\
    notify_subscribers entries (mq_subscribers q) = Ok (mq_subscribers q').
Proof.
  intros [Hi Hs] He. destruct (notify_total entries _ He Hs) as (subs & Hn & Hs').
  unfold mq_notify. rewrite Hn. ok_step. eexists. split_and!; [reflexivity|by split|done|done].
Qed.

Lemma insert_inv q plan ch : queue_inv q -> task_ok 0 (TaskFollowing plan ch) ->
  let q' := fst (fst (mq_follow_insert q plan ch)) in
  queue_inv q' /\ mq_inner q' = mq_inner q /\ exists extra, mq_subscribers q' = mq_subscribers q ++ extra.
Proof.
  intros [Hi Hs] Hp. unfold mq_follow_insert. destruct (send_all _ _) as [[|] ch'].
  - cbn [add_subscriber fst mq_inner mq_subscribers]. split; [|split; [done|by eexists]].
    split; [done|]. apply Forall_app. split; [done|]. by repeat constructor; apply Hp.
  - cbn [fst]. split; [done|]. split; [done|]. exists []. by rewrite app_nil_r.
Qed.

Lemma last_ok_selected inner from start step : mem_inv inner -> uintn_ok start -> uintn_ok from ->
  in_u 64 step -> 1 <= step ->
  exists entries, collect None 0 step (skip_before start (mi_entries inner)) start 0 = Some entries /\
    entries = List.filter (selected start None step) (mi_entries inner) /\
    last_ok (option_map fst (last entries)).
Proof.
  intros Hi Hs Hf Hst H1. rewrite collect_memory by done. unfold limited. rewrite decide_False by lia.
  eexists. split; [reflexivity|]. split; [done|]. pose proof (last_selected inner start step Hi) as Hl.
  destruct (last _); [apply Hl|done].
Qed.

Lemma snapshot_inv q from start step ch n : queue_inv q -> uintn_ok from -> uintn_ok start ->
  in_u 64 step -> 1 <= step ->
  exists r, mq_follow_snapshot q from start step = Some r /\ task_ok n (following_task r ch).
Proof.
  intros [Hi _] Hf Hs Hst H1. unfold mq_follow_snapshot. destruct (mi_first_id (mq_inner q)) as [f|].
  - destruct (uintn_ltb start f); [by eexists|].
    destruct (last_ok_selected (mq_inner q) from start step) as (es & -> & _ & Hl); [done..|].
    eexists. by split.
  - eexists. by split.
Qed.

Lemma tail_snapshot_inv q offset step ch n : queue_inv q -> uintn_ok offset -> in_u 64 step -> 1 <= step ->
  exists r, mq_tail_snapshot q offset step = Some (Ok r) /\ task_ok n (following_task r ch).
Proof.
  intros [Hi _] Ho Hst H1. pose proof (mv_last_ok _ Hi) as Hl. unfold mq_tail_snapshot.
  destruct (uintn_eqb offset uintn_zero).
  - eexists. split; [reflexivity|]. cbn. split_and!; try done.
    destruct (mi_last_id (mq_inner q)); [|done]. apply add_spec; [done|by apply canonical_ok, from_u64_spec].
  - destruct (mi_last_id (mq_inner q)) as [l|]; [|by eexists].
    destruct (tail_start_spec l offset Hl Ho) as (start & -> & Hs & _).
    destruct (mi_first_id (mq_inner q)) as [f|]; [|by eexists].
    destruct (uintn_ltb start f); [by eexists|].
    destruct (last_ok_selected (mq_inner q) start start step) as (es & -> & _ & Hlo); [done..|].
    eexists. by split.
Qed.

(** ** What a step does *)

Lemma notifying_started s q task : notifying (started s q task) = notifying s ++ task_entries task.
Proof. unfold notifying. cbn [started mt_tasks]. rewrite map_app, concat_app. cbn. by rewrite app_nil_r. Qed.

Lemma notifying_done s q k task : mt_tasks s !! k = Some task ->
  notifying s ≡ₚ task_entries task ++
    notifying {| mt_queue := q; mt_tasks := <[k := TaskDone]> (mt_tasks s) |}.
Proof.
  intros Hk. unfold notifying. cbn [mt_tasks]. rewrite insert_take_drop by by eapply lookup_lt_Some.
  rewrite <- (take_drop_middle _ _ _ Hk) at 1. rewrite !map_app, !concat_app. cbn [map concat task_entries app].
  by rewrite !app_assoc, (Permutation_app_comm (concat _)).
Qed.

Lemma notifying_same s q k task : mt_tasks s !! k = Some task -> task_entries task = [] ->
  notifying {| mt_queue := q; mt_tasks := <[k := TaskDone]> (mt_tasks s) |} = notifying s.
Proof.
  intros Hk Ht. unfold notifying. cbn [mt_tasks]. f_equal.
  change (task_entries <$> <[k := TaskDone]> (mt_tasks s) = task_entries <$> mt_tasks s).
  rewrite list_fmap_insert. apply list_insert_id. rewrite list_lookup_fmap, Hk. cbn. by rewrite Ht.
Qed.

(** It numbers entries; *)
Definition numbers (s : mem_system) (ev : mem_step) (s' : mem_system) : Prop :=
  exists d ds, step_data ev = d :: ds /\
  let numbered := number_entries (next_id (mq_inner (mt_queue s))) (d :: ds) in
  Forall (fun e => uintn_ok (fst e)) numbered /\ consecutive (next_of s) numbered /\
  mq_subscribers (mt_queue s') = mq_subscribers (mt_queue s) /\
  notifying s' = notifying s ++ (if bool_decide (mq_subscribers (mt_queue s) = []) then [] else numbered) /\
  next_of s' = next_of s + zlen (d :: ds) /\
  forall more, number_entries (next_id (mq_inner (mt_queue s))) ((d :: ds) ++ more) =
    numbered ++ number_entries (next_id (mq_inner (mt_queue s'))) more.

(** or it notifies the subscribers of some; *)
Definition notifies (s : mem_system) (ev : mem_step) (s' : mem_system) : Prop :=
  exists k entries, ev = StepContinue k /\ mt_tasks s !! k = Some (TaskNotifying entries) /\
  notifying s ≡ₚ entries ++ notifying s' /\
  Forall (fun e => uintn_ok (fst e) /\ uintn_val (fst e) < next_of s) entries /\
  notify_subscribers entries (mq_subscribers (mt_queue s)) = Ok (mq_subscribers (mt_queue s')).

(** or it does neither. *)
Definition quiet (s : mem_system) (ev : mem_step) (s' : mem_system) : Prop :=
  notifying s' = notifying s /\ notified s [ev] = [] /\
  forall id sub, ev <> StepUnsubscribe id -> In (id, sub) (mq_subscribers (mt_queue s)) ->
    In (id, sub) (mq_subscribers (mt_queue s')).

Record stepped (s : mem_system) (ev : mem_step) (s' : mem_system) : Prop := {
  sd_inv : system_inv s';
  sd_tasks k task : mt_tasks s !! k = Some task -> ev <> StepContinue k -> mt_tasks s' !! k = Some task;
  sd_number : step_data ev = [] ->
    next_id (mq_inner (mt_queue s')) = next_id (mq_inner (mt_queue s)) /\ next_of s' = next_of s;
  sd_case : numbers s ev s' \/ step_data ev = [] /\ (notifies s ev s' \/ quiet s ev s');
}.

Lemma started_tasks s q task k t : mt_tasks s !! k = Some t -> mt_tasks (started s q task) !! k = Some t.
Proof. intros Hk. cbn [started mt_tasks]. rewrite lookup_app_l; [done|by eapply lookup_lt_Some]. Qed.

Lemma numbers_step s ev d ds q' : system_inv s -> step_data ev = d :: ds -> (forall k, ev <> StepContinue k) ->
  let numbered := number_entries (next_id (mq_inner (mt_queue s))) (d :: ds) in
  mq_number_batch (mt_queue s) (d :: ds) = (q', map fst numbered,
    if bool_decide (mq_subscribers (mt_queue s) = []) then None else Some numbered) ->
  stepped s ev (started s q' (notifying_task
    (if bool_decide (mq_subscribers (mt_queue s) = []) then None else Some numbered))).
Proof.
  intros [Hq Ht] Hdata Hev numbered E.
  destruct (number_batch_inv (mt_queue s) d ds Hq) as (q1 & E1 & Hq1 & Hsub & Hnext & Hok & Hcons & Hmore).
  rewrite E in E1. injection E1 as <-. fold numbered in Hok, Hcons, Hmore.
  pose proof (zlen_nonneg (d :: ds)) as Hz. split.
  - split; [done|]. cbn [started mt_tasks mt_queue]. apply Forall_app. split.
    + eapply tasks_later; [|exact Ht]. unfold next_of. cbn [started mt_queue]. lia.
    + constructor; [|constructor]. case_bool_decide; [done|]. cbn [notifying_task task_ok].
      apply List.Forall_forall. intros e He. split; [by apply (proj1 (List.Forall_forall _ _) Hok)|].
      pose proof (consecutive_in _ _ _ Hcons He). unfold next_of. cbn [started mt_queue].
      assert (zlen numbered = zlen (d :: ds)) by apply zlen_number. lia.
  - intros k t Hk _. by apply started_tasks.
  - by rewrite Hdata.
  - left. exists d, ds. split; [done|]. cbn zeta. fold numbered. split_and!; try done.
    rewrite notifying_started. by case_bool_decide.
Qed.

(** A call that is over, or a follow, starts; or the queue changes otherwise. *)
Lemma quiet_step s ev q' tasks' : system_inv s -> step_data ev = [] -> queue_inv q' ->
  mi_last_id (mq_inner q') = mi_last_id (mq_inner (mt_queue s)) ->
  let s' := {| mt_queue := q'; mt_tasks := tasks' |} in
  Forall (task_ok (next_of s)) tasks' -> notifying s' = notifying s ->
  (forall k task, mt_tasks s !! k = Some task -> ev <> StepContinue k -> tasks' !! k = Some task) ->
  notified s [ev] = [] ->
  (forall id sub, ev <> StepUnsubscribe id -> In (id, sub) (mq_subscribers (mt_queue s)) ->
    In (id, sub) (mq_subscribers q')) ->
  stepped s ev s'.
Proof.
  intros [Hq Ht] Hd Hq' Hl s' Ht' Hn Hk Hnot Hsub.
  assert (next_of s' = next_of s) as Hnext by (unfold next_of; cbn; by rewrite Hl).
  split.
  - split; [done|]. by rewrite Hnext.
  - done.
  - intros _. split; [|done]. unfold next_id. cbn [mt_queue s']. by rewrite Hl.
  - right. split; [done|]. right. by split.
Qed.

Lemma start_step s ev task : system_inv s -> step_data ev = [] -> (forall k, ev <> StepContinue k) ->
  task_ok (next_of s) task -> task_entries task = [] -> notified s [ev] = [] ->
  stepped s ev (started s (mt_queue s) task).
Proof.
  intros Hs Hd Hev Hok Ht Hn. destruct Hs as [Hq Hts]. apply quiet_step; try done.
  - apply Forall_app. by repeat constructor.
  - pose proof (notifying_started s (mt_queue s) task) as E. rewrite Ht, app_nil_r in E. exact E.
  - intros k t Hk _. exact (started_tasks s (mt_queue s) task k t Hk).
Qed.

Lemma continue_step s k : system_inv s -> exists s', step_exec s (StepContinue k) = Some s' /\
  stepped s (StepContinue k) s'.
Proof.
  intros Hs. pose proof Hs as [Hq Ht]. cbn [step_exec].
  destruct (mt_tasks s !! k) as [task|] eqn:Hk.
  2:{ eexists. split; [reflexivity|]. destruct s as [q tasks]. apply quiet_step; try done.
      cbn [notified step_exec]. rewrite Hk. done. }
  pose proof (proj1 (Forall_lookup _ _) Ht _ _ Hk) as Hok.
  assert (forall k' t, mt_tasks s !! k' = Some t -> StepContinue k <> StepContinue k' ->
    <[k := TaskDone]> (mt_tasks s) !! k' = Some t) as Hkeep
    by (intros k' t Hk' Hne; rewrite list_lookup_insert_ne; [done|congruence]).
  assert (Forall (task_ok (next_of s)) (<[k := TaskDone]> (mt_tasks s))) as Hdone
    by (apply Forall_insert; [exact Ht|done]).
  destruct task as [entries|plan ch|]; cbn [continue_task].
  - destruct (notify_inv (mt_queue s) entries Hq) as (q' & -> & Hq' & Hi & Hn).
    { eapply Forall_impl; [exact Hok|]. by intros e []. }
    eexists. split; [reflexivity|]. split; cbn [mt_tasks]; try done.
    + split; [done|]. unfold next_of. cbn [mt_queue]. rewrite Hi. exact Hdone.
    + intros _. unfold next_of. cbn [mt_queue]. by rewrite Hi.
    + right. split; [done|]. left. exists k, entries. split_and!; try done.
      by apply (notifying_done s q' k (TaskNotifying entries)).
  - destruct (insert_inv (mt_queue s) plan ch Hq) as (Hq' & Hi & extra & He); [by apply Hok|].
    eexists. split; [reflexivity|]. apply quiet_step; try done.
    + by rewrite Hi.
    + by eapply notifying_same.
    + cbn [notified step_exec]. rewrite Hk. cbn. done.
    + intros id sub _ Hin. rewrite He. apply in_or_app. by left.
  - eexists. split; [reflexivity|]. apply quiet_step; try done.
    + by eapply notifying_same.
    + cbn [notified step_exec]. rewrite Hk. cbn. done.
Qed.

Lemma step_inv s ev : system_inv s -> step_ok ev -> exists s', step_exec s ev = Some s' /\ stepped s ev s'.
Proof.
  intros Hs Hok. pose proof Hs as [Hq Ht].
  destruct ev as [d|[|d ds]|from start step ch|offset step ch|k|id|answers|id]; cbn [step_exec step_ok] in *.
  - rewrite number_entries_one. destruct (number_batch_inv (mt_queue s) d [] Hq) as (q' & E & _). rewrite E.
    eexists. split; [reflexivity|]. by apply (numbers_step s (StepEnqueue d) d []).
  - eexists. split; [reflexivity|]. by apply start_step.
  - destruct (number_batch_inv (mt_queue s) d ds Hq) as (q' & E & _). rewrite E.
    eexists. split; [reflexivity|]. by apply (numbers_step s (StepBatch (d :: ds)) d ds).
  - destruct Hok as (Hf & Hst & Hs1 & Hs2).
    destruct (snapshot_inv (mt_queue s) from start step ch (next_of s) Hq) as (r & E & Hr); [done..|].
    rewrite E. eexists. split; [reflexivity|]. apply start_step; try done; [by destruct r|].
    cbn [notified step_exec]. by rewrite E.
  - destruct Hok as (Ho & Hs1 & Hs2).
    destruct (tail_snapshot_inv (mt_queue s) offset step ch (next_of s) Hq) as (r & E & Hr); [done..|].
    rewrite E. eexists. split; [reflexivity|]. apply start_step; try done; [by destruct r|].
    cbn [notified step_exec]. by rewrite E.
  - by apply continue_step.
  - eexists. split; [reflexivity|]. apply quiet_step; try done; [by apply ack_inv|].
    unfold mq_ack. cbn [mq_inner set_inner]. by rewrite cleanup_last.
  - eexists. split; [reflexivity|]. apply quiet_step; try done.
    + destruct Hq as [Hi Hsub]. split; [done|]. cbn. apply Forall_app. by repeat constructor.
    + intros i sub _ Hin. cbn. apply in_or_app. by left.
  - eexists. split; [reflexivity|]. apply quiet_step; try done.
    + destruct Hq as [Hi Hsub]. split; [done|]. cbn [mq_unsubscribe set_inner mq_subscribers].
      apply List.Forall_forall. intros x [Hx _]%filter_In. by apply (proj1 (List.Forall_forall _ _) Hsub).
    + intros i sub Hne Hin. cbn [mq_unsubscribe set_inner mq_subscribers]. apply filter_In. split; [done|].
      rewrite bool_decide_false; [done|]. cbn [fst]. congruence.
Qed.

Lemma run_inv s evs : system_inv s -> Forall step_ok evs -> exists s', steps_run s evs = Some s' /\ system_inv s'.
Proof.
  revert s. induction evs as [|ev evs IH]; intros s Hs Hok; [by eexists|].
  apply Forall_cons in Hok as [Hev Hok]. destruct (step_inv s ev Hs Hev) as (s1 & Hx & Hst).
  destruct (IH s1 (sd_inv _ _ _ Hst) Hok) as (s' & Hr & Hs'). exists s'. cbn [steps_run]. by rewrite Hx.
Qed.

Lemma numbered_cons s ev s' evs : stepped s ev s' -> numbered_by s (ev :: evs) =
  number_entries (next_id (mq_inner (mt_queue s))) (step_data ev) ++ numbered_by s' evs.
Proof.
  intros Hst. unfold numbered_by. cbn [map concat].
  destruct (sd_case _ _ _ Hst) as [(d & ds & Hd & _ & _ & _ & _ & _ & Hmore)|[Hd _]].
  - rewrite Hd. apply Hmore.
  - rewrite Hd. cbn [number_entries app]. by destruct (sd_number _ _ _ Hst Hd) as [-> _].
Qed.

Lemma notified_cons s ev s' evs : step_exec s ev = Some s' ->
  notified s (ev :: evs) = notified s [ev] ++ notified s' evs.
Proof. intros Hx. cbn [notified]. by rewrite Hx, app_nil_r. Qed.

Lemma next_grows s ev s' : stepped s ev s' -> next_of s <= next_of s'.
Proof.
  intros Hst. destruct (sd_case _ _ _ Hst) as [(d & ds & _ & _ & _ & _ & _ & -> & _)|[Hd _]].
  - pose proof (zlen_nonneg (d :: ds)). lia.
  - by destruct (sd_number _ _ _ Hst Hd) as [_ ->].
Qed.

(** ** A follower *)

Section Follower.
Context (from : uintn) (step : Z) (last_sent : option uintn) (n0 : Z).
Hypothesis Hlast : last_ok last_sent.
Hypothesis Hfrom : uintn_ok from.
Hypothesis Hstep : in_u 64 step /\ 1 <= step.
Hypothesis Hbelow : match last_sent with Some l => uintn_val l < n0 | None => True end.
Hypothesis Hstart : uintn_val from <= n0.

Abbreviation wanted := (List.filter (wants last_sent from step)).
Abbreviation on_steps := (List.filter (selected from None step)).

(** Of what is numbered after the snapshot it takes what is on the step. *)
Lemma wanted_new n l : n0 <= n -> consecutive n l -> wanted l = on_steps l.
Proof.
  intros Hn Hc. apply List.filter_ext_in. intros e He. pose proof (consecutive_in _ _ _ Hc He).
  apply wants_new; [apply Hstep..| |lia]. destruct last_sent; [lia|done].
Qed.

(** Before its subscription is inserted, what is notified misses it. *)
Lemma planned_step s ev s' new missed : stepped s ev s' -> n0 <= next_of s ->
  wanted (notifying s) ++ missed ≡ₚ on_steps new ->
  exists missed', wanted (notifying s') ++ missed' ≡ₚ
    on_steps (new ++ number_entries (next_id (mq_inner (mt_queue s))) (step_data ev)).
Proof.
  intros Hst Hn Hp. rewrite List.filter_app.
  destruct (sd_case _ _ _ Hst) as [(d & ds & Hd & _ & Hc & _ & Hnot & _)|[Hd [(k & es & _ & _ & Hnot & _)|(Hnot & _)]]];
    rewrite Hd; [|cbn [number_entries List.filter]; rewrite app_nil_r..].
  - rewrite Hnot, List.filter_app. case_bool_decide.
    + exists (missed ++ on_steps (number_entries (next_id (mq_inner (mt_queue s))) (d :: ds))).
      cbn [List.filter]. by rewrite app_nil_r, app_assoc, Hp.
    + exists missed. rewrite (wanted_new _ _ Hn Hc), <- Hp, <- !app_assoc.
      apply Permutation_app_head, Permutation_app_comm.
  - exists (wanted es ++ missed). rewrite <- Hp, (filter_Permutation _ _ _ Hnot), List.filter_app, !app_assoc.
    apply Permutation_app_tail, Permutation_app_comm.
  - exists missed. by rewrite Hnot.
Qed.

Lemma planned_run s evs k task new missed : system_inv s -> Forall step_ok evs ->
  mt_tasks s !! k = Some task -> ~ In (StepContinue k) evs -> n0 <= next_of s ->
  wanted (notifying s) ++ missed ≡ₚ on_steps new ->
  exists s' missed', steps_run s evs = Some s' /\ system_inv s' /\ mt_tasks s' !! k = Some task /\
    n0 <= next_of s' /\ wanted (notifying s') ++ missed' ≡ₚ on_steps (new ++ numbered_by s evs).
Proof.
  revert s new missed. induction evs as [|ev evs IH]; intros s new missed Hs Hok Hk Hni Hn Hp.
  { exists s, missed. unfold numbered_by. cbn. by rewrite app_nil_r. }
  apply Forall_cons in Hok as [Hev Hok]. destruct (step_inv s ev Hs Hev) as (s1 & Hx & Hst).
  destruct (planned_step s ev s1 new missed Hst Hn Hp) as [missed1 Hp1].
  assert (mt_tasks s1 !! k = Some task) as Hk1
    by (apply (sd_tasks _ _ _ Hst); [done|]; intros ->; apply Hni; by left).
  assert (n0 <= next_of s1) as Hn1 by (pose proof (next_grows _ _ _ Hst); lia).
  destruct (IH s1 _ missed1 (sd_inv _ _ _ Hst) Hok Hk1 (fun i => Hni (or_intror i)) Hn1 Hp1)
    as (s' & m' & Hr & Hs' & Hk' & Hn' & Hp').
  exists s', m'. cbn [steps_run]. rewrite Hx, (numbered_cons _ _ _ _ Hst), app_assoc. by split_and!.
Qed.

(** Once it is inserted, each notification sends it what it wants. *)
Definition subscribed (id : nat) (sent : list read_entry) (s : mem_system) : Prop :=
  In (id, SubFollow last_sent from step {| ch_sent := sent; ch_life := None |}) (mq_subscribers (mt_queue s)).

Lemma subscribed_step id sent s ev s' : system_inv s -> step_exec s ev = Some s' -> stepped s ev s' ->
  ev <> StepUnsubscribe id -> n0 <= next_of s -> subscribed id sent s ->
  subscribed id (sent ++ map (to_read_entry DSMemory) (wanted (notified s [ev]))) s' /\
  wanted (notified s [ev]) ++ wanted (notifying s') ≡ₚ
    wanted (notifying s) ++ on_steps (number_entries (next_id (mq_inner (mt_queue s))) (step_data ev)).
Proof.
  intros Hs Hx Hst Hev Hn Hin.
  destruct (sd_case _ _ _ Hst) as [(d & ds & Hd & _ & Hc & Hsub & Hnot & _)|[Hd [(k & es & -> & Hk & Hnot & Hok & Hsub)|(Hnot & Hnone & Hsub)]]].
  - assert (notified s [ev] = []) as -> by (destruct ev; try done; cbn [notified]; by rewrite Hx).
    cbn [map List.filter app]. rewrite app_nil_r. split; [unfold subscribed; by rewrite Hsub|].
    rewrite Hnot, List.filter_app, Hd, bool_decide_false.
    + by rewrite (wanted_new _ _ Hn Hc).
    + unfold subscribed in Hin. intros E. by rewrite E in Hin.
  - assert (notified s [StepContinue k] = es) as ->
      by (cbn [notified]; rewrite Hk, Hx; cbn; by rewrite app_nil_r).
    rewrite Hd. cbn [number_entries List.filter]. rewrite app_nil_r, <- List.filter_app. split.
    + eapply notify_in; [exact Hsub|exact Hin|]. cbn [run_subscriber].
      rewrite follow_callback_open; [done|done|done|apply Hstep..| |done].
      eapply Forall_impl; [exact Hok|]. by intros e [].
    + symmetry. by apply filter_Permutation.
  - rewrite Hnone, Hd. cbn [number_entries map List.filter app]. rewrite !app_nil_r, Hnot.
    split; [by apply Hsub|done].
Qed.

Lemma subscribed_run id sent s evs : system_inv s -> Forall step_ok evs ->
  ~ In (StepUnsubscribe id) evs -> n0 <= next_of s -> subscribed id sent s ->
  exists s', steps_run s evs = Some s' /\
    subscribed id (sent ++ map (to_read_entry DSMemory) (wanted (notified s evs))) s' /\
    wanted (notified s evs) ++ wanted (notifying s') ≡ₚ wanted (notifying s) ++ on_steps (numbered_by s evs).
Proof.
  revert s sent. induction evs as [|ev evs IH]; intros s sent Hs Hok Hun Hn Hin.
  { exists s. cbn. rewrite !app_nil_r. by split. }
  apply Forall_cons in Hok as [Hev Hok]. destruct (step_inv s ev Hs Hev) as (s1 & Hx & Hst).
  destruct (subscribed_step id sent s ev s1 Hs Hx Hst) as [Hin1 Hp1]; [|done|done|].
  { intros ->. apply Hun. by left. }
  assert (n0 <= next_of s1) as Hn1 by (pose proof (next_grows _ _ _ Hst); lia).
  destruct (IH s1 _ (sd_inv _ _ _ Hst) Hok (fun i => Hun (or_intror i)) Hn1 Hin1) as (s' & Hr & Hin' & Hp').
  exists s'. cbn [steps_run]. rewrite Hx, (numbered_cons _ _ _ evs Hst), (notified_cons _ _ _ evs Hx).
  rewrite !List.filter_app, map_app, (app_assoc sent). split; [done|]. split; [exact Hin'|].
  by rewrite <- app_assoc, Hp', app_assoc, Hp1, <- app_assoc.
Qed.

End Follower.

(** ** The snapshot *)

Lemma last_greatest n p es x e : consecutive n es -> last (List.filter p es) = Some x ->
  In e (List.filter p es) -> uintn_val (fst e) <= uintn_val (fst x).
Proof.
  revert n. induction es as [|a es IH]; intros n Hcons Hl Hin; [done|].
  destruct Hcons as [Ha Hc]. cbn [List.filter] in *.
  destruct (p a); [|by eapply IH].
  destruct (List.filter p es) as [|b l] eqn:E.
  - cbn in Hl. injection Hl as ->. by destruct Hin as [->|[]].
  - change (last (a :: b :: l)) with (last (b :: l)) in Hl. destruct Hin as [<-|Hin]; [|by eapply IH].
    assert (In x es) as Hx.
    { apply (incl_filter p). rewrite E. apply last_Some in Hl as [l' ->]. apply in_or_app. right. by left. }
    pose proof (consecutive_in _ _ _ Hc Hx). lia.
Qed.

Lemma snapshot_last inner start step : mem_inv inner -> 1 <= step -> first_in_memory inner start ->
  uintn_val start < next_after (mi_last_id inner) ->
  exists l, option_map fst (last (List.filter (selected start None step) (mi_entries inner))) = Some l /\
    forall v, v < next_after (mi_last_id inner) ->
      v < uintn_val start \/ (v - uintn_val start) mod step = 0 -> v <= uintn_val l.
Proof.
  intros Hinv H1 Hf Hlt. pose proof (mv_consecutive _ Hinv) as Hc. unfold first_in_memory in Hf.
  rewrite (mv_first _ Hinv) in Hf. set (n := next_after _ - _) in *.
  assert (n <= uintn_val start) as Hn.
  { destruct (mi_entries inner) as [|e es]; [done|]. destruct Hc as [He _]. cbn in Hf. lia. }
  assert (forall v, uintn_val start <= v < next_after (mi_last_id inner) -> (v - uintn_val start) mod step = 0 ->
    exists e, In e (List.filter (selected start None step) (mi_entries inner)) /\ uintn_val (fst e) = v) as Hin.
  { intros v Hv Hm. destruct (consecutive_at n _ v Hc) as (e & He & Hev); [unfold n; lia|].
    exists e. split; [|done]. apply filter_In. split; [done|]. unfold selected.
    by rewrite !bool_decide_true by (rewrite ?Hev; lia || done). }
  destruct (Hin (uintn_val start)) as (e0 & He0 & Hv0); [lia|by rewrite Z.sub_diag|].
  destruct (last (List.filter _ _)) as [x|] eqn:E; [|by apply last_None in E; rewrite E in He0].
  exists (fst x). split; [done|]. intros v Hv Hcase.
  destruct (Z.ltb_spec v (uintn_val start)).
  - pose proof (last_greatest _ _ _ _ _ Hc E He0). lia.
  - destruct Hcase as [?|Hm]; [lia|]. destruct (Hin v) as (e & He & <-); [lia|done|].
    exact (last_greatest _ _ _ _ _ Hc E He).
Qed.

(** What is still to be notified then was numbered before. *)
Lemma old_unwanted s from step l : system_inv s ->
  (forall v, v < next_of s -> v < uintn_val from \/ (v - uintn_val from) mod step = 0 -> v <= uintn_val l) ->
  1 <= step -> List.filter (wants (Some l) from step) (notifying s) = [].
Proof.
  intros [_ Ht] Hl H1. apply filter_none. intros e He. unfold notifying in He.
  apply in_concat in He as (es & Hes & He). apply in_map_iff in Hes as (task & <- & Htask).
  pose proof (proj1 (List.Forall_forall _ _) Ht _ Htask) as Hok. destruct task as [entries| |]; [|done..].
  destruct (proj1 (List.Forall_forall _ _) Hok _ He) as [_ Hlt].
  unfold wants. apply andb_false_iff. destruct (Z.ltb_spec (uintn_val l) (uintn_val (fst e))); [|left; by apply bool_decide_false; lia].
  right. apply bool_decide_false. intros Hw.
  assert (uintn_val (fst e) <= uintn_val l); [|lia]. apply Hl; [done|].
  destruct Hw as [->|[_ Hm]]; [right; apply Z.mod_1_r|by right].
Qed.

(** ** The claim *)

Definition new_system (last_id : option uintn) (max_memory_usage : Z) : mem_system :=
  {| mt_queue := mem_queue_new last_id max_memory_usage; mt_tasks := [] |}.

Lemma new_system_inv last_id max : last_ok last_id -> system_inv (new_system last_id max).
Proof. intros Hl. split; [|constructor]. split; [by apply mem_new_inv|constructor]. Qed.

(** The first step of a follow that starts in memory. *)
Lemma follow_planned s from step ch : system_inv s -> uintn_ok from -> in_u 64 step -> 1 <= step ->
  first_in_memory (mq_inner (mt_queue s)) from ->
  uintn_val from < next_of s \/ uintn_val from = next_of s /\ notifying s = [] ->
  let entries := List.filter (selected from None step) (mi_entries (mq_inner (mt_queue s))) in
  let last_sent := option_map fst (last entries) in
  let plan := {| fp_start_id := None; fp_from_id := from; fp_step := step; fp_entries := entries;
                 fp_last_sent_id := last_sent |} in
  step_exec s (StepFollow from from step ch) = Some (started s (mt_queue s) (TaskFollowing plan ch)) /\
  last_ok last_sent /\ match last_sent with Some l => uintn_val l < next_of s | None => True end /\
  List.filter (wants last_sent from step) (notifying s) = [].
Proof.
  intros Hs Hf Hst H1 Hmem Hfrom entries last_sent plan. pose proof Hs as [[Hinv _] _].
  pose proof (last_selected (mq_inner (mt_queue s)) from step Hinv) as Hl. fold entries last_sent in Hl.
  split; [|split; [by destruct last_sent; [apply Hl|]|split; [by destruct last_sent; [apply Hl|]|]]].
  - cbn [step_exec]. unfold mq_follow_snapshot. unfold first_in_memory in Hmem.
    pose proof (mv_first _ Hinv) as Hfirst. destruct (mi_first_id (mq_inner (mt_queue s))) as [f|]; [|done].
    assert (uintn_ok f) as Hfo.
    { destruct (mi_entries (mq_inner (mt_queue s))) as [|e es] eqn:Ee; [done|]. injection Hfirst as ->.
      pose proof (mv_ids _ Hinv) as Hids. rewrite Ee in Hids. by apply Forall_cons in Hids as [? _]. }
    rewrite ltb_spec_val by (by apply ok_wf). destruct (Z.ltb_spec (uintn_val from) (uintn_val f)); [lia|].
    destruct (last_ok_selected (mq_inner (mt_queue s)) from from step) as (es & -> & -> & _); done.
  - destruct Hfrom as [Hlt|[_ ->]]; [|done].
    destruct (snapshot_last _ from step Hinv H1 Hmem Hlt) as (l & El & Hmax). fold entries last_sent in El.
    rewrite El. by apply old_unwanted.
Qed.

(** Its second one. *)
Lemma follow_inserted s k from step last_sent entries ch :
  let plan := {| fp_start_id := None; fp_from_id := from; fp_step := step; fp_entries := entries;
                 fp_last_sent_id := last_sent |} in
  system_inv s -> mt_tasks s !! k = Some (TaskFollowing plan ch) -> ch_life ch = None ->
  exists s', step_exec s (StepContinue k) = Some s' /\ system_inv s' /\ notifying s' = notifying s /\
    next_of s' = next_of s /\
    subscribed from step last_sent (mq_next_subscriber_id (mt_queue s))
      (ch_sent ch ++ map (to_read_entry DSMemory) entries) s'.
Proof.
  intros plan Hs Hk Hch. destruct (step_inv s (StepContinue k) Hs I) as (s' & Hx & Hst).
  exists s'. split; [done|]. split; [apply Hst|]. revert Hx. cbn [step_exec]. rewrite Hk.
  cbn [continue_task]. unfold mq_follow_insert. cbn [plan fp_entries fp_from_id fp_step fp_last_sent_id fp_start_id].
  rewrite send_all_open by done. cbn [add_subscriber fst]. intros [= <-].
  split; [by eapply notifying_same|]. split; [done|]. unfold subscribed. cbn [mt_queue mq_subscribers].
  apply in_or_app. right. by left.
Qed.

(** C5: a follower and concurrent callers, in every interleaving of their steps:
    the calls of the queue come in the steps into which its locks divide them
    (numbering and notifying; reading the entries and inserting the subscription),
    in any order.  A follow that starts in memory, at an id that is there or, with
    no notification outstanding, at the next one, never fails, and as long as
    nobody unsubscribes it and its channel takes what is sent, the channel
    has the entries that were in memory on its step, then, in the order of the
    notifications since its subscription, the later ones on its step.  Of all
    entries on its step that were numbered since it read the memory, each is there
    once, or is still to be notified, or was missed; and the missed ones were all
    numbered before the subscription was inserted. *)
Theorem follow_interleaved last_id max before s from step ch mid late :
  last_ok last_id -> Forall step_ok before -> steps_run (new_system last_id max) before = Some s ->
  uintn_ok from -> in_u 64 step -> 1 <= step -> ch_life ch = None ->
  first_in_memory (mq_inner (mt_queue s)) from ->
  uintn_val from < next_of s \/ uintn_val from = next_of s /\ notifying s = [] ->
  Forall step_ok (mid ++ late) -> ~ In (StepContinue (length (mt_tasks s))) mid ->
  let on_steps := List.filter (selected from None step) in
  exists s1 s2 id last_sent missed,
    steps_run s (StepFollow from from step ch :: mid) = Some s1 /\
    step_exec s1 (StepContinue (length (mt_tasks s))) = Some s2 /\
    missed ⊆+ on_steps (numbered_by s mid) /\
    (~ In (StepUnsubscribe id) late ->
     let wanted := List.filter (wants last_sent from step) in
     let received := wanted (notified s2 late) in
     exists s3, steps_run s2 late = Some s3 /\
       In (id, SubFollow last_sent from step
         {| ch_sent := ch_sent ch ++ map (to_read_entry DSMemory)
              (on_steps (mi_entries (mq_inner (mt_queue s))) ++ received);
            ch_life := None |}) (mq_subscribers (mt_queue s3)) /\
       received ++ wanted (notifying s3) ++ missed ≡ₚ
         on_steps (numbered_by s mid) ++ on_steps (numbered_by s2 late)).
Proof.
  intros Hlast Hbefore Hrun Hf Hst H1 Hch Hmem Hfrom Hok Hk on_steps. apply Forall_app in Hok as [Hmid Hlate].
  destruct (run_inv _ _ (new_system_inv last_id max Hlast) Hbefore) as (s' & Hr & Hs). rewrite Hrun in Hr.
  injection Hr as <-. destruct (follow_planned s from step ch Hs Hf Hst H1 Hmem Hfrom) as (Hx & Hlo & Hlt & Hold).
  set (last_sent := option_map fst _) in *.
  assert (uintn_val from <= next_of s) as Hle by lia.
  destruct (step_inv s (StepFollow from from step ch) Hs) as (s0 & Hx0 & Hst0); [by split_and!|].
  rewrite Hx in Hx0. injection Hx0 as <-. set (task := TaskFollowing _ ch) in *. set (s0 := started _ _ task) in *.
  assert (mt_tasks s0 !! length (mt_tasks s) = Some task) as Hk0 by by apply list_lookup_middle.
  assert (notifying s0 = notifying s) as Hn0 by (unfold s0; rewrite notifying_started; cbn; by rewrite app_nil_r).
  destruct (planned_run from step last_sent (next_of s) Hlo (conj Hst H1) Hlt Hle s0 mid (length (mt_tasks s)) task [] []
    (sd_inv _ _ _ Hst0) Hmid Hk0 Hk) as (s1 & missed & Hr1 & Hs1 & Hk1 & Hn1 & Hp1);
    [unfold next_of, s0; cbn [started mt_queue]; lia|by rewrite Hn0, Hold|].
  destruct (follow_inserted s1 _ from step _ _ ch Hs1 Hk1 Hch) as (s2 & Hx2 & Hs2 & Hn2 & Hnx & Hin2).
  exists s1, s2, (mq_next_subscriber_id (mt_queue s1)), last_sent, missed.
  cbn [steps_run]. rewrite Hx. split; [done|]. split; [done|]. cbn [app] in Hp1.
  change (numbered_by s0 mid) with (numbered_by s mid) in Hp1.
  split; [unfold on_steps; rewrite <- Hp1; by apply submseteq_inserts_l|]. intros Hun.
  set (wanted := List.filter (wants last_sent from step)). set (received := wanted (notified s2 late)).
  destruct (subscribed_run from step last_sent (next_of s) Hlo Hf (conj Hst H1) Hlt Hle _ _ s2 late Hs2 Hlate Hun
    ltac:(lia) Hin2) as (s3 & Hr3 & Hin & Hp).
  exists s3. split; [done|]. rewrite map_app, app_assoc. split; [exact Hin|].
  unfold received, wanted, on_steps. rewrite <- Hp1, app_assoc, Hp, Hn2, <- !app_assoc.
  apply Permutation_app_head, Permutation_app_comm.
Qed.

End Interleaved.

(** ** Two entries in memory *)

Definition demo_before : list mem_step := [StepBatch [[Byte.x61]; [Byte.x62]]].
Definition demo_system : mem_system :=
  default (new_system None 100) (steps_run (B := checked_build) (new_system None 100) demo_before).

(** While a follow from 1 is between its steps, an entry is numbered (nobody is
    subscribed, so nobody is notified); later, two more, notified in the other
    order. *)
Definition demo_mid : list mem_step := [StepEnqueue [Byte.x63]].
Definition demo_late : list mem_step :=
  [StepEnqueue [Byte.x64]; StepEnqueue [Byte.x65]; StepContinue 4; StepContinue 3].

Definition demo_follower : option (list (uintn * bytes)) :=
  s ← steps_run (B := checked_build) demo_system
        (StepFollow (U8 1) (U8 1) 1 fresh_channel :: demo_mid ++ StepContinue 1 :: demo_late);
  match mq_subscribers (mt_queue s) with
  | [(_, SubFollow _ _ _ ch)] => Some (map (fun e => (re_id e, re_data e)) (ch_sent ch))
  | _ => None
  end.

(** The entry 2 never reaches it, and 4 comes before 3. *)
Theorem follow_misses_and_reorders :
  demo_follower = Some [(U8 1, [Byte.x62]); (U8 4, [Byte.x65]); (U8 3, [Byte.x64])].
Proof. vm_eq. Qed.

(** A notification that is late reaches a follow from the next id, with an entry
    from before it. *)
Theorem late_notice_before_start :
  (s ← steps_run (B := checked_build) (new_system None 100)
        [StepSubscribe []; StepEnqueue [Byte.x61]; StepFollow (U8 1) (U8 1) 1 fresh_channel;
         StepContinue 1; StepContinue 0];
   match mq_subscribers (mt_queue s) with
   | [_; (_, SubFollow _ _ _ ch)] => Some (map (fun e => (re_id e, re_data e)) (ch_sent ch))
   | _ => None
   end) = Some [(U8 0, [Byte.x61])].
Proof. vm_eq. Qed.

Lemma follow_interleaved_witness :
  exists s1 s2 s3 id last_sent missed ch,
    steps_run (B := checked_build) demo_system (StepFollow (U8 1) (U8 1) 1 fresh_channel :: demo_mid) = Some s1 /\
    step_exec (B := checked_build) s1 (StepContinue 1) = Some s2 /\
    steps_run (B := checked_build) s2 demo_late = Some s3 /\
    In (id, SubFollow last_sent (U8 1) 1 ch) (mq_subscribers (mt_queue s3)) /\
    missed ⊆+ [(U8 2, [Byte.x63])].
Proof.
  destruct (follow_interleaved (B := checked_build) None 100 demo_before demo_system (U8 1) 1 fresh_channel
    demo_mid demo_late) as (s1 & s2 & id & last_sent & missed & H1 & H2 & Hm & Hl).
  - done.
  - repeat constructor.
  - vm_compute. reflexivity.
  - done.
  - done.
  - done.
  - done.
  - vm_compute. discriminate.
  - left. vm_compute. reflexivity.
  - repeat constructor.
  - intros [E|[]]. discriminate E.
  - destruct Hl as (s3 & H3 & Hin & _); [intros [E|[E|[E|[E|[]]]]]; discriminate E|].
    exists s1, s2, s3, id, last_sent, missed. eexists. exact (conj H1 (conj H2 (conj H3 (conj Hin Hm)))).
Defined.
