(* ===== verification/ReaderFsm.v ===== *)
(** * The reader ([normfs/src/reader_fsm/mod.rs], [fsm.rs])

    A state machine: memory first, else the file of the first id, then file
    after file (store, WAL, cloud), trying memory again after each one. *)
From Stdlib Require Import ZArith Lia List Bool.
From Stdlib Require Import Ascii String.
From stdpp Require Import base option list gmap strings.
From S2P Require Import Prelude UBig UintN UintNFacts Paths PathsFacts FileTree Types.
From S2P Require Import WalFormat WalReader OrderedBuffer AckWriter WalWriter.
From S2P Require Import Crypto StoreFormat Store WalStore Cloud Lookup Mem.
#[local] Open Scope Z_scope.

Section Fsm.
Context {B : Build} {U : UBig} {H : HexCrate} {X : Hasher} {C : CryptoLib} {Z' : CompressLib}.
Context {S3 : S3Http}.

(** [enum Error] *)
Inductive nf_error :=
| EWal (e : wal_error)
| EStore (e : store_error)
| ECloud (e : cloud_error)
| EIo
| EQueueNotFound
| EQueueEmpty
| ENotFound
| EClientDisconnected.

(** [struct ReadContext]; the sender is the channel of the world. *)
Record read_context := {
  rc_queue : queue_id;
  rc_file_id : uintn;
  rc_next_id : uintn;
  rc_step : Z;
  rc_last_id : option uintn;
}.

Definition with_file_id (self : read_context) (file_id : uintn) : read_context :=
  {| rc_queue := rc_queue self; rc_file_id := file_id; rc_next_id := rc_next_id self;
     rc_step := rc_step self; rc_last_id := rc_last_id self |}.

Definition with_next_id (self : read_context) (next_id : uintn) : read_context :=
  {| rc_queue := rc_queue self; rc_file_id := rc_file_id self; rc_next_id := next_id;
     rc_step := rc_step self; rc_last_id := rc_last_id self |}.

(** [PrefetchHandle]: the result of the task, which reads when it is spawned;
    [Panic] when it panicked. *)
Definition prefetch_handle := option (outcome nf_error (option (bytes * data_source))).

(** [enum ReaderState] *)
Inductive reader_state :=
| LookupPositive (queue : queue_id) (offset : uintn) (limit : Z)
| LookupNegative (queue : queue_id) (offset : uintn) (limit : Z)
| LookupFile (queue : queue_id) (start_id : uintn) (end_id : option uintn) (step : Z)
| ReadFile (ctx : read_context)
| ReadStore (ctx : read_context)
| ReadWal (ctx : read_context)
| ReadS3 (ctx : read_context)
| ExtractWalBytes (ctx : read_context) (store_bytes : bytes) (source : data_source)
| ParseWalBytes (ctx : read_context) (wal_bytes : bytes) (source : data_source)
| ReadNextFile (current_file : uintn) (ctx : read_context) (prefetch : prefetch_handle)
| Subscribed
| Completed
| Failed (e : nf_error).

Definition is_terminal (s : reader_state) : bool :=
  match s with Completed | Failed _ | Subscribed => true | _ => false end.

(** The stores, the memory and the channel of the client. *)
Record fsm_world := {
  fw_lk : lk_state;
  fw_mem : mem_store;
  fw_chan : channel;
}.

Definition set_chan (w : fsm_world) (ch : channel) : fsm_world :=
  {| fw_lk := fw_lk w; fw_mem := fw_mem w; fw_chan := ch |}.
Definition set_mem (w : fsm_world) (mem : mem_store) (ch : channel) : fsm_world :=
  {| fw_lk := fw_lk w; fw_mem := mem; fw_chan := ch |}.

(** A transition: [None] when a call of it does not end. *)
Definition step_result : Type := option (fsm_world * outcome nf_error reader_state).

Definition goto (w : fsm_world) (s : reader_state) : step_result := Some (w, Ok s).

(** [if sender.is_closed() { return Failed(ClientDisconnected) }] *)
Definition if_open (w : fsm_world) (k : fsm_world -> step_result) : step_result :=
  let '(closed, ch) := ch_is_closed (fw_chan w) in
  if (closed : bool) then goto (set_chan w ch) (Failed EClientDisconnected)
  else k (set_chan w ch).

Section Transitions.
Context (env : store_env) (s3 : option cloud_downloader) (search_fuel : nat).

(** [prefetch_next_file] *)
Definition prefetch_next_file (w : fsm_world) (queue : queue_id) (file_id : uintn)
    : outcome nf_error (option (bytes * data_source)) :=
  let st := lk_store (fw_lk w) in
  match get_store_bytes env st queue file_id with
  | Panic => Panic
  | Err e => Err (EStore e)
  | Ok (Some store_bytes) =>
      match extract_wal_bytes env queue file_id store_bytes false with
      | Ok wal_bytes => Ok (Some (wal_bytes, DSDiskStore))
      | Err _ => Ok None
      | Panic => Panic
      end
  | Ok None =>
      match ws_get_wal_bytes env st queue file_id with
      | Panic => Panic
      | Err e => Err (EWal e)
      | Ok (Some wal_bytes) => Ok (Some (wal_bytes, DSDiskWal))
      | Ok None =>
          match s3 with
          | None => Ok None
          | Some s3 =>
              match cd_get_store_bytes s3 queue file_id with
              | Panic => Panic
              | Err e => Err (ECloud e)
              | Ok None => Ok None
              | Ok (Some store_bytes) =>
                  match extract_wal_bytes env queue file_id store_bytes true with
                  | Ok wal_bytes => Ok (Some (wal_bytes, DSCloud))
                  | Err _ => Ok None
                  | Panic => Panic
                  end
              end
          end
      end
  end.

(** [start_id.add(&UintN::from((limit - 1) * step))] *)
Definition limit_end (start_id : uintn) (limit step : Z) : outcome nf_error uintn :=
  span ← arith 64 ((limit - 1) * step);
  Ok (uintn_add start_id (uintn_from_u64 span)).

Definition handle_lookup_positive (w : fsm_world) (queue : queue_id) (offset : uintn)
    (limit step : Z) : step_result :=
  let start_id := offset in
  if_open w (fun w =>
    if decide (0 < limit) then
      match limit_end start_id limit step with
      | Ok end_id =>
          match ms_read_full (fw_mem w) queue start_id end_id step (fw_chan w) with
          | None => None
          | Some (result, ch) =>
              let w := set_chan w ch in
              if mr_success result then goto w Completed
              else goto w (LookupFile queue start_id (Some end_id) step)
          end
      | Err e => Some (w, Err e)
      | Panic => Some (w, Panic)
      end
    else
      match ms_follow_full (fw_mem w) queue start_id start_id step (fw_chan w) with
      | None => None
      | Some (mem, result, ch) =>
          let w := set_mem w mem ch in
          if mr_success result && bool_decide (is_Some (mr_subscription_id result))
          then goto w Subscribed
          else goto w (LookupFile queue start_id None step)
      end).

(** [result.start_id.ok_or(Error::QueueNotFound)?] *)
Definition start_or_error (w : fsm_world) (result : mem_read_result)
    (k : uintn -> step_result) : step_result :=
  match mr_start_id result with
  | Some start_id => k start_id
  | None => Some (w, Err EQueueNotFound)
  end.

Definition handle_lookup_negative (w : fsm_world) (queue : queue_id) (offset : uintn)
    (limit step : Z) : step_result :=
  if_open w (fun w =>
    if decide (0 < limit) then
      match ms_read_full_negative (fw_mem w) queue offset step limit (fw_chan w) with
      | None => None
      | Some (Ok (result, ch)) =>
          let w := set_chan w ch in
          if mr_success result then goto w Completed
          else start_or_error w result (fun start_id =>
            match limit_end start_id limit step with
            | Ok end_id => goto w (LookupFile queue start_id (Some end_id) step)
            | Err e => Some (w, Err e)
            | Panic => Some (w, Panic)
            end)
      | Some _ => Some (w, Panic)
      end
    else
      match ms_follow_full_negative (fw_mem w) queue offset step (fw_chan w) with
      | None => None
      | Some (Ok (mem, result, ch)) =>
          let w := set_mem w mem ch in
          if mr_success result && bool_decide (is_Some (mr_subscription_id result))
          then goto w Subscribed
          else start_or_error w result (fun start_id =>
                 goto w (LookupFile queue start_id None step))
      | Some _ => Some (w, Panic)
      end).

Definition handle_lookup_file (w : fsm_world) (queue : queue_id) (start_id : uintn)
    (end_id : option uintn) (step : Z) : step_result :=
  if_open w (fun w =>
    match find_file_with_s3 env queue s3 search_fuel start_id (fw_lk w) with
    | None => None
    | Some (l, r) =>
        let w := {| fw_lk := l; fw_mem := fw_mem w; fw_chan := fw_chan w |} in
        match r with
        | Ok (Some file_id) =>
            goto w (ReadFile {| rc_queue := queue; rc_file_id := file_id;
                                rc_next_id := start_id; rc_step := step; rc_last_id := end_id |})
        | Ok None => goto w (Failed EQueueNotFound)
        | Err _ => goto w (Failed ENotFound)
        | Panic => Some (w, Panic)
        end
    end).

Definition handle_read_file (w : fsm_world) (ctx : read_context) : step_result :=
  if_open w (fun w => goto w (ReadStore ctx)).

Definition handle_read_store (w : fsm_world) (ctx : read_context) : step_result :=
  if_open w (fun w =>
    match get_store_bytes env (lk_store (fw_lk w)) (rc_queue ctx) (rc_file_id ctx) with
    | Ok (Some store_bytes) => goto w (ExtractWalBytes ctx store_bytes DSDiskStore)
    | Ok None => goto w (ReadWal ctx)
    | Err e => goto w (Failed (EStore e))
    | Panic => Some (w, Panic)
    end).

Definition handle_read_wal (w : fsm_world) (ctx : read_context) : step_result :=
  if_open w (fun w =>
    match ws_get_wal_bytes env (lk_store (fw_lk w)) (rc_queue ctx) (rc_file_id ctx) with
    | Ok (Some wal_bytes) => goto w (ParseWalBytes ctx wal_bytes DSDiskWal)
    | Ok None =>
        match s3 with
        | Some _ => goto w (ReadS3 ctx)
        | None => goto w (ReadNextFile (rc_file_id ctx) ctx None)
        end
    | Err e => goto w (Failed (EWal e))
    | Panic => Some (w, Panic)
    end).

Definition handle_read_s3 (w : fsm_world) (ctx : read_context) : step_result :=
  if_open w (fun w =>
    match s3 with
    | None => goto w (Failed ENotFound)
    | Some s3 =>
        match cd_get_store_bytes s3 (rc_queue ctx) (rc_file_id ctx) with
        | Ok (Some store_bytes) => goto w (ExtractWalBytes ctx store_bytes DSCloud)
        | Ok None => goto w (ReadNextFile (rc_file_id ctx) ctx None)
        | Err CNoFilesFound => goto w (ReadNextFile (rc_file_id ctx) ctx None)
        | Err e => goto w (Failed (ECloud e))
        | Panic => Some (w, Panic)
        end
    end).

Definition handle_extract_wal_bytes (w : fsm_world) (ctx : read_context) (store_bytes : bytes)
    (source : data_source) : step_result :=
  if_open w (fun w =>
    let verify_signatures := bool_decide (source = DSCloud) in
    match extract_wal_bytes env (rc_queue ctx) (rc_file_id ctx) store_bytes verify_signatures with
    | Ok wal_bytes => goto w (ParseWalBytes ctx wal_bytes source)
    | Err _ => goto w (ReadNextFile (rc_file_id ctx) ctx None)
    | Panic => Some (w, Panic)
    end).

Definition should_prefetch (ctx : read_context) : bool :=
  bool_decide (rc_step ctx = 1) &&
  match rc_last_id ctx with
  | Some last_id => uintn_ltb (rc_next_id ctx) last_id
  | None => true
  end.

Definition handle_parse_wal_bytes (w : fsm_world) (ctx : read_context) (wal_bytes : bytes)
    (source : data_source) : step_result :=
  if_open w (fun w =>
    let prefetch :=
      if should_prefetch ctx
      then Some (prefetch_next_file w (rc_queue ctx) (uintn_increment (rc_file_id ctx)))
      else None in
    match ws_read_wal_content_range wal_bytes (rc_next_id ctx) (rc_last_id ctx) (rc_step ctx)
            (fw_chan w) source with
    | Ok (Complete, ch) => goto (set_chan w ch) Completed
    | Ok (PartialRead last_read_id _, ch) =>
        let new_next_id :=
          match last_read_id with
          | Some last_read => uintn_add last_read (uintn_from_u64 (rc_step ctx))
          | None => rc_next_id ctx
          end in
        goto (set_chan w ch)
          (ReadNextFile (rc_file_id ctx) (with_next_id ctx new_next_id) prefetch)
    | Ok (ChannelClosed, ch) => goto (set_chan w ch) (Failed EClientDisconnected)
    | Err _ => goto w (ReadNextFile (rc_file_id ctx) ctx prefetch)
    | Panic => Some (w, Panic)
    end).

(** What follows the attempts from memory. *)
Definition next_file (w : fsm_world) (current_file : uintn) (ctx : read_context)
    (prefetch : prefetch_handle) : step_result :=
  let next_file_id := uintn_increment current_file in
  match prefetch with
  | Some (Ok (Some (wal_bytes, source))) =>
      goto w (ParseWalBytes (with_file_id ctx next_file_id) wal_bytes source)
  | Some (Ok None) => goto w (ReadNextFile next_file_id ctx None)
  | Some (Err e) => goto w (Failed e)
  | Some Panic => goto w (Failed EIo)
  | None => goto w (ReadFile (with_file_id ctx next_file_id))
  end.

Definition handle_read_next_file (w : fsm_world) (current_file : uintn) (ctx : read_context)
    (prefetch : prefetch_handle) : step_result :=
  if_open w (fun w =>
    let past_end :=
      match ms_get_last_id (fw_mem w) (rc_queue ctx) with
      | Some (Some queue_last_id) => uintn_ltb queue_last_id (rc_next_id ctx)
      | _ => false
      end in
    if past_end then goto w Completed
    else match rc_last_id ctx with
    | Some end_id =>
        match ms_read_full (fw_mem w) (rc_queue ctx) (rc_next_id ctx) end_id (rc_step ctx)
                (fw_chan w) with
        | None => None
        | Some (result, ch) =>
            let w := set_chan w ch in
            if mr_success result then goto w Completed
            else next_file w current_file ctx prefetch
        end
    | None =>
        match ms_follow_full (fw_mem w) (rc_queue ctx) (rc_next_id ctx) (rc_next_id ctx)
                (rc_step ctx) (fw_chan w) with
        | None => None
        | Some (mem, result, ch) =>
            let w := set_mem w mem ch in
            if mr_success result && bool_decide (is_Some (mr_subscription_id result))
            then goto w Subscribed
            else next_file w current_file ctx prefetch
        end
    end).

(** [transition] ([unreachable!] for the terminal states). *)
Definition transition (w : fsm_world) (state : reader_state) (step : Z) : step_result :=
  match state with
  | LookupPositive queue offset limit => handle_lookup_positive w queue offset limit step
  | LookupNegative queue offset limit => handle_lookup_negative w queue offset limit step
  | LookupFile queue start_id end_id step => handle_lookup_file w queue start_id end_id step
  | ReadFile ctx => handle_read_file w ctx
  | ReadStore ctx => handle_read_store w ctx
  | ReadWal ctx => handle_read_wal w ctx
  | ReadS3 ctx => handle_read_s3 w ctx
  | ExtractWalBytes ctx store_bytes source => handle_extract_wal_bytes w ctx store_bytes source
  | ParseWalBytes ctx wal_bytes source => handle_parse_wal_bytes w ctx wal_bytes source
  | ReadNextFile current_file ctx prefetch => handle_read_next_file w current_file ctx prefetch
  | Subscribed | Completed | Failed _ => Some (w, Panic)
  end.

(** The loop of [read] ([None]: more than [fuel] transitions). *)
Fixpoint run_fsm (fuel : nat) (w : fsm_world) (state : reader_state) (step : Z)
    : option (fsm_world * outcome nf_error bool) :=
  match state with
  | Completed => Some (w, Ok false)
  | Subscribed => Some (w, Ok true)
  | Failed err => Some (w, Err err)
  | _ =>
      match fuel with
      | O => None
      | S fuel =>
          match transition w state step with
          | None => None
          | Some (w, Ok state) => run_fsm fuel w state step
          | Some (w, Err e) => Some (w, Err e)
          | Some (w, Panic) => Some (w, Panic)
          end
      end
  end.

Definition fsm_read (fuel : nat) (w : fsm_world) (queue : queue_id) (position : read_position)
    (limit step : Z) : option (fsm_world * outcome nf_error bool) :=
  let '(closed, ch) := ch_is_closed (fw_chan w) in
  let w := set_chan w ch in
  if (closed : bool) then Some (w, Err EClientDisconnected)
  else
    let state :=
      match position with
      | Absolute offset => LookupPositive queue offset limit
      | ShiftFromTail offset => LookupNegative queue offset limit
      end in
    run_fsm fuel w state step.

End Transitions.

End Fsm.
