(* ===== verification/DiskMonitor.v ===== *)
(** * The disk monitor ([normfs/src/offload/disk_monitor.rs]) and the offloader
      it owns ([normfs-cloud/src/offloader.rs])

    Per queue: the size of its two directories is kept below a limit by
    deleting the files of the smallest ids, but not past the latest id the
    offloader has uploaded. *)
From Stdlib Require Import ZArith Lia List Bool.
From Stdlib Require Import Ascii String.
From stdpp Require Import base option list gmap strings.
From S2P Require Import Prelude UBig UintN UintNFacts Paths PathsFacts FileTree Types.
From S2P Require Import WalFormat WalReader OrderedBuffer AckWriter WalWriter.
From S2P Require Import Crypto StoreFormat Store WalStore Cloud Lookup Mem ReaderFsm.
#[local] Open Scope Z_scope.

Section Monitor.
Context {B : Build} {U : UBig} {H : HexCrate} {S3 : S3Http}.

(** [struct DiskMonitorConfig]; the interval paces the checks. *)
Record disk_monitor_config := {
  dc_max_size : Z;
  dc_check_interval : Z;
  dc_wal_settings : wal_settings;
}.

Definition validate (self : disk_monitor_config) : outcome nf_error unit :=
  min_size ← arith 64 (ws_max_file_size (dc_wal_settings self) * 3);
  if decide (dc_max_size self < min_size) then Err (EStore SIo) else Ok tt.

(** [QueueOffloader]: the worker's data, the ids in its channel and the latest
    id uploaded. *)
Record queue_offloader := {
  qo_worker : offload_worker;
  qo_pending : list uintn;
  qo_latest : option uintn;
}.

(** [QueueOffloader::new] and the task it spawns, which sends the ids of the
    files that are there ([upload_queue]). *)
Definition queue_offloader_new (queue_id root_path prefix : str) (upload_queue : list uintn)
    : queue_offloader :=
  {| qo_worker := offload_worker_new queue_id root_path prefix;
     qo_pending := upload_queue; qo_latest := None |}.

Definition enqueue_file (self : queue_offloader) (file_id : uintn) : queue_offloader :=
  {| qo_worker := qo_worker self; qo_pending := qo_pending self ++ [file_id];
     qo_latest := qo_latest self |}.

(** A turn of the worker: the next id ([None]: more than [fuel] retries). *)
Definition offloader_turn (fuel : nat) (self : queue_offloader) (files : gmap str bytes)
    (b : s3_bucket) : option (outcome offload_error (s3_bucket * queue_offloader)) :=
  match qo_pending self with
  | [] => Some (Ok (b, self))
  | file_id :: pending =>
      option_map (fun r => '(b, latest) ← r;
        Ok (b, {| qo_worker := qo_worker self; qo_pending := pending; qo_latest := latest |}))
        (offload_file fuel (qo_worker self) files b (qo_latest self) file_id)
  end.

(** [struct QueueMonitor] *)
Record queue_monitor := {
  qm_queue_id : str;
  qm_config : disk_monitor_config;
  qm_root_path : str;
  qm_offloader : option queue_offloader;
}.

Definition qm_dir (self : queue_monitor) (name : str) : str :=
  path_push (path_push (qm_root_path self) (qm_queue_id self)) name.
Definition qm_wal_path (self : queue_monitor) : str := qm_dir self (s2l "wal").
Definition qm_store_path (self : queue_monitor) : str := qm_dir self (s2l "store").

(** The file system: the files, the paths that answer with an error, the files
    that cannot be removed. *)
Section Files.
Context (io stuck : str -> bool).

Definition below (dir : str) (files : gmap str bytes) : list (str * bytes) :=
  List.filter (fun f => bool_decide (is_Some (strip_prefix_l (base_prefix dir) (fst f))))
    (map_to_list files).

(** [get_directory_size], and 0 for a directory that does not exist. *)
Fixpoint sum_sizes (fs : list (str * bytes)) (total_size : Z) : outcome nf_error Z :=
  match fs with
  | [] => Ok total_size
  | (path, content) :: fs =>
      if io path then Err (EStore SIo)
      else total_size ← arith 64 (total_size + zlen content); sum_sizes fs total_size
  end.

Definition get_directory_size (files : gmap str bytes) (path : str) : outcome nf_error Z :=
  if io path then Err (EStore SIo) else sum_sizes (below path files) 0.

Definition get_queue_size (self : queue_monitor) (files : gmap str bytes) : outcome nf_error Z :=
  wal_size ← get_directory_size files (qm_wal_path self);
  store_size ← get_directory_size files (qm_store_path self);
  arith 64 (wal_size + store_size).

(** [path.exists()]: an error counts as absence. *)
Definition exists_file (files : gmap str bytes) (path : str) : bool :=
  negb (io path) && bool_decide (is_Some (files !! path)).

(** The removal of one file: what is left and the bytes freed.  A failed
    removal is logged. *)
Definition remove_one (files : gmap str bytes) (path : str) : gmap str bytes * Z :=
  match files !! path with
  | Some content => if stuck path then (files, 0) else (delete path files, zlen content)
  | None => (files, 0)
  end.

(** The file of an id that is deleted: the store file, else the WAL file. *)
Definition delete_id (self : queue_monitor) (files : gmap str bytes) (id : uintn)
    : gmap str bytes * Z :=
  let store_file_path := uintn_to_file_path id (qm_store_path self) (s2l "store") in
  let wal_file_path := uintn_to_file_path id (qm_wal_path self) (s2l "wal") in
  if exists_file files store_file_path then remove_one files store_file_path
  else if exists_file files wal_file_path then remove_one files wal_file_path
  else (files, 0).

Definition latest_offloaded_id (self : queue_monitor) : option uintn :=
  match qm_offloader self with Some o => qo_latest o | None => None end.

Definition can_delete (self : queue_monitor) (id : uintn) : bool :=
  match latest_offloaded_id self with
  | Some latest_offloaded => uintn_leb id latest_offloaded
  | None => match qm_offloader self with None => true | Some _ => false end
  end.

(** The loop of [cleanup_oldest_files] ([None]: more than [fuel] turns). *)
Fixpoint cleanup_loop (fuel : nat) (self : queue_monitor) (files : gmap str bytes)
    (size_to_free : Z) (current_id : uintn) : option (gmap str bytes) :=
  if decide (0 < size_to_free) then
    match fuel with
    | O => None
    | S fuel =>
        let store_file_path := uintn_to_file_path current_id (qm_store_path self) (s2l "store") in
        let wal_file_path := uintn_to_file_path current_id (qm_wal_path self) (s2l "wal") in
        if negb (exists_file files store_file_path) && negb (exists_file files wal_file_path)
        then Some files
        else if negb (can_delete self current_id) then Some files
        else
          let '(files, freed) := delete_id self files current_id in
          cleanup_loop fuel self files (Z.max 0 (size_to_free - freed)) (uintn_increment current_id)
    end
  else Some files.

(** [find_min_id(..).ok()]: the searches tell a missing directory from an
    empty one, but both count as "no files". *)
Definition min_id_of (dir ext : str) (files : gmap str bytes)
    : outcome nf_error (option uintn) :=
  if io dir then Ok None
  else match find_min_id (Some (dir_tree dir files)) ext with
       | Ok id => Ok (Some id)
       | Err _ => Ok None
       | Panic => Panic
       end.

Definition first_id (store_min_id wal_min_id : option uintn) : option uintn :=
  match store_min_id, wal_min_id with
  | Some sid, Some wid => Some (if uintn_ltb wid sid then wid else sid)
  | Some sid, None => Some sid
  | None, Some wid => Some wid
  | None, None => None
  end.

Definition cleanup_oldest_files (fuel : nat) (self : queue_monitor) (files : gmap str bytes)
    (current_size : Z) : option (outcome nf_error (gmap str bytes)) :=
  let size_to_free := Z.max 0 (current_size - dc_max_size (qm_config self)) in
  if decide (size_to_free = 0) then Some (Ok files)
  else
    match min_id_of (qm_store_path self) (s2l "store") files,
          min_id_of (qm_wal_path self) (s2l "wal") files with
    | Ok store_min_id, Ok wal_min_id =>
        match first_id store_min_id wal_min_id with
        | Some current_id =>
            option_map Ok (cleanup_loop fuel self files size_to_free current_id)
        | None => Some (Ok files)
        end
    | _, _ => Some Panic
    end.

Definition check_and_cleanup (fuel : nat) (self : queue_monitor) (files : gmap str bytes)
    : option (outcome nf_error (gmap str bytes)) :=
  match get_queue_size self files with
  | Ok current_size =>
      if decide (dc_max_size (qm_config self) < current_size)
      then cleanup_oldest_files fuel self files current_size
      else Some (Ok files)
  | Err e => Some (Err e)
  | Panic => Some Panic
  end.

(** [struct DiskMonitor]: the monitors by queue. *)
Record disk_monitor := {
  dm_monitors : gmap str queue_monitor;
  dm_root_path : str;
  dm_prefix : option str;
}.

Definition disk_monitor_new (root_path : str) (prefix : option str) : disk_monitor :=
  {| dm_monitors := ∅; dm_root_path := root_path; dm_prefix := prefix |}.

(** [QueueMonitor::new]; there is an offloader when there is a client and a
    prefix. *)
Definition queue_monitor_new (queue_id : str) (config : disk_monitor_config) (root_path : str)
    (prefix : option str) (upload_queue : list uintn) : queue_monitor :=
  {| qm_queue_id := queue_id; qm_config := config; qm_root_path := root_path;
     qm_offloader := option_map (fun prefix =>
       queue_offloader_new queue_id root_path prefix upload_queue) prefix |}.

Definition set_monitor (self : disk_monitor) (q : queue_id) (m : queue_monitor) : disk_monitor :=
  {| dm_monitors := <[qid_path q := m]> (dm_monitors self); dm_root_path := dm_root_path self;
     dm_prefix := dm_prefix self |}.

Definition add_queue (fuel : nat) (self : disk_monitor) (q : queue_id)
    (config : disk_monitor_config) (files : gmap str bytes) (upload_queue : list uintn)
    : option (outcome nf_error (disk_monitor * gmap str bytes)) :=
  match validate config with
  | Ok _ =>
      let monitor := queue_monitor_new (qid_path q) config (dm_root_path self) (dm_prefix self)
                       upload_queue in
      option_map (fun r => files ← r; Ok (set_monitor self q monitor, files))
        (check_and_cleanup fuel monitor files)
  | Err e => Some (Err e)
  | Panic => Some Panic
  end.

Definition enqueue_for_offload (self : disk_monitor) (q : queue_id) (file_id : uintn)
    : disk_monitor * outcome nf_error unit :=
  match dm_monitors self !! qid_path q with
  | Some monitor =>
      match qm_offloader monitor with
      | Some offloader =>
          (set_monitor self q
             {| qm_queue_id := qm_queue_id monitor; qm_config := qm_config monitor;
                qm_root_path := qm_root_path monitor;
                qm_offloader := Some (enqueue_file offloader file_id) |}, Ok tt)
      | None => (self, Ok tt)
      end
  | None => (self, Err (EStore SFileNotFound))
  end.

(** A tick of the timer: a check of every queue, errors logged ([None]: a loop
    of more than [fuel] turns). *)
Fixpoint check_all (fuel : nat) (monitors : list queue_monitor) (files : gmap str bytes)
    : option (outcome nf_error (gmap str bytes)) :=
  match monitors with
  | [] => Some (Ok files)
  | m :: monitors =>
      match check_and_cleanup fuel m files with
      | None => None
      | Some (Ok files) => check_all fuel monitors files
      | Some (Err _) => check_all fuel monitors files
      | Some Panic => Some Panic
      end
  end.

Definition tick (fuel : nat) (self : disk_monitor) (files : gmap str bytes)
    : option (outcome nf_error (gmap str bytes)) :=
  check_all fuel (map snd (map_to_list (dm_monitors self))) files.

End Files.
End Monitor.
