(* ===== verification/ReaderFsmFacts.v ===== *)
(** * Theory of the reader

    On the files of a queue and a memory that holds the newest entries, a
    limited read sends exactly the selected entries and ends. *)
From Stdlib Require Import ZArith Lia List Bool Sorted.
From Stdlib Require Import Ascii String.
From stdpp Require Import base option list gmap strings.
From S2P Require Import Prelude UBig UintN UintNFacts Paths PathsFacts PathsSearch FileTree Types.
From S2P Require Import WalFormat WalReader WalReaderFacts WalReaderTotal OrderedBuffer AckWriter.
From S2P Require Import WalWriter WalWriterFacts Crypto StoreFormat Store StoreFacts WalStore.
From S2P Require Import Cloud Lookup LookupFacts QueueLayout Mem MemFacts ReaderFsm.
#[local] Open Scope Z_scope.

(** ** Selecting from consecutive entries *)

Section Selecting.
Context {B : Build} {U : UBig} {X : Hasher}.

Lemma filter_suffix {A} (p : A -> bool) pre l : (forall x, In x pre -> p x = false) ->
  List.filter p (pre ++ l) = List.filter p l.
Proof. intros Hp. by rewrite List.filter_app, filter_none. Qed.

Lemma selected_true from until step e : selected from until step e = true <->
  uintn_val from <= uintn_val (fst e) /\
  match until with Some u => uintn_val (fst e) <= uintn_val u | None => True end /\
  (uintn_val (fst e) - uintn_val from) mod step = 0.
Proof.
  unfold selected. rewrite !andb_true_iff, !bool_decide_eq_true.
  destruct until; rewrite ?bool_decide_eq_true; tauto.
Qed.

Lemma selected_below from until step e : uintn_val (fst e) < uintn_val from ->
  selected from until step e = false.
Proof. intros Hlt. unfold selected. by rewrite bool_decide_false by lia. Qed.

(** The last selected entry of a list with ascending ids has the largest id. *)
Lemma last_selected_max (p : uintn * bytes -> bool) es e x : StronglySorted id_lt (map fst es) ->
  last (List.filter p es) = Some e -> In x es -> p x = true ->
  uintn_val (fst x) <= uintn_val (fst e).
Proof.
  induction es as [|a es IH]; intros Hs Hl Hx Hp; [done|].
  cbn [map] in Hs. apply StronglySorted_inv in Hs as [Hs Ha]. cbn [List.filter] in Hl.
  assert (In e (a :: es)) as Hin.
  { apply last_Some in Hl as [l' Hl].
    assert (In e (if p a then a :: List.filter p es else List.filter p es)) as Hin
      by (rewrite Hl; apply in_app_iff; right; by left).
    destruct (p a); [destruct Hin as [->|Hin]; [by left|]|];
      apply filter_In in Hin as [? _]; by right. }
  assert (forall y, In y es -> uintn_val (fst a) < uintn_val (fst y)) as Hlt.
  { intros y Hy. rewrite Forall_map, List.Forall_forall in Ha. by apply Ha. }
  destruct Hx as [->|Hx].
  - destruct Hin as [->|Hin]; [lia|]. specialize (Hlt e Hin). lia.
  - apply IH; try done. destruct (p a); [|done]. rewrite last_cons in Hl.
    destruct (last (List.filter p es)) eqn:E; [done|]. apply last_None in E.
    assert (In x (List.filter p es)) as Hx' by (by apply filter_In). by rewrite E in Hx'.
Qed.

(** A step of the progression. *)
Section Progress.
Context (start : uintn) (until : option uintn) (step : Z).
Hypothesis Hstep : in_u 64 step /\ 1 <= step.

(** [next] is the first point of the progression that matters from [s] on. *)
Definition next_point (s : Z) (next : uintn) : Prop :=
  uintn_ok next /\ on_step start step (uintn_val next) /\ s <= uintn_val next /\
  (next = start \/ uintn_val next - step < s).

Lemma next_point_selected s next e : next_point s next -> s <= uintn_val (fst e) ->
  selected start until step e = selected next until step e.
Proof.
  intros (_ & [Hge Hm] & Hs & Hn) He. apply eq_true_iff_eq. rewrite !selected_true.
  assert (forall v, (v - uintn_val start) mod step = 0 <-> (v - uintn_val next) mod step = 0) as Hmod.
  { intros v. apply Z.mod_divide in Hm; [|lia]. rewrite !Z.mod_divide by lia. split; intros Hd.
    - replace (v - uintn_val next) with (v - uintn_val start - (uintn_val next - uintn_val start))
        by lia. by apply Z.divide_sub_r.
    - replace (v - uintn_val start) with (v - uintn_val next + (uintn_val next - uintn_val start))
        by lia. by apply Z.divide_add_r. }
  split; intros (H1 & H2 & H3); (split_and!; [|done|by apply Hmod]); [|lia].
  destruct Hn as [->|Hn]; [done|].
  destruct (decide (uintn_val (fst e) <= uintn_val next)) as [Hle|]; [|lia].
  rewrite (on_step_gap start step Hstep (uintn_val next) (uintn_val (fst e))); [lia| | |lia|done].
  - by split.
  - by split.
Qed.

(** After the file with the entries [es] from [s], when none of them reached
    the end of the range. *)
Lemma next_point_after s next es : next_point s next -> consecutive s es ->
  Forall (fun e => uintn_canonical (fst e)) es ->
  existsb (reaches until) (map fst es) = false ->
  next_point (s + zlen es)
    match option_map fst (last (List.filter (selected next until step) es)) with
    | Some last_read => uintn_add last_read (uintn_from_u64 step)
    | None => next
    end.
Proof.
  intros Hn Hc Hok Hr.
  assert (forall e, In e es -> match until with
    | Some u => uintn_val (fst e) <= uintn_val u | None => True end) as Hu.
  { intros e He. destruct until as [u|]; [|done].
    assert (reaches (Some u) (fst e) = false) as Hre.
    { destruct (reaches (Some u) (fst e)) eqn:E; [|done].
      rewrite <- Hr. symmetry. apply existsb_exists. exists (fst e). split; [by apply in_map|done]. }
    cbn [reaches] in Hre. apply bool_decide_eq_false in Hre. lia. }
  pose proof (consecutive_sorted _ _ Hc) as Hs.
  destruct (last (List.filter (selected next until step) es)) as [e|] eqn:E; cbn [option_map].
  - assert (In e es /\ selected next until step e = true) as [Hin Hsel].
    { apply last_Some in E as [l' E]. apply filter_In. rewrite E. apply in_app_iff. right. by left. }
    pose proof (consecutive_in _ _ _ Hc Hin) as He.
    rewrite <- (next_point_selected s next e Hn) in Hsel by lia.
    apply selected_true in Hsel as (H1 & _ & H3).
    rewrite List.Forall_forall in Hok. pose proof (canonical_ok _ (Hok _ Hin)) as Heok.
    destruct (from_u64_spec step) as [Hsc Hsv]; [apply Hstep|].
    destruct (add_spec (fst e) (uintn_from_u64 step) Heok (canonical_ok _ Hsc)) as [Hao Hav].
    rewrite Hsv in Hav.
    assert (on_step start step (uintn_val (fst e) + step)) as Hon.
    { apply on_step_next; [done|]. by split. }
    split_and!; [done|by rewrite Hav| |right; lia].
    destruct (decide (s + zlen es <= uintn_val (uintn_add (fst e) (uintn_from_u64 step)))); [done|].
    destruct (consecutive_at s es (uintn_val (fst e) + step) Hc) as (x & Hx & Hxv); [lia|].
    assert (selected next until step x = true) as Hselx.
    { rewrite <- (next_point_selected s next x Hn) by lia. apply selected_true.
      pose proof (Hu x Hx) as Hux. rewrite Hxv in Hux |- *. split_and!; [apply Hon|done|apply Hon]. }
    pose proof (last_selected_max _ _ _ _ Hs E Hx Hselx). lia.
  - destruct Hn as (Hno & Hon & Hsn & Hor).
    assert (s + zlen es <= uintn_val next) as Hge.
    { destruct (decide (s + zlen es <= uintn_val next)); [done|].
      destruct (consecutive_at s es (uintn_val next) Hc) as (x & Hx & Hxv); [lia|].
      assert (selected next until step x = true) as Hselx.
      { apply selected_true. pose proof (Hu x Hx) as Hux. rewrite Hxv in Hux |- *.
        rewrite Z.sub_diag, Zmod_0_l. split_and!; [lia|done|done]. }
      apply last_None in E. assert (In x (List.filter (selected next until step) es)) as Hf
        by (by apply filter_In). by rewrite E in Hf. }
    pose proof (zlen_nonneg es). split_and!; try done. destruct Hor; [by left|right; lia].
Qed.

(** Once an id reached the end of the range, later entries are not selected. *)
Lemma reached_rest s es es' : consecutive s (es ++ es') ->
  existsb (reaches until) (map fst es) = true ->
  List.filter (selected start until step) es' = [].
Proof.
  intros Hc Hr. apply consecutive_app in Hc as [Hc Hc'].
  apply existsb_exists in Hr as (id & Hid & Hr). apply in_map_iff in Hid as (e & <- & He).
  destruct until as [u|]; [|done]. cbn [reaches] in Hr. apply bool_decide_eq_true in Hr.
  apply filter_none. intros x Hx. pose proof (consecutive_in _ _ _ Hc He).
  pose proof (consecutive_in _ _ _ Hc' Hx). unfold selected.
  rewrite (bool_decide_false (_ <= uintn_val u)) by lia. by rewrite andb_false_r.
Qed.

End Progress.
End Selecting.

(** ** The transitions *)

Section Run.
Context {B : Build} {U : UBig} {H : HexCrate} {X : Hasher} {C : CryptoLib} {Z' : CompressLib}.
Context {S3 : S3Http}.
Context (env : store_env) (search_fuel : nat).

Abbreviation run := (run_fsm env None search_fuel).

Lemma run_mono n m w s step r : run n w s step = Some r -> (n <= m)%nat -> run m w s step = Some r.
Proof.
  revert m w s. induction n as [|n IH]; intros m w s Hr Hle; [by destruct s, m|].
  destruct m as [|m]; [lia|].
  destruct s; try exact Hr; cbn [run_fsm] in *;
    (destruct (transition _ _ _ _ _ _) as [[w' [s'|e|]]|]; try exact Hr; apply IH; [exact Hr|lia]).
Qed.

Lemma run_step n w s step w' s' : is_terminal s = false ->
  transition env None search_fuel w s step = Some (w', Ok s') ->
  run (S n) w s step = run n w' s' step.
Proof. intros Ht Hs. destruct s; try done; cbn [run_fsm]; by rewrite Hs. Qed.

Lemma if_open_open w k : ch_life (fw_chan w) = None -> if_open w k = k w.
Proof. destruct w as [l m [s lf]]. cbn. by intros ->. Qed.

(** The entries a client received. *)
Definition payload (ch : channel) : list (uintn * bytes) :=
  map (fun e => (re_id e, re_data e)) (ch_sent ch).

Lemma payload_sent ch src l :
  payload {| ch_sent := ch_sent ch ++ map (to_read_entry src) l; ch_life := None |} =
  payload ch ++ l.
Proof.
  unfold payload. cbn [ch_sent]. rewrite map_app, map_map. f_equal.
  rewrite <- (map_id l) at 2. apply map_ext. by intros [].
Qed.

(** ** Reading a queue *)

Section Queue.
Context (q : queue_id) (lo base : Z) (fs : list qfile) (files : gmap str bytes).
Context (rest : list (uintn * bytes)) (mq : mem_queue).

(** All the entries: those of the files, then those that are in memory only. *)
Definition log : list (uintn * bytes) := all_entries fs ++ rest.

(** The memory holds the newest entries, from one of the files on. *)
Record mem_covers : Prop := {
  mc_inv : mem_inv (mq_inner mq);
  mc_last : next_after (mi_last_id (mq_inner mq)) = base + zlen log;
  mc_ids : consecutive base log;
  mc_suffix : exists pre, log = pre ++ mi_entries (mq_inner mq) /\
    zlen pre <= zlen (all_entries fs);
}.

Record fsm_good (w : fsm_world) : Prop := {
  fg_layout : layout_good env q lo base fs files (fw_lk w);
  fg_queue : ms_queues (fw_mem w) !! qid_path q = Some mq;
  fg_open : ch_life (fw_chan w) = None;
}.

Lemma good_chan w ch : fsm_good w -> ch_life ch = None -> fsm_good (set_chan w ch).
Proof. intros [? ? ?] ?. by split. Qed.

(** What a read leaves: the files are the same, and the queue has at most new
    subscribers. *)
Record kept (w : fsm_world) : Prop := {
  kp_layout : layout_good env q lo base fs files (fw_lk w);
  kp_queue : exists mq', ms_queues (fw_mem w) !! qid_path q = Some mq' /\
    mq_inner mq' = mq_inner mq /\ exists extra, mq_subscribers mq' = mq_subscribers mq ++ extra /\
      Forall (fun s => sub_ok (snd s)) extra;
}.

Lemma kept_inv w : kept w -> queue_inv mq -> exists mq',
  ms_queues (fw_mem w) !! qid_path q = Some mq' /\ mq_inner mq' = mq_inner mq /\ queue_inv mq' /\
  exists extra, mq_subscribers mq' = mq_subscribers mq ++ extra.
Proof.
  intros [_ (mq' & Hmq & Hin & extra & He & Hok)] [Hinv Hs]. exists mq'. split; [done|]. split; [done|].
  split; [|by exists extra]. split; [by rewrite Hin|]. rewrite He. by apply Forall_app.
Qed.

Lemma good_kept w ch : fsm_good w -> kept (set_chan w ch).
Proof.
  intros []. split; [done|]. exists mq. split; [done|]. split; [done|]. exists []. by rewrite app_nil_r.
Qed.

Lemma subscriber_kept w ls from step' ch ch' : fsm_good w -> last_ok ls -> uintn_ok from ->
  in_u 64 step' -> 1 <= step' ->
  kept (set_mem w (set_queue (fw_mem w) q (fst (add_subscriber mq (SubFollow ls from step' ch)))) ch').
Proof.
  intros Hg Hl Hf Hs H1. split; [apply Hg|]. eexists. split; [apply lookup_insert_eq|].
  split; [done|]. cbn [add_subscriber fst mq_subscribers]. eexists. split; [reflexivity|].
  constructor; [by split_and!|constructor].
Qed.

Hypothesis Hcov : mem_covers.
Context (start : uintn) (until : option uintn) (step : Z).
Hypothesis Hstart : uintn_ok start.
Hypothesis Huntil : opt_ok until.
Hypothesis Hstep : in_u 64 step /\ 1 <= step.

Definition ctx_at (i : nat) (next : uintn) : read_context :=
  {| rc_queue := q; rc_file_id := uid (lo + Z.of_nat i); rc_next_id := next;
     rc_step := step; rc_last_id := until |}.

(** Where a file is read from. *)
Lemma stored_fetch w i f : fsm_good w -> fs !! i = Some f ->
  let x := uid (lo + Z.of_nat i) in
  (exists content, get_store_bytes env (lk_store (fw_lk w)) q x = Ok (Some content) /\
     forall verify, extract_wal_bytes env q x content verify = Ok (qf_bytes f)) \/
  (get_store_bytes env (lk_store (fw_lk w)) q x = Ok None /\
   ws_get_wal_bytes env (lk_store (fw_lk w)) q x = Ok (Some (qf_bytes f))).
Proof.
  intros Hg Hi x. destruct (fg_layout _ Hg) as [Hl _].
  destruct (ql_file_io _ _ _ _ _ _ Hl x) as [Hwio Hsio].
  unfold get_store_bytes. cbn zeta. fold (store_path env q x). rewrite Hsio.
  pose proof (ql_stored _ _ _ _ _ _ Hl i f Hi) as Hst. fold x in Hst.
  destruct Hst as [Hsf _ Hw|content r Hsf Hext _ _ _].
  - right. rewrite Hsf. split; [done|]. unfold ws_get_wal_bytes, ws_disk, disk_of.
    fold (wal_path env q x). by rewrite Hwio, Hw.
  - left. exists content. by rewrite Hsf.
Qed.

(** Three transitions from [ReadFile] to the content. *)
Lemma fetch_file w i f next n : fsm_good w -> fs !! i = Some f ->
  exists src, run (3 + n) w (ReadFile (ctx_at i next)) step =
    run n w (ParseWalBytes (ctx_at i next) (qf_bytes f) src) step.
Proof.
  intros Hg Hi. pose proof (fg_open _ Hg) as Ho.
  destruct (stored_fetch w i f Hg Hi) as [(content & Hs & Hx)|[Hs Hw]]; cbn zeta in *.
  - exists DSDiskStore. cbn [Nat.add].
    erewrite run_step; [|done|by cbn [transition]; unfold handle_read_file; rewrite if_open_open].
    erewrite run_step; [|done|by cbn [transition]; unfold handle_read_store;
      rewrite if_open_open by done; cbn [rc_queue rc_file_id ctx_at]; rewrite Hs].
    erewrite run_step; [done|done|by cbn [transition]; unfold handle_extract_wal_bytes;
      rewrite if_open_open by done; cbn [rc_queue rc_file_id ctx_at]; rewrite Hx].
  - exists DSDiskWal. cbn [Nat.add].
    erewrite run_step; [|done|by cbn [transition]; unfold handle_read_file; rewrite if_open_open].
    erewrite run_step; [|done|by cbn [transition]; unfold handle_read_store;
      rewrite if_open_open by done; cbn [rc_queue rc_file_id ctx_at]; rewrite Hs].
    erewrite run_step; [done|done|by cbn [transition]; unfold handle_read_wal;
      rewrite if_open_open by done; cbn [rc_queue rc_file_id ctx_at]; rewrite Hw].
Qed.

(** Prefetching the next file. *)
Lemma prefetch_file w i f : fsm_good w -> fs !! i = Some f ->
  exists src, prefetch_next_file env None w q (uid (lo + Z.of_nat i)) =
    Ok (Some (qf_bytes f, src)).
Proof.
  intros Hg Hi. unfold prefetch_next_file. cbn zeta.
  destruct (stored_fetch w i f Hg Hi) as [(content & -> & ->)|[-> ->]]; by eexists.
Qed.

Lemma next_uid w i f : fsm_good w -> fs !! i = Some f ->
  uintn_increment (uid (lo + Z.of_nat i)) = uid (lo + Z.of_nat (S i)).
Proof.
  intros Hg Hi. destruct (fg_layout _ Hg) as [Hl _].
  destruct (file_id env q lo base fs _ i f Hl Hi) as (Hc & Hv & Hlt).
  pose proof (ql_lo _ _ _ _ _ _ Hl). pose proof (ql_hi _ _ _ _ _ _ Hl).
  destruct (increment_spec _ (canonical_ok _ Hc)) as [_ Hiv].
  destruct (uid_spec (lo + Z.of_nat (S i))) as [Hc' Hv']; [lia|].
  apply canonical_inj; [by apply increment_canonical|done|]. lia.
Qed.

(** The entries from the file [i] on. *)
Definition from_file (i : nat) : list (uintn * bytes) := all_entries (drop i fs) ++ rest.

Lemma log_split i : log = all_entries (take i fs) ++ from_file i.
Proof.
  unfold log, from_file, all_entries. rewrite app_assoc, <- concat_app, <- map_app, take_drop. done.
Qed.

Lemma from_file_S i f : fs !! i = Some f -> from_file i = qf_entries f ++ from_file (S i).
Proof.
  intros Hi. unfold from_file, all_entries. rewrite (drop_S _ _ _ Hi). cbn [map concat].
  by rewrite app_assoc.
Qed.

Lemma from_file_ids i : consecutive (start_of base fs i) (from_file i).
Proof.
  pose proof (mc_ids Hcov) as Hc. rewrite (log_split i) in Hc.
  apply consecutive_app in Hc as [_ Hc]. exact Hc.
Qed.

(** Reading the content of a file. *)
Lemma parse_file w i f next src : fsm_good w -> fs !! i = Some f -> uintn_ok next ->
  ws_read_wal_content_range (qf_bytes f) next until step (fw_chan w) src =
    Ok (if existsb (reaches until) (map fst (qf_entries f)) then Complete
        else PartialRead
               (option_map fst (last (List.filter (selected next until step) (qf_entries f))))
               (default next (last (map fst (qf_entries f)))),
        {| ch_sent := ch_sent (fw_chan w) ++ map (to_read_entry src)
             (List.filter (selected next until step) (qf_entries f));
           ch_life := None |}).
Proof.
  intros Hg Hi Hn. destruct (fg_layout _ Hg) as [Hl _].
  destruct (ql_ok _ _ _ _ _ _ Hl i f Hi) as [Hh Hb Hs Hf Ht Hz Hid].
  unfold ws_read_wal_content_range, qf_bytes in *.
  rewrite (bytes_range_fold _ _ _ None) by done.
  rewrite fold_delivers; try done.
  - unfold range_answer, last_read_of. cbn [opt_list]. rewrite app_nil_r.
    replace (Z.max step 1) with step by lia. by destruct (last (List.filter _ _)).
  - apply Hstep.
  - apply (fg_open _ Hg).
  - cbn [opt_list]. rewrite app_nil_r. by eapply consecutive_sorted.
  - cbn [opt_list]. rewrite app_nil_r. apply Forall_map. eapply Forall_impl; [exact Hf|].
    intros e He. apply canonical_ok, He.
Qed.

(** ** The memory *)

(** From a point of the progression in memory on, the memory selects what is
    left of the log. *)
Lemma memory_rest i next : next_point start step (start_of base fs i) next ->
  first_in_memory (mq_inner mq) next ->
  List.filter (selected next until step) (mi_entries (mq_inner mq)) =
  List.filter (selected start until step) (from_file i).
Proof.
  intros Hn Hf. destruct (mc_suffix Hcov) as (pre & Hlog & _).
  transitivity (List.filter (selected next until step) log).
  - rewrite Hlog. symmetry. apply filter_suffix. intros x Hx. apply selected_below.
    unfold first_in_memory in Hf. rewrite (mv_first _ (mc_inv Hcov)) in Hf.
    pose proof (mc_ids Hcov) as Hc. rewrite Hlog in Hc. apply consecutive_app in Hc as [Hc Hc'].
    pose proof (consecutive_in _ _ _ Hc Hx).
    destruct (mi_entries (mq_inner mq)) as [|e es]; [done|]. destruct Hc' as [He _].
    cbn [head option_map] in Hf. lia.
  - rewrite (log_split i). rewrite filter_suffix.
    + apply filter_ext_in. intros e He. symmetry. apply (next_point_selected start until step Hstep
        (start_of base fs i) next e Hn). pose proof (consecutive_in _ _ _ (from_file_ids i) He). lia.
    + intros x Hx. apply selected_below. destruct Hn as (_ & _ & Hn & _).
      pose proof (mc_ids Hcov) as Hc. rewrite (log_split i) in Hc.
      apply consecutive_app in Hc as [Hc _]. pose proof (consecutive_in _ _ _ Hc Hx).
      unfold start_of, all_entries in *. lia.
Qed.

(** Past the last entry nothing is left. *)
Lemma past_rest i next : next_point start step (start_of base fs i) next ->
  base + zlen log <= uintn_val next -> List.filter (selected start until step) (from_file i) = [].
Proof.
  intros Hn Hge. apply filter_none. intros e He.
  pose proof (consecutive_in _ _ _ (from_file_ids i) He) as Hb.
  rewrite (next_point_selected start until step Hstep _ _ e Hn) by lia. apply selected_below.
  assert (start_of base fs i + zlen (from_file i) = base + zlen log); [|lia].
  rewrite (log_split i) at 1. rewrite zlen_app. unfold start_of, all_entries. lia.
Qed.

(** Between the last file and the memory there is no gap. *)
Lemma next_in_files i next : start_of base fs i <= uintn_val next ->
  uintn_val next < base + zlen log -> ~ first_in_memory (mq_inner mq) next -> (i < length fs)%nat.
Proof.
  intros Hge Hlt Hf. destruct (decide (i < length fs)%nat) as [|Hi]; [done|]. exfalso. apply Hf.
  assert (start_of base fs i = base + zlen (all_entries fs)) as Hs.
  { unfold start_of. by rewrite take_ge by lia. }
  destruct (mc_suffix Hcov) as (pre & Hlog & Hpre).
  unfold first_in_memory. rewrite (mv_first _ (mc_inv Hcov)).
  pose proof (mc_ids Hcov) as Hc. rewrite Hlog in Hc, Hlt. apply consecutive_app in Hc as [_ Hc].
  rewrite zlen_app in Hlt. destruct (mi_entries (mq_inner mq)) as [|e es].
  - rewrite zlen_nil in Hlt. lia.
  - destruct Hc as [He _]. cbn. lia.
Qed.

(** [follow_full], where the memory has entries. *)
Lemma follow_spec from next ch : uintn_ok next -> ch_life ch = None ->
  mi_entries (mq_inner mq) <> [] ->
  (first_in_memory (mq_inner mq) next /\ exists ls id,
     let ch' := {| ch_sent := ch_sent ch ++ map (to_read_entry DSMemory)
                     (List.filter (selected next None step) (mi_entries (mq_inner mq)));
                   ch_life := None |} in
     last_ok ls /\
     match ls with Some l => uintn_val l < next_after (mi_last_id (mq_inner mq)) | None => True end /\
     mq_follow_full mq from next step ch =
       Some (fst (add_subscriber mq (SubFollow ls from step ch')),
             mem_answer true None (Some id), ch')) \/
  (~ first_in_memory (mq_inner mq) next /\
   mq_follow_full mq from next step ch = Some (mq, mem_fail, ch)).
Proof.
  intros Hn Hch Hne. rewrite follow_full_eq. cbn zeta. unfold first_in_memory.
  pose proof (mc_inv Hcov) as Hinv. pose proof (mv_first _ Hinv) as Hfirst.
  pose proof (mv_ids _ Hinv) as Hids.
  destruct (mi_first_id (mq_inner mq)) as [m|].
  2:{ by destruct (mi_entries (mq_inner mq)). }
  assert (uintn_ok m) as Hm.
  { destruct (mi_entries (mq_inner mq)) as [|e es]; [done|]. injection Hfirst as ->.
    by apply Forall_cons in Hids as [? _]. }
  rewrite ltb_spec_val by eauto with normfs. destruct (Z.ltb_spec (uintn_val next) (uintn_val m)).
  - right. split; [lia|done].
  - left. split; [done|]. rewrite (collect_memory _ next None step 0) by done.
    unfold limited. rewrite decide_False by lia. rewrite send_all_open by done.
    unfold add_subscriber. cbn. eexists _, _.
    pose proof (last_selected (mq_inner mq) next step Hinv) as Hl.
    split; [|split; [|reflexivity]]; destruct (last (List.filter _ _)); try done; apply Hl.
Qed.

(** ** From the content of a file to the end of the read *)

Hypothesis Hmem : until = None -> mi_entries (mq_inner mq) <> [].

(** The subscription that a read without an end leaves: it is the last one of the
    queue and has the channel; and unless the read began behind the next id, it
    goes on where the entries of the log end. *)
Definition handed_on (w' : fsm_world) : Prop :=
  exists mq' id ls next,
    ms_queues (fw_mem w') !! qid_path q = Some mq' /\ mq_inner mq' = mq_inner mq /\
    mq_subscribers mq' = mq_subscribers mq ++ [(id, SubFollow ls next step (fw_chan w'))] /\
    last_ok ls /\ uintn_ok next /\
    (uintn_val start <= base + zlen log ->
     on_step start step (uintn_val next) /\ uintn_val next <= base + zlen log /\
     match ls with Some l => uintn_val l < base + zlen log | None => True end).

(** The read ended and sent [l]; a subscription is only made when the read has
    no end. *)
Definition read_done (w : fsm_world) (r : option (fsm_world * outcome nf_error bool))
    (l : list (uintn * bytes)) : Prop :=
  exists w' b, r = Some (w', Ok b) /\ payload (fw_chan w') = payload (fw_chan w) ++ l /\
    kept w' /\
    ch_life (fw_chan w') = None /\ (b = true -> until = None /\ handed_on w').

Lemma done_mono n m w s l w0 : read_done w0 (run n w s step) l -> (n <= m)%nat ->
  read_done w0 (run m w s step) l.
Proof.
  intros (w' & b & Hr & ?) Hle. exists w', b. split; [|done]. by eapply run_mono.
Qed.

Lemma done_completed n w w0 l : kept w -> ch_life (fw_chan w) = None ->
  payload (fw_chan w) = payload (fw_chan w0) ++ l ->
  read_done w0 (run n w Completed step) l.
Proof. intros Hk Ho Hp. exists w, false. by destruct n. Qed.

Lemma done_chan w w0 r l l' : payload (fw_chan w) = payload (fw_chan w0) ++ l ->
  read_done w r l' -> read_done w0 r (l ++ l').
Proof.
  intros Hw (w' & b & Hr & Hp & Hb). exists w', b. split; [done|]. split; [|exact Hb].
  by rewrite Hp, Hw, app_assoc.
Qed.

(** The prefetched file, if any, is the next one. *)
Definition prefetched (i : nat) (prefetch : prefetch_handle) : Prop :=
  prefetch = None \/
  forall f, fs !! S i = Some f -> exists src, prefetch = Some (Ok (Some (qf_bytes f, src))).

Lemma run_next_file n w i f0 f next prefetch l : fsm_good w -> fs !! i = Some f0 ->
  fs !! S i = Some f -> prefetched i prefetch ->
  (forall src, read_done w (run n w (ParseWalBytes (ctx_at (S i) next) (qf_bytes f) src) step) l) ->
  exists w' s', next_file w (uid (lo + Z.of_nat i)) (ctx_at i next) prefetch = Some (w', Ok s') /\
    read_done w (run (3 + n) w' s' step) l.
Proof.
  intros Hg Hi Hf Hp Hparse. unfold next_file. cbn zeta. rewrite (next_uid w i f0) by done.
  destruct Hp as [->|Hp].
  - eexists _, _. split; [reflexivity|].
    change (with_file_id (ctx_at i next) (uid (lo + Z.of_nat (S i)))) with (ctx_at (S i) next).
    destruct (fetch_file w (S i) f next n Hg Hf) as [src ->]. apply Hparse.
  - destruct (Hp f Hf) as [src ->]. eexists _, _. split; [reflexivity|].
    change (with_file_id (ctx_at i next) (uid (lo + Z.of_nat (S i)))) with (ctx_at (S i) next).
    apply (done_mono n); [apply Hparse|lia].
Qed.

(** The state [ReadNextFile], after the file [i]: what it does next. *)
Section NextFile.
Context (n : nat) (w : fsm_world) (i : nat) (f0 : qfile) (next : uintn) (prefetch : prefetch_handle).
Hypothesis Hg : fsm_good w.
Hypothesis Hi : fs !! i = Some f0.
Hypothesis Hn : next_point start step (start_of base fs (S i)) next.
Hypothesis Hp : prefetched i prefetch.
Hypothesis Hparse : forall f src, fs !! S i = Some f ->
  read_done w (run n w (ParseWalBytes (ctx_at (S i) next) (qf_bytes f) src) step)
    (List.filter (selected start until step) (from_file (S i))).

(** Done, with [l] sent, whatever the fuel. *)
Definition leads_to (r : step_result) : Prop :=
  exists w' s', r = Some (w', Ok s') /\ read_done w (run (3 + n) w' s' step)
    (List.filter (selected start until step) (from_file (S i))).

Lemma leads_next : ~ first_in_memory (mq_inner mq) next -> uintn_val next < base + zlen log ->
  leads_to (next_file w (uid (lo + Z.of_nat i)) (ctx_at i next) prefetch).
Proof.
  intros Hf Hlt. assert (S i < length fs)%nat as Hsi
    by (apply (next_in_files _ next); [apply Hn|done..]).
  destruct (lookup_lt_is_Some_2 fs (S i) Hsi) as [f Hf'].
  apply (run_next_file n w i f0 f); try done. intros src. by apply Hparse.
Qed.

Lemma leads_completed ch l : ch_life ch = None -> payload ch = payload (fw_chan w) ++ l ->
  l = List.filter (selected start until step) (from_file (S i)) ->
  leads_to (goto (set_chan w ch) Completed).
Proof.
  intros Ho Hch ->. eexists _, _. split; [reflexivity|]. apply done_completed; [|done|done].
  by apply good_kept.
Qed.

(** [handle_read_next_file] once the end of the queue is not passed. *)
Lemma leads_limited u : until = Some u ->
  leads_to (match ms_read_full (fw_mem w) q next u step (fw_chan w) with
    | None => None
    | Some (result, ch) =>
        if mr_success result then goto (set_chan w ch) Completed
        else next_file (set_chan w ch) (uid (lo + Z.of_nat i)) (ctx_at i next) prefetch
    end).
Proof.
  intros Eu. unfold ms_read_full. rewrite (fg_queue _ Hg).
  assert (uintn_ok u) as Hu by (by rewrite Eu in Huntil).
  destruct (read_full_spec mq next u step (fw_chan w) (mc_inv Hcov) (proj1 Hn) Hu (proj1 Hstep)
    (proj2 Hstep) (fg_open _ Hg)) as (r & ch' & -> & Hcase). pose proof (mc_last Hcov) as Hlast.
  destruct Hcase as [(Hge & -> & ->)|[(Hlt & Hf & -> & ->)|(Hlt & Hf & -> & ->)]];
    cbn [mr_success mem_answer mem_fail].
  - apply (leads_completed _ []); [apply (fg_open _ Hg)|by rewrite app_nil_r|].
    symmetry. apply (past_rest (S i) next); [done|lia].
  - assert (set_chan w (fw_chan w) = w) as -> by (by destruct w). apply leads_next; [done|lia].
  - eapply leads_completed; [done|by apply payload_sent|]. rewrite <- Eu. by apply (memory_rest (S i) next).
Qed.

Lemma leads_follow : until = None -> uintn_val next <= base + zlen log ->
  leads_to (match ms_follow_full (fw_mem w) q next next step (fw_chan w) with
    | None => None
    | Some (mem, result, ch) =>
        if mr_success result && bool_decide (is_Some (mr_subscription_id result))
        then goto (set_mem w mem ch) Subscribed
        else next_file (set_mem w mem ch) (uid (lo + Z.of_nat i)) (ctx_at i next) prefetch
    end).
Proof.
  intros Eu Hle. unfold ms_follow_full. rewrite (fg_queue _ Hg). pose proof (mc_last Hcov) as Hlast.
  destruct (follow_spec next next (fw_chan w) (proj1 Hn) (fg_open _ Hg) (Hmem Eu))
    as [(Hf & ls & id & Hls & Hlb & Hr)|(Hf & Hr)]; cbn zeta in Hr; rewrite Hr;
    cbn [mr_success mr_subscription_id mem_answer mem_fail andb].
  - rewrite bool_decide_true by (by eexists). eexists _, _. split; [reflexivity|].
    eexists _, true. split; [done|]. split; [|split; [|split; [done|]]].
    + cbn [set_mem fw_chan fw_mem]. rewrite payload_sent. f_equal. rewrite <- Eu. by apply (memory_rest (S i) next).
    + apply subscriber_kept; [done|done|apply Hn|apply Hstep..].
    + cbn [set_mem fw_chan fw_mem]. intros _. split; [done|]. eexists _, _, ls, next. split; [apply lookup_insert_eq|].
      split; [done|]. split; [done|]. split; [done|]. split; [apply Hn|]. intros _. rewrite Hlast in Hlb.
      split; [apply Hn|]. by split.
  - assert (set_mem w (set_queue (fw_mem w) q mq) (fw_chan w) = w) as ->.
    { pose proof (fg_queue _ Hg) as Hq. destruct w as [l [qs mx] ch].
      unfold set_mem, set_queue. cbn in *. by rewrite fin_maps.insert_id. }
    apply leads_next; [done|].
    destruct (decide (uintn_val next < base + zlen log)) as [|Hge]; [done|]. exfalso. apply Hf.
    unfold first_in_memory. rewrite (mv_first _ (mc_inv Hcov)).
    destruct (mc_suffix Hcov) as (pre & Hlog & _).
    pose proof (mc_ids Hcov) as Hc. rewrite Hlog in Hc, Hge. apply consecutive_app in Hc as [_ Hc].
    rewrite zlen_app in Hge. pose proof (Hmem Eu) as Hne.
    destruct (mi_entries (mq_inner mq)) as [|e es]; [done|]. destruct Hc as [He _].
    rewrite zlen_cons in Hge. pose proof (zlen_nonneg es). cbn. lia.
Qed.

Lemma leads_read_next :
  leads_to (handle_read_next_file w (uid (lo + Z.of_nat i)) (ctx_at i next) prefetch).
Proof.
  unfold handle_read_next_file. rewrite if_open_open by apply (fg_open _ Hg).
  cbn [rc_queue rc_next_id rc_last_id rc_step ctx_at].
  assert (match ms_get_last_id (fw_mem w) q with
    | Some (Some queue_last_id) => uintn_ltb queue_last_id next | _ => false end = true ->
    base + zlen log <= uintn_val next) as Hpast.
  { unfold ms_get_last_id, mq_get_last_id. rewrite (fg_queue _ Hg). cbn [option_map].
    pose proof (mv_last_ok _ (mc_inv Hcov)) as Hlo. rewrite <- (mc_last Hcov).
    destruct (mi_last_id (mq_inner mq)) as [x|]; [|done]. cbn [last_ok next_after] in *.
    destruct Hn as [Hno _]. rewrite ltb_spec_val by eauto with normfs. intros Hx%Z.ltb_lt. lia. }
  assert (until = None -> match ms_get_last_id (fw_mem w) q with
    | Some (Some queue_last_id) => uintn_ltb queue_last_id next | _ => false end = false ->
    uintn_val next <= base + zlen log) as Hbefore.
  { intros Eu. unfold ms_get_last_id, mq_get_last_id. rewrite (fg_queue _ Hg). cbn [option_map].
    pose proof (mv_last_ok _ (mc_inv Hcov)) as Hlo. rewrite <- (mc_last Hcov).
    destruct (last_known _ (mc_inv Hcov) (Hmem Eu)) as [x Ex]. rewrite Ex in *. cbn [last_ok next_after] in *.
    destruct Hn as [Hno _]. rewrite ltb_spec_val by eauto with normfs. intros Hx%Z.ltb_ge. lia. }
  destruct (match ms_get_last_id (fw_mem w) q with
    | Some (Some queue_last_id) => uintn_ltb queue_last_id next | _ => false end).
  { replace (goto w Completed) with (goto (set_chan w (fw_chan w)) Completed) by (by destruct w).
    apply (leads_completed _ []); [apply (fg_open _ Hg)|by rewrite app_nil_r|].
    symmetry. apply (past_rest (S i) next); auto. }
  case_eq until; [intros u Eu; by apply leads_limited|intros Eu; apply leads_follow; auto].
Qed.

Lemma read_next : read_done w
  (run (4 + n) w (ReadNextFile (uid (lo + Z.of_nat i)) (ctx_at i next) prefetch) step)
  (List.filter (selected start until step) (from_file (S i))).
Proof.
  destruct leads_read_next as (w' & s' & Hs & Hd).
  cbn [Nat.add]. erewrite run_step; [exact Hd|done|exact Hs].
Qed.

End NextFile.

(** The loop over the files. *)
Lemma read_files_from n w i f next src : fsm_good w -> fs !! i = Some f ->
  next_point start step (start_of base fs i) next -> (5 * (length fs - i) <= n)%nat ->
  read_done w (run n w (ParseWalBytes (ctx_at i next) (qf_bytes f) src) step)
    (List.filter (selected start until step) (from_file i)).
Proof.
  revert w i f next src. induction n as [n IH] using lt_wf_ind. intros w i f next src Hg Hi Hn Hfuel.
  pose proof (lookup_lt_Some _ _ _ Hi) as Hlt. destruct n as [|n]; [lia|].
  pose proof (fg_open _ Hg) as Ho.
  assert (List.filter (selected start until step) (qf_entries f) =
    List.filter (selected next until step) (qf_entries f)) as Hsel.
  { apply filter_ext_in. intros e He. apply (next_point_selected start until step Hstep _ _ e Hn).
    destruct (fg_layout _ Hg) as [Hl _]. pose proof (qo_ids _ _ (ql_ok _ _ _ _ _ _ Hl i f Hi)) as Hc.
    pose proof (consecutive_in _ _ _ Hc He). lia. }
  rewrite (from_file_S i f Hi), List.filter_app, Hsel.
  set (ch' := {| ch_sent := ch_sent (fw_chan w) ++ map (to_read_entry src)
      (List.filter (selected next until step) (qf_entries f)); ch_life := None |}).
  pose proof (parse_file w i f next src Hg Hi (proj1 Hn)) as Hparse.
  set (last_read := option_map fst (last (List.filter (selected next until step) (qf_entries f)))) in *.
  destruct (existsb (reaches until) (map fst (qf_entries f))) eqn:Hr.
  - erewrite run_step; [|done|].
    2:{ cbn [transition]. unfold handle_parse_wal_bytes. rewrite if_open_open by done. cbn zeta.
        cbn [rc_next_id rc_last_id rc_step ctx_at]. rewrite Hparse. reflexivity. }
    rewrite (reached_rest start until step (start_of base fs i) (qf_entries f)); [|by rewrite <- (from_file_S i f Hi); apply from_file_ids|done].
    rewrite app_nil_r. apply done_completed; [by apply good_kept|done|].
    cbn [set_chan fw_chan]. by rewrite payload_sent.
  - set (next' := match last_read with
      | Some last_read => uintn_add last_read (uintn_from_u64 step) | None => next end).
    assert (next_point start step (start_of base fs (S i)) next') as Hn'.
    { rewrite (start_of_S _ _ _ _ Hi). destruct (fg_layout _ Hg) as [Hl _].
      pose proof (ql_ok _ _ _ _ _ _ Hl i f Hi) as Hok.
      apply (next_point_after start until step Hstep); try done.
      - apply (qo_ids _ _ Hok).
      - eapply Forall_impl; [exact (qo_fits _ _ Hok)|]. intros e He. apply He. }
    erewrite run_step; [|done|].
    2:{ cbn [transition]. unfold handle_parse_wal_bytes. rewrite if_open_open by done. cbn zeta.
        cbn [rc_next_id rc_last_id rc_step rc_file_id rc_queue ctx_at]. rewrite Hparse. reflexivity. }
    fold next'. change (with_next_id (ctx_at i next) next') with (ctx_at i next').
    apply (done_chan (set_chan w ch')); [apply payload_sent|].
    assert (fsm_good (set_chan w ch')) as Hg' by (by apply good_chan).
    destruct (decide (4 <= n)%nat) as [Hn4|]; [|lia]. replace n with (4 + (n - 4))%nat by lia.
    apply (read_next (n - 4) (set_chan w ch') i f next'); try done.
    + unfold prefetched. destruct (should_prefetch _); [|by left]. right. intros f' Hf'.
      rewrite (next_uid w i f) by done. destruct (prefetch_file w (S i) f' Hg Hf') as [src' ->].
      by exists src'.
    + intros f' src' Hf'. apply IH; try done; lia.
Qed.

(** ** Whole reads *)

Hypothesis Hbase : base <= uintn_val start.
Hypothesis Hsearch : zlen fs <= Z.of_nat search_fuel.

(** The transitions a read can need. *)
Definition read_fuel : nat := 6 + 5 * length fs.

Lemma start_point i : start_of base fs i <= uintn_val start ->
  next_point start step (start_of base fs i) start.
Proof.
  intros Hs. split_and!; [done| |done|by left]. split; [lia|]. by rewrite Z.sub_diag, Zmod_0_l.
Qed.

Lemma before_start i : start_of base fs i <= uintn_val start ->
  List.filter (selected start until step) log = List.filter (selected start until step) (from_file i).
Proof.
  intros Hs. rewrite (log_split i). apply filter_suffix. intros x Hx. apply selected_below.
  pose proof (mc_ids Hcov) as Hc. rewrite (log_split i) in Hc. apply consecutive_app in Hc as [Hc _].
  pose proof (consecutive_in _ _ _ Hc Hx). unfold start_of, all_entries in *. lia.
Qed.

Lemma log_from : from_file 0 = log.
Proof. done. Qed.

(** From the lookup of the file on. *)
Lemma read_from_files w : fsm_good w ->
  read_done w (run (4 + 5 * length fs) w (LookupFile q start until step) step)
    (List.filter (selected start until step) log).
Proof.
  intros Hg. pose proof (fg_layout _ Hg) as Hl.
  destruct (find_file_layout env q lo base fs search_fuel files (fw_lk w) start Hstart Hl Hsearch)
    as (st' & x & Hfind & Hl' & Hx & Ha).
  set (w1 := {| fw_lk := st'; fw_mem := fw_mem w; fw_chan := fw_chan w |}).
  assert (fsm_good w1) as Hg1 by (split; [done|apply (fg_queue _ Hg)|apply (fg_open _ Hg)]).
  assert (file_start lo base fs lo = base) as Hlo.
  { unfold file_start. rewrite Z.sub_diag. apply start_of_0. }
  destruct Ha as [[Hlt _]|[_ (Hr & Hs & _)]]; [lia|].
  destruct (file_at env q lo base fs _ x (proj1 Hl) Hx) as (i & f & Hi & -> & Hv); [lia|].
  rewrite Hv, file_start_nat in Hs. rewrite (before_start i Hs).
  cbn [Nat.add]. erewrite run_step; [|done|].
  2:{ cbn [transition]. unfold handle_lookup_file. rewrite if_open_open by apply (fg_open _ Hg).
      rewrite Hfind. reflexivity. }
  fold w1. change {| rc_queue := q; rc_file_id := uid (lo + Z.of_nat i); rc_next_id := start;
    rc_step := step; rc_last_id := until |} with (ctx_at i start).
  change (S (S (S (5 * length fs)))) with (3 + 5 * length fs)%nat.
  destruct (fetch_file w1 i f start (5 * length fs) Hg1 Hi) as [src ->].
  change (read_done w ?r ?l) with (read_done w1 r l).
  apply read_files_from; try done; [by apply start_point|lia].
Qed.

End Queue.

(** ** Limited reads and follows *)

Section Reads.
Context (q : queue_id) (lo base : Z) (fs : list qfile) (files : gmap str bytes).
Context (rest : list (uintn * bytes)) (mq : mem_queue).
Hypothesis Hcov : mem_covers base fs rest mq.
Context (start : uintn) (step : Z) (w : fsm_world).
Hypothesis Hstart : uintn_ok start.
Hypothesis Hstep : in_u 64 step /\ 1 <= step.
Hypothesis Hbase : base <= uintn_val start.
Hypothesis Hsearch : zlen fs <= Z.of_nat search_fuel.
Hypothesis Hg : fsm_good q lo base fs files mq w.

Lemma read_limited limit : 1 <= limit -> in_u 64 ((limit - 1) * step) ->
  exists w', fsm_read env None search_fuel (read_fuel fs) w q (Absolute start) limit step =
      Some (w', Ok false) /\
    payload (fw_chan w') = payload (fw_chan w) ++
      List.filter (selected start
        (Some (uintn_add start (uintn_from_u64 ((limit - 1) * step)))) step) (log fs rest) /\
    kept q lo base fs files mq w'.
Proof.
  intros Hlim Hspan. pose proof (fg_open _ _ _ _ _ _ _ Hg) as Ho.
  destruct (from_u64_spec _ Hspan) as [Hsc Hsv].
  set (u := uintn_add start (uintn_from_u64 ((limit - 1) * step))).
  assert (uintn_ok u) as Hu by (apply add_spec; [done|by apply canonical_ok]).
  assert (set_chan w (fw_chan w) = w) as Hw by (by destruct w).
  assert (fsm_read env None search_fuel (read_fuel fs) w q (Absolute start) limit step =
    run (read_fuel fs) w (LookupPositive q start limit) step) as ->.
  { unfold fsm_read, ch_is_closed. rewrite bool_decide_false by (by rewrite Ho).
    rewrite ch_tick_open by done. f_equal. destruct w as [l m [se lf]]. cbn in *. by subst. }
  assert (forall r l, read_done q lo base fs files rest mq start (Some u) step w r l -> exists w', r = Some (w', Ok false) /\
    payload (fw_chan w') = payload (fw_chan w) ++ l /\ kept q lo base fs files mq w') as Hfin.
  { intros r l (w' & b & -> & Hp & Hk & _ & Hb). exists w'. destruct b; [by destruct (Hb eq_refl)|done]. }
  apply Hfin. unfold read_fuel. cbn [Nat.add].
  assert (transition env None search_fuel w (LookupPositive q start limit) step =
    match ms_read_full (fw_mem w) q start u step (fw_chan w) with
    | None => None
    | Some (result, ch) =>
        if mr_success result then goto (set_chan w ch) Completed
        else goto (set_chan w ch) (LookupFile q start (Some u) step)
    end) as Ht.
  { cbn [transition]. unfold handle_lookup_positive. rewrite if_open_open by done.
    rewrite decide_True by lia. unfold limit_end. by rewrite arith_ok. }
  unfold ms_read_full in Ht. rewrite (fg_queue _ _ _ _ _ _ _ Hg) in Ht.
  destruct (read_full_spec mq start u step (fw_chan w) (mc_inv _ _ _ _ Hcov) Hstart Hu (proj1 Hstep)
    (proj2 Hstep) Ho) as (r & ch' & Hr & Hcase). rewrite Hr in Ht.
  pose proof (start_point base fs start step Hstart 0) as Hpt.
  pose proof (start_of_0 base fs) as H0. rewrite H0 in Hpt.
  specialize (Hpt Hbase).
  pose proof (mc_last _ _ _ _ Hcov) as Hlast.
  destruct Hcase as [(Hge & -> & ->)|[(_ & _ & -> & ->)|(_ & Hf & -> & ->)]];
    cbn [mr_success mem_answer mem_fail] in Ht; (erewrite run_step; [|done|exact Ht]).
  - rewrite <- (log_from fs rest), (past_rest base fs rest mq Hcov start (Some u) step Hstep 0 start);
      [|by rewrite H0|lia]. apply done_completed; [by apply good_kept|done|by rewrite app_nil_r].
  - rewrite Hw. apply (done_mono q lo base fs files rest mq start (Some u) step (4 + 5 * length fs)); [|lia].
    by apply (read_from_files q lo base fs files rest mq Hcov start (Some u) step).
  - apply done_completed; [by apply good_kept|done|]. cbn [set_chan fw_chan]. rewrite payload_sent. f_equal.
    rewrite <- (log_from fs rest).
    apply (memory_rest base fs rest mq Hcov start (Some u) step Hstep 0 start); [by rewrite H0|done].
Qed.

End Reads.
End Run.
