(* ===== verification/FsmClaims.v ===== *)
(** * What the reader does

    Limited reads are exact; a follow takes its history from the files and then
    from memory; and the cases where the reader loses entries, stops early or
    does not stop. *)
From Stdlib Require Import ZArith Lia List Bool Sorted.
From Stdlib Require Import Ascii String.
From stdpp Require Import base option list gmap strings.
From S2P Require Import Prelude UBig UintN UintNFacts Paths PathsFacts PathsSearch FileTree Types.
From S2P Require Import WalFormat WalReader WalReaderFacts WalReaderTotal OrderedBuffer AckWriter.
From S2P Require Import WalWriter WalWriterFacts Crypto StoreFormat Store StoreFacts WalStore.
From S2P Require Import Cloud Lookup LookupFacts QueueLayout WalLayout Mem MemFacts ReaderFsm.
From S2P Require Import ReaderFsmFacts.
#[local] Open Scope Z_scope.

Section Follow.
Context {B : Build} {U : UBig} {H : HexCrate} {X : Hasher} {C : CryptoLib} {Z' : CompressLib}.
Context {S3 : S3Http}.
Context (env : store_env) (search_fuel : nat).
Context (q : queue_id) (lo base : Z) (fs : list qfile) (files : gmap str bytes).
Context (rest : list (uintn * bytes)) (mq : mem_queue).
Hypothesis Hcov : mem_covers base fs rest mq.
Context (start : uintn) (step : Z) (w : fsm_world).
Hypothesis Hstart : uintn_ok start.
Hypothesis Hstep : in_u 64 step /\ 1 <= step.
Hypothesis Hg : fsm_good env q lo base fs files mq w.

Lemma fsm_read_positive fuel limit :
  fsm_read env None search_fuel fuel w q (Absolute start) limit step =
  run_fsm env None search_fuel fuel w (LookupPositive q start limit) step.
Proof.
  pose proof (fg_open _ _ _ _ _ _ _ _ Hg) as Ho. unfold fsm_read, ch_is_closed.
  rewrite bool_decide_false by (by rewrite Ho). rewrite ch_tick_open by done.
  f_equal. destruct w as [l m [se lf]]. cbn in *. by subst.
Qed.

(** The first transition of a follow. *)
Lemma follow_first : mi_entries (mq_inner mq) <> [] ->
  (first_in_memory (mq_inner mq) start /\ exists w',
     transition env None search_fuel w (LookupPositive q start 0) step = Some (w', Ok Subscribed) /\
     payload (fw_chan w') = payload (fw_chan w) ++
       List.filter (selected start None step) (mi_entries (mq_inner mq)) /\
     kept env q lo base fs files mq w' /\ ch_life (fw_chan w') = None /\
     handed_on q base fs rest mq start step w') \/
  (~ first_in_memory (mq_inner mq) start /\
   transition env None search_fuel w (LookupPositive q start 0) step =
     Some (w, Ok (LookupFile q start None step))).
Proof.
  intros Hne. pose proof (fg_open _ _ _ _ _ _ _ _ Hg) as Ho.
  pose proof (fg_queue _ _ _ _ _ _ _ _ Hg) as Hq.
  cbn [transition]. unfold handle_lookup_positive. rewrite if_open_open by done.
  rewrite decide_False by lia. unfold ms_follow_full. rewrite Hq.
  destruct (follow_spec base fs rest mq Hcov step Hstep start start (fw_chan w) Hstart Ho Hne)
    as [(Hf & ls & id & Hls & Hlb & Hr)|(Hf & Hr)]; cbn zeta in Hr; rewrite Hr;
    cbn [mr_success mr_subscription_id mem_answer mem_fail andb].
  - left. split; [done|]. rewrite bool_decide_true by (by eexists).
    eexists. split; [reflexivity|]. unfold handed_on. cbn [set_mem fw_chan fw_mem].
    split; [apply payload_sent|]. split; [by apply subscriber_kept; try apply Hstep|]. split; [done|].
    eexists _, _, ls, start. split; [apply lookup_insert_eq|]. do 4 (split; [done|]).
    intros Hle. rewrite (mc_last _ _ _ _ Hcov) in Hlb. split; [|by split].
    split; [lia|]. by rewrite Z.sub_diag.
  - right. split; [done|]. unfold goto. do 3 f_equal. destruct w as [l [qs mx] ch].
    unfold set_mem, set_queue. cbn in *. by rewrite fin_maps.insert_id.
Qed.

Lemma follow_log : base <= uintn_val start -> zlen fs <= Z.of_nat search_fuel ->
  mi_entries (mq_inner mq) <> [] ->
  read_done env q lo base fs files rest mq start None step w
    (fsm_read env None search_fuel (read_fuel fs) w q (Absolute start) 0 step)
    (List.filter (selected start None step) (log fs rest)).
Proof.
  intros Hbase Hsearch Hne. rewrite fsm_read_positive. unfold read_fuel. cbn [Nat.add].
  destruct (follow_first Hne) as [(Hf & w' & Ht & Hp & Hk & Ho & Hs)|[_ Ht]];
    (erewrite run_step; [|done|exact Ht]).
  - eexists w', true. split; [done|]. split.
    + rewrite Hp. f_equal. rewrite <- (log_from fs rest).
      apply (memory_rest base fs rest mq Hcov start None step Hstep 0 start); [|done].
      apply start_point; try done. by rewrite start_of_0.
    + by split_and!.
  - apply (done_mono env search_fuel q lo base fs files rest mq start None step (4 + 5 * length fs)); [|lia].
    by apply (read_from_files env search_fuel q lo base fs files rest mq Hcov start None step).
Qed.

(** The last id of the memory, where it has entries. *)
Lemma last_of_entries : mi_entries (mq_inner mq) <> [] ->
  exists x, mi_last_id (mq_inner mq) = Some x /\ uintn_ok x /\
    uintn_val x = base + zlen (log fs rest) - 1.
Proof.
  intros Hne. pose proof (mc_inv _ _ _ _ Hcov) as Hinv. pose proof (mc_last _ _ _ _ Hcov) as Hlast.
  pose proof (mv_last_ok _ Hinv) as Ho. destruct (last_known _ Hinv Hne) as [x Ex]. rewrite Ex in *.
  exists x. cbn in *. split_and!; [done..|lia].
Qed.

(** A queue whose entries are all in one file. *)
Lemma follow_one_file f : fs = [f] -> rest = [] -> mi_entries (mq_inner mq) <> [] ->
  base <= uintn_val start -> 1 <= Z.of_nat search_fuel -> ~ first_in_memory (mq_inner mq) start ->
  exists w', fsm_read env None search_fuel (read_fuel fs) w q (Absolute start) 0 step =
    Some (w', Ok false).
Proof.
  intros Hfs Hrest Hne Hbase Hsearch Hnf. rewrite fsm_read_positive. unfold read_fuel. cbn [Nat.add].
  destruct (follow_first Hne) as [[? _]|[_ Ht]]; [done|]. erewrite run_step; [|done|exact Ht].
  pose proof (fg_layout _ _ _ _ _ _ _ _ Hg) as Hl. assert (zlen fs = 1) as Hlen by by rewrite Hfs.
  destruct (find_file_layout env q lo base fs search_fuel files (fw_lk w) start Hstart Hl)
    as (st' & x & Hfind & Hl' & Hx & Ha); [lia|].
  set (w1 := {| fw_lk := st'; fw_mem := fw_mem w; fw_chan := fw_chan w |}).
  assert (fsm_good env q lo base fs files mq w1) as Hg1
    by (split; [done|apply (fg_queue _ _ _ _ _ _ _ _ Hg)|apply (fg_open _ _ _ _ _ _ _ _ Hg)]).
  assert (uintn_val x = lo) as Hxv by (destruct Ha as [[_ ?]|[_ (? & _)]]; lia).
  assert (x = uid (lo + Z.of_nat 0)) as ->.
  { rewrite Z.add_0_r, <- Hxv. symmetry. apply uid_val; [done|].
    pose proof (ql_hi _ _ _ _ _ _ (proj1 Hl)). lia. }
  assert (fs !! 0%nat = Some f) as Hi by by rewrite Hfs.
  erewrite run_step; [|done|].
  2:{ cbn [transition]. unfold handle_lookup_file.
      rewrite if_open_open by apply (fg_open _ _ _ _ _ _ _ _ Hg). rewrite Hfind. reflexivity. }
  fold w1. rewrite Hfs. cbn [length].
  destruct (fetch_file env search_fuel q lo base fs files mq None step w1 0 f start 6
    Hg1 Hi) as [src Hfetch]. cbn [Nat.add Nat.mul] in *.
  change {| rc_queue := q; rc_file_id := uid (lo + Z.of_nat 0); rc_next_id := start;
    rc_step := step; rc_last_id := None |} with (ctx_at q lo None step 0 start).
  rewrite Hfetch.
  pose proof (parse_file env q lo base fs files mq None step I Hstep w1 0 f start src Hg1 Hi Hstart)
    as Hparse.
  assert (existsb (reaches None) (map fst (qf_entries f)) = false) as Hr
    by (clear; by induction (map fst (qf_entries f))).
  rewrite Hr in Hparse.
  erewrite run_step; [|done|].
  2:{ cbn [transition]. unfold handle_parse_wal_bytes.
      rewrite if_open_open by apply (fg_open _ _ _ _ _ _ _ _ Hg). cbn zeta.
      cbn [rc_next_id rc_last_id rc_step rc_file_id rc_queue ctx_at]. rewrite Hparse. reflexivity. }
  pose proof (ql_ok _ _ _ _ _ _ (proj1 Hl) 0 f Hi) as Hok. rewrite start_of_0 in Hok.
  assert (next_point start step base start) as Hn.
  { split_and!; [done| |done|by left]. split; [lia|]. by rewrite Z.sub_diag, Zmod_0_l. }
  pose proof (next_point_after start None step Hstep base start (qf_entries f) Hn (qo_ids _ _ Hok)
    ltac:(eapply Forall_impl; [exact (qo_fits _ _ Hok)|intros e He; apply He]) Hr) as (Hno & _ & Hge & _).
  set (next' := match option_map _ _ with Some _ => _ | None => _ end) in *.
  destruct (last_of_entries Hne) as (x & Hlx & Hxo & Hxl).
  assert (base + zlen (log fs rest) = base + zlen (qf_entries f)) as Hlog.
  { unfold log, all_entries. rewrite Hfs, Hrest. cbn [map concat]. by rewrite !app_nil_r. }
  erewrite run_step; [|done|]; cycle 1.
  { cbn [transition]. unfold handle_read_next_file. rewrite if_open_open by done.
    cbn [rc_next_id rc_last_id rc_step rc_file_id rc_queue ctx_at with_next_id set_chan fw_mem w1].
    unfold ms_get_last_id, mq_get_last_id. rewrite (fg_queue _ _ _ _ _ _ _ _ Hg). cbn [option_map].
    rewrite Hlx, ltb_spec_val by eauto with normfs.
    destruct (Z.ltb_spec (uintn_val x) (uintn_val next')) as [_|Hle]; [reflexivity|lia]. }
  eexists. reflexivity.
Qed.

End Follow.

(** ** What goes wrong *)

Section Gaps.
Context {B : Build} {U : UBig} {H : HexCrate} {X : Hasher} {C : CryptoLib} {Z' : CompressLib}.
Context {S3 : S3Http}.
Context (env : store_env) (search_fuel : nat) (q : queue_id).

(** No file of the queue has an id from [n] on. *)
Definition no_files_from (st : store_state) (n : Z) : Prop :=
  forall x, uintn_ok x -> n <= uintn_val x ->
  st_files st !! store_path env q x = None /\ st_files st !! wal_path env q x = None /\
  se_io env (store_path env q x) = false /\ se_io env (wal_path env q x) = false.

Lemma no_file_bytes st n x : no_files_from st n -> uintn_ok x -> n <= uintn_val x ->
  get_store_bytes env st q x = Ok None /\ ws_get_wal_bytes env st q x = Ok None.
Proof.
  intros Hno Hok Hx. destruct (Hno x Hok Hx) as (Hs & Hw & Hsi & Hwi). split.
  - unfold get_store_bytes. cbn zeta. fold (store_path env q x). by rewrite Hsi, Hs.
  - unfold ws_get_wal_bytes, ws_disk, disk_of. fold (wal_path env q x). by rewrite Hwi, Hw.
Qed.

(** The files of a queue end. *)
Lemma layout_no_files lo base fs st : queue_layout env q lo base fs st ->
  no_files_from st (lo + zlen fs).
Proof.
  intros Hl x Hx Hn. destruct (ql_file_io _ _ _ _ _ _ Hl x) as [Hwi Hsi].
  destruct (shrink_spec x (ok_wf _ Hx)) as [Hc Hv].
  assert (forall base ext, uintn_to_file_path x base ext =
    uintn_to_file_path (uintn_shrink_to_fit x) base ext) as Hp.
  { intros. apply file_path_val; [by apply ok_wf|by apply ok_wf, canonical_ok|done]. }
  pose proof (ql_only _ _ _ _ _ _ Hl _ Hc) as Ho. rewrite Hv in Ho.
  unfold store_path, wal_path, queue_to_store_path, queue_to_wal_path in *. rewrite !Hp in *.
  split_and!; [| |done|done].
  - destruct (st_files st !! _) eqn:E in |- *; [|done]. exfalso. destruct Ho; [|lia..].
    right. by rewrite E.
  - destruct (st_files st !! _) eqn:E in |- *; [|done]. exfalso. destruct Ho; [|lia..].
    left. by rewrite E.
Qed.

Section Spin.
Context (w : fsm_world) (mq : mem_queue) (last next until : uintn) (step : Z).
Hypothesis Hq : ms_queues (fw_mem w) !! qid_path q = Some mq.
Hypothesis Ho : ch_life (fw_chan w) = None.
Hypothesis Hinv : mem_inv (mq_inner mq).
Hypothesis Hlast : mi_last_id (mq_inner mq) = Some last.
Hypothesis Hnext : uintn_ok next /\ uintn_val next <= uintn_val last.
Hypothesis Hmem : ~ first_in_memory (mq_inner mq) next.
Hypothesis Huntil : uintn_ok until.
Hypothesis Hstep : in_u 64 step /\ 1 <= step.

Definition ctx_of (x : uintn) : read_context :=
  {| rc_queue := q; rc_file_id := x; rc_next_id := next; rc_step := step;
     rc_last_id := Some until |}.

(** After a missing file, the next one. *)
Lemma after_missing x : uintn_ok x ->
  handle_read_next_file w x (ctx_of x) None = Some (w, Ok (ReadFile (ctx_of (uintn_increment x)))).
Proof.
  intros Hx. pose proof (mv_last_ok _ Hinv) as Hl. rewrite Hlast in Hl. cbn [last_ok] in Hl.
  unfold handle_read_next_file. rewrite if_open_open by done.
  cbn [rc_queue rc_next_id rc_last_id rc_step ctx_of].
  unfold ms_get_last_id, mq_get_last_id. rewrite Hq. cbn [option_map]. rewrite Hlast.
  rewrite ltb_spec_val by (apply ok_wf; [apply Hl || apply Hnext..]).
  destruct (Z.ltb_spec (uintn_val last) (uintn_val next)) as [|_]; [lia|].
  unfold ms_read_full. rewrite Hq.
  destruct (read_full_spec mq next until step (fw_chan w) Hinv (proj1 Hnext) Huntil (proj1 Hstep)
    (proj2 Hstep) Ho) as (r & ch' & -> & Hcase). rewrite Hlast in Hcase. cbn [next_after] in Hcase.
  destruct Hcase as [(Hge & _)|[(_ & _ & -> & ->)|(_ & Hf & _)]]; [lia| |done].
  cbn [mr_success mem_fail]. unfold next_file. cbn zeta. destruct w as [l m [se lf]]. reflexivity.
Qed.

Lemma spin n fuel x : no_files_from (lk_store (fw_lk w)) n -> uintn_ok x -> n <= uintn_val x ->
  run_fsm env None search_fuel fuel w (ReadFile (ctx_of x)) step = None.
Proof.
  intros Hno. revert x. induction fuel as [fuel IH] using lt_wf_ind. intros x Hx Hn.
  destruct (no_file_bytes _ n x Hno Hx Hn) as [Hs Hw].
  destruct fuel as [|fuel]; [done|].
  erewrite run_step; [|done|by cbn [transition]; unfold handle_read_file; rewrite if_open_open].
  destruct fuel as [|fuel]; [done|].
  erewrite run_step; [|done|by cbn [transition]; unfold handle_read_store;
    rewrite if_open_open by done; cbn [rc_queue rc_file_id ctx_of]; rewrite Hs].
  destruct fuel as [|fuel]; [done|].
  erewrite run_step; [|done|by cbn [transition]; unfold handle_read_wal;
    rewrite if_open_open by done; cbn [rc_queue rc_file_id ctx_of]; rewrite Hw].
  destruct fuel as [|fuel]; [done|].
  erewrite run_step; [|done|by cbn [transition]; apply after_missing].
  destruct (increment_spec x Hx) as [Hx' Hv']. apply IH; [lia|done|lia].
Qed.

End Spin.

(** ** A read that never ends *)

Definition never (w : fsm_world) (s : reader_state) (step : Z) : Prop :=
  forall n, run_fsm env None search_fuel n w s step = None.

Lemma never_later k w s step :
  (forall n, run_fsm env None search_fuel (k + n) w s step = None) -> never w s step.
Proof.
  intros Hk n. destruct (run_fsm env None search_fuel n w s step) eqn:E; [|done].
  rewrite <- (Hk n). symmetry. eapply run_mono; [exact E|lia].
Qed.

Lemma never_step w s w' s' step : is_terminal s = false ->
  transition env None search_fuel w s step = Some (w', Ok s') ->
  never w' s' step -> never w s step.
Proof.
  intros Ht Hs Hn. apply (never_later 1). intros n. cbn [Nat.add].
  by rewrite (run_step _ _ _ _ _ _ _ _ Ht Hs).
Qed.

Section PastAll.
Context (lo base : Z) (fs : list qfile) (files : gmap str bytes) (mq : mem_queue).
Context (start last until : uintn) (step : Z).
Hypothesis Hcov : mem_inv (mq_inner mq) /\ mi_last_id (mq_inner mq) = Some last.
Hypothesis Hstart : uintn_ok start /\ uintn_val start <= uintn_val last.
Hypothesis Hmem : ~ first_in_memory (mq_inner mq) start.
Hypothesis Huntil : uintn_ok until.
Hypothesis Hstep : in_u 64 step /\ 1 < step.
(** No entry of the files is selected, or reaches the end. *)
Hypothesis Hnone : Forall (fun e => selected start (Some until) step e = false /\
  uintn_val (fst e) < uintn_val until) (all_entries fs).

Lemma step_one : in_u 64 step /\ 1 <= step.
Proof. destruct Hstep. split; [done|lia]. Qed.

Lemma parse_nothing w i f src : fsm_good env q lo base fs files mq w -> fs !! i = Some f ->
  handle_parse_wal_bytes env None w (ctx_at q lo (Some until) step i start) (qf_bytes f) src =
  Some (w, Ok (ReadNextFile (uid (lo + Z.of_nat i)) (ctx_at q lo (Some until) step i start) None)).
Proof.
  intros Hg Hi. pose proof (fg_open _ _ _ _ _ _ _ _ Hg) as Ho.
  assert (Forall (fun e => selected start (Some until) step e = false /\
    uintn_val (fst e) < uintn_val until) (qf_entries f)) as Hf.
  { apply List.Forall_forall. intros e He. rewrite List.Forall_forall in Hnone. apply Hnone.
    unfold all_entries. apply in_concat. exists (qf_entries f). split; [|done].
    apply in_map, list_elem_of_In, list_elem_of_lookup. by exists i. }
  unfold handle_parse_wal_bytes. rewrite if_open_open by done.
  cbn [rc_queue rc_next_id rc_last_id rc_step rc_file_id ctx_at].
  rewrite (parse_file env q lo base fs files mq (Some until) step Huntil step_one w i f start src Hg Hi
    (proj1 Hstart)).
  assert (existsb (reaches (Some until)) (map fst (qf_entries f)) = false) as ->.
  { apply not_true_iff_false. rewrite existsb_exists. intros (x & Hx & Hr).
    apply in_map_iff in Hx as (e & <- & He). rewrite List.Forall_forall in Hf.
    apply bool_decide_eq_true in Hr. destruct (Hf e He). lia. }
  rewrite filter_none by (intros e He; rewrite List.Forall_forall in Hf; by apply Hf).
  unfold should_prefetch. cbn [rc_step ctx_at]. rewrite bool_decide_false by lia.
  cbn. rewrite app_nil_r. destruct w as [l m [se lf]]. cbn in *. by subst.
Qed.

Lemma never_from_file w i f src : fsm_good env q lo base fs files mq w -> fs !! i = Some f ->
  never w (ParseWalBytes (ctx_at q lo (Some until) step i start) (qf_bytes f) src) step.
Proof.
  intros Hg. remember (length fs - i)%nat as k eqn:Hk. revert i f src Hk.
  induction k as [|k IH]; intros i f src Hk Hi; [apply lookup_lt_Some in Hi; lia|].
  pose proof (fg_open _ _ _ _ _ _ _ _ Hg) as Ho.
  pose proof (fg_queue _ _ _ _ _ _ _ _ Hg) as Hq.
  destruct (fg_layout _ _ _ _ _ _ _ _ Hg) as [Hl _].
  destruct (file_id env q lo base fs _ i f Hl Hi) as (Hc & Hv & Hlt).
  eapply never_step; [done|by cbn [transition]; apply parse_nothing|].
  eapply never_step; [done|cbn [transition]; by apply (after_missing w mq last start until step
    Hq Ho (proj1 Hcov) (proj2 Hcov) Hstart Hmem Huntil step_one), canonical_ok|].
  rewrite (next_uid env q lo base fs files mq w i f Hg Hi).
  destruct (uid_spec (lo + Z.of_nat (S i))) as [Hc' Hv'].
  { pose proof (ql_lo _ _ _ _ _ _ Hl). pose proof (ql_hi _ _ _ _ _ _ Hl). unfold zlen in *. lia. }
  destruct (decide (S i < length fs)%nat) as [Hsi|Hsi].
  - destruct (lookup_lt_is_Some_2 fs (S i) Hsi) as [f' Hf'].
    apply (never_later 3). intros n.
    destruct (fetch_file env search_fuel q lo base fs files mq (Some until) step w (S i) f' start n Hg Hf')
      as [src' Hfetch]. etransitivity; [exact Hfetch|]. apply IH; [lia|done].
  - intros n. apply (spin w mq last start until step
      Hq Ho (proj1 Hcov) (proj2 Hcov) Hstart Hmem Huntil step_one (lo + zlen fs)).
    + by apply (layout_no_files lo base).
    + by apply canonical_ok.
    + rewrite Hv'. unfold zlen in *. lia.
Qed.

Lemma never_from_lookup w : fsm_good env q lo base fs files mq w ->
  zlen fs <= Z.of_nat search_fuel -> never w (LookupFile q start (Some until) step) step.
Proof.
  intros Hg Hsearch. pose proof (fg_layout _ _ _ _ _ _ _ _ Hg) as Hl.
  destruct (find_file_layout env q lo base fs search_fuel files (fw_lk w) start (proj1 Hstart) Hl
    Hsearch) as (st' & x & Hfind & Hl' & Hx & Ha).
  set (w1 := {| fw_lk := st'; fw_mem := fw_mem w; fw_chan := fw_chan w |}).
  assert (fsm_good env q lo base fs files mq w1) as Hg1
    by (split; [done|apply (fg_queue _ _ _ _ _ _ _ _ Hg)|apply (fg_open _ _ _ _ _ _ _ _ Hg)]).
  assert (0 < length fs)%nat as Hpos
    by (pose proof (ql_some _ _ _ _ _ _ (proj1 Hl)); destruct fs; [done|simpl; lia]).
  destruct (file_at env q lo base fs _ x (proj1 Hl) Hx) as (i & f & Hi & -> & _).
  { unfold zlen in *. destruct Ha as [[_ ->]|[_ (Hr & _)]]; lia. }
  eapply never_step; [done| |].
  { cbn [transition]. unfold handle_lookup_file. rewrite if_open_open by apply (fg_open _ _ _ _ _ _ _ _ Hg).
    rewrite Hfind. reflexivity. }
  apply (never_later 3). intros n.
  destruct (fetch_file env search_fuel q lo base fs files mq (Some until) step w1 i f start n Hg1 Hi)
    as [src Hfetch]. etransitivity; [exact Hfetch|]. by apply never_from_file.
Qed.

End PastAll.

(** A file that the store worker moves between the two checks. *)
Lemma moved_between w st' ctx content : ch_life (fw_chan w) = None ->
  get_store_bytes env (lk_store (fw_lk w)) (rc_queue ctx) (rc_file_id ctx) = Ok None ->
  ws_get_wal_bytes env st' (rc_queue ctx) (rc_file_id ctx) = Ok None ->
  get_store_bytes env st' (rc_queue ctx) (rc_file_id ctx) = Ok (Some content) ->
  let w' := {| fw_lk := {| lk_store := st'; lk_cache := lk_cache (fw_lk w) |};
               fw_mem := fw_mem w; fw_chan := fw_chan w |} in
  transition env None search_fuel w (ReadStore ctx) (rc_step ctx) = Some (w, Ok (ReadWal ctx)) /\
  transition env None search_fuel w' (ReadWal ctx) (rc_step ctx) =
    Some (w', Ok (ReadNextFile (rc_file_id ctx) ctx None)).
Proof.
  intros Ho Hs Hw Hs' w'. split; cbn [transition].
  - unfold handle_read_store. rewrite if_open_open by done. by rewrite Hs.
  - unfold handle_read_wal. rewrite if_open_open by done. by cbn [w' fw_lk lk_store]; rewrite Hw.
Qed.

(** A follow of a queue whose memory is empty. *)
Lemma follow_fresh w mq start step fuel :
  ms_queues (fw_mem w) !! qid_path q = Some mq -> mi_first_id (mq_inner mq) = None ->
  ch_life (fw_chan w) = None ->
  exists w', fsm_read env None search_fuel (S (S fuel)) w q (Absolute start) 0 step =
      Some (w', Ok true) /\
    ch_sent (fw_chan w') = ch_sent (fw_chan w) /\ fw_lk w' = fw_lk w.
Proof.
  intros Hq Hf Ho. unfold fsm_read, ch_is_closed.
  rewrite bool_decide_false by (by rewrite Ho). rewrite ch_tick_open by done.
  set (w0 := set_chan w _).
  assert (ch_life (fw_chan w0) = None) as Ho0 by done.
  erewrite run_step; [|done|]; cycle 1.
  { cbn [transition]. unfold handle_lookup_positive. rewrite if_open_open by done.
    rewrite decide_False by lia. unfold ms_follow_full. cbn [w0 set_chan fw_mem]. rewrite Hq.
    rewrite follow_full_eq. cbn zeta. rewrite Hf. unfold add_subscriber. cbn. reflexivity. }
  eexists. split; [reflexivity|]. done.
Qed.

End Gaps.

(** ** Claims *)

Section Claims.
Context {B : Build} {U : UBig} {H : HexCrate} {X : Hasher} {C : CryptoLib} {Z' : CompressLib}.
Context {S3 : S3Http}.

(** C12: the lookup of a file is exact: on a queue of files with consecutive ids,
    each in the WAL or in the store, it ends and answers the file that holds
    the entry: the last one that does not start after it (the first file for an
    entry before the queue); it changes no file. *)
Theorem lookup_exact env q lo base fs files st target search_fuel : uintn_ok target ->
  layout_good env q lo base fs files st -> zlen fs <= Z.of_nat search_fuel ->
  exists st' i f, fs !! i = Some f /\
    find_file_with_s3 env q None search_fuel target st =
      Some (st', Ok (Some (uid (lo + Z.of_nat i)))) /\
    layout_good env q lo base fs files st' /\
    (uintn_val target < base /\ i = 0%nat \/
     start_of base fs i <= uintn_val target /\
     ((S i < length fs)%nat -> uintn_val target < start_of base fs (S i))).
Proof.
  intros Ht Hg Hfuel. destruct (find_file_layout env q lo base fs search_fuel files st target Ht Hg Hfuel)
    as (st' & x & Hfind & Hg' & Hx & Ha).
  pose proof (ql_some _ _ _ _ _ _ (proj1 Hg)) as Hne.
  assert (0 < length fs)%nat as Hpos by (destruct fs; [done|simpl; lia]).
  assert (lo <= uintn_val x < lo + zlen fs) as Hr.
  { unfold zlen. destruct Ha as [[_ ->]|[_ (Hr & _)]]; unfold zlen in *; lia. }
  destruct (file_at env q lo base fs _ x (proj1 Hg) Hx Hr) as (i & f & Hi & -> & Hv).
  exists st', i, f. split_and!; try done. rewrite Hv in *. apply lookup_lt_Some in Hi.
  assert (file_start lo base fs lo = base) as Hlo.
  { unfold file_start. rewrite Z.sub_diag. apply start_of_0. }
  destruct Ha as [[Hlt Heq]|[_ (_ & Hs & Hn)]]; [left; split; [lia|lia]|right].
  rewrite file_start_nat in Hs. split; [done|]. intros Hsi.
  replace (lo + Z.of_nat i + 1) with (lo + Z.of_nat (S i)) in Hn by lia.
  rewrite file_start_nat in Hn. apply Hn. unfold zlen. lia.
Qed.

(** C6: a limited read is exact: where the files of the queue and its memory
    cover the log, a read of [limit] entries every [step] from [start] ends
    within [read_fuel] transitions, and the client gets exactly the entries of
    the log from [start] to [start + (limit - 1) * step] at that step, in
    order, each once, wherever they are (store, WAL, memory); the files and the
    entries in memory stay as they are. *)
Theorem fsm_read_exact env search_fuel q lo base fs files rest mq start step limit w :
  mem_covers base fs rest mq -> fsm_good env q lo base fs files mq w ->
  uintn_ok start -> base <= uintn_val start -> in_u 64 step /\ 1 <= step -> 1 <= limit ->
  in_u 64 ((limit - 1) * step) -> zlen fs <= Z.of_nat search_fuel ->
  exists w', fsm_read env None search_fuel (read_fuel fs) w q (Absolute start) limit step =
      Some (w', Ok false) /\
    payload (fw_chan w') = payload (fw_chan w) ++
      List.filter (selected start
        (Some (uintn_add start (uintn_from_u64 ((limit - 1) * step)))) step) (log fs rest) /\
    kept env q lo base fs files mq w'.
Proof. intros. by eapply read_limited. Qed.

Lemma on_step_from start next step v : 1 <= step -> on_step start step (uintn_val next) ->
  uintn_val next <= v -> on_step next step v <-> on_step start step v.
Proof.
  intros H1 [Hge Hm] Hv. apply Z.mod_divide in Hm; [|lia]. unfold on_step. rewrite !Z.mod_divide by lia.
  split; intros [_ Hd]; (split; [lia|]).
  - replace (v - uintn_val start) with (v - uintn_val next + (uintn_val next - uintn_val start)) by lia.
    by apply Z.divide_add_r.
  - replace (v - uintn_val next) with (v - uintn_val start - (uintn_val next - uintn_val start)) by lia.
    by apply Z.divide_sub_r.
Qed.

(** What a subscription that was handed on gets of later batches. *)
Lemma handed_on_batches q base fs rest mq start step w dss : mem_covers base fs rest mq ->
  in_u 64 step /\ 1 <= step -> ch_life (fw_chan w) = None -> handed_on q base fs rest mq start step w ->
  uintn_val start <= base + zlen (log fs rest) -> queue_inv mq -> Forall (fun ds => ds <> []) dss ->
  exists mq1 mq2 id ls next ch, ms_queues (fw_mem w) !! qid_path q = Some mq1 /\
    enqueue_batches mq1 dss = Ok mq2 /\ In (id, SubFollow ls next step ch) (mq_subscribers mq2) /\
    payload ch = payload (fw_chan w) ++ List.filter (selected start None step)
      (number_entries (next_id (mq_inner mq)) (concat dss)).
Proof.
  intros Hcov [Hs1 Hs2] Ho (mq1 & id & ls & next & Hq & Hi & Hsub & Hls & Hno & Hgo) Hle Hinv Hne.
  destruct (Hgo Hle) as (Hnext & Hbound & Hlb). pose proof (mc_last _ _ _ _ Hcov) as Hlast.
  assert (fw_chan w = {| ch_sent := ch_sent (fw_chan w); ch_life := None |}) as Hch
    by (destruct (fw_chan w); cbn in *; by subst).
  destruct (following_batches id ls next step Hls Hno Hs1 Hs2 dss mq1 (ch_sent (fw_chan w))) as (mq2 & He & _ & Hin & _);
    [|done|].
  { split; [|split; [|rewrite Hi, Hlast; by split]].
    - destruct Hinv as [Hinv Hsubs]. split; [by rewrite Hi|]. rewrite Hsub. apply Forall_app.
      split; [done|]. constructor; [by split_and!|constructor].
    - rewrite Hsub, Hch. apply in_or_app. right. by left. }
  exists mq1, mq2, id, ls, next. eexists. do 2 (split; [done|]). split; [exact Hin|].
  rewrite payload_sent, Hi. f_equal. apply filter_ext_in. intros e Hin'.
  destruct (next_id_spec (mq_inner mq) (mv_last_ok _ (proj1 Hinv))) as [Hio Hiv].
  destruct (number_entries_spec _ (concat dss) Hio) as (_ & Hc & _). rewrite Hiv, Hlast in Hc.
  pose proof (consecutive_in _ _ _ Hc Hin'). apply eq_true_iff_eq.
  rewrite (selected_on_step next None step), (selected_on_step start None step) by (done || lia).
  by apply on_step_from; [|done|lia].
Qed.

(** C8: a follow that starts when the memory has entries sends every entry of the
    log from [start] at the step, in order, each once, and ends.  When it ends
    subscribed and [start] is not behind the next id, the channel then gets of any
    later batches exactly the entries on the step of [start], in order: nothing is
    lost or doubled where files, memory and subscription meet.  The follow and the
    batches come one after the other. *)
Theorem follow_exact env search_fuel q lo base fs files rest mq start step w :
  mem_covers base fs rest mq -> fsm_good env q lo base fs files mq w ->
  uintn_ok start -> base <= uintn_val start -> in_u 64 step /\ 1 <= step ->
  mi_entries (mq_inner mq) <> [] -> zlen fs <= Z.of_nat search_fuel ->
  exists w' subscribed, fsm_read env None search_fuel (read_fuel fs) w q (Absolute start) 0 step =
      Some (w', Ok subscribed) /\
    payload (fw_chan w') = payload (fw_chan w) ++
      List.filter (selected start None step) (log fs rest) /\
    kept env q lo base fs files mq w' /\
    forall dss, subscribed = true -> uintn_val start <= base + zlen (log fs rest) -> queue_inv mq ->
      Forall (fun ds => ds <> []) dss ->
      exists mq1 mq2 id last_sent next ch, ms_queues (fw_mem w') !! qid_path q = Some mq1 /\
        enqueue_batches mq1 dss = Ok mq2 /\
        In (id, SubFollow last_sent next step ch) (mq_subscribers mq2) /\
        payload ch = payload (fw_chan w) ++ List.filter (selected start None step)
          (log fs rest ++ number_entries (next_id (mq_inner mq)) (concat dss)).
Proof.
  intros Hcov Hg Hs Hb Hst Hne Hf.
  destruct (follow_log env search_fuel q lo base fs files rest mq Hcov start step w Hs Hst Hg Hb Hf Hne)
    as (w' & b & Hr & Hp & Hk & Ho & Hsub). exists w', b. do 3 (split; [done|]).
  intros dss E Hle Hinv Hds. destruct (Hsub E) as [_ Hon].
  destruct (handed_on_batches q base fs rest mq start step w' dss Hcov Hst Ho Hon Hle Hinv Hds)
    as (mq1 & mq2 & id & ls & next & ch & Hq & He & Hin & Hpay).
  exists mq1, mq2, id, ls, next, ch. do 3 (split; [done|]). by rewrite Hpay, Hp, List.filter_app, app_assoc.
Qed.

(** A follow can end without a subscription: in a queue with one file that
    holds all its entries, a follow from before the entries in memory reads the
    file, finds that it passed the last entry, and ends: entries that come
    later are not sent. *)
Theorem follow_ends_unsubscribed env search_fuel q lo base f files mq start step w :
  mem_covers base [f] [] mq -> fsm_good env q lo base [f] files mq w ->
  uintn_ok start -> base <= uintn_val start -> in_u 64 step /\ 1 <= step ->
  mi_entries (mq_inner mq) <> [] -> ~ first_in_memory (mq_inner mq) start ->
  1 <= Z.of_nat search_fuel ->
  exists w', fsm_read env None search_fuel (read_fuel [f]) w q (Absolute start) 0 step =
    Some (w', Ok false).
Proof. intros Hcov Hg Hs Hb Hst Hne Hnf Hf. by eapply follow_one_file. Qed.

(** A follow of a queue whose memory is empty (as after a start) subscribes
    at once and sends nothing, whatever is on disk from [start] on. *)
Theorem follow_skips_history env search_fuel q w mq start step fuel :
  ms_queues (fw_mem w) !! qid_path q = Some mq -> mi_first_id (mq_inner mq) = None ->
  ch_life (fw_chan w) = None ->
  exists w', fsm_read env None search_fuel (S (S fuel)) w q (Absolute start) 0 step =
      Some (w', Ok true) /\
    ch_sent (fw_chan w') = ch_sent (fw_chan w) /\ fw_lk w' = fw_lk w.
Proof. intros. by eapply follow_fresh. Qed.

(** A limited read can run forever: when the files of the queue hold
    nothing the read selects and nothing at or after its end, and its start is
    neither in memory nor past the last id (say, old files were removed and the
    step jumps over the rest), the reader looks for file after file past the
    last one: no number of transitions is enough. *)
Theorem limited_read_never_ends env search_fuel q lo base fs files mq start last step limit w fuel :
  let end_id := uintn_add start (uintn_from_u64 ((limit - 1) * step)) in
  fsm_good env q lo base fs files mq w ->
  mem_inv (mq_inner mq) -> mi_last_id (mq_inner mq) = Some last ->
  uintn_ok start -> uintn_val start <= uintn_val last ->
  ~ first_in_memory (mq_inner mq) start ->
  in_u 64 step -> 1 < step -> 1 <= limit -> in_u 64 ((limit - 1) * step) ->
  Forall (fun e => selected start (Some end_id) step e = false /\
    uintn_val (fst e) < uintn_val end_id) (all_entries fs) ->
  zlen fs <= Z.of_nat search_fuel ->
  fsm_read env None search_fuel fuel w q (Absolute start) limit step = None.
Proof.
  intros end_id Hg Hinv Hlast Hs Hle Hmem Hu Hst Hlim Hspan Hnone Hsearch.
  pose proof (fg_open _ _ _ _ _ _ _ _ Hg) as Ho. destruct (from_u64_spec _ Hspan) as [Hsc _].
  assert (uintn_ok end_id) as Huo by (apply add_spec; [done|by apply canonical_ok]).
  assert (in_u 64 step /\ 1 <= step) as Hstep by (split; [done|lia]).
  rewrite (fsm_read_positive env search_fuel q lo base fs files mq start step w Hg).
  apply (never_step env search_fuel w _ w (LookupFile q start (Some end_id) step)); [done| |].
  - cbn [transition]. unfold handle_lookup_positive. rewrite if_open_open by done.
    rewrite decide_True by lia. unfold limit_end. rewrite arith_ok by done. cbn [mbind outcome_bind].
    unfold ms_read_full. rewrite (fg_queue _ _ _ _ _ _ _ _ Hg).
    destruct (read_full_spec mq start end_id step (fw_chan w) Hinv Hs Huo (proj1 Hstep) (proj2 Hstep) Ho)
      as (r & ch' & Hr & Hcase). fold end_id. rewrite Hr. rewrite Hlast in Hcase. cbn [next_after] in Hcase.
    destruct Hcase as [(Hge & _)|[(_ & _ & -> & ->)|(_ & Hf & _)]]; [lia| |done].
    cbn [mr_success mem_fail]. by destruct w.
  - eapply (never_from_lookup env search_fuel q lo base fs files mq start last end_id step); done.
Qed.

(** C38: a file the store worker moves from the WAL to the store after the
    reader looked in the store and before it looks in the WAL is skipped: the
    reader goes on to the next file and has sent nothing of it, while its
    content is in the store. *)
Theorem read_skips_moved_file env search_fuel w msg wh es tail oid uuid data ctx :
  let q := wc_queue_id msg in
  let f := wc_file_id msg in
  let st := lk_store (fw_lk w) in
  st_files st !! wal_path env q f = Some (wal_file wh es tail) ->
  st_files st !! store_path env q f = None ->
  wal_header_ok wh -> uintn_val (num_entries_before wh) < 2 ^ 128 ->
  Forall (entry_fits wh) es -> torn wh tail oid ->
  zlen (wal_file wh es tail) <= isize_max -> es <> [] ->
  (forall p, se_io env p = false) ->
  maybe_compress_and_encrypt env (wal_file wh es tail) msg = Ok data ->
  ch_life (fw_chan w) = None -> rc_queue ctx = q -> rc_file_id ctx = f ->
  exists st' content, process_entry env st NoFault uuid msg = Some st' /\
    let w' := {| fw_lk := {| lk_store := st'; lk_cache := lk_cache (fw_lk w) |};
                 fw_mem := fw_mem w; fw_chan := fw_chan w |} in
    transition env None search_fuel w (ReadStore ctx) (rc_step ctx) = Some (w, Ok (ReadWal ctx)) /\
    transition env None search_fuel w' (ReadWal ctx) (rc_step ctx) =
      Some (w', Ok (ReadNextFile f ctx None)) /\
    st_files st' !! store_path env q f = Some content /\
    extract_wal_bytes env q f content true = Ok (wal_file wh es tail).
Proof.
  intros q f st Hw Hns Hh Hb Hes Ht Hz Hne Hio Hm Ho Hcq Hcf.
  destruct (process_range env st msg wh es tail oid Hw Hh Hb Hes Ht Hz data uuid (Hio _) (Hio _) Hm Hne)
    as (st' & _ & _ & Hp & Hgone & _).
  destruct (process_keeps env st msg wh es tail oid Hw Hh Hb Hes Ht Hz NoFault uuid true)
    as (st'' & Hp' & Hk & _). rewrite Hp in Hp'. injection Hp' as <-.
  destruct Hk as [Hk|(content & Hc & Hx)]; [by rewrite Hgone in Hk|].
  change (st_files st' !! store_path env q f = Some content) in Hc.
  exists st', content. split; [done|]. cbn zeta.
  destruct (moved_between env search_fuel w st' ctx content Ho) as [Ht1 Ht2].
  - rewrite Hcq, Hcf. fold st. unfold get_store_bytes. cbn zeta. fold (store_path env q f).
    by rewrite Hio, Hns.
  - rewrite Hcq, Hcf. unfold ws_get_wal_bytes, ws_disk, disk_of.
    change (queue_to_wal_path (wc_queue_id msg) (se_root env) (wc_file_id msg)) with
      (queue_to_wal_path q (se_root env) f) in Hgone. by rewrite Hio, Hgone.
  - rewrite Hcq, Hcf. unfold get_store_bytes. cbn zeta. fold (store_path env q f). by rewrite Hio, Hc.
  - rewrite Hcf in Ht2. by split_and!.
Qed.

End Claims.

(** ** A queue of two files *)

Definition demo_base : wal_header := wal_header_default.
Definition demo_second : wal_header :=
  {| data_size_bytes := data_size_bytes wal_header_default;
     id_size_bytes := id_size_bytes wal_header_default; num_entries_before := U8 2 |}.
Definition demo_closed : list closed_file :=
  [(U8 1, demo_base, [(U8 0, [Byte.x61]); (U8 1, [Byte.x62; Byte.x63])]);
   (U8 2, demo_second, [(U8 2, [Byte.x64])])].
Definition demo_fs : list qfile := map chain_file demo_closed.

(** The world: the files on disk, and a memory that holds [es]. *)
Definition demo_lk (closed : list closed_file) : lk_state :=
  {| lk_store := disk_with (map (file_entry (queue_to_wal_dir demo_queue (s2l "/d"))) closed);
     lk_cache := ∅ |}.
Definition demo_mq (es : list (uintn * bytes)) (last_id : option uintn) : mem_queue :=
  {| mq_inner := {| mi_entries := es; mi_last_id := last_id;
                    mi_first_id := option_map fst (head es); mi_last_acked_id := None;
                    mi_memory_usage := data_size es |};
     mq_max_memory_usage := 100; mq_subscribers := []; mq_next_subscriber_id := 0 |}.
Definition demo_world (closed : list closed_file) (mq : mem_queue) : fsm_world :=
  {| fw_lk := demo_lk closed;
     fw_mem := {| ms_queues := {[ qid_path demo_queue := mq ]}; ms_max_memory_usage := 100 |};
     fw_chan := {| ch_sent := []; ch_life := None |} |}.

Lemma demo_files_ok base closed : closed <> [] -> file_chain 1 base closed ->
  zlen closed <= 100 -> base + zlen (closed_entries closed) < 100 ->
  Forall (fun c => zlen (snd (file_entry (queue_to_wal_dir demo_queue (s2l "/d")) c)) <= isize_max)
    closed ->
  layout_good (B := checked_build) sample_env demo_queue 1 base (map chain_file closed)
    (st_files (lk_store (demo_lk closed))) (demo_lk closed).
Proof.
  intros Hne Hc Hl He Hs. split; [|done].
  apply (wal_only_layout (B := checked_build)); try done; [lia|lia|]. apply (wal_only_disk_with sample_env demo_queue 1 base); try done. lia.
Defined.

Lemma demo_good base closed mq : layout_good (B := checked_build) sample_env demo_queue 1 base (map chain_file closed)
    (st_files (lk_store (demo_lk closed))) (demo_lk closed) ->
  fsm_good (B := checked_build) sample_env demo_queue 1 base (map chain_file closed)
    (st_files (lk_store (demo_lk closed))) mq (demo_world closed mq).
Proof. intros Hl. split; [done| |done]. apply lookup_singleton_eq. Defined.

Lemma demo_layout : layout_good (B := checked_build) sample_env demo_queue 1 0 demo_fs
  (st_files (lk_store (demo_lk demo_closed))) (demo_lk demo_closed).
Proof.
  apply demo_files_ok; try done.
  - repeat split; try done; repeat constructor; done.
  - repeat constructor; vm_compute; discriminate.
Defined.

Lemma demo_covers : mem_covers 0 demo_fs [] (demo_mq [(U8 2, [Byte.x64])] (Some (U8 2))).
Proof.
  split; [|vm_eq|repeat split|].
  - split; cbn; try done; try (by repeat constructor).
  - exists (closed_entries (take 1 demo_closed)). split; [vm_eq|vm_compute; discriminate].
Defined.

Lemma lookup_exact_witness :
  exists st', find_file_with_s3 (B := checked_build) sample_env demo_queue None 2 (U8 2)
    (demo_lk demo_closed) = Some (st', Ok (Some (uid 2))).
Proof.
  destruct (lookup_exact (B := checked_build) sample_env demo_queue 1 0 demo_fs _ _ (U8 2) 2
    ltac:(done) demo_layout ltac:(vm_compute; discriminate)) as (st' & i & f & Hi & Hf & _ & Ha).
  exists st'. rewrite Hf. destruct Ha as [[Ha _]|[Ha Hn]]; [vm_compute in Ha; discriminate|].
  destruct i as [|[|i]]; [|reflexivity|apply lookup_lt_Some in Hi; vm_compute in Hi; lia].
  assert (uintn_val (U8 2) < start_of 0 demo_fs 1) as E by (apply Hn; vm_compute; lia).
  vm_compute in E. discriminate.
Defined.

Lemma fsm_read_exact_witness :
  exists w', fsm_read (B := checked_build) sample_env None 2 16
      (demo_world demo_closed (demo_mq [(U8 2, [Byte.x64])] (Some (U8 2)))) demo_queue
      (Absolute (U8 0)) 2 2 = Some (w', Ok false) /\
    payload (fw_chan w') = [(U8 0, [Byte.x61]); (U8 2, [Byte.x64])].
Proof.
  destruct (fsm_read_exact (B := checked_build) sample_env 2 demo_queue 1 0 demo_fs
    (st_files (lk_store (demo_lk demo_closed))) []
    (demo_mq [(U8 2, [Byte.x64])] (Some (U8 2))) (U8 0) 2 2
    (demo_world demo_closed (demo_mq [(U8 2, [Byte.x64])] (Some (U8 2)))))
    as (w' & Hr & Hp & _).
  - exact demo_covers.
  - apply (demo_good 0 demo_closed), demo_layout.
  - done.
  - done.
  - done.
  - done.
  - done.
  - vm_compute. discriminate.
  - exists w'. split; [exact Hr|]. rewrite Hp. vm_eq.
Defined.

Definition demo_follow_mq : mem_queue := demo_mq [(U8 2, [Byte.x64])] (Some (U8 2)).
Definition demo_follow :=
  fsm_read (B := checked_build) sample_env None 2 (read_fuel demo_fs) (demo_world demo_closed demo_follow_mq)
    demo_queue (Absolute (U8 1)) 0 1.

Lemma demo_follow_subscribes : match demo_follow with Some (_, Ok true) => true | _ => false end = true.
Proof. vm_eq. Qed.

(** It reads a file, then the memory, and gets two batches. *)
Lemma follow_exact_witness :
  exists w' mq1 mq2 id last_sent next ch, demo_follow = Some (w', Ok true) /\
    ms_queues (fw_mem w') !! qid_path demo_queue = Some mq1 /\
    enqueue_batches (B := checked_build) mq1 [[[Byte.x65]]; [[Byte.x66]]] = Ok mq2 /\
    In (id, SubFollow last_sent next 1 ch) (mq_subscribers mq2) /\
    payload ch = [(U8 1, [Byte.x62; Byte.x63]); (U8 2, [Byte.x64]); (U8 3, [Byte.x65]); (U8 4, [Byte.x66])].
Proof.
  destruct (follow_exact (B := checked_build) sample_env 2 demo_queue 1 0 demo_fs
    (st_files (lk_store (demo_lk demo_closed))) [] demo_follow_mq (U8 1) 1
    (demo_world demo_closed demo_follow_mq))
    as (w' & b & Hr & Hp & _ & Hsub).
  - exact demo_covers.
  - apply (demo_good 0 demo_closed), demo_layout.
  - done.
  - done.
  - done.
  - done.
  - vm_compute. discriminate.
  - fold demo_follow in Hr. pose proof demo_follow_subscribes as Hd. rewrite Hr in Hd.
    destruct b; [|discriminate Hd].
    destruct (Hsub [[[Byte.x65]]; [[Byte.x66]]] eq_refl) as (mq1 & mq2 & id & ls & next & ch & Hq & He & Hin & Hpay).
    + vm_compute. discriminate.
    + split; [exact (mc_inv _ _ _ _ demo_covers)|constructor].
    + repeat constructor; discriminate.
    + exists w', mq1, mq2, id, ls, next, ch.
      refine (conj Hr (conj Hq (conj He (conj Hin _)))). rewrite Hpay. vm_eq.
Defined.

(** One file, its last entry in memory too. *)
Definition demo_one : list closed_file := take 1 demo_closed.
Definition demo_one_mq : mem_queue := demo_mq [(U8 1, [Byte.x62; Byte.x63])] (Some (U8 1)).

Lemma demo_one_layout : layout_good (B := checked_build) sample_env demo_queue 1 0
  (map chain_file demo_one) (st_files (lk_store (demo_lk demo_one))) (demo_lk demo_one).
Proof.
  apply demo_files_ok; try done.
  - repeat split; try done; repeat constructor; done.
  - repeat constructor; vm_compute; discriminate.
Defined.

Lemma demo_one_covers : mem_covers 0 (map chain_file demo_one) [] demo_one_mq.
Proof.
  split; [|vm_eq|repeat split|].
  - split; cbn; try done; try (by repeat constructor).
  - exists [(U8 0, [Byte.x61])]. split; [vm_eq|vm_compute; discriminate].
Defined.

Lemma follow_ends_unsubscribed_witness :
  exists w', fsm_read (B := checked_build) sample_env None 1 11
      (demo_world demo_one demo_one_mq) demo_queue (Absolute (U8 0)) 0 1 = Some (w', Ok false).
Proof.
  apply (follow_ends_unsubscribed (B := checked_build) sample_env 1 demo_queue 1 0
    (chain_file (nth 0 demo_one (U8 0, demo_base, [])))
    (st_files (lk_store (demo_lk demo_one))) demo_one_mq (U8 0) 1).
  - exact demo_one_covers.
  - apply (demo_good 0 demo_one), demo_one_layout.
  - done.
  - done.
  - done.
  - done.
  - intros Hf. by apply Hf.
  - done.
Defined.

Lemma follow_skips_history_witness :
  exists w', fsm_read (B := checked_build) sample_env None 2 2
      (demo_world demo_closed (demo_mq [] (Some (U8 2)))) demo_queue (Absolute (U8 0)) 0 1 =
      Some (w', Ok true) /\ ch_sent (fw_chan w') = [].
Proof.
  destruct (follow_skips_history (B := checked_build) sample_env 2 demo_queue
    (demo_world demo_closed (demo_mq [] (Some (U8 2)))) (demo_mq [] (Some (U8 2))) (U8 0) 1 0)
    as (w' & Hr & Hs & _).
  - apply lookup_singleton_eq.
  - done.
  - done.
  - by exists w'.
Defined.

(** A step past all entries: the read of the entries 0 and 100 of a queue that
    now starts at 10 waits forever. *)
Definition demo_late : list closed_file :=
  [(U8 1, {| data_size_bytes := data_size_bytes wal_header_default;
             id_size_bytes := id_size_bytes wal_header_default; num_entries_before := U8 10 |},
    [(U8 10, [Byte.x61])])].

Lemma limited_read_never_ends_witness :
  fsm_read (B := checked_build) sample_env None 1 1000
    (demo_world demo_late (demo_mq [] (Some (U8 10)))) demo_queue (Absolute (U8 0)) 2 100 = None.
Proof.
  apply (limited_read_never_ends (B := checked_build) sample_env 1 demo_queue 1 10
    (map chain_file demo_late) (st_files (lk_store (demo_lk demo_late)))
    (demo_mq [] (Some (U8 10))) (U8 0) (U8 10) 100 2); try done.
  - apply (demo_good 10 demo_late), (demo_files_ok 10 demo_late); [done| |done..|].
    + repeat split; try done; repeat constructor; done.
    + repeat constructor; vm_compute; discriminate.
  - intros Hf. exact Hf.
  - repeat constructor; vm_compute; done.
Defined.

(** A file in the WAL, moved while it is read. *)
Lemma read_skips_moved_file_witness :
  let w := {| fw_lk := {| lk_store := sample_store; lk_cache := ∅ |};
              fw_mem := mem_store_new 100; fw_chan := {| ch_sent := []; ch_life := None |} |} in
  let ctx := {| rc_queue := wc_queue_id sample_msg; rc_file_id := U8 1; rc_next_id := U8 0;
                rc_step := 1; rc_last_id := None |} in
  exists st' content, process_entry (B := checked_build) sample_env sample_store NoFault (s2l "u")
      sample_msg = Some st' /\
    st_files st' !! store_path sample_env (wc_queue_id sample_msg) (U8 1) = Some content.
Proof.
  intros w ctx.
  destruct (maybe_compress_and_encrypt sample_env (wal_file sample_header sample_entries [])
    sample_msg) as [data| |] eqn:E; [|vm_compute in E; discriminate..].
  destruct (read_skips_moved_file (B := checked_build) sample_env 1 w sample_msg sample_header
    sample_entries [] None (s2l "u") data ctx) as (st' & content & Hp & _ & _ & Hs & _); try done.
  - exact sample_fit.
  - apply torn_nil, sample_header_ok.
  - by exists st', content.
Defined.
