(* ===== verification/ReaderTail.v ===== *)
(** * Reads from the tail, and that every read ends

    A limited read from the tail starts at the last id less the offset and is
    exact; on the files of a queue every proper read ends, and leaves the files
    and the entries in memory as they were. *)
From Stdlib Require Import ZArith Lia List Bool Sorted.
From Stdlib Require Import Ascii String.
From stdpp Require Import base option list gmap strings.
From S2P Require Import Prelude UBig UintN UintNFacts Paths PathsFacts PathsSearch FileTree Types.
From S2P Require Import WalFormat WalReader WalReaderFacts WalReaderTotal OrderedBuffer AckWriter.
From S2P Require Import WalWriter WalWriterFacts Crypto StoreFormat Store StoreFacts WalStore.
From S2P Require Import Cloud Lookup LookupFacts QueueLayout WalLayout Mem MemFacts MemClaims.
From S2P Require Import ReaderFsm ReaderFsmFacts FsmClaims.
#[local] Open Scope Z_scope.

(** ** The first entries at a step *)

Section Points.
Context {B : Build} {U : UBig}.
Implicit Types e : uintn * bytes.

Definition at_point (v step : Z) e : bool :=
  bool_decide (v <= uintn_val (fst e)) && bool_decide ((uintn_val (fst e) - v) mod step = 0).

Definition point_until (v bound step : Z) e : bool :=
  at_point v step e && bool_decide (uintn_val (fst e) <= bound).

Lemma at_point_next v step e : 1 <= step -> v < uintn_val (fst e) ->
  at_point v step e = at_point (v + step) step e.
Proof.
  intros Hs Hv. unfold at_point. set (x := uintn_val (fst e)) in *.
  assert ((x - (v + step)) mod step = (x - v) mod step) as ->.
  { replace (x - (v + step)) with (x - v + -1 * step) by lia. by rewrite Z.mod_add by lia. }
  rewrite (bool_decide_true (v <= x)) by lia. cbn [andb].
  destruct (decide (v + step <= x)); [by rewrite (bool_decide_true (_ <= x))|].
  rewrite (bool_decide_false (_ <= x)) by done. cbn [andb].
  apply bool_decide_false. rewrite Z.mod_small by lia. lia.
Qed.

Lemma take_points m es n v step : consecutive n es -> 1 <= step -> n <= v ->
  (m = 0%nat -> v - step < n) ->
  take m (List.filter (at_point v step) es) =
  List.filter (point_until v (v + (Z.of_nat m - 1) * step) step) es.
Proof.
  intros Hc Hs. revert m n v Hc. induction es as [|e es IH]; intros m n v Hc Hn Hm; [by destruct m|].
  pose proof Hc as [He Hc']. cbn [List.filter]. destruct (decide (n = v)) as [<-|Hne].
  - assert (at_point n step e = true) as Hp0.
    { unfold at_point. rewrite He, Z.sub_diag, !bool_decide_true by (done || lia). done. }
    rewrite Hp0. destruct m as [|m].
    + rewrite take_0, filter_none; [|intros x Hx].
      * unfold point_until. rewrite (bool_decide_false (_ <= n + _)) by lia. by rewrite andb_false_r.
      * unfold point_until. pose proof (consecutive_in _ _ _ Hc' Hx).
        rewrite (bool_decide_false (_ <= n + _)) by lia. by rewrite andb_false_r.
    + unfold point_until at 1. rewrite Hp0, bool_decide_true by nia. cbn [andb firstn]. f_equal.
      assert (forall x, In x es -> at_point n step x = at_point (n + step) step x) as Hp.
      { intros x Hx. pose proof (consecutive_in _ _ _ Hc' Hx). apply at_point_next; lia. }
      rewrite (filter_ext_in _ _ es Hp), (IH m (n + 1)) by (done || lia).
      apply filter_ext_in. intros x Hx. unfold point_until. rewrite (Hp x Hx). do 2 f_equal.
      apply bool_decide_ext. lia.
  - assert (at_point v step e = false) as Hp0
      by (unfold at_point; by rewrite (bool_decide_false (v <= _)) by lia).
    unfold point_until at 1. rewrite Hp0. cbn [andb].
    apply (IH m (n + 1)); [done|lia|]. intros E. specialize (Hm E). lia.
Qed.

Lemma limited_selected n es start step limit : consecutive n es -> n <= uintn_val start ->
  uintn_ok start -> 1 <= step -> 1 <= limit -> in_u 64 ((limit - 1) * step) ->
  limited limit 0 (List.filter (selected start None step) es) =
  List.filter (selected start
    (Some (uintn_add start (uintn_from_u64 ((limit - 1) * step)))) step) es.
Proof.
  intros Hc Hn Hok Hs Hl Hspan. destruct (from_u64_spec _ Hspan) as [Hsc Hsv].
  destruct (add_spec start (uintn_from_u64 ((limit - 1) * step)) Hok) as [_ Hv]; [by apply canonical_ok|].
  rewrite Hsv in Hv. unfold limited. rewrite decide_True by lia.
  transitivity (take (Z.to_nat (limit - 0)) (List.filter (at_point (uintn_val start) step) es)).
  { f_equal. apply filter_ext. intros e. unfold selected, at_point. by rewrite andb_true_r. }
  rewrite (take_points _ es n) by (done || lia). apply filter_ext. intros e.
  unfold point_until, at_point, selected. rewrite Hv, Z2Nat.id by lia.
  replace (limit - 0 - 1) with (limit - 1) by lia.
  rewrite <- !andb_assoc. f_equal. apply andb_comm.
Qed.

End Points.

(** ** Reads from the tail *)

Section Tail.
Context {B : Build} {U : UBig} {H : HexCrate} {X : Hasher} {C : CryptoLib} {Z' : CompressLib}.
Context {S3 : S3Http}.
Context (env : store_env) (search_fuel : nat).
Context (q : queue_id) (lo base : Z) (fs : list qfile) (files : gmap str bytes).
Context (rest : list (uintn * bytes)) (mq : mem_queue).
Hypothesis Hcov : mem_covers base fs rest mq.
Context (step : Z) (w : fsm_world).
Hypothesis Hstep : in_u 64 step /\ 1 <= step.
Hypothesis Hsearch : zlen fs <= Z.of_nat search_fuel.
Hypothesis Hg : fsm_good env q lo base fs files mq w.

Abbreviation run := (run_fsm env None search_fuel).
Abbreviation kept := (kept env q lo base fs files mq).

(** The first transition of a read. *)
Lemma fsm_read_tail fuel offset limit :
  fsm_read env None search_fuel fuel w q (ShiftFromTail offset) limit step =
  run fuel w (LookupNegative q offset limit) step.
Proof.
  pose proof (fg_open _ _ _ _ _ _ _ _ Hg) as Ho. unfold fsm_read, ch_is_closed.
  rewrite bool_decide_false by (by rewrite Ho). rewrite ch_tick_open by done.
  f_equal. destruct w as [l m [se lf]]. cbn in *. by subst.
Qed.

(** The id a read from the tail starts at. *)
Definition tail_id (offset : uintn) : Z := Z.max 0 (base + zlen (log fs rest) - 1 - uintn_val offset).

Lemma tail_last last_id : mi_last_id (mq_inner mq) = Some last_id ->
  uintn_ok last_id /\ uintn_val last_id = base + zlen (log fs rest) - 1.
Proof.
  intros Hl. pose proof (mc_last _ _ _ _ Hcov) as Hlast. pose proof (mv_last_ok _ (mc_inv _ _ _ _ Hcov)) as Hok.
  rewrite Hl in *. cbn [next_after last_ok] in *. split; [done|lia].
Qed.

Lemma read_tail offset limit : 0 <= base -> uintn_ok offset -> base <= tail_id offset -> 1 <= limit ->
  in_u 64 ((limit - 1) * step) ->
  exists start w', uintn_ok start /\ uintn_val start = tail_id offset /\
    fsm_read env None search_fuel (read_fuel fs) w q (ShiftFromTail offset) limit step =
      Some (w', Ok false) /\
    payload (fw_chan w') = payload (fw_chan w) ++ List.filter (selected start
      (Some (uintn_add start (uintn_from_u64 ((limit - 1) * step)))) step) (log fs rest) /\
    kept w'.
Proof.
  intros Hb Hoff Hbase Hlim Hspan. pose proof (fg_open _ _ _ _ _ _ _ _ Hg) as Ho.
  rewrite fsm_read_tail. unfold read_fuel. cbn [Nat.add].
  assert (transition env None search_fuel w (LookupNegative q offset limit) step =
    match mq_read_full_negative mq offset step limit (fw_chan w) with
    | None => None
    | Some (Ok (result, ch)) =>
        if mr_success result then goto (set_chan w ch) Completed
        else start_or_error (set_chan w ch) result (fun start_id =>
          goto (set_chan w ch) (LookupFile q start_id
            (Some (uintn_add start_id (uintn_from_u64 ((limit - 1) * step)))) step))
    | Some _ => Some (w, Panic)
    end) as Ht.
  { cbn [transition]. unfold handle_lookup_negative. rewrite if_open_open by done.
    rewrite decide_True by lia. unfold ms_read_full_negative, limit_end.
    by rewrite (fg_queue _ _ _ _ _ _ _ _ Hg), arith_ok. }
  pose proof (mc_last _ _ _ _ Hcov) as Hlast. pose proof (zlen_nonneg (log fs rest)).
  destruct (mi_last_id (mq_inner mq)) as [last_id|] eqn:El.
  2:{ cbn [next_after] in Hlast. assert (zlen (log fs rest) = 0) as Hz by lia. pose proof Hz as Hlog.
      apply zlen_0 in Hlog. exists uintn_zero, (set_chan w (fw_chan w)).
      split; [done|]. split; [unfold tail_id; rewrite Hz; pose proof (val_nonneg _ (ok_wf _ Hoff)); cbn; lia|].
      unfold mq_read_full_negative in Ht. rewrite El in Ht. cbn [mr_success mem_answer] in Ht.
      erewrite run_step; [|done|exact Ht]. split; [done|]. rewrite Hlog. cbn. rewrite app_nil_r.
      split; [done|]. by apply good_kept. }
  destruct (tail_last last_id El) as [Hlo Hlv]. rewrite <- El in *.
  destruct (read_negative_spec mq last_id offset step limit (fw_chan w) (mc_inv _ _ _ _ Hcov) El Hoff
    (proj1 Hstep) (proj2 Hstep) Ho) as (start & Hs & Hv & Hr). rewrite Hr in Ht. clear Hr.
  assert (uintn_val start = tail_id offset) as Hstart by (unfold tail_id; lia).
  exists start. destruct (decide (first_in_memory (mq_inner mq) start)) as [Hf|Hf];
    cbn [mr_success mem_answer] in Ht; (erewrite run_step; [|done|exact Ht]).
  - eexists. split; [done|]. split; [done|]. split; [reflexivity|]. split; [|by apply good_kept].
    cbn [set_chan fw_chan]. rewrite payload_sent. f_equal.
    pose proof (mv_consecutive _ (mc_inv _ _ _ _ Hcov)) as Hcons.
    rewrite (limited_selected _ _ start step limit Hcons); try done; [| |apply Hstep].
    + rewrite <- (log_from fs rest).
      apply (memory_rest base fs rest mq Hcov start _ step Hstep 0 start); [|done].
      apply start_point; try done. rewrite start_of_0. lia.
    + unfold first_in_memory in Hf. rewrite (mv_first _ (mc_inv _ _ _ _ Hcov)) in Hf.
      destruct (mi_entries (mq_inner mq)) as [|e es]; [done|]. destruct Hcons as [He _]. cbn in Hf. lia.
  - assert (set_chan w (fw_chan w) = w) as -> by by destruct w.
    destruct (from_u64_spec _ Hspan) as [Hsc Hsv].
    set (u := uintn_add start (uintn_from_u64 ((limit - 1) * step))).
    assert (uintn_ok u) as Hu by (apply add_spec; [done|by apply canonical_ok]).
    destruct (read_from_files env search_fuel q lo base fs files rest mq Hcov start (Some u) step
      Hs Hu Hstep) with (w := w) as (w' & b & Hrun & Hp & Hk & Hb'); try done; [lia|].
    exists w'. split; [done|]. split; [done|]. split; [|by split].
    destruct b; [by destruct (proj2 Hb' eq_refl)|]. eapply run_mono; [exact Hrun|lia].
Qed.

(** ** Every follow ends *)

(** With an empty memory the reader subscribes after one file at the latest. *)
Lemma empty_next w1 x i next prefetch : mi_entries (mq_inner mq) = [] ->
  fsm_good env q lo base fs files mq w1 -> uintn_ok next ->
  exists w' s', transition env None search_fuel w1
      (ReadNextFile x (ctx_at q lo None step i next) prefetch) step = Some (w', Ok s') /\
    (s' = Completed \/ s' = Subscribed) /\ kept w'.
Proof.
  intros Hemp Hg1 Hn. pose proof (fg_open _ _ _ _ _ _ _ _ Hg1) as Ho.
  cbn [transition]. unfold handle_read_next_file. rewrite if_open_open by done.
  cbn [rc_queue rc_next_id rc_last_id rc_step ctx_at].
  destruct (match ms_get_last_id (fw_mem w1) q with
    | Some (Some queue_last_id) => uintn_ltb queue_last_id next | _ => false end).
  { eexists _, _. split; [reflexivity|]. split; [by left|].
    replace w1 with (set_chan w1 (fw_chan w1)) by (by destruct w1). by apply good_kept. }
  unfold ms_follow_full. rewrite (fg_queue _ _ _ _ _ _ _ _ Hg1), follow_full_eq. cbn zeta.
  rewrite (mv_first _ (mc_inv _ _ _ _ Hcov)), Hemp. cbn [head option_map send_all add_subscriber].
  cbn [mr_success mr_subscription_id mem_answer andb]. rewrite bool_decide_true by (by eexists).
  eexists _, _. split; [reflexivity|]. split; [by right|].
  apply (subscriber_kept env q lo base fs files mq w1 None next step (fw_chan w1) _ Hg1);
    [done|done|apply Hstep..].
Qed.

Lemma empty_follow start : mi_entries (mq_inner mq) = [] -> uintn_ok start ->
  base <= uintn_val start ->
  exists w' b, run 6 w (LookupFile q start None step) step = Some (w', Ok b) /\ kept w'.
Proof.
  intros Hemp Hs Hbase. pose proof (fg_layout _ _ _ _ _ _ _ _ Hg) as Hl.
  destruct (find_file_layout env q lo base fs search_fuel files (fw_lk w) start Hs Hl Hsearch)
    as (st' & x & Hfind & Hl' & Hx & Ha).
  set (w1 := {| fw_lk := st'; fw_mem := fw_mem w; fw_chan := fw_chan w |}).
  assert (fsm_good env q lo base fs files mq w1) as Hg1
    by (split; [done|apply (fg_queue _ _ _ _ _ _ _ _ Hg)|apply (fg_open _ _ _ _ _ _ _ _ Hg)]).
  assert (file_start lo base fs lo = base) as Hlo.
  { unfold file_start. rewrite Z.sub_diag. apply start_of_0. }
  destruct Ha as [[Hlt _]|[_ (Hr & Hst & _)]]; [lia|].
  destruct (file_at env q lo base fs _ x (proj1 Hl) Hx) as (i & f & Hi & -> & Hv); [lia|].
  rewrite Hv, file_start_nat in Hst.
  erewrite run_step; [|done|].
  2:{ cbn [transition]. unfold handle_lookup_file. rewrite if_open_open by apply (fg_open _ _ _ _ _ _ _ _ Hg).
      rewrite Hfind. reflexivity. }
  fold w1. change {| rc_queue := q; rc_file_id := uid (lo + Z.of_nat i); rc_next_id := start;
    rc_step := step; rc_last_id := None |} with (ctx_at q lo None step i start).
  destruct (fetch_file env search_fuel q lo base fs files mq None step w1 i f start 2 Hg1 Hi)
    as [src Hf]. cbn [Nat.add] in Hf. rewrite Hf. clear Hf.
  erewrite run_step; [|done|].
  2:{ cbn [transition]. unfold handle_parse_wal_bytes. cbn zeta.
      rewrite if_open_open by apply (fg_open _ _ _ _ _ _ _ _ Hg1).
      cbn [rc_next_id rc_last_id rc_step rc_file_id rc_queue ctx_at].
      rewrite (parse_file env q lo base fs files mq None step I Hstep w1 i f start src Hg1 Hi Hs).
      replace (existsb (reaches None) (map fst (qf_entries f))) with false
        by (by induction (qf_entries f)). reflexivity. }
  set (next' := match option_map fst _ with Some _ => _ | None => _ end).
  assert (uintn_ok next') as Hn'.
  { assert (next_point start step (start_of base fs i + zlen (qf_entries f)) next') as [? _]; [|done].
    pose proof (ql_ok _ _ _ _ _ _ (proj1 Hl) i f Hi) as Hok.
    apply (next_point_after start None step Hstep).
    - by apply start_point.
    - apply (qo_ids _ _ Hok).
    - eapply Forall_impl; [exact (qo_fits _ _ Hok)|]. intros e He. apply He.
    - by induction (qf_entries f). }
  set (ch' := {| ch_sent := _ |}).
  change (with_next_id (ctx_at q lo None step i start) next') with (ctx_at q lo None step i next').
  assert (fsm_good env q lo base fs files mq (set_chan w1 ch')) as Hg' by (by apply good_chan).
  edestruct (empty_next (set_chan w1 ch') (uid (lo + Z.of_nat i)) i next' ) as (w' & s' & Ht & Hend & Hk);
    [done|exact Hg'|done|].
  erewrite run_step; [|done|exact Ht]. destruct Hend as [-> | ->]; eexists _, _; by split.
Qed.

(** A follow whose first step looks for the file. *)
Lemma follow_from_lookup s start : is_terminal s = false -> uintn_ok start -> base <= uintn_val start ->
  transition env None search_fuel w s step = Some (w, Ok (LookupFile q start None step)) ->
  exists w' b, run (read_fuel fs) w s step = Some (w', Ok b) /\ kept w'.
Proof.
  intros Ht Hs Hbase Hstep1. unfold read_fuel. cbn [Nat.add]. erewrite run_step; [|done|exact Hstep1].
  destruct (decide (mi_entries (mq_inner mq) = [])) as [He|He].
  - destruct (empty_follow start He Hs Hbase) as (w' & b & Hr & Hk). exists w', b. split; [|done].
    eapply run_mono; [exact Hr|]. pose proof (ql_some _ _ _ _ _ _ (proj1 (fg_layout _ _ _ _ _ _ _ _ Hg))).
    destruct fs; [done|]. cbn [length]. lia.
  - destruct (read_from_files env search_fuel q lo base fs files rest mq Hcov start None step
      Hs I Hstep) with (w := w) as (w' & b & Hr & _ & Hk & _); try done.
    exists w', b. split; [|done]. eapply run_mono; [exact Hr|lia].
Qed.

(** A follow whose first step subscribes. *)
Lemma follow_subscribes s ls from ch ch' : is_terminal s = false -> last_ok ls -> uintn_ok from ->
  transition env None search_fuel w s step =
    Some (set_mem w (set_queue (fw_mem w) q (fst (add_subscriber mq (SubFollow ls from step ch)))) ch',
          Ok Subscribed) ->
  exists w' b, run (read_fuel fs) w s step = Some (w', Ok b) /\ kept w'.
Proof.
  intros Ht Hl Hf Hstep1. unfold read_fuel. cbn [Nat.add]. erewrite run_step; [|done|exact Hstep1].
  eexists _, _. split; [reflexivity|].
  apply (subscriber_kept env q lo base fs files mq w ls from step ch _ Hg); [done|done|apply Hstep..].
Qed.

Lemma follow_ends start : uintn_ok start -> base <= uintn_val start ->
  exists w' b, fsm_read env None search_fuel (read_fuel fs) w q (Absolute start) 0 step =
    Some (w', Ok b) /\ kept w'.
Proof.
  intros Hs Hbase. destruct (decide (mi_entries (mq_inner mq) = [])) as [He|He].
  2:{ destruct (follow_log env search_fuel q lo base fs files rest mq Hcov start step w Hs Hstep Hg
        Hbase Hsearch He) as (w' & b & ? & _ & ? & _). by exists w', b. }
  rewrite (fsm_read_positive env search_fuel q lo base fs files mq start step w Hg).
  apply (follow_subscribes _ None start (fw_chan w) (fw_chan w)); [done..|].
  cbn [transition]. unfold handle_lookup_positive.
  rewrite if_open_open by apply (fg_open _ _ _ _ _ _ _ _ Hg).
  rewrite decide_False by lia. unfold ms_follow_full. rewrite (fg_queue _ _ _ _ _ _ _ _ Hg).
  rewrite follow_full_eq. cbn zeta. rewrite (mv_first _ (mc_inv _ _ _ _ Hcov)), He. done.
Qed.

Lemma tail_follow_ends offset : 0 <= base -> uintn_ok offset -> base <= tail_id offset ->
  exists w' b, fsm_read env None search_fuel (read_fuel fs) w q (ShiftFromTail offset) 0 step =
    Some (w', Ok b) /\ kept w'.
Proof.
  intros Hb Hoff Hbase. rewrite fsm_read_tail.
  pose proof (fg_open _ _ _ _ _ _ _ _ Hg) as Ho.
  pose proof (mc_inv _ _ _ _ Hcov) as Hinv. pose proof (mc_last _ _ _ _ Hcov) as Hlast.
  assert (transition env None search_fuel w (LookupNegative q offset 0) step =
    match mq_follow_full_negative mq offset step (fw_chan w) with
    | None => None
    | Some (Ok (self, result, ch)) =>
        let w := set_mem w (set_queue (fw_mem w) q self) ch in
        if mr_success result && bool_decide (is_Some (mr_subscription_id result))
        then goto w Subscribed
        else start_or_error w result (fun start_id => goto w (LookupFile q start_id None step))
    | Some _ => Some (w, Panic)
    end) as Ht.
  { cbn [transition]. unfold handle_lookup_negative. rewrite if_open_open by done.
    rewrite decide_False by lia. unfold ms_follow_full_negative.
    rewrite (fg_queue _ _ _ _ _ _ _ _ Hg). by destruct (mq_follow_full_negative _ _ _ _) as [[[[]]| |]|]. }
  assert (set_mem w (set_queue (fw_mem w) q mq) (fw_chan w) = w) as Hw.
  { pose proof (fg_queue _ _ _ _ _ _ _ _ Hg) as Hq. destruct w as [l [qs mx] ch].
    unfold set_mem, set_queue. cbn in *. by rewrite fin_maps.insert_id. }
  rewrite follow_full_negative_eq in Ht. cbn zeta in Ht. destruct (uintn_eqb offset uintn_zero).
  { apply (follow_subscribes _ (mi_last_id (mq_inner mq)) _ (fw_chan w) (fw_chan w)) in Ht; [done|done|apply Hinv|].
    pose proof (mv_last_ok _ Hinv) as Hl. destruct (mi_last_id (mq_inner mq)); [|done].
    apply add_spec; [done|by apply canonical_ok, from_u64_spec]. }
  destruct (mi_last_id (mq_inner mq)) as [last_id|] eqn:El.
  2:{ cbn [next_after] in Hlast. pose proof (zlen_nonneg (log fs rest)).
      cbn [mr_success mr_subscription_id mem_answer mr_start_id start_or_error andb] in Ht.
      rewrite bool_decide_false in Ht by (by intros []). cbn [andb] in Ht. rewrite Hw in Ht.
      apply (follow_from_lookup _ uintn_zero); [done|done|cbn; lia|exact Ht]. }
  destruct (tail_last last_id El) as [Hlo Hlv].
  destruct (tail_start_spec last_id offset Hlo Hoff) as (start & Hts & Hs & Hv). rewrite Hts in Ht.
  assert (uintn_val start = tail_id offset) as Hstart by (unfold tail_id; lia).
  assert (transition env None search_fuel w (LookupNegative q offset 0) step =
    Some (w, Ok (LookupFile q start None step)) ->
    exists w' b, run (read_fuel fs) w (LookupNegative q offset 0) step = Some (w', Ok b) /\ kept w')
    as Hlook by (apply follow_from_lookup; [done|done|lia]).
  destruct (mi_first_id (mq_inner mq)) as [f|] eqn:Ef; [|apply Hlook; cbn in Ht; by rewrite Hw in Ht].
  destruct (uintn_ltb start f); [apply Hlook; cbn in Ht; by rewrite Hw in Ht|].
  rewrite (collect_memory _ start None step 0) in Ht by (done || apply Hstep).
  unfold limited in Ht. rewrite decide_False in Ht by lia. rewrite send_all_open in Ht by done.
  eapply follow_subscribes; [done| |exact Hs|].
  2:{ rewrite Ht. unfold add_subscriber at 1. cbn [mr_success mr_subscription_id mem_answer andb].
      rewrite bool_decide_true by (by eexists). reflexivity. }
  pose proof (last_selected (mq_inner mq) start step Hinv) as Hl.
  destruct (last (List.filter _ _)); [apply Hl|done].
Qed.

End Tail.
