(* ===== verification/DiskMonitorFacts.v ===== *)
(** * Claims about the disk monitor

    A check ends, frees what the limit asks for as far as it may, and deletes
    only files the offloader is past; and where it looks, and what "past"
    means, are not what they should be. *)
From Stdlib Require Import ZArith Lia List Bool Permutation.
From Stdlib Require Import Ascii String.
From Stdlib Require Strings.Byte.
From stdpp Require Import base option list gmap strings.
From S2P Require Import Prelude UBig UintN UintNFacts Paths PathsFacts PathsSearch FileTree Types.
From S2P Require Import WalFormat WalReader OrderedBuffer AckWriter WalWriter.
From S2P Require Import Crypto StoreFormat Store StoreFacts WalStore Cloud Lookup QueueLayout.
From S2P Require Import Mem ReaderFsm DiskMonitor.
#[local] Open Scope Z_scope.

(** ** Sizes *)

Section Sizes.

Definition sizes (fs : list (str * bytes)) : Z := foldr (fun f n => zlen (snd f) + n) 0 fs.

Definition size_below (dir : str) (files : gmap str bytes) : Z := sizes (below dir files).

Definition is_below (dir p : str) : bool := bool_decide (is_Some (strip_prefix_l (base_prefix dir) p)).

Lemma sizes_nonneg fs : 0 <= sizes fs.
Proof. induction fs as [|f fs IH]; simpl; [done|]. pose proof (zlen_nonneg (snd f)). lia. Qed.

Lemma sizes_cons f fs : sizes (f :: fs) = zlen (snd f) + sizes fs.
Proof. done. Qed.

Lemma size_below_delete dir files p c : files !! p = Some c ->
  size_below dir files =
    (if is_below dir p then zlen c else 0) + size_below dir (delete p files).
Proof.
  intros Hp. unfold size_below, below.
  assert (forall fs gs : list (str * bytes), fs ≡ₚ gs ->
    sizes (List.filter (fun f => is_below dir (fst f)) fs) =
    sizes (List.filter (fun f => is_below dir (fst f)) gs)) as Hperm.
  { induction 1 as [|x l l' _ IH|x y l|l l' l'' _ IH1 _ IH2]; cbn [List.filter]; [done| | |lia].
    - destruct (is_below dir (fst x)); rewrite ?sizes_cons; lia.
    - destruct (is_below dir (fst x)), (is_below dir (fst y)); rewrite ?sizes_cons; lia. }
  change (fun f : str * bytes => bool_decide _) with (fun f : str * bytes => is_below dir (fst f)).
  etransitivity; [symmetry; apply (Hperm _ _ (map_to_list_delete files p c Hp))|].
  cbn [List.filter fst].
  destruct (is_below dir p); rewrite ?sizes_cons; cbn [snd]; lia.
Qed.

Lemma sum_sizes_ok {B : Build} {U : UBig} (io : str -> bool) fs t : (forall p, io p = false) -> 0 <= t ->
  t + sizes fs < 2 ^ 64 -> sum_sizes io fs t = Ok (t + sizes fs).
Proof.
  intros Hio. revert t. induction fs as [|[p c] fs IH]; intros t Ht Hb; cbn [sum_sizes sizes foldr] in *.
  - by rewrite Z.add_0_r.
  - rewrite Hio. pose proof (zlen_nonneg c). pose proof (sizes_nonneg fs). cbn [snd] in *.
    unfold sizes in *. rewrite arith_ok by (unfold in_u; lia). ok_step.
    rewrite IH by lia. f_equal. lia.
Qed.

End Sizes.

Section Facts.
Context {B : Build} {U : UBig} {H : HexCrate} {S3 : S3Http}.
Context (io stuck : str -> bool) (m : queue_monitor).

Abbreviation store_of x := (uintn_to_file_path x (qm_store_path m) (s2l "store")).
Abbreviation wal_of x := (uintn_to_file_path x (qm_wal_path m) (s2l "wal")).

(** The directories hold files of ids below [2^24]. *)
Definition monitored (files : gmap str bytes) : Prop :=
  numbered (qm_store_path m) (s2l "store") files /\ numbered (qm_wal_path m) (s2l "wal") files.

(** The latest offloaded id is one. *)
Definition offloader_ok : Prop :=
  match latest_offloaded_id m with Some l => uintn_ok l | None => True end.

(** What may be deleted: the offloader, if there is one, is past it. *)
Definition may_delete (x : uintn) : Prop :=
  match qm_offloader m with
  | None => True
  | Some o => exists l, qo_latest o = Some l /\ uintn_val x <= uintn_val l
  end.

Lemma can_delete_may x : offloader_ok -> uintn_ok x -> can_delete m x = true -> may_delete x.
Proof.
  unfold offloader_ok, can_delete, may_delete, latest_offloaded_id.
  destruct (qm_offloader m) as [o|]; [|done]. destruct (qo_latest o) as [l|]; [|done].
  intros Hl Hx. rewrite leb_spec_val by eauto with normfs. intros Hle%Z.leb_le. by exists l.
Qed.

(** [files'] is [files] without files that may be deleted. *)
Definition only_deletes (files files' : gmap str bytes) : Prop := forall p,
  files' !! p = files !! p \/
  files' !! p = None /\ exists x, uintn_ok x /\ (p = store_of x \/ p = wal_of x) /\ may_delete x.

Lemma remove_one_deletes files p x : uintn_ok x -> may_delete x ->
  (p = store_of x \/ p = wal_of x) -> only_deletes files (fst (remove_one stuck files p)).
Proof.
  intros Hx Hm Hp p'. unfold remove_one. destruct (files !! p) as [c|]; [|by left].
  destruct (stuck p); [by left|]. cbn [fst]. destruct (decide (p' = p)) as [->|Hne].
  - right. split; [apply lookup_delete_eq|]. by exists x.
  - left. by rewrite lookup_delete_ne.
Qed.

Lemma delete_id_deletes files x : uintn_ok x -> may_delete x ->
  only_deletes files (fst (delete_id io stuck m files x)).
Proof.
  intros Hx Hm. unfold delete_id. cbn zeta.
  destruct (exists_file io files _); [apply (remove_one_deletes _ _ x); auto|].
  destruct (exists_file io files _); [apply (remove_one_deletes _ _ x); auto|]. by left.
Qed.

Lemma only_deletes_trans f1 f2 f3 : only_deletes f1 f2 -> only_deletes f2 f3 -> only_deletes f1 f3.
Proof.
  intros H1 H2 p. destruct (H2 p) as [->|[Hn Hx]]; [apply H1|]. right. split; [done|apply Hx].
Qed.

Lemma cleanup_loop_deletes fuel files n x files' : offloader_ok -> uintn_ok x ->
  cleanup_loop io stuck fuel m files n x = Some files' -> only_deletes files files'.
Proof.
  intros Ho. revert files n x. induction fuel as [|fuel IH]; intros files n x Hx Hc;
    cbn [cleanup_loop] in Hc.
  - destruct (decide _); [done|]. injection Hc as <-. by left.
  - destruct (decide (0 < n)); [|injection Hc as <-; by left].
    destruct (_ && _); [injection Hc as <-; by left|].
    destruct (can_delete m x) eqn:Hcan; [|injection Hc as <-; by left]. cbn [negb] in Hc.
    pose proof (delete_id_deletes files x Hx (can_delete_may x Ho Hx Hcan)) as Hd.
    destruct (delete_id io stuck m files x) as [f1 freed]. cbn [fst] in Hd.
    eapply only_deletes_trans; [exact Hd|]. eapply IH; [|exact Hc]. by apply increment_spec.
Qed.

Lemma file_below x ext dir : uintn_wf x -> is_ext ext ->
  strip_prefix_l (base_prefix dir) (uintn_to_file_path x dir ext) =
    Some (uintn_to_file_path x [] ext).
Proof. intros Hx He. rewrite (file_path_base x dir) by done. apply strip_prefix_l_app. Qed.

(** There are no files of larger ids. *)
Lemma numbered_small (dir ext : str) (files : gmap str bytes) (x : uintn) : is_ext ext -> numbered dir ext files -> uintn_wf x ->
  is_Some (files !! uintn_to_file_path x dir ext) -> uintn_val x < 2 ^ 24.
Proof.
  intros He Hn Hx Hp. destruct (Hn _ _ Hp (file_below x ext dir Hx He)) as (y & Hy & Hv & E).
  by rewrite (file_path_inj x y dir ext Hx (ok_wf _ (canonical_ok _ Hy)) He E).
Qed.

(** The smallest id of a directory. *)
Lemma min_id_ok dir ext files : is_ext ext -> numbered dir ext files ->
  exists r, min_id_of io dir ext files = Ok r /\
    match r with
    | Some x => uintn_canonical x /\ is_Some (files !! uintn_to_file_path x dir ext) /\
        forall y, uintn_canonical y -> is_Some (files !! uintn_to_file_path y dir ext) ->
          uintn_val x <= uintn_val y
    | None => io dir = false -> forall x, uintn_canonical x ->
        files !! uintn_to_file_path x dir ext = None
    end.
Proof.
  intros He Hn. unfold min_id_of. destruct (io dir); [by exists None|].
  assert (forall y, uintn_canonical y -> is_Some (files !! uintn_to_file_path y dir ext) ->
    uintn_val y < 2 ^ 24) as Hsmall.
  { intros y Hy Hp. apply (numbered_small dir ext files y); [done|done| |done].
    by apply ok_wf, canonical_ok. }
  destruct (find_min_dir dir ext files He Hn) as [(x & -> & Hx & Hv & Hp & Hmin)|[-> Hnone]].
  - exists (Some x). split_and!; try done. intros y Hy Hyp. specialize (Hmin y Hy (Hsmall y Hy Hyp) Hyp). lia.
  - exists None. split; [done|]. intros _ x Hx. destruct (files !! _) eqn:E; [|done].
    rewrite <- E. apply Hnone; [done|]. apply Hsmall; [done|]. by rewrite E.
Qed.

Lemma first_id_canonical a b x : first_id a b = Some x ->
  (forall y, a = Some y \/ b = Some y -> uintn_canonical y) -> uintn_canonical x.
Proof.
  intros Hf Hall. apply Hall. destruct a as [a|], b as [b|]; cbn in Hf; try done; simplify_eq; auto.
  destruct (uintn_ltb b a); simplify_eq; auto.
Qed.

(** An id whose turn comes has a file, which bounds the turns. *)
Lemma monitored_delete files p : monitored files -> monitored (delete p files).
Proof.
  assert (forall dir ext, numbered dir ext files -> numbered dir ext (delete p files)) as Hd.
  { intros dir ext Hn p' r Hp' Hr. apply (Hn p' r); [|done].
    destruct (decide (p' = p)) as [->|Hne]; [by rewrite lookup_delete_eq in Hp'; destruct Hp'|].
    by rewrite lookup_delete_ne in Hp'. }
  intros [? ?]. split; by apply Hd.
Qed.

Lemma delete_id_monitored files x : monitored files ->
  monitored (fst (delete_id io stuck m files x)).
Proof.
  intros Hm. unfold delete_id, remove_one. cbn zeta.
  repeat case_match; cbn [fst]; try done; by apply monitored_delete.
Qed.

Lemma turn_small files x : monitored files -> uintn_wf x ->
  negb (exists_file io files (store_of x)) && negb (exists_file io files (wal_of x)) = false ->
  uintn_val x < 2 ^ 24.
Proof.
  intros [Hns Hnw] Hx Hp. apply andb_false_iff in Hp as [Hp|Hp]; apply negb_false_iff in Hp;
    apply andb_true_iff in Hp as [_ Hp]; apply bool_decide_eq_true in Hp.
  - by apply (numbered_small _ _ files _ store_ext Hns).
  - by apply (numbered_small _ _ files _ wal_ext Hnw).
Qed.

Lemma cleanup_loop_ends fuel files n x : monitored files -> uintn_ok x ->
  (1 <= fuel)%nat -> 2 ^ 24 < uintn_val x + Z.of_nat fuel ->
  is_Some (cleanup_loop io stuck fuel m files n x).
Proof.
  revert files n x. induction fuel as [|fuel IH]; intros files n x Hm Hx H1 Hf; [lia|].
  cbn [cleanup_loop]. destruct (decide _); [|by eexists].
  destruct (_ && _) eqn:Hp; [by eexists|].
  apply turn_small in Hp; [|done|by apply ok_wf].
  destruct (can_delete m x); cbn [negb]; [|by eexists].
  pose proof (delete_id_monitored files x Hm) as Hm'.
  destruct (delete_id io stuck m files x) as [f1 freed]. cbn [fst] in Hm'.
  destruct (increment_spec x Hx) as [Hx' Hv']. apply IH; [done|done|lia|lia].
Qed.

Lemma check_deletes fuel files : monitored files -> offloader_ok -> 2 ^ 24 < Z.of_nat fuel ->
  exists r, check_and_cleanup io stuck fuel m files = Some r /\
    forall files', r = Ok files' -> only_deletes files files'.
Proof.
  intros Hm Ho Hfuel. unfold check_and_cleanup.
  destruct (get_queue_size io m files) as [cur|e|]; [|by eexists|by eexists].
  assert (exists r : outcome nf_error (gmap str bytes), Some (Ok files) = Some r /\
    forall files', r = Ok files' -> only_deletes files files') as Hsame.
  { eexists. split; [done|]. intros files' [= <-]. by left. }
  destruct (decide _); [|done]. unfold cleanup_oldest_files. cbn zeta.
  destruct (decide _); [done|]. destruct Hm as [Hns Hnw].
  destruct (min_id_ok _ _ files store_ext Hns) as (a & -> & Ha).
  destruct (min_id_ok _ _ files wal_ext Hnw) as (b & -> & Hb).
  destruct (first_id a b) as [x|] eqn:Hf; [|done].
  assert (uintn_canonical x) as Hx.
  { apply (first_id_canonical a b); [done|]. intros y [-> | ->]; [apply Ha|apply Hb]. }
  apply canonical_ok in Hx. pose proof (val_nonneg x (ok_wf _ Hx)).
  destruct (cleanup_loop_ends fuel files (Z.max 0 (cur - dc_max_size (qm_config m))) x)
    as [f Hc]; [done|done|lia|lia|].
  rewrite Hc. eexists. split; [done|]. intros files' [= <-]. by eapply cleanup_loop_deletes.
Qed.

(** ** On a healthy disk *)

Section Healthy.
Hypothesis Hio : forall p, io p = false.
Hypothesis Hstuck : forall p, stuck p = false.

(** The size of a queue. *)
Definition queue_size (files : gmap str bytes) : Z :=
  size_below (qm_wal_path m) files + size_below (qm_store_path m) files.

Lemma queue_size_ok files : queue_size files < 2 ^ 64 ->
  get_queue_size io m files = Ok (queue_size files).
Proof.
  unfold queue_size, get_queue_size, get_directory_size, size_below. intros Hs. rewrite !Hio.
  pose proof (sizes_nonneg (below (qm_wal_path m) files)).
  pose proof (sizes_nonneg (below (qm_store_path m) files)).
  rewrite !sum_sizes_ok by (done || lia). ok_step. ok_step. by rewrite arith_ok by (unfold in_u; lia).
Qed.

(** A store file is in the store directory only, a WAL file in the other. *)
Lemma store_below x : uintn_wf x -> is_below (qm_store_path m) (store_of x) = true /\
  is_below (qm_wal_path m) (store_of x) = false.
Proof.
  intros Hx. unfold is_below. rewrite (file_below _ _ _ Hx store_ext). split; [done|].
  apply bool_decide_false. intros [r Hr%strip_prefix_l_Some].
  pose proof (file_below x _ (qm_store_path m) Hx store_ext) as Hb. rewrite Hr in Hb.
  unfold qm_store_path, qm_wal_path, qm_dir in Hb. by rewrite dirs_apart in Hb.
Qed.

Lemma wal_below x : uintn_wf x -> is_below (qm_wal_path m) (wal_of x) = true /\
  is_below (qm_store_path m) (wal_of x) = false.
Proof.
  intros Hx. unfold is_below. rewrite (file_below _ _ _ Hx wal_ext). split; [done|].
  rewrite (file_path_base x (qm_wal_path m) _ Hx wal_ext).
  unfold qm_store_path, qm_wal_path, qm_dir. by rewrite dirs_apart.
Qed.

Lemma remove_healthy files p c : files !! p = Some c ->
  remove_one stuck files p = (delete p files, zlen c).
Proof. intros Hp. unfold remove_one. by rewrite Hp, Hstuck. Qed.

Lemma exists_healthy files p : exists_file io files p = bool_decide (is_Some (files !! p)).
Proof. unfold exists_file. by rewrite Hio. Qed.

(** *** What a check of a full queue removes *)

Definition has_file (files : gmap str bytes) (x : uintn) : Prop :=
  is_Some (files !! store_of x) \/ is_Some (files !! wal_of x).

(** The file of an id that is removed: the store file, else the WAL file. *)
Definition old_file (files : gmap str bytes) (x : uintn) : str :=
  if files !! store_of x is Some _ then store_of x else wal_of x.

(** The smallest id that has a file. *)
Definition oldest (files : gmap str bytes) (x : uintn) : Prop :=
  uintn_canonical x /\ has_file files x /\
  forall z, uintn_canonical z -> has_file files z -> uintn_val x <= uintn_val z.

Definition in_run (x : uintn) (n : Z) (z : uintn) : Prop :=
  uintn_canonical z /\ uintn_val x <= uintn_val z < uintn_val x + n.

(** [files'] is [files] without the old files of the [n] ids from [x] on, which
    all have one and may all be deleted; nothing else changed. *)
Definition removed (files files' : gmap str bytes) (x : uintn) (n : Z) : Prop :=
  (forall z, in_run x n z ->
     has_file files z /\ can_delete m z = true /\ files' !! old_file files z = None) /\
  (forall p, (forall z, in_run x n z -> p <> old_file files z) -> files' !! p = files !! p).

(** The last removal was needed. *)
Definition needed (limit : Z) (files files' : gmap str bytes) (x : uintn) (n : Z) : Prop :=
  forall z c, uintn_canonical z -> 0 < n -> uintn_val z = uintn_val x + n - 1 ->
    files !! old_file files z = Some c -> limit < queue_size files' + zlen c.

(** The next id stops the removals. *)
Definition stops (files : gmap str bytes) (x : uintn) (n : Z) : Prop :=
  forall z, uintn_canonical z -> uintn_val z = uintn_val x + n ->
    ~ has_file files z \/ can_delete m z = false.

(** The removals that bring a queue to its limit, as far as they may. *)
Definition freed (limit : Z) (files files' : gmap str bytes) : Prop :=
  queue_size files <= limit /\ files' = files \/
  limit < queue_size files /\ exists x n, oldest files x /\ 0 <= n /\
    removed files files' x n /\ needed limit files files' x n /\
    (queue_size files' <= limit \/ stops files x n).

Lemma old_file_ne files files' x z : uintn_canonical x -> uintn_canonical z ->
  uintn_val x <> uintn_val z -> old_file files x <> old_file files' z.
Proof.
  intros Hx%canonical_ok%ok_wf Hz%canonical_ok%ok_wf Hne E. unfold old_file in E.
  destruct (store_below x Hx), (wal_below x Hx), (store_below z Hz), (wal_below z Hz).
  destruct (files !! store_of x), (files' !! store_of z); try congruence; apply Hne.
  - by eapply (file_path_inj x z _ _ Hx Hz store_ext).
  - by eapply (file_path_inj x z _ _ Hx Hz wal_ext).
Qed.

(** Other ids do not see a removal. *)
Lemma delete_other files x z : uintn_canonical x -> uintn_canonical z ->
  uintn_val x <> uintn_val z ->
  (delete (old_file files x) files) !! store_of z = files !! store_of z /\
  (delete (old_file files x) files) !! wal_of z = files !! wal_of z.
Proof.
  intros Hx%canonical_ok%ok_wf Hz%canonical_ok%ok_wf Hne. unfold old_file.
  destruct (store_below x Hx), (wal_below x Hx), (store_below z Hz), (wal_below z Hz).
  destruct (files !! store_of x) eqn:E; split; apply lookup_delete_ne; intros Ep; try congruence;
    apply Hne.
  - by eapply (file_path_inj x z _ _ Hx Hz store_ext).
  - by eapply (file_path_inj x z _ _ Hx Hz wal_ext).
Qed.

Lemma old_file_other files x z : uintn_canonical x -> uintn_canonical z ->
  uintn_val x <> uintn_val z -> let files' := delete (old_file files x) files in
  (has_file files' z <-> has_file files z) /\ old_file files' z = old_file files z /\
  files' !! old_file files z = files !! old_file files z.
Proof.
  intros Hx Hz Hne files'. subst files'. destruct (delete_other files x z Hx Hz Hne) as [Hs Hw].
  unfold has_file. rewrite Hs, Hw. split; [done|]. unfold old_file at 1. rewrite Hs. split; [done|].
  apply lookup_delete_ne. by apply old_file_ne.
Qed.

Lemma delete_id_frees files x : uintn_wf x -> has_file files x ->
  exists c, delete_id io stuck m files x = (delete (old_file files x) files, zlen c) /\
    files !! old_file files x = Some c /\
    queue_size files = zlen c + queue_size (delete (old_file files x) files).
Proof.
  intros Hx Hp. destruct (store_below x Hx) as [Hss Hsw], (wal_below x Hx) as [Hww Hws].
  unfold delete_id, old_file. cbn zeta. rewrite !exists_healthy. unfold queue_size.
  destruct (files !! store_of x) as [c|] eqn:Es.
  - rewrite bool_decide_true by by eexists. exists c. rewrite (remove_healthy _ _ c) by done.
    rewrite (size_below_delete (qm_wal_path m) files _ c Es), Hsw.
    rewrite (size_below_delete (qm_store_path m) files _ c Es), Hss. split_and!; [done..|lia].
  - rewrite bool_decide_false by by intros [].
    destruct Hp as [[s Hp]|[c Ew]]; [congruence|]. exists c.
    rewrite bool_decide_true by by eexists. rewrite (remove_healthy _ _ c) by done.
    rewrite (size_below_delete (qm_wal_path m) files _ c Ew), Hww.
    rewrite (size_below_delete (qm_store_path m) files _ c Ew), Hws. split_and!; [done..|lia].
Qed.

Lemma removed_none files x : removed files files x 0.
Proof. split; [|done]. intros z [_ ?]. lia. Qed.

Lemma removed_next files files' x n : uintn_canonical x -> has_file files x ->
  can_delete m x = true -> 0 <= n ->
  removed (delete (old_file files x) files) files' (uintn_increment x) n ->
  removed files files' x (n + 1).
Proof.
  intros Hx Hp Hc Hn [Hin Hout]. destruct (increment_spec x (canonical_ok _ Hx)) as [_ Hv].
  split.
  - intros z [Hz Hr]. destruct (decide (uintn_val x = uintn_val z)) as [E|Hne].
    + apply canonical_inj in E as <-; [|done..]. split_and!; [done..|].
      rewrite Hout; [apply lookup_delete_eq|]. intros z [Hz' ?]. apply old_file_ne; [done..|lia].
    + destruct (Hin z) as (Hf & Hd & Hl); [split; [done|lia]|].
      destruct (old_file_other files x z Hx Hz Hne) as (Hh & Ho & _).
      rewrite Ho in Hl. split_and!; [by apply Hh|done..].
  - intros p Hp'. rewrite Hout.
    + apply lookup_delete_ne. intros E. apply (Hp' x); [|done]. split; [done|lia].
    + intros z [Hz Hr]. destruct (old_file_other files x z Hx Hz) as (_ & -> & _); [lia|].
      apply Hp'. split; [done|lia].
Qed.

Lemma needed_next limit files files' x n c : uintn_canonical x ->
  files !! old_file files x = Some c -> 0 <= n ->
  queue_size files = zlen c + queue_size (delete (old_file files x) files) ->
  limit < queue_size files ->
  removed (delete (old_file files x) files) files' (uintn_increment x) n ->
  needed limit (delete (old_file files x) files) files' (uintn_increment x) n ->
  (n = 0 -> files' = delete (old_file files x) files) ->
  needed limit files files' x (n + 1).
Proof.
  intros Hx Hc Hn Hs Hgt Hr Hneed Hzero z d Hz Hpos Hv Hd.
  destruct (increment_spec x (canonical_ok _ Hx)) as [_ Hv'].
  destruct (decide (n = 0)) as [E|Hne].
  - apply Hzero in E as Hf. subst files'.
    replace z with x in Hd by (apply canonical_inj; [done..|lia]). simplify_eq. lia.
  - destruct (old_file_other files x z Hx Hz) as (_ & Ho & Hl); [lia|].
    apply (Hneed z d); [done|lia|lia|]. by rewrite Ho, Hl.
Qed.

Lemma cleanup_loop_frees fuel files x limit : monitored files -> uintn_canonical x ->
  (1 <= fuel)%nat -> 2 ^ 24 < uintn_val x + Z.of_nat fuel ->
  exists files' n,
    cleanup_loop io stuck fuel m files (Z.max 0 (queue_size files - limit)) x = Some files' /\
    0 <= n /\ (n = 0 -> files' = files) /\ removed files files' x n /\
    needed limit files files' x n /\ (queue_size files' <= limit \/ stops files x n).
Proof.
  revert files x. induction fuel as [|fuel IH]; intros files x Hm Hx H1 Hf; [lia|].
  assert (needed limit files files x 0) as Hnone by (intros z c _ ? _; lia).
  cbn [cleanup_loop]. destruct (decide (0 < _)) as [Hpos|Hpos].
  2:{ exists files, 0. split_and!; try done; [apply removed_none|left; lia]. }
  assert (stops files x 0 -> exists files' n, Some files = Some files' /\
    0 <= n /\ (n = 0 -> files' = files) /\ removed files files' x n /\
    needed limit files files' x n /\ (queue_size files' <= limit \/ stops files x n)) as Hstop.
  { intros Hst. exists files, 0. split_and!; try done; [apply removed_none|by right]. }
  assert (forall z, uintn_canonical z -> uintn_val z = uintn_val x + 0 -> z = x) as Hself
    by (intros z Hz Hv; apply canonical_inj; [done..|lia]).
  destruct (_ && _) eqn:Hp.
  { apply Hstop. intros z Hz ->%Hself; [|done]. left. rewrite !exists_healthy in Hp.
    apply andb_true_iff in Hp as [Hp1 Hp2]. apply negb_true_iff, bool_decide_eq_false in Hp1, Hp2.
    unfold has_file. tauto. }
  pose proof (turn_small files x Hm (ok_wf _ (canonical_ok _ Hx)) Hp) as Hv.
  assert (has_file files x) as Hfile.
  { rewrite !exists_healthy in Hp. unfold has_file. apply andb_false_iff in Hp as [Hp|Hp];
      apply negb_false_iff, bool_decide_eq_true in Hp; tauto. }
  destruct (can_delete m x) eqn:Hc; cbn [negb].
  2:{ apply Hstop. intros z Hz ->%Hself; [|done]. by right. }
  destruct (delete_id_frees files x (ok_wf _ (canonical_ok _ Hx)) Hfile) as (c & -> & Hcf & Hs).
  destruct (increment_spec x (canonical_ok _ Hx)) as [_ Hv'].
  replace (Z.max 0 (Z.max 0 _ - zlen c))
    with (Z.max 0 (queue_size (delete (old_file files x) files) - limit)) by lia.
  destruct (IH (delete (old_file files x) files) (uintn_increment x)) as
    (files' & n & -> & Hn & Hzero & Hr & Hneed & Hend);
    [by apply monitored_delete|by apply increment_canonical|lia|lia|].
  exists files', (n + 1). split_and!; [done|lia|lia|by apply removed_next| |].
  - eapply needed_next; eauto. lia.
  - destruct Hend as [?|Hst]; [by left|]. right. intros z Hz Hvz.
    destruct (old_file_other files x z Hx Hz) as (Hh & _ & _); [lia|].
    destruct (Hst z Hz) as [Hno|]; [lia| |by right]. left. by rewrite <- Hh.
Qed.

Lemma oldest_first files a b x :
  first_id a b = Some x ->
  (forall y, uintn_canonical y -> is_Some (files !! store_of y) ->
     exists z, a = Some z /\ uintn_val z <= uintn_val y) ->
  (forall y, uintn_canonical y -> is_Some (files !! wal_of y) ->
     exists z, b = Some z /\ uintn_val z <= uintn_val y) ->
  (forall y, a = Some y -> uintn_canonical y /\ is_Some (files !! store_of y)) ->
  (forall y, b = Some y -> uintn_canonical y /\ is_Some (files !! wal_of y)) ->
  oldest files x.
Proof.
  intros Hf Hs Hw Ha Hb. unfold oldest, has_file.
  assert (forall y, a = Some y -> uintn_val x <= uintn_val y) as Hxa.
  { intros y ->. destruct b as [w|]; cbn [first_id] in Hf; [|by simplify_eq].
    destruct (Ha y eq_refl) as [Hy%canonical_ok%ok_wf _], (Hb w eq_refl) as [Hw'%canonical_ok%ok_wf _].
    rewrite ltb_spec_val in Hf by done. destruct (Z.ltb_spec (uintn_val w) (uintn_val y)); simplify_eq; lia. }
  assert (forall y, b = Some y -> uintn_val x <= uintn_val y) as Hxb.
  { intros y ->. destruct a as [w|]; cbn [first_id] in Hf; [|by simplify_eq].
    destruct (Hb y eq_refl) as [Hy%canonical_ok%ok_wf _], (Ha w eq_refl) as [Hw'%canonical_ok%ok_wf _].
    rewrite ltb_spec_val in Hf by done. destruct (Z.ltb_spec (uintn_val y) (uintn_val w)); simplify_eq; lia. }
  assert (a = Some x \/ b = Some x) as Hx.
  { destruct a as [s|], b as [w|]; cbn [first_id] in Hf; simplify_eq; auto.
    destruct (uintn_ltb w s); auto. }
  split; [destruct Hx as [E|E]; [by apply Ha|by apply Hb]|].
  split; [destruct Hx as [E|E]; [left; by apply Ha|right; by apply Hb]|].
  intros y Hy [Hp|Hp].
  - destruct (Hs y Hy Hp) as (z & E & Hle). specialize (Hxa z E). lia.
  - destruct (Hw y Hy Hp) as (z & E & Hle). specialize (Hxb z E). lia.
Qed.

Lemma first_id_oldest files : monitored files ->
  exists a b, min_id_of io (qm_store_path m) (s2l "store") files = Ok a /\
    min_id_of io (qm_wal_path m) (s2l "wal") files = Ok b /\
    match first_id a b with
    | Some x => oldest files x
    | None => forall x, uintn_canonical x -> ~ has_file files x
    end.
Proof.
  intros [Hns Hnw].
  destruct (min_id_ok _ _ files store_ext Hns) as (a & -> & Ha).
  destruct (min_id_ok _ _ files wal_ext Hnw) as (b & -> & Hb).
  exists a, b. do 2 (split; [done|]). destruct (first_id a b) as [x|] eqn:Hf.
  - apply (oldest_first files a b x Hf).
    + intros y Hy Hp. destruct a as [z|]; [exists z; split; [done|by apply Ha]|].
      rewrite (Ha (Hio _) y Hy) in Hp. by destruct Hp.
    + intros y Hy Hp. destruct b as [z|]; [exists z; split; [done|by apply Hb]|].
      rewrite (Hb (Hio _) y Hy) in Hp. by destruct Hp.
    + intros y ->. split; apply Ha.
    + intros y ->. split; apply Hb.
  - destruct a, b; try done. intros x Hx [Hp|Hp].
    + rewrite (Ha (Hio _) x Hx) in Hp. by destruct Hp.
    + rewrite (Hb (Hio _) x Hx) in Hp. by destruct Hp.
Qed.

(** A queue without files occupies nothing. *)
Lemma no_files_no_size files : monitored files ->
  (forall x, uintn_canonical x -> ~ has_file files x) -> queue_size files = 0.
Proof.
  intros [Hns Hnw] Hno.
  assert (forall dir ext, numbered dir ext files ->
    (forall x, uintn_canonical x -> ~ is_Some (files !! uintn_to_file_path x dir ext)) ->
    size_below dir files = 0) as Hdir.
  { intros dir ext Hn Hd. unfold size_below, below. rewrite filter_none; [done|].
    intros [p c] Hin. apply bool_decide_false. cbn [fst]. intros [r Hr].
    apply list_elem_of_In, elem_of_map_to_list in Hin.
    destruct (Hn p r ltac:(by eexists) Hr) as (x & Hx & _ & ->). by apply (Hd x Hx). }
  unfold queue_size. rewrite (Hdir _ _ Hnw), (Hdir _ _ Hns); [done|..];
    intros x Hx Hp; apply (Hno x Hx); unfold has_file; auto.
Qed.

Lemma check_frees fuel files : monitored files -> queue_size files < 2 ^ 64 ->
  0 <= dc_max_size (qm_config m) -> 2 ^ 24 < Z.of_nat fuel ->
  exists files', check_and_cleanup io stuck fuel m files = Some (Ok files') /\
    freed (dc_max_size (qm_config m)) files files'.
Proof.
  intros Hm Hs Hmax Hfuel. unfold check_and_cleanup, freed. rewrite queue_size_ok by done.
  destruct (decide _) as [Hgt|Hle]; [|exists files; split; [done|left; split; [lia|done]]].
  unfold cleanup_oldest_files. cbn zeta. rewrite decide_False by lia.
  destruct (first_id_oldest files Hm) as (a & b & -> & -> & Hfirst).
  destruct (first_id a b) as [x|].
  2:{ pose proof (no_files_no_size files Hm Hfirst). lia. }
  pose proof (val_nonneg x (ok_wf _ (canonical_ok _ (proj1 Hfirst)))).
  destruct (cleanup_loop_frees fuel files x (dc_max_size (qm_config m))) as
    (files' & n & -> & Hn & _ & Hrest); [done|by apply Hfirst|lia|lia|].
  exists files'. split; [done|]. right. split; [done|]. by exists x, n.
Qed.

End Healthy.
End Facts.

(** ** Claims *)

Section Claims.
Context {B : Build} {U : UBig} {H : HexCrate} {S3 : S3Http}.

(** C22: on a disk without faults a check of a queue whose directories hold
    files of ids below 2^24 ends.  A queue within its limit is left as it is.
    One above it loses the files of consecutive ids from the smallest one on
    (of an id with two files the store file), each of which may be deleted, no
    more of them than the limit asks for, and nothing else; and it is within
    the limit then, or the next id has no file or its file must stay because
    the offloader is not past it. *)
Theorem disk_check_frees fuel m files :
  monitored m files -> queue_size m files < 2 ^ 64 -> 0 <= dc_max_size (qm_config m) ->
  2 ^ 24 < Z.of_nat fuel ->
  exists files', check_and_cleanup (fun _ => false) (fun _ => false) fuel m files = Some (Ok files') /\
    freed m (dc_max_size (qm_config m)) files files'.
Proof. intros Hm Hs Hmax Hf. by apply check_frees. Qed.

(** C23: a check ends whatever fails on the disk, and when it does not answer
    with an error it has only deleted files of the queue's two directories
    that it may delete; every other file is as before.  A queue with an
    offloader may lose the files of the ids up to the latest one uploaded, and
    none before the first upload; a queue without an offloader may lose the
    file of any id.  (An error is answered before the first deletion.) *)
Theorem disk_check_respects_offload io stuck fuel m files :
  monitored m files -> offloader_ok m -> 2 ^ 24 < Z.of_nat fuel ->
  exists r, check_and_cleanup io stuck fuel m files = Some r /\
    forall files', r = Ok files' -> only_deletes m files files'.
Proof. apply check_deletes. Qed.

(** For an absolute queue id (the ones the resolver makes) the monitor does not
    look below the root of the store: when no file is below the path the id is
    itself, a check deletes nothing, whatever the queue occupies. *)
Section Overlooked.
Context (io stuck : str -> bool) (r : str) (files : gmap str bytes).
Hypothesis Hio : forall p, io p = false.
Hypothesis Hno : forall p rest, strip_prefix_l (base_prefix (slash :: r)) p = Some rest -> files !! p = None.

Definition overlooking (m : queue_monitor) : Prop :=
  qm_queue_id m = slash :: r /\ 0 <= dc_max_size (qm_config m).

Lemma check_overlooks fuel m : overlooking m ->
  check_and_cleanup io stuck fuel m files = Some (Ok files).
Proof.
  intros [Hq Hmax].
  assert (forall name, good_comp name -> below (qm_dir m name) files = []) as Hbelow.
  { intros name Hn. apply filter_none. intros [p c] Hin. apply bool_decide_false. cbn [fst].
    apply list_elem_of_In, elem_of_map_to_list in Hin.
    unfold qm_dir. rewrite push_prefix, Hq by done.
    change (path_push (qm_root_path m) (slash :: r)) with (slash :: r).
    intros [rest Hr%strip_prefix_l_Some]. subst p.
    rewrite <- app_assoc, (Hno _ _ (strip_prefix_l_app _ _)) in Hin. done. }
  assert (forall name, good_comp name -> get_directory_size io files (qm_dir m name) = Ok 0) as Hsize.
  { intros name Hn. unfold get_directory_size. rewrite Hio, Hbelow by done. done. }
  unfold check_and_cleanup, get_queue_size, qm_wal_path, qm_store_path.
  rewrite !Hsize by (split_and!; [done|repeat constructor; done|done]). ok_step. ok_step.
  rewrite arith_ok by done. by rewrite decide_False by (cbn; lia).
Qed.

Lemma tick_overlooks fuel dm : (forall k m, dm_monitors dm !! k = Some m -> overlooking m) ->
  tick io stuck fuel dm files = Some (Ok files).
Proof.
  intros Hall. unfold tick. assert (Forall overlooking (map snd (map_to_list (dm_monitors dm)))) as Hm.
  { apply List.Forall_forall. intros m Hm. apply in_map_iff in Hm as ([k m'] & <- & Hin).
    apply list_elem_of_In, elem_of_map_to_list in Hin. by eapply Hall. }
  induction Hm as [|m ms Hm _ IH]; [done|]. cbn [check_all]. by rewrite check_overlooks.
Qed.

End Overlooked.

Theorem disk_monitor_misses_root io stuck fuel root r config prefix upload_queue files :
  let monitor := queue_monitor_new (slash :: r) config root prefix upload_queue in
  (forall p, io p = false) -> 0 <= dc_max_size config ->
  (forall p rest, strip_prefix_l (base_prefix (slash :: r)) p = Some rest -> files !! p = None) ->
  check_and_cleanup io stuck fuel monitor files = Some (Ok files).
Proof. intros monitor Hio Hmax Hno. by apply (check_overlooks io stuck r). Qed.

End Claims.

(** *** Checks of small queues *)

Definition early_config : disk_monitor_config :=
  {| dc_max_size := 2; dc_check_interval := 10; dc_wal_settings := wal_settings_default |}.
Definition early_files : gmap str bytes :=
  {[ s2l "/i/q/store/001.store" := [Byte.x61; Byte.x62] ]} ∪
  {[ s2l "/i/q/store/003.store" := [Byte.x63] ]}.
Definition early_offloader : queue_offloader :=
  enqueue_file (enqueue_file (queue_offloader_new (s2l "/i/q") (s2l "/") (s2l "p") []) (U8 3)) (U8 1).
Definition early_monitor (o : option queue_offloader) : queue_monitor :=
  {| qm_queue_id := s2l "/i/q"; qm_config := early_config; qm_root_path := s2l "/";
     qm_offloader := o |}.

(** "up to the latest uploaded id" is not "uploaded": when the offloader
    gets a new file before the task that lists the old ones has sent them, the
    first upload makes the new id the latest, and the next check deletes an old
    file that is nowhere in the bucket. *)
Theorem monitor_deletes_unuploaded :
  match offloader_turn (S3 := S3Http_map) 1 early_offloader early_files ∅ with
  | Some (Ok (bucket, o)) =>
      (bucket : gmap str bytes) !! offload_key (qo_worker o) (U8 1) = None /\
      early_files !! s2l "/i/q/store/001.store" = Some [Byte.x61; Byte.x62] /\
      match check_and_cleanup (B := checked_build) (fun _ => false) (fun _ => false) 5
              (early_monitor (Some o)) early_files with
      | Some (Ok files) => files !! s2l "/i/q/store/001.store" = None
      | _ => False
      end
  | _ => False
  end.
Proof.
  assert (match offloader_turn (S3 := S3Http_map) 1 early_offloader early_files ∅ with
    | Some (Ok (bucket, o)) =>
        bool_decide ((bucket : gmap str bytes) !! offload_key (qo_worker o) (U8 1) = None) &&
        match check_and_cleanup (B := checked_build) (fun _ => false) (fun _ => false) 5
                (early_monitor (Some o)) early_files with
        | Some (Ok files) => bool_decide (files !! s2l "/i/q/store/001.store" = None)
        | _ => false
        end
    | _ => false
    end = true) as Hc by vm_eq.
  destruct (offloader_turn 1 early_offloader early_files ∅) as [[[bucket o]|e|]|]; try discriminate.
  apply andb_true_iff in Hc as [Hb Hc]. apply bool_decide_eq_true in Hb.
  split; [exact Hb|]. split; [vm_eq|].
  destruct (check_and_cleanup _ _ 5 (early_monitor (Some o)) early_files) as [[files|e|]|];
    try discriminate. by apply bool_decide_eq_true in Hc.
Qed.

Lemma early_monitored o : monitored (early_monitor o) early_files.
Proof.
  split; intros p r Hp Hr.
  - unfold early_files in Hp. apply lookup_union_is_Some in Hp as [[c Hp]|[c Hp]];
      apply lookup_singleton_Some in Hp as [<- _]; [exists (U8 1)|exists (U8 3)]; done.
  - exfalso. unfold early_files in Hp. apply lookup_union_is_Some in Hp as [[c Hp]|[c Hp]];
      apply lookup_singleton_Some in Hp as [<- _]; vm_compute in Hr; discriminate.
Defined.

Lemma early_size o : queue_size (early_monitor o) early_files = 3.
Proof. vm_eq. Qed.

Lemma early_lookup p c : early_files !! p = Some c ->
  p = s2l "/i/q/store/001.store" \/ p = s2l "/i/q/store/003.store".
Proof.
  unfold early_files. intros Hp. apply lookup_union_Some_raw in Hp as [Hp|[_ Hp]];
    apply lookup_singleton_Some in Hp as [<- _]; auto.
Qed.

Lemma early_has_file o x : uintn_canonical x -> has_file (early_monitor o) early_files x ->
  x = U8 1 \/ x = U8 3.
Proof.
  intros Hx Hp. pose proof (ok_wf _ (canonical_ok _ Hx)) as Hwf.
  assert (forall p, (p = uintn_to_file_path x (qm_store_path (early_monitor o)) (s2l "store") \/
    p = uintn_to_file_path x (qm_wal_path (early_monitor o)) (s2l "wal")) ->
    is_Some (early_files !! p) -> x = U8 1 \/ x = U8 3) as Hall.
  { intros p Hpath [c Hc%early_lookup].
    destruct Hpath as [->|Hw].
    - destruct Hc as [Hc|Hc]; [left|right]; (apply canonical_inj; [done|done|]);
        [apply (file_path_inj x (U8 1) (s2l "/i/q/store") (s2l "store"))
        |apply (file_path_inj x (U8 3) (s2l "/i/q/store") (s2l "store"))];
        done || apply store_ext.
    - exfalso. pose proof (wal_below (early_monitor o) x Hwf) as [Hb _]. rewrite <- Hw in Hb.
      destruct Hc as [-> | ->]; vm_compute in Hb; discriminate. }
  destruct Hp as [Hp|Hp]; eapply Hall; [|exact Hp| |exact Hp]; auto.
Qed.

(** Of what a check of the early files may leave only this is possible: 1 is
    the oldest id, its file of 2 bytes makes room enough, 3 stays. *)
Lemma early_freed files' : freed (early_monitor None) 2 early_files files' ->
  files' !! s2l "/i/q/store/001.store" = None /\
  files' !! s2l "/i/q/store/003.store" = Some [Byte.x63].
Proof.
  intros [[Hle _]|(_ & x & n & (Hx & Hp & Hmin) & Hn & [Hin Hout] & _ & Hend)];
    [by rewrite early_size in Hle|].
  assert (has_file (early_monitor None) early_files (U8 1)) as H1 by (left; by eexists).
  specialize (Hmin (U8 1) ltac:(done) H1).
  destruct (early_has_file None x Hx Hp) as [-> | ->]; [|cbn in Hmin; lia].
  assert (n = 1) as ->.
  { destruct (decide (n = 0)) as [->|Hz].
    - exfalso. assert (files' = early_files) as ->.
      { apply map_eq. intros p. apply Hout. intros z [_ ?]. lia. }
      destruct Hend as [Hle|Hst]; [by rewrite early_size in Hle|].
      by destruct (Hst (U8 1) ltac:(done) ltac:(done)).
    - destruct (decide (n < 2)); [lia|]. exfalso.
      destruct (Hin (U8 2)) as [Hf _]; [split; [done|cbn; lia]|].
      by destruct (early_has_file None (U8 2) ltac:(done) Hf). }
  split.
  - apply (Hin (U8 1)). split; [done|cbn; lia].
  - rewrite Hout; [vm_eq|]. intros z [Hz Hv].
    rewrite (canonical_inj z (U8 1)) by (done || cbn in *; lia). vm_compute. discriminate.
Qed.

Lemma disk_check_frees_witness :
  exists files', check_and_cleanup (B := checked_build) (fun _ => false) (fun _ => false)
      (Z.to_nat (2 ^ 24 + 1)) (early_monitor None) early_files = Some (Ok files') /\
    files' !! s2l "/i/q/store/001.store" = None /\
    files' !! s2l "/i/q/store/003.store" = Some [Byte.x63].
Proof.
  destruct (disk_check_frees (B := checked_build) (Z.to_nat (2 ^ 24 + 1)) (early_monitor None) early_files)
    as (files' & Hc & Hf).
  - apply early_monitored.
  - rewrite early_size. done.
  - done.
  - rewrite Z2Nat.id; done.
  - exact (ex_intro _ files' (conj Hc (early_freed files' Hf))).
Defined.

(** The latest uploaded id is 1, and nothing should stay. *)
Definition early_uploaded : queue_offloader :=
  {| qo_worker := qo_worker early_offloader; qo_pending := []; qo_latest := Some (U8 1) |}.
Definition empty_config : disk_monitor_config :=
  {| dc_max_size := 0; dc_check_interval := 10; dc_wal_settings := wal_settings_default |}.
Definition uploaded_monitor : queue_monitor :=
  {| qm_queue_id := s2l "/i/q"; qm_config := empty_config; qm_root_path := s2l "/";
     qm_offloader := Some early_uploaded |}.

Lemma uploaded_keeps files' : only_deletes uploaded_monitor early_files files' ->
  files' !! s2l "/i/q/store/003.store" = Some [Byte.x63].
Proof.
  intros Hd. destruct (Hd (s2l "/i/q/store/003.store")) as [-> | [_ (x & Hx & Hp & l & [= <-] & Hle)]];
    [vm_eq|exfalso]. pose proof (ok_wf _ Hx) as Hwf. destruct Hp as [Hp|Hp].
  - pose proof (file_path_inj (U8 3) x (s2l "/i/q/store") (s2l "store") ltac:(done) Hwf store_ext Hp).
    cbn in *. lia.
  - pose proof (wal_below (early_monitor None) x Hwf) as [Hb _].
    change (is_below (s2l "/i/q/wal") (uintn_to_file_path x (qm_wal_path uploaded_monitor) (s2l "wal"))
      = true) in Hb. rewrite <- Hp in Hb. vm_compute in Hb. discriminate.
Qed.

(** The file of 3, which is not uploaded, stays, and the queue above its limit. *)
Lemma disk_check_respects_offload_witness :
  exists files', check_and_cleanup (B := checked_build) (fun _ => false) (fun _ => false)
      (Z.to_nat (2 ^ 24 + 1)) uploaded_monitor early_files = Some (Ok files') /\
    files' !! s2l "/i/q/store/003.store" = Some [Byte.x63].
Proof.
  assert (offloader_ok uploaded_monitor) as Hok by done.
  assert (0 <= dc_max_size (qm_config uploaded_monitor)) as Hmax by done.
  assert (2 ^ 24 < Z.of_nat (Z.to_nat (2 ^ 24 + 1))) as Hfuel by (rewrite Z2Nat.id; done).
  destruct (disk_check_respects_offload (B := checked_build) (fun _ => false) (fun _ => false)
    (Z.to_nat (2 ^ 24 + 1)) uploaded_monitor early_files (early_monitored (Some early_uploaded)) Hok Hfuel)
    as (r & Hr & Hd).
  destruct (check_frees (B := checked_build) (fun _ => false) (fun _ => false) uploaded_monitor
    (fun _ => eq_refl) (fun _ => eq_refl) (Z.to_nat (2 ^ 24 + 1)) early_files
    (early_monitored (Some early_uploaded)) eq_refl Hmax Hfuel) as (files' & Hc & _).
  rewrite Hr in Hc. injection Hc as ->.
  exact (ex_intro _ files' (conj Hr (uploaded_keeps files' (Hd files' eq_refl)))).
Defined.

Definition rooted_files : gmap str bytes :=
  {[ queue_to_store_path {| qid_path := s2l "/i/q" |} (s2l "/d") (U8 1) :=
       [Byte.x61; Byte.x62; Byte.x63] ]}.

Lemma disk_monitor_misses_root_witness :
  check_and_cleanup (B := checked_build) (fun _ => false) (fun _ => false) 5
    (queue_monitor_new (s2l "/i/q") early_config (s2l "/d") None []) rooted_files =
  Some (Ok rooted_files).
Proof.
  apply (disk_monitor_misses_root (B := checked_build) (fun _ => false) (fun _ => false) 5 (s2l "/d")
    (s2l "i/q") early_config None [] rooted_files).
  - done.
  - done.
  - intros p rest Hr. unfold rooted_files. apply lookup_singleton_None. intros <-.
    vm_compute in Hr. discriminate.
Defined.
