(* ===== verification/NormFs.v ===== *)
(** * The facade ([normfs/src/lib.rs], [config.rs])

    It recovers the end of a queue from its files, starts the writer and the
    memory of a queue, numbers entries in memory and hands them to the writer;
    the tasks it spawns move acknowledgements to the memory, complete files to
    the store, and stored files to the disk monitor. *)
From Stdlib Require Import ZArith Lia List Bool.
From Stdlib Require Import Ascii String.
From stdpp Require Import base option list gmap strings.
From S2P Require Import Prelude UBig UintN UintNFacts Paths PathsFacts FileTree Types.
From S2P Require Import WalFormat WalReader OrderedBuffer AckWriter WalWriter.
From S2P Require Import Crypto StoreFormat Store WalStore Cloud Lookup Mem ReaderFsm DiskMonitor.
#[local] Open Scope Z_scope.

(** ** Configuration *)

(** [struct QueueConfig] *)
Record queue_config := {
  qc_compression_type : compression_type;
  qc_enable_fsync : bool;
  qc_encryption_type : encryption_type;
}.

Definition queue_config_default : queue_config :=
  {| qc_compression_type := CompZstd; qc_enable_fsync := true; qc_encryption_type := EncAes |}.

(** The crate [globset]: patterns compile to matchers, or not. *)
Class GlobCrate := {
  glob_matcher : Type;
  glob_new : str -> option glob_matcher;
  is_match : glob_matcher -> str -> bool;
}.

Section Config.
Context {G : GlobCrate}.

(** [struct QueueSettings] *)
Record queue_settings := {
  qs_rules : list (glob_matcher * queue_config);
  qs_default_config : queue_config;
}.

Fixpoint compile_rules (patterns : list (str * queue_config))
    : option (list (glob_matcher * queue_config)) :=
  match patterns with
  | [] => Some []
  | (pat, config) :: patterns =>
      match glob_new pat with
      | Some matcher => option_map (cons (matcher, config)) (compile_rules patterns)
      | None => None
      end
  end.

Definition queue_settings_new (patterns : list (str * queue_config))
    (default_config : queue_config) : option queue_settings :=
  option_map (fun rules => {| qs_rules := rules; qs_default_config := default_config |})
    (compile_rules patterns).

(** [get_config]: the first rule that matches. *)
Definition get_config (self : queue_settings) (queue_path : str) : queue_config :=
  (fix go (rules : list (glob_matcher * queue_config)) : queue_config :=
     match rules with
     | [] => qs_default_config self
     | (matcher, config) :: rules => if is_match matcher queue_path then config else go rules
     end) (qs_rules self).

(** [struct NormFsSettings]; the store and cloud settings are in the
    environment and in the arguments of [normfs_new]. *)
Record normfs_settings := {
  ns_max_memory_usage : Z;
  ns_wal_settings : wal_settings;
  ns_max_disk_usage_per_queue : option Z;
  ns_queue_settings : queue_settings;
}.

End Config.

(** ** Recovery *)

Section Recovery.
Context {B : Build} {U : UBig} {H : HexCrate} {X : Hasher} {C : CryptoLib} {Z' : CompressLib}.
Context (env : store_env).

(** The larger of the candidate and an answer; errors count as no answer. *)
Definition raise_max {E} (current : option uintn) (r : outcome E (option uintn)) : option uintn :=
  match r with
  | Ok (Some id) =>
      match current with
      | Some current_max => Some (if uintn_ltb current_max id then id else current_max)
      | None => Some id
      end
  | _ => current
  end.

Definition is_panic {E A} (r : outcome E A) : bool := match r with Panic => true | _ => false end.

(** [get_latest_file] *)
Definition get_latest_file (st : store_state) (q : queue_id) : outcome nf_error (option uintn) :=
  let wal_file_id := ws_find_last_file_id env st q in
  let store_file_id := ps_find_last_file_id env st q in
  if is_panic wal_file_id || is_panic store_file_id then Panic
  else Ok (raise_max (raise_max None (id ← wal_file_id; Ok (Some id)))
                     (id ← store_file_id; Ok (Some id))).

(** [get_file_end_all_sources] *)
Definition get_file_end_all_sources (st : store_state) (q : queue_id) (file_id : uintn)
    : store_state * outcome nf_error (option uintn) :=
  let wal_end := ws_get_file_end env st q file_id in
  let '(st, store_end) := store_get_file_end env st q file_id in
  (st, if is_panic wal_end || is_panic store_end then Panic
       else Ok (raise_max (raise_max None wal_end) store_end)).

(** [get_file_header_all_sources]: the header of the WAL file first. *)
Definition get_file_header_all_sources (st : store_state) (q : queue_id) (file_id : uintn)
    : outcome nf_error (option wal_header) :=
  let wal_header := ws_get_file_header env st q file_id in
  let store_header := store_get_file_header env st q file_id in
  if is_panic wal_header || is_panic store_header then Panic
  else match wal_header, store_header with
  | Ok (Some header), _ => Ok (Some header)
  | _, Ok (Some header) => Ok (Some header)
  | _, _ => Ok None
  end.

Definition recovered : Type := uintn * wal_header * option uintn.
Definition fresh_queue : recovered := (uintn_one, wal_header_default, None).

(** Where to write once the last entry is found in [current_file_id]. *)
Definition recovery_decision (latest_file_id current_file_id last_entry_id : uintn)
    (header : wal_header) : recovered :=
  let next_file_id :=
    if uintn_eqb current_file_id latest_file_id then uintn_increment latest_file_id
    else latest_file_id in
  (next_file_id,
   {| data_size_bytes := data_size_bytes header; id_size_bytes := id_size_bytes header;
      num_entries_before := uintn_increment last_entry_id |},
   Some last_entry_id).

(** The loop of [continue_queue] ([None]: more than [fuel] turns). *)
Fixpoint walk_back (fuel : nat) (st : store_state) (q : queue_id)
    (latest_file_id current_file_id : uintn)
    : option (store_state * outcome nf_error recovered) :=
  match fuel with
  | O => None
  | S fuel =>
      match get_file_end_all_sources st q current_file_id with
      | (st, Ok (Some last_entry_id)) =>
          Some (st,
            header ← get_file_header_all_sources st q current_file_id;
            Ok (recovery_decision latest_file_id current_file_id last_entry_id
                  (default wal_header_default header)))
      | (st, Ok None) =>
          if uintn_eqb current_file_id uintn_one then Some (st, Ok fresh_queue)
          else match uintn_decrement current_file_id with
          | Ok current_file_id => walk_back fuel st q latest_file_id current_file_id
          | Err e => Some (st, Err (EStore (SUintN e)))
          | Panic => Some (st, Panic)
          end
      | (st, Err e) => Some (st, Err e)
      | (st, Panic) => Some (st, Panic)
      end
  end.

Definition continue_queue (fuel : nat) (st : store_state) (q : queue_id)
    : option (store_state * outcome nf_error recovered) :=
  match get_latest_file st q with
  | Ok (Some latest_file_id) => walk_back fuel st q latest_file_id latest_file_id
  | Ok None => Some (st, Ok fresh_queue)
  | Err e => Some (st, Err e)
  | Panic => Some (st, Panic)
  end.

End Recovery.

(** ** The facade *)

Section Facade.
Context {B : Build} {U : UBig} {H : HexCrate} {X : Hasher} {S : UnstableSort}.
Context {C : CryptoLib} {Z' : CompressLib} {S3 : S3Http} {G : GlobCrate}.

(** A task spawned by [start_queue]: [process_old_files]. *)
Record old_files_task := {
  ot_queue : queue_id;
  ot_file_id : uintn;
  ot_compression : compression_type;
  ot_encryption : encryption_type;
}.

(** [struct NormFS], with what its tasks share: the writers and their
    channels, the memory, the cloud cache, the monitor; whether the store
    workers run; the tasks spawned and not yet run. *)
Record norm_fs := {
  nf_wal : wal_world;
  nf_mem : mem_store;
  nf_disk_monitor : option disk_monitor;
  nf_cloud_downloader : option cloud_downloader;
  nf_cache : range_cache;
  nf_settings : normfs_settings;
  nf_workers : bool;
  nf_spawned : list old_files_task;
}.

Definition with_wal (self : norm_fs) (w : wal_world) : norm_fs :=
  {| nf_wal := w; nf_mem := nf_mem self; nf_disk_monitor := nf_disk_monitor self;
     nf_cloud_downloader := nf_cloud_downloader self; nf_cache := nf_cache self;
     nf_settings := nf_settings self; nf_workers := nf_workers self; nf_spawned := nf_spawned self |}.

Definition with_mem (self : norm_fs) (mem : mem_store) : norm_fs :=
  {| nf_wal := nf_wal self; nf_mem := mem; nf_disk_monitor := nf_disk_monitor self;
     nf_cloud_downloader := nf_cloud_downloader self; nf_cache := nf_cache self;
     nf_settings := nf_settings self; nf_workers := nf_workers self; nf_spawned := nf_spawned self |}.

Definition with_store (self : norm_fs) (st : store_state) : norm_fs :=
  let w := nf_wal self in
  with_wal self {| ww_store := st; ww_writers := ww_writers w; ww_acks := ww_acks w;
                   ww_complete := ww_complete w |}.

Definition with_monitor (self : norm_fs) (m : option disk_monitor) : norm_fs :=
  {| nf_wal := nf_wal self; nf_mem := nf_mem self; nf_disk_monitor := m;
     nf_cloud_downloader := nf_cloud_downloader self; nf_cache := nf_cache self;
     nf_settings := nf_settings self; nf_workers := nf_workers self; nf_spawned := nf_spawned self |}.

Definition with_workers (self : norm_fs) (run : bool) (spawned : list old_files_task) : norm_fs :=
  {| nf_wal := nf_wal self; nf_mem := nf_mem self; nf_disk_monitor := nf_disk_monitor self;
     nf_cloud_downloader := nf_cloud_downloader self; nf_cache := nf_cache self;
     nf_settings := nf_settings self; nf_workers := run; nf_spawned := spawned |}.

Definition nf_store (self : norm_fs) : store_state := ww_store (nf_wal self).

(** [NormFS::new]: [client] is the S3 client with its prefix, when there are
    settings and it could be made; [stuck]: temporary files that stay. *)
Definition normfs_new (env : store_env) (settings : normfs_settings)
    (client : option (s3_bucket * str)) (instance_id : str) (st : store_state)
    (stuck : str -> bool) : norm_fs :=
  let full_cloud_prefix := option_map (fun '(_, prefix) =>
    if bool_decide (prefix = []) then instance_id else prefix ++ slash :: instance_id) client in
  {| nf_wal := {| ww_store := store_recover (store_new st) stuck; ww_writers := ∅; ww_acks := [];
                  ww_complete := [] |};
     nf_mem := mem_store_new (ns_max_memory_usage settings);
     nf_disk_monitor :=
       match ns_max_disk_usage_per_queue settings with
       | Some _ => Some (disk_monitor_new (se_root env) full_cloud_prefix)
       | None => None
       end;
     nf_cloud_downloader :=
       option_map (fun '(bucket, prefix) => cloud_downloader_new bucket prefix) client;
     nf_cache := ∅; nf_settings := settings; nf_workers := true; nf_spawned := [] |}.

(** What the machine answers while a queue starts: file creations and write
    attempts of the writer, files that cannot be removed, the ids the upload
    task finds; and the fuel of the loops. *)
Record machine := {
  mc_create : list bool;
  mc_io : list attempt;
  mc_stuck : str -> bool;
  mc_upload : list uintn;
  mc_fuel : nat;
}.

Section Operations.
Context (env : store_env).

Definition queue_wal_settings (self : norm_fs) (q : queue_id) : wal_settings :=
  let queue_config := get_config (ns_queue_settings (nf_settings self)) (qid_path q) in
  let s := ns_wal_settings (nf_settings self) in
  {| ws_max_file_size := ws_max_file_size s; ws_write_buffer_size := ws_write_buffer_size s;
     ws_enable_fsync := qc_enable_fsync queue_config;
     ws_encryption_type := qc_encryption_type queue_config;
     ws_compression_type := qc_compression_type queue_config |}.

(** The end of [start_queue]: the memory, then the disk monitor. *)
Definition start_memory (m : machine) (self : norm_fs) (q : queue_id) (last_entry_id : option uintn)
    : option (norm_fs * outcome nf_error unit) :=
  let self := with_mem self (ms_start_queue (nf_mem self) q last_entry_id) in
  match nf_disk_monitor self, ns_max_disk_usage_per_queue (nf_settings self) with
  | Some disk_monitor, Some max_size =>
      let config := {| dc_max_size := max_size; dc_check_interval := 10;
                       dc_wal_settings := ns_wal_settings (nf_settings self) |} in
      let st := nf_store self in
      match add_queue (se_io env) (mc_stuck m) (mc_fuel m) disk_monitor q config (st_files st)
              (mc_upload m) with
      | None => None
      | Some (Ok (disk_monitor, files)) =>
          Some (with_monitor (with_store self
                  {| st_files := files; st_tmp := st_tmp st; st_ranges := st_ranges st;
                     st_done := st_done st |}) (Some disk_monitor), Ok tt)
      | Some (Err e) => Some (self, Err e)
      | Some Panic => Some (self, Panic)
      end
  | _, _ => Some (self, Ok tt)
  end.

(** [start_queue] ([None]: the fuel is not enough). *)
Definition start_queue (m : machine) (self : norm_fs) (q : queue_id) (readonly : bool)
    : option (norm_fs * outcome nf_error unit) :=
  match continue_queue env (mc_fuel m) (nf_store self) q with
  | None => None
  | Some (st, Ok (file_id, header, last_entry_id)) =>
      let self := with_store self st in
      if (readonly : bool) then start_memory m self q last_entry_id
      else
        let wal_settings := queue_wal_settings self q in
        match ws_start_writer env (nf_wal self) q file_id header wal_settings last_entry_id
                (mc_create m) (mc_io m) with
        | (w, Ok _) =>
            let task := {| ot_queue := q; ot_file_id := file_id;
                           ot_compression := ws_compression_type wal_settings;
                           ot_encryption := ws_encryption_type wal_settings |} in
            let self := with_workers (with_wal self w) (nf_workers self) (nf_spawned self ++ [task]) in
            start_memory m self q last_entry_id
        | (w, Err e) => Some (with_wal self w, Err (EWal e))
        | (w, Panic) => Some (with_wal self w, Panic)
        end
  | Some (st, Err e) => Some (with_store self st, Err e)
  | Some (st, Panic) => Some (with_store self st, Panic)
  end.

(** Both run under the lock of the queue. *)
Definition ensure_queue_exists_for_read (m : machine) (self : norm_fs) (q : queue_id)
    : option (norm_fs * outcome nf_error unit) :=
  match ms_get_last_id (nf_mem self) q with
  | Some _ => Some (self, Ok tt)
  | None => start_queue m self q true
  end.

Definition ensure_queue_exists_for_write (m : machine) (self : norm_fs) (q : queue_id)
    : option (norm_fs * outcome nf_error unit) :=
  let queue_exists := bool_decide (is_Some (ms_get_last_id (nf_mem self) q)) in
  let has_writer := ws_has_writer (nf_wal self) q in
  if queue_exists && has_writer then Some (self, Ok tt) else start_queue m self q false.

(** [enqueue] and [enqueue_batch] in two steps, since callers run concurrently: the memory numbers
    the entry, then the writer gets it. *)
Definition enqueue_number (self : norm_fs) (q : queue_id) (data : bytes)
    : norm_fs * outcome nf_error uintn :=
  match ms_enqueue (nf_mem self) q data with
  | Ok (mem, entry_id) => (with_mem self mem, Ok entry_id)
  | _ => (self, Panic)
  end.

Definition enqueue_send (self : norm_fs) (q : queue_id) (entry_id : uintn) (data : bytes)
    : norm_fs * outcome nf_error uintn :=
  match ws_enqueue (nf_wal self) q entry_id data with
  | (w, Ok _) => (with_wal self w, Ok entry_id)
  | (w, Err e) => (with_wal self w, Err (EWal e))
  | (w, Panic) => (with_wal self w, Panic)
  end.

Definition enqueue (self : norm_fs) (q : queue_id) (data : bytes)
    : norm_fs * outcome nf_error uintn :=
  match enqueue_number self q data with
  | (self, Ok entry_id) => enqueue_send self q entry_id data
  | r => r
  end.

Definition batch_number (self : norm_fs) (q : queue_id) (data : list bytes)
    : norm_fs * outcome nf_error (list uintn) :=
  match ms_enqueue_batch (nf_mem self) q data with
  | Ok (mem, entry_ids) => (with_mem self mem, Ok entry_ids)
  | _ => (self, Panic)
  end.

Definition batch_send (self : norm_fs) (q : queue_id) (entry_ids : list uintn) (data : list bytes)
    : norm_fs * outcome nf_error (list uintn) :=
  match ws_enqueue_batch (nf_wal self) q (combine entry_ids data) with
  | (w, Ok _) => (with_wal self w, Ok entry_ids)
  | (w, Err e) => (with_wal self w, Err (EWal e))
  | (w, Panic) => (with_wal self w, Panic)
  end.

Definition enqueue_batch (self : norm_fs) (q : queue_id) (data : list bytes)
    : norm_fs * outcome nf_error (list uintn) :=
  match data with
  | [] => (self, Ok [])
  | _ =>
      match batch_number self q data with
      | (self, Ok entry_ids) => batch_send self q entry_ids data
      | r => r
      end
  end.

Definition get_last_id (self : norm_fs) (q : queue_id) : outcome nf_error uintn :=
  match ms_get_last_id (nf_mem self) q with
  | Some (Some id) => Ok id
  | Some None => Err EQueueEmpty
  | None => Err EQueueNotFound
  end.

Definition subscribe (self : norm_fs) (q : queue_id) (answers : list bool)
    : norm_fs * outcome nf_error nat :=
  match ms_subscribe (nf_mem self) q answers with
  | (mem, Some id) => (with_mem self mem, Ok id)
  | (mem, None) => (with_mem self mem, Err EQueueNotFound)
  end.

Definition unsubscribe (self : norm_fs) (q : queue_id) (subscriber_id : nat) : norm_fs :=
  with_mem self (ms_unsubscribe (nf_mem self) q subscriber_id).

(** [read], on a channel. *)
Definition read (search_fuel fuel : nat) (self : norm_fs) (q : queue_id) (position : read_position)
    (limit step : Z) (ch : channel)
    : option (norm_fs * channel * outcome nf_error bool) :=
  let w := {| fw_lk := {| lk_store := nf_store self; lk_cache := nf_cache self |};
              fw_mem := nf_mem self; fw_chan := ch |} in
  match fsm_read env (nf_cloud_downloader self) search_fuel fuel w q position limit step with
  | None => None
  | Some (w, r) =>
      let self := with_mem (with_store self (lk_store (fw_lk w))) (fw_mem w) in
      Some ({| nf_wal := nf_wal self; nf_mem := nf_mem self;
               nf_disk_monitor := nf_disk_monitor self;
               nf_cloud_downloader := nf_cloud_downloader self; nf_cache := lk_cache (fw_lk w);
               nf_settings := nf_settings self; nf_workers := nf_workers self;
               nf_spawned := nf_spawned self |}, fw_chan w, r)
  end.

(** [close]: the store workers first, then the writers. *)
Definition close (self : norm_fs) : norm_fs * outcome nf_error unit :=
  let self := with_workers self false (nf_spawned self) in
  let '(w, r) := ws_close (nf_wal self) in
  (with_wal self w, map_err EWal r).

(** ** The tasks *)

(** The task that forwards acknowledgements: the next one. *)
Definition ack_turn (self : norm_fs) : norm_fs :=
  match ww_acks (nf_wal self) with
  | [] => self
  | (q, id) :: acks =>
      let w := nf_wal self in
      with_mem (with_wal self {| ww_store := ww_store w; ww_writers := ww_writers w;
                                 ww_acks := acks; ww_complete := ww_complete w |})
        (ms_ack (nf_mem self) q id)
  end.

(** A store worker takes the next complete file ([None]: it died). *)
Definition store_turn (fault : store_fault) (uuid : str) (self : norm_fs) : option norm_fs :=
  match ww_complete (nf_wal self) with
  | wal_file :: complete =>
      if nf_workers self then
        let w := nf_wal self in
        match process_entry env (ww_store w) fault uuid wal_file with
        | Some st =>
            Some (with_wal self {| ww_store := st; ww_writers := ww_writers w;
                                   ww_acks := ww_acks w; ww_complete := complete |})
        | None => None
        end
      else Some self
  | [] => Some self
  end.

(** The task that forwards stored files to the disk monitor. *)
Definition done_turn (self : norm_fs) : norm_fs :=
  let st := nf_store self in
  match st_done st with
  | [] => self
  | (q, file_id) :: done =>
      let self := with_store self {| st_files := st_files st; st_tmp := st_tmp st;
                                     st_ranges := st_ranges st; st_done := done |} in
      match nf_disk_monitor self with
      | Some monitor => with_monitor self (Some (fst (enqueue_for_offload monitor q file_id)))
      | None => self
      end
  end.

(** A tick of the disk monitor ([None]: it died, or a loop of more than [fuel]
    turns). *)
Definition monitor_turn (fuel : nat) (stuck : str -> bool) (self : norm_fs) : option norm_fs :=
  match nf_disk_monitor self with
  | None => Some self
  | Some monitor =>
      let st := nf_store self in
      match tick (se_io env) stuck fuel monitor (st_files st) with
      | Some (Ok files) =>
          Some (with_store self {| st_files := files; st_tmp := st_tmp st;
                                   st_ranges := st_ranges st; st_done := st_done st |})
      | _ => None
      end
  end.

(** The next spawned task. *)
Definition old_files_turn (self : norm_fs) : norm_fs :=
  match nf_spawned self with
  | [] => self
  | t :: spawned =>
      with_workers (with_wal self (ws_process_old_files env (nf_wal self) (ot_queue t) (ot_file_id t)
        (ot_compression t) (ot_encryption t))) (nf_workers self) spawned
  end.

(** A turn of the writer of a queue. *)
Definition writer_turn (self : norm_fs) (q : queue_id) : norm_fs :=
  with_wal self (task_turn (nf_wal self) q).

(** A step of the task that writes the open file of a queue. *)
Definition flush_turn (self : norm_fs) (q : queue_id) (ev : afw_event) : norm_fs :=
  with_wal self (flush_task (nf_wal self) q ev).

End Operations.
End Facade.
