(* ===== verification/NormFsFacts.v ===== *)
(** * Theory of the facade

    Recovery finds the end of the queue that the files hold; what a process
    wrote and closed is what the next one reads; concurrent callers get
    consecutive ids. *)
From Stdlib Require Import ZArith Lia List Bool Sorted Permutation.
From Stdlib Require Import Ascii String.
From stdpp Require Import base option list gmap strings.
From S2P Require Import Prelude UBig UintN UintNFacts Paths PathsFacts PathsSearch FileTree Types.
From S2P Require Import WalFormat WalReader WalReaderFacts WalReaderTotal OrderedBuffer AckWriter.
From S2P Require Import WalWriter WalWriterFacts Crypto StoreFormat Store StoreFacts WalStore.
From S2P Require Import Cloud Lookup LookupFacts QueueLayout WalLayout Mem MemFacts ReaderFsm.
From S2P Require Import ReaderFsmFacts DiskMonitor NormFs.
#[local] Open Scope Z_scope.

Section Recovery.
Context {B : Build} {U : UBig} {H : HexCrate} {X : Hasher} {C : CryptoLib} {Z' : CompressLib}.
Context (env : store_env) (q : queue_id) (lo base : Z) (fs : list qfile).

(** Opening a store file for its header is opening it for its content. *)
Lemma extract_header_eq f c verify : extract_wal_header env q f c verify =
  (b ← extract_wal_bytes env q f c verify; map_err SWalHeaderError (get_wal_header b)).
Proof.
  unfold extract_wal_header, extract_wal_bytes.
  repeat match goal with
  | |- (x ← ?m; _) = _ => destruct m as [?| |]; ok_step; try done
  | x : _ * _ |- _ => destruct x
  end.
Qed.

(** ** The files of the queue *)

Section Files.
Context (files : gmap str bytes).

(** A file in the store is not in the WAL, or with the same content. *)
Definition twins : Prop := forall i f, fs !! i = Some f ->
  let p := wal_path env q (uid (lo + Z.of_nat i)) in
  files !! p = None \/ files !! p = Some (qf_bytes f).

(** The layout, with nothing known of files that are not there. *)
Record queue_found (st : store_state) : Prop := {
  qf_layout : queue_layout env q lo base fs st;
  qf_files : st_files st = files;
  qf_absent : no_strays q lo fs st;
}.

Hypothesis Htwins : twins.

(** The end of a file in the WAL. *)
Lemma wal_end_file st i f : queue_found st -> fs !! i = Some f ->
  let x := uid (lo + Z.of_nat i) in
  (st_files st !! wal_path env q x = None /\ ws_get_file_end env st q x = Ok None /\
   ws_get_file_header env st q x = Ok None) \/
  (ws_get_file_end env st q x = Ok (last (map fst (qf_entries f))) /\
   ws_get_file_header env st q x = Ok (Some (qf_header f))).
Proof.
  intros [Hl Hf _] Hi x. destruct (ql_file_io _ _ _ _ _ _ Hl x) as [Hio _].
  pose proof (ql_ok _ _ _ _ _ _ Hl i f Hi) as Hok.
  assert (forall r, ws_disk env st (wal_file_path (queue_to_wal_dir q (se_root env)) x) = r ->
    (st_files st !! wal_path env q x = None -> r = OpenNotFound)) as Hdisk.
  { intros r <- Hn. unfold ws_disk, disk_of, wal_file_path. fold (queue_to_wal_path q (se_root env) x).
    fold (wal_path env q x). by rewrite Hio, Hn. }
  specialize (Htwins i f Hi). cbn zeta in Htwins. fold x in Htwins. rewrite <- Hf in Htwins.
  destruct Htwins as [Hn|Hs].
  - left. specialize (Hdisk _ eq_refl Hn).
    unfold ws_get_file_end, ws_get_file_header, get_wal_range, read_wal_header, open_wal.
    rewrite Hdisk. done.
  - right. pose proof (wal_disk_file env q st x _ f Hok Hio Hs) as Hd. destruct Hok.
    split.
    + unfold ws_get_file_end, qf_bytes in *.
      rewrite (get_wal_range_file _ _ _ None) by done.
      destruct (map fst (qf_entries f)) as [|x0 xs]; [done|]. cbn [head].
      by destruct (last (x0 :: xs)).
    + unfold ws_get_file_header. by erewrite read_wal_header_file by (done || exact Hd).
Qed.

(** The last entry of a file. *)
Lemma last_entry_id start f e : qfile_ok start f -> last (map fst (qf_entries f)) = Some e ->
  uintn_canonical e /\ uintn_val e = start + zlen (qf_entries f) - 1 /\ qf_entries f <> [].
Proof.
  intros Hok He. rewrite last_lookup, list_lookup_fmap, length_map in He.
  destruct (qf_entries f !! pred (length (qf_entries f))) as [x|] eqn:E; [|done].
  injection He as <-. split.
  - pose proof (Forall_lookup_1 _ _ _ _ (qo_fits _ _ Hok) E) as Hx. apply Hx.
  - pose proof (consecutive_ids _ _ (qo_ids _ _ Hok) _ _ E) as ->. apply lookup_lt_Some in E.
    split; [revert E; unfold zlen; destruct (length (qf_entries f)); cbn; lia|]. intros Hn. rewrite Hn in E. cbn in E. lia.
Qed.

(** The end of a file, from both sources. *)
Lemma file_end st i f : queue_found st -> fs !! i = Some f ->
  exists st' o, get_file_end_all_sources env st q (uid (lo + Z.of_nat i)) = (st', Ok o) /\
    queue_found st' /\
    match o with
    | Some e => uintn_canonical e /\ uintn_val e = start_of base fs (S i) - 1 /\ qf_entries f <> []
    | None => qf_entries f = []
    end.
Proof.
  intros Hg Hi. pose proof Hg as [Hl Hf Ha]. rewrite (start_of_S _ _ _ _ Hi).
  pose proof (ql_ok _ _ _ _ _ _ Hl i f Hi) as Hok.
  destruct (file_id env q lo base fs st i f Hl Hi) as (Hc & Hv & Hb).
  destruct (get_file_range_layout env q lo base fs st i f Hl Hi) as (st' & r & Hr & Hl' & Hf' & Hcase).
  assert (queue_found st') as Hg'.
  { split; [done|congruence|]. apply (range_no_strays env q lo fs _ _ _ _ Hr Hc); [lia|done]. }
  unfold get_file_end_all_sources, store_get_file_end. rewrite Hr. cbn [map_err]. ok_step.
  assert (forall wal_end : outcome wal_error (option uintn), wal_end = Ok None \/
      wal_end = Ok (last (map fst (qf_entries f))) ->
    match (if is_panic wal_end || is_panic (Ok (option_map snd r) : outcome store_error _)
           then Panic else Ok (raise_max (raise_max None wal_end)
             (Ok (option_map snd r) : outcome store_error _)) : outcome nf_error (option uintn)) with
    | Ok (Some e) => uintn_canonical e /\
        uintn_val e = start_of base fs i + zlen (qf_entries f) - 1 /\ qf_entries f <> []
    | Ok None => wal_end = Ok (last (map fst (qf_entries f))) /\ r = None \/ r = None
    | _ => False
    end) as Hmax.
  { intros wal_end [-> | ->]; cbn [is_panic orb raise_max].
    - destruct r as [r|]; cbn [option_map]; [|by right]. destruct Hcase as [(_ & ? & _ & ?) ?]. done.
    - destruct (last (map fst (qf_entries f))) as [e|] eqn:El.
      + destruct (last_entry_id _ _ _ Hok El) as (? & ? & ?).
        destruct r as [r|]; cbn [option_map]; [|done].
        destruct Hcase as [(_ & ? & _ & ?) _]. destruct (uintn_ltb e (snd r)); done.
      + destruct r as [r|]; cbn [option_map]; [|by left].
        destruct Hcase as [(_ & ? & _ & ?) ?]. done. }
  destruct (wal_end_file st i f Hg Hi) as [(Hn & Hw & _)|(Hw & _)]; rewrite Hw.
  - specialize (Hmax (Ok None) (or_introl eq_refl)).
    destruct (if _ || _ then Panic else _) as [o| |] eqn:E; [|done|done].
    exists st', o. split; [by rewrite <- E|]. split; [done|]. destruct o as [e|]; [done|].
    destruct r as [r|]; [by destruct Hmax as [[_ ?]|?]|]. destruct Hcase as [Hs _].
    by rewrite Hn in Hs.
  - specialize (Hmax _ (or_intror eq_refl)).
    destruct (if _ || _ then Panic else _) as [o| |] eqn:E; [|done|done].
    exists st', o. split; [by rewrite <- E|]. split; [done|]. destruct o as [e|]; [done|].
    cbn [is_panic orb raise_max] in E. destruct (last (map fst (qf_entries f))) as [e|] eqn:El.
    + destruct r; cbn in E; [|done]. by destruct (uintn_ltb _ _).
    + apply last_None in El. by destruct (qf_entries f).
Qed.

(** A file that is not there has no end. *)
Lemma absent_end st x : queue_found st -> uintn_canonical x ->
  ~ (lo <= uintn_val x < lo + zlen fs) -> get_file_end_all_sources env st q x = (st, Ok None).
Proof.
  intros [Hl _ Ha] Hx Hn. destruct (ql_file_io _ _ _ _ _ _ Hl x) as [Hwio Hsio].
  assert (st_files st !! wal_path env q x = None) as Hw.
  { destruct (st_files st !! wal_path env q x) eqn:E; [|done]. exfalso. apply Hn.
    apply (ql_only _ _ _ _ _ _ Hl x Hx). left. by rewrite E. }
  assert (st_files st !! store_path env q x = None) as Hs.
  { destruct (st_files st !! store_path env q x) eqn:E; [|done]. exfalso. apply Hn.
    apply (ql_only _ _ _ _ _ _ Hl x Hx). right. by rewrite E. }
  assert (ws_get_file_end env st q x = Ok None) as Hwe.
  { unfold ws_get_file_end, get_wal_range, open_wal, ws_disk, disk_of, wal_file_path.
    fold (queue_to_wal_path q (se_root env) x). fold (wal_path env q x). by rewrite Hwio, Hw. }
  unfold get_file_end_all_sources. rewrite Hwe.
  unfold store_get_file_end, get_file_range, get_range. rewrite (Ha x Hx Hn).
  unfold read_range_from_fs. cbn zeta. fold (store_path env q x). by rewrite Hsio, Hs.
Qed.

(** The header of a file with entries. *)
Lemma file_header st i f : queue_found st -> fs !! i = Some f ->
  get_file_header_all_sources env st q (uid (lo + Z.of_nat i)) = Ok (Some (qf_header f)).
Proof.
  intros Hg Hi. pose proof Hg as [Hl Hf Ha]. set (x := uid (lo + Z.of_nat i)).
  destruct (ql_file_io _ _ _ _ _ _ Hl x) as [Hwio Hsio].
  pose proof (ql_ok _ _ _ _ _ _ Hl i f Hi) as Hok.
  assert (is_panic (store_get_file_header env st q x) = false /\
    (st_files st !! wal_path env q x = None ->
     store_get_file_header env st q x = Ok (Some (qf_header f)))) as [Hnp Hst].
  { pose proof (ql_stored _ _ _ _ _ _ Hl i f Hi) as Hst. fold x in Hst.
    unfold store_get_file_header. cbn zeta. fold (store_path env q x).
    destruct Hst as [Hs _ Hw|c r Hs Hx _ _ _ _].
    - rewrite Hs. split; [done|]. by rewrite Hw.
    - assert (store_get_file_header env st q x = Ok (Some (qf_header f))) as E; [|unfold
        store_get_file_header in E; cbn zeta in E; fold (store_path env q x) in E; by rewrite E].
      unfold store_get_file_header. cbn zeta. fold (store_path env q x). rewrite Hs, Hsio.
      rewrite decide_False.
      + rewrite extract_header_eq, Hx. ok_step. unfold get_wal_header, qf_bytes, wal_file.
        rewrite header_from_bytes_encode by apply Hok. done.
      + intros Hlt. specialize (Hx false). unfold extract_wal_bytes, file_auth_from_bytes in Hx.
        rewrite decide_True in Hx by lia. done. }
  unfold get_file_header_all_sources. rewrite Hnp.
  destruct (wal_end_file st i f Hg Hi) as [(Hn & _ & Hw)|(_ & Hw)]; fold x in Hw; rewrite Hw.
  - by rewrite (Hst Hn).
  - done.
Qed.

(** Below the first file with entries, recovery goes back to the file 1 and
    starts afresh. *)
Lemma walk_empty fuel st latest x : queue_found st -> uintn_canonical x -> 1 <= uintn_val x ->
  (forall i f, fs !! i = Some f -> lo + Z.of_nat i <= uintn_val x -> qf_entries f = []) ->
  uintn_val x <= Z.of_nat fuel ->
  exists st', walk_back env fuel st q latest x = Some (st', Ok fresh_queue) /\ queue_found st'.
Proof.
  revert st x. induction fuel as [|fuel IH]; intros st x Hg Hx H1 He Hf; [lia|].
  cbn [walk_back].
  assert (exists st', get_file_end_all_sources env st q x = (st', Ok None) /\ queue_found st')
    as (st' & -> & Hg').
  { destruct (decide (lo <= uintn_val x < lo + zlen fs)) as [Hr|Hr].
    - destruct (file_at env q lo base fs st x (qf_layout _ Hg) Hx Hr) as (i & f & Hi & -> & Hv).
      destruct (file_end st i f Hg Hi) as (st' & o & -> & Hg' & Ho). exists st'.
      destruct o; [|done]. destruct Ho as (_ & _ & Hne). by rewrite (He i f Hi ltac:(lia)) in Hne.
    - exists st. by rewrite absent_end. }
  rewrite eqb_spec_val by (done || eauto with normfs). change (uintn_val uintn_one) with 1.
  destruct (Z.eqb_spec (uintn_val x) 1); [by exists st'|].
  destruct (decrement_canonical x Hx) as (y & -> & Hy & Hyv); [lia|].
  apply IH; [done..|lia| |lia]. intros i f Hi Hle. apply (He i f Hi). lia.
Qed.

(** From a file on, back to the last one with entries. *)
Lemma walk_found fuel st latest i f k : queue_found st -> fs !! i = Some f ->
  qf_entries f <> [] -> (i <= k)%nat -> (k < length fs)%nat -> 1 <= lo ->
  (forall j g, fs !! j = Some g -> (i < j <= k)%nat -> qf_entries g = []) ->
  (k - i < fuel)%nat ->
  exists st' e, walk_back env fuel st q latest (uid (lo + Z.of_nat k)) =
      Some (st', Ok (recovery_decision latest (uid (lo + Z.of_nat i)) e (qf_header f))) /\
    queue_found st' /\ uintn_canonical e /\ uintn_val e = start_of base fs (S i) - 1.
Proof.
  intros Hg Hi Hne Hik Hk Hlo He Hf.
  revert st k Hg Hik Hk He Hf. induction fuel as [|fuel IH]; intros st k Hg Hik Hk He Hf; [lia|].
  cbn [walk_back]. destruct (lookup_lt_is_Some_2 fs k Hk) as [g Hgk].
  destruct (file_end st k g Hg Hgk) as (st' & o & -> & Hg' & Ho).
  destruct (decide (i = k)) as [<-|Hne'].
  - assert (g = f) as -> by congruence. destruct o as [e|]; [|done]. destruct Ho as (He1 & He2 & _).
    exists st', e. split; [|done]. rewrite (file_header st' i f) by done. done.
  - destruct o as [e|].
    { destruct Ho as (_ & _ & Hg0). by rewrite (He k g Hgk) in Hg0 by lia. }
    destruct (file_id env q lo base fs st k g (qf_layout _ Hg) Hgk) as (Hc & Hv & _).
    rewrite eqb_spec_val by (done || eauto with normfs). change (uintn_val uintn_one) with 1.
    destruct (Z.eqb_spec (uintn_val (uid (lo + Z.of_nat k))) 1); [lia|].
    destruct (decrement_canonical _ Hc) as (y & -> & Hy & Hyv); [lia|].
    destruct (lookup_lt_is_Some_2 fs (k - 1)) as [g' Hg1]; [lia|].
    destruct (file_id env q lo base fs st (k - 1) g' (qf_layout _ Hg) Hg1) as (Hc' & Hv' & _).
    assert (y = uid (lo + Z.of_nat (k - 1))) as -> by (apply canonical_inj; [done..|lia]).
    apply IH; [done|lia|lia| |lia]. intros j h Hj Hjk. apply (He j h Hj). lia.
Qed.

(** The latest file. *)
Lemma latest_file st : queue_found st ->
  get_latest_file env st q = Ok (Some (uid (lo + zlen fs - 1))).
Proof.
  intros [Hl _ _]. destruct (ql_io _ _ _ _ _ _ Hl) as [Hwio Hsio].
  pose proof (ql_wal_dir _ _ _ _ _ _ Hl) as Hwd. pose proof (ql_store_dir _ _ _ _ _ _ Hl) as Hsd.
  assert (forall path, path = wal_path env q \/ path = store_path env q -> forall x, uintn_canonical x ->
    is_Some (st_files st !! path x) -> uintn_val x < 2 ^ 24) as Hsmall.
  { intros path Hp x Hx Hf. pose proof (ql_only _ _ _ _ _ _ Hl x Hx) as Ho.
    pose proof (ql_hi _ _ _ _ _ _ Hl). destruct Hp as [-> | ->]; destruct Ho; tauto || lia. }
  assert (forall {E} (err : path_error -> E) path dir ext r,
    (forall x, path x = uintn_to_file_path x dir ext) ->
    (forall x, uintn_canonical x -> is_Some (st_files st !! path x) -> uintn_val x < 2 ^ 24) ->
    search_answer dir ext (st_files st) Z.le r ->
    exists a, map_err err r = match a with Some id => Ok id | None => Err (err PNoFilesFound) end /\
      dir_answer Z.le path st a) as Hans.
  { intros E err path dir ext r Hp Hs Ha.
    destruct (dir_answer_of err Z.le path dir ext st r Hp Hs Ha) as (a & Hn & Hd). exists a.
    split; [|done]. destruct r as [id|[]|]; cbn in *; simplify_eq; done. }
  destruct (Hans _ SPath (store_path env q) _ _ _ ltac:(done) (Hsmall _ (or_intror eq_refl))
    (find_max_dir _ _ _ store_ext Hsd)) as (a & Ha & Hda).
  destruct (Hans _ WPathError (wal_path env q) _ _ _ ltac:(done) (Hsmall _ (or_introl eq_refl))
    (find_max_dir _ _ _ wal_ext Hwd)) as (b & Hb & Hdb).
  unfold get_latest_file, ps_find_last_file_id, ws_find_last_file_id. cbn zeta.
  rewrite Hwio, Hsio, Ha, Hb.
  assert (forall m, one_of a b m -> uintn_canonical m) as Hcan
    by (intros m; by apply (dir_canonical env q Z.le a b st)).
  pose proof (ql_some _ _ _ _ _ _ Hl) as Hne.
  assert (1 <= length fs)%nat by (destruct fs; [done|simpl; lia]).
  destruct (lookup_lt_is_Some_2 fs (length fs - 1)) as [f Hf]; [lia|].
  replace (lo + zlen fs - 1) with (lo + Z.of_nat (length fs - 1)) by (unfold zlen; lia).
  assert (forall r, match r with
      | Some r => one_of a b r /\ forall m, one_of a b m -> uintn_val m <= uintn_val r
      | None => a = None /\ b = None end -> r = Some (uid (lo + Z.of_nat (length fs - 1)))) as Hex.
  { intros r Hr. apply (extreme_of env q lo base fs Z.le st a b r (length fs - 1) f); try done;
      [intros; lia|unfold zlen; intros; lia]. }
  unfold one_of in *.
  destruct a as [x|], b as [y|]; cbn [is_panic orb mbind outcome_bind raise_max]; f_equal; apply Hex.
  - rewrite ltb_spec_val by (apply ok_wf, canonical_ok, Hcan; auto).
    destruct (Z.ltb_spec (uintn_val y) (uintn_val x)); (split; [auto|]);
      intros m [[= <-]|[= <-]]; lia.
  - split; [auto|]. intros m [[= <-]|[=]]. lia.
  - split; [auto|]. intros m [[=]|[= <-]]. lia.
  - done.
Qed.

(** Recovery of a queue whose last entries are in the file [i]. *)
Lemma continue_found fuel st i f : queue_found st -> fs !! i = Some f -> qf_entries f <> [] ->
  (forall j g, fs !! j = Some g -> (i < j)%nat -> qf_entries g = []) -> 1 <= lo ->
  zlen fs <= Z.of_nat fuel ->
  exists st' e, continue_queue env fuel st q =
      Some (st', Ok (if decide (S i = length fs) then uid (lo + zlen fs) else uid (lo + zlen fs - 1),
        {| data_size_bytes := data_size_bytes (qf_header f);
           id_size_bytes := id_size_bytes (qf_header f);
           num_entries_before := uintn_increment e |}, Some e)) /\
    queue_found st' /\ uintn_canonical e /\ uintn_val e = base + zlen (all_entries fs) - 1.
Proof.
  intros Hg Hi Hne He Hlo Hf. unfold continue_queue. rewrite latest_file by done.
  pose proof (lookup_lt_Some _ _ _ Hi) as Hlt.
  replace (lo + zlen fs - 1) with (lo + Z.of_nat (length fs - 1)) by (unfold zlen; lia).
  destruct (walk_found fuel st (uid (lo + Z.of_nat (length fs - 1))) i f (length fs - 1) Hg Hi Hne)
    as (st' & e & -> & Hg' & Heo & Hev); [lia|lia|done| |unfold zlen in Hf; lia|].
  { intros j g Hj Hij. apply (He j g Hj). lia. }
  exists st', e. split; [|split; [done|]].
  - unfold recovery_decision.
    destruct (file_id env q lo base fs st i f (qf_layout _ Hg) Hi) as (Hc & Hv & _).
    destruct (lookup_lt_is_Some_2 fs (length fs - 1)) as [g Hgl]; [lia|].
    destruct (file_id env q lo base fs st (length fs - 1) g (qf_layout _ Hg) Hgl) as (Hc' & Hv' & _).
    rewrite eqb_spec_val by eauto with normfs. rewrite Hv, Hv'.
    destruct (Z.eqb_spec (lo + Z.of_nat i) (lo + Z.of_nat (length fs - 1))) as [E|E].
    + rewrite decide_True by lia. do 5 f_equal.
      pose proof (ql_lo _ _ _ _ _ _ (qf_layout _ Hg)). pose proof (ql_hi _ _ _ _ _ _ (qf_layout _ Hg)).
      destruct (increment_spec _ (canonical_ok _ Hc')) as [_ Hiv].
      destruct (uid_spec (lo + zlen fs)) as [Hcn Hvn]; [pose proof (zlen_nonneg fs); lia|].
      apply canonical_inj; [by apply increment_canonical|done|unfold zlen in *; lia].
    + rewrite decide_False by lia. done.
  - split; [done|]. rewrite Hev. unfold start_of.
    assert (zlen (concat (map qf_entries (drop (S i) fs))) = 0) as Hz.
    { assert (forall l, (forall g, In g l -> qf_entries g = []) ->
        concat (map qf_entries l) = []) as Hnil.
      { induction l as [|g l IH]; intros Hall; [done|]. cbn. rewrite (Hall g), IH; [done| |by left].
        intros g' Hin. apply Hall. by right. }
      rewrite Hnil; [done|]. intros g Hin. apply list_elem_of_In, list_elem_of_lookup in Hin as [j Hj].
      rewrite lookup_drop in Hj. apply (He _ g Hj). lia. }
    unfold all_entries. rewrite <- (take_drop (S i) fs) at 2.
    rewrite map_app, concat_app, zlen_app. lia.
Qed.

(** Recovery of a queue without entries. *)
Lemma continue_empty fuel st : queue_found st -> Forall (fun f => qf_entries f = []) fs -> 1 <= lo ->
  lo + zlen fs <= Z.of_nat fuel ->
  exists st', continue_queue env fuel st q = Some (st', Ok fresh_queue) /\ queue_found st'.
Proof.
  intros Hg He Hlo Hf. unfold continue_queue. rewrite latest_file by done.
  pose proof (ql_some _ _ _ _ _ _ (qf_layout _ Hg)) as Hne.
  assert (1 <= zlen fs) by (destruct fs as [|f l]; [done|]; rewrite zlen_cons;
    pose proof (zlen_nonneg l); lia).
  pose proof (ql_hi _ _ _ _ _ _ (qf_layout _ Hg)).
  destruct (uid_spec (lo + zlen fs - 1)) as [Hc Hv]; [lia|].
  destruct (walk_empty fuel st (uid (lo + zlen fs - 1)) (uid (lo + zlen fs - 1)) Hg Hc)
    as (st' & -> & ?); [lia| |lia|by exists st'].
  intros i f Hi _. by apply (Forall_lookup_1 _ _ _ _ He Hi).
Qed.

End Files.
End Recovery.
