(* ===== verification/Startup.v ===== *)
(** * Starting a process ([normfs/src/lib.rs], [NormFS::new];
      [normfs/src/bin/normfs-server.rs])

    From a data directory and settings to the running system: the seed, the
    instance, the paths of its queues, the client of the cloud; and the program
    that makes the settings from its command line. *)
From Stdlib Require Import ZArith Lia List Bool.
From Stdlib Require Import Ascii String.
From stdpp Require Import base option list gmap strings.
From S2P Require Import Prelude UBig UintN UintNFacts Paths PathsFacts FileTree Types.
From S2P Require Import WalFormat WalReader OrderedBuffer AckWriter WalWriter.
From S2P Require Import Crypto Seed StoreFormat Store WalStore Cloud Mem ReaderFsm DiskMonitor NormFs.
#[local] Open Scope Z_scope.

(** [struct CloudSettings] *)
Record cloud_settings := {
  cs_endpoint : str;
  cs_bucket : str;
  cs_region : str;
  cs_access_key : str;
  cs_secret_key : str;
  cs_prefix : str;
}.

(** The crates [url], [rusty_s3] and [reqwest], as far as a client is made: the
    parser of URLs, which knows no URL without a scheme, and the constructors. *)
Class ClientCrates `{S3 : S3Http} := {
  url : Type;
  url_parse : str -> option url;
  url_parse_empty : url_parse [] = None;
  bucket_new : url -> str -> str -> option s3_bucket;
  http_client_builds : bool;
}.

Section Start.
Context {B : Build} {U : UBig} {H : HexCrate} {X : Hasher} {S0 : UnstableSort}.
Context {C : CryptoLib} {Z' : CompressLib} {S3 : S3Http} {G : GlobCrate} {K : ClientCrates}.

(** [S3Client::new]; the credentials are part of the requests. *)
Definition s3_client_new (endpoint : url) (bucket_name region : str) : option s3_bucket :=
  b ← bucket_new endpoint bucket_name region;
  if http_client_builds then Some b else None.

Inductive create_error :=
| CeCrypto (e : seed_error)
| CeInvalidUrl.

Definition data_env (root : str) (verify : bool) (io : str -> bool) (ctx : crypto_context) : store_env :=
  {| se_root := root; se_crypto := ctx; se_verify := verify; se_io := io |}.

Definition with_files (st : store_state) (files : gmap str bytes) : store_state :=
  {| st_files := files; st_tmp := st_tmp st; st_ranges := st_ranges st; st_done := st_done st |}.

(** The client that [NormFS::new] makes: none without settings; a bad URL is an
    error, a client that cannot be made is only logged. *)
Definition create_client (cloud : option cloud_settings)
    : outcome create_error (option (s3_bucket * str)) :=
  match cloud with
  | None => Ok None
  | Some cs =>
      match url_parse (cs_endpoint cs) with
      | None => Err CeInvalidUrl
      | Some endpoint =>
          Ok (option_map (fun client => (client, cs_prefix cs))
                (s3_client_new endpoint (cs_bucket cs) (cs_region cs)))
      end
  end.

(** [NormFS::new] on a data directory: the seed first, then the recovery of the
    store, then the client.  On an error the directory keeps what was done. *)
Definition normfs_create (root : str) (verify : bool) (io : str -> bool) (seed : seed_io)
    (settings : normfs_settings) (cloud : option cloud_settings) (st : store_state) (stuck : str -> bool)
    : store_state * outcome create_error (store_env * queue_id_resolver * norm_fs) :=
  match crypto_context_open seed (st_files st) root with
  | (files, Ok ctx) =>
      let st := with_files st files in
      let env := data_env root verify io ctx in
      let resolver := {| instance_id := instance_id_hex ctx |} in
      match create_client cloud with
      | Ok client =>
          let self := normfs_new env settings client (instance_id_hex ctx) st stuck in
          (nf_store self, Ok (env, resolver, self))
      | Err e => (store_recover (store_new st) stuck, Err e)
      | Panic => (st, Panic)
      end
  | (files, Err e) => (with_files st files, Err (CeCrypto e))
  | (files, Panic) => (with_files st files, Panic)
  end.

(** ** [normfs-server] *)

(** [struct Args]: the options of the command line, some from environment
    variables. *)
Record args := {
  ar_addr : str;
  ar_data_dir : str;
  ar_max_queue_disk_size : Z;
  ar_s3_bucket : option str;
  ar_s3_region : option str;
  ar_s3_endpoint : option str;
  ar_s3_access_key : option str;
  ar_s3_secret_key : option str;
  ar_s3_session_token : option str;
}.

(** Without any option. *)
Definition args_default : args :=
  {| ar_addr := s2l "0.0.0.0:8888"; ar_data_dir := s2l "./normfs_data";
     ar_max_queue_disk_size := 34359738368;
     ar_s3_bucket := None; ar_s3_region := None; ar_s3_endpoint := None;
     ar_s3_access_key := None; ar_s3_secret_key := None; ar_s3_session_token := None |}.

Definition normfs_settings_default : normfs_settings :=
  {| ns_max_memory_usage := 256 * 1024 * 1024; ns_wal_settings := wal_settings_default;
     ns_max_disk_usage_per_queue := None;
     ns_queue_settings := {| qs_rules := []; qs_default_config := queue_config_default |} |}.

Inductive main_error :=
| MeLimits
| MeDataDir
| MeRegion
| MeAccessKey
| MeSecretKey
| MeCreate (e : create_error)
| MeAddress
| MeBind.

(** The settings of the node, and of the cloud when a bucket is named. *)
Definition server_settings (a : args)
    : outcome main_error (normfs_settings * option cloud_settings) :=
  let settings :=
    {| ns_max_memory_usage := ns_max_memory_usage normfs_settings_default;
       ns_wal_settings := ns_wal_settings normfs_settings_default;
       ns_max_disk_usage_per_queue := Some (ar_max_queue_disk_size a);
       ns_queue_settings := ns_queue_settings normfs_settings_default |} in
  match ar_s3_bucket a with
  | None => Ok (settings, None)
  | Some bucket =>
      match ar_s3_region a with
      | None => Err MeRegion
      | Some region =>
          match ar_s3_access_key a with
          | None => Err MeAccessKey
          | Some access_key =>
              match ar_s3_secret_key a with
              | None => Err MeSecretKey
              | Some secret_key =>
                  Ok (settings,
                      Some {| cs_endpoint := default [] (ar_s3_endpoint a); cs_bucket := bucket;
                              cs_region := region; cs_access_key := access_key;
                              cs_secret_key := secret_key; cs_prefix := [] |})
              end
          end
      end
  end.

(** What the system answers to the program: the limits can be set, the data
    directory made, the address bound; and the parser of addresses. *)
Record host := {
  ho_limits : bool;
  ho_data_dir : bool;
  ho_bind : str -> bool;
  ho_parses : str -> bool;
  ho_seed : seed_io;
  ho_io : str -> bool;
  ho_stuck : str -> bool;
}.

(** An address, or a port alone. *)
Definition server_address (ho : host) (a : args) : outcome main_error str :=
  if ho_parses ho (ar_addr a) then Ok (ar_addr a)
  else let port := s2l "0.0.0.0:" ++ ar_addr a in
       if ho_parses ho port then Ok port else Err MeAddress.

(** [main], to the loop that accepts connections.  The store does not check
    signatures: the default of [StoreWriteConfig]. *)
Definition server_main (ho : host) (a : args) (st : store_state)
    : store_state * outcome main_error (store_env * queue_id_resolver * norm_fs) :=
  if negb (ho_limits ho) then (st, Err MeLimits)
  else if negb (ho_data_dir ho) then (st, Err MeDataDir)
  else match server_settings a with
  | Ok (settings, cloud) =>
      match normfs_create (ar_data_dir a) false (ho_io ho) (ho_seed ho) settings cloud st (ho_stuck ho) with
      | (st, Ok (env, resolver, self)) =>
          match server_address ho a with
          | Ok addr => (st, if ho_bind ho addr then Ok (env, resolver, self) else Err MeBind)
          | Err e => (st, Err e)
          | Panic => (st, Panic)
          end
      | (st, Err e) => (st, Err (MeCreate e))
      | (st, Panic) => (st, Panic)
      end
  | Err e => (st, Err e)
  | Panic => (st, Panic)
  end.

End Start.
