(* ===== verification/LiveLayout.v ===== *)
(** * The disk of a queue while its writer runs

    [on_disk] describes the files of a queue: consecutive ids, the first [sealed]
    of them possibly moved to the store, the others in the WAL.  Writing the
    last file again and adding files behind it keeps this form. *)
From Stdlib Require Import ZArith Lia List Bool Sorted Permutation.
From Stdlib Require Import Ascii String.
From stdpp Require Import base option list gmap strings.
From S2P Require Import Prelude UBig UintN UintNFacts Paths PathsFacts PathsSearch FileTree Types.
From S2P Require Import WalFormat WalReader WalReaderFacts WalReaderTotal OrderedBuffer AckWriter.
From S2P Require Import WalWriter WalWriterFacts Crypto StoreFormat Store StoreFacts WalStore.
From S2P Require Import Cloud Lookup LookupFacts QueueLayout WalLayout Mem MemFacts ReaderFsm.
From S2P Require Import ReaderFsmFacts DiskMonitor NormFs NormFsFacts.
#[local] Open Scope Z_scope.

(** Writing a list of files. *)
Lemma put_files_in (m : gmap str bytes) l p c : NoDup (map fst l) -> In (p, c) l ->
  put_files m l !! p = Some c.
Proof.
  unfold put_files. revert m. induction l as [|[p' c'] l IH]; intros m Hnd Hin; [done|].
  cbn [map fst] in Hnd. apply NoDup_cons in Hnd as [Hni Hnd]. cbn [fold_left fst snd].
  destruct Hin as [[= -> ->]|Hin]; [|by apply IH].
  clear IH Hnd. revert m. induction l as [|[p' c'] l IH]; intros m; cbn [fold_left fst snd map] in *.
  - apply lookup_insert_eq.
  - apply not_elem_of_cons in Hni as [Hne Hni]. rewrite insert_insert_ne by done. by apply IH.
Qed.

Lemma put_files_out (m : gmap str bytes) l p : ~ In p (map fst l) -> put_files m l !! p = m !! p.
Proof.
  unfold put_files. revert m. induction l as [|[p' c'] l IH]; intros m Hni; [done|].
  cbn [map fst In] in Hni. cbn [fold_left fst snd]. rewrite IH by tauto.
  apply lookup_insert_ne. tauto.
Qed.

Section OnDisk.
Context {B : Build} {U : UBig} {H : HexCrate} {X : Hasher} {C : CryptoLib} {Z' : CompressLib}.
Context {S3 : S3Http}.
Context (env : store_env) (q : queue_id) (lo base : Z).
(** The files of the disk that are not the queue's. *)
Context (frame : gmap str bytes).

Abbreviation wal_dir := (queue_to_wal_dir q (se_root env)).
Abbreviation store_dir := (queue_to_store_dir q (se_root env)).

(** A path that is in neither directory of the queue. *)
Definition outside (p : str) : Prop :=
  strip_prefix_l (base_prefix wal_dir) p = None /\ strip_prefix_l (base_prefix store_dir) p = None.

Lemma outside_wal x p : uintn_canonical x -> outside p -> p <> wal_path env q x.
Proof.
  intros Hx [Hp _] ->. unfold wal_path, queue_to_wal_path in Hp.
  rewrite (file_path_base x _ _ (ok_wf _ (canonical_ok _ Hx)) wal_ext) in Hp.
  by rewrite strip_prefix_l_app in Hp.
Qed.

Lemma outside_store x p : uintn_canonical x -> outside p -> p <> store_path env q x.
Proof.
  intros Hx [_ Hp] ->. unfold store_path, queue_to_store_path in Hp.
  rewrite (file_path_base x _ _ (ok_wf _ (canonical_ok _ Hx)) store_ext) in Hp.
  by rewrite strip_prefix_l_app in Hp.
Qed.

Record on_disk (fs : list qfile) (sealed : nat) (st : store_state) : Prop := {
  od_lo : 0 <= lo;
  od_hi : lo + zlen fs <= 2 ^ 24;
  od_sealed : (sealed <= length fs)%nat;
  od_ok i f : fs !! i = Some f -> qfile_ok (start_of base fs i) f;
  od_stored i f : fs !! i = Some f ->
    stored env q st (uid (lo + Z.of_nat i)) (start_of base fs i) f;
  od_twins i f : fs !! i = Some f ->
    st_files st !! wal_path env q (uid (lo + Z.of_nat i)) = None \/
    st_files st !! wal_path env q (uid (lo + Z.of_nat i)) = Some (qf_bytes f);
  od_wal_dir : numbered wal_dir (s2l "wal") (st_files st);
  od_store_dir : numbered store_dir (s2l "store") (st_files st);
  od_wal x : uintn_canonical x -> is_Some (st_files st !! wal_path env q x) ->
    lo <= uintn_val x < lo + zlen fs;
  od_store x : uintn_canonical x -> is_Some (st_files st !! store_path env q x) ->
    lo <= uintn_val x < lo + Z.of_nat sealed;
  od_range x : uintn_canonical x -> ~ (lo <= uintn_val x < lo + Z.of_nat sealed) ->
    st_ranges st !! range_key q x = None;
  od_io p : se_io env p = false;
  od_outside p : outside p -> st_files st !! p = frame !! p;
}.

(** What the reader and recovery need. *)
Lemma on_disk_layout fs k st : on_disk fs k st -> fs <> [] -> queue_layout env q lo base fs st.
Proof.
  intros [] Hne. split; try done.
  intros x Hx [Hw|Hs]; [by apply od_wal0|]. specialize (od_store0 x Hx Hs). unfold zlen. lia.
Qed.

Lemma on_disk_found fs k st : on_disk fs k st -> fs <> [] ->
  queue_found env q lo base fs (st_files st) st.
Proof.
  intros Hd Hne. split; [by eapply on_disk_layout|done|].
  intros x Hx Hn. apply (od_range _ _ _ Hd x Hx). pose proof (od_sealed _ _ _ Hd).
  unfold zlen in Hn. lia.
Qed.

Lemma on_disk_twins fs k st : on_disk fs k st -> twins env q lo fs (st_files st).
Proof. intros Hd i f Hi. by apply (od_twins _ _ _ Hd). Qed.

Lemma on_disk_sealed fs k k' st : on_disk fs k st -> (k <= k' <= length fs)%nat -> on_disk fs k' st.
Proof.
  intros [] Hk. split; try done; [lia| |].
  - intros x Hx Hs. specialize (od_store0 x Hx Hs). lia.
  - intros x Hx Hn. apply od_range0; [done|]. lia.
Qed.

(** An unsealed file is in the WAL. *)
Lemma on_disk_open fs k st i f : on_disk fs k st -> fs !! i = Some f -> (k <= i)%nat ->
  st_files st !! wal_path env q (uid (lo + Z.of_nat i)) = Some (qf_bytes f).
Proof.
  intros Hd Hi Hk. destruct (od_stored _ _ _ Hd i f Hi) as [_ _ Hw|c r Hs _ _ _ _ _]; [done|].
  pose proof (lookup_lt_Some _ _ _ Hi) as Hlt. pose proof (od_lo _ _ _ Hd). pose proof (od_hi _ _ _ Hd).
  destruct (uid_spec (lo + Z.of_nat i)) as [Hc Hv]; [unfold zlen in *; lia|].
  assert (is_Some (st_files st !! store_path env q (uid (lo + Z.of_nat i)))) as Hsome by by rewrite Hs.
  apply (od_store _ _ _ Hd _ Hc) in Hsome. lia.
Qed.

Lemma start_of_app fs gs j : start_of base (fs ++ gs) (length fs + j) =
  start_of (base + zlen (all_entries fs)) gs j.
Proof.
  unfold start_of, all_entries. rewrite take_app_add', map_app, concat_app, zlen_app by done. lia.
Qed.

Lemma start_of_le fs gs i : (i <= length fs)%nat -> start_of base (fs ++ gs) i = start_of base fs i.
Proof. intros Hi. unfold start_of. by rewrite take_app_le. Qed.

(** The paths of ids tell them apart. *)
Lemma wal_path_inj x y : uintn_canonical x -> uintn_canonical y ->
  wal_path env q x = wal_path env q y -> x = y.
Proof.
  intros Hx Hy E. apply canonical_inj; [done..|].
  by apply (file_path_inj x y wal_dir (s2l "wal")); [apply ok_wf, canonical_ok..|apply wal_ext|].
Qed.

Lemma wal_path_store x y : wal_path env q x <> store_path env q y.
Proof. apply wal_store_paths. Qed.

(** A file is where it was when its paths and its range are the same. *)
Lemma stored_frame st st' x start f :
  st_files st' !! wal_path env q x = st_files st !! wal_path env q x ->
  st_files st' !! store_path env q x = st_files st !! store_path env q x ->
  st_ranges st' !! range_key q x = st_ranges st !! range_key q x ->
  stored env q st x start f -> stored env q st' x start f.
Proof.
  intros Hw Hs Hr [H1 H2 H3|c r H1 H2 H3 H4 H5 H6].
  - apply StoredWal; by rewrite ?Hw, ?Hs, ?Hr.
  - apply (StoredStore _ _ _ _ _ _ c r); rewrite ?Hw, ?Hs, ?Hr; try done.
    rewrite <- H5.
    unfold read_range_from_fs. cbn zeta. fold (store_path env q x). by rewrite Hs.
Qed.

(** Rewriting the files from [keep] on, with at least as many as there were. *)
Section Extend.
Context (keep old : list qfile) (cs : list closed_file) (st : store_state).
Abbreviation fid := (lo + zlen keep).
Abbreviation start := (base + zlen (all_entries keep)).
Hypothesis Hd : on_disk (keep ++ old) (length keep) st.
Hypothesis Hchain : file_chain fid start cs.
Hypothesis Hold : (length old <= length cs)%nat.
Hypothesis Hhi : fid + zlen cs <= 2 ^ 24.
Hypothesis Hids : start + zlen (closed_entries cs) < 2 ^ 128.
Hypothesis Hsizes :
  Forall (fun c : closed_file => zlen (wal_file (snd (fst c)) (snd c) []) <= size_limit) cs.

Definition extended : store_state :=
  {| st_files := put_files (st_files st) (map (file_entry wal_dir) cs);
     st_tmp := st_tmp st; st_ranges := st_ranges st; st_done := st_done st |}.

Lemma extend_path j c : cs !! j = Some c ->
  fst (file_entry wal_dir c) = wal_path env q (uid (fid + Z.of_nat j)).
Proof.
  intros Hj. eapply chain_path; try done. pose proof (od_lo _ _ _ Hd). pose proof (zlen_nonneg keep). lia.
Qed.

Lemma extend_nodup : NoDup (map fst (map (file_entry wal_dir) cs)).
Proof.
  eapply chain_nodup; try done. pose proof (od_lo _ _ _ Hd). pose proof (zlen_nonneg keep). lia.
Qed.

Lemma extend_in j c : cs !! j = Some c ->
  st_files extended !! wal_path env q (uid (fid + Z.of_nat j)) = Some (qf_bytes (chain_file c)).
Proof.
  intros Hj. cbn [extended st_files]. rewrite <- (extend_path _ _ Hj). apply put_files_in.
  - apply extend_nodup.
  - apply in_map_iff. exists c. split; [by destruct c as [[] ?]|]. by eapply list_elem_of_In, list_elem_of_lookup_2.
Qed.

Lemma extend_out p : (forall x, uintn_canonical x -> fid <= uintn_val x < fid + zlen cs ->
    p <> wal_path env q x) -> st_files extended !! p = st_files st !! p.
Proof.
  intros Hp. apply put_files_out. intros (j & c & Hj & E)%chain_in.
  rewrite (extend_path _ _ Hj) in E. pose proof (lookup_lt_Some _ _ _ Hj).
  pose proof (od_lo _ _ _ Hd). pose proof (zlen_nonneg keep).
  destruct (uid_spec (fid + Z.of_nat j)) as [Hc Hv]; [unfold zlen in *; lia|].
  apply (Hp _ Hc); [|done]. unfold zlen in *. lia.
Qed.

Lemma extend_store x : st_files extended !! store_path env q x = st_files st !! store_path env q x.
Proof. apply extend_out. intros y _ _ E. by apply (wal_path_store y x). Qed.

Lemma extend_wal_below x : uintn_canonical x -> uintn_val x < fid ->
  st_files extended !! wal_path env q x = st_files st !! wal_path env q x.
Proof. intros Hx Hv. apply extend_out. intros y Hy Hr ->%wal_path_inj; [lia|done..]. Qed.

Lemma extend_zlen : zlen (keep ++ map chain_file cs) = zlen keep + zlen cs.
Proof. rewrite zlen_app. unfold zlen. by rewrite length_map. Qed.

(** The files after [keep]. *)
Lemma extend_lookup i f : (keep ++ map chain_file cs) !! i = Some f ->
  (i < length keep)%nat /\ keep !! i = Some f \/
  exists j c, i = (length keep + j)%nat /\ cs !! j = Some c /\ f = chain_file c.
Proof.
  intros [Hk|[Hi Hk]]%lookup_app_Some.
  - left. split; [by eapply lookup_lt_Some|done].
  - right. apply chain_lookup in Hk as (c & Hc & ->). exists (i - length keep)%nat, c.
    split_and!; [lia|done..].
Qed.

Lemma on_disk_extend : on_disk (keep ++ map chain_file cs) (length keep) extended.
Proof.
  pose proof Hd as []. pose proof (zlen_nonneg keep).
  assert (Forall (fun c => zlen (snd (file_entry wal_dir c)) <= isize_max) cs) as Hsz.
  { eapply Forall_impl; [exact Hsizes|]. intros [[f h] es] Hs. cbn [file_entry fst snd] in *.
    unfold size_limit, isize_max in *. lia. }
  assert (forall i, (i < length keep)%nat -> uintn_canonical (uid (lo + Z.of_nat i)) /\
    uintn_val (uid (lo + Z.of_nat i)) = lo + Z.of_nat i) as Hid.
  { intros i Hi. apply uid_spec. unfold zlen in *. lia. }
  assert (forall j, uid (lo + Z.of_nat (length keep + j)) = uid (fid + Z.of_nat j)) as Huid
    by (intros j; f_equal; unfold zlen; lia).
  split; rewrite ?extend_zlen; try done; try lia.
  - rewrite length_app. lia.
  - intros i f [[Hi Hk]|(j & c & -> & Hj & ->)]%extend_lookup.
    + rewrite start_of_le by lia. rewrite <- (start_of_le _ old) by lia.
      apply od_ok0. by rewrite lookup_app_l.
    + rewrite start_of_app. eapply wal_file_ok; try done. by rewrite list_lookup_fmap, Hj.
  - intros i f [[Hi Hk]|(j & c & -> & Hj & ->)]%extend_lookup.
    + rewrite start_of_le by lia. rewrite <- (start_of_le _ old) by lia. destruct (Hid i Hi).
      eapply stored_frame; [apply extend_wal_below; [done|unfold zlen; lia]|apply extend_store|done|].
      apply od_stored0. by rewrite lookup_app_l.
    + rewrite Huid. pose proof (lookup_lt_Some _ _ _ Hj).
      destruct (uid_spec (fid + Z.of_nat j)) as [Hc Hv]; [unfold zlen in *; lia|].
      apply StoredWal; [rewrite extend_store| |by apply extend_in].
      * destruct (st_files st !! store_path env q _) eqn:E; [|done]. exfalso.
        assert (is_Some (st_files st !! store_path env q (uid (fid + Z.of_nat j)))) as Hs by by rewrite E.
        apply od_store0 in Hs; [unfold zlen in *; lia|done].
      * apply od_range0; [done|]. unfold zlen in *. lia.
  - intros i f [[Hi Hk]|(j & c & -> & Hj & ->)]%extend_lookup.
    + destruct (Hid i Hi). rewrite extend_wal_below by (done || unfold zlen; lia).
      apply od_twins0. by rewrite lookup_app_l.
    + right. rewrite Huid. by apply extend_in.
  - intros p r Hp Hr. cbn [extended st_files] in Hp.
    destruct (decide (p ∈ map fst (map (file_entry wal_dir) cs))) as [Hin|Hni].
    + apply list_elem_of_In, chain_in in Hin as (j & c & Hj & ->). rewrite (extend_path _ _ Hj).
      pose proof (lookup_lt_Some _ _ _ Hj).
      destruct (uid_spec (fid + Z.of_nat j)) as [Hc Hv]; [unfold zlen in *; lia|].
      eexists. split_and!; [exact Hc|unfold zlen in *; lia|done].
    + apply (od_wal_dir0 p r); [|done]. rewrite put_files_out in Hp; [done|].
      by rewrite <- list_elem_of_In.
  - intros p r Hp Hr. cbn [extended st_files] in Hp.
    destruct (decide (p ∈ map fst (map (file_entry wal_dir) cs))) as [Hin|Hni].
    + apply list_elem_of_In, chain_in in Hin as (j & c & Hj & ->). rewrite (extend_path _ _ Hj) in Hr.
      pose proof wal_ext as He. unfold wal_path, queue_to_wal_path in Hr.
      rewrite (file_path_base _ wal_dir _) in Hr; [by rewrite store_dir_apart in Hr|..|done].
      apply ok_wf, canonical_ok, uid_spec. apply lookup_lt_Some in Hj. unfold zlen in *. lia.
    + apply (od_store_dir0 p r); [|done]. rewrite put_files_out in Hp; [done|].
      by rewrite <- list_elem_of_In.
  - intros x Hx Hp. destruct (decide (fid <= uintn_val x < fid + zlen cs)); [lia|].
    rewrite extend_out in Hp.
    + apply od_wal0 in Hp; [|done]. rewrite zlen_app in Hp. unfold zlen in *. lia.
    + intros y Hy Hr E. apply wal_path_inj in E; [by subst|done..].
  - intros x Hx Hp. rewrite extend_store in Hp. by apply od_store0.
  - intros p Hp. rewrite extend_out; [by apply od_outside0|]. intros x Hx _. by apply outside_wal.
Qed.

End Extend.

Lemma take_agree {A} (l k : list A) n : (forall i, (i < n)%nat -> l !! i = k !! i) -> take n l = take n k.
Proof.
  intros Hi. apply list_eq. intros i. destruct (decide (i < n)%nat) as [Hlt|Hge].
  - rewrite !lookup_take_lt by done. by apply Hi.
  - by rewrite !lookup_take_ge by lia.
Qed.

(** Two views of the same files that differ in unsealed files only. *)
Lemma on_disk_agree fs fs' k st st' : on_disk fs k st -> on_disk fs' k st' ->
  st_files st' = st_files st -> length fs = length fs' ->
  (forall i, (i < k)%nat -> fs !! i = fs' !! i) -> on_disk fs k st'.
Proof.
  intros Hd Hd' Hf Hlen Hag. pose proof Hd as []. split; rewrite ?Hf; try done;
    [|intros x Hx Hn; by apply (od_range _ _ _ Hd')].
  intros i f Hi. destruct (decide (i < k)%nat) as [Hlt|Hge].
  - pose proof (od_stored _ _ _ Hd' i f) as Hs. rewrite <- Hag in Hs by done. specialize (Hs Hi).
    unfold start_of in *. by rewrite (take_agree fs fs' i) by (intros; apply Hag; lia).
  - pose proof (lookup_lt_Some _ _ _ Hi) as Hl.
    destruct (uid_spec (lo + Z.of_nat i)) as [Hc Hv]; [unfold zlen in *; lia|].
    apply StoredWal; rewrite ?Hf.
    + destruct (st_files st !! store_path env q _) eqn:E; [|done]. exfalso.
      assert (lo <= uintn_val (uid (lo + Z.of_nat i)) < lo + Z.of_nat k)
        by (apply od_store0; [done|by rewrite E]). lia.
    + apply (od_range _ _ _ Hd'); [done|lia].
    + apply (on_disk_open fs k); [done..|lia].
Qed.

(** A query only caches ranges. *)
Lemma on_disk_queried fs k st st' : on_disk fs k st ->
  queue_found env q lo base fs (st_files st) st' -> on_disk fs k st'.
Proof.
  intros [] [Hl Hf Ha]. split; rewrite ?Hf; try done.
  - apply (ql_stored _ _ _ _ _ _ Hl).
  - intros x Hx Hn. destruct (decide (lo <= uintn_val x < lo + zlen fs)) as [Hr|Hr]; [|by apply Ha].
    destruct (file_at env q lo base fs st' x Hl Hx Hr) as (i & f & Hi & -> & Hv).
    destruct (ql_stored _ _ _ _ _ _ Hl i f Hi) as [_ ? _|c r Hs _ _ _ _ _]; [done|].
    destruct Hn. apply od_store0; [done|]. by rewrite <- Hf, Hs.
Qed.

End OnDisk.
