(* ===== verification/StoreLive.v ===== *)
(** * The disk of a queue while its files move to the store

    A store worker that processes a closed file, whatever fails, keeps the form
    [on_disk]; the task that lists the old files names only files of the queue. *)
From Stdlib Require Import ZArith Lia List Bool Sorted Permutation.
From Stdlib Require Import Ascii String.
From stdpp Require Import base option list gmap strings.
From S2P Require Import Prelude UBig UintN UintNFacts Paths PathsFacts PathsSearch FileTree Types.
From S2P Require Import WalFormat WalReader WalReaderFacts WalReaderTotal OrderedBuffer AckWriter.
From S2P Require Import WalWriter WalWriterFacts Crypto StoreFormat Store StoreFacts WalStore.
From S2P Require Import Cloud Lookup LookupFacts QueueLayout WalLayout Mem MemFacts ReaderFsm.
From S2P Require Import ReaderFsmFacts DiskMonitor NormFs NormFsFacts LiveLayout.
#[local] Open Scope Z_scope.

(** Files with entries, but for the last one; every header has room for the ids
    and the lengths to come. *)
Definition full_q {U : UBig} (f : qfile) : Prop := qf_entries f <> [] /\ wide (qf_header f).
Definition tidy {U : UBig} (fs : list qfile) : Prop :=
  Forall (fun f => wide (qf_header f)) fs /\
  forall i f, fs !! i = Some f -> (Datatypes.S i < length fs)%nat -> qf_entries f <> [].

Lemma tidy_snoc {U : UBig} (fs : list qfile) f : Forall full_q fs -> wide (qf_header f) ->
  tidy (fs ++ [f]).
Proof.
  intros Hfs Hf. split.
  - apply Forall_app. split; [|by apply Forall_cons]. eapply Forall_impl; [exact Hfs|]. by intros g [_ ?].
  - intros i g Hi Hlt. rewrite length_app in Hlt. cbn [length] in Hlt.
    rewrite lookup_app_l in Hi by lia. by destruct (Forall_lookup_1 _ _ _ _ Hfs Hi).
Qed.

Lemma tidy_full {U : UBig} (fs : list qfile) : tidy fs ->
  match last fs with Some f => qf_entries f <> [] | None => True end -> Forall full_q fs.
Proof.
  intros [Hw Hne] Hl. apply Forall_lookup. intros i f Hi. split; [|by apply (Forall_lookup_1 _ _ _ _ Hw Hi)].
  destruct (decide (Datatypes.S i < length fs)%nat); [by eapply Hne|].
  apply lookup_lt_Some in Hi as Hlt. rewrite last_lookup in Hl.
  replace (pred (length fs)) with i in Hl by lia. by rewrite Hi in Hl.
Qed.

Lemma tidy_init {U : UBig} (fs : list qfile) f : tidy (fs ++ [f]) -> Forall full_q fs.
Proof.
  intros [Hw Hne]. apply Forall_app in Hw as [Hw _]. apply Forall_lookup. intros i g Hi.
  split; [|by apply (Forall_lookup_1 _ _ _ _ Hw Hi)]. apply lookup_lt_Some in Hi as Hlt.
  apply (Hne i g); [by apply lookup_app_l_Some|]. rewrite length_app. cbn. lia.
Qed.

Section Processed.
Context {B : Build} {U : UBig} {H : HexCrate} {X : Hasher} {C : CryptoLib} {Z' : CompressLib}.
Context {S3 : S3Http}.
Context (env : store_env) (q : queue_id) (lo base : Z) (frame : gmap str bytes) (fs : list qfile) (k : nat) (st : store_state).
Hypothesis Hd : on_disk env q lo base frame fs k st.
Context (i : nat) (f : qfile).
Hypothesis Hi : fs !! i = Some f.
Hypothesis Hik : (i < k)%nat.
Hypothesis Hne : qf_entries f <> [].
Abbreviation x := (uid (lo + Z.of_nat i)).

Lemma sealed_id : uintn_canonical x /\ uintn_val x = lo + Z.of_nat i.
Proof.
  apply uid_spec. pose proof (od_lo _ _ _ _ _ _ _ _ Hd). pose proof (od_hi _ _ _ _ _ _ _ _ Hd).
  apply lookup_lt_Some in Hi. unfold zlen in *. lia.
Qed.

Lemma other_id j g : fs !! j = Some g -> j <> i ->
  uintn_canonical (uid (lo + Z.of_nat j)) /\ uid (lo + Z.of_nat j) <> x.
Proof.
  intros Hj Hji. destruct sealed_id as [Hc Hv].
  pose proof (od_lo _ _ _ _ _ _ _ _ Hd). pose proof (od_hi _ _ _ _ _ _ _ _ Hd).
  apply lookup_lt_Some in Hj. destruct (uid_spec (lo + Z.of_nat j)) as [Hc' Hv'];
    [unfold zlen in *; lia|]. split; [done|]. intros E. rewrite E in Hv'. lia.
Qed.

Lemma wal_dir_apart r : strip_prefix_l (base_prefix (queue_to_wal_dir q (se_root env)))
  (base_prefix (queue_to_store_dir q (se_root env)) ++ r) = None.
Proof.
  destruct (strip_prefix_l _ _) as [s|] eqn:E; [|done]. apply strip_prefix_l_Some in E.
  pose proof (dirs_apart (queue_to_fs_path q (se_root env)) s) as Ha.
  unfold queue_to_wal_dir, queue_to_store_dir in *. rewrite <- E, strip_prefix_l_app in Ha. done.
Qed.

Lemma store_path_inj y z : uintn_canonical y -> uintn_canonical z ->
  store_path env q y = store_path env q z -> y = z.
Proof.
  intros Hy Hz E. apply canonical_inj; [done..|].
  by apply (file_path_inj y z (queue_to_store_dir q (se_root env)) (s2l "store"));
    [apply ok_wf, canonical_ok..|apply store_ext|].
Qed.

(** The store file [c] of the file [i] is there; its WAL file may be gone. *)
Section Moved.
Context (st' : store_state) (c : bytes) (r r0 : uintn * uintn).
Hypothesis Hfiles : st_files st' = <[store_path env q x := c]> (st_files st) \/
  st_files st' = delete (wal_path env q x) (<[store_path env q x := c]> (st_files st)).
Hypothesis Hranges : st_ranges st' = <[range_key q x := r]> (st_ranges st).
Hypothesis Hopen : forall verify, extract_wal_bytes env q x c verify = Ok (qf_bytes f).
Hypothesis Hrange : range_is (start_of base fs i) f r.
Hypothesis Hread : read_range_from_fs env st' q x = Ok (Some r).

Lemma moved_other p : p <> store_path env q x -> p <> wal_path env q x ->
  st_files st' !! p = st_files st !! p.
Proof.
  intros Hs Hw. destruct Hfiles as [-> | ->]; [by rewrite lookup_insert_ne|].
  by rewrite lookup_delete_ne, lookup_insert_ne.
Qed.

Lemma moved_store : st_files st' !! store_path env q x = Some c.
Proof.
  destruct Hfiles as [-> | ->]; [apply lookup_insert_eq|].
  rewrite lookup_delete_ne by apply wal_path_store. apply lookup_insert_eq.
Qed.

Lemma moved_wal : st_files st' !! wal_path env q x = st_files st !! wal_path env q x \/
  st_files st' !! wal_path env q x = None.
Proof.
  destruct Hfiles as [-> | ->]; [left|right; apply lookup_delete_eq].
  rewrite lookup_insert_ne; [done|]. intros E. symmetry in E. by apply wal_path_store in E.
Qed.

(** A file that is there was there, but for the new store file. *)
Lemma moved_was p : is_Some (st_files st' !! p) ->
  p = store_path env q x \/ is_Some (st_files st !! p).
Proof.
  intros Hp. destruct (decide (p = store_path env q x)); [by left|right].
  destruct (decide (p = wal_path env q x)) as [->|].
  - destruct moved_wal as [<-|E]; [done|]. rewrite E in Hp. by destruct Hp.
  - by rewrite <- moved_other.
Qed.

Lemma on_disk_moved : on_disk env q lo base frame fs k st'.
Proof.
  pose proof Hd as []. destruct sealed_id as [Hc Hv]. split; try done.
  - intros j g Hj. destruct (decide (j = i)) as [->|Hji].
    + assert (g = f) as -> by congruence. apply (StoredStore _ _ _ _ _ _ c r); try done.
      * apply moved_store.
      * left. rewrite Hranges. apply lookup_insert_eq.
    + destruct (other_id j g Hj Hji) as [Hcj Hjx]. eapply stored_frame; [..|by apply od_stored].
      * apply moved_other; [apply wal_path_store|]. by intros ?%wal_path_inj.
      * apply moved_other; [by intros ?%store_path_inj|]. intros E. symmetry in E.
        by apply wal_path_store in E.
      * rewrite Hranges. apply lookup_insert_ne. intros [_ E]%range_key_inj; [|eauto with normfs..].
        destruct Hjx. by apply canonical_inj.
  - intros j g Hj. destruct (decide (j = i)) as [->|Hji].
    + destruct moved_wal as [->| ->]; [by apply od_twins|by left].
    + destruct (other_id j g Hj Hji) as [Hcj Hjx]. rewrite moved_other; [by apply od_twins|..].
      * apply wal_path_store.
      * by intros ?%wal_path_inj.
  - intros p s Hp Hs. destruct (moved_was p Hp) as [->|Hp']; [|by eapply od_wal_dir].
    exfalso. unfold store_path, queue_to_store_path in Hs.
    rewrite (file_path_base x _ _ (ok_wf _ (canonical_ok _ Hc)) store_ext) in Hs.
    by rewrite wal_dir_apart in Hs.
  - intros p s Hp Hs. destruct (moved_was p Hp) as [->|Hp']; [|by eapply od_store_dir].
    exists x. split; [done|]. split; [|done]. pose proof (lookup_lt_Some _ _ _ Hi). unfold zlen in *. lia.
  - intros y Hy Hp. destruct (moved_was _ Hp) as [E|Hp']; [|by apply od_wal].
    by apply wal_path_store in E.
  - intros y Hy Hp. destruct (moved_was _ Hp) as [E|Hp']; [|by apply od_store].
    apply store_path_inj in E as ->; [lia|done..].
  - intros y Hy Hr. rewrite Hranges, lookup_insert_ne; [by apply od_range|].
    intros [_ E]%range_key_inj; [|eauto with normfs..]. lia.
  - intros p Hp. rewrite moved_other; [by apply od_outside|by eapply outside_store|by eapply outside_wal].
Qed.

End Moved.

Lemma on_disk_same st' : st_files st' = st_files st -> st_ranges st' = st_ranges st ->
  on_disk env q lo base frame fs k st'.
Proof.
  intros Hf Hr. pose proof Hd as []. split; rewrite ?Hf, ?Hr; try done.
  intros j g Hj. eapply stored_frame; [by rewrite Hf|by rewrite Hf|by rewrite Hr|by apply od_stored].
Qed.

(** Processing a closed file. *)
Lemma on_disk_processed msg fault uuid : wc_queue_id msg = q -> wc_file_id msg = x ->
  exists st', process_entry env st fault uuid msg = Some st' /\ on_disk env q lo base frame fs k st'.
Proof.
  intros Hq Hx. pose proof (od_ok _ _ _ _ _ _ _ _ Hd i f Hi) as [].
  destruct (od_twins _ _ _ _ _ _ _ _ Hd i f Hi) as [Hn|Hw].
  - exists st. split; [|done]. unfold process_entry. rewrite Hq, Hx.
    unfold get_wal_content, wal_file_path, disk_of. fold (queue_to_wal_path q (se_root env) x).
    fold (wal_path env q x). by rewrite (od_io _ _ _ _ _ _ _ _ Hd), Hn.
  - unfold qf_bytes in *.
    assert (st_files st !! queue_to_wal_path (wc_queue_id msg) (se_root env) (wc_file_id msg) =
      Some (wal_file (qf_header f) (qf_entries f) (qf_tail f))) as Hw' by by rewrite Hq, Hx.
    assert (uintn_val (num_entries_before (qf_header f)) < 2 ^ 128) as Hb by lia.
    destruct (process_outcome env st msg _ _ _ None Hw' qo_header qo_fits qo_tail qo_size
      fault uuid Hne) as (st' & Hp & Hcase). exists st'. split; [done|].
    rewrite Hq, Hx in Hcase.
    destruct Hcase as [[Hf Hr]|(data & l & Hm & Hlc & Hlv & Hr & Hf)].
    + by eapply on_disk_same.
    + set (r := (num_entries_before (qf_header f), l)).
      set (cont := content_of (qf_header f) (qf_entries f) (qf_tail f)) in *.
      assert (st_files st' !! store_path env q x = Some (store_file_bytes env msg cont data)) as Hs
        by (by apply moved_store).
      destruct (read_range_written env st msg (qf_header f) (qf_entries f) (qf_tail f) Hw' qo_header Hb qo_fits
        qo_size st' data) as (r' & Hr' & Hf1 & Hs1 & Hc1); [apply (od_io _ _ _ _ _ _ _ _ Hd)|by rewrite Hq, Hx|done|].
      rewrite Hq, Hx in Hr'.
      assert (r' = r) as ->.
      { destruct r' as [a b]. cbn [fst snd] in *. subst a. unfold r. f_equal. apply canonical_inj; [done..|lia]. }
      eapply (on_disk_moved st' (store_file_bytes env msg cont data) r); try done.
      * intros verify. rewrite <- Hq, <- Hx. apply extract_written; [|done].
        by apply (process_header_ok msg _ _ (qf_tail f)).
      * split_and!; [apply qo_header|done|done|cbn [snd r]; lia].
Qed.

End Processed.

(** The old files that a process hands to the store. *)
Lemma old_files_listed {B : Build} {U : UBig} {H : HexCrate} {X : Hasher} {S0 : UnstableSort}
    {C : CryptoLib} {Z' : CompressLib} (env : store_env) q lo base frame fs k w current compression encryption :
  on_disk env q lo base frame fs k (ww_store w) -> uintn_ok current ->
  exists new, ws_process_old_files env w q current compression encryption =
      {| ww_store := ww_store w; ww_writers := ww_writers w; ww_acks := ww_acks w;
         ww_complete := ww_complete w ++ new |} /\
    Forall (fun m => wc_queue_id m = q /\ uintn_canonical (wc_file_id m) /\
      lo <= uintn_val (wc_file_id m) < uintn_val current) new.
Proof.
  intros Hd Hc. eexists. split; [reflexivity|]. apply List.Forall_forall. intros m Hm.
  apply in_map_iff in Hm as (x & <- & Hx). apply filter_In in Hx as [Hx Hlt].
  cbn [wc_queue_id wc_file_id]. split; [done|].
  pose proof (od_wal_dir _ _ _ _ _ _ _ _ Hd) as Hdir.
  destruct (dir_ids_small _ _ _ wal_ext Hdir x Hx) as [Hxc Hxv].
  apply (dir_ids _ _ _ wal_ext Hdir x Hxc Hxv) in Hx. apply (od_wal _ _ _ _ _ _ _ _ Hd x Hxc) in Hx.
  rewrite ltb_spec_val in Hlt by (apply ok_wf; done || by apply canonical_ok).
  apply Z.ltb_lt in Hlt. split; [done|]. lia.
Qed.
