(* ===== verification/Facade.v ===== *)
(** * The running facade

    Concurrent callers of [enqueue], [enqueue_batch], [read], [subscribe] and
    [unsubscribe], the writer task of their
    queue, the task that writes its open file, the task that forwards the
    acknowledgements, the store workers, the tasks that forward stored files and
    list old ones, and the disk monitor, as a machine that takes one atomic step
    at a time, in any order. *)
From Stdlib Require Import ZArith Lia List Bool.
From Stdlib Require Import Ascii String.
From stdpp Require Import base option list gmap strings.
From S2P Require Import Prelude UBig UintN UintNFacts Paths Types WalFormat WalReader OrderedBuffer.
From S2P Require Import AckWriter WalWriter.
From S2P Require Import Crypto StoreFormat Store WalStore Cloud Lookup Mem ReaderFsm.
From S2P Require Import DiskMonitor NormFs.
#[local] Open Scope Z_scope.

Section Facade.
Context {B : Build} {U : UBig} {H : HexCrate} {X : Hasher} {S : UnstableSort}.
Context {C : CryptoLib} {Z' : CompressLib} {S3 : S3Http} {G : GlobCrate}.

(** A call between its two halves: the memory has numbered its entries, the
    writer does not have them yet. *)
Inductive call :=
| SendOne (entry_id : uintn) (data : bytes)
| SendBatch (entry_ids : list uintn) (data : list bytes).

Record system := {
  sy_fs : norm_fs;
  sy_calls : list call;
}.

Inductive fs_event :=
| NumberOne (data : bytes)
| NumberBatch (data : list bytes)
| SendCall (k : nat)
| WriterTurn
| FlushTurn (ev : afw_event)
| AckTurn
| StoreTurn (fault : store_fault) (uuid : str)
| DoneTurn
| OldFilesTurn
| MonitorTurn (fuel : nat) (stuck : str -> bool)
| ReadCall (search_fuel fuel : nat) (position : read_position) (limit step : Z)
| SubscribeCall (answers : list bool)
| UnsubscribeCall (subscriber_id : nat).

(** The channel of a caller that waits for its entries. *)
Definition new_channel : channel := {| ch_sent := []; ch_life := None |}.

Definition finish_call (fs : norm_fs) (q : queue_id) (c : call) : norm_fs :=
  match c with
  | SendOne entry_id data => fst (enqueue_send fs q entry_id data)
  | SendBatch entry_ids data => fst (batch_send fs q entry_ids data)
  end.

(** [None]: a panic of a caller or of a task, or a loop without an end. *)
Definition fs_exec (env : store_env) (q : queue_id) (s : system) (ev : fs_event) : option system :=
  match ev with
  | NumberOne data =>
      match enqueue_number (sy_fs s) q data with
      | (fs, Ok id) => Some {| sy_fs := fs; sy_calls := sy_calls s ++ [SendOne id data] |}
      | _ => None
      end
  | NumberBatch [] => Some s
  | NumberBatch data =>
      match batch_number (sy_fs s) q data with
      | (fs, Ok ids) => Some {| sy_fs := fs; sy_calls := sy_calls s ++ [SendBatch ids data] |}
      | _ => None
      end
  | SendCall k =>
      match sy_calls s !! k with
      | Some c => Some {| sy_fs := finish_call (sy_fs s) q c; sy_calls := delete k (sy_calls s) |}
      | None => Some s
      end
  | WriterTurn => Some {| sy_fs := writer_turn (sy_fs s) q; sy_calls := sy_calls s |}
  | FlushTurn ev => Some {| sy_fs := flush_turn (sy_fs s) q ev; sy_calls := sy_calls s |}
  | AckTurn => Some {| sy_fs := ack_turn (sy_fs s); sy_calls := sy_calls s |}
  | StoreTurn fault uuid =>
      match store_turn env fault uuid (sy_fs s) with
      | Some fs => Some {| sy_fs := fs; sy_calls := sy_calls s |}
      | None => None
      end
  | DoneTurn => Some {| sy_fs := done_turn (sy_fs s); sy_calls := sy_calls s |}
  | OldFilesTurn => Some {| sy_fs := old_files_turn env (sy_fs s); sy_calls := sy_calls s |}
  | MonitorTurn fuel stuck =>
      match monitor_turn env fuel stuck (sy_fs s) with
      | Some fs => Some {| sy_fs := fs; sy_calls := sy_calls s |}
      | None => None
      end
  | ReadCall search_fuel fuel position limit step =>
      match read env search_fuel fuel (sy_fs s) q position limit step new_channel with
      | Some (fs, _, _) => Some {| sy_fs := fs; sy_calls := sy_calls s |}
      | None => None
      end
  | SubscribeCall answers =>
      Some {| sy_fs := fst (subscribe (sy_fs s) q answers); sy_calls := sy_calls s |}
  | UnsubscribeCall subscriber_id =>
      Some {| sy_fs := unsubscribe (sy_fs s) q subscriber_id; sy_calls := sy_calls s |}
  end.

Fixpoint fs_run (env : store_env) (q : queue_id) (s : system) (evs : list fs_event) : option system :=
  match evs with
  | [] => Some s
  | ev :: evs => match fs_exec env q s ev with Some s => fs_run env q s evs | None => None end
  end.

Lemma fs_run_app env q s a b : fs_run env q s (a ++ b) =
  match fs_run env q s a with Some s => fs_run env q s b | None => None end.
Proof. revert s. induction a as [|ev a IH]; intros s; [done|]. cbn. by destruct (fs_exec env q s ev). Qed.

(** What the callers hand over, in the order of their first halves. *)
Definition payload_of (ev : fs_event) : list bytes :=
  match ev with NumberOne data => [data] | NumberBatch data => data | _ => [] end.
Definition payloads (evs : list fs_event) : list bytes := concat (map payload_of evs).

Lemma payloads_app a b : payloads (a ++ b) = payloads a ++ payloads b.
Proof. unfold payloads. by rewrite map_app, concat_app. Qed.

(** The entries of a call, and of a request in the channel of the writer. *)
Definition call_entries (c : call) : list (uintn * bytes) :=
  match c with SendOne id data => [(id, data)] | SendBatch ids data => combine ids data end.
Definition request_entries (req : write_request) : list (uintn * bytes) :=
  match req with Enqueue id data => [(id, data)] | EnqueueBatch es => es | Close => [] end.

(** A read with a step, whose range is a number of 64 bits, of entries of the
    queue ([base] is the first); the fuel is enough for 2^24 files. *)
Record proper_read (base : Z) (search_fuel fuel : nat) (position : read_position) (limit step : Z)
    : Prop := {
  pr_offset : uintn_ok (position_offset position);
  pr_reach : match position with Absolute from => base <= uintn_val from | _ => base = 0 end;
  pr_step : in_u 64 step /\ 1 <= step;
  pr_limit : limit = 0 \/ 1 <= limit /\ in_u 64 ((limit - 1) * step);
  pr_fuel : 2 ^ 24 <= Z.of_nat search_fuel /\ 6 + 5 * 2 ^ 24 <= Z.of_nat fuel;
}.

(** No fault where a WAL file is written: the file task takes its buffer or
    writes its block.  The store workers may fail. *)
Definition healthy (base : Z) (ev : fs_event) : Prop :=
  match ev with
  | FlushTurn ev => ev = EvTake \/ ev = EvAttempt Succeeds
  | ReadCall search_fuel fuel position limit step =>
      proper_read base search_fuel fuel position limit step
  | _ => True
  end.

(** The callers hand their entries over in the order of the numbers. *)
Definition sends_in_order (ev : fs_event) : Prop :=
  match ev with SendCall k => k = 0%nat | _ => True end.

(** An id that was acknowledged: the memory knows it, or it is in the channel. *)
Definition acknowledged (fs : norm_fs) (q : queue_id) (id : uintn) : Prop :=
  In (q, id) (ww_acks (nf_wal fs)) \/
  exists mq, ms_queues (nf_mem fs) !! qid_path q = Some mq /\
    mi_last_acked_id (mq_inner mq) = Some id.

(** ** Processes *)

(** A process: its settings and the name of its instance, what the machine
    answers, and what its callers and tasks do. *)
Record process := {
  pr_settings : normfs_settings;
  pr_instance : str;
  pr_stuck : str -> bool;
  pr_machine : machine;
  pr_events : list fs_event;
}.

Definition with_events (p : process) (evs : list fs_event) : process :=
  {| pr_settings := pr_settings p; pr_instance := pr_instance p; pr_stuck := pr_stuck p;
     pr_machine := pr_machine p; pr_events := evs |}.

(** It starts the queue for writing, then runs. *)
Definition boot (env : store_env) (q : queue_id) (p : process) (disk : store_state) : option norm_fs :=
  match start_queue env (pr_machine p)
          (normfs_new env (pr_settings p) None (pr_instance p) disk (pr_stuck p)) q false with
  | Some (fs, Ok _) => Some fs
  | _ => None
  end.

Definition work (env : store_env) (q : queue_id) (p : process) (disk : store_state) : option system :=
  match boot env q p disk with
  | Some fs => fs_run env q {| sy_fs := fs; sy_calls := [] |} (pr_events p)
  | None => None
  end.

(** It closes; what it leaves on disk. *)
Definition session (env : store_env) (q : queue_id) (p : process) (disk : store_state)
    : option store_state :=
  match work env q p disk with
  | Some sys => match close (sy_fs sys) with (fs, Ok _) => Some (nf_store fs) | _ => None end
  | None => None
  end.

Fixpoint sessions (env : store_env) (q : queue_id) (ps : list process) (disk : store_state)
    : option store_state :=
  match ps with
  | [] => Some disk
  | p :: ps =>
      match session env q p disk with Some disk => sessions env q ps disk | None => None end
  end.

(** How a process ends: it closes, or it dies at some moment of its run and
    leaves the disk as it is then. *)
Inductive ending := Closes | Dies.

Definition life (env : store_env) (q : queue_id) (p : process) (e : ending) (disk : store_state)
    : option store_state :=
  match e with
  | Closes => session env q p disk
  | Dies => sys ← work env q p disk; Some (nf_store (sy_fs sys))
  end.

Fixpoint lives (env : store_env) (q : queue_id) (ps : list (process * ending)) (disk : store_state)
    : option store_state :=
  match ps with
  | [] => Some disk
  | (p, e) :: ps =>
      match life env q p e disk with Some disk => lives env q ps disk | None => None end
  end.

(** The calls that are between their halves, after some events. *)
Fixpoint open_calls (n : nat) (evs : list fs_event) : nat :=
  match evs with
  | [] => n
  | NumberOne _ :: evs | NumberBatch (_ :: _) :: evs => open_calls (Datatypes.S n) evs
  | SendCall k :: evs => open_calls (if decide (k < n)%nat then pred n else n) evs
  | _ :: evs => open_calls n evs
  end.

(** Its callers hand over all their entries, in the order of the numbers. *)
Definition orderly (p : process) : Prop :=
  Forall sends_in_order (pr_events p) /\ open_calls 0 (pr_events p) = 0%nat.

(** What is left of the log after some processes on a disk without the queue.
    Each adds the first of the entries it numbered, and with them every entry
    that it had acknowledged; it adds all of them when its callers were orderly
    and it closed. *)
Inductive lived (env : store_env) (q : queue_id) (disk : store_state)
    : list (process * ending) -> store_state -> list (uintn * bytes) -> Prop :=
| lived_none : lived env q disk [] disk []
| lived_next ps p e st sys st' log kept lost :
    lived env q disk ps st log -> work env q p st = Some sys -> life env q p e st = Some st' ->
    map snd (kept ++ lost) = payloads (pr_events p) -> consecutive 0 (log ++ kept ++ lost) ->
    (forall a, acknowledged (sy_fs sys) q a -> In a (map fst (log ++ kept))) ->
    (e = Closes -> orderly p -> lost = []) ->
    lived env q disk (ps ++ [(p, e)]) st' (log ++ kept).

End Facade.
