(* ===== verification/FacadeFacts.v ===== *)
(** * Theory of the running facade

    The invariant of the machine of [Facade]: the entries numbered so far are in
    the files, in the writer, in its channel or with a caller; the memory holds
    all of them but some that are in the files.  So a read of any reachable
    state is exact. *)
From Stdlib Require Import ZArith Lia List Bool Sorted Permutation.
From Stdlib Require Import Ascii String.
From stdpp Require Import base option list gmap strings.
From S2P Require Import Prelude UBig UintN UintNFacts Paths PathsFacts PathsSearch FileTree Types.
From S2P Require Import WalFormat WalReader WalReaderFacts WalReaderTotal OrderedBuffer AckWriter.
From S2P Require Import WalWriter WalWriterFacts Crypto StoreFormat Store StoreFacts WalStore.
From S2P Require Import Cloud Lookup LookupFacts QueueLayout WalLayout Mem MemFacts ReaderFsm.
From S2P Require Import ReaderFsmFacts DiskMonitor DiskMonitorFacts NormFs NormFsFacts LiveLayout.
From S2P Require Import StoreLive Facade.
#[local] Open Scope Z_scope.

(** ** Generic lemmas on numbered entries *)

Section Numbers.
Context {U : UBig}.

(** Consecutive entries that are all among consecutive entries from the same
    number are the first of them. *)
Lemma consecutive_prefix n l k : consecutive n l -> consecutive n k ->
  (forall e, In e l -> In e k) -> exists rest, k = l ++ rest.
Proof.
  intros Hl Hk Hin. revert n k Hl Hk Hin. induction l as [|e l IH]; intros n k Hl Hk Hin; [by exists k|].
  destruct Hl as [He Hl]. destruct k as [|x k]; [by destruct (Hin e (or_introl eq_refl))|].
  pose proof Hk as [Hx Hk'].
  assert (x = e) as ->.
  { destruct (Hin e (or_introl eq_refl)) as [|Hek]; [done|].
    pose proof (consecutive_in _ _ _ Hk' Hek). lia. }
  destruct (IH (n + 1) k Hl Hk') as [rest ->]; [|by exists rest].
  intros y Hy. destruct (Hin y (or_intror Hy)) as [<-|]; [|done].
  pose proof (consecutive_in _ _ _ Hl Hy). lia.
Qed.

Lemma file_chain_app n start a b : file_chain n start (a ++ b) <->
  file_chain n start a /\ file_chain (n + zlen a) (start + zlen (closed_entries a)) b.
Proof.
  revert n start. induction a as [|[[f h] es] a IH]; intros n start.
  - cbn. rewrite zlen_nil, !Z.add_0_r. tauto.
  - cbn [app file_chain]. rewrite IH, zlen_cons. unfold closed_entries. cbn [map concat snd].
    rewrite zlen_app. replace (n + 1 + zlen a) with (n + (1 + zlen a)) by lia.
    replace (start + zlen es + zlen (concat (map snd a)))
      with (start + (zlen es + zlen (concat (map snd a)))) by lia. tauto.
Qed.

Lemma number_canonical n ds : uintn_canonical n ->
  Forall (fun e => uintn_canonical (fst e)) (number_entries n ds).
Proof.
  revert n. induction ds as [|d ds IH]; intros n Hn; [constructor|]. cbn [number_entries].
  constructor; [done|]. apply IH. by apply increment_canonical.
Qed.

Lemma number_combine n ds : combine (map fst (number_entries n ds)) ds = number_entries n ds.
Proof. revert n. induction ds as [|d ds IH]; intros n; [done|]. cbn. by rewrite IH. Qed.

End Numbers.

(** ** Requests of a writer *)

Section Requests.
Context {B : Build} {U : UBig} {X : Hasher} {S : UnstableSort}.
Context (fid0 start : Z).

(** Distinct ids, none of which has arrived. *)
Definition arriving (arrived es : list (uintn * bytes)) : Prop :=
  Forall (fun e => entry_bound e /\ start <= uintn_val (fst e)) es /\
  NoDup (map (fun e => uintn_val (fst e)) (arrived ++ es)).

Lemma arriving_cons arrived e es : arriving arrived (e :: es) ->
  entry_bound e /\ start <= uintn_val (fst e) /\
  ~ In (uintn_val (fst e)) (map (fun e => uintn_val (fst e)) arrived) /\
  arriving (arrived ++ [e]) es.
Proof.
  intros [Hb Hnd]. apply Forall_cons in Hb as [[Hb Hs] Hes]. split_and!; try done.
  - rewrite map_app in Hnd. apply NoDup_app in Hnd as (_ & Hnd & _). intros Hin.
    eapply Hnd; [by apply list_elem_of_In|]. left.
  - split; [done|]. by rewrite <- app_assoc.
Qed.

Lemma batch_good closed cur arrived s es : wr_good_at fid0 start closed cur arrived s ->
  arriving arrived es ->
  exists s' extra cur', wr_write_batch s es = (s', Ok tt) /\
    wr_good_at fid0 start (closed ++ extra) cur' (arrived ++ es) s' /\
    grown start s s' closed cur extra cur' /\ wr_later s s' /\
    wr_buffer s' = arrive_all (wr_buffer s) es.
Proof.
  revert closed cur arrived s. induction es as [|[id data] es IH]; intros closed cur arrived s Hg Ha.
  { exists s, [], cur. pose proof (grown_refl start s s closed cur eq_refl eq_refl). by rewrite !app_nil_r. }
  apply arriving_cons in Ha as (Hb & Hs & Hni & Ha). cbn [wr_write_batch].
  destruct (write_good_at _ _ _ _ _ _ id data Hg Hb) as (s1 & e1 & c1 & -> & Hg1 & Hb1 & Hn1 & Hl1).
  { eapply good_fresh; [by eapply good_at_good|apply canonical_ok, Hb|done|done]. }
  destruct (IH _ _ _ _ Hg1 Ha) as (s2 & e2 & c2 & -> & Hg2 & Hn2 & Hl2 & Hb2).
  exists s2, (e1 ++ e2), c2. rewrite <- !app_assoc in Hg2. split; [done|]. split; [done|].
  split; [by eapply grown_trans|]. split; [by etrans|by rewrite Hb2, Hb1].
Qed.

(** A request of the channel other than [Close]. *)
Lemma request_good closed cur arrived s req : wr_good_at fid0 start closed cur arrived s ->
  req <> Close -> arriving arrived (request_entries req) ->
  exists s' extra cur', handle_request s req = Some s' /\
    wr_good_at fid0 start (closed ++ extra) cur' (arrived ++ request_entries req) s' /\
    grown start s s' closed cur extra cur' /\ wr_later s s' /\
    wr_buffer s' = arrive_all (wr_buffer s) (request_entries req).
Proof.
  intros Hg Hc Ha. destruct req as [id data|es|]; [| |done]; cbn [handle_request request_entries] in *.
  - apply arriving_cons in Ha as (Hb & Hs & Hni & _).
    destruct (write_good_at _ _ _ _ _ _ id data Hg Hb) as (s1 & e1 & c1 & -> & Hg1 & Hb1 & Hn1 & Hl1).
    { eapply good_fresh; [by eapply good_at_good|apply canonical_ok, Hb|done|done]. }
    by exists s1, e1, c1.
  - destruct (batch_good _ _ _ _ _ Hg Ha) as (s1 & e1 & c1 & -> & Hg1 & Hn1 & Hl1 & Hb1). by exists s1, e1, c1.
Qed.

(** Entries that arrive in order do not wait. *)
Lemma in_order closed cur arrived s es more : wr_good_at fid0 start closed cur arrived s ->
  ob_pending (wr_buffer s) = [] -> consecutive start (arrived ++ es ++ more) ->
  Forall (fun e => uintn_ok (fst e)) es -> ob_pending (arrive_all (wr_buffer s) es) = [].
Proof.
  intros (_ & Hi & _ & _ & Hn & Hp) Hpend Hc Hok. apply arrive_all_in_order; try done.
  rewrite Hpend, app_nil_r in Hp. apply Permutation_length in Hp. rewrite Hn. unfold zlen. rewrite Hp.
  fold (zlen arrived). apply consecutive_app in Hc as [_ Hc]. by apply consecutive_app in Hc as [? _].
Qed.

End Requests.

(** ** The invariant *)

Section Live.
Context {B : Build} {U : UBig} {H : HexCrate} {X : Hasher} {S : UnstableSort}.
Context {C : CryptoLib} {Z' : CompressLib} {S3 : S3Http} {G : GlobCrate}.
Context (env : store_env) (q : queue_id) (lo base : Z) (frame : gmap str bytes)
  (old : list qfile).
(** Whether the callers hand over their entries in the order of the numbers. *)
Context (ordered : Prop).

(** The queue starts with the files [old]; the writer continues behind them. *)
Abbreviation start := (base + zlen (all_entries old)).
Abbreviation fid0 := (lo + zlen old).
Abbreviation wal_dir := (queue_to_wal_dir q (se_root env)).

(** The file the writer has open, with the entries [done] in it. *)
Definition open_file (s : writer_state) (done : list (uintn * bytes)) : closed_file :=
  (wr_file_id s, wr_header s, done).
Definition holds (s : writer_state) (done : list (uintn * bytes)) : Prop :=
  afw_file (wr_file_writer s) = wal_file (wr_header s) done [].
Definition live_files (closed : list closed_file) (s : writer_state) (done : list (uintn * bytes))
    : list qfile := old ++ map chain_file (closed ++ [open_file s done]).

Definition live_disk (closed : list closed_file) (cur : list (uintn * bytes)) (s : writer_state)
    (st : store_state) : Prop :=
  forall done rest, cur = done ++ rest -> holds s done ->
  on_disk env q lo base frame (live_files closed s done) (length old + length closed) st.

(** The memory lacks only entries of the old files and acknowledged ones. *)
Definition mem_kept (numbered : list (uintn * bytes)) (inner : mem_inner) : Prop :=
  exists pre, all_entries old ++ numbered = pre ++ mi_entries inner /\
    (zlen pre <= zlen (all_entries old) \/
     exists a, mi_last_acked_id inner = Some a /\ base + zlen pre <= uintn_val a + 1).

(** Where the disk monitor looks, nothing is: its root joined to the id of the
    queue, which is absolute, is the path that the id is. *)
Definition overlooked : Prop :=
  exists r, qid_path q = slash :: r /\
    forall p rest, strip_prefix_l (base_prefix (slash :: r)) p = Some rest ->
    outside env q p /\ frame !! p = None.

Definition harmless (m : queue_monitor) : Prop :=
  qm_queue_id m = qid_path q /\ 0 <= dc_max_size (qm_config m) /\ qm_offloader m = None.

Record live_at (s : writer_state) (reqs : list write_request) (closed : list closed_file)
    (cur arrived : list (uintn * bytes)) (mq : mem_queue) (numbered : list (uintn * bytes))
    (sys : system) : Prop := {
  lv_task : ww_writers (nf_wal (sy_fs sys)) !! qid_path q =
    Some {| wt_state := Some s; wt_pending := reqs |};
  lv_writer : wr_good_at fid0 start closed cur arrived s;
  lv_path : wr_queue_path s = wal_dir;
  lv_queue : wr_queue_id s = q;
  lv_flow : arrived ++ concat (map request_entries reqs) ++ concat (map call_entries (sy_calls sys))
    ≡ₚ numbered;
  lv_reqs : Forall (fun req => req <> Close) reqs;
  lv_old : consecutive base (all_entries old);
  lv_numbered : consecutive start numbered;
  lv_bounds : Forall entry_bound numbered;
  lv_limit : start + zlen numbered <= 2 ^ 32;
  lv_room : fid0 + zlen numbered < 2 ^ 24;
  lv_mem : ms_queues (nf_mem (sy_fs sys)) !! qid_path q = Some mq;
  lv_mem_inv : queue_inv mq;
  lv_last : next_after (mi_last_id (mq_inner mq)) = start + zlen numbered;
  lv_last_ok : match mi_last_id (mq_inner mq) with Some l => uintn_canonical l | None => True end;
  lv_kept : mem_kept numbered (mq_inner mq);
  lv_acked a : mi_last_acked_id (mq_inner mq) = Some a -> In (q, a) (all_acks s);
  lv_acks : Forall (fun a => fst a = q -> In a (all_acks s)) (ww_acks (nf_wal (sy_fs sys)));
  lv_last_file : closed <> [] -> cur <> [];
  lv_few : zlen closed <= zlen (closed_entries closed ++ cur);
  lv_only p : is_Some (ww_writers (nf_wal (sy_fs sys)) !! p) -> p = qid_path q;
  lv_order : ordered -> ob_pending (wr_buffer s) = [] /\
    arrived ++ concat (map request_entries reqs) ++ concat (map call_entries (sy_calls sys)) = numbered;
  lv_cloud : nf_cloud_downloader (sy_fs sys) = None;
  lv_disk : live_disk closed cur s (nf_store (sy_fs sys));
  lv_wide : wide (wr_header s);
  lv_full : Forall full_file closed;
  lv_old_full : Forall full_q old;
  lv_ids : uintn_canonical (wr_file_id s) /\ Forall (fun c => uintn_canonical (fst (fst c))) closed;
  lv_complete : Forall (fun m => wc_queue_id m = q /\ uintn_canonical (wc_file_id m) /\
    lo <= uintn_val (wc_file_id m) < fid0 + zlen closed) (ww_complete (nf_wal (sy_fs sys)));
  lv_monitor dm : nf_disk_monitor (sy_fs sys) = Some dm -> overlooked /\
    forall k m, dm_monitors dm !! k = Some m -> harmless m;
  lv_spawned : Forall (fun t => ot_queue t = q /\ uintn_ok (ot_file_id t) /\
    uintn_val (ot_file_id t) <= fid0) (nf_spawned (sy_fs sys));
}.

Definition live (numbered : list (uintn * bytes)) (sys : system) : Prop :=
  exists s reqs closed cur arrived mq, live_at s reqs closed cur arrived mq numbered sys.

(** *** The files *)

Lemma disk_entries fid st closed cur next s : wr_rel fid st closed cur next s ->
  wr_disk s = map (file_entry (wr_queue_path s)) closed.
Proof. intros Hr. rewrite (rel_disk _ _ _ _ _ _ Hr). apply map_ext. by intros [[f h] es]. Qed.

(** A prefix of the entries of the open file is a file of the chain. *)
Lemma open_chain closed cur arrived s done rest : wr_good_at fid0 start closed cur arrived s ->
  cur = done ++ rest -> file_chain fid0 start (closed ++ [open_file s done]).
Proof.
  intros [Hr _] ->. destruct (rel_file_id _ _ _ _ _ _ Hr).
  destruct (rel_cur _ _ _ _ _ _ Hr) as (Hh & Hf & Hc).
  apply file_chain_snoc; try done; [apply Hr| |apply Hr]. split_and!; [done| |].
  - by apply Forall_app in Hf as [? _].
  - by apply consecutive_app in Hc as [? _].
Qed.

Lemma open_size closed cur arrived s done : wr_good_at fid0 start closed cur arrived s ->
  (exists rest, cur = done ++ rest) ->
  Forall (fun c : closed_file => zlen (wal_file (snd (fst c)) (snd c) []) <= size_limit)
    (closed ++ [open_file s done]).
Proof.
  intros Hg [rest ->]. pose proof (all_closed_sizes _ _ _ _ _ _ Hg) as Hs.
  apply Forall_app in Hs as [Hs Hl]. apply Forall_app. split; [done|].
  repeat constructor. apply Forall_cons in Hl as [Hl _]. cbn [open_file fst snd] in *.
  unfold wal_file in *. rewrite encode_entries_app, !zlen_app in Hl. rewrite !zlen_app.
  pose proof (zlen_nonneg (encode_entries (wr_header s) rest)). lia.
Qed.

Lemma file_chain_zlen (closed : list closed_file) : zlen (map chain_file closed) = zlen closed.
Proof. unfold zlen. by rewrite length_map. Qed.

Lemma keep_entries (closed : list closed_file) :
  zlen (old ++ map chain_file closed) = zlen old + zlen closed /\
  zlen (all_entries (old ++ map chain_file closed)) =
    zlen (all_entries old) + zlen (closed_entries closed).
Proof.
  split; [by rewrite zlen_app, file_chain_zlen|].
  unfold all_entries. rewrite map_app, concat_app, zlen_app.
  fold (all_entries (map chain_file closed)). by rewrite chain_entries.
Qed.

(** What a writer did since it had closed the files [closed], put on disk. *)
Lemma absorb_files w s s' closed tl cs :
  on_disk env q lo base frame ((old ++ map chain_file closed) ++ tl) (length old + length closed) (ww_store w) ->
  length (wr_disk s) = length closed -> (length closed <= length (wr_disk s'))%nat ->
  wr_files s' = map (file_entry wal_dir) (closed ++ cs) ->
  file_chain fid0 start (closed ++ cs) -> (length tl <= length cs)%nat ->
  Forall (fun c : closed_file => zlen (wal_file (snd (fst c)) (snd c) []) <= size_limit) cs ->
  fid0 + zlen (closed ++ cs) <= 2 ^ 24 -> start + zlen (closed_entries (closed ++ cs)) < 2 ^ 128 ->
  on_disk env q lo base frame (old ++ map chain_file (closed ++ cs)) (length old + length closed)
    (ww_store (absorb w s s')).
Proof.
  intros Hd Hls Hls' Hfiles Hchain Htl Hsz Hfid Hids.
  apply file_chain_app in Hchain as [_ Hchain]. destruct (keep_entries closed) as [Hz He].
  assert (length old + length closed = length (old ++ map chain_file closed))%nat as Hk
    by (by rewrite length_app, length_map).
  rewrite Hk in Hd |- *. rewrite zlen_app in Hfid. rewrite closed_app, zlen_app in Hids.
  apply (on_disk_extend env q lo base frame _ _ cs) in Hd; rewrite ?Hz, ?He; try done; try lia;
    [|by rewrite !Z.add_assoc].
  rewrite map_app, app_assoc.
  replace (ww_store (absorb w s s')) with (extended env q cs (ww_store w)); [exact Hd|].
  unfold extended, absorb. cbn [ww_store]. f_equal. f_equal.
  rewrite <- drop_app_le by lia. change (wr_disk s' ++ [_]) with (wr_files s').
  rewrite Hfiles, map_app, Hls. rewrite <- (length_map (file_entry wal_dir) closed).
  by rewrite drop_app_length.
Qed.

Lemma absorb_disk w s s' closed extra cur cur' arrived arrived' :
  wr_good_at fid0 start closed cur arrived s ->
  wr_good_at fid0 start (closed ++ extra) cur' arrived' s' ->
  wr_queue_path s = wal_dir -> wr_later s s' -> uintn_val (wr_file_id s') < 2 ^ 24 ->
  start + zlen (closed_entries (closed ++ extra) ++ cur') < 2 ^ 128 ->
  live_disk closed cur s (ww_store w) ->
  live_disk (closed ++ extra) cur' s' (ww_store (absorb w s s')).
Proof.
  intros Hg Hg' Hp (Hp' & _ & _) Hfid Hids Hd done rest Hcur Hholds.
  destruct (open_at _ _ _ _ _ _ Hg) as (done0 & rest0 & Hcur0 & Hh0 & _).
  pose proof (open_chain _ _ _ _ _ _ Hg' Hcur) as Hchain.
  pose proof (open_size _ _ _ _ done Hg' (ex_intro _ rest Hcur)) as Hsz.
  pose proof (proj1 Hg) as Hr. pose proof (proj1 Hg') as Hr'.
  destruct (rel_file_id _ _ _ _ _ _ Hr) as [_ Hf]. destruct (rel_file_id _ _ _ _ _ _ Hr') as [_ Hf'].
  rewrite zlen_app in Hf'. pose proof (zlen_nonneg extra). pose proof (zlen_nonneg rest).
  specialize (Hd done0 rest0 Hcur0 Hh0). unfold live_files in Hd |- *.
  rewrite map_app, app_assoc in Hd. rewrite <- app_assoc in Hchain, Hsz |- *.
  apply Forall_app in Hsz as [_ Hsz].
  eapply on_disk_sealed.
  - eapply absorb_files; [exact Hd|..]; try done.
    + by rewrite (disk_entries _ _ _ _ _ _ Hr), length_map.
    + rewrite (disk_entries _ _ _ _ _ _ Hr'), length_map, length_app. lia.
    + unfold wr_files, holds in *. rewrite (disk_entries _ _ _ _ _ _ Hr'), app_assoc.
      by rewrite (map_app _ (closed ++ extra)), (rel_path _ _ _ _ _ _ Hr'), Hp', Hp, Hholds.
    + rewrite length_app. cbn [length map]. lia.
    + rewrite app_assoc, !zlen_app. change (zlen [open_file s' done]) with 1. lia.
    + rewrite app_assoc, closed_app. change (closed_entries [open_file s' done]) with (done ++ []).
      rewrite app_nil_r. rewrite Hcur, app_assoc, zlen_app in Hids. lia.
  - rewrite ?length_app, ?length_map, ?length_app. cbn [length]. lia.
Qed.

(** The number of files, by the entries. *)
Lemma live_few s reqs closed cur arrived mq numbered sys :
  live_at s reqs closed cur arrived mq numbered sys ->
  zlen closed <= zlen (closed_entries closed ++ cur) <= zlen arrived /\ zlen arrived <= zlen numbered /\
  uintn_val (wr_file_id s) = lo + zlen old + zlen closed.
Proof.
  intros []. destruct lv_writer0 as (Hr & _ & _ & _ & _ & Hp).
  destruct (rel_file_id _ _ _ _ _ _ Hr) as [_ Hf].
  apply Permutation_length in Hp. apply Permutation_length in lv_flow0. rewrite !length_app in *.
  unfold zlen in *. rewrite !length_app in *. lia.
Qed.

(** The files a writer completed. *)
Lemma completed_ids closed cur next s : wr_rel fid0 start closed cur next s ->
  Forall (fun c => uintn_canonical (fst (fst c))) closed -> 0 <= zlen old ->
  Forall (fun m => wc_queue_id m = wr_queue_id s /\ uintn_canonical (wc_file_id m) /\
    lo <= uintn_val (wc_file_id m) < fid0 + zlen closed) (wr_completed s).
Proof.
  intros Hr Hids Hz. apply List.Forall_forall. intros m Hm.
  pose proof (rel_queue _ _ _ _ _ _ Hr) as Hq. rewrite List.Forall_forall in Hq.
  split; [by apply Hq|]. apply (in_map wc_file_id) in Hm. rewrite (rel_completed _ _ _ _ _ _ Hr) in Hm.
  apply in_map_iff in Hm as (c & <- & Hc). rewrite List.Forall_forall in Hids. split; [by apply Hids|].
  apply list_elem_of_In, list_elem_of_lookup in Hc as [i Hi].
  destruct (chain_at _ _ _ _ _ (rel_chain _ _ _ _ _ _ Hr) Hi) as (_ & Hv & _).
  assert (Z.of_nat i < zlen closed) by (apply Nat2Z.inj_lt; by apply lookup_lt_Some in Hi).
  rewrite Hv. lia.
Qed.

(** The files in use are tidy. *)
Lemma live_tidy closed fid h es : Forall full_q old -> Forall full_file closed -> wide h ->
  tidy (old ++ map chain_file (closed ++ [(fid, h, es)])).
Proof.
  intros Ho Hc Hh. rewrite map_app, app_assoc. apply tidy_snoc; [|done].
  apply Forall_app. split; [done|]. by apply Forall_map.
Qed.

(** *** Steps of the writer *)

Lemma live_moved s reqs closed cur arrived mq numbered sys s' reqs' extra cur' arrived' :
  live_at s reqs closed cur arrived mq numbered sys ->
  wr_good_at fid0 start (closed ++ extra) cur' arrived' s' -> wr_later s s' ->
  arrived' ++ concat (map request_entries reqs') ≡ₚ arrived ++ concat (map request_entries reqs) ->
  Forall (fun req => req <> Close) reqs' -> grown start s s' closed cur extra cur' ->
  (ordered -> ob_pending (wr_buffer s') = [] /\
     arrived' ++ concat (map request_entries reqs') = arrived ++ concat (map request_entries reqs)) ->
  live_at s' reqs' (closed ++ extra) cur' arrived' mq numbered
    {| sy_fs := with_wal (sy_fs sys) (set_task (absorb (nf_wal (sy_fs sys)) s s') q
                  {| wt_state := Some s'; wt_pending := reqs' |});
       sy_calls := sy_calls sys |}.
Proof.
  intros Hl Hg' Hlat Hperm Hreqs Hne Hord.
  destruct Hl. pose proof Hlat as (Hp & Hq & acks & Hacks).
  assert (zlen (closed ++ extra) <= zlen (closed_entries (closed ++ extra) ++ cur') <= zlen numbered)
    as Hfew.
  { pose proof (gr_few _ _ _ _ _ _ _ Hne). rewrite (zlen_app closed). split; [lia|].
    pose proof Hg' as (_ & _ & _ & _ & _ & Hp'). apply Permutation_length in Hp'.
    pose proof (Permutation_length Hperm) as Hl1. pose proof (Permutation_length lv_flow0) as Hl2.
    rewrite !length_app in *. unfold zlen. rewrite length_app. lia. }
  assert (uintn_val (wr_file_id s') = fid0 + zlen (closed ++ extra)) as Hfid by apply Hg'.
  assert (forall a, In a (all_acks s) -> In a (all_acks s')) as Hsub.
  { intros a Ha. rewrite Hacks. apply in_or_app. by left. }
  split; cbn [sy_fs sy_calls with_wal nf_wal nf_mem nf_store set_task ww_writers ww_acks ww_store];
    try done.
  - apply lookup_insert_eq.
  - congruence.
  - congruence.
  - by rewrite app_assoc, Hperm, <- app_assoc.
  - intros a Ha. by apply Hsub, lv_acked0.
  - cbn [absorb ww_acks]. rewrite Hacks, drop_app_length. apply Forall_app. split.
    + eapply Forall_impl; [exact lv_acks0|]. intros a Ha E. rewrite <- Hacks. by apply Hsub, Ha.
    + apply List.Forall_forall. intros a Ha _. apply in_or_app. by right.
  - intros Hcl E. destruct (gr_cur _ _ _ _ _ _ _ Hne E) as [-> ->]. rewrite app_nil_r in Hcl. by apply lv_last_file0.
  - pose proof (gr_few _ _ _ _ _ _ _ Hne). rewrite zlen_app. lia.
  - intros p. destruct (decide (p = qid_path q)); [done|]. rewrite lookup_insert_ne by done. apply lv_only0.
  - intros Ho. destruct (Hord Ho) as [Hpend E]. destruct (lv_order0 Ho) as [_ E0].
    split; [done|]. by rewrite app_assoc, E, <- app_assoc.
  - eapply absorb_disk; try done; lia.
  - apply (gr_full _ _ _ _ _ _ _ Hne lv_wide0). lia.
  - apply Forall_app. split; [done|]. apply (gr_full _ _ _ _ _ _ _ Hne lv_wide0). lia.
  - destruct lv_ids0 as [Hc Hcs]. apply (gr_ids _ _ _ _ _ _ _ Hne) in Hc as [Hc He].
    split; [done|]. by apply Forall_app.
  - cbn [absorb ww_complete]. apply Forall_app. split.
    + eapply Forall_impl; [exact lv_complete0|]. intros m (? & ? & ?). split_and!; try done; [lia|].
      rewrite zlen_app. pose proof (zlen_nonneg extra). lia.
    + apply Forall_drop. destruct lv_ids0 as [Hc Hcs]. apply (gr_ids _ _ _ _ _ _ _ Hne) in Hc as [_ He].
      rewrite <- lv_queue0, <- Hq. eapply completed_ids; [apply Hg'|by apply Forall_app|apply zlen_nonneg].
Qed.

Lemma flow_arriving s reqs closed cur arrived mq numbered sys req :
  live_at s (req :: reqs) closed cur arrived mq numbered sys ->
  arriving start arrived (request_entries req).
Proof.
  intros []. cbn [map concat] in lv_flow0. rewrite <- app_assoc in lv_flow0.
  pose proof (consecutive_nodup _ _ lv_numbered0) as Hnd. split.
  - apply List.Forall_forall. intros e He.
    assert (In e numbered) as Hin.
    { rewrite <- lv_flow0. apply in_or_app. right. apply in_or_app. by left. }
    rewrite List.Forall_forall in lv_bounds0. split; [by apply lv_bounds0|].
    apply (consecutive_in _ _ _ lv_numbered0 Hin).
  - rewrite <- lv_flow0, app_assoc, map_app in Hnd. by apply NoDup_app in Hnd as [? _].
Qed.

Lemma live_turn s req reqs closed cur arrived mq numbered sys :
  live_at s (req :: reqs) closed cur arrived mq numbered sys ->
  exists s' closed' cur' arrived', wr_later s s' /\ live_at s' reqs closed' cur' arrived' mq numbered
    {| sy_fs := writer_turn (sy_fs sys) q; sy_calls := sy_calls sys |}.
Proof.
  intros Hl. unfold writer_turn, task_turn. rewrite (lv_task _ _ _ _ _ _ _ _ Hl).
  pose proof (lv_reqs _ _ _ _ _ _ _ _ Hl) as Hr. apply Forall_cons in Hr as [Hne Hr].
  destruct (request_good _ _ _ _ _ _ _ (lv_writer _ _ _ _ _ _ _ _ Hl) Hne (flow_arriving _ _ _ _ _ _ _ _ _ Hl))
    as (s' & extra & cur' & -> & Hg' & Hne' & Hlat & Hbuf).
  assert (match req with Close => true | _ => false end = false) as -> by by destruct req.
  exists s', (closed ++ extra), cur', (arrived ++ request_entries req). split; [done|].
  eapply live_moved; try done; [cbn [map concat]; by rewrite app_assoc|].
  intros Ho. destruct Hl. destruct (lv_order0 Ho) as [Hpend E].
  cbn [map concat] in *. split; [|by rewrite app_assoc]. rewrite Hbuf. rewrite <- app_assoc in E.
  eapply in_order; [done|done|by rewrite E|]. rewrite <- E in lv_bounds0.
  apply Forall_app in lv_bounds0 as [_ Hb]. apply Forall_app in Hb as [Hb _].
  eapply Forall_impl; [exact Hb|]. intros e He. apply canonical_ok, He.
Qed.

Lemma live_writer numbered sys : live numbered sys ->
  live numbered {| sy_fs := writer_turn (sy_fs sys) q; sy_calls := sy_calls sys |}.
Proof.
  intros (s & [|req reqs] & closed & cur & arrived & mq & Hl).
  - exists s, [], closed, cur, arrived, mq. unfold writer_turn, task_turn.
    rewrite (lv_task _ _ _ _ _ _ _ _ Hl). by destruct Hl.
  - destruct (live_turn _ _ _ _ _ _ _ _ _ Hl) as (s' & closed' & cur' & arrived' & _ & Hl').
    by exists s', reqs, closed', cur', arrived', mq.
Qed.

Lemma live_flush numbered sys ev : ev = EvTake \/ ev = EvAttempt Succeeds -> live numbered sys ->
  live numbered {| sy_fs := flush_turn (sy_fs sys) q ev; sy_calls := sy_calls sys |}.
Proof.
  intros Hev (s & reqs & closed & cur & arrived & mq & Hl). unfold flush_turn, flush_task.
  rewrite (lv_task _ _ _ _ _ _ _ _ Hl).
  assert (reliable ev /\ written [ev] = []) as [Hr Hw] by by destruct Hev as [-> | ->].
  exists (wr_background s ev), reqs, closed, cur, arrived, mq. rewrite <- (app_nil_r closed).
  apply (live_moved s reqs closed cur arrived mq numbered sys _ _ [] cur arrived); try done.
  - rewrite app_nil_r. apply background_good_at; try done. apply Hl.
  - by apply background_later.
  - apply Hl.
  - apply grown_refl; unfold wr_background; by destruct (afw_exec _ _).
  - intros Ho. rewrite background_buffer. destruct Hl. by destruct (lv_order0 Ho).
Qed.

Lemma live_send numbered sys k c : live numbered sys -> sy_calls sys !! k = Some c ->
  (ordered -> k = 0%nat) ->
  live numbered {| sy_fs := finish_call (sy_fs sys) q c; sy_calls := delete k (sy_calls sys) |}.
Proof.
  intros (s & reqs & closed & cur & arrived & mq & Hl) Hk Hk0.
  assert (exists req, req <> Close /\ request_entries req = call_entries c /\
    finish_call (sy_fs sys) q c = with_wal (sy_fs sys) (set_task (nf_wal (sy_fs sys)) q
      {| wt_state := Some s; wt_pending := reqs ++ [req] |})) as (req & Hne & He & ->).
  { unfold finish_call, enqueue_send, batch_send, ws_enqueue, ws_enqueue_batch, ws_send.
    rewrite (lv_task _ _ _ _ _ _ _ _ Hl). cbn [wt_state wt_pending].
    destruct c as [id data|ids data]; [by exists (Enqueue id data)|by exists (EnqueueBatch (combine ids data))]. }
  exists s, (reqs ++ [req]), closed, cur, arrived, mq. destruct Hl.
  split; cbn [sy_fs sy_calls with_wal nf_wal nf_mem nf_store set_task ww_writers ww_acks ww_store]; try done.
  - apply lookup_insert_eq.
  - rewrite <- lv_flow0, map_app, concat_app. cbn [map concat]. rewrite app_nil_r, He, <- app_assoc.
    rewrite (delete_Permutation (sy_calls sys) k c Hk) at 2. done.
  - apply Forall_app. split; [done|]. by repeat constructor.
  - intros p. destruct (decide (p = qid_path q)); [done|]. rewrite lookup_insert_ne by done. apply lv_only0.
  - intros Ho. destruct (lv_order0 Ho) as [Hpend E]. split; [done|]. rewrite (Hk0 Ho) in *.
    destruct (sy_calls sys) as [|c0 cs]; [done|]. injection Hk as ->. rewrite <- E.
    rewrite map_app, concat_app. cbn [map concat delete list_delete]. by rewrite app_nil_r, He, <- app_assoc.
Qed.

(** *** Steps of the memory *)

Definition acked_le (a b : option uintn) : Prop :=
  forall x, a = Some x -> exists y, b = Some y /\ uintn_val x <= uintn_val y.

Lemma kept_step numbered new dropped inner inner' :
  consecutive base (all_entries old ++ numbered ++ new) -> mem_kept numbered inner ->
  mi_entries inner ++ new = dropped ++ mi_entries inner' ->
  Forall (fun e => match mi_last_acked_id inner' with
                   | Some a => uintn_val (fst e) <= uintn_val a
                   | None => False end) dropped ->
  acked_le (mi_last_acked_id inner) (mi_last_acked_id inner') ->
  mem_kept (numbered ++ new) inner'.
Proof.
  intros Hc (pre & Hpre & Hk) He Hd Hle. exists (pre ++ dropped).
  assert (all_entries old ++ numbered ++ new = (pre ++ dropped) ++ mi_entries inner') as E
    by (rewrite app_assoc, Hpre, <- !app_assoc; by f_equal).
  split; [done|]. rewrite E in Hc. apply consecutive_app in Hc as [Hc _].
  apply consecutive_app in Hc as [_ Hc]. destruct dropped as [|e l] using rev_ind.
  - rewrite app_nil_r. destruct Hk as [|(a & Ha & Hk)]; [by left|right].
    destruct (Hle a Ha) as (b & Hb & ?). exists b. split; [done|lia].
  - clear IHl. right. apply Forall_app in Hd as [_ Hd]. apply Forall_cons in Hd as [Hd _].
    destruct (mi_last_acked_id inner') as [a|]; [|done]. exists a. split; [done|].
    apply consecutive_app in Hc as [_ [Hv _]]. rewrite !zlen_app, zlen_cons, zlen_nil. lia.
Qed.

Lemma live_log s reqs closed cur arrived mq numbered sys :
  live_at s reqs closed cur arrived mq numbered sys ->
  consecutive base (all_entries old ++ numbered).
Proof. intros []. by apply consecutive_app. Qed.

(** The first half of a call; [c] is the second. *)
Lemma live_number numbered sys mq' mem d ds c :
  live numbered sys -> start + zlen numbered + zlen (d :: ds) <= 2 ^ 32 ->
  fid0 + zlen numbered + zlen (d :: ds) < 2 ^ 24 ->
  Forall (fun x => zlen x <= 2 ^ 62) (d :: ds) ->
  (forall mq, ms_queues (nf_mem (sy_fs sys)) !! qid_path q = Some mq ->
    exists ids, mq_enqueue_batch mq (d :: ds) = Ok (mq', ids) /\ call_entries c = combine ids (d :: ds)) ->
  ms_queues mem !! qid_path q = Some mq' ->
  exists new, map snd new = d :: ds /\
    live (numbered ++ new)
      {| sy_fs := with_mem (sy_fs sys) mem; sy_calls := sy_calls sys ++ [c] |}.
Proof.
  intros (s & reqs & closed & cur & arrived & mq & Hl) Hlim Hroom Hsz Hmq Hmem.
  pose proof (live_log _ _ _ _ _ _ _ _ Hl) as Hlog. destruct Hl.
  destruct (Hmq mq lv_mem0) as (ids & Hb & Hc).
  destruct (enqueue_batch_inv mq d ds lv_mem_inv0) as (mq1 & Hb1 & Hq' & Hn' & dropped & He & Hd & _).
  destruct (batch_frame _ _ _ _ _ Hb) as [Hlast _].
  rewrite Hb1 in Hb. injection Hb as -> <-.
  assert (call_entries c = number_entries (next_id (mq_inner mq)) (d :: ds)) as Hce
    by (rewrite Hc; apply (number_combine _ (d :: ds))). clear Hc.
  assert (uintn_canonical (next_id (mq_inner mq)) /\
    uintn_val (next_id (mq_inner mq)) = start + zlen numbered) as [Hnc Hnv].
  { destruct (next_id_spec (mq_inner mq) (mv_last_ok _ (proj1 lv_mem_inv0))) as [_ Hv].
    split; [|by rewrite Hv]. unfold next_id.
    destruct (mi_last_id (mq_inner mq)); [by apply increment_canonical|by apply (uid_spec 0)]. }
  set (new := number_entries (next_id (mq_inner mq)) (d :: ds)) in *.
  destruct (number_entries_spec (next_id (mq_inner mq)) (d :: ds)) as (_ & Hcons & Hsnd);
    [by apply canonical_ok|]. fold new in Hcons, Hsnd. rewrite Hnv in Hcons.
  pose proof (number_canonical (next_id (mq_inner mq)) (d :: ds) Hnc) as Hcan. fold new in Hcan.
  assert (zlen new = zlen (d :: ds)) as Hzn by apply zlen_number.
  assert (mi_last_acked_id (mq_inner mq') = mi_last_acked_id (mq_inner mq)) as Hack.
  { rewrite enqueue_batch_eq in Hb1. cbn zeta in Hb1.
    destruct (if bool_decide _ then _ else _) as [subs| |]; ok_step; try done.
    injection Hb1 as <-. cbn [set_inner mq_inner]. by rewrite cleanup_acked. }
  exists new. split; [done|]. exists s, reqs, closed, cur, arrived, mq'.
  split; cbn [sy_fs sy_calls with_mem nf_wal nf_mem nf_store]; try done.
  - rewrite map_app, concat_app. cbn [map concat]. rewrite app_nil_r, Hce, <- lv_flow0.
    by rewrite <- !app_assoc.
  - apply consecutive_app. done.
  - apply Forall_app. split; [done|]. apply List.Forall_forall. intros e Hin.
    pose proof (consecutive_in _ _ _ Hcons Hin). rewrite List.Forall_forall in Hcan.
    split_and!; [by apply Hcan|lia|]. rewrite List.Forall_forall in Hsz. apply Hsz.
    rewrite <- Hsnd. by apply in_map.
  - rewrite zlen_app. lia.
  - rewrite zlen_app. lia.
  - rewrite Hn', lv_last0, zlen_app, Hzn, zlen_cons. lia.
  - rewrite Hlast. destruct (last (map fst new)) as [l|] eqn:El; [|done].
    apply last_Some in El as [l' El]. assert (In l (map fst new)) as Hin
      by (rewrite El; apply in_or_app; right; by left).
    apply in_map_iff in Hin as (e & <- & Hin). rewrite List.Forall_forall in Hcan. by apply Hcan.
  - eapply kept_step; [|done|exact He| |].
    + rewrite app_assoc. apply consecutive_app. split; [done|]. rewrite zlen_app, Z.add_assoc. done.
    + by rewrite Hack.
    + rewrite Hack. intros x ->. by exists x.
  - intros a Ha. apply lv_acked0. by rewrite <- Hack.
  - intros Ho. destruct (lv_order0 Ho) as [Hpend E]. split; [done|].
    rewrite map_app, concat_app. cbn [map concat]. by rewrite app_nil_r, Hce, <- E, <- !app_assoc.
Qed.

(** An acknowledged entry is one of the entries. *)
Lemma acked_entry s reqs closed cur arrived mq numbered sys a :
  live_at s reqs closed cur arrived mq numbered sys -> In (q, a) (all_acks s) -> uintn_canonical a.
Proof.
  intros [] Ha. destruct (open_at _ _ _ _ _ _ lv_writer0) as (done & rest & -> & _ & Hacks).
  rewrite List.Forall_forall in Hacks. specialize (Hacks _ Ha). rewrite lv_queue0 in Hacks.
  apply in_map_iff in Hacks as (e & [= <-] & Hin).
  assert (In e numbered) as Hn.
  { rewrite <- lv_flow0. apply in_or_app. left.
    destruct lv_writer0 as (_ & _ & _ & _ & _ & Hp). rewrite <- Hp. apply in_or_app. left.
    rewrite app_assoc. apply in_or_app. by left. }
  rewrite List.Forall_forall in lv_bounds0. by apply (lv_bounds0 e).
Qed.

Lemma live_ack numbered sys : live numbered sys ->
  live numbered {| sy_fs := ack_turn (sy_fs sys); sy_calls := sy_calls sys |}.
Proof.
  intros (s & reqs & closed & cur & arrived & mq & Hl). unfold ack_turn.
  destruct (ww_acks (nf_wal (sy_fs sys))) as [|[q' id] acks] eqn:Ea.
  { exists s, reqs, closed, cur, arrived, mq. by destruct Hl. }
  pose proof (live_log _ _ _ _ _ _ _ _ Hl) as Hlog.
  pose proof (lv_acks _ _ _ _ _ _ _ _ Hl) as Has. rewrite Ea in Has.
  apply Forall_cons in Has as [Hid Has]. cbn [fst] in Hid.
  destruct (decide (qid_path q' = qid_path q)) as [E|E].
  2:{ exists s, reqs, closed, cur, arrived, mq. destruct Hl.
      split; cbn [sy_fs sy_calls with_mem with_wal nf_wal nf_mem nf_store ww_writers ww_acks ww_store]; try done.
      unfold ms_ack. destruct (ms_queues _ !! qid_path q'); [|done]. cbn [set_queue ms_queues].
      by rewrite lookup_insert_ne. }
  assert (q' = q) as -> by (destruct q', q; cbn in E; by subst).
  specialize (Hid eq_refl). pose proof (acked_entry _ _ _ _ _ _ _ _ _ Hl Hid) as Hidc.
  exists s, reqs, closed, cur, arrived, (mq_ack mq id).
  pose proof (acked_entry _ _ _ _ _ _ _ _ (default id (mi_last_acked_id (mq_inner mq))) Hl) as Hold.
  destruct Hl. pose proof (ack_inv mq id lv_mem_inv0 (canonical_ok _ Hidc)) as Hinv'.
  set (acked := match mi_last_acked_id (mq_inner mq) with
                | None => Some id
                | Some last => if uintn_ltb last id then Some id else Some last end).
  assert (mi_last_acked_id (mq_inner (mq_ack mq id)) = acked) as Hacked.
  { unfold mq_ack. cbn [set_inner mq_inner]. by rewrite cleanup_acked. }
  assert (forall a, acked = Some a -> In (q, a) (all_acks s)) as Hin.
  { unfold acked. intros a. destruct (mi_last_acked_id (mq_inner mq)) as [l|] eqn:El; [|by intros [= <-]].
    destruct (uintn_ltb l id); intros [= <-]; [done|]. by apply lv_acked0. }
  assert (acked_le (mi_last_acked_id (mq_inner mq)) acked) as Hle.
  { unfold acked. intros l El. rewrite El in *. cbn [default] in Hold.
    specialize (Hold (lv_acked0 _ eq_refl)).
    rewrite ltb_spec_val by (by apply ok_wf, canonical_ok).
    destruct (Z.ltb_spec (uintn_val l) (uintn_val id)); eexists; (split; [reflexivity|lia]). }
  destruct (cleanup_spec (mq_max_memory_usage mq)
    {| mi_entries := mi_entries (mq_inner mq); mi_last_id := mi_last_id (mq_inner mq);
       mi_first_id := mi_first_id (mq_inner mq); mi_last_acked_id := acked;
       mi_memory_usage := mi_memory_usage (mq_inner mq) |}) as (_ & Hlast & _ & dropped & Hd & Hda & _).
  { destruct (proj1 lv_mem_inv0). split; cbn [mi_entries mi_last_id mi_first_id mi_last_acked_id
      mi_memory_usage]; try done. destruct acked as [a|] eqn:Eq; [|done].
    unfold acked in Eq. destruct (mi_last_acked_id (mq_inner mq)) as [l|];
      [destruct (uintn_ltb l id)|]; injection Eq as <-; done || by apply canonical_ok. }
  cbn [mi_entries mi_last_id mi_last_acked_id] in Hlast, Hd, Hda.
  split; cbn [sy_fs sy_calls with_mem with_wal nf_wal nf_mem nf_store ww_writers ww_acks ww_store]; try done.
  - unfold ms_ack. rewrite lv_mem0. apply lookup_insert_eq.
  - unfold mq_ack. cbn [set_inner mq_inner]. by rewrite cleanup_last.
  - unfold mq_ack. cbn [set_inner mq_inner]. by rewrite cleanup_last.
  - rewrite <- (app_nil_r numbered). eapply (kept_step numbered [] dropped); rewrite ?app_nil_r; try done.
    + by rewrite Hacked.
    + by rewrite Hacked.
  - rewrite Hacked. apply Hin.
Qed.

(** *** Steps of the store *)

(** The other tasks leave the writer, its channel and the memory alone. *)
Lemma live_tasks s reqs closed cur arrived mq numbered fs fs' calls :
  live_at s reqs closed cur arrived mq numbered {| sy_fs := fs; sy_calls := calls |} ->
  ww_writers (nf_wal fs') = ww_writers (nf_wal fs) -> ww_acks (nf_wal fs') = ww_acks (nf_wal fs) ->
  nf_mem fs' = nf_mem fs -> nf_cloud_downloader fs' = nf_cloud_downloader fs ->
  (forall dm, nf_disk_monitor fs' = Some dm -> overlooked /\
    forall k m, dm_monitors dm !! k = Some m -> harmless m) ->
  live_disk closed cur s (nf_store fs') ->
  Forall (fun m => wc_queue_id m = q /\ uintn_canonical (wc_file_id m) /\
    lo <= uintn_val (wc_file_id m) < fid0 + zlen closed) (ww_complete (nf_wal fs')) ->
  Forall (fun t => ot_queue t = q /\ uintn_ok (ot_file_id t) /\
    uintn_val (ot_file_id t) <= fid0) (nf_spawned fs') ->
  live_at s reqs closed cur arrived mq numbered {| sy_fs := fs'; sy_calls := calls |}.
Proof.
  intros [] Hw Ha Hm Hc Hdm Hd Hcm Hsp. cbn [sy_fs sy_calls] in *.
  split; cbn [sy_fs sy_calls]; rewrite ?Hw, ?Ha, ?Hm, ?Hc; done.
Qed.

(** The file of a complete message. *)
Lemma sealed_file closed s done m : Forall full_file closed ->
  Forall full_q old ->
  uintn_canonical (wc_file_id m) -> lo <= uintn_val (wc_file_id m) < fid0 + zlen closed ->
  0 <= lo -> fid0 + zlen closed < 2 ^ 24 ->
  exists i f, live_files closed s done !! i = Some f /\ (i < length old + length closed)%nat /\
    qf_entries f <> [] /\ wc_file_id m = uid (lo + Z.of_nat i).
Proof.
  intros Hfull Hold Hc Hr Hlo Hhi. set (i := Z.to_nat (uintn_val (wc_file_id m) - lo)).
  assert (i < length old + length closed)%nat as Hi by (unfold zlen in *; lia).
  assert (exists f, live_files closed s done !! i = Some f /\ qf_entries f <> []) as (f & Hf & Hne).
  { unfold live_files. destruct (decide (i < length old)%nat) as [Hlt|Hge].
    - destruct (lookup_lt_is_Some_2 old i Hlt) as [f Hf]. exists f. rewrite lookup_app_l by done.
      split; [done|]. by destruct (Forall_lookup_1 _ _ _ _ Hold Hf).
    - destruct (lookup_lt_is_Some_2 closed (i - length old)) as [c Hc']; [lia|]. exists (chain_file c).
      rewrite lookup_app_r, list_lookup_fmap, lookup_app_l, Hc' by lia.
      split; [done|]. by destruct (Forall_lookup_1 _ _ _ _ Hfull Hc'). }
  exists i, f. split_and!; try done. apply canonical_inj; [done|apply uid_spec..|].
  - unfold zlen in *. lia.
  - destruct (uid_spec (lo + Z.of_nat i)) as [_ ->]; unfold zlen in *; lia.
Qed.

Lemma live_store numbered fs calls fault uuid : live numbered {| sy_fs := fs; sy_calls := calls |} ->
  exists fs', store_turn env fault uuid fs = Some fs' /\
    live numbered {| sy_fs := fs'; sy_calls := calls |}.
Proof.
  intros (s & reqs & closed & cur & arrived & mq & Hl). unfold store_turn.
  destruct (ww_complete (nf_wal fs)) as [|m complete] eqn:Em;
    [exists fs; by split; [|exists s, reqs, closed, cur, arrived, mq]|].
  destruct (nf_workers fs); [|exists fs; by split; [|exists s, reqs, closed, cur, arrived, mq]].
  destruct (live_few _ _ _ _ _ _ _ _ Hl) as (Hf1 & Hf2 & _).
  destruct (open_at _ _ _ _ _ _ (lv_writer _ _ _ _ _ _ _ _ Hl)) as (done0 & rest0 & Hcur0 & Hh0 & _).
  pose proof (lv_complete _ _ _ _ _ _ _ _ Hl) as Hcm. cbn [sy_fs] in Hcm. rewrite Em in Hcm.
  apply Forall_cons in Hcm as [(Hq & Hc & Hr) Hcm].
  pose proof (lv_disk _ _ _ _ _ _ _ _ Hl) as Hd. pose proof (lv_room _ _ _ _ _ _ _ _ Hl) as Hroom.
  pose proof (od_lo _ _ _ _ _ _ _ _ (Hd _ _ Hcur0 Hh0)) as Hlo.
  assert (forall done rest, cur = done ++ rest -> holds s done ->
    exists st', process_entry env (nf_store fs) fault uuid m = Some st' /\
      on_disk env q lo base frame (live_files closed s done) (length old + length closed) st') as Hp.
  { intros done rest Hcur Hh. specialize (Hd done rest Hcur Hh).
    destruct (sealed_file closed s done m) as (i & f & Hi & Hlt & Hne & Hid);
      [apply Hl|apply Hl|done|done|done|lia|].
    by apply (on_disk_processed _ _ _ _ _ _ _ _ Hd i f). }
  destruct (Hp _ _ Hcur0 Hh0) as (st' & Hst & _). unfold nf_store in Hst. rewrite Hst.
  eexists. split; [reflexivity|]. exists s, reqs, closed, cur, arrived, mq.
  apply (live_tasks _ _ _ _ _ _ _ fs); try done; [apply Hl| |apply Hl].
  intros done rest Hcur Hh. destruct (Hp _ _ Hcur Hh) as (st1 & Hst1 & Hd1).
  unfold nf_store in Hst1. rewrite Hst in Hst1. by injection Hst1 as ->.
Qed.

Lemma live_done numbered fs calls : live numbered {| sy_fs := fs; sy_calls := calls |} ->
  live numbered {| sy_fs := done_turn fs; sy_calls := calls |}.
Proof.
  intros (s & reqs & closed & cur & arrived & mq & Hl). exists s, reqs, closed, cur, arrived, mq.
  unfold done_turn. destruct (st_done (nf_store fs)) as [|[q' x] dones]; [done|].
  cbn [with_store with_wal nf_disk_monitor].
  assert (match nf_disk_monitor fs with
          | Some dm => Some (fst (enqueue_for_offload dm q' x)) = Some dm
          | None => True end) as Hdm.
  { destruct (nf_disk_monitor fs) as [dm|] eqn:Edm; [|done].
    destruct (lv_monitor _ _ _ _ _ _ _ _ Hl dm Edm) as [_ Hall]. unfold enqueue_for_offload.
    destruct (dm_monitors dm !! qid_path q') as [m|] eqn:Em; [|done].
    by rewrite (proj2 (proj2 (Hall _ _ Em))). }
  apply (live_tasks _ _ _ _ _ _ _ fs); try done; try (by destruct (nf_disk_monitor _)).
  - intros dm. pose proof (lv_monitor _ _ _ _ _ _ _ _ Hl dm) as Hm. cbn [sy_fs] in Hm.
    destruct (nf_disk_monitor fs) as [dm'|] eqn:Edm; cbn; [by rewrite Hdm|by rewrite Edm].
  - intros done rest Hcur Hh. eapply on_disk_same; [by apply (lv_disk _ _ _ _ _ _ _ _ Hl done rest)|..];
      by destruct (nf_disk_monitor _).
  - destruct (nf_disk_monitor _); apply Hl.
  - destruct (nf_disk_monitor _); apply Hl.
Qed.

(** The files that are not the queue's stay as they were. *)
Lemma live_outside numbered sys p : live numbered sys -> outside env q p ->
  st_files (nf_store (sy_fs sys)) !! p = frame !! p.
Proof.
  intros (s & reqs & closed & cur & arrived & mq & Hl) Hp.
  destruct (open_at _ _ _ _ _ _ (lv_writer _ _ _ _ _ _ _ _ Hl)) as (done0 & rest0 & Hcur0 & Hh0 & _).
  by apply (od_outside _ _ _ _ _ _ _ _ (lv_disk _ _ _ _ _ _ _ _ Hl _ _ Hcur0 Hh0)).
Qed.

(** A tick of the monitor finds nothing. *)
Lemma live_monitor numbered fs calls fuel stuck : live numbered {| sy_fs := fs; sy_calls := calls |} ->
  exists fs', monitor_turn env fuel stuck fs = Some fs' /\
    live numbered {| sy_fs := fs'; sy_calls := calls |}.
Proof.
  intros (s & reqs & closed & cur & arrived & mq & Hl). unfold monitor_turn.
  destruct (nf_disk_monitor fs) as [dm|] eqn:Edm;
    [|exists fs; split; [done|by exists s, reqs, closed, cur, arrived, mq]].
  destruct (lv_monitor _ _ _ _ _ _ _ _ Hl dm Edm) as [(r & Hr & Hno) Hall].
  destruct (open_at _ _ _ _ _ _ (lv_writer _ _ _ _ _ _ _ _ Hl)) as (done0 & rest0 & Hcur0 & Hh0 & _).
  pose proof (lv_disk _ _ _ _ _ _ _ _ Hl _ _ Hcur0 Hh0) as Hd. cbn [sy_fs] in Hd.
  rewrite (tick_overlooks (se_io env) stuck r).
  - eexists. split; [reflexivity|]. exists s, reqs, closed, cur, arrived, mq.
    apply (live_tasks _ _ _ _ _ _ _ fs); try done; try apply Hl.
    intros done rest Hcur Hh. eapply on_disk_same; [by apply (lv_disk _ _ _ _ _ _ _ _ Hl done rest)|done..].
  - apply Hd.
  - intros p rest Hp. destruct (Hno p rest Hp) as [Ho Hf].
    by rewrite (od_outside _ _ _ _ _ _ _ _ Hd p Ho).
  - intros k m Hm. destruct (Hall k m Hm) as (Hq & Hmax & _). split; [by rewrite Hq|done].
Qed.

Lemma live_old_files numbered fs calls : live numbered {| sy_fs := fs; sy_calls := calls |} ->
  live numbered {| sy_fs := old_files_turn env fs; sy_calls := calls |}.
Proof.
  intros (s & reqs & closed & cur & arrived & mq & Hl). exists s, reqs, closed, cur, arrived, mq.
  unfold old_files_turn. destruct (nf_spawned fs) as [|t spawned] eqn:Et; [done|].
  pose proof (lv_spawned _ _ _ _ _ _ _ _ Hl) as Hsp. cbn [sy_fs] in Hsp. rewrite Et in Hsp.
  apply Forall_cons in Hsp as [(-> & Hok & Hv) Hsp].
  destruct (open_at _ _ _ _ _ _ (lv_writer _ _ _ _ _ _ _ _ Hl)) as (done0 & rest0 & Hcur0 & Hh0 & _).
  destruct (old_files_listed env q lo base frame _ _ (nf_wal fs) (ot_file_id t) (ot_compression t)
    (ot_encryption t) (lv_disk _ _ _ _ _ _ _ _ Hl _ _ Hcur0 Hh0) Hok) as (new & -> & Hnew).
  apply (live_tasks _ _ _ _ _ _ _ fs); try done; [apply Hl..|].
  cbn [with_workers with_wal nf_wal ww_complete]. apply Forall_app. split; [apply Hl|].
  eapply Forall_impl; [exact Hnew|]. intros m (? & ? & ?). split_and!; try done; [lia|].
  pose proof (zlen_nonneg closed). lia.
Qed.

End Live.
