(* ===== verification/FacadeReads.v ===== *)
(** * Reads of the running facade

    In every live state a read is exact, and reads and subscriptions keep it
    live. *)
From Stdlib Require Import ZArith Lia List Bool Sorted Permutation.
From Stdlib Require Import Ascii String.
From stdpp Require Import base option list gmap strings.
From S2P Require Import Prelude UBig UintN UintNFacts Paths PathsFacts PathsSearch FileTree Types.
From S2P Require Import WalFormat WalReader WalReaderFacts WalReaderTotal OrderedBuffer AckWriter.
From S2P Require Import WalWriter WalWriterFacts Crypto StoreFormat Store StoreFacts WalStore.
From S2P Require Import Cloud Lookup LookupFacts QueueLayout WalLayout Mem MemFacts ReaderFsm.
From S2P Require Import ReaderFsmFacts DiskMonitor NormFs NormFsFacts LiveLayout StoreLive.
From S2P Require Import ReaderTail Facade FacadeFacts.
#[local] Open Scope Z_scope.

Section Reads.
Context {B : Build} {U : UBig} {H : HexCrate} {X : Hasher} {S : UnstableSort}.
Context {C : CryptoLib} {Z' : CompressLib} {S3 : S3Http} {G : GlobCrate}.
Context (env : store_env) (q : queue_id) (lo base : Z) (frame : gmap str bytes)
  (old : list qfile).
Context (ordered : Prop).

Abbreviation start := (base + zlen (all_entries old)).
Abbreviation live := (live env q lo base frame old ordered).

(** ** Reads *)

Lemma live_entries closed s done :
  all_entries (live_files old closed s done) = all_entries old ++ closed_entries closed ++ done.
Proof.
  unfold live_files, all_entries. rewrite map_app, concat_app.
  fold (all_entries (map chain_file (closed ++ [open_file s done]))).
  rewrite chain_entries, closed_app. unfold closed_entries at 2. cbn. by rewrite app_nil_r.
Qed.

(** The files and the memory of a live system. *)
Lemma live_view s reqs closed cur arrived mq numbered sys :
  live_at env q lo base frame old ordered s reqs closed cur arrived mq numbered sys ->
  exists done cur_rest rest, cur = done ++ cur_rest /\ holds s done /\
    let fs := live_files old closed s done in
    all_entries old ++ numbered = log fs rest /\ mem_covers base fs rest mq /\
    on_disk env q lo base frame fs (length fs - 1) (nf_store (sy_fs sys)) /\ fs <> [] /\
    tidy fs /\ zlen fs <= zlen old + zlen numbered + 1 /\
    forall a, acknowledged (sy_fs sys) q a -> In a (map fst (all_entries fs)).
Proof.
  intros Hl. pose proof (live_log _ _ _ _ _ _ _ _ _ _ _ _ _ _ _ Hl) as Hlog.
  destruct (live_few _ _ _ _ _ _ _ _ _ _ _ _ _ _ _ Hl) as (? & ? & Hid). destruct Hl.
  destruct (open_at _ _ _ _ _ _ lv_writer) as (done & rest0 & Hcur & Hholds & Hacks).
  rewrite lv_queue in Hacks.
  specialize (lv_disk done rest0 Hcur Hholds).
  set (fs := live_files old closed s done) in *.
  assert (zlen fs = zlen old + zlen closed + 1) as Hlen.
  { unfold fs, live_files, zlen. rewrite length_app, length_map, length_app. cbn [length]. lia. }
  assert (all_entries fs = all_entries old ++ closed_entries closed ++ done) as He by apply live_entries.
  assert (fs <> []) as Hne by (intros E; rewrite E, zlen_nil in Hlen;
    pose proof (zlen_nonneg old); pose proof (zlen_nonneg closed); lia).
  assert (consecutive base (all_entries fs)) as Hc.
  { rewrite He. apply consecutive_app. split; [done|].
    destruct lv_writer as (_ & _ & _ & Hcw & _). rewrite Hcur, app_assoc in Hcw.
    by apply consecutive_app in Hcw as [? _]. }
  destruct (consecutive_prefix base (all_entries fs) (all_entries old ++ numbered)) as [rest Hrest];
    [done..| |].
  { intros e. rewrite He, !in_app_iff. intros [?|Hin]; [by left|right]. rewrite <- lv_flow.
    apply in_or_app. left. destruct lv_writer as (_ & _ & _ & _ & _ & Hp). rewrite <- Hp.
    rewrite Hcur. rewrite !in_app_iff. tauto. }
  assert (forall a, In (q, a) (all_acks s) -> In a (map fst (all_entries fs))) as Hacked.
  { intros a Ha. rewrite List.Forall_forall in Hacks. specialize (Hacks _ Ha).
    apply in_map_iff in Hacks as (e & [= <-] & Hin).
    apply in_map. rewrite He. apply in_or_app. by right. }
  exists done, rest0, rest. split; [done|]. split; [done|]. cbn zeta. fold fs.
  split; [done|]. split; [|split; [|split; [done|split; [by apply live_tidy|split; [lia|]]]]].
  - split; [apply lv_mem_inv| | |]; unfold log; rewrite <- ?Hrest; [|done|].
    + rewrite lv_last, zlen_app. lia.
    + destruct lv_kept as (pre & Hpre & Hk). exists pre. split; [done|].
      destruct Hk as [Hk|(a & Ha & Hk)]; [rewrite He, zlen_app;
        pose proof (zlen_nonneg (closed_entries closed ++ done)); lia|].
      apply lv_acked, Hacked, in_map_iff in Ha as (e & <- & Hin).
      pose proof (consecutive_in _ _ _ Hc Hin). lia.
  - replace (length fs - 1)%nat with (length old + length closed)%nat; [done|].
    unfold zlen in Hlen. lia.
  - intros a [Ha|(mq' & Hmq & Ha)]; apply Hacked.
    + rewrite List.Forall_forall in lv_acks. by apply lv_acks.
    + rewrite lv_mem in Hmq. injection Hmq as <-. by apply lv_acked.
Qed.

(** What a process that dies leaves: the first of its entries, with every
    acknowledged one. *)
Lemma live_dead numbered sys : live numbered sys ->
  exists fs kept lost, numbered = kept ++ lost /\ all_entries fs = all_entries old ++ kept /\
    on_disk env q lo base frame fs (length fs - 1) (nf_store (sy_fs sys)) /\
    tidy fs /\ zlen fs <= zlen old + zlen numbered + 1 /\
    forall a, acknowledged (sy_fs sys) q a -> In a (map fst (all_entries fs)).
Proof.
  intros (s & reqs & closed & cur & arrived & mq & Hl).
  destruct (live_view _ _ _ _ _ _ _ _ Hl) as (done & cur_rest & rest & _ & _ & Hv & _ & Hd & _ & Hrest).
  assert (all_entries (live_files old closed s done) = all_entries old ++ closed_entries closed ++ done) as He
    by apply live_entries.
  exists (live_files old closed s done), (closed_entries closed ++ done), rest.
  split; [|by split]. unfold log in Hv. rewrite He, <- app_assoc in Hv. by apply app_inv_head in Hv.
Qed.

(** ** What reads leave as it is *)

(** New subscribers, and ranges cached by a query. *)
Lemma live_framed s reqs closed cur arrived mq mq' numbered fs fs' calls done cur_rest :
  live_at env q lo base frame old ordered s reqs closed cur arrived mq numbered
    {| sy_fs := fs; sy_calls := calls |} ->
  cur = done ++ cur_rest -> holds s done ->
  ww_writers (nf_wal fs') = ww_writers (nf_wal fs) -> ww_acks (nf_wal fs') = ww_acks (nf_wal fs) ->
  ww_complete (nf_wal fs') = ww_complete (nf_wal fs) ->
  nf_spawned fs' = nf_spawned fs -> nf_disk_monitor fs' = nf_disk_monitor fs -> nf_cloud_downloader fs' = nf_cloud_downloader fs ->
  ms_queues (nf_mem fs') !! qid_path q = Some mq' -> mq_inner mq' = mq_inner mq -> queue_inv mq' ->
  queue_found env q lo base (live_files old closed s done) (st_files (nf_store fs)) (nf_store fs') ->
  live_at env q lo base frame old ordered s reqs closed cur arrived mq' numbered
    {| sy_fs := fs'; sy_calls := calls |}.
Proof.
  intros [] Hcur Hholds Hw Ha Hc Hsp Hdm Hcl Hm Hin Hinv Hf. cbn [sy_fs sy_calls] in *.
  split; cbn [sy_fs sy_calls]; rewrite ?Hw, ?Ha, ?Hc, ?Hsp, ?Hdm, ?Hcl, ?Hin; try done.
  intros done' rest' Hcur' Hholds'. pose proof (lv_disk done' rest' Hcur' Hholds') as Hd.
  pose proof (on_disk_queried _ _ _ _ _ _ _ _ _ (lv_disk done cur_rest Hcur Hholds) Hf) as Hd'.
  refine (on_disk_agree _ _ _ _ _ _ _ _ _ _ Hd Hd' (qf_files _ _ _ _ _ _ _ Hf) _ _).
  - unfold live_files. by rewrite !length_app, !length_map, !length_app.
  - intros i Hi. unfold live_files. destruct (decide (i < length old)%nat) as [Hlt|Hge];
      [by rewrite !lookup_app_l by done|]. rewrite !lookup_app_r, !map_app by lia.
    by rewrite !lookup_app_l by (rewrite length_map; lia).
Qed.

(** ** Reads *)

(** The id a read starts at, in a queue with the entries [log]. *)
Definition first_point (position : read_position) (log : list (uintn * bytes)) : Z :=
  match position with
  | Absolute from => uintn_val from
  | ShiftFromTail offset => Z.max 0 (base + zlen log - 1 - uintn_val offset)
  end.

(** The entries of [log] that a read of [limit] entries selects. *)
Definition read_range (position : read_position) (limit step : Z) (log : list (uintn * bytes))
    : list (uintn * bytes) :=
  let v := first_point position log in
  List.filter (point_until v (v + (limit - 1) * step) step) log.

(** Limited reads give exactly the entries of [log] that they select. *)
Definition reads_exactly (fs : norm_fs) (log : list (uintn * bytes)) : Prop :=
  forall search_fuel fuel position limit step ch, ch_life ch = None -> 1 <= limit ->
  proper_read base search_fuel fuel position limit step ->
  exists fs' ch', read env search_fuel fuel fs q position limit step ch = Some (fs', ch', Ok false) /\
    payload ch' = payload ch ++ read_range position limit step log.

Lemma selected_range start limit step l : uintn_ok start -> in_u 64 ((limit - 1) * step) ->
  List.filter (selected start (Some (uintn_add start (uintn_from_u64 ((limit - 1) * step)))) step) l =
  List.filter (point_until (uintn_val start) (uintn_val start + (limit - 1) * step) step) l.
Proof.
  intros Hs Hspan. destruct (from_u64_spec _ Hspan) as [Hsc Hsv].
  destruct (add_spec start (uintn_from_u64 ((limit - 1) * step)) Hs) as [_ Hv]; [by apply canonical_ok|].
  apply filter_ext. intros e. unfold selected, point_until, at_point. rewrite Hv, Hsv.
  rewrite <- !andb_assoc. f_equal. apply andb_comm.
Qed.

(** The reader, on the files and the memory of the queue. *)
Lemma proper_fsm_read fs rest mq files w search_fuel fuel position limit step :
  mem_covers base fs rest mq -> fsm_good env q lo base fs files mq w ->
  lo + zlen fs <= 2 ^ 24 -> 0 <= lo -> proper_read base search_fuel fuel position limit step ->
  exists w' b, fsm_read env None search_fuel fuel w q position limit step = Some (w', Ok b) /\
    kept env q lo base fs files mq w' /\
    (1 <= limit -> b = false /\
       payload (fw_chan w') = payload (fw_chan w) ++ read_range position limit step (log fs rest)).
Proof.
  intros Hcov Hg Hfew Hlo [Hoff Hreach Hstep Hlim [Hsf Hfuel]]. unfold zlen in Hfew.
  assert (zlen fs <= Z.of_nat search_fuel) as Hsearch by (unfold zlen; lia).
  assert (forall w' b P, fsm_read env None search_fuel (read_fuel fs) w q position limit step = Some (w', Ok b) ->
    kept env q lo base fs files mq w' /\ (1 <= limit -> b = false /\ P w') ->
    exists w' b, fsm_read env None search_fuel fuel w q position limit step = Some (w', Ok b) /\
      kept env q lo base fs files mq w' /\ (1 <= limit -> b = false /\ P w')) as Hmono.
  { intros w' b P Hr ?. exists w', b. split; [|done]. unfold fsm_read in *.
    destruct (ch_is_closed (fw_chan w)) as [[] ch']; [done|].
    eapply run_mono; [exact Hr|]. unfold read_fuel. lia. }
  unfold read_range. destruct position as [from|offset]; cbn [position_offset first_point] in *.
  - destruct Hlim as [->|[Hlim Hspan]].
    + destruct (follow_ends env search_fuel q lo base fs files rest mq Hcov step w Hstep Hsearch Hg from)
        as (w' & b & Hr & Hk); [done..|]. apply (Hmono _ _ _ Hr). split; [done|lia].
    + destruct (read_limited env search_fuel q lo base fs files rest mq Hcov from step w Hoff Hstep Hreach
        Hsearch Hg limit Hlim Hspan) as (w' & Hr & Hp & Hk).
      apply (Hmono _ _ _ Hr). split; [done|]. rewrite selected_range in Hp by done. done.
  - subst base. assert (0 <= tail_id 0 fs rest offset) by (unfold tail_id; lia).
    destruct Hlim as [->|[Hlim Hspan]].
    + destruct (tail_follow_ends env search_fuel q lo 0 fs files rest mq Hcov step w Hstep Hsearch Hg offset)
        as (w' & b & Hr & Hk); [done..|]. apply (Hmono _ _ _ Hr). split; [done|lia].
    + destruct (read_tail env search_fuel q lo 0 fs files rest mq Hcov step w Hstep Hsearch Hg offset limit)
        as (start & w' & Hs & Hv & Hr & Hp & Hk); [done..|].
      apply (Hmono _ _ _ Hr). split; [done|]. rewrite selected_range, Hv in Hp by done. done.
Qed.

(** A read, at any moment. *)
Lemma live_reads numbered fs calls search_fuel fuel position limit step ch :
  live numbered {| sy_fs := fs; sy_calls := calls |} -> ch_life ch = None ->
  proper_read base search_fuel fuel position limit step ->
  exists fs' ch' b, read env search_fuel fuel fs q position limit step ch = Some (fs', ch', Ok b) /\
    live numbered {| sy_fs := fs'; sy_calls := calls |} /\
    (1 <= limit -> b = false /\
       payload ch' = payload ch ++ read_range position limit step (all_entries old ++ numbered)) /\
    forall mq, ms_queues (nf_mem fs) !! qid_path q = Some mq ->
      exists mq' extra, ms_queues (nf_mem fs') !! qid_path q = Some mq' /\ queue_inv mq' /\
        mq_inner mq' = mq_inner mq /\ mq_subscribers mq' = mq_subscribers mq ++ extra.
Proof.
  intros (s & reqs & closed & cur & arrived & mq & Hl) Hch Hp.
  pose proof (lv_cloud _ _ _ _ _ _ _ _ _ _ _ _ _ _ _ Hl) as Hcloud.
  destruct (live_view _ _ _ _ _ _ _ _ Hl) as (done & cur_rest & rest & Hcur & Hholds & Hv & Hcov & Hd & Hne & _).
  set (files := live_files old closed s done) in *. cbn [sy_fs] in *. rewrite Hv. unfold read. rewrite Hcloud.
  set (w := {| fw_lk := _ |}).
  assert (fsm_good env q lo base files (st_files (nf_store fs)) mq w) as Hg.
  { pose proof (on_disk_found _ _ _ _ _ _ _ _ Hd Hne) as [? _ ?].
    split; [by split_and!|apply (lv_mem _ _ _ _ _ _ _ _ _ _ _ _ _ _ _ Hl)|done]. }
  destruct (proper_fsm_read files rest mq _ w search_fuel fuel position limit step Hcov Hg
    (od_hi _ _ _ _ _ _ _ _ Hd) (od_lo _ _ _ _ _ _ _ _ Hd) Hp) as (w' & b & Hr & Hk & Hex).
  rewrite Hr. eexists _, _, b. split; [reflexivity|]. split; [|split; [exact Hex|]]; cycle 1.
  { intros mq0 E. pose proof (lv_mem _ _ _ _ _ _ _ _ _ _ _ _ _ _ _ Hl) as Hm. cbn [sy_fs] in Hm.
    rewrite Hm in E. injection E as <-.
    destruct (kept_inv _ _ _ _ _ _ _ _ Hk) as (mq' & ? & ? & ? & extra & ?);
      [apply (lv_mem_inv _ _ _ _ _ _ _ _ _ _ _ _ _ _ _ Hl)|]. by exists mq', extra. }
  destruct (kept_inv _ _ _ _ _ _ _ _ Hk) as (mq' & Hmq & Hin & Hinv & extra & Hsubs);
    [apply (lv_mem_inv _ _ _ _ _ _ _ _ _ _ _ _ _ _ _ Hl)|].
  destruct (kp_layout _ _ _ _ _ _ _ _ Hk) as (Hlay & Hfiles & Hstray).
  exists s, reqs, closed, cur, arrived, mq'.
  apply (live_framed _ _ _ _ _ mq mq' _ fs _ _ done cur_rest Hl Hcur Hholds); done.
Qed.

Lemma live_read numbered sys : live numbered sys ->
  reads_exactly (sy_fs sys) (all_entries old ++ numbered).
Proof.
  intros Hl search_fuel fuel position limit step ch Hch Hlim Hp. destruct sys as [fs calls].
  destruct (live_reads _ _ _ _ _ _ _ _ _ Hl Hch Hp) as (fs' & ch' & b & Hr & _ & Hex & _).
  destruct (Hex Hlim) as [-> Hpay]. by exists fs', ch'.
Qed.

(** ** Subscriptions of the application *)

Lemma live_subscribers numbered fs fs' calls mem :
  live numbered {| sy_fs := fs; sy_calls := calls |} -> fs' = with_mem fs mem ->
  (forall mq, ms_queues (nf_mem fs) !! qid_path q = Some mq -> queue_inv mq ->
    exists mq', ms_queues mem !! qid_path q = Some mq' /\ mq_inner mq' = mq_inner mq /\ queue_inv mq') ->
  live numbered {| sy_fs := fs'; sy_calls := calls |}.
Proof.
  intros (s & reqs & closed & cur & arrived & mq & Hl) -> Hm.
  destruct (live_view _ _ _ _ _ _ _ _ Hl) as (done & cur_rest & rest & Hcur & Hholds & _ & _ & Hd & Hne & _).
  destruct (Hm mq (lv_mem _ _ _ _ _ _ _ _ _ _ _ _ _ _ _ Hl) (lv_mem_inv _ _ _ _ _ _ _ _ _ _ _ _ _ _ _ Hl))
    as (mq' & ? & ? & ?).
  exists s, reqs, closed, cur, arrived, mq'.
  apply (live_framed _ _ _ _ _ mq mq' _ fs _ _ done cur_rest Hl Hcur Hholds); try done.
  by apply (on_disk_found env q lo base frame _ _ _ Hd).
Qed.

Lemma live_subscribe numbered fs calls answers : live numbered {| sy_fs := fs; sy_calls := calls |} ->
  live numbered {| sy_fs := fst (subscribe fs q answers); sy_calls := calls |}.
Proof.
  intros Hl. unfold subscribe. destruct (ms_subscribe (nf_mem fs) q answers) as [mem [id|]] eqn:E;
    (eapply live_subscribers; [exact Hl|reflexivity|]); intros mq Hmq [Hin Hs]; unfold ms_subscribe in E;
    rewrite Hmq in E; [|done]. injection E as <- _.
  eexists. split; [apply lookup_insert_eq|]. split; [done|]. split; [done|].
  cbn. apply Forall_app. split; [done|]. by repeat constructor.
Qed.

Lemma live_unsubscribe numbered fs calls id : live numbered {| sy_fs := fs; sy_calls := calls |} ->
  live numbered {| sy_fs := unsubscribe fs q id; sy_calls := calls |}.
Proof.
  intros Hl. eapply live_subscribers; [exact Hl|reflexivity|]. intros mq Hmq [Hin Hs].
  unfold ms_unsubscribe. rewrite Hmq. eexists. split; [apply lookup_insert_eq|]. split; [done|].
  split; [done|]. cbn [mq_unsubscribe set_inner mq_subscribers].
  apply List.Forall_forall. intros x [Hx _]%filter_In. by apply (proj1 (List.Forall_forall _ _) Hs).
Qed.

End Reads.
