(* ===== verification/FacadeRun.v ===== *)
(** * Runs of the facade

    The steps of the machine of [Facade] succeed and keep its invariant; closing leaves the files of everything
    that was enqueued. *)
From Stdlib Require Import ZArith Lia List Bool Sorted Permutation.
From Stdlib Require Import Ascii String.
From stdpp Require Import base option list gmap strings.
From S2P Require Import Prelude UBig UintN UintNFacts Paths PathsFacts PathsSearch FileTree Types.
From S2P Require Import WalFormat WalReader WalReaderFacts WalReaderTotal OrderedBuffer AckWriter.
From S2P Require Import WalWriter WalWriterFacts Crypto StoreFormat Store StoreFacts WalStore.
From S2P Require Import Cloud Lookup LookupFacts QueueLayout WalLayout Mem MemFacts ReaderFsm.
From S2P Require Import ReaderFsmFacts DiskMonitor DiskMonitorFacts NormFs NormFsFacts LiveLayout StoreLive.
From S2P Require Import Facade FacadeFacts FacadeReads.
#[local] Open Scope Z_scope.

Section Run.
Context {B : Build} {U : UBig} {H : HexCrate} {X : Hasher} {S : UnstableSort}.
Context {C : CryptoLib} {Z' : CompressLib} {S3 : S3Http} {G : GlobCrate}.
Context (env : store_env) (q : queue_id) (lo base : Z) (frame : gmap str bytes)
  (old : list qfile).
Context (ordered : Prop).

Abbreviation start := (base + zlen (all_entries old)).
Abbreviation live := (live env q lo base frame old ordered).

(** What the callers of [ev] hand over fits the ids and the entry format. *)
Definition fits (numbered : list (uintn * bytes)) (data : list bytes) : Prop :=
  start + zlen numbered + zlen data <= 2 ^ 32 /\
  lo + zlen old + zlen numbered + zlen data < 2 ^ 24 /\ Forall (fun d => zlen d <= 2 ^ 62) data.

Lemma fits_split numbered a b : fits numbered (a ++ b) ->
  fits numbered a /\ forall new, map snd new = a -> fits (numbered ++ new) b.
Proof.
  unfold fits. rewrite zlen_app. intros (Hlim & Hroom & [Ha Hb]%Forall_app).
  pose proof (zlen_nonneg a). pose proof (zlen_nonneg b). split; [split_and!; [lia|lia|done]|].
  intros new <-. rewrite zlen_app. assert (zlen (map snd new) = zlen new) as Hz
    by (unfold zlen; by rewrite length_map). split_and!; [lia|lia|done].
Qed.

Lemma live_inv numbered sys : live numbered sys -> exists mq,
  ms_queues (nf_mem (sy_fs sys)) !! qid_path q = Some mq /\ queue_inv mq.
Proof.
  intros (s & reqs & closed & cur & arrived & mq & Hl). exists mq.
  split; [apply (lv_mem _ _ _ _ _ _ _ _ _ _ _ _ _ _ _ Hl)|apply (lv_mem_inv _ _ _ _ _ _ _ _ _ _ _ _ _ _ _ Hl)].
Qed.

(** The first halves. *)
Lemma number_one numbered sys d : live numbered sys -> fits numbered [d] ->
  exists sys' new, fs_exec env q sys (NumberOne d) = Some sys' /\ map snd new = [d] /\
    live (numbered ++ new) sys'.
Proof.
  intros Hl (Hlim & Hroom & Hsz). destruct (live_inv _ _ Hl) as (mq & Hmq & Hinv).
  destruct (enqueue_batch_inv mq d [] Hinv) as (mq' & Hb & _).
  pose proof (enqueue_batch_one mq d) as H1. rewrite Hb in H1.
  destruct (mq_enqueue mq d) as [[mq1 id]| |] eqn:Eq; ok_step; try done.
  injection H1 as <- Hid.
  cbn [fs_exec]. unfold enqueue_number, ms_enqueue. rewrite Hmq, Eq. ok_step.
  edestruct (live_number env q lo base frame old ordered numbered sys mq' (set_queue (nf_mem (sy_fs sys)) q mq')
    d [] (SendOne id d) Hl Hlim Hroom Hsz) as (new & Hs & Hl'); cycle 2.
  - eexists _, new. split; [reflexivity|]. by split.
  - intros mq0 E. rewrite Hmq in E. injection E as <-. eexists. split; [exact Hb|].
    cbn [number_entries map fst combine call_entries]. by rewrite <- Hid.
  - apply lookup_insert_eq.
Qed.

Lemma number_batch numbered sys ds : live numbered sys -> fits numbered ds ->
  exists sys' new, fs_exec env q sys (NumberBatch ds) = Some sys' /\ map snd new = ds /\
    live (numbered ++ new) sys'.
Proof.
  intros Hl (Hlim & Hroom & Hsz). destruct ds as [|d ds].
  { exists sys, []. by rewrite app_nil_r. }
  destruct (live_inv _ _ Hl) as (mq & Hmq & Hinv).
  destruct (enqueue_batch_inv mq d ds Hinv) as (mq' & Hb & _).
  cbn [fs_exec]. unfold batch_number, ms_enqueue_batch. rewrite Hmq, Hb. ok_step.
  edestruct (live_number env q lo base frame old ordered numbered sys mq' (set_queue (nf_mem (sy_fs sys)) q mq')
    d ds (SendBatch (map fst (number_entries (next_id (mq_inner mq)) (d :: ds))) (d :: ds)) Hl Hlim Hroom Hsz) as (new & Hs & Hl'); cycle 2.
  - eexists _, new. split; [reflexivity|]. by split.
  - intros mq0 E. rewrite Hmq in E. injection E as <-. eexists. by split; [exact Hb|].
  - apply lookup_insert_eq.
Qed.

(** Every step of a healthy machine succeeds. *)
Lemma live_exec numbered sys ev : live numbered sys -> healthy base ev -> (ordered -> sends_in_order ev) -> fits numbered (payload_of ev) ->
  exists sys' new, fs_exec env q sys ev = Some sys' /\ map snd new = payload_of ev /\
    live (numbered ++ new) sys'.
Proof.
  intros Hl Hh Ho Hf. destruct ev as [d|ds|k| |ev| |fault uuid| | |mf mstuck|sf fuel position limit step|answers|id]; cbn [payload_of] in *;
    [by apply number_one|by apply number_batch|..]; cbn [fs_exec].
  - destruct (sy_calls sys !! k) as [c|] eqn:Hk; eexists _, []; rewrite app_nil_r; (split; [reflexivity|]);
      (split; [done|]); [|done]. by apply live_send.
  - eexists _, []. rewrite app_nil_r. split; [reflexivity|]. split; [done|]. by apply live_writer.
  - eexists _, []. rewrite app_nil_r. split; [reflexivity|]. split; [done|]. by apply live_flush.
  - eexists _, []. rewrite app_nil_r. split; [reflexivity|]. split; [done|]. by apply live_ack.
  - destruct sys as [fs calls]. destruct (live_store env q lo base frame old ordered _ _ _ fault uuid Hl) as (fs' & Hst & Hl').
    cbn [sy_fs]. rewrite Hst. eexists _, []. rewrite app_nil_r. by split.
  - destruct sys as [fs calls]. eexists _, []. rewrite app_nil_r. split; [reflexivity|]. split; [done|]. by apply live_done.
  - destruct sys as [fs calls]. eexists _, []. rewrite app_nil_r. split; [reflexivity|]. split; [done|]. by apply live_old_files.
  - destruct sys as [fs calls]. destruct (live_monitor env q lo base frame old ordered _ _ _ mf mstuck Hl) as (fs' & Hst & Hl').
    cbn [sy_fs]. rewrite Hst. eexists _, []. rewrite app_nil_r. by split.
  - destruct sys as [fs calls].
    destruct (live_reads env q lo base frame old ordered _ _ _ sf fuel position limit step new_channel Hl) as (fs' & ch' & b & Hr & Hl' & _);
      [done|done|]. cbn [sy_fs sy_calls]. rewrite Hr. eexists _, []. rewrite app_nil_r. by split.
  - destruct sys as [fs calls]. eexists _, []. rewrite app_nil_r. split; [reflexivity|]. split; [done|]. by apply live_subscribe.
  - destruct sys as [fs calls]. eexists _, []. rewrite app_nil_r. split; [reflexivity|]. split; [done|]. by apply live_unsubscribe.
Qed.

Lemma live_run numbered sys evs : live numbered sys -> Forall (healthy base) evs ->
  (ordered -> Forall sends_in_order evs) ->
  fits numbered (payloads evs) ->
  exists sys' new, fs_run env q sys evs = Some sys' /\ map snd new = payloads evs /\
    live (numbered ++ new) sys'.
Proof.
  revert numbered sys. induction evs as [|ev evs IH]; intros numbered sys Hl Hh Ho Hfit.
  { exists sys, []. by rewrite app_nil_r. }
  apply Forall_cons in Hh as [Hev Hh]. apply (fits_split _ (payload_of ev)) in Hfit as [Hf1 Hf].
  destruct (live_exec numbered sys ev Hl Hev) as (sys1 & new1 & He & Hn1 & Hl1);
    [by intros [? _]%Ho%Forall_cons|done|].
  destruct (IH (numbered ++ new1) sys1 Hl1 Hh) as (sys' & new & Hr & Hn & Hl');
    [by intros [_ ?]%Ho%Forall_cons|by apply Hf|].
  exists sys', (new1 ++ new). cbn [fs_run]. rewrite He. split; [done|].
  rewrite map_app, Hn1, Hn. by rewrite app_assoc.
Qed.

(** ** Closing *)

Lemma live_drain calls reqs fs s closed cur arrived mq numbered :
  live_at env q lo base frame old ordered s reqs closed cur arrived mq numbered
    {| sy_fs := fs; sy_calls := calls |} ->
  exists s' closed' cur' arrived', wr_later s s' /\
    live_at env q lo base frame old ordered s' [] closed' cur' arrived' mq numbered
      {| sy_fs := with_wal fs (Nat.iter (length reqs) (fun w => task_turn w q) (nf_wal fs));
         sy_calls := calls |}.
Proof.
  revert fs s closed cur arrived. induction reqs as [|req reqs IH]; intros fs s closed cur arrived Hl.
  - exists s, closed, cur, arrived. split; [done|]. by destruct fs.
  - apply live_turn in Hl as (s1 & cl1 & cu1 & a1 & Hs & Hl). destruct (IH _ _ _ _ _ Hl) as (s2 & ? & ? & ? & Hs' & Hl').
    cbn [length]. rewrite Nat.iter_succ_r. do 4 eexists. split; [by etrans|exact Hl'].
Qed.

(** Entries that wait in the reordering buffer are not in the files. *)
Lemma live_written s reqs closed cur arrived mq numbered sys :
  live_at env q lo base frame old ordered s reqs closed cur arrived mq numbered sys ->
  exists lost, numbered = (closed_entries closed ++ cur) ++ lost /\
    (ordered -> reqs = [] -> sy_calls sys = [] -> lost = []).
Proof.
  intros []. destruct lv_writer as (_ & _ & _ & Hc & _ & Hp).
  destruct (consecutive_prefix start (closed_entries closed ++ cur) numbered Hc lv_numbered) as [lost Hlost].
  { intros e Hin. rewrite <- lv_flow. apply in_or_app. left. rewrite <- Hp. apply in_or_app. by left. }
  exists lost. split; [done|]. intros Ho -> Hcalls. destruct (lv_order Ho) as [Hpend E].
  rewrite Hcalls in E. cbn [map concat] in E. rewrite !app_nil_r in E.
  rewrite Hpend, app_nil_r, E in Hp. apply Permutation_length in Hp.
  rewrite Hlost, (length_app (_ ++ _)) in Hp. destruct lost; [done|cbn [length] in Hp; lia].
Qed.

(** What a writer that closed leaves on disk. *)
Lemma live_closed s closed cur arrived mq numbered sys :
  live_at env q lo base frame old ordered s [] closed cur arrived mq numbered sys ->
  exists fs, all_entries fs = all_entries old ++ closed_entries closed ++ cur /\
    on_disk env q lo base frame fs (length fs - 1)
      (ww_store (absorb (nf_wal (sy_fs sys)) s (close_writer s))) /\
    zlen fs = zlen old + zlen closed + 1 /\ (all_entries fs = [] -> closed = []) /\ tidy fs.
Proof.
  intros Hl. destruct (live_few _ _ _ _ _ _ _ _ _ _ _ _ _ _ _ Hl) as (? & ? & Hid). destruct Hl.
  destruct (open_at _ _ _ _ _ _ lv_writer) as (done & rest & Hcur & Hholds & _).
  specialize (lv_disk done rest Hcur Hholds).
  destruct (close_at _ _ _ _ _ _ lv_writer) as (Hf & Hdisk & _ & _ & _).
  pose proof (all_closed_entries closed cur s) as He. pose proof (disk_entries _ _ _ _ _ _ (proj1 lv_writer)) as Hds.
  pose proof (all_closed_chain _ _ _ _ _ _ lv_writer) as Hch.
  pose proof (all_closed_sizes _ _ _ _ _ _ lv_writer) as Hsz.
  assert (length old + length closed = length (old ++ map chain_file (all_closed closed cur s)) - 1)%nat as Hlen.
  { unfold all_closed. rewrite length_app, length_map, length_app. cbn [length]. lia. }
  exists (old ++ map chain_file (all_closed closed cur s)).
  assert (all_entries (old ++ map chain_file (all_closed closed cur s)) =
    all_entries old ++ closed_entries closed ++ cur) as Hae.
  { unfold all_entries at 1. rewrite map_app, concat_app.
    fold (all_entries (map chain_file (all_closed closed cur s))). by rewrite chain_entries, He. }
  split; [done|]. rewrite <- Hlen. split_and!.
  - apply (absorb_files env q lo base frame old (nf_wal (sy_fs sys)) s (close_writer s) closed
      [chain_file (open_file s done)]); try done.
    + unfold live_files in lv_disk. by rewrite map_app, app_assoc in lv_disk.
    + by rewrite Hds, length_map.
    + by rewrite Hdisk, Hds, length_map.
    + by rewrite Hf, lv_path.
    + by apply Forall_app in Hsz as [_ ?].
    + rewrite zlen_app. change (zlen [_]) with 1. lia.
    + unfold all_closed in He. rewrite He. lia.
  - rewrite zlen_app. unfold zlen. rewrite length_map. unfold all_closed. rewrite length_app. cbn. lia.
  - rewrite Hae. intros [_ [_ Hn]%app_eq_nil]%app_eq_nil. destruct closed; [done|]. by destruct (lv_last_file ltac:(done)).
  - by apply live_tidy.
Qed.

(** What was acknowledged is in the files of the writer, now and later. *)
Lemma acknowledged_stays s0 reqs0 closed0 cur0 arrived0 mq0 numbered sys a s closed cur arrived :
  live_at env q lo base frame old ordered s0 reqs0 closed0 cur0 arrived0 mq0 numbered sys ->
  acknowledged (sy_fs sys) q a -> wr_later s0 s -> wr_queue_id s = q ->
  wr_good_at (lo + zlen old) start closed cur arrived s ->
  In a (map fst (closed_entries closed ++ cur)).
Proof.
  intros [] Ha (_ & _ & acks & Hacks) Hq Hg.
  assert (In (q, a) (all_acks s)) as Hin.
  { rewrite Hacks. apply in_or_app. left. destruct Ha as [Ha|(mq' & Hmq & Ha)].
    - rewrite List.Forall_forall in lv_acks. by apply lv_acks.
    - rewrite lv_mem in Hmq. injection Hmq as <-. by apply lv_acked. }
  destruct (open_at _ _ _ _ _ _ Hg) as (done & rest & -> & _ & Hall).
  rewrite Hq, List.Forall_forall in Hall. apply Hall, in_map_iff in Hin as (e & [= <-] & Hin).
  apply in_map. rewrite app_assoc. apply in_or_app. by left.
Qed.

(** Closing, with calls that may still be between their halves. *)
Lemma live_close numbered fs calls : live numbered {| sy_fs := fs; sy_calls := calls |} ->
  exists fs' files written lost, close fs = (fs', Ok tt) /\ numbered = written ++ lost /\
    (ordered -> calls = [] -> lost = []) /\
    (forall a, acknowledged fs q a -> In a (map fst written)) /\
    all_entries files = all_entries old ++ written /\
    on_disk env q lo base frame files (length files - 1) (nf_store fs') /\
    zlen files <= zlen old + zlen numbered + 1 /\
    (all_entries files = [] -> zlen files = zlen old + 1) /\ tidy files.
Proof.
  intros (s0 & reqs & closed0 & cur0 & arrived0 & mq & Hl0).
  pose proof (lv_only _ _ _ _ _ _ _ _ _ _ _ _ _ _ _ Hl0) as Honly.
  pose proof (lv_task _ _ _ _ _ _ _ _ _ _ _ _ _ _ _ Hl0) as Htask. cbn [sy_fs] in *.
  destruct (live_drain _ _ _ _ _ _ _ _ _ Hl0) as (s & closed & cur & arrived & Hlater & Hl).
  destruct (live_written _ _ _ _ _ _ _ _ Hl) as (lost & Hlost & Hord).
  destruct (live_closed _ _ _ _ _ _ _ Hl) as (files & He & Hd & Hlen & Hemp & Htidy).
  destruct (live_few _ _ _ _ _ _ _ _ _ _ _ _ _ _ _ Hl) as (? & ? & _).
  pose proof (lv_task _ _ _ _ _ _ _ _ _ _ _ _ _ _ _ Hl) as Htask'. cbn [sy_fs with_wal nf_wal] in *.
  assert (map fst (map_to_list (ww_writers (nf_wal fs))) = [qid_path q]) as Hkeys.
  { assert (ww_writers (nf_wal fs) = {[ qid_path q := {| wt_state := Some s0; wt_pending := reqs |} ]}) as ->.
    { apply map_eq. intros p. destruct (decide (p = qid_path q)) as [->|Hp].
      - by rewrite Htask, lookup_singleton_eq.
      - rewrite lookup_singleton_ne by done. destruct (_ !! p) eqn:E; [|done].
        destruct Hp. apply Honly. by rewrite E. }
    by rewrite map_to_list_singleton. }
  assert (exists fs', close fs = (fs', Ok tt) /\ nf_store fs' =
    ww_store (absorb (Nat.iter (length reqs) (fun w => task_turn w q) (nf_wal fs)) s (close_writer s)))
    as (fs' & Hc & Hs).
  { unfold close, ws_close. cbn [with_workers nf_wal]. rewrite Hkeys. cbn [fold_left].
    assert ({| qid_path := qid_path q |} = q) as -> by by destruct q.
    unfold close_one, drain. rewrite Htask. cbn [wt_pending]. unfold ws_send. rewrite Htask'.
    cbn [wt_state wt_pending]. unfold task_turn at 1. cbn [set_task ww_writers].
    rewrite lookup_insert_eq. cbn [app handle_request]. eexists. split; reflexivity. }
  exists fs', files, (closed_entries closed ++ cur), lost. rewrite Hs. split_and!; try done.
  - intros Ho Hc'. by apply Hord.
  - intros a Ha. eapply acknowledged_stays; [exact Hl0|exact Ha|exact Hlater|apply Hl..].
  - lia.
  - intros E. rewrite Hlen, (Hemp E), zlen_nil. lia.
Qed.

End Run.
