(* ===== verification/FacadeFollow.v ===== *)
(** * Followers of the running facade

    A follow that starts in memory has, at every later moment, exactly the
    entries on its step: those that were there and those that came since. *)
From Stdlib Require Import ZArith Lia List Bool Sorted Permutation.
From Stdlib Require Import Ascii String.
From stdpp Require Import base option list gmap strings.
From S2P Require Import Prelude UBig UintN UintNFacts Paths PathsFacts PathsSearch FileTree Types.
From S2P Require Import WalFormat WalReader WalReaderFacts WalReaderTotal OrderedBuffer AckWriter.
From S2P Require Import WalWriter WalWriterFacts Crypto StoreFormat Store StoreFacts WalStore.
From S2P Require Import Cloud Lookup LookupFacts QueueLayout WalLayout Mem MemFacts ReaderFsm.
From S2P Require Import ReaderFsmFacts DiskMonitor NormFs NormFsFacts LiveLayout StoreLive.
From S2P Require Import ReaderTail Facade FacadeFacts FacadeReads FacadeRun.
#[local] Open Scope Z_scope.

Section Follow.
Context {B : Build} {U : UBig} {H : HexCrate} {X : Hasher} {S0 : UnstableSort}.
Context {C : CryptoLib} {Z' : CompressLib} {S3 : S3Http} {G : GlobCrate}.
Context (env : store_env) (q : queue_id) (lo base : Z) (frame : gmap str bytes)
  (old : list qfile).
Context (ordered : Prop).

Abbreviation live := (live env q lo base frame old ordered).
Abbreviation queue_of fs := (ms_queues (nf_mem fs) !! qid_path q).

(** ** Ids *)

Lemma same_numbers n (a b : list (uintn * bytes)) : consecutive n a -> consecutive n b ->
  Forall (fun e => uintn_canonical (fst e)) a -> Forall (fun e => uintn_canonical (fst e)) b ->
  map snd a = map snd b -> a = b.
Proof.
  revert n b. induction a as [|[i d] a IH]; intros n [|[j e] b] Ha Hb Hca Hcb Hs; try done.
  injection Hs as -> Hs. destruct Ha as [Hi Ha], Hb as [Hj Hb].
  apply Forall_cons in Hca as [Hci Hca]. apply Forall_cons in Hcb as [Hcj Hcb].
  cbn [fst] in *. rewrite (canonical_inj i j) by (done || congruence). f_equal. by apply (IH (n + 1)).
Qed.

(** The new entries of a step are numbered by the memory. *)
Lemma new_numbers numbered new sys sys' mq : live numbered sys -> live (numbered ++ new) sys' ->
  queue_of (sy_fs sys) = Some mq -> new = number_entries (next_id (mq_inner mq)) (map snd new).
Proof.
  intros (s & reqs & closed & cur & arrived & mq0 & Hl) (s' & reqs' & closed' & cur' & arrived' & mq' & Hl') Hmq.
  rewrite (lv_mem _ _ _ _ _ _ _ _ _ _ _ _ _ _ _ Hl) in Hmq. injection Hmq as ->.
  pose proof (live_log _ _ _ _ _ _ _ _ _ _ _ _ _ _ _ Hl') as Hlog. rewrite app_assoc in Hlog.
  apply consecutive_app in Hlog as [_ Hnew]. rewrite zlen_app in Hnew.
  destruct (next_id_spec (mq_inner mq)) as [Hok Hv]; [apply (lv_mem_inv _ _ _ _ _ _ _ _ _ _ _ _ _ _ _ Hl)|].
  rewrite (lv_last _ _ _ _ _ _ _ _ _ _ _ _ _ _ _ Hl) in Hv.
  destruct (number_entries_spec (next_id (mq_inner mq)) (map snd new) Hok) as (_ & Hc & Hs).
  rewrite Hv in Hc. rewrite Z.add_assoc in Hnew.
  apply (same_numbers _ _ _ Hnew Hc); [| |by symmetry].
  - pose proof (lv_bounds _ _ _ _ _ _ _ _ _ _ _ _ _ _ _ Hl') as Hb. apply Forall_app in Hb as [_ Hb].
    eapply Forall_impl; [exact Hb|]. intros e He. apply He.
  - apply number_canonical. unfold next_id. pose proof (lv_last_ok _ _ _ _ _ _ _ _ _ _ _ _ _ _ _ Hl) as Hlast.
    destruct (mi_last_id (mq_inner mq)); [by apply increment_canonical|by apply (uid_spec 0)].
Qed.

(** ** A follower through the steps of the machine *)

Section Steps.
Context (id : nat) (last_sent : option uintn) (from : uintn) (step : Z).
Hypothesis Hlast : last_ok last_sent.
Hypothesis Hfrom : uintn_ok from.
Hypothesis Hstep : in_u 64 step.
Hypothesis Hstep1 : 1 <= step.

Definition follower (fs : norm_fs) (sent : list read_entry) : Prop :=
  exists mq, queue_of fs = Some mq /\ following id last_sent from step mq sent.

Definition from_memory (l : list (uintn * bytes)) : list read_entry :=
  map (to_read_entry DSMemory) (List.filter (selected from None step) l).

Lemma from_memory_app l k : from_memory (l ++ k) = from_memory l ++ from_memory k.
Proof. unfold from_memory. by rewrite List.filter_app, map_app. Qed.

Lemma payload_from_memory l : payload {| ch_sent := from_memory l; ch_life := None |} =
  List.filter (at_point (uintn_val from) step) l.
Proof.
  pose proof (payload_sent new_channel DSMemory (List.filter (selected from None step) l)) as E.
  unfold payload, from_memory in *. cbn [new_channel ch_sent map app] in *. rewrite E.
  apply filter_ext. intros e. unfold selected, at_point. by rewrite andb_true_r.
Qed.

(** Steps that do not touch the memory. *)
Definition memory_event (ev : fs_event) : bool :=
  match ev with
  | NumberOne _ | NumberBatch _ | AckTurn | ReadCall _ _ _ _ _ | SubscribeCall _ | UnsubscribeCall _ => true
  | _ => false
  end.

Lemma other_events ev sys sys' : memory_event ev = false -> fs_exec env q sys ev = Some sys' ->
  nf_mem (sy_fs sys') = nf_mem (sy_fs sys).
Proof.
  intros He Hx. destruct ev as [| |k| |ev| |fault uuid| | |mf mstuck| | |]; try done; cbn [fs_exec] in Hx.
  - destruct (sy_calls sys !! k) as [[i d|ids ds]|]; injection Hx as <-; [| |done]; cbn [sy_fs finish_call].
    + unfold enqueue_send. by destruct (ws_enqueue _ _ _ _) as [w [| |]].
    + unfold batch_send. by destruct (ws_enqueue_batch _ _ _) as [w [| |]].
  - by injection Hx as <-.
  - by injection Hx as <-.
  - unfold store_turn in Hx. destruct (ww_complete _); [by injection Hx as <-|].
    destruct (nf_workers _); [|by injection Hx as <-].
    destruct (process_entry _ _ _ _ _); [by injection Hx as <-|done].
  - injection Hx as <-. cbn [sy_fs]. unfold done_turn. destruct (st_done _) as [|[q' f] rest]; [done|].
    by destruct (nf_disk_monitor (with_store _ _)).
  - injection Hx as <-. cbn [sy_fs]. unfold old_files_turn. by destruct (nf_spawned _).
  - unfold monitor_turn in Hx. destruct (nf_disk_monitor _); [|by injection Hx as <-].
    destruct (tick _ _ _ _ _) as [[f| |]|]; [|done..]. by injection Hx as <-.
Qed.

(** The callers do not cancel the follower. *)
Definition keeps_followers (ev : fs_event) : Prop := forall i, ev <> UnsubscribeCall i.

Lemma same_subscribers mq mq' extra sent : following id last_sent from step mq sent -> queue_inv mq' ->
  mq_inner mq' = mq_inner mq -> mq_subscribers mq' = mq_subscribers mq ++ extra ->
  following id last_sent from step mq' sent.
Proof.
  intros (_ & Hin & Hs & Hl) Hinv Hi He. split; [done|]. rewrite Hi, He. split; [|done].
  apply in_or_app. by left.
Qed.

Lemma follower_batch numbered new sys sys' mq mq' d ds ids sent : live numbered sys ->
  live (numbered ++ new) sys' -> map snd new = d :: ds -> queue_of (sy_fs sys) = Some mq ->
  following id last_sent from step mq sent -> mq_enqueue_batch mq (d :: ds) = Ok (mq', ids) ->
  following id last_sent from step mq' (sent ++ from_memory new).
Proof.
  intros Hl Hl' Hn Hmq Hf Hb. pose proof (new_numbers _ _ _ _ _ Hl Hl' Hmq) as E. rewrite Hn in E.
  destruct (following_batch id last_sent from step Hlast Hfrom Hstep Hstep1 mq sent d ds Hf)
    as (mq1 & ids1 & Hb1 & Hf1 & _). rewrite Hb in Hb1. injection Hb1 as <- _. by rewrite E.
Qed.

Lemma follower_exec numbered new sys sys' ev sent : live numbered sys -> healthy base ev ->
  keeps_followers ev -> fs_exec env q sys ev = Some sys' -> live (numbered ++ new) sys' ->
  map snd new = payload_of ev -> follower (sy_fs sys) sent ->
  follower (sy_fs sys') (sent ++ from_memory new).
Proof.
  intros Hl Hh Hk Hx Hl' Hn (mq & Hmq & Hf).
  assert (payload_of ev = [] -> sent ++ from_memory new = sent) as Hnone.
  { intros E. rewrite E in Hn. apply map_eq_nil in Hn as ->. by rewrite app_nil_r. }
  destruct (memory_event ev) eqn:He.
  2:{ exists mq. rewrite (other_events ev sys sys' He Hx). split; [done|].
      rewrite Hnone; [done|]. by destruct ev. }
  destruct ev as [d|ds| | | | | | | | |sf fuel position limit stp|answers|i]; try done; cbn [fs_exec payload_of] in *.
  - unfold enqueue_number, ms_enqueue in Hx. rewrite Hmq in Hx. pose proof (enqueue_batch_one mq d) as H1.
    destruct (mq_enqueue mq d) as [[mq1 i]| |]; ok_step; try done. injection Hx as <-.
    eexists. split; [apply lookup_insert_eq|].
    exact (follower_batch _ _ _ _ _ _ _ _ _ _ Hl Hl' Hn Hmq Hf H1).
  - destruct ds as [|d ds]; [injection Hx as <-; rewrite Hnone by done; by exists mq|].
    unfold batch_number, ms_enqueue_batch in Hx. rewrite Hmq in Hx.
    destruct (mq_enqueue_batch mq (d :: ds)) as [[mq1 ids]| |] eqn:Eb; ok_step; try done. injection Hx as <-.
    eexists. split; [apply lookup_insert_eq|].
    exact (follower_batch _ _ _ _ _ _ _ _ _ _ Hl Hl' Hn Hmq Hf Eb).
  - injection Hx as <-. rewrite Hnone by done. unfold ack_turn.
    destruct (ww_acks (nf_wal (sy_fs sys))) as [|[q' a] acks] eqn:Ea; [by exists mq|].
    cbn [sy_fs with_mem nf_mem]. unfold ms_ack. destruct (ms_queues _ !! qid_path q') as [mq0|] eqn:E0; [|by exists mq].
    destruct (decide (qid_path q' = qid_path q)) as [Eq|Hne].
    2:{ exists mq. split; [|done]. cbn [with_mem nf_mem set_queue ms_queues]. by rewrite lookup_insert_ne. }
    rewrite Eq, Hmq in E0. injection E0 as <-. exists (mq_ack mq a). cbn [with_mem nf_mem set_queue ms_queues].
    rewrite Eq. split; [apply lookup_insert_eq|]. destruct Hf as (_ & Hin & Hs & Hls).
    destruct (live_inv _ _ _ _ _ _ _ _ _ Hl') as (mq'' & Hmq'' & Hinv).
    unfold ack_turn in Hmq''. rewrite Ea in Hmq''. cbn [sy_fs with_mem nf_mem] in Hmq''.
    unfold ms_ack in Hmq''. rewrite Eq, Hmq in Hmq''. cbn [set_queue ms_queues] in Hmq''.
    rewrite Eq, lookup_insert_eq in Hmq''. injection Hmq'' as <-.
    split; [done|]. split; [done|]. unfold mq_ack. cbn [mq_inner set_inner]. by rewrite cleanup_last.
  - rewrite Hnone by done. destruct sys as [fs calls].
    destruct (live_reads env q lo base frame old ordered _ _ _ sf fuel position limit stp new_channel Hl)
      as (fs' & ch' & b & Hr & _ & _ & Hm); [done|done|]. cbn [sy_fs sy_calls] in *. rewrite Hr in Hx.
    injection Hx as <-. destruct (Hm mq Hmq) as (mq' & extra & Hmq' & Hinv & Hi & He').
    exists mq'. split; [done|]. by eapply same_subscribers.
  - rewrite Hnone by done. injection Hx as <-. unfold subscribe, ms_subscribe. cbn [sy_fs].
    rewrite Hmq. eexists. split; [apply lookup_insert_eq|].
    eapply (same_subscribers mq); [done| |done|reflexivity]. destruct Hf as ([Hi Hs] & _).
    split; [done|]. cbn. apply Forall_app. split; [done|]. by repeat constructor.
  - by destruct (Hk i).
Qed.

Lemma follower_run numbered sys evs sent : live numbered sys -> Forall (healthy base) evs ->
  Forall keeps_followers evs -> (ordered -> Forall sends_in_order evs) ->
  fits lo base old numbered (payloads evs) -> follower (sy_fs sys) sent ->
  exists sys' new, fs_run env q sys evs = Some sys' /\ map snd new = payloads evs /\
    live (numbered ++ new) sys' /\ follower (sy_fs sys') (sent ++ from_memory new).
Proof.
  revert numbered sys sent. induction evs as [|ev evs IH]; intros numbered sys sent Hl Hh Hk Ho Hfit Hf.
  { exists sys, []. by rewrite !app_nil_r. }
  apply Forall_cons in Hh as [Hev Hh]. apply Forall_cons in Hk as [Hkev Hk].
  apply (fits_split lo base old _ (payload_of ev) (payloads evs)) in Hfit as [Hf1 Hfit].
  destruct (live_exec env q lo base frame old ordered numbered sys ev Hl Hev) as (sys1 & new1 & Hx & Hn1 & Hl1);
    [by intros [? _]%Ho%Forall_cons|done|].
  pose proof (follower_exec numbered new1 sys sys1 ev sent Hl Hev Hkev Hx Hl1 Hn1 Hf) as Hf'.
  destruct (IH (numbered ++ new1) sys1 (sent ++ from_memory new1) Hl1 Hh Hk) as (sys' & new & Hr & Hn & Hl' & Hfin);
    [by intros [_ ?]%Ho%Forall_cons|by apply Hfit|exact Hf'|].
  cbn [fs_run]. rewrite Hx.
  exists sys', (new1 ++ new). split; [done|]. split; [by rewrite map_app, Hn1, Hn|].
  rewrite from_memory_app, app_assoc, (app_assoc sent). by split.
Qed.

End Steps.

(** ** A follow that starts in memory *)

(** The id [from] is in the memory of the queue, or is the next one. *)
Definition in_memory (fs : norm_fs) (from : uintn) : Prop :=
  exists mq, queue_of fs = Some mq /\ first_in_memory (mq_inner mq) from /\
    uintn_val from <= next_after (mi_last_id (mq_inner mq)).

Lemma kept_suffix numbered fs calls mq from step : live numbered {| sy_fs := fs; sy_calls := calls |} ->
  queue_of fs = Some mq -> first_in_memory (mq_inner mq) from ->
  from_memory from step (all_entries old ++ numbered) = from_memory from step (mi_entries (mq_inner mq)).
Proof.
  intros (s & reqs & closed & cur & arrived & mq0 & Hl) Hmq Hf.
  pose proof (lv_mem _ _ _ _ _ _ _ _ _ _ _ _ _ _ _ Hl) as Hm. cbn [sy_fs] in Hm. rewrite Hm in Hmq.
  injection Hmq as ->. pose proof (live_log _ _ _ _ _ _ _ _ _ _ _ _ _ _ _ Hl) as Hlog.
  destruct (lv_kept _ _ _ _ _ _ _ _ _ _ _ _ _ _ _ Hl) as (pre & Hpre & _). rewrite Hpre in *.
  unfold from_memory. f_equal. apply filter_suffix. intros x Hx. apply selected_below.
  apply consecutive_app in Hlog as [Hc Hc']. pose proof (consecutive_in _ _ _ Hc Hx).
  unfold first_in_memory in Hf.
  rewrite (mv_first _ (proj1 (lv_mem_inv _ _ _ _ _ _ _ _ _ _ _ _ _ _ _ Hl))) in Hf.
  destruct (mi_entries (mq_inner mq)) as [|e es]; [done|]. destruct Hc' as [He _]. cbn in Hf. lia.
Qed.

Lemma follow_begins numbered fs calls search_fuel fuel from step :
  live numbered {| sy_fs := fs; sy_calls := calls |} -> in_memory fs from ->
  proper_read base search_fuel fuel (Absolute from) 0 step ->
  exists fs' ch id last_sent,
    read env search_fuel fuel fs q (Absolute from) 0 step new_channel = Some (fs', ch, Ok true) /\
    last_ok last_sent /\
    follower id last_sent from step fs' (from_memory from step (all_entries old ++ numbered)) /\
    live numbered {| sy_fs := fs'; sy_calls := calls |}.
Proof.
  intros Hl (mq & Hmq & Hf & Hnext) Hp. pose proof Hp as [Hfrom _ [Hs H1] _ [_ Hfuel]].
  cbn [position_offset] in Hfrom.
  destruct (live_inv _ _ _ _ _ _ _ _ _ Hl) as (mq0 & Hmq0 & Hinv). cbn [sy_fs] in Hmq0.
  rewrite Hmq in Hmq0. injection Hmq0 as <-.
  destruct (follow_starts mq from step new_channel Hinv Hfrom Hs H1 eq_refl Hf Hnext)
    as (mq' & id & Hr & _ & Hls & Hfol).
  destruct (live_reads env q lo base frame old ordered _ _ _ search_fuel fuel (Absolute from) 0 step new_channel Hl)
    as (fs' & ch' & b & Hread & Hl' & _ & _); [done|done|].
  exists fs', ch', id. eexists. rewrite (kept_suffix _ _ _ _ from step Hl Hmq Hf).
  assert (b = true /\ queue_of fs' = Some mq') as [-> Hmq'].
  { unfold read, fsm_read in Hread. cbn [ch_is_closed fw_chan new_channel ch_life] in Hread.
    destruct fuel as [|[|fuel]]; [lia..|].
    cbn [run_fsm transition] in Hread. unfold handle_lookup_positive in Hread.
    rewrite if_open_open in Hread by done. rewrite decide_False in Hread by lia.
    unfold ms_follow_full in Hread. cbn [set_chan fw_mem fw_chan] in Hread. rewrite Hmq in Hread.
    cbn [ch_tick ch_life] in Hread.
    change (mq_follow_full mq from from step _) with (mq_follow_full mq from from step new_channel) in Hread.
    rewrite Hr in Hread. cbn [mr_success mr_subscription_id mem_answer andb] in Hread.
    rewrite (bool_decide_true (is_Some (Some id))), bool_decide_false in Hread by (done || by eexists).
    injection Hread as <- _ <-. split; [done|]. apply lookup_insert_eq. }
  split; [exact Hread|]. split; [exact Hls|]. split; [|exact Hl']. exists mq'. by split.
Qed.

End Follow.
