(* ===== verification/FacadeStart.v ===== *)
(** * Starting a queue

    A process that starts on the files of a queue finds its end, continues
    behind it, and is a live system of [FacadeFacts]. *)
From Stdlib Require Import ZArith Lia List Bool Sorted Permutation.
From Stdlib Require Import Ascii String.
From stdpp Require Import base option list gmap strings.
From S2P Require Import Prelude UBig UintN UintNFacts Paths PathsFacts PathsSearch FileTree Types.
From S2P Require Import WalFormat WalReader WalReaderFacts WalReaderTotal OrderedBuffer AckWriter.
From S2P Require Import WalWriter WalWriterFacts Crypto StoreFormat Store StoreFacts WalStore.
From S2P Require Import Cloud Lookup LookupFacts QueueLayout WalLayout Mem MemFacts ReaderFsm.
From S2P Require Import ReaderFsmFacts DiskMonitor DiskMonitorFacts NormFs NormFsFacts LiveLayout StoreLive.
From S2P Require Import Facade FacadeFacts FacadeReads.
From S2P Require Import FacadeRun.
#[local] Open Scope Z_scope.

(** The last file with entries. *)
Lemma last_entries `{U : UBig} (fs : list qfile) : all_entries fs <> [] ->
  exists i f, fs !! i = Some f /\ qf_entries f <> [] /\
    (forall j g, fs !! j = Some g -> (i < j)%nat -> qf_entries g = []) /\
    all_entries fs = all_entries (take (S i) fs).
Proof.
  induction fs as [|f fs IH] using rev_ind; [done|]. intros Hne.
  assert (all_entries (fs ++ [f]) = all_entries fs ++ qf_entries f) as E.
  { unfold all_entries. rewrite map_app, concat_app. cbn. by rewrite app_nil_r. }
  destruct (qf_entries f) as [|e es] eqn:Ef.
  - rewrite E, app_nil_r in *. destruct (IH Hne) as (i & g & Hi & Hg & Hl & Ha).
    pose proof (lookup_lt_Some _ _ _ Hi). exists i, g. split_and!; [by rewrite lookup_app_l|done| |].
    + intros j h Hj Hij. apply lookup_app_Some in Hj as [Hj|[Hj1 Hj2]]; [by eapply Hl|].
      destruct (j - length fs)%nat; [|done]. injection Hj2 as <-. done.
    + rewrite Ha. by rewrite take_app_le by lia.
  - exists (length fs), f. split_and!; [by apply list_lookup_middle|by rewrite Ef| |].
    + intros j g Hj Hij. apply lookup_lt_Some in Hj. rewrite length_app in Hj. cbn in Hj. lia.
    + rewrite take_ge; [done|]. rewrite length_app. cbn. lia.
Qed.

Section Start.
Context {B : Build} {U : UBig} {H : HexCrate} {X : Hasher} {S0 : UnstableSort}.
Context {C : CryptoLib} {Z' : CompressLib} {S3 : S3Http} {G : GlobCrate}.
Context (env : store_env) (q : queue_id) (lo base : Z) (frame : gmap str bytes).

(** ** The files do not change *)

(** A new process has an empty range cache. *)
Lemma on_disk_new fs k st st' : on_disk env q lo base frame fs k st ->
  st_files st' = st_files st -> st_ranges st' = ∅ -> on_disk env q lo base frame fs k st'.
Proof.
  intros [] Hf Hr. split; rewrite ?Hf; try done.
  - intros i f Hi. destruct (od_stored i f Hi) as [H1 _ H3|c r H1 H2 H3 H4 H5 _].
    + apply StoredWal; rewrite ?Hf, ?Hr; done.
    + apply (StoredStore _ _ _ _ _ _ c r); rewrite ?Hf, ?Hr; try done; [|by right].
      rewrite <- H5. unfold read_range_from_fs. cbn zeta. by rewrite Hf.
  - intros x Hx Hn. by rewrite Hr.
Qed.

(** The entries of the files. *)
Lemma on_disk_ids fs k st : on_disk env q lo base frame fs k st -> consecutive base (all_entries fs).
Proof.
  intros Hd. assert (forall i, (i <= length fs)%nat -> consecutive base (all_entries (take i fs))) as Hc.
  { induction i as [|i IH]; intros Hi; [done|].
    destruct (lookup_lt_is_Some_2 fs i) as [f Hf]; [lia|].
    rewrite (take_S_r _ _ _ Hf). unfold all_entries. rewrite map_app, concat_app.
    apply consecutive_app. split; [apply IH; lia|]. cbn [map concat]. rewrite app_nil_r.
    apply (qo_ids _ _ (od_ok _ _ _ _ _ _ _ _ Hd i f Hf)). }
  specialize (Hc (length fs) ltac:(done)). by rewrite firstn_all in Hc.
Qed.

(** ** Recovery *)

(** The files a process that closed leaves, and those of a queue that never
    was. *)
Definition resumable (fs : list qfile) : Prop :=
  all_entries fs <> [] \/ (length fs <= 1)%nat /\ lo = 1 /\ base = 0.

Lemma no_latest k st : on_disk env q lo base frame [] k st -> get_latest_file env st q = Ok None.
Proof.
  intros []. cbn [length] in od_sealed. assert (forall {E} (err : path_error -> E) path dir ext r,
    (forall x, path x = uintn_to_file_path x dir ext) ->
    (forall x, uintn_canonical x -> is_Some (st_files st !! path x) -> False) ->
    search_answer dir ext (st_files st) Z.le r -> map_err err r = Err (err PNoFilesFound)) as Hans.
  { intros E err path dir ext r Hp Hn [(m & -> & Hm & _ & Hs & _)|[-> _]]; [|done].
    exfalso. apply (Hn m Hm). by rewrite Hp. }
  unfold get_latest_file, ps_find_last_file_id, ws_find_last_file_id. cbn zeta. rewrite !od_io.
  rewrite (Hans _ SPath (store_path env q) _ _ _ ltac:(done)) by
    (first [apply (find_max_dir _ _ _ store_ext od_store_dir)|intros x Hx Hs; apply od_store in Hs; [lia|done]]).
  rewrite (Hans _ WPathError (wal_path env q) _ _ _ ltac:(done)) by
    (first [apply (find_max_dir _ _ _ wal_ext od_wal_dir)|intros x Hx Hs; apply od_wal in Hs; [rewrite zlen_nil in Hs; lia|done]]).
  done.
Qed.

(** Where the writer continues: behind the files [old], in a new file or again
    in the last one, which is empty. *)
Record resumed (fs old : list qfile) (st : store_state) (fid : uintn) (h : wal_header)
    (last_id : option uintn) : Prop := {
  rs_files : exists tl, fs = old ++ tl /\ (length tl <= 1)%nat /\ all_entries tl = [];
  rs_disk : on_disk env q lo base frame fs (length old) st;
  rs_id : uintn_canonical fid /\ uintn_val fid = lo + zlen old;
  rs_header : wal_header_ok h;
  rs_before : uintn_val (num_entries_before h) = base + zlen (all_entries old);
  rs_last : match last_id with Some l => uintn_canonical l | None => True end;
  rs_tidy : tidy fs -> Forall full_q old /\ wide h;
  rs_empty : all_entries old = [] -> old = [];
  rs_next : next_after last_id = base + zlen (all_entries old);
}.

Lemma resume fs st fuel : on_disk env q lo base frame fs (length fs - 1) st -> resumable fs -> 1 <= lo ->
  base + zlen (all_entries fs) < 2 ^ 128 -> lo + zlen fs < 2 ^ 24 -> lo + zlen fs <= Z.of_nat fuel ->
  exists old st' fid h last_id,
    continue_queue env fuel st q = Some (st', Ok (fid, h, last_id)) /\
    resumed fs old st' fid h last_id.
Proof.
  intros Hd Hr Hlo Hlim Hhi Hfuel. pose proof (zlen_nonneg fs).
  destruct (decide (all_entries fs = [])) as [He|He].
  { destruct Hr as [?|(Hlen & Hl1 & Hb)]; [done|].
    assert (exists st', continue_queue env fuel st q = Some (st', Ok fresh_queue) /\
      on_disk env q lo base frame fs (length fs - 1) st') as (st' & Hc & Hd').
    { destruct fs as [|f fs]; [exists st; unfold continue_queue; by rewrite (no_latest _ _ Hd)|].
      pose proof (on_disk_found _ _ _ _ _ _ _ _ Hd) as Hfound.
      destruct (continue_empty env q lo base (f :: fs) (st_files st) (on_disk_twins _ _ _ _ _ _ _ _ Hd)
        fuel st) as (st' & Hc & Hf'); try done; [by apply Hfound| |].
      - destruct fs; [|cbn in Hlen; lia]. repeat constructor. unfold all_entries in He. cbn in He.
        by rewrite app_nil_r in He.
      - exists st'. split; [done|]. by eapply on_disk_queried. }
    exists [], st', uintn_one, wal_header_default, None. split; [done|].
    replace (length fs - 1)%nat with 0%nat in Hd' by lia.
    split; rewrite ?zlen_nil; try done; [by exists fs|subst lo; by split|subst base..]; done. }
  destruct (last_entries fs He) as (i & f & Hi & Hne & Hlast & Hall).
  pose proof (on_disk_found _ _ _ _ _ _ _ _ Hd) as Hfound.
  destruct (continue_found env q lo base fs (st_files st) (on_disk_twins _ _ _ _ _ _ _ _ Hd)
    fuel st i f) as (st' & e & Hc & Hf' & Hec & Hev); try done; [|lia|].
  { apply Hfound. by intros ->. }
  pose proof (on_disk_queried env q lo base frame _ _ _ _ Hd Hf') as Hd'.
  pose proof (lookup_lt_Some _ _ _ Hi) as Hlt.
  pose proof (qo_header _ _ (od_ok _ _ _ _ _ _ _ _ Hd i f Hi)) as Hh.
  destruct (increment_spec e (canonical_ok _ Hec)) as [_ Hiv].
  assert (exists old tl, fs = old ++ tl /\ (length tl <= 1)%nat /\ all_entries tl = [] /\
    on_disk env q lo base frame fs (length old) st' /\
    (if decide (S i = length fs) then uid (lo + zlen fs) else uid (lo + zlen fs - 1)) =
      uid (lo + zlen old) /\ (tidy fs -> Forall full_q old))
    as (old & tl & Hfs & Htl & Het & Hdo & Hid & Htidy).
  { case_decide as E.
    - exists fs, []. rewrite app_nil_r. split_and!; try done; [cbn; lia| |].
      + eapply on_disk_sealed; [exact Hd'|lia].
      + intros Ht. apply tidy_full; [done|]. rewrite last_lookup.
        replace (pred (length fs)) with i by lia. by rewrite Hi.
    - destruct fs as [|g fs _] using rev_ind; [done|]. rewrite length_app in *. cbn [length] in *.
      exists fs, [g]. split_and!; try done.
      + unfold all_entries. cbn. rewrite app_nil_r. apply (Hlast (length fs)); [|lia].
        by apply list_lookup_middle.
      + by replace (length fs + 1 - 1)%nat with (length fs) in Hd' by lia.
      + f_equal. rewrite zlen_app. change (zlen [g]) with 1. lia.
      + apply tidy_init. }
  assert (all_entries fs = all_entries old) as Hae.
  { rewrite Hfs. unfold all_entries in *. by rewrite map_app, concat_app, Het, app_nil_r. }
  exists old, st', (uid (lo + zlen old)). eexists _, (Some e). split; [rewrite <- Hid; exact Hc|].
  assert (zlen old <= zlen fs) by (rewrite Hfs, zlen_app; pose proof (zlen_nonneg tl); lia).
  pose proof (zlen_nonneg old).
  split; rewrite <- ?Hae; [by exists tl|done|apply uid_spec; lia| | |done| |done|].
  - destruct Hh as (? & ? & _). split_and!; try done; cbn [num_entries_before].
    + by apply increment_canonical.
    + pose proof (counter_small (uintn_increment e) (increment_canonical _ Hec)). lia.
  - cbn [num_entries_before]. lia.
  - intros Ht. split; [by apply Htidy|]. apply (Forall_lookup_1 _ _ _ _ (proj1 Ht) Hi).
  - cbn [next_after]. lia.
Qed.

(** ** The writer *)

(** The new writer puts its header in the file it opens. *)
Lemma new_disk fs old st fid h last_id s : resumed fs old st fid h last_id ->
  lo + zlen old < 2 ^ 24 -> base + zlen (all_entries old) < 2 ^ 128 ->
  wr_good_at (lo + zlen old) (base + zlen (all_entries old)) [] [] [] s ->
  wr_queue_path s = queue_to_wal_dir q (se_root env) ->
  forall w, ww_store w = st -> live_disk env q lo base frame old [] [] s (ww_store (absorb w s s)).
Proof.
  intros [(tl & -> & Htl & _) Hd _ _ _ _ _] Hhi Hlim Hg Hp w Hw done rest Hcur Hholds.
  symmetry in Hcur. apply app_eq_nil in Hcur as [-> ->].
  pose proof (open_chain lo base old [] [] [] s [] [] Hg eq_refl) as Hchain.
  pose proof (open_size lo base old [] [] [] s [] Hg (ex_intro _ [] eq_refl)) as Hsz.
  pose proof (proj1 Hg) as Hr. unfold live_files.
  apply (absorb_files env q lo base frame old w s s [] tl); try done.
  - cbn [map]. rewrite app_nil_r, Hw. cbn [length]. by rewrite Nat.add_0_r.
  - by rewrite (rel_disk _ _ _ _ _ _ Hr).
  - by rewrite (rel_disk _ _ _ _ _ _ Hr).
  - unfold wr_files, holds in *. rewrite (rel_disk _ _ _ _ _ _ Hr).
    cbn [map app]. by rewrite (rel_path _ _ _ _ _ _ Hr), Hp, Hholds.
  - change (zlen ([] ++ [open_file s []])) with 1. lia.
  - change (closed_entries ([] ++ [open_file s []])) with (@nil (uintn * bytes)).
    rewrite zlen_nil. lia.
Qed.

(** A memory without entries. *)
Lemma new_kept old last_id max : mem_kept base old [] (mq_inner (mem_queue_new last_id max)).
Proof. exists (all_entries old). split; [done|]. by left. Qed.

(** ** The start of a process *)

(** Settings under which what is acknowledged is synced and no file of the
    queue is deleted: the disk monitor is off, or it is on with a proper limit
    and does not find the queue. *)
Definition keeping (settings : normfs_settings) : Prop :=
  match ns_max_disk_usage_per_queue settings with
  | None => True
  | Some max_size => overlooked env q frame /\
      0 <= ws_max_file_size (ns_wal_settings settings) * 3 <= max_size
  end /\
  qc_enable_fsync (get_config (ns_queue_settings settings) (qid_path q)) = true /\
  ws_max_file_size (ns_wal_settings settings) <= 2 ^ 62.

(** No I/O fault, and enough turns for recovery. *)
Definition calm (m : machine) : Prop :=
  mc_create m = [] /\ mc_io m = [] /\ 2 ^ 24 <= Z.of_nat (mc_fuel m).

(** The end of the start adds the queue to the monitor. *)
Lemma start_memory_live ordered m fs s reqs closed cur arrived mq numbered calls old last_id :
  let self := with_mem fs (ms_start_queue (nf_mem fs) q last_id) in
  keeping (nf_settings fs) ->
  (forall dm, nf_disk_monitor fs = Some dm -> dm_monitors dm = ∅ /\ dm_prefix dm = None) ->
  (ns_max_disk_usage_per_queue (nf_settings fs) = None -> nf_disk_monitor fs = None) ->
  live_at env q lo base frame old ordered s reqs closed cur arrived mq numbered
    {| sy_fs := with_monitor self None; sy_calls := calls |} ->
  exists self', start_memory env m fs q last_id = Some (self', Ok tt) /\
    live_at env q lo base frame old ordered s reqs closed cur arrived mq numbered
      {| sy_fs := self'; sy_calls := calls |}.
Proof.
  intros self (Hlim & _ & Hsz) Hdm Hoff Hl. unfold start_memory. fold self.
  change (nf_disk_monitor self) with (nf_disk_monitor fs).
  change (nf_settings self) with (nf_settings fs).
  assert (forall mon, (forall dm, mon = Some dm -> overlooked env q frame /\
      forall k m, dm_monitors dm !! k = Some m -> harmless q m) ->
    live_at env q lo base frame old ordered s reqs closed cur arrived mq numbered
      {| sy_fs := with_monitor self mon; sy_calls := calls |}) as Hwith.
  { intros mon Hmon. apply (live_tasks _ _ _ _ _ _ _ _ _ _ _ _ _ _ (with_monitor self None));
      try done; apply Hl. }
  destruct (ns_max_disk_usage_per_queue (nf_settings fs)) as [max|]; [|].
  2:{ specialize (Hwith None ltac:(done)). rewrite (Hoff eq_refl) in *. eexists. split; [reflexivity|].
      unfold self in *. destruct fs. cbn in *. by rewrite (Hoff eq_refl). }
  destruct (nf_disk_monitor fs) as [dm|] eqn:Edm.
  2:{ specialize (Hwith None ltac:(done)). eexists. split; [reflexivity|].
      unfold self in *. destruct fs. cbn in *. by rewrite Edm. }
  destruct Hlim as [Hov Hlim]. destruct (Hdm dm eq_refl) as [Hempty Hpre].
  destruct Hov as (r & Hr & Hno).
  destruct (open_at _ _ _ _ _ _ (lv_writer _ _ _ _ _ _ _ _ _ _ _ _ _ _ _ Hl)) as (done0 & rest0 & Hcur0 & Hh0 & _).
  pose proof (lv_disk _ _ _ _ _ _ _ _ _ _ _ _ _ _ _ Hl _ _ Hcur0 Hh0) as Hd.
  cbn [sy_fs] in Hd. change (nf_store (with_monitor self None)) with (nf_store self) in Hd.
  unfold add_queue, validate. cbn [dc_wal_settings dc_max_size].
  rewrite arith_ok by (unfold in_u; lia). ok_step. rewrite decide_False by lia.
  rewrite (check_overlooks (se_io env) (mc_stuck m) r).
  - eexists. split; [reflexivity|]. 
    replace (with_store self _) with self by (unfold self; destruct fs as [[[] ? ? ?] ? ? ? ? ? ? ?]; reflexivity).
    apply Hwith. intros dm' [= <-]. split; [by exists r|]. intros k m' Hm.
    cbn [set_monitor dm_monitors] in Hm. rewrite Hempty in Hm. apply lookup_singleton_Some in Hm as [_ <-].
    unfold harmless, queue_monitor_new. rewrite Hpre. split_and!; [done|cbn; lia|done].
  - apply Hd.
  - intros p rest Hp. destruct (Hno p rest Hp) as [Ho Hf]. by rewrite (od_outside _ _ _ _ _ _ _ _ Hd p Ho).
  - split; [done|cbn; lia].
Qed.

Lemma start_live ordered settings inst stuck m st fs : on_disk env q lo base frame fs (length fs - 1) st ->
  resumable fs -> 1 <= lo -> lo + zlen fs < 2 ^ 24 -> base + zlen (all_entries fs) <= 2 ^ 32 ->
  tidy fs -> keeping settings -> calm m ->
  exists old self, start_queue env m (normfs_new env settings None inst st stuck) q false =
      Some (self, Ok tt) /\
    live env q lo base frame old ordered [] {| sy_fs := self; sy_calls := [] |} /\
    all_entries old = all_entries fs /\ zlen old <= zlen fs /\ (all_entries old = [] -> old = []).
Proof.
  intros Hd Hres Hlo Hhi Hlim Htidy Hkeep (Hcreate & Hio & Hfuel).
  pose proof Hkeep as (_ & Hsync & Hsize).
  set (w0 := nf_wal (normfs_new env settings None inst st stuck)).
  assert (on_disk env q lo base frame fs (length fs - 1) (ww_store w0)) as Hd0
    by by eapply on_disk_new.
  destruct (resume fs (ww_store w0) (mc_fuel m)) as (old & st' & fid & h & last_id & Hc & Hrs);
    [done..|lia|done|lia|].
  destruct (rs_tidy _ _ _ _ _ _ Hrs Htidy) as [Hold Hwide].
  assert (all_entries old = all_entries fs /\ zlen old <= zlen fs) as [Hall Hlen].
  { destruct (rs_files _ _ _ _ _ _ Hrs) as (tl & -> & _ & E). rewrite zlen_app.
    pose proof (zlen_nonneg tl). split; [|lia]. unfold all_entries in *.
    by rewrite map_app, concat_app, E, app_nil_r. }
  pose proof (rs_id _ _ _ _ _ _ Hrs) as [Hfc Hfv]. pose proof (rs_before _ _ _ _ _ _ Hrs) as Hb.
  pose proof (rs_last _ _ _ _ _ _ Hrs) as Hl.
  assert (last_ok last_id) as Hlo' by (destruct last_id; [by apply canonical_ok|done]).
  set (settings' := queue_wal_settings (normfs_new env settings None inst st stuck) q).
  destruct (new_good q (se_root env) fid h settings' last_id) as (s & Hs & Hg & Hp & Hq & Ha);
    [by apply canonical_ok|apply Hrs|rewrite Hb, Hall; lia|done|rewrite Hb; apply Hrs|done|done|].
  rewrite Hfv, Hb in Hg. destruct (new_frame _ _ _ _ _ _ _ Hs) as (Hwh & Hwf & Hwc).
  set (task := {| ot_queue := q; ot_file_id := fid; ot_compression := ws_compression_type settings';
                  ot_encryption := ws_encryption_type settings' |}).
  set (self1 := with_workers (with_wal (with_store (normfs_new env settings None inst st stuck) st')
    (set_task (absorb {| ww_store := st'; ww_writers := ∅; ww_acks := []; ww_complete := [] |} s s) q
      {| wt_state := Some s; wt_pending := [] |})) true [task]).
  exists old. destruct (start_memory_live ordered m self1 s [] [] [] []
    (mem_queue_new last_id (ns_max_memory_usage settings / Z.max (Z.of_nat (size (∅ : gmap str mem_queue))) 1))
    [] [] old last_id) as (self & Hm & Hl'); [exact Hkeep| | | |exists self; split_and!; [|by do 6 eexists|done..|apply Hrs]].
  - intros dm Hdm. cbn in Hdm. destruct (ns_max_disk_usage_per_queue settings); [|done]. by injection Hdm as <-.
  - intros Hn. cbn in *. by rewrite Hn.
  - split; cbn [sy_fs sy_calls with_monitor with_mem with_workers with_wal with_store normfs_new nf_wal nf_mem
      nf_store set_task ww_writers ww_acks ww_store nf_settings nf_workers nf_cloud_downloader self1]; try done.
    + apply lookup_insert_eq.
    + rewrite Hall. by eapply on_disk_ids.
    + rewrite zlen_nil, Z.add_0_r, Hall. lia.
    + rewrite zlen_nil, Z.add_0_r. lia.
    + unfold ms_start_queue. cbn [ms_queues mem_store_new]. rewrite lookup_empty. apply lookup_insert_eq.
    + change (next_after last_id = base + zlen (all_entries old) + 0). rewrite Z.add_0_r. exact (rs_next _ _ _ _ _ _ Hrs).
    + apply new_kept.
    + cbn [absorb ww_acks]. rewrite Ha. constructor.
    + intros p. destruct (decide (p = qid_path q)); [done|]. rewrite lookup_insert_ne by done.
      cbn. rewrite lookup_empty. by intros [? ?].
    + intros _. split; [|done]. destruct Hg as (_ & _ & _ & _ & _ & Hperm). by apply Permutation_nil_r in Hperm.
    + eapply new_disk; try done; [lia|rewrite Hall; lia].
    + by rewrite Hwh.
    + by rewrite Hwf.
    + cbn [set_task absorb ww_complete]. rewrite Hwc. constructor.
    + apply Forall_cons. split; [|done]. cbn [ot_file_id task]. split_and!; [done|by apply canonical_ok|lia].
  - unfold start_queue. change (nf_store _) with (ww_store w0) at 1. rewrite Hc. cbn zeta.
    unfold ws_start_writer. rewrite (od_io _ _ _ _ _ _ _ _ Hd0).
    change (queue_wal_settings _ q) with settings'. rewrite Hcreate, Hio, Hs. exact Hm.
Qed.

End Start.
