(* ===== verification/FacadeWork.v ===== *)
(** * Processes on a queue

    What a process that starts on the files at rest can rely on and leaves
    behind: the lemmas that the claims about whole processes share. *)
From Stdlib Require Import ZArith Lia List Bool Sorted Permutation.
From Stdlib Require Import Ascii String.
From stdpp Require Import base option list gmap strings.
From S2P Require Import Prelude UBig UintN UintNFacts Paths PathsFacts PathsSearch FileTree Types.
From S2P Require Import WalFormat WalReader WalReaderFacts WalReaderTotal OrderedBuffer AckWriter.
From S2P Require Import WalWriter WalWriterFacts Crypto StoreFormat Store StoreFacts WalStore.
From S2P Require Import Cloud Lookup LookupFacts QueueLayout WalLayout Mem MemFacts ReaderFsm.
From S2P Require Import ReaderFsmFacts DiskMonitor NormFs NormFsFacts LiveLayout StoreLive.
From S2P Require Import Facade FacadeFacts FacadeReads.
From S2P Require Import FacadeRun FacadeStart ReaderTail FacadeFollow.
#[local] Open Scope Z_scope.

Section Processes.
Context {B : Build} {U : UBig} {H : HexCrate} {X : Hasher} {S0 : UnstableSort}.
Context {C : CryptoLib} {Z' : CompressLib} {S3 : S3Http} {G : GlobCrate}.
Context (env : store_env) (q : queue_id) (lo base : Z) (frame : gmap str bytes).

(** A process whose settings keep the data, on a machine without faults. *)
Record good_process (p : process) : Prop := {
  gp_settings : keeping env q frame (pr_settings p);
  gp_machine : calm (pr_machine p);
  gp_events : Forall (healthy base) (pr_events p);
  gp_sizes : Forall (fun d => zlen d <= 2 ^ 62) (payloads (pr_events p));
}.

(** The files of a queue that a process can take over. *)
Record at_rest (fs : list qfile) (st : store_state) : Prop := {
  ar_disk : on_disk env q lo base frame fs (length fs - 1) st;
  ar_start : resumable lo base fs;
  ar_tidy : tidy fs;
  ar_lo : 1 <= lo;
  ar_base : 0 <= base;
}.

(** Room for the files and the ids of some more entries. *)
Definition room (fs : list qfile) (data : list bytes) : Prop :=
  lo + zlen fs + zlen data < 2 ^ 24 /\ base + zlen (all_entries fs) + zlen data <= 2 ^ 32.

Lemma run_calls sys evs sys' : fs_run env q sys evs = Some sys' ->
  length (sy_calls sys') = open_calls (length (sy_calls sys)) evs.
Proof.
  revert sys. induction evs as [|ev evs IH]; intros sys Hr; [by injection Hr as ->|].
  cbn [fs_run] in Hr. destruct (fs_exec env q sys ev) as [sys1|] eqn:He; [|done]. rewrite (IH _ Hr). clear IH Hr.
  destruct ev as [d|[|d ds]|k| |ev| |fault uuid| | |mf mstuck|sf fuel pos limit step|answers|id]; cbn [fs_exec open_calls] in *;
    try (destruct (enqueue_number _ _ _) as [fs1 [?| |]]; [|done..]);
    try (destruct (batch_number _ _ _) as [fs1 [?| |]]; [|done..]);
    try (destruct (store_turn _ _ _ _) as [fs1|]; [|done]);
    try (destruct (monitor_turn _ _ _ _) as [fs1|]; [|done]);
    try (destruct (read _ _ _ _ _ _ _ _ _) as [[[fs1 ?] ?]|]; [|done]);
    try (injection He as <-; cbn [sy_calls]; rewrite ?length_app, ?Nat.add_1_r; done).
  destruct (sy_calls sys !! k) as [c|] eqn:Hk; injection He as <-; cbn [sy_calls].
  - pose proof (lookup_lt_Some _ _ _ Hk). rewrite decide_True, length_delete by (done || by eexists).
    f_equal. lia.
  - apply lookup_ge_None in Hk. rewrite decide_False by lia. done.
Qed.

(** A process on files at rest starts. *)
Lemma boot_live ordered p fs st : at_rest fs st -> good_process p -> room fs (payloads (pr_events p)) ->
  exists old self, boot env q p st = Some self /\
    live env q lo base frame old ordered [] {| sy_fs := self; sy_calls := [] |} /\
    fits lo base old [] (payloads (pr_events p)) /\ all_entries old = all_entries fs /\
    zlen old <= zlen fs /\ (all_entries old = [] -> old = []).
Proof.
  intros [Hd Hres Ht Hlo Hb] [Hset Hm Hev Hsz] [Hr1 Hr2].
  pose proof (zlen_nonneg (payloads (pr_events p))).
  destruct (start_live env q lo base frame ordered (pr_settings p) (pr_instance p) (pr_stuck p) (pr_machine p)
    st fs Hd Hres Hlo) as (old & self & Hs & Hl & Hall & Hlen & Hemp); [lia..|done|done|done|].
  exists old, self. unfold boot. rewrite Hs. split; [done|]. split; [done|]. split; [|done].
  split; [rewrite Hall, zlen_nil; lia|split; [rewrite zlen_nil; lia|done]].
Qed.

(** It works. *)
Lemma work_live ordered p fs st : at_rest fs st -> good_process p -> room fs (payloads (pr_events p)) ->
  (ordered -> Forall sends_in_order (pr_events p)) ->
  exists old sys numbered, work env q p st = Some sys /\ live env q lo base frame old ordered numbered sys /\
    map snd numbered = payloads (pr_events p) /\ all_entries old = all_entries fs /\
    zlen old <= zlen fs /\ (all_entries old = [] -> old = []).
Proof.
  intros Hrest Hp Hroom Hord.
  destruct (boot_live ordered p fs st Hrest Hp Hroom) as (old & self & Hb & Hl & Hfit & Hrest').
  destruct (live_run env q lo base frame old ordered [] _ (pr_events p) Hl (gp_events _ Hp) Hord Hfit)
    as (sys & numbered & Hrun & Hnum & Hl').
  by exists old, sys, numbered; unfold work; rewrite Hb.
Qed.

(** A follower of a process that works. *)
Lemma work_follow p fs st before search_fuel fuel from step after :
  at_rest fs st -> good_process p -> room fs (payloads (pr_events p)) ->
  pr_events p = before ++ ReadCall search_fuel fuel (Absolute from) 0 step :: after ->
  Forall keeps_followers after ->
  exists old sys sys' numbered, work env q (with_events p before) st = Some sys /\
    work env q p st = Some sys' /\ live env q lo base frame old False numbered sys' /\
    map snd numbered = payloads (pr_events p) /\ all_entries old = all_entries fs /\
    (in_memory q (sy_fs sys) from -> exists id last_sent,
      follower q id last_sent from step (sy_fs sys') (from_memory from step (all_entries old ++ numbered))).
Proof.
  intros Hrest Hp Hroom Hevs Hkeep.
  destruct (boot_live False p fs st Hrest Hp Hroom) as (old & self & Hb & Hl & Hfit & Hall & _).
  pose proof (gp_events _ Hp) as Hev. rewrite Hevs in Hev, Hfit |- *.
  apply Forall_app in Hev as [Hev1 Hev2]. apply Forall_cons in Hev2 as [Hread Hev2].
  rewrite payloads_app in *. change (payloads (ReadCall _ _ _ _ _ :: after)) with (payloads after) in *.
  apply fits_split in Hfit as [Hf1 Hf2].
  destruct (live_run env q lo base frame old False [] _ before Hl Hev1 ltac:(done) Hf1)
    as ([fs1 calls1] & n1 & Hr1 & Hn1 & Hl1). specialize (Hf2 n1 Hn1). cbn [app] in Hl1, Hf2.
  destruct (live_reads env q lo base frame old False _ _ _ search_fuel fuel (Absolute from) 0 step new_channel Hl1 eq_refl Hread)
    as (fs2 & ch & b & Hr & Hl2 & _).
  destruct (live_run env q lo base frame old False n1 _ after Hl2 Hev2 ltac:(done) Hf2) as (sys' & n2 & Hr2 & Hn2 & Hl').
  assert (work env q p st = Some sys') as Hw.
  { unfold work. rewrite Hb, Hevs, fs_run_app, Hr1. cbn [fs_run fs_exec sy_fs sy_calls]. by rewrite Hr. }
  exists old, {| sy_fs := fs1; sy_calls := calls1 |}, sys', (n1 ++ n2).
  split; [unfold work, with_events; cbn [pr_events]; change (boot env q _ st) with (boot env q p st); by rewrite Hb|].
  split; [done|]. split; [done|]. split; [by rewrite map_app, Hn1, Hn2|]. split; [done|].
  intros Hmem. destruct (follow_begins env q lo base frame old False _ _ _ search_fuel fuel from step Hl1 Hmem Hread)
    as (fs3 & ch3 & id & last_sent & Hr3 & Hls & Hfol & _). rewrite Hr in Hr3. injection Hr3 as <- _ _.
  destruct Hread as [Hfrom _ [Hs H1] _ _].
  destruct (follower_run env q lo base frame old False id last_sent from step Hls Hfrom Hs H1 n1 _ after _ Hl2 Hev2 Hkeep
    ltac:(done) Hf2 Hfol) as (sys2 & n3 & Hr3 & Hn3 & Hl3 & Hfol').
  rewrite Hr2 in Hr3. injection Hr3 as <-. exists id, last_sent.
  assert (n3 = n2) as ->; [|by rewrite app_assoc, from_memory_app].
  destruct (live_inv _ _ _ _ _ _ _ _ _ Hl2) as (mq & Hmq & _).
  rewrite (new_numbers env q lo base frame old False n1 n3 _ _ mq Hl2 Hl3 Hmq), (new_numbers env q lo base frame old False n1 n2 _ _ mq Hl2 Hl' Hmq).
  by rewrite Hn2, Hn3.
Qed.

(** A process that closes leaves the files at rest, with the first of its
    entries: all, when its callers were orderly. *)
Lemma session_rest p fs st : at_rest fs st -> good_process p -> room fs (payloads (pr_events p)) ->
  exists sys st' fs' kept lost, work env q p st = Some sys /\ session env q p st = Some st' /\
    at_rest fs' st' /\ map snd (kept ++ lost) = payloads (pr_events p) /\
    consecutive base (all_entries fs ++ kept ++ lost) /\ (orderly p -> lost = []) /\
    (forall a, acknowledged (sy_fs sys) q a -> In a (map fst kept)) /\
    all_entries fs' = all_entries fs ++ kept /\ zlen fs' <= zlen fs + zlen (kept ++ lost) + 1.
Proof.
  intros Hrest Hp Hroom.
  destruct (work_live (Forall sends_in_order (pr_events p)) p fs st Hrest Hp Hroom ltac:(done))
    as (old & sys & numbered & Hw & Hl & Hnum & Hall & Hlen & Hemp).
  assert (length (sy_calls sys) = open_calls 0 (pr_events p)) as Hc.
  { unfold work in Hw. destruct (boot env q p st); [|done]. by apply run_calls in Hw. }
  assert (consecutive base (all_entries old ++ numbered)) as Hcons
    by (destruct Hl as (? & ? & ? & ? & ? & ? & Hl); by eapply live_log).
  destruct sys as [self calls]. cbn [sy_calls] in Hc.
  destruct (live_close env q lo base frame old _ numbered self calls Hl)
    as (self' & files & kept & lost & Hclose & -> & Hlost & Hacked & Hae & Hd & Hz & Hz' & Htidy).
  exists {| sy_fs := self; sy_calls := calls |}, (nf_store self'), files, kept, lost.
  unfold session. rewrite Hw. cbn [sy_fs]. rewrite Hclose. rewrite Hall in *.
  split; [done|]. split; [done|]. split; [|split_and!; try done; [|lia]].
  - destruct Hrest as [_ Hres _ Hlo Hb]. split; try done.
    destruct (decide (all_entries files = [])) as [E|E]; [right|by left].
    rewrite Hae in E. apply app_eq_nil in E as [E1 E2]. rewrite (Hemp E1), zlen_nil in Hz'.
    destruct Hres as [?|(_ & ? & ?)]; [done|]. split; [|done].
    rewrite Hae, E1, E2 in Hz'. specialize (Hz' eq_refl). unfold zlen in Hz'. lia.
  - intros [Ho Hcalls]. apply Hlost; [done|]. rewrite Hcalls in Hc. by destruct calls.
Qed.

(** What the callers of some processes hand over. *)
Definition handed_over (ps : list process) : list bytes :=
  concat (map (fun p => payloads (pr_events p)) ps).

End Processes.

Section Unused.
Context {B : Build} {U : UBig} {H : HexCrate} {X : Hasher} {S0 : UnstableSort}.
Context {C : CryptoLib} {Z' : CompressLib} {S3 : S3Http} {G : GlobCrate}.
Context (env : store_env) (q : queue_id).

(** A disk without a file of the queue, before the first process. *)
Record unused_queue (st : store_state) : Prop := {
  un_wal p r : strip_prefix_l (base_prefix (queue_to_wal_dir q (se_root env))) p = Some r ->
    st_files st !! p = None;
  un_store p r : strip_prefix_l (base_prefix (queue_to_store_dir q (se_root env))) p = Some r ->
    st_files st !! p = None;
  un_ranges : st_ranges st = ∅;
  un_io p : se_io env p = false;
}.

Lemma unused_rest st : unused_queue st -> at_rest env q 1 0 (st_files st) [] st.
Proof.
  intros []. split; [|right; cbn; lia|by split|lia|lia]. cbn [length Nat.sub].
  assert (forall x, uintn_canonical x -> st_files st !! wal_path env q x = None) as Hw.
  { intros x Hx. unfold wal_path, queue_to_wal_path.
    rewrite (file_path_base x _ _ (ok_wf _ (canonical_ok _ Hx)) wal_ext).
    eapply un_wal0. apply strip_prefix_l_app. }
  assert (forall x, uintn_canonical x -> st_files st !! store_path env q x = None) as Hs.
  { intros x Hx. unfold store_path, queue_to_store_path.
    rewrite (file_path_base x _ _ (ok_wf _ (canonical_ok _ Hx)) store_ext).
    eapply un_store0. apply strip_prefix_l_app. }
  split; rewrite ?zlen_nil; try done.
  - intros p r [c Hp] Hr. by rewrite (un_wal0 _ _ Hr) in Hp.
  - intros p r [c Hp] Hr. by rewrite (un_store0 _ _ Hr) in Hp.
  - intros x Hx [c Hp]. by rewrite Hw in Hp.
  - intros x Hx [c Hp]. by rewrite Hs in Hp.
  - intros x Hx _. by rewrite un_ranges0.
Qed.

Lemma handed_snoc ps p : handed_over (ps ++ [p]) = handed_over ps ++ payloads (pr_events p).
Proof. unfold handed_over. rewrite map_app, concat_app. cbn. by rewrite app_nil_r. Qed.

Lemma zlen_map {A A'} (f : A -> A') l : zlen (map f l) = zlen l.
Proof. unfold zlen. by rewrite length_map. Qed.

Lemma next_process ordered frame p fs st log : at_rest env q 1 0 frame fs st ->
  good_process env q 0 frame p ->
  all_entries fs = log -> 1 + zlen fs + zlen (payloads (pr_events p)) < 2 ^ 24 ->
  zlen log + zlen (payloads (pr_events p)) < 2 ^ 24 ->
  (ordered -> Forall sends_in_order (pr_events p)) ->
  exists old sys numbered, work env q p st = Some sys /\ live env q 1 0 frame old ordered numbered sys /\
    map snd numbered = payloads (pr_events p) /\ consecutive 0 (log ++ numbered) /\
    all_entries old = log /\ zlen old <= zlen fs.
Proof.
  intros Hrest Hp He Hroom Hids Hord. pose proof (zlen_nonneg fs). pose proof (zlen_nonneg log).
  destruct (work_live env q 1 0 frame ordered p fs st Hrest Hp) as
    (old & sys & n & Hw & Hl & Hn & Hall & Hz & _); [split; [lia|rewrite He; lia]|done|].
  rewrite He in Hall. exists old, sys, n. do 3 (split; [done|]). split; [|by split].
  rewrite <- Hall. destruct Hl as (? & ? & ? & ? & ? & ? & Hl). by eapply live_log.
Qed.

(** The files of a queue that a process died on can be taken over. *)
Lemma dead_rest frame old ordered numbered sys : live env q 1 0 frame old ordered numbered sys ->
  exists fs kept lost, numbered = kept ++ lost /\ all_entries fs = all_entries old ++ kept /\
    at_rest env q 1 0 frame fs (nf_store (sy_fs sys)) /\ zlen fs <= zlen old + zlen numbered + 1 /\
    forall a, acknowledged (sy_fs sys) q a -> In a (map fst (all_entries fs)).
Proof.
  intros Hl. destruct (live_dead env q 1 0 frame old ordered numbered sys Hl)
    as (fs & kept & lost & Hn & He & Hd & Ht & Hz & Hacked).
  exists fs, kept, lost. split; [done|]. split; [done|]. split; [|done]. split; [done| |done|lia|lia].
  destruct (decide (all_entries fs = [])) as [E|E]; [right|by left]. split; [|done].
  destruct (decide (length fs <= 1)%nat) as [|Hlong]; [done|exfalso].
  destruct fs as [|f [|g fs]]; cbn [length] in Hlong; [lia..|].
  apply (proj2 Ht 0%nat f); [done|cbn [length]; lia|]. unfold all_entries in E. cbn [map concat] in E.
  by apply app_eq_nil in E as [E _].
Qed.

(** One more process, however it ends. *)
Lemma life_rest frame disk before p e fs st : lived env q disk before st (all_entries fs) ->
  at_rest env q 1 0 frame fs st -> good_process env q 0 frame p ->
  1 + zlen fs + zlen (payloads (pr_events p)) < 2 ^ 24 ->
  zlen (all_entries fs) + zlen (payloads (pr_events p)) < 2 ^ 24 ->
  exists st' fs', life env q p e st = Some st' /\ lived env q disk (before ++ [(p, e)]) st' (all_entries fs') /\
    at_rest env q 1 0 frame fs' st' /\ zlen fs' <= zlen fs + zlen (payloads (pr_events p)) + 1 /\
    zlen (all_entries fs') <= zlen (all_entries fs) + zlen (payloads (pr_events p)).
Proof.
  intros Hlived Hrest Hp Hroom Hids.
  enough (exists sys st' fs' kept lost, work env q p st = Some sys /\ life env q p e st = Some st' /\
    at_rest env q 1 0 frame fs' st' /\ map snd (kept ++ lost) = payloads (pr_events p) /\
    consecutive 0 (all_entries fs ++ kept ++ lost) /\ (e = Closes -> orderly p -> lost = []) /\
    (forall a, acknowledged (sy_fs sys) q a -> In a (map fst (all_entries fs ++ kept))) /\
    all_entries fs' = all_entries fs ++ kept /\ zlen fs' <= zlen fs + zlen (kept ++ lost) + 1)
    as (sys & st' & fs' & kept & lost & Hw & Hs & Hrest' & Hn & Hc & Hlost & Hacked & He & Hz).
  { pose proof (zlen_map snd (kept ++ lost)) as Hzn. rewrite Hn in Hzn. exists st', fs'. split; [done|].
    rewrite He. split; [by eapply lived_next|]. rewrite !zlen_app in *. pose proof (zlen_nonneg lost). split; [done|]. lia. }
  destruct e.
  - destruct (session_rest env q 1 0 frame p fs st Hrest Hp) as (sys & st' & fs' & kept & lost & Hw & Hs & Hrest' & Hn & Hc & Hlost & Hacked & He & Hz);
      [split; lia|].
    exists sys, st', fs', kept, lost. split_and!; try done. intros a Ha. rewrite map_app. apply in_or_app. right. by apply Hacked.
  - destruct (next_process False frame p fs st _ Hrest Hp eq_refl Hroom Hids)
      as (old & sys & new & Hw & Hl & Hn & Hc & Ho & Hz); [done|].
    destruct (dead_rest frame old False new sys Hl) as (fs' & kept & lost & -> & He & Hrest' & Hz' & Hacked).
    rewrite Ho in He. exists sys, (nf_store (sy_fs sys)), fs', kept, lost. cbn [life]. rewrite Hw.
    split_and!; try done; [by rewrite <- He|lia].
Qed.

(** Any number of them. *)
Lemma lives_rest frame disk ps before fs st : lived env q disk before st (all_entries fs) ->
  at_rest env q 1 0 frame fs st -> Forall (good_process env q 0 frame) (map fst ps) ->
  1 + zlen fs + zlen (handed_over (map fst ps)) + zlen ps < 2 ^ 24 ->
  zlen (all_entries fs) + zlen (handed_over (map fst ps)) < 2 ^ 24 ->
  exists st' fs', lives env q ps st = Some st' /\ lived env q disk (before ++ ps) st' (all_entries fs') /\
    at_rest env q 1 0 frame fs' st' /\ zlen fs' <= zlen fs + zlen (handed_over (map fst ps)) + zlen ps /\
    zlen (all_entries fs') <= zlen (all_entries fs) + zlen (handed_over (map fst ps)).
Proof.
  revert before fs st. induction ps as [|[p e] ps IH]; intros before fs st Hlived Hrest Hg Hroom Hids.
  { exists st, fs. rewrite app_nil_r. split_and!; try done; cbn; unfold zlen; cbn [length]; lia. }
  apply Forall_cons in Hg as [Hp Hg]. cbn [fst] in Hp.
  unfold handed_over in *. cbn [map concat fst] in *. rewrite zlen_app, ?zlen_cons in *.
  pose proof (zlen_nonneg ps). pose proof (zlen_nonneg (concat (map (fun p => payloads (pr_events p)) (map fst ps)))).
  destruct (life_rest frame disk before p e fs st Hlived Hrest Hp) as (st1 & fs1 & Hs & Hl1 & Hrest1 & Hz1 & Ha1);
    [lia..|].
  destruct (IH _ fs1 st1 Hl1 Hrest1 Hg) as (st' & fs' & Hs2 & Hl2 & Hrest2 & Hz2 & Ha2); [lia..|].
  exists st', fs'. cbn [lives]. rewrite Hs, Hs2. rewrite <- app_assoc in Hl2. split_and!; try done; lia.
Qed.

(** What [lived] says of the runs: they are those of [lives], and what the last
    one acknowledged before it died is in the log. *)
Lemma lives_snoc ps p e st : lives env q (ps ++ [(p, e)]) st =
  match lives env q ps st with Some st => life env q p e st | None => None end.
Proof.
  revert st. induction ps as [|[p0 e0] ps IH]; intros st; cbn [app lives]; [by destruct (life _ _ _ _ _)|].
  destruct (life env q p0 e0 st) as [st1|]; [apply IH|done].
Qed.

Lemma lived_lives disk ps st log : lived env q disk ps st log -> lives env q ps disk = Some st.
Proof.
  induction 1 as [|ps p e st sys st' log kept lost _ IH _ Hs _ _ _ _]; [done|]. by rewrite lives_snoc, IH.
Qed.

Lemma lived_acknowledged disk ps p e st st' sys log a : lived env q disk (ps ++ [(p, e)]) st' log ->
  lives env q ps disk = Some st -> work env q p st = Some sys ->
  acknowledged (sy_fs sys) q a -> In a (map fst log).
Proof.
  intros Hl Hs Hw Ha. inversion Hl as [E|ps1 p1 e1 st1 sys1 st2 log1 kept lost Hl1 Hw1 _ _ _ Hack _ E].
  - by destruct ps.
  - apply app_inj_tail in E as [-> E]. injection E as -> ->.
    apply lived_lives in Hl1. rewrite Hs in Hl1. injection Hl1 as <-. rewrite Hw in Hw1. injection Hw1 as <-.
    by apply Hack.
Qed.

(** What each of the processes left in the log. *)
Definition left_by (pe : process * ending) (kept : list bytes) : Prop :=
  kept `prefix_of` payloads (pr_events (fst pe)) /\
  (snd pe = Closes -> orderly (fst pe) -> kept = payloads (pr_events (fst pe))).

Lemma lived_kept disk ps st log : lived env q disk ps st log ->
  exists keeps, Forall2 left_by ps keeps /\ map snd log = concat keeps.
Proof.
  induction 1 as [|ps p e st sys st' log kept lost _ (keeps & Hk & Hlog) _ _ Hn _ _ Hlost]; [by exists []|].
  exists (keeps ++ [map snd kept]). rewrite map_app, concat_app, Hlog. cbn [concat]. rewrite app_nil_r.
  split; [|done]. apply Forall2_app; [done|]. constructor; [|done]. rewrite map_app in Hn. split; cbn [fst snd].
  - exists (map snd lost). by rewrite <- Hn.
  - intros He Ho. by rewrite <- Hn, (Hlost He Ho), app_nil_r.
Qed.

(** Processes that all close. *)
Definition closing (ps : list process) : list (process * ending) := map (fun p => (p, Closes)) ps.

Lemma closing_processes ps : map fst (closing ps) = ps.
Proof. unfold closing. rewrite map_map. apply map_id. Qed.

Lemma sessions_lives ps st : lives env q (closing ps) st = sessions env q ps st.
Proof.
  revert st. induction ps as [|p ps IH]; intros st; [done|]. cbn [closing map lives sessions life].
  destruct (session env q p st); [apply IH|done].
Qed.

Lemma orderly_kept ps keeps : Forall orderly ps -> Forall2 left_by (closing ps) keeps ->
  concat keeps = handed_over ps.
Proof.
  revert keeps. induction ps as [|p ps IH]; intros keeps Ho Hk; unfold handed_over; cbn [closing map] in *.
  - by apply Forall2_nil_inv_l in Hk as ->.
  - apply Forall_cons in Ho as [Hp Ho]. apply Forall2_cons_inv_l in Hk as (k & ks & [_ Hk] & Hks & ->).
    cbn [concat]. rewrite (Hk eq_refl Hp). f_equal. by apply IH.
Qed.

(** Any number of processes on a disk without the queue. *)
Lemma after_lives ps st : unused_queue st -> Forall (good_process env q 0 (st_files st)) (map fst ps) ->
  zlen (handed_over (map fst ps)) + zlen ps + 1 < 2 ^ 24 ->
  exists st' fs, lives env q ps st = Some st' /\ lived env q st ps st' (all_entries fs) /\
    at_rest env q 1 0 (st_files st) fs st' /\ zlen fs <= zlen (handed_over (map fst ps)) + zlen ps /\
    zlen (all_entries fs) <= zlen (handed_over (map fst ps)).
Proof.
  intros Hun Hps Hroom. pose proof (zlen_nonneg ps).
  destruct (lives_rest (st_files st) st ps [] [] st (lived_none _ _ _) (unused_rest _ Hun) Hps)
    as (st' & fs & Hs & Hlived & Hrest & Hz & Hza); rewrite ?zlen_nil in *;
    [lia|change (zlen (all_entries [])) with 0; lia|].
  change (zlen (all_entries [])) with 0 in Hza. by exists st', fs.
Qed.

(** When all close and their callers were orderly, everything is there. *)
Lemma after_sessions ps st : unused_queue st -> Forall (good_process env q 0 (st_files st)) ps -> Forall orderly ps ->
  zlen (handed_over ps) + zlen ps + 1 < 2 ^ 24 ->
  exists st' fs log, sessions env q ps st = Some st' /\ at_rest env q 1 0 (st_files st) fs st' /\
    map snd log = handed_over ps /\ all_entries fs = log /\ zlen fs <= zlen log + zlen ps.
Proof.
  intros Hun Hps Ho Hroom. assert (zlen (closing ps) = zlen ps) as Hzc by apply zlen_map.
  destruct (after_lives (closing ps) st Hun) as (st' & fs & Hs & Hlived & Hrest & Hz & _);
    [by rewrite closing_processes|rewrite closing_processes; lia|].
  rewrite sessions_lives in Hs. destruct (lived_kept _ _ _ _ Hlived) as (keeps & Hk & Hlog).
  rewrite (orderly_kept _ _ Ho Hk) in Hlog. exists st', fs, (all_entries fs). split_and!; try done.
  rewrite <- (zlen_map snd (all_entries fs)), Hlog. rewrite closing_processes, Hzc in Hz. lia.
Qed.

End Unused.
