(* ===== verification/FacadeClaims.v ===== *)
(** * What the facade promises

    Reads of a running queue are exact, a process that closed leaves everything
    to the next one, and one that dies leaves everything that it acknowledged. *)
From Stdlib Require Import ZArith Lia List Bool Sorted Permutation.
From Stdlib Require Import Ascii String.
From stdpp Require Import base option list gmap strings.
From S2P Require Import Prelude UBig UintN UintNFacts Paths PathsFacts PathsSearch FileTree Types.
From S2P Require Import WalFormat WalReader WalReaderFacts WalReaderTotal OrderedBuffer AckWriter.
From S2P Require Import WalWriter WalWriterFacts Crypto StoreFormat Store StoreFacts WalStore.
From S2P Require Import Cloud Lookup LookupFacts QueueLayout WalLayout Mem MemFacts ReaderFsm.
From S2P Require Import ReaderFsmFacts DiskMonitor NormFs NormFsFacts LiveLayout StoreLive.
From S2P Require Import Facade FacadeFacts FacadeReads.
From S2P Require Import FacadeRun FacadeStart ReaderTail FacadeFollow.
From S2P Require Import FacadeWork.
#[local] Open Scope Z_scope.

Section Claims.
Context {B : Build} {U : UBig} {H : HexCrate} {X : Hasher} {S0 : UnstableSort}.
Context {C : CryptoLib} {Z' : CompressLib} {S3 : S3Http} {G : GlobCrate}.
Context (env : store_env) (q : queue_id).

(** One more process on what some left. *)
Lemma followed_by ps p st :
  unused_queue env q st -> Forall (good_process env q 0 (st_files st)) (map fst ps ++ [p]) ->
  zlen (handed_over (map fst ps ++ [p])) + zlen ps + 1 < 2 ^ 24 ->
  exists st' fs old sys new, lives env q ps st = Some st' /\ lived env q st ps st' (all_entries fs) /\
    work env q p st' = Some sys /\ live env q 1 0 (st_files st) old False new sys /\
    map snd new = payloads (pr_events p) /\ consecutive 0 (all_entries fs ++ new) /\
    all_entries old = all_entries fs.
Proof.
  intros Hun Hg Hroom. apply Forall_app in Hg as [Hps Hp]. apply Forall_cons in Hp as [Hp _].
  rewrite handed_snoc, zlen_app in Hroom. pose proof (zlen_nonneg (payloads (pr_events p))).
  pose proof (zlen_nonneg ps).
  destruct (after_lives env q ps st Hun Hps) as (st' & fs & Hs & Hlived & Hrest & Hz & Hza); [lia|].
  destruct (next_process env q False (st_files st) p fs st' _ Hrest Hp eq_refl) as (old & sys & new & Hw & Hl & Hn & Hc & Hold & _);
    [lia..|done|]. by exists st', fs, old, sys, new.
Qed.

(** C1: end to end: processes that one after the other start a queue, take
    entries from concurrent callers, write them by background tasks in any
    interleaving (a store worker that moves closed files, whatever fails in it,
    and the disk monitor among them) and close, never fail; what they leave is a
    log to which each added the first of its entries in the order of the numbers,
    and all of them when its callers had sent their entries to the writer, in that
    order, before it closed.  Then in the next process, after any run, whatever its
    callers do (reads, follows and subscriptions among their calls), a limited
    read, from an id or from the tail, that no step of another task interrupts
    gives exactly the entries asked for out of that log and all that this process
    numbered, consecutive from 0; and no file outside the directories of the queue
    has changed.  The WAL files are written without faults ([healthy]), blocks
    whole; of the settings [good_process] asks for fsync and that the disk monitor
    is off or does not find the queue. *)
Theorem facade_end_to_end ps p st :
  unused_queue env q st -> Forall (good_process env q 0 (st_files st)) (ps ++ [p]) ->
  zlen (handed_over (ps ++ [p])) + zlen ps + 1 < 2 ^ 24 ->
  exists st' sys log keeps new, sessions env q ps st = Some st' /\ work env q p st' = Some sys /\
    map snd log = concat keeps /\ Forall2 left_by (closing ps) keeps /\
    (Forall orderly ps -> map snd log = handed_over ps) /\
    map snd new = payloads (pr_events p) /\ consecutive 0 (log ++ new) /\
    reads_exactly env q 0 (sy_fs sys) (log ++ new) /\
    forall path, outside env q path -> st_files (nf_store (sy_fs sys)) !! path = st_files st !! path.
Proof.
  intros Hun Hg Hroom. destruct (followed_by (closing ps) p st Hun) as (st' & fs & old & sys & new & Hs & Hlived & Hw & Hl & Hn & Hc & Hold);
    [by rewrite closing_processes|rewrite closing_processes; unfold closing; by rewrite zlen_map|].
  rewrite sessions_lives in Hs. destruct (lived_kept _ _ _ _ _ _ Hlived) as (keeps & Hk & Hlog).
  exists st', sys, (all_entries fs), keeps, new. do 4 (split; [done|]).
  split; [intros Ho; by rewrite Hlog, (orderly_kept ps keeps Ho Hk)|]. do 2 (split; [done|]).
  split; [rewrite <- Hold; by eapply live_read|]. intros path. by eapply live_outside.
Qed.

(** C2: no acknowledged entry is lost when processes close or die, one after the
    other, between two steps of their tasks (each step whole: a WAL block is
    written or it is not): what is on disk is a log to which each added the first
    of its entries, with all that it had acknowledged, and all of them when it
    closed and its callers were orderly; the next process starts, continues behind
    that log, and its reads, uninterrupted, give the log and its own entries
    exactly.  A process that dies in the middle of a write leaves a torn record,
    which is not covered here: see [torn_record_hides_entry]. *)
Theorem crash_keeps_acknowledged ps p st :
  unused_queue env q st -> Forall (good_process env q 0 (st_files st)) (map fst ps ++ [p]) ->
  zlen (handed_over (map fst ps ++ [p])) + zlen ps + 1 < 2 ^ 24 ->
  exists st' log sys new, lives env q ps st = Some st' /\ lived env q st ps st' log /\
    work env q p st' = Some sys /\ map snd new = payloads (pr_events p) /\
    consecutive 0 (log ++ new) /\ reads_exactly env q 0 (sy_fs sys) (log ++ new).
Proof.
  intros Hun Hg Hroom. destruct (followed_by ps p st Hun Hg Hroom) as (st' & fs & old & sys & new & Hs & Hlived & Hw & Hl & Hn & Hc & Hold).
  exists st', (all_entries fs), sys, new. do 5 (split; [done|]). rewrite <- Hold. by eapply live_read.
Qed.

(** A follower of the facade keeps up: after processes that closed or died, a
    follow that starts in memory (or at the next id) after any run of a process
    has, after any more steps, received exactly the entries on its step out of the
    log and all that this process numbered, in order, each once, as long as nobody
    unsubscribes and its channel never fills.  Here the follow is one step, and so
    are the numbering of entries and their notification; [MemInterleaved] is about
    what happens when they are not. *)
Theorem follow_keeps_up ps p before search_fuel fuel from step after st :
  unused_queue env q st -> Forall (good_process env q 0 (st_files st)) (map fst ps ++ [p]) ->
  zlen (handed_over (map fst ps ++ [p])) + zlen ps + 1 < 2 ^ 24 ->
  pr_events p = before ++ ReadCall search_fuel fuel (Absolute from) 0 step :: after ->
  Forall keeps_followers after ->
  exists st' sys sys' log new, lives env q ps st = Some st' /\ lived env q st ps st' log /\
    work env q (with_events p before) st' = Some sys /\ work env q p st' = Some sys' /\
    map snd new = payloads (pr_events p) /\ consecutive 0 (log ++ new) /\
    (in_memory q (sy_fs sys) from -> exists mq id last_sent ch,
       ms_queues (nf_mem (sy_fs sys')) !! qid_path q = Some mq /\
       In (id, SubFollow last_sent from step ch) (mq_subscribers mq) /\
       payload ch = List.filter (at_point (uintn_val from) step) (log ++ new)).
Proof.
  intros Hun Hg Hroom Hevs Hkeep. apply Forall_app in Hg as [Hps Hp]. apply Forall_cons in Hp as [Hp _].
  rewrite handed_snoc, zlen_app in *. pose proof (zlen_nonneg (payloads (pr_events p))). pose proof (zlen_nonneg ps).
  destruct (after_lives env q ps st Hun Hps) as (st' & fs & Hs & Hlived & Hrest & Hz & Hza); [lia|].
  destruct (work_follow env q 1 0 (st_files st) p fs st' before search_fuel fuel from step after Hrest Hp ltac:(split; lia) Hevs Hkeep)
    as (old & sys & sys' & new & Hw & Hw' & Hl & Hn & Ho & Hfol).
  exists st', sys, sys', (all_entries old), new. do 4 (split; [by rewrite ?Ho|]). split; [done|].
  split; [destruct Hl as (? & ? & ? & ? & ? & ? & Hl); by eapply live_log|]. intros Hm.
  destruct (Hfol Hm) as (id & last_sent & mq & Hmq & _ & Hin & _).
  exists mq, id, last_sent, {| ch_sent := from_memory from step (all_entries old ++ new); ch_life := None |}.
  split; [done|]. split; [done|]. apply payload_from_memory.
Qed.

End Claims.

(** ** Two processes *)

(** Patterns that are queue names. *)
#[export] Instance GlobCrate_literal : GlobCrate :=
  {| glob_matcher := str; glob_new := Some; is_match := fun m path => bool_decide (m = path) |}.

(** Files so small that every entry but the first of a file starts a new one. *)
Definition demo_wal_settings : wal_settings :=
  {| ws_max_file_size := 40; ws_write_buffer_size := 100; ws_enable_fsync := true;
     ws_encryption_type := EncAes; ws_compression_type := CompZstd |}.
Definition demo_settings : normfs_settings :=
  {| ns_max_memory_usage := 1000; ns_wal_settings := demo_wal_settings;
     ns_max_disk_usage_per_queue := Some 120;
     ns_queue_settings := {| qs_rules := []; qs_default_config := queue_config_default |} |}.

(** The part [n] of the fuel is not used. *)
Definition demo_process (n : nat) (evs : list fs_event) : process :=
  {| pr_settings := demo_settings; pr_instance := s2l "i"; pr_stuck := fun _ => false;
     pr_machine := {| mc_create := []; mc_io := []; mc_stuck := fun _ => false; mc_upload := [];
                      mc_fuel := 4 + n |};
     pr_events := evs |}.

(** Two callers, then the tasks: a file moves to the store, another stays since
    its deletion failed; in the second process there are a follow from the first
    new entry and a read of two entries from the tail, and the last entry is with
    its caller. *)
Definition demo_first : list fs_event :=
  [NumberOne [Byte.x61]; NumberBatch [[Byte.x62]; [Byte.x63; Byte.x63]]; SendCall 0; SendCall 0;
   WriterTurn; WriterTurn; StoreTurn NoFault (s2l "u"); StoreTurn FaultDelete (s2l "v"); DoneTurn].
Definition demo_read (n : nat) (position : read_position) (limit : Z) : fs_event :=
  ReadCall (4 + n) (40 + n) position limit 1.
Definition demo_later (n : nat) : list fs_event :=
  [SubscribeCall [true]; SendCall 0; OldFilesTurn; StoreTurn (FaultWrite true) (s2l "w");
   StoreTurn NoFault (s2l "x"); MonitorTurn 0 (fun _ => false); WriterTurn; FlushTurn EvTake; FlushTurn (EvAttempt Succeeds);
   AckTurn; demo_read n (ShiftFromTail (U8 2)) 2; NumberOne [Byte.x65]].
Definition demo_second_run (n : nat) : list fs_event :=
  [NumberOne [Byte.x64]] ++ demo_read n (Absolute (U8 3)) 0 :: demo_later n.
Definition demo_disk : store_state := {| st_files := ∅; st_tmp := []; st_ranges := ∅; st_done := [] |}.

Lemma demo_unused : unused_queue sample_env demo_queue demo_disk.
Proof. by split. Defined.

(** The monitor is on, and looks at [/i/q] while the queue is below [/d]. *)
Lemma demo_overlooked : overlooked sample_env demo_queue ∅.
Proof.
  exists (s2l "i/q"). split; [done|]. intros p rest Hp%strip_prefix_l_Some. subst p. by split_and!.
Defined.

Lemma demo_process_good n evs : 2 ^ 24 <= Z.of_nat n -> Forall (healthy 0) evs -> Forall (fun d => zlen d <= 2 ^ 62) (payloads evs) ->
  good_process sample_env demo_queue 0 ∅ (demo_process n evs).
Proof.
  intros Hn Hh Hs. split; [| |done|done].
  - split; [split; [apply demo_overlooked|done]|done].
  - split_and!; [done|done|]. cbn [demo_process pr_machine mc_fuel]. rewrite Nat2Z.inj_add. lia.
Defined.

Definition demo_log : list bytes := [[Byte.x61]; [Byte.x62]; [Byte.x63; Byte.x63]; [Byte.x64]; [Byte.x65]].

(** What the run of the first two does, evaluated: the acknowledgement, and where
    the files of the first are. *)
Definition is_some {A} (o : option A) : bool := match o with Some _ => true | None => false end.
Lemma demo_acknowledged n n' :
  match sessions (B := checked_build) (S3 := S3Http_map) sample_env demo_queue
          [demo_process n demo_first] demo_disk with
  | Some st =>
      match work (B := checked_build) (S3 := S3Http_map) sample_env demo_queue
              (demo_process n' (demo_second_run n')) st with
      | Some sys =>
          match ms_queues (nf_mem (sy_fs sys)) !! qid_path demo_queue with
          | Some mq =>
              bool_decide (mi_last_acked_id (mq_inner mq) = Some (U8 3)) &&
              bool_decide (map (fun x => is_some (st_files st !! wal_path sample_env demo_queue x))
                             [U8 1; U8 2; U8 3] = [false; true; true]) &&
              bool_decide (map (fun x => is_some (st_files st !! store_path sample_env demo_queue x))
                             [U8 1; U8 2; U8 3] = [true; true; false])
          | None => false
          end
      | None => false
      end
  | None => false
  end = true.
Proof. vm_compute. reflexivity. Qed.

Lemma demo_good_first : good_process sample_env demo_queue 0 ∅ (demo_process (Z.to_nat (2 ^ 28)) demo_first).
Proof. apply demo_process_good; [by rewrite Z2Nat.id|repeat constructor; done..]. Defined.

Lemma demo_read_proper n position limit : 6 + 5 * 2 ^ 24 <= Z.of_nat n ->
  uintn_ok (position_offset position) ->
  match position with Absolute from => 0 <= uintn_val from | _ => 0 = 0 end ->
  limit = 0 \/ 1 <= limit /\ in_u 64 ((limit - 1) * 1) -> healthy 0 (demo_read n position limit).
Proof. intros Hn Ho Hr Hl. cbn [healthy demo_read]. split; [done|done|done|done|lia]. Defined.

Lemma demo_good_second : good_process sample_env demo_queue 0 ∅ (demo_process (Z.to_nat (2 ^ 28)) (demo_second_run (Z.to_nat (2 ^ 28)))).
Proof.
  assert (6 + 5 * 2 ^ 24 <= Z.of_nat (Z.to_nat (2 ^ 28))) as Hn by (rewrite Z2Nat.id by done; done).
  revert Hn. generalize (Z.to_nat (2 ^ 28)). intros n Hn.
  apply demo_process_good; [lia| |repeat constructor; done].
  unfold demo_second_run, demo_later. cbn [app].
  assert (healthy 0 (demo_read n (Absolute (U8 3)) 0)) as H1
    by (apply demo_read_proper; [done|done|done|by left]).
  assert (healthy 0 (demo_read n (ShiftFromTail (U8 2)) 2)) as H2
    by (apply demo_read_proper; [done|done|done|by right]).
  repeat apply Forall_cons_2; first [exact H1|exact H2|exact I|by left|by right|apply Forall_nil_2].
Defined.

Lemma demo_orderly : Forall orderly [demo_process (Z.to_nat (2 ^ 28)) demo_first].
Proof. constructor; [|constructor]. split; [repeat constructor|reflexivity]. Defined.

Lemma facade_end_to_end_witness :
  let big := Z.to_nat (2 ^ 28) in
  exists st' sys log new,
    sessions (B := checked_build) (S3 := S3Http_map) sample_env demo_queue
      [demo_process big demo_first] demo_disk = Some st' /\
    work (B := checked_build) (S3 := S3Http_map) sample_env demo_queue
      (demo_process big (demo_second_run big)) st' = Some sys /\
    map snd (log ++ new) = demo_log /\
    reads_exactly (B := checked_build) (S3 := S3Http_map) sample_env demo_queue 0 (sy_fs sys) (log ++ new).
Proof.
  intros big.
  destruct (facade_end_to_end (B := checked_build) (S3 := S3Http_map) sample_env demo_queue
    [demo_process big demo_first] (demo_process big (demo_second_run big)) demo_disk)
    as (st' & sys & log & keeps & new & Hs & Hw & _ & _ & Ho & Hn & _ & Hr & _).
  - apply demo_unused.
  - constructor; [apply demo_good_first|]. constructor; [apply demo_good_second|constructor].
  - reflexivity.
  - exists st', sys, log, new. refine (conj Hs (conj Hw (conj _ Hr))).
    rewrite map_app, (Ho demo_orderly), Hn. reflexivity.
Defined.

(** When the second one dies, its first entry is in the log. *)
Lemma demo_lived n n' st log :
  lived (B := checked_build) (S3 := S3Http_map) sample_env demo_queue demo_disk
    [(demo_process n demo_first, Closes); (demo_process n' (demo_second_run n'), Dies)] st log ->
  In (U8 3) (map fst log).
Proof.
  intros Hl. pose proof (demo_acknowledged n n') as Hd.
  destruct (sessions _ _ _ _) as [st1|] eqn:Hs in Hd; [|done].
  destruct (work _ _ _ _) as [sys|] eqn:Hw in Hd; [|done].
  destruct (ms_queues (nf_mem (sy_fs sys)) !! qid_path demo_queue) as [mq|] eqn:Hmq in Hd; [|done].
  apply andb_true_iff in Hd as [Hd _]. apply andb_true_iff in Hd as [Hd _]. apply bool_decide_eq_true in Hd.
  apply (lived_acknowledged sample_env demo_queue demo_disk [(demo_process n demo_first, Closes)]
    (demo_process n' (demo_second_run n')) Dies st1 st sys log (U8 3) Hl Hs Hw).
  right. exists mq. exact (conj Hmq Hd).
Qed.

(** The second process dies: the entry "d" was acknowledged. *)
Lemma crash_keeps_acknowledged_witness :
  let big := Z.to_nat (2 ^ 28) in
  let ps := [(demo_process big demo_first, Closes); (demo_process big (demo_second_run big), Dies)] in
  exists st' log sys new,
    lives (B := checked_build) (S3 := S3Http_map) sample_env demo_queue ps demo_disk = Some st' /\
    In (U8 3) (map fst log) /\
    work (B := checked_build) (S3 := S3Http_map) sample_env demo_queue
      (demo_process big demo_first) st' = Some sys /\
    reads_exactly (B := checked_build) (S3 := S3Http_map) sample_env demo_queue 0 (sy_fs sys) (log ++ new).
Proof.
  intros big ps.
  destruct (crash_keeps_acknowledged (B := checked_build) (S3 := S3Http_map) sample_env demo_queue
    ps (demo_process big demo_first) demo_disk) as (st' & log & sys & new & Hs & Hl & Hw & _ & _ & Hr).
  - apply demo_unused.
  - constructor; [apply demo_good_first|]. constructor; [apply demo_good_second|].
    constructor; [apply demo_good_first|constructor].
  - reflexivity.
  - exists st', log, sys, new. split; [exact Hs|]. split; [|exact (conj Hw Hr)].
    exact (demo_lived big big st' log Hl).
Defined.

(** What the follow of the second process finds in memory, evaluated. *)
Lemma demo_in_memory n n' :
  match sessions (B := checked_build) (S3 := S3Http_map) sample_env demo_queue
          [demo_process n demo_first] demo_disk with
  | Some st =>
      match work (B := checked_build) (S3 := S3Http_map) sample_env demo_queue
              (demo_process n' [NumberOne [Byte.x64]]) st with
      | Some sys =>
          match ms_queues (nf_mem (sy_fs sys)) !! qid_path demo_queue with
          | Some mq => bool_decide (mi_first_id (mq_inner mq) = Some (U8 3)) &&
                       bool_decide (mi_last_id (mq_inner mq) = Some (U8 3))
          | None => false
          end
      | None => false
      end
  | None => false
  end = true.
Proof. vm_compute. reflexivity. Qed.

Lemma follow_keeps_up_witness :
  let big := Z.to_nat (2 ^ 28) in
  exists st' sys' mq id last_sent ch,
    sessions (B := checked_build) (S3 := S3Http_map) sample_env demo_queue
      [demo_process big demo_first] demo_disk = Some st' /\
    work (B := checked_build) (S3 := S3Http_map) sample_env demo_queue
      (demo_process big (demo_second_run big)) st' = Some sys' /\
    ms_queues (nf_mem (sy_fs sys')) !! qid_path demo_queue = Some mq /\
    In (id, SubFollow last_sent (U8 3) 1 ch) (mq_subscribers mq) /\
    map snd (payload ch) = [[Byte.x64]; [Byte.x65]].
Proof.
  intros big.
  destruct (follow_keeps_up (B := checked_build) (S3 := S3Http_map) sample_env demo_queue
    [(demo_process big demo_first, Closes)] (demo_process big (demo_second_run big)) [NumberOne [Byte.x64]]
    (4 + big) (40 + big) (U8 3) 1 (demo_later big) demo_disk)
    as (st' & sys & sys' & log & new & Hs & Hlived & Hw & Hw' & Hn & Hc & Hk).
  - apply demo_unused.
  - constructor; [apply demo_good_first|]. constructor; [apply demo_good_second|constructor].
  - reflexivity.
  - reflexivity.
  - unfold demo_later. repeat apply Forall_cons_2; try (by intros i). apply Forall_nil_2.
  - change [(demo_process big demo_first, Closes)] with (closing [demo_process big demo_first]) in Hs.
    rewrite sessions_lives in Hs.
    destruct Hk as (mq & id & last_sent & ch & Hmq & Hin & Hp).
    + pose proof (demo_in_memory big big) as Hd. rewrite Hs in Hd.
      change (demo_process big [NumberOne [Byte.x64]]) with
        (with_events (demo_process big (demo_second_run big)) [NumberOne [Byte.x64]]) in Hd. rewrite Hw in Hd.
      destruct (ms_queues (nf_mem (sy_fs sys)) !! qid_path demo_queue) as [mq|] eqn:Hmq; [|done].
      apply andb_true_iff in Hd as [Hd1%bool_decide_eq_true Hd2%bool_decide_eq_true].
      exists mq. unfold first_in_memory. rewrite Hd1, Hd2. split; [done|]. by split.
    + exists st', sys', mq, id, last_sent, ch.
      refine (conj Hs (conj Hw' (conj Hmq (conj Hin _)))). rewrite Hp. clear - Hc Hn Hlived.
      assert (map snd (log ++ new) = demo_log) as Hl.
      { destruct (lived_kept _ _ _ _ _ _ Hlived) as (keeps & Hk & Hlog).
        rewrite (orderly_kept [demo_process big demo_first] keeps demo_orderly Hk) in Hlog.
        rewrite map_app, Hlog, Hn. reflexivity. }
      clear Hn Hlived. revert Hc Hl. generalize (log ++ new). clear. intros log Hc Hl.
      destruct log as [|[i0 d0] [|[i1 d1] [|[i2 d2] [|[i3 d3] [|[i4 d4] [|]]]]]]; try discriminate Hl.
      injection Hl as -> -> -> -> ->. destruct Hc as (H0 & H1 & H2 & H3 & H4 & _). cbn [fst] in *.
      unfold at_point. cbn [List.filter fst]. rewrite H0, H1, H2, H3, H4. reflexivity.
Defined.

(** ** A process killed in the middle of a write *)

(** A file that takes several entries. *)
Definition torn_settings : normfs_settings :=
  {| ns_max_memory_usage := 1000;
     ns_wal_settings := {| ws_max_file_size := 400; ws_write_buffer_size := 100;
       ws_enable_fsync := true; ws_encryption_type := EncAes; ws_compression_type := CompZstd |};
     ns_max_disk_usage_per_queue := None; ns_queue_settings := ns_queue_settings demo_settings |}.
Definition torn_process (evs : list fs_event) : process :=
  {| pr_settings := torn_settings; pr_instance := s2l "i"; pr_stuck := fun _ => false;
     pr_machine := pr_machine (demo_process 0 []); pr_events := evs |}.

(** The first dies when all of its block but the last byte is in the file, the
    second writes one entry and acknowledges it. *)
Definition torn_first : list fs_event :=
  [NumberBatch [[Byte.x61]; [Byte.x62]]; SendCall 0; WriterTurn; FlushTurn EvTake;
   FlushTurn (EvAttempt (WriteFails 57))].
Definition torn_second : list fs_event :=
  [NumberOne [Byte.x63]; SendCall 0; WriterTurn; FlushTurn EvTake; FlushTurn (EvAttempt Succeeds);
   AckTurn].
Definition torn_system : option system :=
  match work (B := checked_build) (S3 := S3Http_map) sample_env demo_queue
          (torn_process torn_first) demo_disk with
  | Some first => work (B := checked_build) (S3 := S3Http_map) sample_env demo_queue
                    (torn_process torn_second) (nf_store (sy_fs first))
  | None => None
  end.

(** What a read of [limit] entries from id 0 then sends and answers. *)
Definition torn_read (limit : Z) : option (list (uintn * bytes) * outcome nf_error bool) :=
  match torn_system with
  | Some sys =>
      match read (B := checked_build) (S3 := S3Http_map) sample_env 40 400 (sy_fs sys) demo_queue
              (Absolute (U8 0)) limit 1 new_channel with
      | Some (_, ch, r) => Some (payload ch, r)
      | None => None
      end
  | None => None
  end.

(** The second process gives its entry the id of the torn record, since nobody
    heard of that one.  But the reader takes the torn record, which it does not
    send, for the end of the range: a read of the two entries answers as if it had
    sent them and leaves out the acknowledged one, which a read of three sends. *)
Theorem torn_record_hides_entry :
  option_map (fun sys => option_map (fun mq => mi_last_acked_id (mq_inner mq))
    (ms_queues (nf_mem (sy_fs sys)) !! qid_path demo_queue)) torn_system = Some (Some (Some (U8 1))) /\
  torn_read 2 = Some ([(U8 0, [Byte.x61])], Ok false) /\
  torn_read 3 = Some ([(U8 0, [Byte.x61]); (U8 1, [Byte.x63])], Ok false).
Proof. split_and!; vm_compute; reflexivity. Qed.
