(* ===== verification/Restarts.v ===== *)
(** * The program, started again and again on a data directory

    [main] of the server, one process after the other: each opens the seed that
    the first one made, has the same instance and queue, and reads what all of
    them handed over. *)
From Stdlib Require Import ZArith Lia List Bool Sorted Permutation.
From Stdlib Require Import Ascii String.
From Stdlib Require Strings.Byte.
From stdpp Require Import base option list gmap strings.
From S2P Require Import Prelude UBig UintN UintNFacts Paths PathsFacts PathsSearch FileTree Types.
From S2P Require Import WalFormat WalReader WalReaderFacts WalReaderTotal OrderedBuffer AckWriter.
From S2P Require Import WalWriter WalWriterFacts Crypto Seed StoreFormat Store StoreFacts WalStore.
From S2P Require Import Cloud Lookup LookupFacts QueueLayout WalLayout Mem MemFacts ReaderFsm.
From S2P Require Import ReaderFsmFacts DiskMonitor NormFs NormFsFacts Startup LiveLayout StoreLive.
From S2P Require Import Facade FacadeFacts FacadeReads FacadeRun FacadeStart ReaderTail FacadeFollow.
From S2P Require Import FacadeWork FacadeClaims.
#[local] Open Scope Z_scope.

Section Restarts.
Context {B : Build} {U : UBig} {H : HexCrate} {X : Hasher} {S0 : UnstableSort}.
Context {C : CryptoLib} {Z' : CompressLib} {S3 : S3Http} {G : GlobCrate} {K : ClientCrates}.

(** ** Processes of the program *)

(** A run of the program: its command line, what the system answers, and what
    its callers and tasks do on the queue [name]. *)
Record run := {
  rn_args : args;
  rn_host : host;
  rn_machine : machine;
  rn_events : list fs_event;
}.

(** It starts, resolves the name, starts that queue for writing, and works. *)
Definition served (name : str) (r : run) (disk : store_state)
    : option (store_env * queue_id * system) :=
  match server_main (rn_host r) (rn_args r) disk with
  | (_, Ok (env, resolver, self)) =>
      let q := queue_id_resolve resolver name in
      match start_queue env (rn_machine r) self q false with
      | Some (fs, Ok _) =>
          sys ← fs_run env q {| sy_fs := fs; sy_calls := [] |} (rn_events r);
          Some (env, q, sys)
      | _ => None
      end
  | _ => None
  end.

(** On Ctrl+C it closes the node. *)
Definition shut_down (name : str) (r : run) (disk : store_state) : option store_state :=
  '(_, _, sys) ← served name r disk;
  match close (sy_fs sys) with (fs, Ok _) => Some (nf_store fs) | _ => None end.

(** Or it dies, at some moment of its work. *)
Definition run_ends (name : str) (r : run) (e : ending) (disk : store_state) : option store_state :=
  match e with
  | Closes => shut_down name r disk
  | Dies => '(_, _, sys) ← served name r disk; Some (nf_store (sy_fs sys))
  end.

Fixpoint restarts (name : str) (rs : list (run * ending)) (disk : store_state) : option store_state :=
  match rs with
  | [] => Some disk
  | (r, e) :: rs => disk ← run_ends name r e disk; restarts name rs disk
  end.

(** ** The identity of a seed *)

Definition env_of (root : str) (b : bytes) : store_env :=
  data_env root false (fun _ => false) (crypto_open b).

Definition queue_of (name : str) (b : bytes) : queue_id :=
  queue_id_resolve {| instance_id := instance_id_hex (crypto_open b) |} name.

(** What a run is for the queue. *)
Definition node_settings (a : args) : normfs_settings :=
  {| ns_max_memory_usage := ns_max_memory_usage normfs_settings_default;
     ns_wal_settings := wal_settings_default;
     ns_max_disk_usage_per_queue := Some (ar_max_queue_disk_size a);
     ns_queue_settings := ns_queue_settings normfs_settings_default |}.

Definition process_of (b : bytes) (r : run) : process :=
  {| pr_settings := node_settings (rn_args r); pr_instance := instance_id_hex (crypto_open b);
     pr_stuck := ho_stuck (rn_host r); pr_machine := rn_machine r; pr_events := rn_events r |}.

(** A data directory that is not in the way of [/instance]. *)
Definition apart (root : str) (b : bytes) : Prop :=
  let i := slash :: instance_id_hex (crypto_open b) in
  ~ (exists r, i = root ++ r) /\ ~ (exists r, root = i ++ r).

(** A run without a cloud, with room for three WAL files, on a system without
    faults. *)
Record calm_run (root : str) (r : run) : Prop := {
  cr_root : ar_data_dir (rn_args r) = root;
  cr_cloud : ar_s3_bucket (rn_args r) = None;
  cr_size : ws_max_file_size wal_settings_default * 3 <= ar_max_queue_disk_size (rn_args r);
  cr_limits : ho_limits (rn_host r) = true;
  cr_data_dir : ho_data_dir (rn_host r) = true;
  cr_address : exists addr, server_address (rn_host r) (rn_args r) = Ok addr /\ ho_bind (rn_host r) addr = true;
  cr_seed : calm_io (ho_seed (rn_host r));
  cr_io : ho_io (rn_host r) = fun _ => false;
  cr_machine : calm (rn_machine r);
  cr_events : Forall (healthy 0) (rn_events r);
  cr_sizes : Forall (fun d => zlen d <= 2 ^ 62) (payloads (rn_events r));
}.

(** Without faults, a run is a process of the facade on what the opening of the
    seed leaves. *)
Lemma served_process root name r disk files b : calm_run root r ->
  seed_open (ho_seed (rn_host r)) (st_files disk) root = (files, Ok b) ->
  served name r disk =
    (sys ← work (env_of root b) (queue_of name b) (process_of b r) (with_files disk files);
     Some (env_of root b, queue_of name b, sys)).
Proof.
  intros [] Hs. destruct cr_address0 as (addr & Ha & Hb).
  unfold served, server_main, server_settings, normfs_create, crypto_context_open.
  rewrite cr_limits0, cr_data_dir0, cr_cloud0, cr_root0, cr_io0, Hs, Ha. cbn. rewrite Hb. cbn.
  unfold work, boot, process_of, node_settings, env_of, queue_of. cbn.
  by destruct (start_queue _ _ _ _ _) as [[fs [?| |]]|].
Qed.

Lemma ends_process root name r e disk files b : calm_run root r ->
  seed_open (ho_seed (rn_host r)) (st_files disk) root = (files, Ok b) ->
  run_ends name r e disk = life (env_of root b) (queue_of name b) (process_of b r) e (with_files disk files).
Proof.
  intros Hc Hs. destruct e; cbn [run_ends life]; unfold shut_down, session;
    rewrite (served_process root name r disk files b Hc Hs); by destruct (work _ _ _ _) as [sys|].
Qed.

(** ** The seed file is outside the queue *)

Lemma hex_id_first b : exists h rest, instance_id_hex (crypto_open b) = h :: rest /\ is_hex h.
Proof.
  unfold instance_id_hex, crypto_open. cbn [cc_instance_id].
  set (d := sha256 _). pose proof (sha256_length (verifying_key_bytes (key_generate (rng_from_seed b)))) as Hl.
  fold d in Hl. destruct d as [|x d]; [done|]. cbn [map concat hex_byte app].
  eexists _, _. split; [reflexivity|]. apply hex_digit_hex. pose proof (byte_val_range x). 
  split; [apply Z.div_pos; lia|apply Z.div_lt_upper_bound; lia].
Qed.

Lemma push_base p x : path_absolute x = false -> path_push p x = base_prefix p ++ x.
Proof.
  intros Hx. unfold path_push, base_prefix. rewrite Hx. destruct (_ || _); [done|]. by rewrite <- app_assoc.
Qed.

Lemma base_prefix_more p : exists s, base_prefix p = p ++ s.
Proof. unfold base_prefix. destruct (_ || _); [exists []; by rewrite app_nil_r|by exists [slash]]. Qed.

(** A directory of the queue is below the root, in the instance. *)
Lemma queue_dir_shape root b name kind : path_absolute kind = false -> path_absolute name = false ->
  exists h rest, is_hex h /\
    base_prefix (path_push (queue_to_fs_path (queue_of name b) root) kind) = base_prefix root ++ h :: rest.
Proof.
  intros Hk Hn. destruct (hex_id_first b) as (h & i & Hi & Hh). destruct (is_hex_no_slash _ Hh) as [Hs _].
  unfold queue_to_fs_path, queue_of, queue_id_resolve. rewrite Hn. cbn [qid_path instance_id]. rewrite Hi.
  cbn [trim_slashes]. rewrite decide_True by done. cbn [app trim_slashes]. rewrite decide_False by done.
  rewrite !push_base by (done || by cbn; rewrite bool_decide_false).
  destruct (base_prefix_more (base_prefix root ++ h :: i ++ slash :: name)) as [s1 ->].
  destruct (base_prefix_more ((((base_prefix root ++ h :: i ++ slash :: name) ++ s1) ++ kind))) as [s2 ->].
  eexists h, _. split; [done|]. rewrite <- !app_assoc. cbn [app]. reflexivity.
Qed.

Lemma seed_path_shape root : seed_path root = base_prefix root ++ seed_file_name.
Proof. unfold seed_path. by apply push_base. Qed.

Lemma seed_outside root b name : path_absolute name = false ->
  outside (env_of root b) (queue_of name b) (seed_path root).
Proof.
  intros Hn. rewrite seed_path_shape.
  assert (forall kind, path_absolute kind = false ->
    strip_prefix_l (base_prefix (path_push (queue_to_fs_path (queue_of name b) root) kind))
      (base_prefix root ++ seed_file_name) = None) as Hd.
  { intros kind Hk. destruct (queue_dir_shape root b name kind Hk Hn) as (h & rest & Hh & ->).
    rewrite strip_common. destruct (is_hex_no_slash _ Hh) as [_ Hdot]. cbn. by rewrite decide_False. }
  by split; apply Hd.
Qed.

(** Two prefixes of a path: one is a prefix of the other. *)
Lemma prefixes_meet (p x y z : str) : p ++ x = y ++ z ->
  (exists r, y = p ++ r) \/ (exists r, p = y ++ r).
Proof.
  intros E. apply app_eq_inv in E as [(k & -> & _)|(k & -> & _)]; [right|left]; by eexists.
Qed.

Lemma queue_overlooked root b name : path_absolute name = false -> apart root b ->
  overlooked (env_of root b) (queue_of name b) {[seed_path root := b]}.
Proof.
  intros Hn [Ha1 Ha2]. exists (instance_id_hex (crypto_open b) ++ slash :: name).
  split; [unfold queue_of, queue_id_resolve; by rewrite Hn|].
  intros p rest Hp%strip_prefix_l_Some.
  destruct (base_prefix_more (slash :: instance_id_hex (crypto_open b) ++ slash :: name)) as [s Es].
  rewrite Es in Hp.
  assert (forall r, p <> base_prefix root ++ r) as Hout.
  { intros r Hr. destruct (base_prefix_more root) as [s' Es']. rewrite Es', <- app_assoc in Hr.
    change (slash :: instance_id_hex (crypto_open b) ++ slash :: name)
      with ((slash :: instance_id_hex (crypto_open b)) ++ slash :: name) in Hp.
    rewrite Hr, <- !app_assoc in Hp. by apply prefixes_meet in Hp as [?|?]. }
  split.
  - assert (forall kind, path_absolute kind = false ->
      strip_prefix_l (base_prefix (path_push (queue_to_fs_path (queue_of name b) root) kind)) p = None) as Hd.
    { intros kind Hk. destruct (queue_dir_shape root b name kind Hk Hn) as (h & r & Hh & ->).
      destruct (strip_prefix_l _ _) eqn:E; [|done]. apply strip_prefix_l_Some in E.
      rewrite <- app_assoc in E. by apply Hout in E. }
    by split; apply Hd.
  - apply lookup_singleton_ne. rewrite seed_path_shape. intros E. by apply (Hout seed_file_name).
Qed.

(** ** Runs on the files at rest *)

Section Seeded.
Context (root name : str) (b : bytes).
Context (Hname : path_absolute name = false) (Hapart : apart root b) (Hb : zlen b = seed_size).

#[local] Abbreviation env := (env_of root b).
#[local] Abbreviation q := (queue_of name b).
#[local] Abbreviation frame := ({[seed_path root := b]} : gmap str bytes).

Lemma calm_run_good r : calm_run root r -> good_process env q 0 frame (process_of b r).
Proof.
  intros []. split; [|done..]. split; [split; [by apply queue_overlooked|]|].
  - change (ns_wal_settings (node_settings (rn_args r))) with wal_settings_default. by split.
  - done.
Qed.

(** Every run opens the seed that is there. *)
Lemma rest_opens r fs st : calm_run root r -> at_rest env q 1 0 frame fs st ->
  seed_open (ho_seed (rn_host r)) (st_files st) root = (st_files st, Ok b).
Proof.
  intros Hc Hrest. apply seed_loaded; [apply Hc|done|].
  rewrite (od_outside _ _ _ _ _ _ _ _ (ar_disk _ _ _ _ _ _ _ Hrest) _ (seed_outside root b name Hname)).
  apply lookup_singleton_eq.
Qed.

Lemma with_same_files st : with_files st (st_files st) = st.
Proof. by destruct st. Qed.

(** The runs as processes of the facade. *)
Definition processes_of (rs : list (run * ending)) : list (process * ending) :=
  map (fun re => (process_of b (fst re), snd re)) rs.

Lemma restarts_lives disk rs before fs st : lived env q disk before st (all_entries fs) ->
  at_rest env q 1 0 frame fs st -> Forall (fun re => calm_run root (fst re)) rs ->
  1 + zlen fs + zlen (handed_over (map fst (processes_of rs))) + zlen rs < 2 ^ 24 ->
  zlen (all_entries fs) + zlen (handed_over (map fst (processes_of rs))) < 2 ^ 24 ->
  exists st' fs', restarts name rs st = Some st' /\
    lived env q disk (before ++ processes_of rs) st' (all_entries fs') /\ at_rest env q 1 0 frame fs' st' /\
    zlen fs' <= zlen fs + zlen (handed_over (map fst (processes_of rs))) + zlen rs /\
    zlen (all_entries fs') <= zlen (all_entries fs) + zlen (handed_over (map fst (processes_of rs))).
Proof.
  revert before fs st. induction rs as [|[r e] rs IH]; intros before fs st Hlived Hrest Hc Hroom Hids.
  { exists st, fs. cbn [processes_of map]. rewrite app_nil_r. split_and!; try done; cbn; unfold zlen; cbn [length]; lia. }
  apply Forall_cons in Hc as [Hr Hc]. cbn [fst] in Hr.
  change (processes_of ((r, e) :: rs)) with ((process_of b r, e) :: processes_of rs) in *.
  unfold handed_over in *. cbn [map concat fst snd process_of pr_events] in *.
  rewrite zlen_app, ?zlen_cons in *.
  pose proof (zlen_nonneg rs). pose proof (zlen_nonneg (concat (map (fun p => payloads (pr_events p)) (map fst (processes_of rs))))).
  destruct (life_rest env q frame disk before (process_of b r) e fs st Hlived Hrest (calm_run_good r Hr))
    as (st1 & fs1 & Hs & Hl1 & Hrest1 & Hz1 & Ha1); [cbn [process_of pr_events]; lia..|].
  cbn [process_of pr_events] in Hz1, Ha1.
  destruct (IH _ fs1 st1 Hl1 Hrest1 Hc) as (st' & fs' & Hs2 & Hl2 & Hrest2 & Hz2 & Ha2); [lia..|].
  exists st', fs'. cbn [restarts].
  rewrite (ends_process root name r e st (st_files st) b Hr (rest_opens r fs st Hr Hrest)), with_same_files, Hs.
  rewrite <- app_assoc in Hl2. split_and!; try done; lia.
Qed.

(** The first run makes the seed; it could as well have found it. *)
Lemma first_run r disk : calm_run root r -> si_random (ho_seed (rn_host r)) = Some b ->
  st_files disk = ∅ -> st_ranges disk = ∅ ->
  let seeded := with_files disk frame in
  at_rest env q 1 0 frame [] seeded /\
  served name r disk = served name r seeded /\ forall e, run_ends name r e disk = run_ends name r e seeded.
Proof.
  intros Hc Hr Hf Hrg seeded.
  assert (at_rest env q 1 0 frame [] seeded) as Hrest.
  { apply (unused_rest env q seeded). destruct (seed_outside root b name Hname) as [Hw Hs].
    split; try done; intros p x Hp; apply lookup_singleton_ne; intros <-.
    - by rewrite Hw in Hp.
    - by rewrite Hs in Hp. }
  split; [done|].
  assert (seed_open (ho_seed (rn_host r)) (st_files disk) root = (frame, Ok b)) as Hopen
    by (rewrite (seed_made _ _ _ b (cr_seed _ _ Hc) Hr), Hf; [done|by rewrite Hf]).
  pose proof (rest_opens r [] seeded Hc Hrest) as Hagain.
  split; [by rewrite !(served_process root name r _ _ b Hc Hopen), !(served_process root name r _ _ b Hc Hagain)|].
  intros e. by rewrite !(ends_process root name r e _ _ b Hc Hopen), !(ends_process root name r e _ _ b Hc Hagain).
Qed.

(** A run on the files at rest. *)
Lemma served_rest r fs st : calm_run root r -> at_rest env q 1 0 frame fs st ->
  1 + zlen fs + zlen (payloads (rn_events r)) < 2 ^ 24 ->
  zlen (all_entries fs) + zlen (payloads (rn_events r)) < 2 ^ 24 ->
  exists sys new, served name r st = Some (env, q, sys) /\ map snd new = payloads (rn_events r) /\
    consecutive 0 (all_entries fs ++ new) /\ reads_exactly env q 0 (sy_fs sys) (all_entries fs ++ new) /\
    st_files (nf_store (sy_fs sys)) !! seed_path root = Some b.
Proof.
  intros Hc Hrest Hroom Hids.
  destruct (next_process env q False frame (process_of b r) fs st _ Hrest (calm_run_good r Hc) eq_refl Hroom Hids)
    as (old & sys & new & Hw & Hl & Hn & Hcons & Ho & _); [done|].
  exists sys, new. rewrite (served_process root name r _ _ b Hc (rest_opens r fs st Hc Hrest)), with_same_files, Hw.
  split; [done|]. split; [done|]. split; [done|]. split; [rewrite <- Ho; by eapply live_read|].
  rewrite (live_outside _ _ _ _ _ _ _ _ _ _ Hl (seed_outside root b name Hname)). apply lookup_singleton_eq.
Qed.

End Seeded.

(** C3: the server program, started again and again on a data directory that was
    empty, keeps its identity and its data, when each of its processes, once its
    seed is open, closes or dies between two steps of its tasks (each step whole):
    the first one draws a seed and every later one finds it, so all have the same
    instance id, the same keys and the same queue behind a name; what is on disk is
    a log to which every process added the first of its entries, with all that it
    had acknowledged, and all of them when it closed and its callers were orderly;
    the next process, after any run, reads (uninterrupted) exactly that log and its
    own entries, and the seed is still there.  A process that dies while it writes
    the seed, or in the middle of a block, is not covered. *)
Theorem restarts_keep_identity root name b rs r disk :
  path_absolute name = false -> apart root b -> zlen b = seed_size ->
  st_files disk = ∅ -> st_ranges disk = ∅ ->
  option_map (fun r => si_random (ho_seed (rn_host r))) (head (map fst rs ++ [r])) = Some (Some b) ->
  Forall (calm_run root) (map fst rs ++ [r]) ->
  zlen (handed_over (map fst (processes_of b rs))) + zlen (payloads (rn_events r)) + zlen rs + 1 < 2 ^ 24 ->
  let env := env_of root b in let q := queue_of name b in
  let seeded := with_files disk {[seed_path root := b]} in
  exists disk' log sys new, restarts name rs disk = Some disk' /\ served name r disk' = Some (env, q, sys) /\
    (rs <> [] -> lived env q seeded (processes_of b rs) disk' log) /\ (rs = [] -> log = []) /\
    map snd new = payloads (rn_events r) /\ consecutive 0 (log ++ new) /\
    reads_exactly env q 0 (sy_fs sys) (log ++ new) /\
    st_files (nf_store (sy_fs sys)) !! seed_path root = Some b.
Proof.
  intros Hn Ha Hb Hf Hrg Hfirst Hc Hroom env q seeded.
  apply Forall_app in Hc as [Hcs Hc]. apply Forall_cons in Hc as [Hc _]. apply (proj1 (List.Forall_map _ _ _)) in Hcs.
  pose proof (zlen_nonneg rs). pose proof (zlen_nonneg (payloads (rn_events r))).
  assert (at_rest env q 1 0 {[seed_path root := b]} [] seeded /\
    (rs = [] -> served name r disk = served name r seeded) /\
    (rs <> [] -> restarts name rs disk = restarts name rs seeded)) as (Hrest & Hserve & Hrun).
  { destruct rs as [|[r0 e0] rs]; cbn in Hfirst; injection Hfirst as Hfirst.
    - by destruct (first_run root name b Hn Hb r disk Hc Hfirst Hf Hrg) as (? & ? & _).
    - apply Forall_cons in Hcs as [Hc0 _].
      destruct (first_run root name b Hn Hb r0 disk Hc0 Hfirst Hf Hrg) as (? & _ & Hst).
      split; [done|]. split; [done|]. intros _. cbn [restarts]. by rewrite Hst. }
  destruct (restarts_lives root name b Hn Ha Hb seeded rs [] [] seeded (lived_none _ _ _) Hrest Hcs)
    as (st' & fs & Hs & Hlived & Hrest' & Hz & Hza); rewrite ?zlen_nil in *;
    [lia|change (zlen (all_entries [])) with 0; lia|].
  change (zlen (all_entries [])) with 0 in Hza.
  destruct (served_rest root name b Hn Ha Hb r fs st' Hc Hrest') as (sys & new & Hw & Hnew & Hcons & Hread & Hseed); [lia..|].
  exists (if decide (rs = []) then disk else st'), (all_entries fs), sys, new.
  split; [case_decide as E; [by rewrite E|by rewrite Hrun]|].
  split; [case_decide as E; [rewrite Hserve by done; subst rs; cbn in Hs; by injection Hs as <-|done]|].
  split; [by intros E; rewrite decide_False|]. split; [|done].
  intros ->. apply zlen_0. change (zlen (handed_over (map fst (processes_of b [])))) with 0 in Hza.
  pose proof (zlen_nonneg (all_entries fs)). lia.
Qed.

Lemma no_endpoint_create root verify io seed settings cs st stuck r : cs_endpoint cs = [] ->
  normfs_create root verify io seed settings (Some cs) st stuck = r ->
  match snd r with Err _ => False | _ => True end -> False.
Proof.
  intros He <-. unfold normfs_create, crypto_context_open, create_client. rewrite He, url_parse_empty.
  pose proof (seed_open_returns seed (st_files st) root) as Hs.
  by destruct (seed_open _ _ _) as [files [x| |]].
Qed.

(** A server that is given a bucket and no endpoint does not start, although
    the endpoint is an option: the empty one is no URL.  The error comes after the
    data directory got its seed. *)
Theorem bucket_needs_endpoint ho a bucket st :
  ar_s3_bucket a = Some bucket -> ar_s3_endpoint a = None ->
  exists st' e, server_main ho a st = (st', Err e).
Proof.
  intros Hb He. unfold server_main, server_settings. rewrite Hb, He.
  repeat (case_match; simplify_eq; try (eexists _, _; reflexivity));
    match goal with E : normfs_create _ _ _ _ _ _ _ _ = _ |- _ => by apply no_endpoint_create in E end.
Qed.

End Restarts.

(** ** Two runs with the options that are built in *)

#[export] Instance ClientCrates_memory : ClientCrates (S3 := S3Http_map) :=
  {| url := str; url_parse := fun s => match s with [] => None | _ => Some s end;
     url_parse_empty := eq_refl; bucket_new := fun _ _ _ => Some ∅; http_client_builds := true |}.

Definition demo_host : host :=
  {| ho_limits := true; ho_data_dir := true; ho_bind := fun _ => true; ho_parses := fun _ => true;
     ho_seed := demo_seed_io None; ho_io := fun _ => false; ho_stuck := fun _ => false |}.

Definition demo_run (n : nat) (evs : list fs_event) : run :=
  {| rn_args := args_default; rn_host := demo_host; rn_machine := pr_machine (demo_process n []);
     rn_events := evs |}.

Lemma demo_run_calm n evs : good_process sample_env demo_queue 0 ∅ (demo_process n evs) ->
  calm_run (s2l "./normfs_data") (demo_run n evs).
Proof.
  intros [_ Hm He Hs]. split; try done.
  - by exists (s2l "0.0.0.0:8888").
  - split; try done; eexists; split; [reflexivity|done|reflexivity|].
    unfold seed_size. lia.
Qed.

Lemma demo_apart : apart (s2l "./normfs_data") (demo_seed Byte.x07).
Proof. split; intros [r Hr]; discriminate. Qed.

(** The first closes, the second dies; then comes one more. *)
Lemma restarts_keep_identity_witness :
  let big := Z.to_nat (2 ^ 28) in
  let root := s2l "./normfs_data" in
  let b := demo_seed Byte.x07 in
  let rs := [(demo_run big demo_first, Closes); (demo_run big (demo_second_run big), Dies)] in
  exists disk' log sys new,
    restarts (B := checked_build) (S3 := S3Http_map) (s2l "q") rs demo_disk = Some disk' /\
    served (B := checked_build) (S3 := S3Http_map) (s2l "q") (demo_run big demo_first) disk' =
      Some (env_of root b, queue_of (s2l "q") b, sys) /\
    reads_exactly (B := checked_build) (S3 := S3Http_map) (env_of root b) (queue_of (s2l "q") b) 0 (sy_fs sys)
      (log ++ new).
Proof.
  intros big root b rs.
  destruct (restarts_keep_identity (B := checked_build) (S3 := S3Http_map) root (s2l "q") b
    rs (demo_run big demo_first) demo_disk)
    as (disk' & log & sys & new & Hs & Hw & _ & _ & _ & _ & Hr & _).
  - reflexivity.
  - apply demo_apart.
  - reflexivity.
  - reflexivity.
  - reflexivity.
  - reflexivity.
  - constructor; [apply demo_run_calm, demo_good_first|].
    constructor; [apply demo_run_calm, demo_good_second|].
    constructor; [apply demo_run_calm, demo_good_first|constructor].
  - reflexivity.
  - exists disk', log, sys, new. exact (conj Hs (conj Hw Hr)).
Defined.

Definition demo_bucket_args : args :=
  {| ar_addr := s2l "8888"; ar_data_dir := s2l "d"; ar_max_queue_disk_size := 2 ^ 30;
     ar_s3_bucket := Some (s2l "b"); ar_s3_region := Some (s2l "r"); ar_s3_endpoint := None;
     ar_s3_access_key := Some (s2l "a"); ar_s3_secret_key := Some (s2l "s");
     ar_s3_session_token := None |}.

Lemma bucket_needs_endpoint_witness :
  exists st' e, server_main (S3 := S3Http_map) demo_host demo_bucket_args demo_disk = (st', Err e).
Proof. by apply (bucket_needs_endpoint (S3 := S3Http_map) _ _ (s2l "b")). Defined.
