(* ===== verification/Protocol.v ===== *)
(** * The protocol of the server ([normfs.proto], [normfs/src/server/client_handler.rs])

    The messages, as the generated structs have them (an enumeration is a
    number), and their frames on a TCP connection: the length in eight bytes,
    then the message.  The protobuf encoding is an interface. *)
From Stdlib Require Import ZArith Lia List Bool.
From Stdlib Require Import Ascii String.
From Stdlib Require Strings.Byte.
From stdpp Require Import base option list strings.
From S2P Require Import Prelude Types WalFormat.
#[local] Open Scope Z_scope.

(** ** Messages *)

Record proto_id := { id_raw : bytes }.

Inductive offset_type := OtAbsolute | OtShiftFromTail.
Definition offset_type_try_from (value : Z) : option offset_type :=
  if value =? 0 then Some OtAbsolute else if value =? 1 then Some OtShiftFromTail else None.

Record offset := { of_id : option proto_id; of_type : Z }.

Record setup_request := { sq_version : Z }.
Record setup_response := {
  sr_version : Z;
  sr_instance_id_bytes : bytes;
  sr_instance_id : str;
}.

Record ping_request := { pq_sequence : Z; pq_client_timestamp_ns : Z }.
Record ping_response := {
  pp_local_stamp_ns : Z;
  pp_monotonic_stamp_ns : Z;
  pp_request : option ping_request;
}.

Record write_request_msg := {
  wq_write_id : Z;
  wq_queue_id : str;
  wq_packets : list bytes;
}.

Inductive write_result := WrDone | WrServerError.
Definition write_result_code (r : write_result) : Z :=
  match r with WrDone => 0 | WrServerError => 1 end.

Record write_response := {
  wr_write_id : Z;
  wr_result : Z;
  wr_ids : list proto_id;
}.

Record read_request := {
  rq_read_id : Z;
  rq_queue_id : str;
  rq_step : Z;
  rq_offset : option offset;
  rq_limit : Z;
}.

Inductive read_result := RrStart | RrEntry | RrEnd | RrQueueNotFound | RrNotFound | RrServerError.
Definition read_result_code (r : read_result) : Z :=
  match r with
  | RrStart => 0 | RrEntry => 1 | RrEnd => 2 | RrQueueNotFound => 3 | RrNotFound => 4
  | RrServerError => 5
  end.

(** [data_source_to_proto] *)
Definition data_source_to_proto (source : data_source) : Z :=
  match source with DSNone => 0 | DSCloud => 1 | DSDiskStore => 2 | DSDiskWal => 3 | DSMemory => 4 end.

Record read_response := {
  rr_read_id : Z;
  rr_result : Z;
  rr_id : option proto_id;
  rr_data : bytes;
  rr_data_source : Z;
}.

Record client_request := {
  cr_setup : option setup_request;
  cr_ping : option ping_request;
  cr_write : option write_request_msg;
  cr_read : option read_request;
}.

Record server_response := {
  sv_setup : option setup_response;
  sv_ping : option ping_response;
  sv_write : option write_response;
  sv_read : option read_response;
}.

Definition client_request_default : client_request :=
  {| cr_setup := None; cr_ping := None; cr_write := None; cr_read := None |}.

(** The encoding that [prost] generates. *)
Class ProtoCodec := {
  decode_request : bytes -> option client_request;
  encode_response : server_response -> bytes;
}.

(** ** Frames *)

Definition max_message_size : Z := 5 * 1024 * 1024 * 1024.

Section Frames.
Context {P : ProtoCodec}.

(** [read_loop]: the requests it hands over, from the bytes a connection gives
    until it ends, times out or is no longer wanted.  Every turn takes at least
    eight bytes. *)
Fixpoint read_loop_from (fuel : nat) (input : bytes) : list client_request :=
  match fuel with
  | O => []
  | S fuel =>
      match read_exact 8 input with
      | None => []
      | Some (size_bytes, input) =>
          let size := le_val size_bytes in
          if decide (max_message_size < size) then []
          else if size =? 0 then read_loop_from fuel input
          else match read_exact size input with
          | None => []
          | Some (payload, input) =>
              match decode_request payload with
              | Some request => request :: read_loop_from fuel input
              | None => []
              end
          end
      end
  end.

Definition read_loop (input : bytes) : list client_request :=
  read_loop_from (S (length input)) input.

(** A frame: [write_loop] writes one per response, and a client one per
    request. *)
Definition frame (payload : bytes) : bytes := le_bytes 8 (zlen payload) ++ payload.

Definition write_loop (responses : list server_response) : bytes :=
  concat (map (fun response => frame (encode_response response)) responses).

(** ** What the frames carry *)

(** The requests of some payloads, up to the first that is not a message. *)
Fixpoint decoded (payloads : list bytes) : list client_request :=
  match payloads with
  | [] => []
  | payload :: payloads =>
      if decide (payload = []) then decoded payloads
      else match decode_request payload with
      | Some request => request :: decoded payloads
      | None => []
      end
  end.

Lemma read_exact_short n a : zlen a < n -> read_exact n a = None.
Proof. intros Hn. unfold read_exact. by rewrite decide_False by lia. Qed.

(** A turn of the loop on a frame. *)
Lemma read_frame fuel payload rest : zlen payload <= max_message_size ->
  read_loop_from (S fuel) (frame payload ++ rest) =
    if decide (payload = []) then read_loop_from fuel rest
    else match decode_request payload with
    | Some request => request :: read_loop_from fuel rest
    | None => []
    end.
Proof.
  intros Hmax. pose proof (zlen_nonneg payload). cbn [read_loop_from]. unfold frame.
  rewrite <- app_assoc, read_exact_app by by rewrite zlen_le_bytes.
  rewrite le_val_le_bytes_small by (unfold max_message_size in Hmax; unfold in_u; lia).
  rewrite decide_False by lia. destruct (Z.eqb_spec (zlen payload) 0) as [E|E].
  - apply zlen_0 in E as ->. by rewrite decide_True.
  - rewrite decide_False by (intros ->; by rewrite zlen_nil in E). by rewrite read_exact_app.
Qed.

(** Frames, then a frame that is cut off. *)
Lemma read_frames fuel payloads tail : Forall (fun p => zlen p <= max_message_size) payloads ->
  (forall fuel, read_loop_from fuel tail = []) -> (length payloads <= fuel)%nat ->
  read_loop_from fuel (concat (map frame payloads) ++ tail) = decoded payloads.
Proof.
  intros Hmax Htail. revert fuel. induction Hmax as [|p ps Hp Hps IH]; intros fuel Hf; [apply Htail|].
  cbn [length] in Hf. destruct fuel as [|fuel]; [lia|]. cbn [map concat decoded].
  rewrite <- app_assoc, read_frame, IH by (done || lia). done.
Qed.

Lemma length_frames payloads : (length payloads <= length (concat (map frame payloads)))%nat.
Proof.
  induction payloads as [|p ps IH]; [done|]. cbn [map concat length].
  unfold frame at 1. rewrite !length_app, length_le_bytes. lia.
Qed.

Lemma cut_frame payload k fuel : zlen payload <= max_message_size ->
  (k < length (frame payload))%nat -> read_loop_from fuel (take k (frame payload)) = [].
Proof.
  intros Hmax Hk. destruct fuel as [|fuel]; [done|]. cbn [read_loop_from].
  destruct (decide (k < 8)%nat) as [Hlt|Hge].
  - rewrite read_exact_short; [done|]. unfold zlen. rewrite length_take. lia.
  - assert (take k (frame payload) = le_bytes 8 (zlen payload) ++ take (k - 8) payload) as ->.
    { unfold frame. rewrite take_app_ge; rewrite length_le_bytes; [done|lia]. }
    unfold frame in Hk. rewrite length_app, length_le_bytes in Hk.
    rewrite read_exact_app by by rewrite zlen_le_bytes.
    rewrite le_val_le_bytes_small by (pose proof (zlen_nonneg payload); unfold max_message_size in Hmax; unfold in_u; lia).
    rewrite decide_False by lia. destruct (Z.eqb_spec (zlen payload) 0) as [E|E]; [unfold zlen in E; lia|].
    rewrite read_exact_short; [done|]. unfold zlen. rewrite length_take. lia.
Qed.

End Frames.
