(* ===== verification/Server.v ===== *)
(** * The command processor ([normfs/src/server/command_processor.rs])

    What a request of a client does to the facade, and the responses its sender
    gets.  A sender gives up when its client is gone. *)
From Stdlib Require Import ZArith Lia List Bool.
From Stdlib Require Import Ascii String.
From stdpp Require Import base option list gmap strings.
From S2P Require Import Prelude UBig UintN Paths Types WalFormat WalReader OrderedBuffer.
From S2P Require Import AckWriter WalWriter.
From S2P Require Import Crypto StoreFormat Store WalStore Cloud Lookup Mem ReaderFsm.
From S2P Require Import DiskMonitor NormFs Protocol.
#[local] Open Scope Z_scope.

(** ** Responses *)

(** [trait ResponseSender], whatever the transport: what it sent, and how many
    more responses it takes before the client is gone ([None]: it stays). *)
Record response_sender := {
  rs_sent : list server_response;
  rs_life : option nat;
}.

Definition send_response (response : server_response) (sender : response_sender)
    : bool * response_sender :=
  match rs_life sender with
  | Some O => (false, sender)
  | life => (true, {| rs_sent := rs_sent sender ++ [response]; rs_life := option_map pred life |})
  end.

(** [let _ = sender.send_response(response).await] *)
Definition respond (response : server_response) (sender : response_sender) : response_sender :=
  snd (send_response response sender).

(** The responses with one part, [..Default::default()]. *)
Definition setup_answer (r : setup_response) : server_response :=
  {| sv_setup := Some r; sv_ping := None; sv_write := None; sv_read := None |}.
Definition ping_answer (r : ping_response) : server_response :=
  {| sv_setup := None; sv_ping := Some r; sv_write := None; sv_read := None |}.
Definition write_answer (write_id : Z) (result : write_result) (ids : list proto_id) : server_response :=
  {| sv_setup := None; sv_ping := None;
     sv_write := Some {| wr_write_id := write_id; wr_result := write_result_code result;
                         wr_ids := ids |};
     sv_read := None |}.

(** A [ReadResponse] without an entry. *)
Definition read_answer (read_id : Z) (result : read_result) : server_response :=
  {| sv_setup := None; sv_ping := None; sv_write := None;
     sv_read := Some {| rr_read_id := read_id; rr_result := read_result_code result; rr_id := None;
                        rr_data := []; rr_data_source := 0 |} |}.

Section Server.
Context {B : Build} {U : UBig} {H : HexCrate} {X : Hasher} {S : UnstableSort}.
Context {C : CryptoLib} {Z' : CompressLib} {S3 : S3Http} {G : GlobCrate}.

(** An id on the wire. *)
Definition id_message (id : uintn) : proto_id :=
  {| id_raw := fst (uintn_write_value_to_buffer id []) |}.

Definition entry_answer (read_id : Z) (entry : read_entry) : server_response :=
  {| sv_setup := None; sv_ping := None; sv_write := None;
     sv_read := Some {| rr_read_id := read_id; rr_result := read_result_code RrEntry;
                        rr_id := Some (id_message (re_id entry)); rr_data := re_data entry;
                        rr_data_source := data_source_to_proto (re_source entry) |} |}.

(** [struct CommandProcessor]; what it knows of the facade besides its state:
    the resolver of queue names and the bytes of the instance's id. *)
Record command_processor := {
  cp_env : store_env;
  cp_resolver : queue_id_resolver;
  cp_instance_id_bytes : bytes;
}.

(** ** Setup and ping *)

Definition handle_setup (self : command_processor) (request : setup_request)
    (sender : response_sender) : response_sender :=
  respond (setup_answer {| sr_version := sq_version request;
                           sr_instance_id_bytes := cp_instance_id_bytes self;
                           sr_instance_id := instance_id (cp_resolver self) |}) sender.

(** The clocks: nanoseconds since the epoch (as [u128]; an error counts as
    zero), and a [timespec], when the call succeeds. *)
Definition get_local_stamp_ns (since_epoch : option Z) : Z :=
  match since_epoch with Some nanos => nanos mod 2 ^ 64 | None => 0 end.

Definition saturating (n : Z) : Z := Z.min n (2 ^ 64 - 1).

Definition get_monotonic_stamp_ns (ts : option (Z * Z)) : Z :=
  match ts with
  | None => 0
  | Some (tv_sec, tv_nsec) =>
      saturating (saturating (tv_sec mod 2 ^ 64 * 1000000000) + tv_nsec mod 2 ^ 64)
  end.

Definition handle_ping (since_epoch : option Z) (ts : option (Z * Z)) (request : ping_request)
    (sender : response_sender) : response_sender :=
  respond (ping_answer {| pp_local_stamp_ns := get_local_stamp_ns since_epoch;
                          pp_monotonic_stamp_ns := get_monotonic_stamp_ns ts;
                          pp_request := Some request |}) sender.

(** ** Writing *)

(** The task of a write ([None]: the fuel is not enough); a panic ends it
    without a response. *)
Definition handle_write (m : machine) (self : command_processor) (fs : norm_fs)
    (request : write_request_msg) (sender : response_sender) : option (norm_fs * response_sender) :=
  let write_id := wq_write_id request in
  let failed := respond (write_answer write_id WrServerError []) sender in
  match wq_packets request with
  | [] => Some (fs, respond (write_answer write_id WrDone []) sender)
  | packets =>
      let q := queue_id_resolve (cp_resolver self) (wq_queue_id request) in
      match ensure_queue_exists_for_write (cp_env self) m fs q with
      | None => None
      | Some (fs, Err _) => Some (fs, failed)
      | Some (fs, Panic) => Some (fs, sender)
      | Some (fs, Ok _) =>
          let '(fs, result) :=
            match packets with
            | [packet] => let '(fs, r) := enqueue fs q packet in (fs, id ← r; Ok [id])
            | _ => enqueue_batch fs q packets
            end in
          Some (fs, match result with
                    | Ok ids => respond (write_answer write_id WrDone (map id_message ids)) sender
                    | Err _ => failed
                    | Panic => sender
                    end)
      end
  end.

(** ** Reading *)

(** The id of the offset: zero when there is none. *)
Definition offset_id_of (request : read_request) : outcome uerror uintn :=
  match rq_offset request with
  | Some offset =>
      match of_id offset with
      | Some id =>
          if bool_decide (id_raw id = []) then Ok uintn_zero
          else uintn_read_value_from_slice (id_raw id) (zlen (id_raw id))
      | None => Ok uintn_zero
      end
  | None => Ok uintn_zero
  end.

Definition offset_type_of (request : read_request) : offset_type :=
  default OtAbsolute (offset ← rq_offset request; offset_type_try_from (of_type offset)).

Definition position_of (request : read_request) (offset_id : uintn) : read_position :=
  match offset_type_of request with
  | OtAbsolute => Absolute offset_id
  | OtShiftFromTail => ShiftFromTail offset_id
  end.

Definition step_of (request : read_request) : Z :=
  if rq_step request =? 0 then 1 else rq_step request.

(** The loop over the received entries: whether the client took all. *)
Fixpoint forward_entries (read_id : Z) (entries : list read_entry) (sender : response_sender)
    : bool * response_sender :=
  match entries with
  | [] => (true, sender)
  | entry :: entries =>
      match send_response (entry_answer read_id entry) sender with
      | (true, sender) => forward_entries read_id entries sender
      | (false, sender) => (false, sender)
      end
  end.

(** The result that answers an error of the read, if any. *)
Definition error_result (err : nf_error) : option read_result :=
  match err with
  | EQueueNotFound => Some RrQueueNotFound
  | ENotFound => Some RrNotFound
  | EClientDisconnected => None
  | EQueueEmpty | EWal _ | EStore _ | ECloud _ | EIo => Some RrServerError
  end.

Definition final_result (r : outcome nf_error bool) : option read_result :=
  match r with
  | Ok subscribed => if (subscribed : bool) then None else Some RrEnd
  | Err err => error_result err
  | Panic => Some RrServerError
  end.

(** What is left of the task of a read: nothing, or it waits for the entries of
    the subscription after the first [forwarded] of its channel. *)
Inductive read_task :=
| ReadFinished
| ReadWaiting (forwarded : nat).

(** The task of a read.  The reader runs ahead of the client by [ahead] entries
    when the client goes. *)
Definition handle_read (m : machine) (search_fuel fuel ahead : nat) (self : command_processor)
    (fs : norm_fs) (request : read_request) (sender : response_sender)
    : option (norm_fs * response_sender * read_task) :=
  let read_id := rq_read_id request in
  let q := queue_id_resolve (cp_resolver self) (rq_queue_id request) in
  let failed result := respond (read_answer read_id result) sender in
  match ensure_queue_exists_for_read (cp_env self) m fs q with
  | None => None
  | Some (fs, Err _) => Some (fs, failed RrServerError, ReadFinished)
  | Some (fs, Panic) => Some (fs, sender, ReadFinished)
  | Some (fs, Ok _) =>
      match offset_id_of request with
      | Err _ => Some (fs, failed RrNotFound, ReadFinished)
      | Panic => Some (fs, sender, ReadFinished)
      | Ok offset_id =>
          match send_response (read_answer read_id RrStart) sender with
          | (false, sender) => Some (fs, sender, ReadFinished)
          | (true, sender) =>
              let tx := {| ch_sent := []; ch_life := option_map (Nat.add ahead) (rs_life sender) |} in
              match read (cp_env self) search_fuel fuel fs q (position_of request offset_id)
                      (rq_limit request) (step_of request) tx with
              | None => None
              | Some (fs, rx, result) =>
                  match forward_entries read_id (ch_sent rx) sender with
                  | (false, sender) => Some (fs, sender, ReadFinished)
                  | (true, sender) =>
                      match result, final_result result with
                      | Ok true, _ => Some (fs, sender, ReadWaiting (length (ch_sent rx)))
                      | _, Some r => Some (fs, respond (read_answer read_id r) sender, ReadFinished)
                      | _, None => Some (fs, sender, ReadFinished)
                      end
                  end
              end
          end
      end
  end.

(** The loop goes on with what the subscription sent since. *)
Definition waiting_turn (read_id : Z) (forwarded : nat) (rx : channel) (sender : response_sender)
    : response_sender * read_task :=
  match forward_entries read_id (drop forwarded (ch_sent rx)) sender with
  | (true, sender) => (sender, ReadWaiting (length (ch_sent rx)))
  | (false, sender) => (sender, ReadFinished)
  end.

(** ** Requests *)

(** The tasks that [handle_request] spawns, in its order. *)
Inductive request_task :=
| SetupTask (request : setup_request)
| PingTask (request : ping_request)
| WriteTask (request : write_request_msg)
| ReadTask (request : read_request).

Definition handle_request (request : client_request) : list request_task :=
  option_list (option_map SetupTask (cr_setup request)) ++
  option_list (option_map PingTask (cr_ping request)) ++
  option_list (option_map WriteTask (cr_write request)) ++
  option_list (option_map ReadTask (cr_read request)).

(** [process_loop] of a TCP connection: the signal that the connection is done
    stops it after some turns, whatever is still waiting. *)
Fixpoint process_loop (turns : nat) (incoming : list client_request) : list request_task :=
  match turns, incoming with
  | Datatypes.S turns, request :: incoming => handle_request request ++ process_loop turns incoming
  | _, _ => []
  end.

(** ** WebSocket ([websocket.rs]) *)

(** What the loop of [handle_websocket] selects: a response to write (and
    whether the write succeeds), or what [read_frame] gives. *)
Inductive ws_event :=
| WsResponse (response : server_response) (written : bool)
| WsReadError
| WsBinary (data : bytes)
| WsClose
| WsPing (payload : bytes) (written : bool)
| WsOther.

Inductive ws_frame := FrameBinary (data : bytes) | FramePong (payload : bytes).

(** The frames it writes and the tasks it spawns. *)
Fixpoint handle_websocket {P : ProtoCodec} (events : list ws_event) : list ws_frame * list request_task :=
  match events with
  | [] | WsReadError :: _ | WsClose :: _ => ([], [])
  | WsResponse response written :: events =>
      if (written : bool) then
        let '(frames, tasks) := handle_websocket events in
        (FrameBinary (encode_response response) :: frames, tasks)
      else ([], [])
  | WsBinary data :: events =>
      let '(frames, tasks) := handle_websocket events in
      match decode_request data with
      | Some request => (frames, handle_request request ++ tasks)
      | None => (frames, tasks)
      end
  | WsPing payload written :: events =>
      if (written : bool) then
        let '(frames, tasks) := handle_websocket events in (FramePong payload :: frames, tasks)
      else ([], [])
  | WsOther :: events => handle_websocket events
  end.

End Server.
