(* ===== verification/ServerFacts.v ===== *)
(** * The server on a running facade

    A write request of a client is a call of the facade, answered with the ids
    of its packets; a read request is answered with a start, the entries and an
    end; what a client was told is written it can read back. *)
From Stdlib Require Import ZArith Lia List Bool Sorted Permutation.
From Stdlib Require Import Ascii String.
From stdpp Require Import base option list gmap strings.
From S2P Require Import Prelude UBig UintN UintNFacts Paths PathsFacts PathsSearch FileTree Types.
From S2P Require Import WalFormat WalReader WalReaderFacts WalReaderTotal OrderedBuffer AckWriter.
From S2P Require Import WalWriter WalWriterFacts Crypto StoreFormat Store StoreFacts WalStore.
From S2P Require Import Cloud Lookup LookupFacts QueueLayout WalLayout Mem MemFacts ReaderFsm.
From S2P Require Import ReaderFsmFacts DiskMonitor NormFs NormFsFacts LiveLayout StoreLive.
From S2P Require Import ReaderTail Facade FacadeFacts FacadeReads FacadeRun FacadeStart FacadeFollow.
From S2P Require Import FacadeWork FacadeClaims Protocol Server.
#[local] Open Scope Z_scope.

(** ** Senders *)

Definition open_sender (sent : list server_response) : response_sender :=
  {| rs_sent := sent; rs_life := None |}.

Lemma respond_open r sent : respond r (open_sender sent) = open_sender (sent ++ [r]).
Proof. done. Qed.

(** ** What a client makes of the responses *)

Inductive heard :=
| Started
| Received (id : proto_id) (data : bytes)
| Ended
| Refused (code : Z).

(** A response to the read [read_id] ([None]: it is none). *)
Definition hears (read_id : Z) (response : server_response) : option heard :=
  match response with
  | {| sv_setup := None; sv_ping := None; sv_write := None; sv_read := Some part |} =>
      if negb (rr_read_id part =? read_id) then None
      else match rr_id part with
      | Some id => if rr_result part =? 1 then Some (Received id (rr_data part)) else None
      | None =>
          if rr_result part =? 0 then Some Started
          else if rr_result part =? 2 then Some Ended
          else if (3 <=? rr_result part) && (rr_result part <=? 5) then Some (Refused (rr_result part))
          else None
      end
  | _ => None
  end.

Lemma hears_answer read_id r : hears read_id (read_answer read_id r) =
  match r with
  | RrStart => Some Started
  | RrEntry => None
  | RrEnd => Some Ended
  | RrQueueNotFound | RrNotFound | RrServerError => Some (Refused (read_result_code r))
  end.
Proof. cbn. rewrite Z.eqb_refl. by destruct r. Qed.

Section Server.
Context {B : Build} {U : UBig} {H : HexCrate} {X : Hasher} {S0 : UnstableSort}.
Context {C : CryptoLib} {Z' : CompressLib} {S3 : S3Http} {G : GlobCrate}.

Lemma forward_open read_id entries sent : forward_entries read_id entries (open_sender sent) =
  (true, open_sender (sent ++ map (entry_answer read_id) entries)).
Proof.
  revert sent. induction entries as [|e es IH]; intros sent; cbn; [by rewrite app_nil_r|].
  change {| rs_sent := ?x; rs_life := None |} with (open_sender x). rewrite IH. by rewrite <- app_assoc.
Qed.

Lemma hears_entry read_id e : hears read_id (entry_answer read_id e) =
  Some (Received (id_message (re_id e)) (re_data e)).
Proof. cbn. by rewrite Z.eqb_refl. Qed.

Lemma hears_entries read_id entries : map (hears read_id) (map (entry_answer read_id) entries) =
  map (fun e => Some (Received (id_message (re_id e)) (re_data e))) entries.
Proof. rewrite map_map. apply map_ext. intros e. apply hears_entry. Qed.

(** A sender takes a prefix of what it is given, all of it when it says so. *)
Lemma forward_taken read_id entries sender : exists taken left, entries = taken ++ left /\
  rs_sent (snd (forward_entries read_id entries sender)) =
    rs_sent sender ++ map (entry_answer read_id) taken /\
  (fst (forward_entries read_id entries sender) = true -> left = []).
Proof.
  revert sender. induction entries as [|e es IH]; intros sender.
  { exists [], []. split_and!; cbn; [done|by rewrite app_nil_r|done]. }
  cbn [forward_entries]. destruct (send_response (entry_answer read_id e) sender) as [[] s'] eqn:Es;
    unfold send_response in Es.
  - destruct (IH s') as (taken & left & -> & Hs & Hl). exists (e :: taken), left. split; [done|].
    split; [|exact Hl]. rewrite Hs. cbn [map]. destruct (rs_life sender) as [[|k]|]; [done|..];
      injection Es as <-; cbn [rs_sent]; by rewrite <- app_assoc.
  - exists [], (e :: es). destruct (rs_life sender) as [[|k]|]; [|done..]. injection Es as <-.
    split_and!; cbn; [done|by rewrite app_nil_r|done].
Qed.

(** An id on the wire, and back. *)
Lemma id_message_raw id : id_raw (id_message id) = uintn_value_to_bytes id.
Proof. done. Qed.

Lemma offset_roundtrip request offset id : rq_offset request = Some offset ->
  of_id offset = Some (id_message id) -> uintn_canonical id -> offset_id_of request = Ok id.
Proof.
  intros Ho Hi Hc. unfold offset_id_of. rewrite Ho, Hi, id_message_raw.
  pose proof (read_write_value id Hc) as Hr. rewrite size_in_bytes_spec in Hr.
  case_bool_decide as E; [|done]. rewrite E in Hr. cbn in Hr. injection Hr as <-. done.
Qed.

(** ** Writing *)

Section Live.
Context (env : store_env) (q : queue_id) (lo base : Z) (frame : gmap str bytes)
  (old : list qfile).

Abbreviation live := (live env q lo base frame old False).

Lemma live_opened numbered fs calls m : live numbered {| sy_fs := fs; sy_calls := calls |} ->
  ensure_queue_exists_for_write env m fs q = Some (fs, Ok tt) /\
  ensure_queue_exists_for_read env m fs q = Some (fs, Ok tt).
Proof.
  intros (s & reqs & closed & cur & arrived & mq & Hl).
  pose proof (lv_mem _ _ _ _ _ _ _ _ _ _ _ _ _ _ _ Hl) as Hm. cbn [sy_fs] in Hm.
  pose proof (lv_task _ _ _ _ _ _ _ _ _ _ _ _ _ _ _ Hl) as Ht. cbn [sy_fs] in Ht.
  assert (ms_get_last_id (nf_mem fs) q = Some (mi_last_id (mq_inner mq))) as Hg
    by (unfold ms_get_last_id; by rewrite Hm).
  unfold ensure_queue_exists_for_write, ensure_queue_exists_for_read, ws_has_writer. rewrite Hg, Ht.
  by rewrite !bool_decide_true by by eexists.
Qed.

(** The second half of a call succeeds. *)
Lemma live_sends numbered fs calls : live numbered {| sy_fs := fs; sy_calls := calls |} ->
  forall req, exists w, ws_send (nf_wal fs) q req = (w, Ok tt).
Proof.
  intros (s & reqs & closed & cur & arrived & mq & Hl) req.
  pose proof (lv_task _ _ _ _ _ _ _ _ _ _ _ _ _ _ _ Hl) as Ht. cbn [sy_fs] in Ht.
  unfold ws_send. rewrite Ht. by eexists.
Qed.

(** What a call does, as two steps of the machine. *)
Definition call_events (packets : list bytes) (k : nat) : list fs_event :=
  [match packets with [packet] => NumberOne packet | _ => NumberBatch packets end; SendCall k].

Definition write_call (fs : norm_fs) (packets : list bytes) : norm_fs * outcome nf_error (list uintn) :=
  match packets with
  | [packet] => let '(fs, r) := enqueue fs q packet in (fs, id ← r; Ok [id])
  | _ => enqueue_batch fs q packets
  end.

Lemma delete_last {A} (l : list A) x : delete (length l) (l ++ [x]) = l.
Proof. induction l as [|y l IH]; cbn; [done|]. by f_equal. Qed.

Lemma live_call numbered fs calls packets : live numbered {| sy_fs := fs; sy_calls := calls |} ->
  packets <> [] -> fits lo base old numbered packets ->
  exists fs' new, write_call fs packets = (fs', Ok (map fst new)) /\
    fs_run env q {| sy_fs := fs; sy_calls := calls |} (call_events packets (length calls)) =
      Some {| sy_fs := fs'; sy_calls := calls |} /\
    map snd new = packets /\ live (numbered ++ new) {| sy_fs := fs'; sy_calls := calls |}.
Proof.
  intros Hl Hne Hfit. destruct (live_inv _ _ _ _ _ _ _ _ _ Hl) as (mq & Hmq & Hinv). cbn [sy_fs] in Hmq.
  set (ev := match packets with [packet] => NumberOne packet | _ => NumberBatch packets end).
  assert (payload_of ev = packets) as Hpay by (by destruct packets as [|p [|]]).
  destruct (live_exec env q lo base frame old False numbered _ ev Hl) as (sys1 & new & Hx & Hn & Hl1);
    [by destruct packets as [|p [|]]|done|by rewrite Hpay|]. rewrite Hpay in Hn.
  pose proof (new_numbers env q lo base frame old False _ _ _ _ mq Hl Hl1 Hmq) as Hnew. rewrite Hn in Hnew.
  assert (exists fs1 c, sys1 = {| sy_fs := fs1; sy_calls := calls ++ [c] |} /\
    (forall w, ws_send (nf_wal fs1) q match c with SendOne id data => Enqueue id data
       | SendBatch ids data => EnqueueBatch (combine ids data) end = (w, Ok tt) ->
     write_call fs packets = (finish_call fs1 q c, Ok (map fst new)))) as (fs1 & c & -> & Hcall).
  { subst ev. destruct packets as [|p [|p' ps]]; [done| |].
    - cbn [fs_exec sy_fs sy_calls] in Hx. destruct (enqueue_number fs q p) as [fs1 [id| |]] eqn:Ee; try done.
      injection Hx as <-. exists fs1, (SendOne id p). split; [done|]. intros w Hw.
      unfold write_call, enqueue. rewrite Ee. cbn [finish_call]. unfold enqueue_send, ws_enqueue. rewrite Hw.
      ok_step. rewrite Hnew. cbn [fst]. repeat f_equal.
      unfold enqueue_number, ms_enqueue in Ee. rewrite Hmq in Ee.
      pose proof (enqueue_batch_one mq p) as H1.
      destruct (enqueue_batch_inv mq p [] Hinv) as (mq' & Hb & _). rewrite Hb in H1.
      destruct (mq_enqueue mq p) as [[mq1 id1]| |]; ok_step; try done. injection Ee as _ <-.
      by injection H1 as _ ->.
    - cbn [fs_exec sy_fs sy_calls] in Hx. destruct (batch_number fs q (p :: p' :: ps)) as [fs1 [ids| |]] eqn:Ee; try done.
      injection Hx as <-. exists fs1, (SendBatch ids (p :: p' :: ps)). split; [done|]. intros w Hw.
      unfold write_call, enqueue_batch. rewrite Ee. cbn [finish_call]. unfold batch_send, ws_enqueue_batch. rewrite Hw.
      rewrite Hnew. cbn [fst]. repeat f_equal.
      unfold batch_number, ms_enqueue_batch in Ee. rewrite Hmq in Ee.
      destruct (enqueue_batch_inv mq p (p' :: ps) Hinv) as (mq' & Hb & _). rewrite Hb in Ee. ok_step.
      by injection Ee as _ <-. }
  edestruct (live_sends _ _ _ Hl1) as [w Hw]. specialize (Hcall w Hw).
  exists (finish_call fs1 q c), new. split; [done|].
  assert ((calls ++ [c]) !! length calls = Some c) as Hk by by apply list_lookup_middle.
  split; [|split; [done|]].
  - unfold call_events. fold ev. cbn [fs_run]. rewrite Hx. cbn [fs_exec sy_calls sy_fs].
    by rewrite Hk, delete_last.
  - pose proof (live_send env q lo base frame old False _ _ (length calls) c Hl1 Hk ltac:(done)) as Hl2.
    cbn [sy_fs sy_calls] in Hl2. by rewrite delete_last in Hl2.
Qed.

(** A write request, once its queue is open. *)
Lemma write_opened m cp fs0 fs calls numbered request sent :
  queue_id_resolve (cp_resolver cp) (wq_queue_id request) = q ->
  ensure_queue_exists_for_write (cp_env cp) m fs0 q = Some (fs, Ok tt) ->
  live numbered {| sy_fs := fs; sy_calls := calls |} ->
  wq_packets request <> [] -> fits lo base old numbered (wq_packets request) ->
  exists fs' new, handle_write m cp fs0 request (open_sender sent) =
      Some (fs', open_sender (sent ++ [write_answer (wq_write_id request) WrDone
        (map (fun e => id_message (fst e)) new)])) /\
    map snd new = wq_packets request /\ live (numbered ++ new) {| sy_fs := fs'; sy_calls := calls |}.
Proof.
  intros Hq He Hl Hne Hfit.
  destruct (live_call numbered fs calls (wq_packets request) Hl Hne Hfit) as (fs' & new & Hc & _ & Hn & Hl').
  exists fs', new. split; [|by split]. unfold handle_write. rewrite Hq, He.
  unfold write_call in Hc. destruct (wq_packets request) as [|p ps]; [done|]. rewrite Hc.
  by rewrite respond_open, map_map.
Qed.

(** ** Reading *)

(** A read request of a running queue: the start, the entries, and the end,
    unless it waits for more. *)
Lemma read_runs m cp fs calls numbered request search_fuel fuel ahead offset_id sent :
  cp_env cp = env -> queue_id_resolve (cp_resolver cp) (rq_queue_id request) = q ->
  live numbered {| sy_fs := fs; sy_calls := calls |} ->
  offset_id_of request = Ok offset_id ->
  proper_read base search_fuel fuel (position_of request offset_id) (rq_limit request) (step_of request) ->
  exists fs' entries (waits : bool), handle_read m search_fuel fuel ahead cp fs request (open_sender sent) =
      Some (fs', open_sender (sent ++ read_answer (rq_read_id request) RrStart ::
        map (entry_answer (rq_read_id request)) entries ++
        if waits then [] else [read_answer (rq_read_id request) RrEnd]),
        if waits then ReadWaiting (length entries) else ReadFinished) /\
    (waits = true -> rq_limit request = 0) /\
    (1 <= rq_limit request -> map (fun e => (re_id e, re_data e)) entries =
      read_range base (position_of request offset_id) (rq_limit request) (step_of request)
        (all_entries old ++ numbered)) /\
    live numbered {| sy_fs := fs'; sy_calls := calls |}.
Proof.
  intros He Hq Hl Ho Hp. destruct (live_opened _ _ _ m Hl) as [_ Hopen].
  destruct (live_reads env q lo base frame old False _ _ _ search_fuel fuel _ _ _ new_channel Hl eq_refl Hp)
    as (fs' & ch & b & Hr & Hl' & Hex & _).
  exists fs', (ch_sent ch), b. split; [|split; [|split; [|done]]].
  - unfold handle_read. rewrite Hq, He, Hopen, Ho.
    cbn [send_response open_sender rs_life]. change {| ch_sent := []; ch_life := _ |} with new_channel.
    rewrite Hr. cbn [final_result].
    change {| rs_sent := ?x; rs_life := _ |} with (open_sender x). rewrite forward_open.
    destruct b; [by rewrite app_nil_r, <- !app_assoc|]. by rewrite respond_open, <- !app_assoc.
  - intros ->. destruct (pr_limit _ _ _ _ _ _ Hp) as [|[Hlim _]]; [done|]. by destruct (Hex Hlim).
  - intros Hlim. by destruct (Hex Hlim).
Qed.

Lemma read_running m cp fs calls numbered request search_fuel fuel ahead offset_id sent :
  cp_env cp = env -> queue_id_resolve (cp_resolver cp) (rq_queue_id request) = q ->
  live numbered {| sy_fs := fs; sy_calls := calls |} ->
  offset_id_of request = Ok offset_id -> 1 <= rq_limit request ->
  proper_read base search_fuel fuel (position_of request offset_id) (rq_limit request) (step_of request) ->
  exists fs' entries, handle_read m search_fuel fuel ahead cp fs request (open_sender sent) =
      Some (fs', open_sender (sent ++ read_answer (rq_read_id request) RrStart ::
        map (entry_answer (rq_read_id request)) entries ++
        [read_answer (rq_read_id request) RrEnd]), ReadFinished) /\
    map (fun e => (re_id e, re_data e)) entries =
      read_range base (position_of request offset_id) (rq_limit request) (step_of request)
        (all_entries old ++ numbered) /\
    live numbered {| sy_fs := fs'; sy_calls := calls |}.
Proof.
  intros He Hq Hl Ho Hlim Hp.
  destruct (read_runs m cp fs calls numbered request search_fuel fuel ahead offset_id sent He Hq Hl Ho Hp)
    as (fs' & entries & waits & Hr & Hw & Hex & Hl').
  destruct waits; [by specialize (Hw eq_refl); lia|]. exists fs', entries. split; [done|]. split; [by apply Hex|done].
Qed.

(** One whose offset is no id is refused. *)
Lemma read_refused m cp fs calls numbered request search_fuel fuel ahead e sent :
  cp_env cp = env -> queue_id_resolve (cp_resolver cp) (rq_queue_id request) = q ->
  live numbered {| sy_fs := fs; sy_calls := calls |} -> offset_id_of request = Err e ->
  handle_read m search_fuel fuel ahead cp fs request (open_sender sent) =
    Some (fs, open_sender (sent ++ [read_answer (rq_read_id request) RrNotFound]), ReadFinished).
Proof.
  intros He Hq Hl Ho. destruct (live_opened _ _ _ m Hl) as [_ Hopen].
  unfold handle_read. by rewrite Hq, He, Hopen, Ho, respond_open.
Qed.

End Live.

(** What a run of entries with consecutive ids selects from a log. *)
Lemma range_of_run base pre new post first : consecutive base (pre ++ new ++ post) ->
  head (map fst new) = Some first ->
  read_range base (Absolute first) (zlen new) 1 (pre ++ new ++ post) = new.
Proof.
  intros Hc Hf. unfold read_range. cbn [first_point]. destruct new as [|e es] eqn:En; [done|].
  injection Hf as Hf. apply consecutive_app in Hc as [Hpre Hc]. apply consecutive_app in Hc as [Hnew Hpost].
  pose proof (proj1 Hnew) as Hv. rewrite Hf in Hv. set (new' := e :: es) in *.
  assert (forall x, point_until (uintn_val first) (uintn_val first + (zlen new' - 1) * 1) 1 x =
    bool_decide (uintn_val first <= uintn_val (fst x) <= uintn_val first + (zlen new' - 1))) as Hpt.
  { intros x. unfold point_until, at_point. rewrite Z.mod_1_r, (bool_decide_true (0 = 0)), andb_true_r by done.
    rewrite <- bool_decide_and. apply bool_decide_ext. lia. }
  rewrite (filter_ext _ _ Hpt), !List.filter_app.
  rewrite (filter_none _ pre), (filter_none _ post), app_nil_r; cbn [app].
  - apply filter_all. intros x Hx. pose proof (consecutive_in _ _ _ Hnew Hx). apply bool_decide_true. lia.
  - intros x Hx. pose proof (consecutive_in _ _ _ Hpost Hx). apply bool_decide_false. lia.
  - intros x Hx. pose proof (consecutive_in _ _ _ Hpre Hx). apply bool_decide_false. lia.
Qed.

End Server.
