(* ===== verification/ServerClaims.v ===== *)
(** * What clients of the server can rely on

    What a client was told is written it can read back; every read is answered
    in the order of the protocol; frames carry messages. *)
From Stdlib Require Import ZArith Lia List Bool Sorted Permutation.
From Stdlib Require Import Ascii String.
From Stdlib Require Strings.Byte.
From stdpp Require Import base option list gmap strings.
From S2P Require Import Prelude UBig UintN UintNFacts Paths PathsFacts PathsSearch FileTree Types.
From S2P Require Import WalFormat WalReader WalReaderFacts WalReaderTotal OrderedBuffer AckWriter.
From S2P Require Import WalWriter WalWriterFacts Crypto StoreFormat Store StoreFacts WalStore.
From S2P Require Import Cloud Lookup LookupFacts QueueLayout WalLayout Mem MemFacts ReaderFsm.
From S2P Require Import ReaderFsmFacts DiskMonitor NormFs NormFsFacts LiveLayout StoreLive.
From S2P Require Import ReaderTail Facade FacadeFacts FacadeReads FacadeRun FacadeStart FacadeFollow.
From S2P Require Import FacadeWork FacadeClaims Protocol Server ServerFacts.
#[local] Open Scope Z_scope.

Section Claims.
Context {B : Build} {U : UBig} {H : HexCrate} {X : Hasher} {S0 : UnstableSort}.
Context {C : CryptoLib} {Z' : CompressLib} {S3 : S3Http} {G : GlobCrate}.







(** ** The order of the answers *)

(** The responses of the task of a read: nothing, an error, or a start, entries and at most
    one last response, after which the task is over. *)
Definition read_answered (read_id : Z) (task : read_task) (responses : list server_response) : Prop :=
  responses = [] \/
  (exists r, (r = RrServerError \/ r = RrNotFound) /\ responses = [read_answer read_id r] /\
     task = ReadFinished) \/
  (exists entries final,
     responses = read_answer read_id RrStart :: map (entry_answer read_id) entries ++ final /\
     (final = [] \/ task = ReadFinished /\ exists r,
        In r [RrEnd; RrQueueNotFound; RrNotFound; RrServerError] /\ final = [read_answer read_id r])).

Lemma final_in r x : final_result r = Some x -> In x [RrEnd; RrQueueNotFound; RrNotFound; RrServerError].
Proof. destruct r as [[]|[]|]; cbn; intros [= <-]; auto. Qed.

Lemma respond_sent r sender : rs_sent (respond r sender) = rs_sent sender \/
  rs_sent (respond r sender) = rs_sent sender ++ [r].
Proof. unfold respond, send_response. destruct (rs_life sender) as [[|n]|]; [by left|by right..]. Qed.

(** One response more, or none when the client is gone. *)
Lemma failed_conversation read_id r sender : r = RrServerError \/ r = RrNotFound ->
  exists responses, rs_sent (respond (read_answer read_id r) sender) = rs_sent sender ++ responses /\
    read_answered read_id ReadFinished responses.
Proof.
  intros Hr. destruct (respond_sent (read_answer read_id r) sender) as [-> | ->].
  - exists []. rewrite app_nil_r. split; [done|by left].
  - eexists. split; [reflexivity|]. right. left. by exists r.
Qed.

Lemma read_answered_holds m search_fuel fuel ahead cp fs request sender fs' sender' task :
  handle_read m search_fuel fuel ahead cp fs request sender = Some (fs', sender', task) ->
  exists responses, rs_sent sender' = rs_sent sender ++ responses /\
    read_answered (rq_read_id request) task responses.
Proof.
  unfold handle_read. set (id := rq_read_id request).
  assert (forall sender, exists responses, rs_sent sender = rs_sent sender ++ responses /\
    read_answered id ReadFinished responses) as Hnone
    by (intros s; exists []; rewrite app_nil_r; split; [done|by left]).
  destruct (ensure_queue_exists_for_read _ _ _ _) as [[fs1 [u|e|]]|]; [|intros [= <- <- <-]|intros [= <- <- <-]|done];
    [|by apply failed_conversation; left|done].
  destruct (offset_id_of request) as [offset_id|e|]; [|intros [= <- <- <-]..];
    [|by apply failed_conversation; right|done].
  destruct (send_response (read_answer id RrStart) sender) as [[] s1] eqn:Es; unfold send_response in Es.
  2:{ intros [= <- <- <-]. destruct (rs_life sender) as [[|n]|]; [|done..]. by injection Es as <-. }
  assert (rs_sent s1 = rs_sent sender ++ [read_answer id RrStart]) as Hs1
    by (destruct (rs_life sender) as [[|n]|]; [done|..]; by injection Es as <-).
  destruct (read _ _ _ _ _ _ _ _ _) as [[[fs2 rx] result]|]; [|done].
  destruct (forward_taken id (ch_sent rx) s1) as (taken & left & _ & Hs2 & _).
  destruct (forward_entries id (ch_sent rx) s1) as [all s2]. cbn [snd] in Hs2.
  assert (forall task final s', rs_sent s' = rs_sent s2 ++ final ->
    (final = [] \/ task = ReadFinished /\ exists r,
        In r [RrEnd; RrQueueNotFound; RrNotFound; RrServerError] /\ final = [read_answer id r]) ->
    exists responses, rs_sent s' = rs_sent sender ++ responses /\ read_answered id task responses) as Hconv.
  { intros t final s' Hf Hfin. eexists. split; [by rewrite Hf, Hs2, Hs1, <- !app_assoc|].
    right. right. by exists taken, final. }
  assert (forall t, exists responses, rs_sent s2 = rs_sent sender ++ responses /\ read_answered id t responses) as Hstop
    by (intros t; apply (Hconv t []); [by rewrite app_nil_r|by left]).
  destruct all; [|by intros [= <- <- <-]].
  assert (forall r, final_result result = Some r -> exists responses,
    rs_sent (respond (read_answer id r) s2) = rs_sent sender ++ responses /\
    read_answered id ReadFinished responses) as Hlast.
  { intros r Hr. destruct (respond_sent (read_answer id r) s2) as [->|E]; [apply Hstop|].
    apply (Hconv _ _ _ E). right. split; [done|]. exists r. split; [by eapply final_in|done]. }
  destruct result as [[]|err|]; cbn [final_result] in *; [by intros [= <- <- <-]|..];
    [intros [= <- <- <-]; by apply Hlast| |intros [= <- <- <-]; by apply Hlast].
  destruct (error_result err) as [r|]; intros [= <- <- <-]; [by apply Hlast|apply Hstop].
Qed.

(** What the client hears: nothing, an error, or a start, then entries, then at
    most one end or error, after which the task is over. *)
Definition read_conversation (task : read_task) (said : list (option heard)) : Prop :=
  said = [] \/
  (exists code, 4 <= code <= 5 /\ said = [Some (Refused code)] /\ task = ReadFinished) \/
  (exists entries final,
     said = Some Started :: map (fun e => Some (Received (fst e) (snd e))) entries ++ final /\
     (final = [] \/ task = ReadFinished /\
        (final = [Some Ended] \/ exists code, 3 <= code <= 5 /\ final = [Some (Refused code)]))).

Lemma answered_heard read_id task responses : read_answered read_id task responses ->
  read_conversation task (map (hears read_id) responses).
Proof.
  intros [->|[(r & Hr & -> & ->)|(entries & final & -> & Hf)]]; [by left|right; left|right; right].
  - exists (read_result_code r). cbn [map]. rewrite hears_answer. destruct Hr as [-> | ->]; by split_and!.
  - exists (map (fun e => (id_message (re_id e), re_data e)) entries), (map (hears read_id) final).
    cbn [map]. rewrite map_app, hears_entries, hears_answer, map_map. split; [done|].
    destruct Hf as [->|(-> & r & Hr & ->)]; [by left|right]. split; [done|]. cbn [map]. rewrite hears_answer.
    destruct Hr as [<-|[<-|[<-|[<-|[]]]]]; [by left|right; refine (ex_intro _ _ (conj _ eq_refl)); cbn; lia..].
Qed.

(** The shape of every conversation that ends, in any state and whatever the
    client: nothing (the client is gone or the task died), an error at once, or a
    start, then entries, then at most one last response, which ends the task; all
    under the id of the request. *)
Theorem read_conversation_shape m search_fuel fuel ahead cp fs request sender fs' sender' task :
  handle_read m search_fuel fuel ahead cp fs request sender = Some (fs', sender', task) ->
  exists responses, rs_sent sender' = rs_sent sender ++ responses /\
    read_conversation task (map (hears (rq_read_id request)) responses).
Proof.
  intros Hr. destruct (read_answered_holds _ _ _ _ _ _ _ _ _ _ _ Hr) as (responses & Hs & Hc).
  exists responses. split; [exact Hs|]. by apply answered_heard.
Qed.





End Claims.

Section Frames.
Context {P : ProtoCodec}.

(** C25: frames carry messages: of the bytes of any frames and a last one that
    is cut off anywhere, the server reads exactly the requests in the frames, in
    order, up to the first that is no message; empty frames are skipped. *)
Theorem frames_carry_requests payloads cut k :
  Forall (fun p => zlen p <= max_message_size) payloads -> zlen cut <= max_message_size ->
  (k < length (frame cut))%nat ->
  read_loop (concat (map frame payloads) ++ take k (frame cut)) = decoded payloads.
Proof.
  intros Hp Hc Hk. apply read_frames; [done|intros fuel; by apply cut_frame|].
  rewrite length_app. pose proof (length_frames payloads). lia.
Qed.

End Frames.

(** ** A client of the second process *)

(** The demo's packets go through a codec of one-byte messages. *)
Definition demo_codec : ProtoCodec :=
  {| decode_request payload :=
       match payload with
       | [b] => Some {| cr_setup := None; cr_ping := Some {| pq_sequence := byte_val b; pq_client_timestamp_ns := 0 |};
                        cr_write := None; cr_read := None |}
       | _ => None
       end;
     encode_response _ := [] |}.

Lemma frames_carry_requests_witness :
  map (fun r => option_map pq_sequence (cr_ping r))
    (read_loop (P := demo_codec) (concat (map frame [[Byte.x05]; []; [Byte.x07]]) ++ take 8 (frame [Byte.x09]))) =
  [Some 5; Some 7].
Proof.
  rewrite (frames_carry_requests (P := demo_codec) [[Byte.x05]; []; [Byte.x07]] [Byte.x09] 8);
    [reflexivity| |done|cbn; lia].
  repeat constructor; done.
Defined.

Definition demo_processor : command_processor :=
  {| cp_env := sample_env; cp_resolver := {| instance_id := s2l "i" |}; cp_instance_id_bytes := [] |}.


(** A read of a queue without files: a start and an end. *)
Definition demo_unknown : read_request :=
  {| rq_read_id := 9; rq_queue_id := s2l "x"; rq_step := 0; rq_offset := None; rq_limit := 1 |}.
Definition demo_answer :=
  handle_read (B := checked_build) (S3 := S3Http_map)
    {| mc_create := []; mc_io := []; mc_stuck := fun _ => false; mc_upload := []; mc_fuel := 4 |} 4 40 0
    demo_processor (normfs_new (S3 := S3Http_map) sample_env demo_settings None (s2l "i") demo_disk (fun _ => false))
    demo_unknown (open_sender []).

Lemma demo_answered :
  match demo_answer with
  | Some (_, sender, _) => bool_decide (map (fun r => option_map rr_result (sv_read r)) (rs_sent sender) =
                                        [Some 0; Some 2])
  | None => false
  end = true.
Proof. vm_compute. reflexivity. Qed.

Lemma read_conversation_shape_witness :
  match demo_answer with
  | Some (_, sender, task) =>
      rs_sent sender <> [] /\ read_conversation task (map (hears 9) (rs_sent sender))
  | None => False
  end.
Proof.
  pose proof demo_answered as Hd. destruct demo_answer as [[[fs sender] task]|] eqn:E; [|discriminate Hd].
  split; [intros En; rewrite En in Hd; discriminate Hd|].
  destruct (read_conversation_shape (B := checked_build) (S3 := S3Http_map) _ _ _ _ _ _ _ _ _ _ _ E)
    as (responses & Hr & Hc).
  change (rs_sent (open_sender [])) with (@nil server_response) in Hr. cbn [app] in Hr. rewrite Hr. exact Hc.
Defined.


