(* ===== verification/Connection.v ===== *)
(** * A TCP connection ([normfs/src/server/client_handler.rs],
      [ClientHandler::handle_connection])

    The three loops of a connection and the task that waits for them, with the
    channels between them, as a machine.  What the loops read and write is in
    [Protocol], what a request starts in [Server]. *)
From Stdlib Require Import ZArith Lia List Bool.
From Stdlib Require Import Ascii String.
From Stdlib Require Strings.Byte.
From stdpp Require Import base option list gmap strings.
From S2P Require Import Prelude UBig UintN Types WalFormat WalReader Protocol Server.
#[local] Open Scope Z_scope.

Section Connection.
Context {P : ProtoCodec}.

Definition request_channel_buffer : nat := 10.
Definition response_channel_buffer : nat := 10.

(** A loop, then its [done_tx.send], then its end. *)
Inductive loop_at := Looping | Signals | Ended.

(** [handle_connection]: in [process_loop], before [read_handle.await], before
    [write_handle.await], returned. *)
Inductive main_at := Serving | AwaitsRead | AwaitsWrite | Closed.

(** The requests the input still has; the loops; the channels of requests, of
    responses and of signals (one place); the tasks of the requests.  Of the
    past: the requests served, the responses accepted, the bytes written. *)
Record connection := {
  cn_unread : list client_request;
  cn_read : loop_at;
  cn_incoming : list client_request;
  cn_main : main_at;
  cn_tasks : list request_task;
  cn_outgoing : list server_response;
  cn_write : loop_at;
  cn_done : bool;
  cn_served : list client_request;
  cn_answers : list server_response;
  cn_socket : bytes;
}.

Definition connection_start (input : bytes) : connection :=
  {| cn_unread := read_loop input; cn_read := Looping; cn_incoming := []; cn_main := Serving;
     cn_tasks := []; cn_outgoing := []; cn_write := Looping; cn_done := false;
     cn_served := []; cn_answers := []; cn_socket := [] |}.

(** Who holds a sender of responses: [handle_connection] until it returns, the
    [response_sender] of [process_loop], and every task of a request. *)
Definition response_senders (c : connection) : nat :=
  match cn_main c with Closed => 0 | Serving => 2 | _ => 1 end + length (cn_tasks c).

Definition with_read (c : connection) (unread : list client_request) (read : loop_at)
    (incoming : list client_request) (signalled : bool) : connection :=
  {| cn_unread := unread; cn_read := read; cn_incoming := incoming; cn_main := cn_main c;
     cn_tasks := cn_tasks c; cn_outgoing := cn_outgoing c; cn_write := cn_write c; cn_done := signalled;
     cn_served := cn_served c; cn_answers := cn_answers c; cn_socket := cn_socket c |}.

Definition with_main (c : connection) (incoming : list client_request) (main : main_at)
    (tasks : list request_task) (signalled : bool) (served : list client_request) : connection :=
  {| cn_unread := cn_unread c; cn_read := cn_read c; cn_incoming := incoming; cn_main := main;
     cn_tasks := tasks; cn_outgoing := cn_outgoing c; cn_write := cn_write c; cn_done := signalled;
     cn_served := served; cn_answers := cn_answers c; cn_socket := cn_socket c |}.

Definition with_write (c : connection) (tasks : list request_task) (outgoing : list server_response)
    (write : loop_at) (signalled : bool) (answers : list server_response) (socket : bytes) : connection :=
  {| cn_unread := cn_unread c; cn_read := cn_read c; cn_incoming := cn_incoming c; cn_main := cn_main c;
     cn_tasks := tasks; cn_outgoing := outgoing; cn_write := write; cn_done := signalled;
     cn_served := cn_served c; cn_answers := answers; cn_socket := socket |}.

(** What happens next: the read loop hands a request over or ends; a loop
    signals; [process_loop] takes a request, or a signal; a task sends a response,
    or ends; the write loop writes a response, all of it or so many bytes before
    an error, or ends; [handle_connection] finds the task it waits for ended. *)
Inductive connection_event :=
| ReadTurn
| ReadSignals
| ServeTurn
| DoneTurn
| TaskSends (task : nat) (response : server_response)
| TaskEnds (task : nat)
| WriteTurn (error : option nat)
| WriteSignals
| JoinTurn.

(** [None]: not enabled. *)
Definition connection_exec (c : connection) (ev : connection_event) : option connection :=
  match ev with
  | ReadTurn =>
      match cn_read c, cn_unread c with
      | Looping, request :: unread =>
          if decide (length (cn_incoming c) < request_channel_buffer)%nat
          then Some (with_read c unread Looping (cn_incoming c ++ [request]) (cn_done c)) else None
      | Looping, [] => Some (with_read c [] Signals (cn_incoming c) (cn_done c))
      | _, _ => None
      end
  | ReadSignals =>
      match cn_read c, cn_done c with
      | Signals, false => Some (with_read c (cn_unread c) Ended (cn_incoming c) true)
      | _, _ => None
      end
  | ServeTurn =>
      match cn_main c, cn_incoming c with
      | Serving, request :: incoming =>
          Some (with_main c incoming Serving (cn_tasks c ++ handle_request request) (cn_done c)
                  (cn_served c ++ [request]))
      | _, _ => None
      end
  | DoneTurn =>
      match cn_main c, cn_done c with
      | Serving, true => Some (with_main c (cn_incoming c) AwaitsRead (cn_tasks c) false (cn_served c))
      | _, _ => None
      end
  | TaskSends task response =>
      match cn_tasks c !! task, cn_write c with
      | None, _ => None
      | Some _, Ended => Some c
      | Some _, write =>
          if decide (length (cn_outgoing c) < response_channel_buffer)%nat
          then Some (with_write c (cn_tasks c) (cn_outgoing c ++ [response]) write (cn_done c)
                       (cn_answers c ++ [response]) (cn_socket c))
          else None
      end
  | TaskEnds task =>
      match cn_tasks c !! task with
      | Some _ => Some (with_main c (cn_incoming c) (cn_main c) (delete task (cn_tasks c)) (cn_done c) (cn_served c))
      | None => None
      end
  | WriteTurn error =>
      match cn_write c, cn_outgoing c with
      | Looping, response :: outgoing =>
          let block := frame (encode_response response) in
          match error with
          | None => Some (with_write c (cn_tasks c) outgoing Looping (cn_done c) (cn_answers c) (cn_socket c ++ block))
          | Some k =>
              Some (with_write c (cn_tasks c) outgoing Signals (cn_done c) (cn_answers c) (cn_socket c ++ take k block))
          end
      | Looping, [] =>
          if decide (response_senders c = 0)%nat
          then Some (with_write c (cn_tasks c) [] Signals (cn_done c) (cn_answers c) (cn_socket c)) else None
      | _, _ => None
      end
  | WriteSignals =>
      match cn_write c, cn_done c with
      | Signals, false =>
          Some (with_write c (cn_tasks c) (cn_outgoing c) Ended true (cn_answers c) (cn_socket c))
      | _, _ => None
      end
  | JoinTurn =>
      match cn_main c, cn_read c, cn_write c with
      | AwaitsRead, Ended, _ => Some (with_main c (cn_incoming c) AwaitsWrite (cn_tasks c) (cn_done c) (cn_served c))
      | AwaitsWrite, _, Ended => Some (with_main c (cn_incoming c) Closed (cn_tasks c) (cn_done c) (cn_served c))
      | _, _, _ => None
      end
  end.

Fixpoint connection_run (c : connection) (evs : list connection_event) : option connection :=
  match evs with
  | [] => Some c
  | ev :: evs => match connection_exec c ev with Some c => connection_run c evs | None => None end
  end.

(** ** Order *)

(** Requests go through in order; what the socket has is responses in order, the
    last one perhaps cut. *)
Record in_order (input : bytes) (c : connection) : Prop := {
  io_requests : read_loop input = cn_served c ++ cn_incoming c ++ cn_unread c;
  io_responses : exists sent rest cut, cn_answers c = sent ++ rest /\ cn_socket c = write_loop sent ++ cut /\
    (cn_write c = Looping -> cut = [] /\ rest = cn_outgoing c) /\
    (cut = [] \/ exists response more k, rest = response :: more /\
       cut = take k (frame (encode_response response)));
}.

Lemma write_loop_snoc sent response :
  write_loop (sent ++ [response]) = write_loop sent ++ frame (encode_response response).
Proof. unfold write_loop. rewrite map_app, concat_app. cbn. by rewrite app_nil_r. Qed.

Lemma exec_in_order input c ev c' : in_order input c -> connection_exec c ev = Some c' -> in_order input c'.
Proof.
  intros [Hq (sent & rest & cut & Ha & Hs & Hl & Hc)] He.
  destruct ev as [| | | |task response|task|error| |]; cbn [connection_exec] in He.
  - destruct (cn_read c) in He; try done. destruct (cn_unread c) as [|r l] eqn:E; [|case_decide; [|done]];
      injection He as <-; (split; cbn -[read_loop write_loop]; [|by exists sent, rest, cut]); rewrite ?E in Hq; [done|by rewrite Hq, <- !app_assoc].
  - destruct (cn_read c) in He; try done. destruct (cn_done c) in He; [done|]. injection He as <-.
    split; cbn -[read_loop write_loop]; [done|by exists sent, rest, cut].
  - destruct (cn_main c) in He; try done. destruct (cn_incoming c) as [|r l] eqn:E; [done|]. injection He as <-.
    split; cbn -[read_loop write_loop]; [by rewrite Hq, ?E, <- !app_assoc|by exists sent, rest, cut].
  - destruct (cn_main c) in He; try done. destruct (cn_done c) in He; [|done]. injection He as <-.
    split; cbn -[read_loop write_loop]; [done|by exists sent, rest, cut].
  - destruct (cn_tasks c !! task) in He; [|done].
    destruct (cn_write c) eqn:E in He; [case_decide; [|done]..|]; injection He as <-; (split; [done|]); cbn -[read_loop write_loop];
      [|exists sent, (rest ++ [response]), cut; rewrite Ha, app_assoc; split_and!; try done;
        destruct Hc as [?|(r0 & more & k & -> & ?)]; [by left|right; by eexists _, _, _]|by exists sent, rest, cut].
    destruct (Hl E) as [-> ->].
    exists sent, (cn_outgoing c ++ [response]), []. rewrite Ha, app_assoc. split_and!; try done; by left.
  - destruct (cn_tasks c !! task) in He; [|done]. injection He as <-. split; cbn -[read_loop write_loop]; [done|by exists sent, rest, cut].
  - destruct (cn_write c) eqn:E in He; try done. destruct (Hl E) as [-> ->]. rewrite app_nil_r in Hs.
    destruct (cn_outgoing c) as [|r l] eqn:Eo in He.
    { case_decide; [|done]. injection He as <-. split; [done|]. exists sent, (cn_outgoing c), [].
      cbn -[read_loop write_loop]. rewrite app_nil_r. split_and!; try done; by left. }
    rewrite Eo in Ha. destruct error as [k|]; injection He as <-; (split; [done|]); cbn -[read_loop write_loop].
    + exists sent, (r :: l), (take k (frame (encode_response r))). rewrite Hs. split_and!; try done.
      right. by eexists _, _, _.
    + exists (sent ++ [r]), l, []. rewrite Ha, Hs, write_loop_snoc, <- app_assoc, app_nil_r.
      split_and!; try done; by left.
  - destruct (cn_write c) in He; try done. destruct (cn_done c) in He; [done|]. injection He as <-.
    split; [done|]. cbn -[read_loop write_loop]. by exists sent, rest, cut.
  - destruct (cn_main c), (cn_read c), (cn_write c) eqn:E in He; try done; injection He as <-;
      (split; [done|]); cbn -[read_loop write_loop]; by exists sent, rest, cut.
Qed.

(** C21: a connection keeps the order: at every moment the requests that were
    served are a prefix of those in the bytes the client sent, in order, and the
    bytes on the socket are the frames of a prefix of the responses that the tasks
    gave, in order, followed at most by a part of the next one when a write
    failed. *)
Theorem connection_keeps_order input evs c : connection_run (connection_start input) evs = Some c ->
  (exists waiting, read_loop input = cn_served c ++ waiting) /\
  exists sent rest cut, cn_answers c = sent ++ rest /\ cn_socket c = write_loop sent ++ cut /\
    (cn_write c = Looping -> cut = []) /\
    (cut = [] \/ exists response more k, rest = response :: more /\
       cut = take k (frame (encode_response response))).
Proof.
  assert (forall c0, in_order input c0 -> connection_run c0 evs = Some c -> in_order input c) as Hrun.
  { induction evs as [|ev evs IH]; intros c0 Hi Hr; [by injection Hr as <-|]. cbn [connection_run] in Hr.
    destruct (connection_exec c0 ev) as [c1|] eqn:He; [|done]. apply (IH c1); [by eapply exec_in_order|done]. }
  assert (in_order input (connection_start input)) as Hstart
    by (split; [done|exists [], [], []; split_and!; try done; by left]).
  intros Hr. destruct (Hrun _ Hstart Hr) as [Hq (sent & rest & cut & Ha & Hs & Hl & Hc)].
  split; [by eexists|]. exists sent, rest, cut. split_and!; try done. by intros [? _]%Hl.
Qed.

(** ** The end of a connection *)

Lemma senders_held c : cn_main c <> Closed -> response_senders c <> 0%nat.
Proof. unfold response_senders. by destruct (cn_main c). Qed.

(** C40: a connection whose writes succeed never closes: its write loop waits for
    responses as long as somebody holds a sender, and the task that waits for the
    write loop holds one itself. *)
Theorem connection_stays_open input evs c : connection_run (connection_start input) evs = Some c ->
  Forall (fun ev => match ev with WriteTurn (Some _) => False | _ => True end) evs ->
  cn_main c <> Closed /\ cn_write c = Looping.
Proof.
  assert (forall c0, cn_main c0 <> Closed /\ cn_write c0 = Looping -> connection_run c0 evs = Some c ->
    Forall (fun ev => match ev with WriteTurn (Some _) => False | _ => True end) evs ->
    cn_main c <> Closed /\ cn_write c = Looping) as Hrun; [|intros Hr; by apply (Hrun (connection_start input))].
  induction evs as [|ev evs IH]; intros c0 Hi Hr Hf; [by injection Hr as <-|]. cbn [connection_run] in Hr.
  destruct (connection_exec c0 ev) as [c1|] eqn:He; [|done]. apply Forall_cons in Hf as [Hev Hf].
  apply (IH c1); [|done..]. destruct Hi as [Hm Hw].
  destruct ev as [| | | |task response|task|[k|]| |]; cbn [connection_exec] in He; rewrite ?Hw in He;
    repeat (case_match; simplify_eq); try done.
  exfalso. eapply senders_held; done.
Qed.

End Connection.

(** ** A client that asks once and leaves *)

(** Messages of one byte: a ping, and the stamp of its answer. *)
Definition demo_ping_codec : ProtoCodec :=
  {| decode_request payload :=
       match payload with
       | [b] => Some {| cr_setup := None; cr_ping := Some {| pq_sequence := byte_val b; pq_client_timestamp_ns := 0 |};
                        cr_write := None; cr_read := None |}
       | _ => None
       end;
     encode_response response :=
       match sv_ping response with Some ping => [byte_of (pp_local_stamp_ns ping)] | None => [] end |}.

Definition demo_pong : server_response :=
  ping_answer {| pp_local_stamp_ns := 5; pp_monotonic_stamp_ns := 0; pp_request := None |}.

(** The ping is answered, the input ends, the loops end as far as they can. *)
Definition demo_visit : list connection_event :=
  [ReadTurn; ServeTurn; TaskSends 0 demo_pong; ReadTurn; TaskEnds 0; ReadSignals; DoneTurn; JoinTurn;
   WriteTurn None].
Definition demo_input : bytes := frame [Byte.x05].

Definition demo_left : connection :=
  default (connection_start (P := demo_ping_codec) demo_input)
    (connection_run (P := demo_ping_codec) (connection_start (P := demo_ping_codec) demo_input) demo_visit).

Lemma demo_left_run :
  connection_run (P := demo_ping_codec) (connection_start (P := demo_ping_codec) demo_input) demo_visit =
  Some demo_left.
Proof. vm_compute. reflexivity. Qed.

(** Nothing can happen any more: the write loop waits for the task, which waits
    for the write loop. *)
Example demo_left_stuck ev : connection_exec (P := demo_ping_codec) demo_left ev = None.
Proof. by destruct ev as [| | | |[|task] response|[|task]|[k|]| |]. Qed.

Lemma connection_stays_open_witness : cn_main demo_left <> Closed /\ cn_write demo_left = Looping.
Proof.
  apply (connection_stays_open (P := demo_ping_codec) demo_input demo_visit).
  - exact demo_left_run.
  - repeat constructor.
Defined.

Lemma connection_keeps_order_witness : exists sent rest cut,
  cn_answers demo_left = sent ++ rest /\ frame [Byte.x05] = write_loop (P := demo_ping_codec) sent ++ cut.
Proof.
  destruct (connection_keeps_order (P := demo_ping_codec) demo_input demo_visit demo_left)
    as (_ & sent & rest & cut & Ha & Hs & _).
  - exact demo_left_run.
  - exists sent, rest, cut. split; [exact Ha|]. exact Hs.
Defined.
